(* ===== verification/_CoqProject ===== *)
-Q . S2P
Prelude.v
Types.v
Config.v
Json.v
Store.v
ScanState.v
BlockIndex.v
Checker.v
Topics.v
Validation.v
Publish.v
Nodes.v
Replicas.v
Align.v
ForkScan.v
Window.v
ScanBatch.v
Process.v
Health.v
Progress.v
ScanProgress.v
ScanSystem.v
ScanRefine.v
Lock.v
Leader.v
Service.v
Cluster.v
Api.v
Lifecycle.v
