(* ===== verification/Prelude.v ===== *)
(** * The consistency checker

    A verification development for the service under src/: it follows the blocks of one
    chain from an inner Kafka topic, waits until enough replica nodes have them, keeps a
    local index of the canonical chain, corrects the fork marks of the blocks' objects on
    S3, and announces the blocks on outer Kafka topics.  Beside the processing goroutine a
    worker scans old heights for wrong fork marks, and in version mode one member at a time,
    the leader, also writes to the shared ("singleton") topic.

    ** How the program is modelled

    Everything outside the process -- S3, Kafka, etcd, the replica nodes, the clock, timers,
    cancellation, the scheduler -- is one function [env] (Checker.v) from the history of all
    requests and answers to the next answer.  A [World] is an [env], the state of the
    checker, the database and the history; an operation of the code is a function in the
    monad [M] from a world to its result and the next world, with the code's name, its
    branches and its early returns.  No assumption is made on [env] in general: theorems
    state what they need (a bucket that stores what is put, a clock that does not run
    backwards, a topic that only grows, an etcd server).  Pebble, the RLP codec, the text
    forms of hashes and of JSON, and the YAML decoder are classes with laws or arguments,
    each with a concrete instance for the witnesses.  Integers are Z with the wrap-around
    of their width written out ([u64], [i64], [dur_mul]); float64 is IEEE binary64 of the
    standard library.  A Go panic of a goroutine is the result [None].  Reasoning is by
    weakest preconditions ([wp]) and frame lemmas ([keeps]).

    ** The files

    - Prelude.v: Go errors, machine integers, bounded loops, byte strings.
    - Types.v: hashes, blocks and notifications (records of the pipeline package).
    - Config.v: config/config.go and the checks of cmd/checker/main.go on a loaded file.
    - Json.v: what encoding/json does with the values the service decodes.
    - Store.v, ScanState.v, BlockIndex.v: db/: the key-value store, the durable cursor of the
      fork scan (db/fork_scan.go), the block index (db/consistency.go).
    - Checker.v: the state of check/check.go, the requests, the monad and its rules.
    - Topics.v: [GetLastOuterBlockNotice] and the contract of a Kafka topic.
    - Validation.v: retries, S3 keys and listings, fork marks (check/check.go).
    - Publish.v: delivery records and publication (check/check.go).
    - Nodes.v, Replicas.v: nodes/; the quorum of replicas and its record in etcd.
    - Align.v: common ancestors and the alignment of the singleton topic.
    - ForkScan.v: check/fork_scan.go and check/fork_scan_batch.go; the worker takes the steps
      of other goroutines as an argument and runs them wherever it does not hold the lock.
    - Window.v: the window scan against its reference, one pass over the heights.
    - ScanBatch.v: the batch of the worker as a machine of small steps, and that the code runs it.
    - Process.v: [processNotice] and [Run].
    - Health.v, Progress.v, ScanProgress.v: what a healthy environment answers, and what the
      processing goroutine and the scan worker achieve in one.
    - ScanSystem.v, ScanRefine.v: the abstract scan system, and that the code refines it.
    - Lock.v, Leader.v: check/etcd_lock.go and the leadership of check/check.go, the start
      and the shutdown of the service.
    - Service.v: the goroutines together, and the type invariant of the checker's state.
    - Cluster.v: several members of one version, their leases and the singleton topic.
    - Api.v: cmd/checker/server.go.
    - Lifecycle.v: cmd/checker/main.go: start, signals, the goroutines, the end of [Run],
      shutdown, restart.

    ** What the theorems show

    Fork scan.  The abstract specification is the transition system of ScanSystem.v, whose
    configurations record which heights were scanned and how often their canonical block
    was replaced: in every interleaving with the processing goroutine and with restarts, no
    height below the durable cursor was left unscanned since its canonical block last
    changed ([no_height_skipped]).  Runs of the code's batch and of [processNotice]
    are paths of that system ([scan_batch_refines], [process_path]); the batch is
    moreover a run of the machine of ScanBatch.v, which says what it plans, verifies, writes
    and commits, and why it ends.  The assumptions of [no_height_skipped]:
    notifications carry 64-bit heights and the first new block is the lowest.  A
    batch commits only what it verified under the lock; a height matures only after the
    interval, in one generation ([schedule_matures_after_interval]).  A window scan is one pass over the last heights ([window_scan_is_reference]).

    Publication.  Whatever fails and however often it is retried, each topic receives the
    notices of a notification in order and once ([publish_exactly_once]), and all of them when the
    broker answers; a notification's own topics get them only
    after the index was written ([index_before_publication]); a replay is not published
    again, though its alignment may still write for the leader ([replay_only_aligns]); an
    offset is committed when its message was skipped as old or its notification published
    and, in continuous mode, noted in the cursor ([commit_after_process]).  A publication that
    stopped between two of several new blocks is refused for ever
    ([partial_publication_is_stuck]).

    Block index.  A write is atomic, makes exactly the new blocks canonical, keeps the
    canonical heights an interval, rewinds the scan cursor below every height it changed, and
    what was written is what queries return, up to the text of the JSON-RPC requests ([queries_agree]).

    Replicas.  A notification is released only when etcd recorded a higher height less than
    a second ago or on a quorum of the nodes of the last poll at its height, whose lowest
    height is recorded ([notify_needs_quorum]); a failed check records none
    ([notify_failure_only_deletes]); polling ends within its timeout, and the node map mirrors the keys of etcd, through watches that
    break off, events that arrive twice and reloads that fail ([node_map_mirrors_etcd]).

    Progress.  When the environment is healthy (Health.v says of each service what that asks),
    a turn of the main loop processes, publishes and commits its message ([turn_completes]), and
    the worker's batches reach the mature height ([worker_catches_up]).

    Singleton topic.  The walk for the common ancestor finds the fork point, an
    alignment writes exactly what leads from the topic's last notice to the version's, and
    the aligned flag is raised only by one.

    Leadership.  An acquisition succeeds only by taking the leader key under its own fresh lease; two
    members never hold live leases of the same leader key ([leader_exclusive], against the laws
    of an etcd server, which asks that no other transaction writes that key: those of the
    replica record do not, [notify_spares_leader_key]); the watchdog's counter is "three failures in a row"; the
    checker is aligned only while it leads, under every interleaving ([service_well_formed]).
    In a cluster only a member that holds its lock starts writing to the singleton
    topic; the write itself carries no fence, so a member whose lease ended may write until it
    notices ([singleton_single_writer]).

    Start and shutdown.  Between two looks at [quit] the main loop makes at most one fetch,
    attempt or commit, and the first look that finds it closed is its last request
    ([run_heeds_quit]); its loops end once [quit] is closed ([run_quits]).  The clients and
    the database are closed in a fixed order, all of them unless [Close] timed out, which
    ends the process just as well; once the reader is closed, before all the rest, what is
    left over -- the version check, the watchdog, the watch of the nodes, the HTTP server --
    asks only etcd and reads the database ([shutdown_is_last]).

    Several theorems show behaviour that looks unintended; they are listed as findings of
    the manifest: [partial_publication_is_stuck], [failed_height_is_lost], [align_retry_loses_drop],
    [negative_number_aliases], [write_negative_validation_fails], [slash_version_breaks_keys],
    [negative_answer_is_ready], [lease_change_ignored], [lock_survives_shutdown],
    [restart_forgets_latest].

    ** Bounds

    A loop that the code does not bound ([loopM], [loop_pos]) has the bound [2 ^ 64], in
    binary, so that it still evaluates.  Loops over heights cannot reach it, because a height
    is a 64-bit integer ([clean_above_spec], [common_ancestor_found]); retries bounded by a
    time limit get the number of turns that fit into it ([wait_is_bounded]); for
    loops that wait on others for ever (the main loop, the lock, the watchdog) it stands for no
    bound, and using it up is a result of its own.  Two loops may not end in the code, when
    S3 answers with a next page for ever or block files form a cycle of parents: here they
    end with an error after [2 ^ 64] turns, and theorems claim that the code returns only
    under hypotheses that rule this out ([common_ancestor_found], [turn_completes]).  A scan batch has at most 128 heights, as in
    the code.

    ** Not modelled

    - metrics/metrics.go declares collectors; of the calls that set them, only the two that
      Publish.v records are kept.  Log output is not modelled.
    - Signals and the deadline of the shutdown are steps that may come at any time.  What the
      HTTP framework answers by itself is one constructor of [http_answer].
    - Goroutines that run side by side for speed only (the prefetch, the writes of one notice
      to its topics, the checks of the nodes) run one after the other; the waiting for a
      prefetched result, and the limit on how many run at once, are therefore not separate.
    - In Lifecycle.v a step of a goroutine is atomic: an [Acquire] that waits for etcd while it
      holds the checker's mutex keeps others waiting in the code, which is not represented;
      nor is a panic there, which ends the process.
    - The node map is shared by reference: its operations are functions of the map, and the
      checker's reads of it are requests.
    - The watchdog renews the lease its lock was acquired with; the code reads the lease field
      at each tick, and the field can have been cleared by a release that also ends
      the watchdog.

    This file: notations, errors, machine integers, bounded loops. *)
From stdpp Require Export base gmap sets list strings pretty.
From Stdlib Require Export ZArith Lia.
From Stdlib Require Export Ascii.

Declare Scope checker_scope.
Delimit Scope checker_scope with chk.
Open Scope checker_scope.
#[global] Open Scope Z_scope.

Create HintDb chk discriminated.
Create HintDb keeps discriminated.

(** ** Go errors

    A Go [error] is a value that [errors.Is] compares through wrapping.  The
    sentinel errors the source compares against are constructors of their own;
    [ErrWrap] is [fmt.Errorf("...: %w", err)] and [ErrJoin] is [errors.Join]. *)
Inductive err :=
  | ErrNotFound                       (* pebble.ErrNotFound *)
  | ErrScanStale                      (* check.errScanStale *)
  | ErrScanNoCanonical                (* check.errScanNoCanonical *)
  | ErrCanceled                       (* context.Canceled *)
  | ErrDeadline                       (* context.DeadlineExceeded *)
  | ErrMsg (msg : string)             (* any other leaf error *)
  | ErrWrap (ctx : string) (e : err)
  | ErrJoin (e1 e2 : err).

#[export] Instance err_eq_dec : EqDecision err.
Proof. solve_decision. Defined.

(** [errors.Is err target] for a sentinel target. *)
Fixpoint err_is (e target : err) : bool :=
  bool_decide (e = target) ||
  match e with
  | ErrWrap _ e' => err_is e' target
  | ErrJoin e1 e2 => err_is e1 target || err_is e2 target
  | _ => false
  end.

(** [errors.Join] on two possibly nil errors. *)
Definition err_join (a b : option err) : option err :=
  match a, b with
  | Some x, Some y => Some (ErrJoin x y)
  | Some x, None => Some x
  | None, y => y
  end.

(** A Go pair [(T, error)]: the value when the error is nil, the error otherwise. *)
Inductive res (A : Type) :=
  | Ok (a : A)
  | Fail (e : err).
Arguments Ok {A} a.
Arguments Fail {A} e.

#[export] Instance res_eq_dec {A} `{EqDecision A} : EqDecision (res A).
Proof. solve_decision. Defined.

Definition res_bind {A B} (m : res A) (f : A → res B) : res B :=
  match m with Ok a => f a | Fail e => Fail e end.

Definition is_ok {A} (m : res A) : bool := match m with Ok _ => true | Fail _ => false end.

Notation "'let!' x := m 'in' k" := (res_bind m (λ x, k))
  (at level 10, x pattern, m at level 100, k at level 200) : checker_scope.
Notation "'check!' c 'else' e 'in' k" := (if (c : bool) then k else Fail e)
  (at level 10, c at level 100, e at level 100, k at level 200) : checker_scope.

Lemma res_bind_ok {A B} (m : res A) (f : A → res B) b :
  res_bind m f = Ok b ↔ ∃ a, m = Ok a ∧ f a = Ok b.
Proof. destruct m; naive_solver. Qed.

Lemma res_bind_fail {A B} (m : res A) (f : A → res B) e :
  res_bind m f = Fail e ↔ m = Fail e ∨ ∃ a, m = Ok a ∧ f a = Fail e.
Proof. destruct m; naive_solver. Qed.

(** Inverts every [let!] that returned [Ok]. *)
Ltac res_inv :=
  repeat match goal with
  | H : res_bind _ _ = Ok _ |- _ =>
      let a := fresh "a" in let Ha := fresh "Ha" in
      apply res_bind_ok in H as (a & Ha & H)
  | H : (if ?c then _ else Fail _) = Ok _ |- _ =>
      let Hc := fresh "Hc" in destruct c eqn:Hc; [|discriminate H]
  | H : (if ?c then Fail _ else _) = Ok _ |- _ =>
      let Hc := fresh "Hc" in destruct c eqn:Hc; [discriminate H|]
  | H : Ok _ = Ok _ |- _ => injection H as H; try subst
  | H : Fail _ = Ok _ |- _ => discriminate H
  end.

(** A run whose result has been computed, as an equation between pairs. *)
Lemma run_eq {A B} (r : A * B) a : r.1 = a → r = (a, r.2).
Proof. by destruct r; simpl; intros ->. Qed.

(** ** 64-bit unsigned integers: [Z] with the wrap-around written out *)
Definition MaxUint64 : Z := 2 ^ 64 - 1.
Definition MaxInt64 : Z := 2 ^ 63 - 1.
Definition u64 (z : Z) : Z := z mod 2 ^ 64.
Definition i64 (z : Z) : Z := (z + 2 ^ 63) mod 2 ^ 64 - 2 ^ 63.
Definition is_u64 (z : Z) : Prop := 0 ≤ z ≤ MaxUint64.

Lemma u64_id z : is_u64 z → u64 z = z.
Proof. unfold is_u64, u64, MaxUint64. intros. apply Z.mod_small. lia. Qed.

Lemma u64_range z : is_u64 (u64 z).
Proof. unfold is_u64, u64, MaxUint64. pose proof (Z.mod_pos_bound z (2 ^ 64)). lia. Qed.

Lemma u64_succ z : is_u64 z → z ≠ MaxUint64 → u64 (z + 1) = z + 1.
Proof. unfold is_u64. intros. apply u64_id. unfold is_u64. lia. Qed.

#[export] Hint Resolve u64_range : chk.

(** ** Loops with a binary iteration bound

    [loop_pos p f s] runs the loop body [f] at most [p] times and stops at the
    first [inr].  The bound is a [positive], so a loop of up to [2 ^ 64]
    iterations is written with its true bound and still evaluates, because the
    recursion stops as soon as the body does. *)
Fixpoint loop_pos {S R} (p : positive) (f : S → S + R) (s : S) : S + R :=
  match p with
  | xH => f s
  | xO p => match loop_pos p f s with inl s' => loop_pos p f s' | inr r => inr r end
  | xI p => match f s with
            | inl s' => match loop_pos p f s' with
                        | inl s'' => loop_pos p f s''
                        | inr r => inr r
                        end
            | inr r => inr r
            end
  end.

(** Partial correctness: an invariant of the body is one of the loop. *)
Lemma loop_pos_inv {S R} (f : S → S + R) (Inv : S → Prop) (Post : R → Prop) :
  (∀ s, Inv s → match f s with inl s' => Inv s' | inr r => Post r end) →
  ∀ p s, Inv s → match loop_pos p f s with inl s' => Inv s' | inr r => Post r end.
Proof.
  intros Hstep. induction p as [p IH|p IH|]; intros s Hs; simpl; [| |by apply Hstep].
  - specialize (Hstep s Hs). destruct (f s) as [s'|r]; [|done].
    specialize (IH s' Hstep) as H1. destruct (loop_pos p f s') as [s''|r]; [|done]. by apply IH.
  - specialize (IH s Hs) as H1. destruct (loop_pos p f s) as [s'|r]; [|done]. by apply IH.
Qed.

Section loop.
Context {S R : Type} (f : S → S + R) (m : S → Z) (Inv : S → Prop) (Post : R → Prop).
Hypothesis Hstep : ∀ s, Inv s →
  match f s with inl s' => Inv s' ∧ m s' ≤ m s - 1 | inr r => Post r end.

(** After [p] iterations the loop has stopped in [Post], or its measure has
    dropped by at least [p]. *)
Lemma loop_pos_step p s : Inv s →
  match loop_pos p f s with
  | inl s' => Inv s' ∧ m s' ≤ m s - Z.pos p
  | inr r => Post r
  end.
Proof using Hstep.
  revert s; induction p as [p IH|p IH|]; intros s Hs; simpl.
  - specialize (Hstep s Hs). destruct (f s) as [s'|r]; [|done].
    destruct Hstep as [Hi Hm]. pose proof (IH s' Hi) as H1.
    destruct (loop_pos p f s') as [s''|r]; [|done].
    destruct H1 as [Hi1 Hm1]. pose proof (IH s'' Hi1) as H2.
    destruct (loop_pos p f s''); [|done]. destruct H2. split; [done|lia].
  - pose proof (IH s Hs) as H1. destruct (loop_pos p f s) as [s'|r]; [|done].
    destruct H1 as [Hi1 Hm1]. pose proof (IH s' Hi1) as H2.
    destruct (loop_pos p f s'); [|done]. destruct H2. split; [done|lia].
  - specialize (Hstep s Hs). destruct (f s) as [s'|r]; [|done].
    destruct Hstep. split; [done|lia].
Qed.

(** A bound above the measure is never exhausted. *)
Lemma loop_pos_total p s : Inv s → (∀ s, Inv s → 0 ≤ m s) → m s < Z.pos p →
  ∃ r, loop_pos p f s = inr r ∧ Post r.
Proof using Hstep.
  intros Hs Hpos Hlt. pose proof (loop_pos_step p s Hs) as H.
  destruct (loop_pos p f s) as [s'|r]; [|eauto].
  destruct H as [Hi Hm]. specialize (Hpos s' Hi). lia.
Qed.
End loop.

(** ** Bytes

    A Go [[]byte] and a Go [string] are both [string], a list of 8-bit
    characters. *)


Definition byte_of_Z (z : Z) : ascii := Ascii.ascii_of_N (Z.to_N (z mod 256)).
Definition Z_of_byte (c : ascii) : Z := Z.of_N (Ascii.N_of_ascii c).

Lemma Z_of_byte_of_Z z : Z_of_byte (byte_of_Z z) = z mod 256.
Proof.
  unfold Z_of_byte, byte_of_Z. pose proof (Z.mod_pos_bound z 256).
  rewrite Ascii.N_ascii_embedding by lia. lia.
Qed.

(** [big.Int.Bytes]: the absolute value, big-endian, no leading zero byte. *)
Fixpoint be_bytes_go (fuel : nat) (z : Z) (acc : string) : string :=
  match fuel with
  | O => acc
  | S fuel => if z =? 0 then acc else be_bytes_go fuel (z / 256) (String (byte_of_Z z) acc)
  end.
Definition be_bytes (z : Z) : string :=
  be_bytes_go (Z.to_nat (Z.log2 (Z.abs z) + 1)) (Z.abs z) "".

(** [big.Int.SetBytes]. *)
Fixpoint be_value_go (v : Z) (s : string) : Z :=
  match s with
  | EmptyString => v
  | String c s => be_value_go (v * 256 + Z_of_byte c) s
  end.
Definition be_value (s : string) : Z := be_value_go 0 s.

Lemma be_bytes_go_value fuel : ∀ z acc, 0 ≤ z < 2 ^ Z.of_nat fuel →
  be_value_go 0 (be_bytes_go fuel z acc) = be_value_go z acc.
Proof.
  induction fuel as [|fuel IH]; intros z acc Hz; cbn [be_bytes_go].
  { replace z with 0 by (simpl in Hz; lia). done. }
  destruct (Z.eqb_spec z 0) as [->|Hne]; [done|].
  rewrite IH.
  - simpl. rewrite Z_of_byte_of_Z. f_equal. pose proof (Z.div_mod z 256). lia.
  - split; [apply Z.div_pos; lia|].
    apply Z.div_lt_upper_bound; [lia|].
    rewrite Nat2Z.inj_succ, Z.pow_succ_r in Hz by lia. lia.
Qed.

Lemma be_value_bytes z : be_value (be_bytes z) = Z.abs z.
Proof.
  unfold be_value, be_bytes. rewrite be_bytes_go_value; [done|].
  rewrite Z2Nat.id by (pose proof (Z.log2_nonneg (Z.abs z)); lia).
  split; [lia|].
  destruct (Z.eq_dec (Z.abs z) 0) as [->|]; [by compute|].
  pose proof (Z.log2_spec (Z.abs z)). rewrite <- Z.add_1_r in *. lia.
Qed.

Lemma be_bytes_inj a b : be_bytes a = be_bytes b → Z.abs a = Z.abs b.
Proof. intros H. rewrite <- !be_value_bytes. by rewrite H. Qed.

(** ** Lowercase hexadecimal ([hex.EncodeToString]) *)
Definition hex_digit (z : Z) : ascii :=
  Ascii.ascii_of_N (Z.to_N (if z <? 10 then 48 + z else 87 + z)).
Fixpoint hex_encode (s : string) : string :=
  match s with
  | EmptyString => ""
  | String c s => String (hex_digit (Z_of_byte c / 16))
                    (String (hex_digit (Z_of_byte c mod 16)) (hex_encode s))
  end.

Lemma hex_digit_inj x y : 0 ≤ x < 16 → 0 ≤ y < 16 → hex_digit x = hex_digit y → x = y.
Proof.
  unfold hex_digit. intros Hx Hy H. apply (f_equal Ascii.N_of_ascii) in H.
  rewrite !Ascii.N_ascii_embedding in H; repeat case_match; lia.
Qed.

Lemma Z_of_byte_range c : 0 ≤ Z_of_byte c < 256.
Proof. unfold Z_of_byte. pose proof (Ascii.N_ascii_bounded c). lia. Qed.

Lemma Z_of_byte_inj c d : Z_of_byte c = Z_of_byte d → c = d.
Proof.
  unfold Z_of_byte. intros H. rewrite <- (Ascii.ascii_N_embedding c).
  rewrite <- (Ascii.ascii_N_embedding d). f_equal. lia.
Qed.

#[export] Instance hex_encode_inj : Inj (=) (=) hex_encode.
Proof.
  intros s; induction s as [|c s IH]; intros [|d t]; simpl; try done.
  intros H. injection H as H1 H2 H3.
  pose proof (Z_of_byte_range c). pose proof (Z_of_byte_range d).
  apply hex_digit_inj in H1; [|split; [apply Z.div_pos; lia|apply Z.div_lt_upper_bound; lia]..].
  apply hex_digit_inj in H2; [|apply Z.mod_pos_bound; lia..].
  f_equal; [|by apply IH]. apply Z_of_byte_inj.
  rewrite (Z.div_mod (Z_of_byte c) 16), (Z.div_mod (Z_of_byte d) 16) by lia. lia.
Qed.

(** ** ASCII case folding ([strings.EqualFold] on ASCII text) *)
Definition fold_char (c : ascii) : ascii :=
  let n := Z_of_byte c in
  if (65 <=? n) && (n <=? 90) then byte_of_Z (n + 32) else c.
Fixpoint fold_case (s : string) : string :=
  match s with
  | EmptyString => EmptyString
  | String c s => String (fold_char c) (fold_case s)
  end.
Definition EqualFold (s t : string) : bool := bool_decide (fold_case s = fold_case t).

(** [strings.Split s sep] for a one-character separator. *)
Fixpoint split_on (sep : ascii) (s : string) : list string :=
  match s with
  | EmptyString => [""]
  | String c s =>
      if bool_decide (c = sep) then "" :: split_on sep s
      else match split_on sep s with
           | [] => [String c ""]
           | w :: ws => String c w :: ws
           end
  end.

(** [sep] does not occur in [s]. *)
Fixpoint free_of (sep : ascii) (s : string) : bool :=
  match s with
  | EmptyString => true
  | String c s => negb (bool_decide (c = sep)) && free_of sep s
  end.

Lemma split_on_free sep s : free_of sep s = true → split_on sep s = [s].
Proof.
  induction s as [|c s IH]; simpl; [done|].
  case_bool_decide; simpl; [done|]. intros H1. by rewrite IH.
Qed.

Lemma split_on_cons sep s t : free_of sep s = true →
  split_on sep (s +:+ String sep t) = s :: split_on sep t.
Proof.
  induction s as [|c s IH]; simpl.
  - by rewrite bool_decide_true.
  - case_bool_decide; simpl; [done|]. intros H1. by rewrite IH.
Qed.

Lemma prefix_app s t : String.prefix s (s +:+ t) = true.
Proof. induction s as [|c s IH]; [by destruct t|]. simpl. by destruct (Ascii.ascii_dec c c). Qed.
Lemma string_app_assoc (a b c : string) : (a +:+ b) +:+ c = a +:+ (b +:+ c).
Proof.
  induction a as [|x a IH]; [done|].
  change (String x ((a +:+ b) +:+ c) = String x (a +:+ (b +:+ c))). by rewrite IH.
Qed.

Lemma string_app_length (a b : string) :
  String.length (a +:+ b) = (String.length a + String.length b)%nat.
Proof.
  induction a as [|x a IH]; [done|].
  change (S (String.length (a +:+ b)) = S (String.length a + String.length b)). by rewrite IH.
Qed.

Lemma string_app_inj_len (a b c d : string) :
  String.length a = String.length c → a +:+ b = c +:+ d → a = c ∧ b = d.
Proof.
  revert c; induction a as [|x a IH]; intros [|y c] Hl H; simpl in *; try done.
  change (String x (a +:+ b) = String y (c +:+ d)) in H.
  injection H as -> H. destruct (IH c ltac:(lia) H) as [-> ->]. done.
Qed.
