(* ===== verification/Types.v ===== *)
(** * Types: hashes, blocks, notifications and the text forms of hashes

    The records of the pipeline package are not under src/; each record here has
    exactly the fields the checker reads or writes. *)
From S2P Require Import Prelude.

(** ** 32-byte hashes ([common.Hash], [common.HashLength] = 32) *)
Definition HashLength : nat := 32.

Record Hash := mkHash {
  hash_bytes : string;
  hash_len : Is_true (bool_decide (String.length hash_bytes = HashLength))
}.

Lemma hash_eq (a b : Hash) : hash_bytes a = hash_bytes b → a = b.
Proof.
  destruct a as [x Hx], b as [y Hy]; simpl. intros ->. f_equal. apply Is_true_pi.
Qed.

#[export] Instance hash_eq_dec : EqDecision Hash.
Proof.
  refine (λ a b, cast_if (decide (hash_bytes a = hash_bytes b))).
  - by apply hash_eq.
  - by intros ->.
Defined.

Lemma hash_length (h : Hash) : String.length (hash_bytes h) = HashLength.
Proof. destruct h as [s Hs]; simpl. by apply bool_decide_spec in Hs. Qed.

(** [common.BytesToHash] on a slice whose length has been checked. *)
Definition to_hash (s : string) : option Hash :=
  match decide (Is_true (bool_decide (String.length s = HashLength))) with
  | left H => Some (mkHash s H)
  | right _ => None
  end.

Lemma to_hash_bytes h : to_hash (hash_bytes h) = Some h.
Proof.
  unfold to_hash. destruct (decide _) as [H|H].
  - f_equal. by apply hash_eq.
  - destruct H. apply bool_decide_spec, hash_length.
Qed.

Lemma to_hash_Some s h : to_hash s = Some h → hash_bytes h = s.
Proof. unfold to_hash. destruct (decide _); naive_solver. Qed.

Lemma to_hash_is_Some s : String.length s = HashLength → is_Some (to_hash s).
Proof.
  intros H. unfold to_hash. destruct (decide _) as [|Hn]; [eauto|].
  destruct Hn. by apply bool_decide_spec.
Qed.

#[export] Instance hash_countable : Countable Hash :=
  inj_countable hash_bytes to_hash to_hash_bytes.

Fixpoint repeat_char (c : ascii) (n : nat) : string :=
  match n with O => EmptyString | S n => String c (repeat_char c n) end.

(** [common.Hash{}]. *)
Definition zero_hash : Hash := mkHash (repeat_char (byte_of_Z 0) 32) I.

(** The text form of a hash is produced and parsed by go-ethereum. *)
Class HashText := {
  hash_string : Hash → string;              (* Hash.String, MarshalText *)
  hash_parse : string → option Hash         (* UnmarshalText *)
}.

(** What the checker relies on: the text form identifies the hash up to letter
    case, contains no path separator, and parses back. *)
Class HashTextLaws `{HashText} : Prop := {
  hash_string_fold h1 h2 :
    EqualFold (hash_string h1) (hash_string h2) = true → h1 = h2;
  hash_string_no_slash h : free_of "/"%char (hash_string h) = true;
  hash_parse_string h : hash_parse (hash_string h) = Some h
}.

(** ** Blocks and notifications *)
Record BlockContext := mkBlockContext {
  BlockNumber : Z;
  BlockHash : Hash;
  ParentHash : Hash;
  Timestamp : Z
}.

#[export] Instance block_context_eq_dec : EqDecision BlockContext.
Proof. solve_decision. Defined.

(** [types.BlockChangeNotification]: both lists run from the lowest height up. *)
Record BlockChangeNotification := mkNotice {
  NewBlocks : list BlockContext;
  DropBlocks : list BlockContext
}.

(** [types.OuterBlockChangeNotification]. *)
Record OuterNotice := mkOuterNotice {
  ON_BlockNumber : Z;
  ON_Hash : Hash;
  ON_ChainID : Z;
  ON_Timestamp : Z;
  ON_IsFork : bool
}.

#[export] Instance outer_notice_eq_dec : EqDecision OuterNotice.
Proof. solve_decision. Defined.

(** [types.BlockValidation]. *)
Record BlockValidation := mkValidation {
  V_ValidationHash : Z;
  V_IsFork : bool
}.

#[export] Instance block_validation_eq_dec : EqDecision BlockValidation.
Proof. solve_decision. Defined.

Definition set_V_IsFork (b : bool) (v : BlockValidation) : BlockValidation :=
  mkValidation (V_ValidationHash v) b.

(** Heights and timestamps are [uint64]. *)
Definition block_wf (b : BlockContext) : Prop := is_u64 (BlockNumber b).
Definition blocks_wf (l : list BlockContext) : Prop := Forall block_wf l.

(** The last element of a non-empty Go slice ([s[len(s)-1]]). *)
Definition tail_block (l : list BlockContext) : option BlockContext := last l.

(** ** A concrete text form

    ["0x"] followed by lowercase hex digits, used where a witness needs a value
    for the class above. *)
Definition nib_of_char (c : ascii) : option Z :=
  let n := Z_of_byte c in
  if (48 <=? n) && (n <=? 57) then Some (n - 48)
  else if (97 <=? n) && (n <=? 102) then Some (n - 87)
  else if (65 <=? n) && (n <=? 70) then Some (n - 55) else None.

Fixpoint hex_decode (s : string) : option string :=
  match s with
  | EmptyString => Some EmptyString
  | String a (String b s) =>
      x ← nib_of_char a; y ← nib_of_char b; t ← hex_decode s;
      Some (String (byte_of_Z (x * 16 + y)) t)
  | _ => None
  end.

Definition demo_hash_parse (s : string) : option Hash :=
  match s with
  | String "0" (String "x" s) => t ← hex_decode s; to_hash t
  | _ => None
  end.

Definition demo_hash_text : HashText :=
  {| hash_string h := String "0" (String "x" (hex_encode (hash_bytes h))); hash_parse := demo_hash_parse |}.

(** The hash whose first byte is [b] and whose other bytes are zero. *)
Definition hashOf (b : Z) : Hash := mkHash (String (byte_of_Z b) (repeat_char (byte_of_Z 0) 31)) I.

(** A hexadecimal digit decodes, folds to itself and is not a slash. *)
Lemma hex_digit_facts n : 0 ≤ n < 16 →
  nib_of_char (hex_digit n) = Some n ∧ fold_char (hex_digit n) = hex_digit n ∧
  hex_digit n ≠ "/"%char.
Proof.
  intros H.
  assert (n = 0 ∨ n = 1 ∨ n = 2 ∨ n = 3 ∨ n = 4 ∨ n = 5 ∨ n = 6 ∨ n = 7 ∨ n = 8 ∨ n = 9 ∨
          n = 10 ∨ n = 11 ∨ n = 12 ∨ n = 13 ∨ n = 14 ∨ n = 15) as Hn by lia.
  repeat destruct Hn as [->|Hn]; try subst n; by vm_compute.
Qed.

Lemma nibbles c : 0 ≤ Z_of_byte c / 16 < 16 ∧ 0 ≤ Z_of_byte c mod 16 < 16 ∧
  byte_of_Z (Z_of_byte c / 16 * 16 + Z_of_byte c mod 16) = c.
Proof.
  pose proof (Z_of_byte_range c). split_and!.
  1,2: try (apply Z.div_pos; lia); try (apply Z.div_lt_upper_bound; lia).
  1,2: apply Z.mod_pos_bound; lia.
  apply Z_of_byte_inj. rewrite Z_of_byte_of_Z.
  rewrite (Z.div_mod (Z_of_byte c) 16) at 3 by lia.
  rewrite Z.mod_small; [lia|]. pose proof (Z.div_mod (Z_of_byte c) 16). lia.
Qed.

Lemma hex_encode_facts s :
  hex_decode (hex_encode s) = Some s ∧ fold_case (hex_encode s) = hex_encode s ∧
  free_of "/"%char (hex_encode s) = true.
Proof.
  induction s as [|c s (IH1 & IH2 & IH3)]; [done|].
  destruct (nibbles c) as (H1 & H2 & H3).
  destruct (hex_digit_facts _ H1) as (Ha1 & Ha2 & Ha3).
  destruct (hex_digit_facts _ H2) as (Hb1 & Hb2 & Hb3).
  cbn [hex_encode hex_decode fold_case free_of].
  rewrite Ha1, Hb1, Ha2, Hb2. simpl. rewrite IH1, IH2, IH3. simpl.
  rewrite !bool_decide_false by done. simpl. by rewrite H3.
Qed.

#[export] Instance demo_hash_text_laws : @HashTextLaws demo_hash_text.
Proof.
  split; simpl.
  - intros h1 h2. unfold EqualFold. rewrite bool_decide_eq_true. simpl.
    intros H. injection H as H. rewrite !(proj1 (proj2 (hex_encode_facts _))) in H.
    apply hash_eq. by apply (inj hex_encode).
  - intros h. simpl. apply hex_encode_facts.
  - intros h. rewrite (proj1 (hex_encode_facts _)). simpl. apply to_hash_bytes.
Qed.
