(* ===== verification/Config.v ===== *)
(** * Config: the configuration record, its defaults, validation and modes
    (config/config.go, and the checks cmd/checker/main.go makes on a loaded file) *)
From Stdlib Require Export SpecFloat.
From S2P Require Import Prelude.

(** ** [float64]: IEEE 754 binary64 *)
Definition float64 : Type := spec_float.
Definition f64_prec : Z := 53.
Definition f64_emax : Z := 1024.
(** [float64(n)] for an integer [n]. *)
Definition f64_of_int (n : Z) : float64 := binary_normalize f64_prec f64_emax n 0 false.
Definition f64_div (x y : float64) : float64 := SFdiv f64_prec f64_emax x y.
(** [x >= y]; false when either is NaN. *)
Definition f64_geb (x y : float64) : bool := SFleb y x.
(** The binary64 value nearest to 0.8. *)
Definition f64_0_8 : float64 := f64_div (f64_of_int 8) (f64_of_int 10).

(** The fields of [config.Config] that the modelled code reads. *)
Record Config := mkConfig {
  Listen : string;
  ReadyRatio : float64;
  CheckInterval : Z;
  CheckTimeout : Z;
  RpcNodeTimeout : Z;
  MsgWaitTimeout : Z;
  ChainID : Z;
  Version : string;
  OuterVersionNewBlockTopic : string;
  EtcdWriteTimeout : Z;
  EtcdLockTTL : Z;
  VersionCheckInterval : Z;
  ForkScanInterval : Z;
  ForkScanLookback : Z
}.

Definition defaultConfig : Config := {|
  Listen := ":8663";
  ReadyRatio := f64_0_8;
  CheckInterval := 20;
  CheckTimeout := 2000;
  RpcNodeTimeout := 5000;
  MsgWaitTimeout := 5000;
  ChainID := 0;
  Version := "";
  OuterVersionNewBlockTopic := "";
  EtcdWriteTimeout := 5000;
  EtcdLockTTL := 20;
  VersionCheckInterval := 5;
  ForkScanInterval := 60;
  ForkScanLookback := 64
|}.

(** [time.Second], [time.Millisecond] in nanoseconds. *)
Definition Second : Z := 1000000000.
Definition Millisecond : Z := 1000000.
(** Multiplication of [time.Duration], an int64. *)
Definition dur_mul (n unit : Z) : Z := i64 (n * unit).

Definition IsVersionMode (c : Config) : bool :=
  negb (bool_decide (Version c = "")) && negb (bool_decide (OuterVersionNewBlockTopic c = "")).

Definition Validate (c : Config) : option err :=
  if ForkScanLookback c <? -1 then
    Some (ErrMsg "fork_scan_lookback must be -1 (continuous), 0 (disabled), or positive")
  else if MaxInt64 / Second <? ForkScanInterval c then
    Some (ErrMsg "fork_scan_interval_sec exceeds the maximum supported duration")
  else None.

Definition ContinuousForkScan (c : Config) : bool :=
  (0 <? ForkScanInterval c) && (ForkScanLookback c =? -1).

(** [decodeConfig]: the YAML decoder overwrites the defaults in place; it is a
    parameter, the function from the starting value to the decoded value and its
    error. *)
Definition decodeConfig (yaml : Config → Config * option err) : Config * option err :=
  let '(c, e) := yaml defaultConfig in
  match e with
  | Some _ => (c, e)
  | None => (c, Validate c)
  end.

(** [LoadConfig]: the opened file is what the decoder makes of it; [None] is
    [log.Fatalf], as below. *)
Definition LoadConfig (configFile : res (Config → Config * option err)) : option Config :=
  match configFile with
  | Fail _ => None
  | Ok yaml => match decodeConfig yaml with (_, Some _) => None | (c, None) => Some c end
  end.

Definition parseCmdlineAndLoadConfig (listen : string) (configFile : res (Config → Config * option err))
    : option Config :=
  match LoadConfig configFile with
  | None => None
  | Some f =>
      let f := if bool_decide (listen = "") then f else
        {| Listen := listen; ReadyRatio := ReadyRatio f; CheckInterval := CheckInterval f;
           CheckTimeout := CheckTimeout f; RpcNodeTimeout := RpcNodeTimeout f;
           MsgWaitTimeout := MsgWaitTimeout f; ChainID := ChainID f; Version := Version f;
           OuterVersionNewBlockTopic := OuterVersionNewBlockTopic f;
           EtcdWriteTimeout := EtcdWriteTimeout f; EtcdLockTTL := EtcdLockTTL f;
           VersionCheckInterval := VersionCheckInterval f;
           ForkScanInterval := ForkScanInterval f; ForkScanLookback := ForkScanLookback f |} in
      if ChainID f =? 0 then None
      else if (negb (bool_decide (Version f = "")) && bool_decide (OuterVersionNewBlockTopic f = ""))
           || (bool_decide (Version f = "") && negb (bool_decide (OuterVersionNewBlockTopic f = "")))
      then None
      else Some f
  end.

Lemma Validate_None c : Validate c = None →
  -1 ≤ ForkScanLookback c ∧ ForkScanInterval c ≤ MaxInt64 / Second.
Proof. unfold Validate. repeat case_match; try done. lia. Qed.

(** A configuration the process starts with has a chain id, a supported scan mode, is
    in version mode exactly when a version is set, and its scan interval in
    seconds converts to a [time.Duration] without overflow. *)
Theorem loaded_config_sound listen file c :
  parseCmdlineAndLoadConfig listen file = Some c →
  ChainID c ≠ 0 ∧ -1 ≤ ForkScanLookback c ∧
  (IsVersionMode c = true ↔ Version c ≠ "") ∧
  (0 < ForkScanInterval c →
     dur_mul (ForkScanInterval c) Second = ForkScanInterval c * Second).
Proof.
  unfold parseCmdlineAndLoadConfig, LoadConfig, decodeConfig. intros H.
  destruct file as [yaml|]; [|done]. destruct (yaml defaultConfig) as [f [e|]]; [done|].
  destruct (Validate f) eqn:HV; [done|]. apply Validate_None in HV as [Hl Hi].
  set (g := if bool_decide (listen = "") then f else _) in H.
  assert (ForkScanLookback g = ForkScanLookback f ∧ ForkScanInterval g = ForkScanInterval f)
    as [El Ei] by (subst g; destruct (bool_decide (listen = "")); by split).
  destruct (Z.eqb_spec (ChainID g) 0) as [|Hc]; [done|].
  unfold IsVersionMode, dur_mul, i64.
  destruct (_ || _) eqn:Hm in H; [done|]. injection H as <-.
  rewrite El, Ei. split_and!; [done|done| |].
  - destruct (bool_decide_reflect (Version g = "")), (bool_decide_reflect
      (OuterVersionNewBlockTopic g = "")); simpl in *; naive_solver.
  - intros Hpos. change (MaxInt64 / Second) with 9223372036 in Hi. unfold Second.
    rewrite Z.mod_small; lia.
Qed.

Definition demo_yaml (c : Config) : Config * option err :=
  (mkConfig (Listen c) (ReadyRatio c) 20 2000 5000 5000 56 "v1" "pipeline_56_v1" 5000 20 5 60 (-1), None).

Lemma loaded_config_sound_witness :
  ∃ c, parseCmdlineAndLoadConfig "" (Ok demo_yaml) = Some c ∧ ChainID c ≠ 0.
Proof.
  eexists. split; [vm_compute; reflexivity|].
  apply (loaded_config_sound "" (Ok demo_yaml)). vm_compute. reflexivity.
Defined.
