(* ===== verification/Json.v ===== *)
(** * Json: encoding/json as the checker uses it

    Syntax trees, the decoding of a tree into an existing Go value, and the text
    of a tree as a parameter. *)
From S2P Require Import Prelude Types.

(** ** JSON syntax trees *)
Inductive json :=
  | JNull
  | JBool (b : bool)
  | JNum (z : Z)                 (* a number token that is an integer *)
  | JFloat (raw : string)        (* any other number token *)
  | JStr (s : string)
  | JArr (l : list json)
  | JObj (l : list (string * json)).

(** The text of a tree. *)
Class JsonText := {
  json_print : json → string;
  json_parse : string → option json
}.

Definition is_ascii (s : string) : bool :=
  forallb (λ c, Z_of_byte c <? 128) (String.list_ascii_of_string s).
Fixpoint json_ascii (j : json) : bool :=
  match j with
  | JStr s => is_ascii s
  | JArr l => forallb json_ascii l
  | JObj l => forallb (λ kv, is_ascii kv.1 && json_ascii kv.2) l
  | _ => true
  end.

(** Printed text parses back when its strings are ASCII (encoding/json replaces
    invalid UTF-8); the text form of a hash is ASCII. *)
Class JsonTextLaws `{JsonText, HashText} : Prop := {
  json_parse_print j : json_ascii j = true → json_parse (json_print j) = Some j;
  hash_string_ascii h : is_ascii (hash_string h) = true
}.

(** ** Unmarshal into an existing value: unknown keys are ignored, keys match up
    to case, null leaves a non-pointer unchanged, a later duplicate overwrites *)
Definition dec_int (lo hi : Z) (j : json) (cur : Z) : res Z :=
  match j with
  | JNum z => if (lo <=? z) && (z <=? hi) then Ok z else Fail (ErrMsg "json: number out of range")
  | JNull => Ok cur
  | _ => Fail (ErrMsg "json: cannot unmarshal into integer")
  end.
Definition dec_uint64 := dec_int 0 MaxUint64.
Definition dec_int64 := dec_int (- 2 ^ 63) MaxInt64.
Definition dec_string (j : json) (cur : string) : res string :=
  match j with
  | JStr s => Ok s
  | JNull => Ok cur
  | _ => Fail (ErrMsg "json: cannot unmarshal into string")
  end.
Definition dec_hash `{HashText} (j : json) (cur : Hash) : res Hash :=
  match j with
  | JStr s => match hash_parse s with
              | Some h => Ok h | None => Fail (ErrMsg "json: invalid hash") end
  | _ => Fail (ErrMsg "json: non-string hash")
  end.

Fixpoint dec_members {A} (field : string → json → A → res A) (l : list (string * json)) (cur : A)
    : res A :=
  match l with
  | [] => Ok cur
  | (k, v) :: l => let! cur' := field k v cur in dec_members field l cur'
  end.
Definition dec_struct {A} (field : string → json → A → res A) (j : json) (cur : A) : res A :=
  match j with
  | JObj l => dec_members field l cur
  | JNull => Ok cur
  | _ => Fail (ErrMsg "json: cannot unmarshal into struct")
  end.
Definition dec_pointer {A} (zero : A) (dec : json → A → res A) (j : json) (cur : option A)
    : res (option A) :=
  match j with
  | JNull => Ok None
  | _ => let! a := dec j (default zero cur) in Ok (Some a)
  end.

(** Evaluates the key comparisons and the decoders' matches. *)
Ltac dec_eval :=
  repeat match goal with
  | |- context [EqualFold ?a ?b] =>
      let v := eval vm_compute in (EqualFold a b) in change (EqualFold a b) with v
  end.

Lemma dec_int_num lo hi z cur : lo ≤ z ≤ hi → dec_int lo hi (JNum z) cur = Ok z.
Proof. intros Hz. simpl. by rewrite (proj2 (andb_true_iff _ _)) by (split; lia). Qed.

Lemma dec_pointer_some {A} (zero : A) dec j : j ≠ JNull →
  dec_pointer zero dec j None = let! a := dec j zero in Ok (Some a).
Proof. by destruct j. Qed.

(** ** A concrete text form

    A bit string of the tree's encoding as a number, used where a witness needs a
    value for the class above. *)
Fixpoint json_tree (j : json) : gen_tree (bool + Z + string) :=
  match j with
  | JNull => GenNode 0 []
  | JBool b => GenNode 1 [GenLeaf (inl (inl b))]
  | JNum z => GenNode 2 [GenLeaf (inl (inr z))]
  | JFloat s => GenNode 3 [GenLeaf (inr s)]
  | JStr s => GenNode 4 [GenLeaf (inr s)]
  | JArr l => GenNode 5 (map json_tree l)
  | JObj l => GenNode 6 (map (λ kv, GenNode 7 [GenLeaf (inr kv.1); json_tree kv.2]) l)
  end.
Fixpoint tree_json (t : gen_tree (bool + Z + string)) : json :=
  match t with
  | GenNode 1 [GenLeaf (inl (inl b))] => JBool b
  | GenNode 2 [GenLeaf (inl (inr z))] => JNum z
  | GenNode 3 [GenLeaf (inr s)] => JFloat s
  | GenNode 4 [GenLeaf (inr s)] => JStr s
  | GenNode 5 l => JArr (map tree_json l)
  | GenNode 6 l => JObj (map (λ t, match t with
                                   | GenNode _ [GenLeaf (inr k); t'] => (k, tree_json t')
                                   | _ => ("", JNull) end) l)
  | _ => JNull
  end.

Fixpoint pos_bits (p : positive) : string :=
  match p with
  | xH => EmptyString
  | xO p => String "0" (pos_bits p)
  | xI p => String "1" (pos_bits p)
  end.
Fixpoint bits_pos (s : string) : positive :=
  match s with
  | EmptyString => xH
  | String c s => if bool_decide (c = "0"%char) then xO (bits_pos s) else xI (bits_pos s)
  end.

Definition demo_json_text : JsonText := {|
  json_print j := pos_bits (encode (json_tree j));
  json_parse s := tree_json <$> decode (bits_pos s)
|}.

Lemma bits_pos_bits p : bits_pos (pos_bits p) = p.
Proof. induction p as [p IH|p IH|]; simpl; by rewrite ?IH. Qed.

Lemma tree_json_tree : ∀ j, tree_json (json_tree j) = j.
Proof.
  fix go 1. intros [| | | | |l|l]; simpl; try done; f_equal.
  - induction l as [|j l IH]; simpl; [done|]. by rewrite go, IH.
  - induction l as [|[k j] l IH]; simpl; [done|]. by rewrite go, IH.
Qed.

Lemma hex_encode_ascii s : is_ascii (hex_encode s) = true.
Proof.
  induction s as [|c s IH]; [done|]. unfold is_ascii in *. simpl. rewrite IH.
  destruct (nibbles c) as (H1 & H2 & _).
  assert (∀ n, 0 ≤ n < 16 → Z_of_byte (hex_digit n) <? 128 = true) as Hd.
  { intros n Hn. unfold hex_digit, Z_of_byte.
    apply Z.ltb_lt. destruct (Z.ltb_spec n 10); rewrite N_ascii_embedding by lia; lia. }
  by rewrite !Hd.
Qed.

#[export] Instance demo_json_text_laws : @JsonTextLaws demo_json_text demo_hash_text.
Proof.
  split.
  - intros j _. simpl. rewrite bits_pos_bits, decode_encode. simpl. by rewrite tree_json_tree.
  - intros h. simpl. unfold is_ascii. simpl. apply hex_encode_ascii.
Qed.
