(* ===== verification/Store.v ===== *)
(** * Store: the key-value store under the consistency database

    Pebble is a parameter: the class [Pebble] has the operations db/ calls, the
    class [PebbleLaws] what it relies on.  [mem_pebble] is an in-memory instance
    (with injected faults) for the witnesses.  The second half is the key layout
    of db/consistency.go and db/fork_scan.go. *)
From S2P Require Import Prelude Types.

Inductive batch_op :=
  | BSet (k v : string)
  | BDelete (k : string).

Definition op_key (op : batch_op) : string :=
  match op with BSet k _ | BDelete k => k end.

Class Pebble := {
  store : Type;
  kv_get : store → string → res string;                        (* DB.Get *)
  kv_stage : list batch_op → batch_op → res (list batch_op);    (* Batch.Set, Batch.Delete *)
  kv_commit : store → list batch_op → option err * store        (* Batch.Commit(pebble.Sync) *)
}.

Definition apply_op (m : gmap string string) (op : batch_op) : gmap string string :=
  match op with BSet k v => <[k := v]> m | BDelete k => delete k m end.
Definition apply_batch (b : list batch_op) (m : gmap string string) : gmap string string :=
  foldl apply_op m b.

(** [kv_view] is the content of the store.  Reads that succeed, or report
    ErrNotFound, are correct; a batch commits as a whole or not at all. *)
Class PebbleLaws `{Pebble} := {
  kv_view : store → gmap string string;
  kv_get_ok s k v : kv_get s k = Ok v → kv_view s !! k = Some v;
  kv_get_missing s k e : kv_get s k = Fail e → err_is e ErrNotFound = true → kv_view s !! k = None;
  kv_stage_ok b op b' : kv_stage b op = Ok b' → b' = b ++ [op];
  kv_commit_ok s b s' : kv_commit s b = (None, s') → kv_view s' = apply_batch b (kv_view s);
  kv_commit_err s b e s' : kv_commit s b = (Some e, s') → kv_view s' = kv_view s
}.

(** A store on which reads of present and absent keys do not fail. *)
Definition readable `{PebbleLaws} (s : store) : Prop :=
  ∀ k, match kv_view s !! k with
       | Some v => kv_get s k = Ok v
       | None => kv_get s k = Fail ErrNotFound
       end.

(** ** In-memory instance *)
Record memstore := mkMem {
  mem_data : gmap string string;
  mem_bad : list string;        (* keys whose read fails *)
  mem_readonly : bool           (* commits fail *)
}.

Definition mem_get (s : memstore) (k : string) : res string :=
  if bool_decide (k ∈ mem_bad s) then Fail (ErrMsg "sst read error") else
  match mem_data s !! k with Some v => Ok v | None => Fail ErrNotFound end.

Definition mem_commit (s : memstore) (b : list batch_op) : option err * memstore :=
  if mem_readonly s then (Some (ErrMsg "commit failed"), s)
  else (None, mkMem (apply_batch b (mem_data s)) (mem_bad s) false).

Definition mem_pebble : Pebble :=
  {| store := memstore; kv_get := mem_get; kv_stage b op := Ok (b ++ [op]);
     kv_commit := mem_commit |}.

Definition mem_empty : memstore := mkMem ∅ [] false.

#[export] Instance mem_pebble_laws : @PebbleLaws mem_pebble.
Proof.
  refine {| kv_view := (mem_data : @store mem_pebble → _) |}; simpl.
  - intros s k v. unfold mem_get. case_bool_decide; [done|]. case_match; naive_solver.
  - intros s k e. unfold mem_get. case_bool_decide; [intros [= <-]; done|].
    case_match; naive_solver.
  - naive_solver.
  - intros s b s'. unfold mem_commit. case_match; naive_solver.
  - intros s b e s'. unfold mem_commit. case_match; naive_solver.
Defined.

Lemma mem_readable s : mem_bad s = [] → readable (H0 := mem_pebble_laws) s.
Proof.
  intros Hb k. simpl. unfold mem_get. rewrite Hb, bool_decide_false by set_solver.
  by destruct (mem_data s !! k).
Qed.

(** ** Key layout *)
Definition HashPrefix : string := "h".
Definition NumPrefix : string := "n".
Definition hashKey (h : Hash) : string := HashPrefix +:+ hash_bytes h.
Definition numKey (num : Z) : string := NumPrefix +:+ be_bytes num.
Definition forkScanKey (chainID : Z) (version : string) : string :=
  "meta/fork-recheck/v1/" +:+ pretty chainID +:+ "/" +:+ hex_encode version.

Lemma hashKey_inj h1 h2 : hashKey h1 = hashKey h2 → h1 = h2.
Proof. intros H. apply hash_eq. by apply (inj (String.append HashPrefix)). Qed.

Lemma numKey_inj a b : numKey a = numKey b → Z.abs a = Z.abs b.
Proof. intros H. apply be_bytes_inj. by apply (inj (String.append NumPrefix)). Qed.

Lemma numKey_inj_nonneg a b : 0 ≤ a → 0 ≤ b → numKey a = numKey b → a = b.
Proof. intros ?? H%numKey_inj. lia. Qed.

Lemma numKey_neg n : numKey (- n) = numKey n.
Proof. unfold numKey, be_bytes. by rewrite Z.abs_opp. Qed.

Lemma hashKey_numKey h n : hashKey h ≠ numKey n.
Proof. intros H. discriminate H. Qed.

Lemma hashKey_forkScanKey h c v : hashKey h ≠ forkScanKey c v.
Proof. intros H. discriminate H. Qed.

Lemma numKey_forkScanKey n c v : numKey n ≠ forkScanKey c v.
Proof. intros H. discriminate H. Qed.

#[export] Hint Resolve hashKey_numKey hashKey_forkScanKey numKey_forkScanKey : chk.

(** The text after the last separator is determined when it has no separator. *)
Lemma last_segment_inj sep (a b c d : string) :
  free_of sep b = true → free_of sep d = true →
  a +:+ String sep b = c +:+ String sep d → a = c ∧ b = d.
Proof.
  assert (∀ x y, free_of sep (x +:+ String sep y) = false) as Hno.
  { intros x y. induction x as [|z x IH].
    - change (negb (bool_decide (sep = sep)) && free_of sep y = false).
      by rewrite bool_decide_true.
    - change (negb (bool_decide (z = sep)) && free_of sep (x +:+ String sep y) = false).
      rewrite IH. apply andb_false_r. }
  revert c; induction a as [|x a IH]; intros [|y c] Hb Hd H.
  - by injection H as ->.
  - change (String sep b = String y (c +:+ String sep d)) in H.
    injection H as _ ->. by rewrite Hno in Hb.
  - change (String x (a +:+ String sep b) = String sep d) in H.
    injection H as _ <-. by rewrite Hno in Hd.
  - change (String x (a +:+ String sep b) = String y (c +:+ String sep d)) in H.
    injection H as -> H. destruct (IH c Hb Hd H) as [-> ->]. done.
Qed.

Lemma forkScanKey_inj c1 v1 c2 v2 :
  forkScanKey c1 v1 = forkScanKey c2 v2 → c1 = c2 ∧ v1 = v2.
Proof.
  unfold forkScanKey. intros H. apply (inj (String.append _)) in H.
  apply (last_segment_inj "/"%char) in H as [H1 H2]; [|apply hex_encode_facts..].
  split; [by apply (inj pretty)|by apply (inj hex_encode)].
Qed.

(** ** Lookups in a committed batch *)
Lemma apply_batch_app b1 b2 m : apply_batch (b1 ++ b2) m = apply_batch b2 (apply_batch b1 m).
Proof. apply foldl_app. Qed.

Lemma apply_batch_other b m k : (∀ op, op ∈ b → op_key op ≠ k) → apply_batch b m !! k = m !! k.
Proof.
  revert m; induction b as [|op b IH]; intros m H; [done|]. simpl.
  rewrite IH by set_solver. assert (op_key op ≠ k) by set_solver.
  destruct op; simpl in *; by rewrite ?lookup_insert_ne, ?lookup_delete_ne.
Qed.

Lemma apply_batch_snoc b op m : apply_batch (b ++ [op]) m = apply_op (apply_batch b m) op.
Proof. by rewrite apply_batch_app. Qed.
