(* ===== verification/ScanState.v ===== *)
(** * ScanState: the durable fork-scan cursor (db/fork_scan.go)

    The state record, its validation, its JSON form, and its load and save. *)
From S2P Require Import Prelude Types Json Store.

Record ForkScanAnchor := mkAnchor {
  A_Height : Z;
  A_Hash : Hash
}.
#[export] Instance anchor_eq_dec : EqDecision ForkScanAnchor.
Proof. solve_decision. Defined.

Record ForkScanPosition := mkPosition {
  P_Topic : string;
  P_Partition : Z;
  P_Offset : Z
}.
#[export] Instance position_eq_dec : EqDecision ForkScanPosition.
Proof. solve_decision. Defined.

Record ForkScanState := mkScanState {
  Format : Z;
  Baseline : ForkScanAnchor;
  NextHeight : Z;
  Generation : Z;
  Published : ForkScanAnchor;
  Position : option ForkScanPosition;
  Pending : option ForkScanAnchor
}.
#[export] Instance scan_state_eq_dec : EqDecision ForkScanState.
Proof. solve_decision. Defined.

Definition set_NextHeight (h : Z) (s : ForkScanState) : ForkScanState :=
  mkScanState (Format s) (Baseline s) h (Generation s) (Published s) (Position s) (Pending s).
Definition set_Generation (g : Z) (s : ForkScanState) : ForkScanState :=
  mkScanState (Format s) (Baseline s) (NextHeight s) g (Published s) (Position s) (Pending s).
Definition set_Published (a : ForkScanAnchor) (s : ForkScanState) : ForkScanState :=
  mkScanState (Format s) (Baseline s) (NextHeight s) (Generation s) a (Position s) (Pending s).
Definition set_Position (p : option ForkScanPosition) (s : ForkScanState) : ForkScanState :=
  mkScanState (Format s) (Baseline s) (NextHeight s) (Generation s) (Published s) p (Pending s).
Definition set_Pending (p : option ForkScanAnchor) (s : ForkScanState) : ForkScanState :=
  mkScanState (Format s) (Baseline s) (NextHeight s) (Generation s) (Published s) (Position s) p.

Definition validate (s : ForkScanState) : option err :=
  if negb (Format s =? 1) || (Generation s =? 0)
     || bool_decide (A_Hash (Baseline s) = zero_hash)
     || bool_decide (A_Hash (Published s) = zero_hash)
     || (A_Height (Baseline s) =? MaxUint64) then
    Some (ErrMsg "invalid fork scan state (format, generation or anchor)")
  else if negb (A_Height (Published s) =? MaxUint64)
          && (u64 (A_Height (Published s) + 1) <? NextHeight s) then
    Some (ErrMsg "fork scan cursor exceeds published head")
  else if match Pending s with
          | Some p => bool_decide (A_Hash p = zero_hash) | None => false end then
    Some (ErrMsg "invalid pending fork scan anchor")
  else if match Position s with
          | Some p => bool_decide (P_Topic p = "") || (P_Partition p <? 0) || (P_Offset p <? 0)
          | None => false end then
    Some (ErrMsg "invalid fork scan message position")
  else None.

(** ** Marshal *)
Section marshal.
  Context `{HashText}.

Definition anchor_json (a : ForkScanAnchor) : json :=
  JObj [("height", JNum (A_Height a)); ("hash", JStr (hash_string (A_Hash a)))].
Definition position_json (p : ForkScanPosition) : json :=
  JObj [("topic", JStr (P_Topic p)); ("partition", JNum (P_Partition p));
        ("offset", JNum (P_Offset p))].
Definition state_json (s : ForkScanState) : json :=
  JObj ([("format", JNum (Format s)); ("baseline", anchor_json (Baseline s));
         ("next_scan_height", JNum (NextHeight s)); ("generation", JNum (Generation s));
         ("published", anchor_json (Published s))]
        ++ match Position s with            (* omitempty *)
           | Some p => [("inner_position", position_json p)] | None => [] end
        ++ [("pending", match Pending s with Some a => anchor_json a | None => JNull end)]).

(** ** Unmarshal *)
Definition anchor_field (k : string) (v : json) (a : ForkScanAnchor) : res ForkScanAnchor :=
  if EqualFold k "height" then let! h := dec_uint64 v (A_Height a) in Ok (mkAnchor h (A_Hash a))
  else if EqualFold k "hash" then let! h := dec_hash v (A_Hash a) in Ok (mkAnchor (A_Height a) h)
  else Ok a.
Definition position_field (k : string) (v : json) (p : ForkScanPosition) : res ForkScanPosition :=
  if EqualFold k "topic" then
    let! t := dec_string v (P_Topic p) in Ok (mkPosition t (P_Partition p) (P_Offset p))
  else if EqualFold k "partition" then
    let! n := dec_int64 v (P_Partition p) in Ok (mkPosition (P_Topic p) n (P_Offset p))
  else if EqualFold k "offset" then
    let! n := dec_int64 v (P_Offset p) in Ok (mkPosition (P_Topic p) (P_Partition p) n)
  else Ok p.

Definition zero_anchor : ForkScanAnchor := mkAnchor 0 zero_hash.
Definition zero_position : ForkScanPosition := mkPosition "" 0 0.
Definition zero_state : ForkScanState := mkScanState 0 zero_anchor 0 0 zero_anchor None None.

Definition state_field (k : string) (v : json) (s : ForkScanState) : res ForkScanState :=
  if EqualFold k "format" then
    let! x := dec_int64 v (Format s) in
    Ok (mkScanState x (Baseline s) (NextHeight s) (Generation s) (Published s) (Position s) (Pending s))
  else if EqualFold k "baseline" then
    let! x := dec_struct anchor_field v (Baseline s) in
    Ok (mkScanState (Format s) x (NextHeight s) (Generation s) (Published s) (Position s) (Pending s))
  else if EqualFold k "next_scan_height" then
    let! x := dec_uint64 v (NextHeight s) in Ok (set_NextHeight x s)
  else if EqualFold k "generation" then
    let! x := dec_uint64 v (Generation s) in Ok (set_Generation x s)
  else if EqualFold k "published" then
    let! x := dec_struct anchor_field v (Published s) in Ok (set_Published x s)
  else if EqualFold k "inner_position" then
    let! x := dec_pointer zero_position (dec_struct position_field) v (Position s) in
    Ok (set_Position x s)
  else if EqualFold k "pending" then
    let! x := dec_pointer zero_anchor (dec_struct anchor_field) v (Pending s) in
    Ok (set_Pending x s)
  else Ok s.
Definition dec_state (j : json) : res ForkScanState := dec_struct state_field j zero_state.

(** ** Load and save *)
Context `{JsonText} `{Pebble}.

Definition required_keys : list string :=
  ["format"; "baseline"; "next_scan_height"; "generation"; "published"; "pending"].

(** Lookup in a [map[string]json.RawMessage]: the last duplicate wins. *)
Definition member (l : list (string * json)) (key : string) : option json :=
  snd <$> last (filter (λ kv, kv.1 = key) l).

Definition has_required (l : list (string * json)) (key : string) : bool :=
  match member l key with
  | None => false
  | Some v => bool_decide (key = "pending") || match v with JNull => false | _ => true end
  end.

Definition LoadForkScan (s : store) (chainID : Z) (version : string) : res (option ForkScanState) :=
  match kv_get s (forkScanKey chainID version) with
  | Fail e => if err_is e ErrNotFound then Ok None else Fail e
  | Ok data =>
      match json_parse data with
      | None => Fail (ErrMsg "decode fork scan state")
      | Some j =>
          let! fields := match j with
                         | JObj l => Ok l | JNull => Ok []
                         | _ => Fail (ErrMsg "decode fork scan state") end in
          if forallb (has_required fields) required_keys then
            let! state := dec_state j in
            match validate state with
            | Some e => Fail e
            | None => Ok (Some state)
            end
          else Fail (ErrMsg "fork scan state missing key")
      end
  end.

Definition setForkScan (batch : list batch_op) (chainID : Z) (version : string)
    (state : ForkScanState) : res (list batch_op) :=
  match validate state with
  | Some e => Fail e
  | None => kv_stage batch (BSet (forkScanKey chainID version) (json_print (state_json state)))
  end.

Definition SaveForkScan (s : store) (chainID : Z) (version : string) (state : ForkScanState)
    : option err * store :=
  match setForkScan [] chainID version state with
  | Fail e => (Some e, s)
  | Ok batch => kv_commit s batch
  end.
End marshal.

(** ** Facts *)
Definition anchor_wf (a : ForkScanAnchor) : Prop := is_u64 (A_Height a).
Definition position_wf (p : ForkScanPosition) : Prop :=
  is_ascii (P_Topic p) = true ∧ - 2 ^ 63 ≤ P_Partition p ≤ MaxInt64 ∧ - 2 ^ 63 ≤ P_Offset p ≤ MaxInt64.
(** The fields are in the range of their Go types and the topic is ASCII. *)
Definition state_wf (s : ForkScanState) : Prop :=
  - 2 ^ 63 ≤ Format s ≤ MaxInt64 ∧ anchor_wf (Baseline s) ∧ is_u64 (NextHeight s) ∧
  is_u64 (Generation s) ∧ anchor_wf (Published s) ∧
  (∀ p, Position s = Some p → position_wf p) ∧ (∀ a, Pending s = Some a → anchor_wf a).

(** What [validate] accepts. *)
Lemma validate_spec s : validate s = None ↔
  Format s = 1 ∧ Generation s ≠ 0 ∧ A_Hash (Baseline s) ≠ zero_hash ∧
  A_Hash (Published s) ≠ zero_hash ∧ A_Height (Baseline s) ≠ MaxUint64 ∧
  (A_Height (Published s) ≠ MaxUint64 → NextHeight s ≤ u64 (A_Height (Published s) + 1)) ∧
  (∀ p, Pending s = Some p → A_Hash p ≠ zero_hash) ∧
  (∀ p, Position s = Some p → P_Topic p ≠ "" ∧ 0 ≤ P_Partition p ∧ 0 ≤ P_Offset p).
Proof.
  unfold validate.
  assert (∀ (b1 b2 b3 b4 : bool) (e1 e2 e3 e4 : err), (if b1 then Some e1 else if b2 then Some e2 else
    if b3 then Some e3 else if b4 then Some e4 else None) = None ↔
    b1 = false ∧ b2 = false ∧ b3 = false ∧ b4 = false) as -> by (intros [] [] [] [] ????; split; (done || by intros (?&?&?&?))).
  rewrite !orb_false_iff, negb_false_iff, Z.eqb_eq, !Z.eqb_neq, !bool_decide_eq_false.
  rewrite andb_false_iff, negb_false_iff, Z.eqb_eq, Z.ltb_ge.
  assert (match Pending s with Some p => bool_decide (A_Hash p = zero_hash) | None => false end = false ↔
    ∀ p, Pending s = Some p → A_Hash p ≠ zero_hash) as ->.
  { destruct (Pending s); [rewrite bool_decide_eq_false; naive_solver|done]. }
  assert (match Position s with Some p => bool_decide (P_Topic p = "") || (P_Partition p <? 0) || (P_Offset p <? 0)
    | None => false end = false ↔ ∀ p, Position s = Some p → P_Topic p ≠ "" ∧ 0 ≤ P_Partition p ∧ 0 ≤ P_Offset p) as ->.
  { destruct (Position s); [rewrite !orb_false_iff, bool_decide_eq_false, !Z.ltb_ge|done].
    split; [intros [[? ?] ?] p [= <-]; by split_and!|intros Hp; destruct (Hp _ eq_refl) as (? & ? & ?); by split_and!]. }
  destruct (decide (A_Height (Published s) = MaxUint64)); tauto.
Qed.
Lemma validate_None s : validate s = None →
  Format s = 1 ∧ Generation s ≠ 0 ∧ A_Hash (Baseline s) ≠ zero_hash ∧
  A_Hash (Published s) ≠ zero_hash ∧ A_Height (Baseline s) ≠ MaxUint64 ∧
  (A_Height (Published s) ≠ MaxUint64 → NextHeight s ≤ u64 (A_Height (Published s) + 1)).
Proof. rewrite validate_spec. naive_solver. Qed.

Ltac dec_simpl :=
  dec_eval; cbn -[dec_struct dec_pointer dec_int anchor_json position_json EqualFold].

Section facts.
Context `{HashTextLaws} `{!JsonText} `{!JsonTextLaws}.

Lemma dec_anchor_json a cur : anchor_wf a →
  dec_struct anchor_field (anchor_json a) cur = Ok a.
Proof.
  intros Ha. cbn [dec_struct anchor_json dec_members]. unfold anchor_field, dec_uint64.
  dec_simpl. rewrite dec_int_num by apply Ha. dec_simpl.
  rewrite hash_parse_string. by destruct a.
Qed.

Lemma dec_position_json p cur : position_wf p →
  dec_struct position_field (position_json p) cur = Ok p.
Proof.
  intros (_ & Hp & Ho). cbn [dec_struct position_json dec_members].
  unfold position_field, dec_int64. dec_simpl.
  rewrite dec_int_num by lia. dec_simpl. rewrite dec_int_num by lia. by destruct p.
Qed.

Lemma dec_pointer_anchor a : anchor_wf a →
  dec_pointer zero_anchor (dec_struct anchor_field) (anchor_json a) None = Ok (Some a).
Proof. intros Ha. by rewrite dec_pointer_some, dec_anchor_json. Qed.

Lemma dec_pointer_position p : position_wf p →
  dec_pointer zero_position (dec_struct position_field) (position_json p) None = Ok (Some p).
Proof. intros Hp. by rewrite dec_pointer_some, dec_position_json. Qed.

(** Decoding the marshalled tree gives the state back. *)
Lemma dec_state_json s : state_wf s → dec_state (state_json s) = Ok s.
Proof.
  intros (Hf & Hb & Hn & Hg & Hp & Hpos & Hpend). destruct s as [f b n g p pos pend].
  simpl in *. unfold dec_state, state_json. cbn [dec_struct].
  destruct pos as [pos|], pend as [a|]; cbn [dec_members app]; unfold state_field, dec_int64, dec_uint64;
    repeat (dec_simpl; rewrite ?dec_anchor_json, ?dec_pointer_position, ?dec_pointer_anchor,
      ?dec_int_num by (auto; unfold is_u64 in *; lia)); done.
Qed.
End facts.

Section durability.
Context `{HashTextLaws} `{!JsonText} `{!JsonTextLaws} `{PebbleLaws}.

Lemma state_json_ascii s : state_wf s → json_ascii (state_json s) = true.
Proof.
  intros (_ & _ & _ & _ & _ & Hpos & _).
  destruct s as [f b n g p [pos|] [a|]]; simpl in *; rewrite ?hash_string_ascii; simpl; try done;
    by rewrite (proj1 (Hpos pos eq_refl)).
Qed.

Lemma setForkScan_ok b c v s b' : setForkScan b c v s = Ok b' →
  validate s = None ∧ b' = b ++ [BSet (forkScanKey c v) (json_print (state_json s))].
Proof.
  unfold setForkScan. destruct (validate s); [done|]. intros Hs. split; [done|].
  by apply kv_stage_ok in Hs.
Qed.

Lemma SaveForkScan_ok st c v s st' : SaveForkScan st c v s = (None, st') →
  validate s = None ∧
  kv_view st' = <[forkScanKey c v := json_print (state_json s)]> (kv_view st).
Proof.
  unfold SaveForkScan. destruct (setForkScan [] c v s) as [b|e] eqn:E; [|done].
  intros Hc. apply setForkScan_ok in E as [Hv ->]. apply kv_commit_ok in Hc. done.
Qed.

Lemma SaveForkScan_err st c v s e st' : SaveForkScan st c v s = (Some e, st') →
  kv_view st' = kv_view st.
Proof.
  unfold SaveForkScan. destruct (setForkScan [] c v s); [|naive_solver].
  apply kv_commit_err.
Qed.

(** Loading reads one key only. *)
Lemma LoadForkScan_get st st' c v :
  kv_get st (forkScanKey c v) = kv_get st' (forkScanKey c v) →
  LoadForkScan st c v = LoadForkScan st' c v.
Proof. unfold LoadForkScan. by intros ->. Qed.

Lemma LoadForkScan_stored st c v s :
  validate s = None → state_wf s →
  kv_get st (forkScanKey c v) = Ok (json_print (state_json s)) →
  LoadForkScan st c v = Ok (Some s).
Proof.
  intros Hval Hwf Hget. unfold LoadForkScan. rewrite Hget, json_parse_print by
    by apply state_json_ascii. cbn [res_bind state_json].
  replace (forallb _ required_keys) with true.
  - rewrite dec_state_json by done. simpl. by rewrite Hval.
  - symmetry. by destruct s as [f b n g p [pos|] [a|]].
Qed.

(** (C31) A saved cursor survives a restart: loading the scope that was saved
    returns exactly the saved state. *)
Theorem fork_scan_save_load st c v s st' :
  state_wf s → SaveForkScan st c v s = (None, st') → readable st' →
  LoadForkScan st' c v = Ok (Some s).
Proof.
  intros Hwf Hs Hr. apply SaveForkScan_ok in Hs as [Hval Hview].
  apply LoadForkScan_stored; [done..|].
  specialize (Hr (forkScanKey c v)). by rewrite Hview, lookup_insert_eq in Hr.
Qed.

(** Saving the cursor of one chain and version leaves the cursor of every
    other chain or version as it was, whether or not the save succeeds. *)
Theorem fork_scan_scopes_isolated st c v s e st' c' v' :
  SaveForkScan st c v s = (e, st') → readable st → readable st' →
  (c, v) ≠ (c', v') → LoadForkScan st' c' v' = LoadForkScan st c' v'.
Proof.
  intros Hs Hr Hr' Hne. apply LoadForkScan_get.
  specialize (Hr (forkScanKey c' v')). specialize (Hr' (forkScanKey c' v')).
  assert (kv_view st' !! forkScanKey c' v' = kv_view st !! forkScanKey c' v') as Heq.
  { destruct e; [by apply SaveForkScan_err in Hs as ->|].
    apply SaveForkScan_ok in Hs as [_ ->]. rewrite lookup_insert_ne; [done|].
    intros [-> ->]%forkScanKey_inj. done. }
  rewrite Heq in Hr'. destruct (kv_view st !! _); congruence.
Qed.

(** (C32) Corruption is never taken for a new state: the loader reports an absent cursor
    only when the key is absent, and returns a state only when the stored
    object has every required member and the state passes validation. *)
Theorem fork_scan_load_sound st c v r :
  LoadForkScan st c v = Ok r →
  match r with
  | None => kv_view st !! forkScanKey c v = None
  | Some s => validate s = None ∧ ∃ data l,
      kv_view st !! forkScanKey c v = Some data ∧ json_parse data = Some (JObj l) ∧
      Forall (λ key, has_required l key = true) required_keys
  end.
Proof.
  unfold LoadForkScan. intros HL. destruct (kv_get _ _) as [data|e] eqn:Hg.
  - apply kv_get_ok in Hg. destruct (json_parse data) as [j|] eqn:Hj; [|done].
    apply res_bind_ok in HL as (l & Hl & HL). destruct (forallb _ _) eqn:Hreq; [|done].
    apply res_bind_ok in HL as (s & Hs & HL). destruct (validate s) eqn:Hval; [done|].
    injection HL as <-. split; [done|]. apply Is_true_true, forallb_True in Hreq.
    destruct j; try done; injection Hl as <-.
    + by apply Forall_cons in Hreq as [? _].
    + exists data, l0. split_and!; try done. eapply Forall_impl; [done|].
      intros x. apply Is_true_true.
  - destruct (err_is e ErrNotFound) eqn:He; [|done]. injection HL as <-.
    by eapply kv_get_missing.
Qed.
End durability.

(** ** Witnesses *)
#[local] Existing Instances mem_pebble demo_hash_text demo_json_text.

Definition demo_state : ForkScanState :=
  mkScanState 1 (mkAnchor 1 (hashOf 1)) 2 1 (mkAnchor 1 (hashOf 1))
    (Some (mkPosition "inner" 0 10)) None.
Definition demo_saved : option err * store := SaveForkScan mem_empty 56 "v/a" demo_state.

Lemma demo_saved_eq : demo_saved = (None, demo_saved.2).
Proof. vm_compute. reflexivity. Qed.

Lemma demo_state_wf : state_wf demo_state.
Proof.
  unfold state_wf, anchor_wf, position_wf, is_u64, MaxUint64, MaxInt64. simpl.
  split_and!; try lia; intros ? [= <-]; simpl; split_and!; done || lia.
Qed.

Lemma demo_saved_readable : readable demo_saved.2.
Proof. apply mem_readable. vm_compute. reflexivity. Qed.

Lemma fork_scan_save_load_witness : LoadForkScan demo_saved.2 56 "v/a" = Ok (Some demo_state).
Proof.
  apply (fork_scan_save_load _ _ _ _ _ demo_state_wf demo_saved_eq demo_saved_readable).
Defined.

Lemma fork_scan_scopes_isolated_witness :
  LoadForkScan demo_saved.2 56 "v" = LoadForkScan mem_empty 56 "v".
Proof.
  apply (fork_scan_scopes_isolated _ _ _ _ _ _ 56 "v" demo_saved_eq).
  - by apply mem_readable.
  - exact demo_saved_readable.
  - congruence.
Defined.

Lemma fork_scan_load_sound_witness : validate demo_state = None.
Proof.
  destruct (fork_scan_load_sound demo_saved.2 56 "v/a" (Some demo_state)) as [H _].
  - vm_compute. reflexivity.
  - exact H.
Defined.
