(* ===== verification/BlockIndex.v ===== *)
(** * BlockIndex: the consistency database (db/consistency.go)

    Two indexes over one key-value store: [h<hash>] to the RLP of a block's number and
    validation hash, and [n<number>] to the canonical hash at that number. *)
From S2P Require Import Prelude Types Json Store ScanState.

Record BlockInfoRlp := mkBlockInfoRlp {
  R_Num : Z;
  R_ValidationHash : Z
}.

(** The RLP codec is go-ethereum's. *)
Class Rlp := {
  rlp_encode : BlockInfoRlp → res string;
  rlp_decode : string → res BlockInfoRlp
}.

(** Encoded values decode back; natural numbers encode; RLP has no negative integers. *)
Class RlpLaws `{Rlp} : Prop := {
  rlp_decode_encode x d : rlp_encode x = Ok d → rlp_decode d = Ok x;
  rlp_encode_nonneg x : 0 ≤ R_Num x → 0 ≤ R_ValidationHash x → is_ok (rlp_encode x) = true;
  rlp_encode_negative x : R_Num x < 0 ∨ R_ValidationHash x < 0 → is_ok (rlp_encode x) = false
}.

Record BlockInfo := mkBlockInfo {
  BI_ID : Hash;
  BI_Height : Z;
  BI_ValidationHash : Z;
  BI_IsFork : bool
}.
#[export] Instance block_info_eq_dec : EqDecision BlockInfo.
Proof. solve_decision. Defined.

Record ConsistencyDB `{Pebble} := mkCDB {
  cdb_store : store;
  cdb_latest : option BlockInfo
}.
Arguments mkCDB {_} _ _.
Arguments cdb_store {_} _.
Arguments cdb_latest {_} _.

(** The accumulator of a write: the staged batch, the [changed] flag and the
    copy [next] of the cursor. *)
Record write_acc := mkAcc {
  wa_batch : list batch_op;
  wa_changed : bool;
  wa_next : option ForkScanState
}.

Section ops.
  Context `{HashText} `{JsonText} `{Pebble} `{Rlp}.

(** ** Reads *)
Definition getBlockHashByNum (st : store) (num : Z) : res Hash :=
  let! data := kv_get st (numKey num) in
  match to_hash data with
  | Some h => Ok h
  | None => Fail (ErrMsg "invalid canonical hash")
  end.

Definition GetCanonicalHashByNum (st : store) (num : Z) : res (option Hash) :=
  match getBlockHashByNum st num with
  | Ok h => Ok (Some h)
  | Fail e => if err_is e ErrNotFound then Ok None else Fail e
  end.

Definition GetBlockInfoByHash (st : store) (hash : Hash) : res BlockInfo :=
  let! data := kv_get st (hashKey hash) in
  let! bi := rlp_decode data in
  match getBlockHashByNum st (R_Num bi) with
  | Fail e =>
      if err_is e ErrNotFound then
        Ok (mkBlockInfo hash (u64 (R_Num bi)) (i64 (R_ValidationHash bi)) true)
      else Fail e
  | Ok canonicalHash =>
      Ok (mkBlockInfo hash (u64 (R_Num bi)) (i64 (R_ValidationHash bi))
            (negb (bool_decide (canonicalHash = hash))))
  end.

Definition GetBlockInfoByNum (st : store) (num : Z) : res BlockInfo :=
  let! hash := getBlockHashByNum st num in
  GetBlockInfoByHash st hash.

Definition GetLatestBlockInfo (db : ConsistencyDB) : option BlockInfo := cdb_latest db.

(** [opened] is the answer of [pebble.Open]; the latest block is not loaded. *)
Definition NewConsistencyDB (opened : res store) : res ConsistencyDB :=
  let! st := opened in Ok (mkCDB st None).
(** [DB] is the global, nil before the first call. *)
Definition OpenConsistencyDB (DB : option ConsistencyDB) (opened : res store)
    : option err * option ConsistencyDB :=
  match DB with
  | Some _ => (None, DB)
  | None => match NewConsistencyDB opened with
            | Fail e => (Some e, None)
            | Ok db => (None, Some db)
            end
  end.

(** [rpc.BlockNumberOrHash]: at most one of the two is set. *)
Inductive BlockNumberOrHash :=
  | ByNumber (n : Z)
  | ByHash (h : Hash)
  | ByNothing.

(** [Ok None] is a nil block without an error. *)
Definition GetBlockInfoByNumOrHash (db : ConsistencyDB) (id : BlockNumberOrHash)
    : res (option BlockInfo) :=
  match id with
  | ByNumber number =>
      if (number =? -2) || (number =? -1) then Ok (GetLatestBlockInfo db)
      else let! b := GetBlockInfoByNum (cdb_store db) number in Ok (Some b)
  | ByHash hash => let! b := GetBlockInfoByHash (cdb_store db) hash in Ok (Some b)
  | ByNothing => Fail (ErrMsg "GetBlockInfoByNumOrHash params error")
  end.

(** ** Writes *)

(** The closure [affected]. *)
Definition affected (h : Z) (acc : write_acc) : write_acc :=
  mkAcc (wa_batch acc) true
    (match wa_next acc with
     | Some n => Some (if h <? NextHeight n then set_NextHeight h n else n)
     | None => None
     end).

(** One iteration of the loop over [newBlocks]. *)
Definition write_block (st : store) (acc : write_acc) (block : BlockContext) (vh : Z)
    : res write_acc :=
  let! old := GetCanonicalHashByNum st (BlockNumber block) in
  let acc := match old with
             | Some o => if bool_decide (o = BlockHash block) then acc
                         else affected (BlockNumber block) acc
             | None => acc
             end in
  let! data := rlp_encode (mkBlockInfoRlp (BlockNumber block) vh) in
  let! b1 := kv_stage (wa_batch acc) (BSet (hashKey (BlockHash block)) data) in
  let! b2 := kv_stage b1 (BSet (numKey (BlockNumber block)) (hash_bytes (BlockHash block))) in
  Ok (mkAcc b2 (wa_changed acc) (wa_next acc)).

Fixpoint write_blocks (st : store) (acc : write_acc) (l : list (BlockContext * Z)) : res write_acc :=
  match l with
  | [] => Ok acc
  | (block, vh) :: l => let! acc' := write_block st acc block vh in write_blocks st acc' l
  end.

(** One iteration of the loop that removes stale numbers above the new tip. *)
Definition clean_step (st : store) (s : Z * write_acc) : (Z * write_acc) + res write_acc :=
  let '(h, acc) := s in
  if h <? MaxUint64 then
    let h := u64 (h + 1) in
    match kv_get st (numKey h) with
    | Fail e => if err_is e ErrNotFound then inr (Ok acc) else inr (Fail e)
    | Ok _ =>
        let acc := affected h acc in
        match kv_stage (wa_batch acc) (BDelete (numKey h)) with
        | Fail e => inr (Fail e)
        | Ok b => inl (h, mkAcc b (wa_changed acc) (wa_next acc))
        end
    end
  else inr (Ok acc).

(** The loop runs at most once per height, so [2 ^ 64] iterations are never
    exhausted ([clean_above_spec]). *)
Definition clean_above (st : store) (tip : Z) (acc : write_acc) : res write_acc :=
  match loop_pos (2 ^ 64) (clean_step st) (tip, acc) with
  | inr r => r
  | inl (_, acc) => Ok acc
  end.

(** The cursor part of the batch. *)
Definition write_cursor (chainID : Z) (version : string) (acc : write_acc) : res write_acc :=
  match wa_next acc with
  | None => Ok acc
  | Some next =>
      let! next := (if wa_changed acc then
                      if Generation next =? MaxUint64 then Fail (ErrMsg "fork scan generation overflow")
                      else Ok (set_Generation (u64 (Generation next + 1)) next)
                    else Ok next) in
      let! b := setForkScan (wa_batch acc) chainID version next in
      Ok (mkAcc b (wa_changed acc) (Some next))
  end.

Definition write_batch (st : store) (newBlocks : list BlockContext) (validationHashes : list Z)
    (chainID : Z) (version : string) (state : option ForkScanState)
    (first tail : BlockContext) : res write_acc :=
  let acc := mkAcc [] false
    (match state with
     | Some s => Some (set_Pending (Some (mkAnchor (BlockNumber tail) (BlockHash tail))) s)
     | None => None end) in
  let acc := match state with
             | Some s => if BlockNumber first <=? A_Height (Published s)
                         then affected (BlockNumber first) acc else acc
             | None => acc end in
  let! acc := write_blocks st acc (zip newBlocks validationHashes) in
  let! acc := clean_above st (BlockNumber tail) acc in
  write_cursor chainID version acc.

Definition WriteBlockInfosWithForkScan (db : ConsistencyDB) (newBlocks : list BlockContext)
    (validationHashes : list Z) (chainID : Z) (version : string) (state : option ForkScanState)
    : res (option ForkScanState) * ConsistencyDB :=
  match head newBlocks, last newBlocks, last validationHashes with
  | Some first, Some tail, Some vh =>
      if negb (bool_decide (length newBlocks = length validationHashes)) then
        (Fail (ErrMsg "invalid block/validation counts"), db)
      else
        match write_batch (cdb_store db) newBlocks validationHashes chainID version state first tail with
        | Fail e => (Fail e, db)
        | Ok acc =>
            match kv_commit (cdb_store db) (wa_batch acc) with
            | (Some e, st') => (Fail e, mkCDB st' (cdb_latest db))
            | (None, st') =>
                (Ok (wa_next acc),
                 mkCDB st' (Some (mkBlockInfo (BlockHash tail) (BlockNumber tail) vh false)))
            end
        end
  | _, _, _ => (Fail (ErrMsg "invalid block/validation counts"), db)
  end.

Definition WriteBlockInfos (db : ConsistencyDB) (newBlocks : list BlockContext)
    (validationHashes : list Z) : option err * ConsistencyDB :=
  match WriteBlockInfosWithForkScan db newBlocks validationHashes 0 "" None with
  | (Ok _, db') => (None, db')
  | (Fail e, db') => (Some e, db')
  end.
End ops.

(** ** The write, phase by phase *)

(** How [affected] moves the accumulator: the flag is sticky and the cursor copy
    changes in [NextHeight] only, downwards, and only when the flag is set. *)
Definition acc_le (a a' : write_acc) : Prop :=
  (wa_changed a = true → wa_changed a' = true) ∧
  match wa_next a, wa_next a' with
  | None, None => True
  | Some n, Some n' => ∃ k, n' = set_NextHeight k n ∧ Z.min 0 (NextHeight n) ≤ k ≤ NextHeight n ∧
                            (wa_changed a' = false → k = NextHeight n)
  | _, _ => False
  end.

(** Height [h] is covered by the accumulated rewind. *)
Definition acc_covers (h : Z) (a : write_acc) : Prop :=
  wa_changed a = true ∧ ∀ n, wa_next a = Some n → NextHeight n ≤ h.

Lemma acc_le_refl a : acc_le a a.
Proof.
  split; [done|]. destruct (wa_next a) as [n|]; [|done].
  exists (NextHeight n). split_and!; [by destruct n|lia|lia|done].
Qed.

Lemma acc_le_trans a b c : acc_le a b → acc_le b c → acc_le a c.
Proof.
  intros [H1 H2] [H3 H4]. split; [auto|].
  destruct (wa_next a) as [n|], (wa_next b) as [n'|], (wa_next c) as [n''|]; try done.
  destruct H2 as (k & -> & Hk & Hc), H4 as (k' & -> & Hk' & Hc'). exists k'.
  simpl in *. split_and!; [by destruct n|lia|lia|]. intros Hf. specialize (Hc' Hf).
  destruct (wa_changed b) eqn:E; [by rewrite H3 in Hf|]. specialize (Hc eq_refl). lia.
Qed.

Lemma acc_le_affected h a : 0 ≤ h → acc_le a (affected h a) ∧ acc_covers h (affected h a).
Proof.
  intros Hh. unfold acc_le, acc_covers, affected; simpl. destruct (wa_next a) as [n|]; [|naive_solver].
  split_and!; try done.
  - destruct (Z.ltb_spec h (NextHeight n)).
    + exists h. split_and!; [done|lia|lia|done].
    + exists (NextHeight n). split_and!; [by destruct n|lia|lia|done].
  - intros ? [= <-]. destruct (Z.ltb_spec h (NextHeight n)); simpl; lia.
Qed.

Lemma acc_covers_le h a b : acc_le a b → acc_covers h a → acc_covers h b.
Proof.
  intros [H1 H2] [H3 H4]. split; [auto|]. intros n Hn. rewrite Hn in H2.
  destruct (wa_next a) as [m|]; [|done]. destruct H2 as (k & -> & Hk & _).
  specialize (H4 m eq_refl). simpl. lia.
Qed.

Lemma acc_le_batch a b ops : acc_le a b → acc_le a (mkAcc ops (wa_changed b) (wa_next b)).
Proof. done. Qed.
#[export] Hint Resolve acc_le_refl acc_le_trans acc_covers_le : chk.

(** The hash the last block of [l] at height [h] carries. *)
Fixpoint last_at (h : Z) (l : list BlockContext) : option Hash :=
  match l with
  | [] => None
  | b :: l => match last_at h l with
              | Some x => Some x
              | None => if BlockNumber b =? h then Some (BlockHash b) else None
              end
  end.

Lemma last_at_elem h l x : last_at h l = Some x →
  ∃ b, b ∈ l ∧ BlockNumber b = h ∧ BlockHash b = x.
Proof.
  induction l as [|b l IH]; simpl; [done|].
  destruct (last_at h l).
  - intros [= <-]. destruct (IH eq_refl) as (b' & ? & ?). exists b'. set_solver.
  - destruct (Z.eqb_spec (BlockNumber b) h); [|done]. intros [= <-]. exists b. set_solver.
Qed.

Lemma last_at_is_Some h l : is_Some (last_at h l) ↔ ∃ b, b ∈ l ∧ BlockNumber b = h.
Proof.
  split.
  - intros [x (b & ? & ? & _)%last_at_elem]. eauto.
  - intros (b & Hb & Hh). induction l as [|b' l IH]; [set_solver|]. simpl.
    destruct (last_at h l); [eauto|]. apply elem_of_cons in Hb as [->|Hb].
    + by rewrite Hh, Z.eqb_refl.
    + destruct (IH Hb). done.
Qed.

Section index_facts.
Context `{HashText} `{JsonText} `{PebbleLaws} `{Rlp}.

(** The canonical hash stored at a height. *)
Definition idx (st : store) (h : Z) : option string := kv_view st !! numKey h.
Definition canon (st : store) (h : Z) : option Hash := idx st h ≫= to_hash.

Lemma GetCanonicalHashByNum_ok st h r : GetCanonicalHashByNum st h = Ok r →
  canon st h = r ∧ (r = None → idx st h = None).
Proof.
  unfold GetCanonicalHashByNum, getBlockHashByNum, canon, idx.
  destruct (kv_get st (numKey h)) as [d|e] eqn:E; simpl.
  - apply kv_get_ok in E. rewrite E. simpl. destruct (to_hash d); naive_solver.
  - destruct (err_is e ErrNotFound) eqn:He; [|done]. intros [= <-].
    by rewrite (kv_get_missing _ _ _ E He).
Qed.

(** Staged operations seen through a lookup of a number key. *)
Definition staged (acc : write_acc) (m : gmap string string) (h : Z) : option string :=
  apply_batch (wa_batch acc) m !! numKey h.

Lemma write_block_spec st acc b vh acc' : write_block st acc b vh = Ok acc' →
  0 ≤ BlockNumber b →
  acc_le acc acc' ∧
  (∀ o, canon st (BlockNumber b) = Some o → o ≠ BlockHash b → acc_covers (BlockNumber b) acc') ∧
  (∀ m h, 0 ≤ h → staged acc' m h = if h =? BlockNumber b then Some (hash_bytes (BlockHash b))
                                     else staged acc m h).
Proof.
  unfold write_block. intros Hw Hn. apply res_bind_ok in Hw as (old & Hold & Hw).
  apply GetCanonicalHashByNum_ok in Hold as [Hc _].
  set (acc1 := match old with Some _ => _ | None => _ end) in Hw.
  assert (acc_le acc acc1 ∧ wa_batch acc1 = wa_batch acc ∧
    (∀ o, canon st (BlockNumber b) = Some o → o ≠ BlockHash b → acc_covers (BlockNumber b) acc1))
    as (Hle & Hb & Hcov).
  { subst acc1. rewrite Hc. destruct old as [o|]; [|split_and!; naive_solver auto with chk].
    case_bool_decide; [split_and!; naive_solver auto with chk|].
    destruct (acc_le_affected (BlockNumber b) acc Hn). split_and!; naive_solver. }
  apply res_bind_ok in Hw as (d & _ & Hw). apply res_bind_ok in Hw as (b1 & Hb1 & Hw).
  apply res_bind_ok in Hw as (b2 & Hb2 & Hw). injection Hw as <-.
  apply kv_stage_ok in Hb1. apply kv_stage_ok in Hb2. subst b1 b2.
  split_and!; [done|done|]. intros m h Hh. unfold staged. simpl. rewrite Hb, !apply_batch_snoc. simpl.
  destruct (Z.eqb_spec h (BlockNumber b)) as [->|Hne]; [by rewrite lookup_insert_eq|].
  rewrite !lookup_insert_ne; [done| |].
  - apply hashKey_numKey.
  - intros Heq. by apply numKey_inj_nonneg in Heq.
Qed.

Lemma write_blocks_spec st l : ∀ acc acc', write_blocks st acc l = Ok acc' →
  Forall (λ p, 0 ≤ BlockNumber p.1) l →
  acc_le acc acc' ∧
  (∀ b o, b ∈ l.*1 → canon st (BlockNumber b) = Some o → o ≠ BlockHash b →
     acc_covers (BlockNumber b) acc') ∧
  (∀ m h, 0 ≤ h → staged acc' m h = match last_at h l.*1 with
                                     | Some x => Some (hash_bytes x)
                                     | None => staged acc m h end).
Proof.
  induction l as [|[b vh] l IH]; csimpl; intros acc acc' Hw Hwf.
  - injection Hw as <-. split_and!; [auto with chk|set_solver|done].
  - apply Forall_cons in Hwf as [Hb Hwf]. apply res_bind_ok in Hw as (acc1 & Hw1 & Hw).
    apply write_block_spec in Hw1 as (Hle1 & Hc1 & Hs1); [|done].
    destruct (IH acc1 acc' Hw Hwf) as (Hle & Hc & Hs). split_and!.
    + eauto with chk.
    + intros b' o Hin. apply elem_of_cons in Hin as [->|Hin]; eauto with chk.
    + intros m h Hh. rewrite Hs, Hs1 by done. destruct (last_at h l.*1); [done|].
      rewrite (Z.eqb_sym h). by destruct (BlockNumber b =? h).
Qed.

(** The effect of the clean-up loop that stopped at height [top]. *)
Definition cleaned (st : store) (tip : Z) (acc : write_acc) (top : Z) (acc' : write_acc) : Prop :=
  tip ≤ top ≤ MaxUint64 ∧ acc_le acc acc' ∧
  (∀ h, tip < h ≤ top → is_Some (idx st h) ∧ acc_covers h acc') ∧
  (∀ m h, 0 ≤ h → staged acc' m h = if (tip <? h) && (h <=? top) then None else staged acc m h).

Lemma clean_step_spec st tip acc h a : 0 ≤ tip → cleaned st tip acc h a →
  match clean_step st (h, a) with
  | inl (h', a') => cleaned st tip acc h' a' ∧ h' = h + 1
  | inr r => ∀ a', r = Ok a' → cleaned st tip acc h a' ∧ (h = MaxUint64 ∨ idx st (h + 1) = None)
  end.
Proof.
  intros Htip (Hh & Hle & Hcov & Hst). unfold clean_step.
  destruct (Z.ltb_spec h MaxUint64) as [Hlt|]; [|intros a' [= <-]; split; [done|lia]].
  rewrite u64_succ by (unfold is_u64; lia).
  destruct (kv_get st (numKey (h + 1))) as [d|e] eqn:Eg.
  - apply kv_get_ok in Eg. destruct (kv_stage _ _) as [b|] eqn:Eb; [|done].
    apply kv_stage_ok in Eb as ->. destruct (acc_le_affected (h + 1) a ltac:(lia)) as [Hl Hc1].
    split; [|done]. split_and!; simpl; [lia|lia|eauto with chk| |].
    + intros h' Hh'. destruct (decide (h' = h + 1)) as [->|]; [unfold idx; eauto|].
      destruct (Hcov h') as [? Hc']; [lia|]. split; [done|]. by eapply acc_covers_le.
    + intros m h' Hpos. unfold staged in *. simpl. rewrite apply_batch_snoc. simpl.
      destruct (decide (h' = h + 1)) as [->|Hne].
      { rewrite lookup_delete_eq. replace (tip <? h + 1) with true by lia.
        replace (h + 1 <=? h + 1) with true by lia. done. }
      rewrite lookup_delete_ne by (intros Heq; apply numKey_inj_nonneg in Heq; lia).
      rewrite Hst by done. by replace (h' <=? h) with (h' <=? h + 1) by lia.
  - destruct (err_is e ErrNotFound) eqn:He; [|done]. intros a' [= <-].
    split; [done|]. right. by apply (kv_get_missing _ _ _ Eg).
Qed.

(** The loop stops for every bound above the number of heights left. *)
Lemma clean_loop_spec st tip acc p : is_u64 tip → MaxUint64 - tip < Z.pos p →
  ∃ r, loop_pos p (clean_step st) (tip, acc) = inr r ∧
    ∀ acc', r = Ok acc' → ∃ top, cleaned st tip acc top acc' ∧
      (top = MaxUint64 ∨ idx st (top + 1) = None).
Proof.
  intros Htip Hp. unfold is_u64 in Htip.
  apply (loop_pos_total (clean_step st) (λ s, MaxUint64 - s.1)
    (λ s, cleaned st tip acc s.1 s.2)
    (λ r, ∀ acc', r = Ok acc' → ∃ top, cleaned st tip acc top acc' ∧
      (top = MaxUint64 ∨ idx st (top + 1) = None))); [| | |done].
  - intros [h a] Hi. simpl in Hi. pose proof (clean_step_spec st tip acc h a ltac:(lia) Hi) as Hs.
    destruct (clean_step st (h, a)) as [[h' a']|r]; simpl; [|by eauto].
    destruct Hs as [? ->]. split; [done|lia].
  - split_and!; simpl; [lia|lia|auto with chk|lia|].
    intros m h _. destruct (Z.ltb_spec tip h), (Z.leb_spec h tip); simpl; done || lia.
  - intros [h a] (Hh & _). simpl in *. lia.
Qed.

Lemma clean_above_spec st tip acc acc' : clean_above st tip acc = Ok acc' → is_u64 tip →
  ∃ top, cleaned st tip acc top acc' ∧ (top = MaxUint64 ∨ idx st (top + 1) = None).
Proof.
  unfold clean_above. intros Hc Htip.
  destruct (clean_loop_spec st tip acc (2 ^ 64) Htip) as (r & Hr & HP).
  { unfold is_u64, MaxUint64 in *. lia. }
  rewrite Hr in Hc. by apply HP.
Qed.
End index_facts.

Section write_facts.
Context `{HashText} `{JsonText} `{PebbleLaws} `{Rlp}.

Lemma write_cursor_spec c v acc acc' : write_cursor c v acc = Ok acc' →
  wa_changed acc' = wa_changed acc ∧
  (∀ m h, staged acc' m h = staged acc m h) ∧
  match wa_next acc, wa_next acc' with
  | None, None => wa_batch acc' = wa_batch acc
  | Some n, Some n' =>
      n' = set_Generation (if wa_changed acc then u64 (Generation n + 1) else Generation n) n ∧
      (wa_changed acc = true → Generation n ≠ MaxUint64) ∧ validate n' = None ∧
      wa_batch acc' = wa_batch acc ++ [BSet (forkScanKey c v) (json_print (state_json n'))]
  | _, _ => False
  end.
Proof.
  unfold write_cursor. destruct (wa_next acc) as [n|] eqn:En.
  - intros Hw. apply res_bind_ok in Hw as (n' & Hn' & Hw). apply res_bind_ok in Hw as (b & Hb & Hw).
    injection Hw as <-. apply setForkScan_ok in Hb as [Hv ->]. simpl.
    split_and!; try done.
    + intros m h. unfold staged. simpl. rewrite apply_batch_snoc. simpl.
      apply lookup_insert_ne. intros Heq. symmetry in Heq. by apply numKey_forkScanKey in Heq.
    + destruct (wa_changed acc); [|injection Hn' as <-; by destruct n].
      by destruct (Generation n =? MaxUint64); [|injection Hn' as <-].
    + intros Hch. rewrite Hch in Hn'.
      destruct (Z.eqb_spec (Generation n) MaxUint64); done.
  - intros [= <-]. rewrite En. done.
Qed.

(** The effect of a successful write on the indexes and the cursor. *)
Record write_effect (st : store) (blocks : list BlockContext) (c : Z) (v : string)
    (state : option ForkScanState) (first tail : BlockContext) (top : Z) (changed : bool)
    (r : option ForkScanState) (st' : store) : Prop := {
  we_top : BlockNumber tail ≤ top ≤ MaxUint64;
  we_end : top = MaxUint64 ∨ idx st (top + 1) = None;
  we_run h : BlockNumber tail < h ≤ top → is_Some (idx st h);
  we_idx h : 0 ≤ h → idx st' h =
    if (BlockNumber tail <? h) && (h <=? top) then None
    else match last_at h blocks with Some x => Some (hash_bytes x) | None => idx st h end;
  we_none : state = None → r = None;
  we_some s : state = Some s → ∃ n k,
    r = Some n ∧ validate n = None ∧
    n = set_Pending (Some (mkAnchor (BlockNumber tail) (BlockHash tail)))
          (set_Generation (if changed then u64 (Generation s + 1) else Generation s)
             (set_NextHeight k s)) ∧
    Z.min 0 (NextHeight s) ≤ k ≤ NextHeight s ∧ (changed = false → k = NextHeight s) ∧
    (changed = true → Generation s ≠ MaxUint64) ∧
    kv_view st' !! forkScanKey c v = Some (json_print (state_json n)) ∧
    (BlockNumber first ≤ A_Height (Published s) → changed = true ∧ k ≤ BlockNumber first) ∧
    (∀ h, BlockNumber tail < h ≤ top → changed = true ∧ k ≤ h) ∧
    (∀ b o, b ∈ blocks → canon st (BlockNumber b) = Some o → o ≠ BlockHash b →
       changed = true ∧ k ≤ BlockNumber b)
}.

Lemma write_batch_effect st blocks vhs c v state first tail acc st' :
  write_batch st blocks vhs c v state first tail = Ok acc →
  length blocks = length vhs → blocks_wf blocks → is_u64 (BlockNumber first) → is_u64 (BlockNumber tail) →
  kv_view st' = apply_batch (wa_batch acc) (kv_view st) →
  ∃ top, write_effect st blocks c v state first tail top (wa_changed acc) (wa_next acc) st'.
Proof.
  unfold write_batch. set (pend := mkAnchor _ _).
  set (acc0 := mkAcc [] false _). set (acc1 := match state with Some _ => _ | None => acc0 end).
  intros Hw Hlen Hwf [Hfirst _] Htip Hview.
  apply res_bind_ok in Hw as (acc2 & Hw1 & Hw). apply res_bind_ok in Hw as (acc3 & Hw2 & Hw).
  apply write_blocks_spec in Hw1 as (Hle1 & Hc1 & Hs1).
  2: { apply Forall_forall. intros [b vh] Hin. apply elem_of_zip_l in Hin. simpl.
       by apply (proj1 (Forall_forall _ _) Hwf) in Hin as [? _]. }
  rewrite fst_zip in Hc1, Hs1 by lia.
  apply clean_above_spec in Hw2 as (top & (Htop & Hle2 & Hc2 & Hs2) & Hend); [|done].
  apply write_cursor_spec in Hw as (Hch & Hs3 & Hn).
  assert (wa_batch acc1 = []) as Hb1.
  { subst acc1. destruct state as [s|]; [|done]. by destruct (_ <=? _). }
  exists top. split.
  - done.
  - done.
  - intros h Hh. by apply Hc2.
  - intros h Hh. unfold idx at 1. rewrite Hview. fold (staged acc (kv_view st) h).
    rewrite Hs3, Hs2, Hs1 by done. unfold staged. by rewrite Hb1.
  - intros ->. simpl in *. destruct Hle1 as [_ Hle1], Hle2 as [_ Hle2]. simpl in *.
    destruct (wa_next acc2), (wa_next acc3), (wa_next acc); done.
  - intros s ->. assert (acc_le acc0 acc1) as Hle0.
    { subst acc1. destruct (_ <=? _); [by apply acc_le_affected|apply acc_le_refl]. }
    pose proof (acc_le_trans _ _ _ Hle0 (acc_le_trans _ _ _ Hle1 Hle2)) as [_ Hle].
    simpl in Hle. destruct (wa_next acc3) as [n3|] eqn:En3; [|done].
    destruct Hle as (k & -> & [Hk0 Hk] & Hkc). destruct (wa_next acc) as [n|] eqn:En; [|done].
    destruct Hn as (-> & Hmax & Hval & Hbatch). rewrite Hch in *. simpl in *.
    assert (∀ h, acc_covers h acc3 → wa_changed acc3 = true ∧ k ≤ h) as Hcov.
    { intros h [Ha Hb]. split; [done|]. by specialize (Hb _ En3). }
    exists (set_Generation (if wa_changed acc3 then u64 (Generation s + 1) else Generation s)
             (set_NextHeight k (set_Pending (Some pend) s))), k.
    split_and!; try done.
    + rewrite Hview, Hbatch, apply_batch_snoc. apply lookup_insert_eq.
    + intros Hp. apply Hcov. eapply acc_covers_le; [exact Hle2|].
      eapply acc_covers_le; [exact Hle1|]. subst acc1. rewrite (proj2 (Z.leb_le _ _)) by done.
      by apply acc_le_affected.
    + intros h Hh. by apply Hcov, Hc2.
    + intros b o Hb Ho Hne. apply Hcov. eapply acc_covers_le; [exact Hle2|]. eauto.
Qed.

Lemma Write_ok db blocks vhs c v state r db' :
  WriteBlockInfosWithForkScan db blocks vhs c v state = (Ok r, db') → blocks_wf blocks →
  ∃ first tail top changed, head blocks = Some first ∧ last blocks = Some tail ∧
    write_effect (cdb_store db) blocks c v state first tail top changed r (cdb_store db').
Proof.
  unfold WriteBlockInfosWithForkScan. intros Hw Hwf.
  destruct (head blocks) as [first|] eqn:Eh; [|done].
  destruct (last blocks) as [tail|] eqn:El; [|done].
  destruct (last vhs) as [vh|]; [|done].
  destruct (bool_decide_reflect (length blocks = length vhs)) as [Hlen|]; [|done]. simpl in Hw.
  destruct (write_batch _ _ _ _ _ _ _ _) as [acc|e] eqn:Eb; [|done].
  destruct (kv_commit _ _) as [[e|] st'] eqn:Ec; [done|]. injection Hw as <- <-.
  apply kv_commit_ok in Ec.
  assert (is_u64 (BlockNumber tail)) as Ht.
  { apply last_Some_elem_of in El. by apply (proj1 (Forall_forall _ _) Hwf) in El. }
  assert (is_u64 (BlockNumber first)) as Hf.
  { destruct blocks; [done|]. injection Eh as ->. by apply Forall_cons in Hwf as [? _]. }
  destruct (write_batch_effect _ _ _ _ _ _ _ _ _ _ Eb Hlen Hwf Hf Ht Ec) as [top Heff].
  by exists first, tail, top, (wa_changed acc).
Qed.

Lemma Write_fail db blocks vhs c v state e db' :
  WriteBlockInfosWithForkScan db blocks vhs c v state = (Fail e, db') →
  kv_view (cdb_store db') = kv_view (cdb_store db) ∧ cdb_latest db' = cdb_latest db.
Proof.
  unfold WriteBlockInfosWithForkScan. repeat case_match; intros [= <- <-]; try done.
  simpl. split; [|done]. by eapply kv_commit_err.
Qed.

Lemma canon_idx st h x : canon st h = Some x ↔ idx st h = Some (hash_bytes x).
Proof.
  unfold canon. destruct (idx st h) as [d|]; simpl; [|done]. split.
  - intros ->%to_hash_Some. done.
  - intros [= ->]. apply to_hash_bytes.
Qed.
End write_facts.

(** ** Hash records through a write *)
Section record_facts.
Context `{HashText} `{JsonText} `{PebbleLaws} `{Rlp}.

Definition staged_rec (acc : write_acc) (m : gmap string string) (x : Hash) : option string :=
  apply_batch (wa_batch acc) m !! hashKey x.

Lemma write_block_rec st acc b vh acc' : write_block st acc b vh = Ok acc' →
  ∃ d, rlp_encode (mkBlockInfoRlp (BlockNumber b) vh) = Ok d ∧
    ∀ m x, staged_rec acc' m x = if decide (x = BlockHash b) then Some d else staged_rec acc m x.
Proof.
  unfold write_block. intros Hw. apply res_bind_ok in Hw as (old & _ & Hw).
  set (acc1 := match old with Some _ => _ | None => _ end) in Hw.
  assert (wa_batch acc1 = wa_batch acc) as Hb by (subst acc1; by repeat case_match).
  apply res_bind_ok in Hw as (d & Hd & Hw). apply res_bind_ok in Hw as (b1 & Hb1 & Hw).
  apply res_bind_ok in Hw as (b2 & Hb2 & Hw). injection Hw as <-.
  apply kv_stage_ok in Hb1. apply kv_stage_ok in Hb2. subst b1 b2. exists d. split; [done|].
  intros m x. unfold staged_rec. simpl. rewrite Hb, !apply_batch_snoc. simpl.
  rewrite lookup_insert_ne by (intros Heq; symmetry in Heq; by apply hashKey_numKey in Heq).
  destruct (decide (x = BlockHash b)) as [->|Hne]; [by rewrite lookup_insert_eq|].
  rewrite lookup_insert_ne; [done|]. intros Heq%hashKey_inj. by symmetry in Heq.
Qed.

Lemma write_blocks_rec st l : ∀ acc acc', write_blocks st acc l = Ok acc' →
  (∀ m x, x ∉ (BlockHash <$> l.*1) → staged_rec acc' m x = staged_rec acc m x) ∧
  (NoDup (BlockHash <$> l.*1) → ∀ b vh, (b, vh) ∈ l →
     ∃ d, rlp_encode (mkBlockInfoRlp (BlockNumber b) vh) = Ok d ∧
          ∀ m, staged_rec acc' m (BlockHash b) = Some d).
Proof.
  induction l as [|[b vh] l IH]; intros acc acc' Hw; csimpl in *.
  { injection Hw as <-. split; [done|set_solver]. }
  apply res_bind_ok in Hw as (acc1 & Hw1 & Hw). apply write_block_rec in Hw1 as (d & Hd & Hs).
  destruct (IH acc1 acc' Hw) as [Hout Hin]. split.
  - intros m x Hx. rewrite Hout by set_solver. rewrite Hs, decide_False by set_solver. done.
  - intros [Hnot Hnd]%NoDup_cons b' vh' Hb. apply elem_of_cons in Hb as [[= -> ->]|Hb]; [|auto].
    exists d. split; [done|]. intros m. rewrite Hout by done. by rewrite Hs, decide_True.
Qed.

Lemma clean_step_rec st m x h a :
  match clean_step st (h, a) with
  | inl s' => staged_rec s'.2 m x = staged_rec a m x
  | inr r => ∀ a', r = Ok a' → staged_rec a' m x = staged_rec a m x
  end.
Proof.
  unfold clean_step. destruct (h <? MaxUint64); [|simpl; naive_solver].
  destruct (kv_get _ _) as [|e]; [|destruct (err_is e ErrNotFound); simpl; naive_solver].
  destruct (kv_stage _ _) as [b|] eqn:Eb; [|done]. apply kv_stage_ok in Eb as ->.
  unfold staged_rec. simpl. rewrite apply_batch_snoc. simpl. apply lookup_delete_ne.
  intros Heq. symmetry in Heq. by apply hashKey_numKey in Heq.
Qed.

(** What every step of the clean-up keeps, the clean-up keeps. *)
Lemma clean_above_keeps {B} (f : write_acc → B) st tip acc acc' :
  (∀ h a, match clean_step st (h, a) with
          | inl s' => f s'.2 = f a
          | inr r => ∀ a', r = Ok a' → f a' = f a
          end) →
  clean_above st tip acc = Ok acc' → f acc' = f acc.
Proof.
  unfold clean_above. intros Hstep Hc.
  pose proof (loop_pos_inv (clean_step st) (λ s', f s'.2 = f acc) (λ r, ∀ a, r = Ok a → f a = f acc)) as HL.
  ospecialize (HL _ (2 ^ 64)%positive (tip, acc) eq_refl).
  { intros [h a] Ha. simpl in Ha. pose proof (Hstep h a) as Hs. destruct (clean_step st (h, a)); rewrite <- Ha; done. }
  destruct (loop_pos _ _ _) as [[h a]|r]; [|by apply HL]. by injection Hc as <-.
Qed.

Lemma clean_above_rec st tip acc acc' m x : clean_above st tip acc = Ok acc' →
  staged_rec acc' m x = staged_rec acc m x.
Proof. apply (clean_above_keeps (λ a, staged_rec a m x)). intros h a. apply clean_step_rec. Qed.

Lemma write_cursor_rec c v acc acc' m x : write_cursor c v acc = Ok acc' →
  staged_rec acc' m x = staged_rec acc m x.
Proof.
  intros Hw. apply write_cursor_spec in Hw as (_ & _ & Hn). unfold staged_rec.
  destruct (wa_next acc), (wa_next acc'); try done; [|by rewrite Hn].
  destruct Hn as (_ & _ & _ & ->). rewrite apply_batch_snoc. simpl.
  apply lookup_insert_ne. intros Heq. symmetry in Heq. by apply hashKey_forkScanKey in Heq.
Qed.

(** The cursor of a scope, through the phases of a write that come before it. *)
Definition staged_cursor (acc : write_acc) (m : gmap string string) (c : Z) (v : string) : option string :=
  apply_batch (wa_batch acc) m !! forkScanKey c v.

Lemma write_blocks_cursor st l m c v : ∀ acc acc', write_blocks st acc l = Ok acc' →
  staged_cursor acc' m c v = staged_cursor acc m c v.
Proof.
  induction l as [|[b vh] l IH]; intros acc acc' Hw; cbn [write_blocks] in Hw; [by injection Hw as <-|].
  apply res_bind_ok in Hw as (acc1 & Hw1 & Hw). rewrite (IH _ _ Hw). unfold write_block in Hw1.
  apply res_bind_ok in Hw1 as (old & _ & Hw1). set (acc2 := match old with Some _ => _ | None => _ end) in Hw1.
  assert (wa_batch acc2 = wa_batch acc) as Hb by (subst acc2; by repeat case_match).
  apply res_bind_ok in Hw1 as (d & _ & Hw1). apply res_bind_ok in Hw1 as (b1 & Hb1 & Hw1).
  apply res_bind_ok in Hw1 as (b2 & Hb2 & Hw1). injection Hw1 as <-.
  apply kv_stage_ok in Hb1 as ->. apply kv_stage_ok in Hb2 as ->. unfold staged_cursor. simpl.
  rewrite Hb, !apply_batch_snoc. simpl. rewrite lookup_insert_ne by apply numKey_forkScanKey.
  by rewrite lookup_insert_ne by apply hashKey_forkScanKey.
Qed.

Lemma clean_step_cursor st m c v h a :
  match clean_step st (h, a) with
  | inl s' => staged_cursor s'.2 m c v = staged_cursor a m c v
  | inr r => ∀ a', r = Ok a' → staged_cursor a' m c v = staged_cursor a m c v
  end.
Proof.
  unfold clean_step. destruct (h <? MaxUint64); [|simpl; naive_solver].
  destruct (kv_get _ _) as [|e]; [|destruct (err_is e ErrNotFound); simpl; naive_solver].
  destruct (kv_stage _ _) as [b|] eqn:Eb; [|done]. apply kv_stage_ok in Eb as ->.
  unfold staged_cursor. simpl. rewrite apply_batch_snoc. simpl. apply lookup_delete_ne, numKey_forkScanKey.
Qed.

Lemma clean_above_cursor st tip acc acc' m c v : clean_above st tip acc = Ok acc' →
  staged_cursor acc' m c v = staged_cursor acc m c v.
Proof. apply (clean_above_keeps (λ a, staged_cursor a m c v)). intros h a. apply clean_step_cursor. Qed.

(** A write without a cursor leaves every stored cursor as it is. *)
Lemma Write_none_cursor db blocks vhs c v r db' c' v' :
  WriteBlockInfosWithForkScan db blocks vhs c v None = (Ok r, db') → blocks_wf blocks →
  kv_view (cdb_store db') !! forkScanKey c' v' = kv_view (cdb_store db) !! forkScanKey c' v'.
Proof.
  intros Hw Hwf. destruct (Write_ok _ _ _ _ _ _ _ _ Hw Hwf) as (? & ? & ? & ? & _ & _ & Heff).
  pose proof (we_none _ _ _ _ _ _ _ _ _ _ _ Heff eq_refl) as ->. clear Heff. revert Hw.
  unfold WriteBlockInfosWithForkScan. intros Hw.
  destruct (head blocks) as [first|]; [|done]. destruct (last blocks) as [tail|]; [|done].
  destruct (last vhs); [|done]. destruct (negb _); [done|].
  destruct (write_batch _ _ _ _ _ _ _ _) as [acc|e] eqn:Eb; [|done].
  destruct (kv_commit _ _) as [[e|] st'] eqn:Ec; [done|]. injection Hw as Hr <-. simpl.
  apply kv_commit_ok in Ec as ->. unfold write_batch in Eb.
  apply res_bind_ok in Eb as (acc2 & Hw1 & Eb). apply res_bind_ok in Eb as (acc3 & Hw2 & Eb).
  apply write_blocks_cursor with (m := kv_view (cdb_store db)) (c := c') (v := v') in Hw1.
  apply clean_above_cursor with (m := kv_view (cdb_store db)) (c := c') (v := v') in Hw2.
  apply write_cursor_spec in Eb as (_ & _ & Hn). unfold staged_cursor in *.
  rewrite Hr in Hn. destruct (wa_next acc3); [done|]. by rewrite Hn, Hw2, Hw1.
Qed.
End record_facts.

(** ** Properties *)
Section theorems.
Context `{HashTextLaws} `{!JsonText} `{!JsonTextLaws} `{PebbleLaws} `{RlpLaws}.

(** (C12) A successful write makes the new blocks canonical and removes stale numbers:
    at every height up to the new tip the canonical hash is that of the last
    new block of this height, or the old one; and every height of the
    unbroken run above the new tip has no canonical hash any more. *)
Theorem write_sets_canonical db blocks vhs c v state r db' tail :
  WriteBlockInfosWithForkScan db blocks vhs c v state = (Ok r, db') →
  blocks_wf blocks → last blocks = Some tail →
  (∀ h, 0 ≤ h ≤ BlockNumber tail → canon (cdb_store db') h =
     match last_at h blocks with Some x => Some x | None => canon (cdb_store db) h end) ∧
  (∀ h, BlockNumber tail < h ≤ MaxUint64 →
     (∀ j, BlockNumber tail < j ≤ h → idx (cdb_store db) j ≠ None) →
     idx (cdb_store db') h = None).
Proof.
  intros Hw Hwf Hl. destruct (Write_ok _ _ _ _ _ _ _ _ Hw Hwf) as
    (first & t & top & ch & _ & Ht & Heff). rewrite Hl in Ht. injection Ht as <-.
  pose proof (we_top _ _ _ _ _ _ _ _ _ _ _ Heff) as Htop.
  assert (0 ≤ BlockNumber tail) as Hpos.
  { apply last_Some_elem_of in Hl. by apply (proj1 (Forall_forall _ _) Hwf) in Hl as [? _]. }
  split; intros h Hh.
  - unfold canon. rewrite (we_idx _ _ _ _ _ _ _ _ _ _ _ Heff) by lia.
    replace (BlockNumber tail <? h) with false by lia. simpl.
    destruct (last_at h blocks); [|done]. simpl. apply to_hash_bytes.
  - intros Hrun. rewrite (we_idx _ _ _ _ _ _ _ _ _ _ _ Heff) by lia.
    destruct (Z.leb_spec h top); [by replace (BlockNumber tail <? h) with true by lia|].
    destruct (we_end _ _ _ _ _ _ _ _ _ _ _ Heff); [lia|].
    by destruct (Hrun (top + 1)); [lia|].
Qed.

(** The numbers with a canonical hash are exactly [lo .. hi]. *)
Definition index_is (st : store) (lo hi : Z) : Prop :=
  ∀ h, is_u64 h → is_Some (idx st h) ↔ lo ≤ h ≤ hi.

Definition consecutive (n : Z) (blocks : list BlockContext) : Prop :=
  ∀ i b, blocks !! i = Some b → BlockNumber b = n + Z.of_nat i.

(** (C13) The index invariant: when the canonical numbers form an interval and the new
    blocks are consecutive from inside it or directly above it, they form an
    interval again, which ends at the new tip -- for an extension, and for a
    reorg to a longer, equal or shorter chain alike. *)
Theorem write_keeps_interval db blocks vhs c v state r db' lo hi first tail :
  WriteBlockInfosWithForkScan db blocks vhs c v state = (Ok r, db') →
  blocks_wf blocks → head blocks = Some first → last blocks = Some tail →
  consecutive (BlockNumber first) blocks →
  index_is (cdb_store db) lo hi → lo ≤ BlockNumber first ≤ hi + 1 → hi ≤ MaxUint64 →
  index_is (cdb_store db') lo (BlockNumber tail).
Proof.
  intros Hw Hwf Hf Hl Hcons Hidx Hlo Hhi h Hh. pose proof Hh as [Hh0 _].
  destruct (Write_ok _ _ _ _ _ _ _ _ Hw Hwf) as (f & t & top & ch & Hf' & Ht & Heff).
  rewrite Hf in Hf'. rewrite Hl in Ht. injection Hf' as <-. injection Ht as <-.
  pose proof (we_top _ _ _ _ _ _ _ _ _ _ _ Heff) as Htop.
  pose proof (we_end _ _ _ _ _ _ _ _ _ _ _ Heff) as Hend.
  assert (Htail : BlockNumber tail = BlockNumber first + Z.of_nat (pred (length blocks))).
  { apply Hcons. by rewrite <- last_lookup. }
  assert (Hpos : 0 ≤ BlockNumber tail).
  { apply last_Some_elem_of in Hl. by apply (proj1 (Forall_forall _ _) Hwf) in Hl as [? _]. }
  assert (Hat : is_Some (last_at h blocks) ↔ BlockNumber first ≤ h ≤ BlockNumber tail).
  { rewrite last_at_is_Some. split.
    - intros (b & [i Hi]%list_elem_of_lookup & <-). pose proof (Hcons _ _ Hi) as Hn.
      apply lookup_lt_Some in Hi. lia.
    - intros Hr. destruct (lookup_lt_is_Some_2 blocks (Z.to_nat (h - BlockNumber first))) as [b Hb].
      { destruct blocks; simpl in *; [done|]. lia. }
      exists b. split; [by apply list_elem_of_lookup_2 in Hb|]. rewrite (Hcons _ _ Hb). lia. }
  rewrite (we_idx _ _ _ _ _ _ _ _ _ _ _ Heff) by done.
  assert (Hcov : BlockNumber tail < h → h ≤ hi → h ≤ top).
  { intros Hlt1 Hlt2. destruct Hend as [->|Hn]; [unfold is_u64 in Hh; lia|].
    destruct (Z.le_gt_cases h top); [done|].
    assert (is_Some (idx (cdb_store db) (top + 1))) as [? Hx].
    { apply Hidx; [unfold is_u64 in *; lia|lia]. }
    by rewrite Hx in Hn. }
  destruct (Z.ltb_spec (BlockNumber tail) h), (Z.leb_spec h top); simpl.
  1: { split; [by intros []|lia]. }
  all: destruct (last_at h blocks) as [x|] eqn:Ex;
    [destruct Hat as [Hat _]; specialize (Hat ltac:(eauto)); split; [lia|eauto]|].
  all: assert (¬ BlockNumber first ≤ h ≤ BlockNumber tail) by
    (intros Hc; apply Hat in Hc as [? Hc]; congruence).
  all: rewrite (Hidx h Hh); lia.
Qed.

(** (C10) The cursor is never left above a change: after a successful write with a
    cursor, every height below the new cursor that had a canonical hash still
    has the same one; the cursor only moves down; and when anything at all
    changed the generation was bumped, without wrap-around. *)
Theorem write_rewinds_cursor db blocks vhs c v s r db' :
  WriteBlockInfosWithForkScan db blocks vhs c v (Some s) = (Ok r, db') →
  blocks_wf blocks → is_u64 (Generation s) →
  ∃ n tail, r = Some n ∧ last blocks = Some tail ∧ NextHeight n ≤ NextHeight s ∧
    Pending n = Some (mkAnchor (BlockNumber tail) (BlockHash tail)) ∧
    (∀ h x, is_u64 h → h < NextHeight n → canon (cdb_store db) h = Some x →
       canon (cdb_store db') h = Some x) ∧
    (Generation n = Generation s + 1 ∨
     Generation n = Generation s ∧ NextHeight n = NextHeight s ∧
     ∀ h x, is_u64 h → canon (cdb_store db) h = Some x → canon (cdb_store db') h = Some x).
Proof.
  intros Hw Hwf Hg. destruct (Write_ok _ _ _ _ _ _ _ _ Hw Hwf) as
    (first & tail & top & ch & _ & Ht & Heff).
  destruct (we_some _ _ _ _ _ _ _ _ _ _ _ Heff s eq_refl) as
    (n & k & -> & _ & -> & [_ Hk] & Hkc & Hmax & _ & _ & Hrun & Hrep).
  assert (Hsame : ∀ h x, is_u64 h → (ch = false ∨ h < k) →
    canon (cdb_store db) h = Some x → canon (cdb_store db') h = Some x).
  { intros h x [Hh _] Hor Hx. apply canon_idx. rewrite (we_idx _ _ _ _ _ _ _ _ _ _ _ Heff) by done.
    destruct ((BlockNumber tail <? h) && (h <=? top)) eqn:Er.
    { apply andb_true_iff in Er as [E1 E2]. destruct (Hrun h) as [-> ?]; [lia|]. naive_solver lia. }
    destruct (last_at h blocks) as [y|] eqn:Ey; [|by apply canon_idx].
    apply last_at_elem in Ey as (b & Hb & <- & <-).
    destruct (decide (x = BlockHash b)) as [->|Hne]; [done|].
    destruct (Hrep b x Hb Hx Hne) as [-> ?]. naive_solver lia. }
  eexists _, tail. split_and!; try done.
  - intros h x Hh Hlt. simpl in Hlt. apply Hsame; [done|]. by right.
  - simpl. destruct ch.
    + left. apply u64_succ; auto.
    + right. split_and!; [done|by apply Hkc|]. intros h x Hh. apply Hsame; [done|]. by left.
Qed.

(** (C11) Index and cursor are written together or not at all: a failed write leaves
    the stored data and the latest block as they were; a successful one has
    stored exactly the cursor it returns. *)
Theorem write_atomic db blocks vhs c v state r db' :
  WriteBlockInfosWithForkScan db blocks vhs c v state = (r, db') → blocks_wf blocks →
  match r with
  | Fail _ => kv_view (cdb_store db') = kv_view (cdb_store db) ∧ cdb_latest db' = cdb_latest db
  | Ok None => state = None
  | Ok (Some n) => readable (cdb_store db') → state_wf n →
      LoadForkScan (cdb_store db') c v = Ok (Some n)
  end.
Proof.
  intros Hw Hwf. destruct r as [r|e]; [|by eapply Write_fail].
  destruct (Write_ok _ _ _ _ _ _ _ _ Hw Hwf) as (first & tail & top & ch & _ & _ & Heff).
  destruct state as [s|].
  - destruct (we_some _ _ _ _ _ _ _ _ _ _ _ Heff s eq_refl) as
      (n & k & -> & Hval & _ & _ & _ & _ & Hst & _).
    intros Hr Hwfn. apply LoadForkScan_stored; [done..|].
    specialize (Hr (forkScanKey c v)). by rewrite Hst in Hr.
  - by rewrite (we_none _ _ _ _ _ _ _ _ _ _ _ Heff eq_refl).
Qed.

(** (C17) What was written can be queried: after a successful write of blocks with
    distinct hashes, each of them is found by hash with its number and
    validation hash, and reported as a fork exactly when another block is
    canonical at its number. *)
Theorem write_then_query db blocks vhs c v state r db' i b vh :
  WriteBlockInfosWithForkScan db blocks vhs c v state = (Ok r, db') →
  blocks_wf blocks → NoDup (BlockHash <$> blocks) → readable (cdb_store db') →
  blocks !! i = Some b → vhs !! i = Some vh → vh ≤ MaxInt64 →
  GetBlockInfoByHash (cdb_store db') (BlockHash b) =
    Ok (mkBlockInfo (BlockHash b) (BlockNumber b) vh
          (negb (bool_decide (canon (cdb_store db') (BlockNumber b) = Some (BlockHash b))))).
Proof.
  intros Hw Hwf Hnd Hread Hb Hvh Hmax.
  assert (Hgood : ∀ d, idx (cdb_store db') (BlockNumber b) = Some d → is_Some (to_hash d)).
  { destruct (Write_ok _ _ _ _ _ _ _ _ Hw Hwf) as (f' & t' & top & ch & _ & _ & Heff).
    apply list_elem_of_lookup_2 in Hb. intros d.
    rewrite (we_idx _ _ _ _ _ _ _ _ _ _ _ Heff) by (by apply (proj1 (Forall_forall _ _) Hwf) in Hb as [? _]).
    destruct (proj2 (last_at_is_Some (BlockNumber b) blocks)) as [y ->]; [eauto|].
    case_match; [done|]. intros [= <-]. rewrite to_hash_bytes. eauto. }
  revert Hw. unfold WriteBlockInfosWithForkScan.
  destruct (head blocks) as [first|]; [|done]. destruct (last blocks) as [tail|]; [|done].
  destruct (last vhs); [|done].
  destruct (bool_decide_reflect (length blocks = length vhs)) as [Hlen|]; [|done]. simpl.
  destruct (write_batch _ _ _ _ _ _ _ _) as [acc|e] eqn:Eb; [|done].
  destruct (kv_commit _ _) as [[e|] st'] eqn:Ec; [done|]. intros [= <- <-].
  apply kv_commit_ok in Ec. simpl in *.
  unfold write_batch in Eb. apply res_bind_ok in Eb as (acc2 & Hw1 & Eb).
  apply res_bind_ok in Eb as (acc3 & Hw2 & Eb). apply write_blocks_rec in Hw1 as [_ Hrec].
  rewrite fst_zip in Hrec by lia.
  destruct (Hrec Hnd b vh) as (d & Hd & Hst).
  { apply elem_of_lookup_zip_with. by exists i, b, vh. }
  assert (kv_view st' !! hashKey (BlockHash b) = Some d) as Hview.
  { rewrite Ec. change (staged_rec acc (kv_view (cdb_store db)) (BlockHash b) = Some d).
    erewrite write_cursor_rec, clean_above_rec by done. apply Hst. }
  assert (is_u64 (BlockNumber b)) as Hn.
  { apply list_elem_of_lookup_2 in Hb. by apply (proj1 (Forall_forall _ _) Hwf) in Hb. }
  assert (0 ≤ vh) as Hvpos.
  { destruct (Z.lt_ge_cases vh 0) as [Hneg|]; [|done].
    pose proof (rlp_encode_negative (mkBlockInfoRlp (BlockNumber b) vh) (or_intror Hneg)) as Hno.
    by rewrite Hd in Hno. }
  unfold GetBlockInfoByHash. pose proof (Hread (hashKey (BlockHash b))) as Hr1.
  rewrite Hview in Hr1. rewrite Hr1. simpl. rewrite (rlp_decode_encode _ _ Hd). simpl.
  rewrite u64_id by done.
  replace (i64 vh) with vh by (unfold i64, MaxInt64 in *; rewrite Z.mod_small; lia).
  unfold getBlockHashByNum. pose proof (Hread (numKey (BlockNumber b))) as Hr2.
  unfold canon, idx in *.
  destruct (kv_view st' !! numKey (BlockNumber b)) as [d'|]; rewrite Hr2; simpl.
  - destruct (Hgood d' eq_refl) as [x ->]. simpl. do 3 f_equal. apply bool_decide_ext. naive_solver.
  - done.
Qed.

(** A negative validation hash makes every write that contains it fail, and the
    stored data stay as they were: RLP has no negative integers, and the
    validation hash of a block is an [int64]. *)
Theorem write_negative_validation_fails db blocks vhs c v state i b vh :
  blocks !! i = Some b → vhs !! i = Some vh → vh < 0 →
  ∃ e db', WriteBlockInfosWithForkScan db blocks vhs c v state = (Fail e, db') ∧
           kv_view (cdb_store db') = kv_view (cdb_store db).
Proof.
  intros Hb Hvh Hneg.
  assert (∀ l acc, (b, vh) ∈ l → ∃ e, write_blocks (cdb_store db) acc l = Fail e) as Hfail.
  { induction l as [|[b' vh'] l IH]; intros acc Hin; [set_solver|]. simpl.
    destruct (write_block _ acc b' vh') as [acc1|e] eqn:E; simpl; [|eauto].
    apply elem_of_cons in Hin as [[= <- <-]|Hin]; [|by apply IH].
    apply write_block_rec in E as (d & Hd & _).
    pose proof (rlp_encode_negative (mkBlockInfoRlp (BlockNumber b) vh) (or_intror Hneg)) as Hno.
    by rewrite Hd in Hno. }
  destruct (WriteBlockInfosWithForkScan db blocks vhs c v state) as [[r|e] db'] eqn:Hw.
  - revert Hw. unfold WriteBlockInfosWithForkScan, write_batch.
    destruct (head blocks), (last blocks), (last vhs); try done.
    destruct (negb _); [done|].
    match goal with |- context [write_blocks ?st ?a ?l] => destruct (Hfail l a) as [e He] end.
    { apply elem_of_lookup_zip_with. by exists i, b, vh. }
    by rewrite He.
  - exists e, db'. split; [done|]. by eapply Write_fail.
Qed.

(** A block query by number ignores the sign of the number: the key is built
    from the magnitude, so a query for [-n] answers with block [n]. *)
Theorem negative_number_aliases st n : GetBlockInfoByNum st (- n) = GetBlockInfoByNum st n.
Proof. unfold GetBlockInfoByNum, getBlockHashByNum. by rewrite numKey_neg. Qed.
End theorems.

(** ** A concrete codec, and the witnesses *)
Definition demo_rlp : Rlp := {|
  rlp_encode x := if (0 <=? R_Num x) && (0 <=? R_ValidationHash x)
                  then Ok (pos_bits (encode (R_Num x, R_ValidationHash x)))
                  else Fail (ErrMsg "rlp: cannot encode negative big.Int");
  rlp_decode s := match decode (bits_pos s) with
                  | Some (n, v) => Ok (mkBlockInfoRlp n v)
                  | None => Fail (ErrMsg "rlp") end
|}.

#[export] Instance demo_rlp_laws : @RlpLaws demo_rlp.
Proof.
  split; simpl.
  - intros [n v] d. simpl. destruct (_ && _); [|done]. intros [= <-].
    by rewrite bits_pos_bits, decode_encode.
  - intros [n v]; simpl. intros. by rewrite (proj2 (andb_true_iff _ _)) by (split; lia).
  - intros [n v]; simpl. intros Hneg. destruct (_ && _) eqn:E; [|done]. lia.
Qed.

Module Demo.
#[local] Existing Instances mem_pebble demo_rlp demo_hash_text demo_json_text.

Definition blk (n h p : Z) : BlockContext := mkBlockContext n (hashOf h) (hashOf p) 0.
Definition db0 : ConsistencyDB := mkCDB mem_empty None.
Definition chain3 : list BlockContext := [blk 1 1 9; blk 2 2 1; blk 3 3 2].
Definition db1 : ConsistencyDB := (WriteBlockInfos db0 chain3 [10; 20; 30]).2.
(** The cursor after all three heights were scanned. *)
Definition cursor : ForkScanState :=
  mkScanState 1 (mkAnchor 1 (hashOf 1)) 4 1 (mkAnchor 3 (hashOf 3))
    (Some (mkPosition "inner" 0 10)) None.
(** A reorg to a shorter chain: one new block at height 2. *)
Definition reorg2 : list BlockContext := [blk 2 22 1].
Definition after : res (option ForkScanState) * ConsistencyDB :=
  WriteBlockInfosWithForkScan db1 reorg2 [220] 56 "v" (Some cursor).
Definition cursor2 : ForkScanState :=
  mkScanState 1 (mkAnchor 1 (hashOf 1)) 2 2 (mkAnchor 3 (hashOf 3))
    (Some (mkPosition "inner" 0 10)) (Some (mkAnchor 2 (hashOf 22))).
Definition db2 : ConsistencyDB := after.2.

Lemma after_eq : after = (Ok (Some cursor2), db2).
Proof. unfold db2. vm_compute. reflexivity. Qed.

Lemma reorg2_wf : blocks_wf reorg2.
Proof. repeat constructor; vm_compute; congruence. Qed.

Lemma cursor2_wf : state_wf cursor2.
Proof.
  unfold state_wf, anchor_wf, position_wf, is_u64, MaxUint64, MaxInt64. simpl.
  split_and!; try lia; intros ? [= <-]; simpl; split_and!; done || lia.
Qed.

Lemma db2_readable : readable (cdb_store db2).
Proof. apply mem_readable. vm_compute. reflexivity. Qed.
End Demo.
Import Demo.
#[local] Existing Instances mem_pebble demo_rlp demo_hash_text demo_json_text.

Lemma write_sets_canonical_witness :
  canon (cdb_store db2) 2 = Some (hashOf 22) ∧
  idx (cdb_store db2) 3 = None.
Proof.
  destruct (write_sets_canonical _ _ _ _ _ _ _ _ (blk 2 22 1) after_eq reorg2_wf eq_refl) as [H1 H2].
  split.
  - rewrite (H1 2) by (simpl; lia). reflexivity.
  - apply H2; [unfold MaxUint64; simpl; lia|]. simpl. intros j Hj.
    assert (j = 3) as -> by lia. vm_compute. congruence.
Defined.

Lemma write_rewinds_cursor_witness : ∃ n, after.1 = Ok (Some n) ∧ NextHeight n ≤ 4.
Proof.
  destruct (write_rewinds_cursor _ _ _ _ _ _ _ _ after_eq reorg2_wf) as (n & t & Hn & _ & Hle & _).
  { vm_compute; split; congruence. }
  exists n. injection Hn as <-. split; [vm_compute; reflexivity|exact Hle].
Defined.

Lemma write_atomic_witness :
  LoadForkScan (cdb_store db2) 56 "v" = Ok (Some cursor2).
Proof.
  apply (write_atomic _ _ _ _ _ _ _ _ after_eq reorg2_wf); [exact db2_readable|exact cursor2_wf].
Defined.

Lemma write_keeps_interval_witness : index_is (cdb_store db1) 1 3.
Proof.
  apply (write_keeps_interval db0 chain3 [10; 20; 30] 0 "" None None db1 1 0 (blk 1 1 9) (blk 3 3 2)).
  - vm_compute. reflexivity.
  - repeat constructor; vm_compute; congruence.
  - reflexivity.
  - reflexivity.
  - intros [|[|[|i]]] b Hb; simpl in Hb; [injection Hb as <-; reflexivity..|done].
  - intros h _. unfold idx. simpl.
    rewrite lookup_empty. split; [by intros []|lia].
  - simpl. lia.
  - unfold MaxUint64. lia.
Defined.

Lemma write_then_query_witness :
  GetBlockInfoByHash (cdb_store db2) (hashOf 22) = Ok (mkBlockInfo (hashOf 22) 2 220 false).
Proof.
  refine (eq_trans (write_then_query _ _ _ _ _ _ _ _ 0%nat (blk 2 22 1) 220 after_eq reorg2_wf
    _ _ _ _ _) _); [| | | | |vm_compute; reflexivity].
  - repeat constructor. set_solver.
  - exact db2_readable.
  - reflexivity.
  - reflexivity.
  - unfold MaxInt64. lia.
Defined.

Lemma write_negative_validation_fails_witness :
  ∃ e db', WriteBlockInfosWithForkScan db1 reorg2 [-7] 56 "v" (Some cursor) = (Fail e, db') ∧
    kv_view (cdb_store db') = kv_view (cdb_store db1).
Proof.
  apply (write_negative_validation_fails _ _ _ _ _ _ 0%nat (blk 2 22 1) (-7)); done || lia.
Defined.
