(* ===== verification/Checker.v ===== *)
(** * Checker: the checker's state, its environment and the effect monad

    [Checker] is the record of check/check.go.  Everything outside the process --
    S3, Kafka, etcd, the replica nodes, the clock, timers and cancellation -- is one
    function [env] that answers a request given the history of all earlier requests
    and answers; no assumption is made about it here.  An operation is a function
    from the world to its result and the new world. *)
From S2P Require Import Prelude Types Config Json Store ScanState BlockIndex.

(** ** Data *)

(** check/fork_scan.go: [observedAt] is [None] for the zero time. *)
Record forkScanSchedule := mkSchedule {
  sc_generation : Z;
  sc_observedAt : option Z;
  sc_observedHeight : Z;
  sc_matureHeight : Z;
  sc_mature : bool
}.

(** check/fork_scan_batch.go: [rewind] is the shared fence pointer. *)
Record forkScanBatch := mkBatch {
  b_start : Z;
  b_upper : Z;
  b_generation : Z;
  b_rewind : option Z
}.

Record outerNoticeKey := mkKey { k_hash : Hash; k_isFork : bool }.
#[export] Instance outer_key_eq_dec : EqDecision outerNoticeKey.
Proof. solve_decision. Defined.
#[export] Instance outer_key_countable : Countable outerNoticeKey.
Proof.
  refine (inj_countable' (λ k, (k_hash k, k_isFork k)) (λ p, mkKey p.1 p.2) _). by intros [].
Defined.

Record noticeID := mkNoticeID { id_tail : Hash; id_newCount : Z; id_dropCount : Z }.
#[export] Instance notice_id_eq_dec : EqDecision noticeID.
Proof. solve_decision. Defined.

(** The outer topics a checker writes to. *)
Inductive destination := outerVersion | outerSingleton.
#[export] Instance destination_eq_dec : EqDecision destination.
Proof. solve_decision. Defined.
#[export] Instance destination_countable : Countable destination.
Proof.
  refine (inj_countable' (λ d, match d with outerVersion => true | outerSingleton => false end)
    (λ b, if (b : bool) then outerVersion else outerSingleton) _). by intros [].
Defined.

(** check/etcd_lock.go; [l_cancel]: the cancel function is set, the context is not
    cancelled.  The etcd client and the callback are not data. *)
Record EtcdLock := mkEtcdLock {
  l_leaderKey : string;
  l_versionKey : string;
  l_version : string;
  l_ttl : Z;
  l_lease : Z;
  l_cancel : bool
}.
#[export] Instance etcd_lock_eq_dec : EqDecision EtcdLock.
Proof. solve_decision. Defined.

(** nodes/node.go. *)
Record Node := mkNode {
  StateType : Z;          (* 1 latest, 2 delay, 3 offline *)
  Address : string;
  Port : Z;
  NodeType : Z;
  Lease : Z
}.
#[export] Instance node_eq_dec : EqDecision Node.
Proof. solve_decision. Defined.

Inductive change_type := NoChange | UpdateNode | DelNode.
#[export] Instance change_type_eq_dec : EqDecision change_type.
Proof. solve_decision. Defined.

Record NodeWithHeight := mkNodeWithHeight {
  nh_Node : Node;
  nh_LatestBlockNumber : Z;
  nh_ChangeType : change_type
}.

(** check/check.go, grouped: publication, replica state, fork scan. *)
Record PubState := mkPub {
  latestOuter : option OuterNotice;           (* latestOuterBlockChangeNotification *)
  etcdLock : option EtcdLock;
  isOuterSingletonAlign : bool;
  cachedOuterSingle : option OuterNotice;     (* cachedOuterSingleBlockChangeNotification *)
  currentNotice : noticeID;
  delivered : gmap destination (gset outerNoticeKey)
}.

Record RepState := mkRep {
  latestWriteEtcd : Z;
  ReplicaLatestBlockNumber : Z;
  lastWrittenBlockNumber : Z
}.

(** [forkBatch] points into [batchHeap]: the scan worker keeps its pointer while
    the processing goroutine moves the fence of the same object. *)
Record ScanRun := mkScanRun {
  forkState : option ForkScanState;
  forkRecoveryAnchor : option ForkScanAnchor;
  forkRecoveryDrop : bool;
  forkAligned : bool;
  forkSchedule : forkScanSchedule;
  forkBatch : option nat;
  batchHeap : list forkScanBatch
}.

Record Checker := mkChecker {
  config : Config;
  pub : PubState;
  rep : RepState;
  scan : ScanRun
}.

Definition set_latestOuter n (p : PubState) : PubState :=
  mkPub n (etcdLock p) (isOuterSingletonAlign p) (cachedOuterSingle p) (currentNotice p) (delivered p).
Definition set_etcdLock l (p : PubState) : PubState :=
  mkPub (latestOuter p) l (isOuterSingletonAlign p) (cachedOuterSingle p) (currentNotice p) (delivered p).
Definition set_align b (p : PubState) : PubState :=
  mkPub (latestOuter p) (etcdLock p) b (cachedOuterSingle p) (currentNotice p) (delivered p).
Definition set_cached n (p : PubState) : PubState :=
  mkPub (latestOuter p) (etcdLock p) (isOuterSingletonAlign p) n (currentNotice p) (delivered p).
Definition set_currentNotice i (p : PubState) : PubState :=
  mkPub (latestOuter p) (etcdLock p) (isOuterSingletonAlign p) (cachedOuterSingle p) i (delivered p).
Definition set_delivered d (p : PubState) : PubState :=
  mkPub (latestOuter p) (etcdLock p) (isOuterSingletonAlign p) (cachedOuterSingle p) (currentNotice p) d.

Definition set_latestWriteEtcd t (r : RepState) : RepState :=
  mkRep t (ReplicaLatestBlockNumber r) (lastWrittenBlockNumber r).
Definition set_ReplicaLatest h (r : RepState) : RepState :=
  mkRep (latestWriteEtcd r) h (lastWrittenBlockNumber r).
Definition set_lastWritten h (r : RepState) : RepState :=
  mkRep (latestWriteEtcd r) (ReplicaLatestBlockNumber r) h.

Definition set_forkState s (r : ScanRun) : ScanRun :=
  mkScanRun s (forkRecoveryAnchor r) (forkRecoveryDrop r) (forkAligned r) (forkSchedule r)
    (forkBatch r) (batchHeap r).
Definition set_recovery a d (r : ScanRun) : ScanRun :=
  mkScanRun (forkState r) a d (forkAligned r) (forkSchedule r) (forkBatch r) (batchHeap r).
Definition set_aligned b (r : ScanRun) : ScanRun :=
  mkScanRun (forkState r) (forkRecoveryAnchor r) (forkRecoveryDrop r) b (forkSchedule r)
    (forkBatch r) (batchHeap r).
Definition set_schedule s (r : ScanRun) : ScanRun :=
  mkScanRun (forkState r) (forkRecoveryAnchor r) (forkRecoveryDrop r) (forkAligned r) s
    (forkBatch r) (batchHeap r).
Definition set_batch p h (r : ScanRun) : ScanRun :=
  mkScanRun (forkState r) (forkRecoveryAnchor r) (forkRecoveryDrop r) (forkAligned r)
    (forkSchedule r) p h.

(** ** Requests to the environment *)

(** A context: [Background] is never cancelled. *)
Inductive context := Background | WithCancel.

(** One page of ListObjectsV2. *)
Record S3Page := mkPage {
  pg_Contents : list (option string);      (* the object keys, possibly nil *)
  pg_IsTruncated : option bool;
  pg_NextToken : option string
}.

(** The fields of a block file that are read. *)
Record BlockFile := mkBlockFile {
  bf_Height : Z;
  bf_ParentID : Hash;
  bf_Timestamp : Z
}.

Inductive etcd_op :=
  | OpPut (key value : string)
  | OpPutLease (key value : string) (lease : Z)
  | OpDelete (key : string).

(** The answer to the transaction of the lock: taken, or the leader key's
    modification revision and the version key's value. *)
Inductive lock_reply :=
  | LockTaken
  | LockRefused (leader : option Z) (version : option string).
(** What ends the wait for the leader key: an error of the watch, events, or the
    cancelled context. *)
Inductive watch_reply := WatchErr | WatchEvents | WatchCancelled.

(** A message of an outer topic. *)
Record outer_msg := mkOuterMsg {
  om_Key : string;
  om_Value : res OuterNotice               (* DecodeFromGzipJson *)
}.

(** The result member of a JSON-RPC response. *)
Inductive rpc_result := RpcString (s : string) | RpcOther.

(** A message of the inner topic; [msg_Value] is its decoded notification. *)
Record kafka_msg := mkMsg {
  msg_Topic : string;
  msg_Partition : Z;
  msg_Offset : Z;
  msg_Value : res BlockChangeNotification;
  msg_Timings : gmap Hash Z
}.

(** The metrics a publication records. *)
Inductive metric :=
  | BlockIngressToOuterKafkaLatency (d : destination) (latency : Z)
  | BlockIngressTimingIgnored (d : destination) (reason : string).

Inductive req : Type → Type :=
  | RNow : req Z                                            (* time.Now, in ns *)
  | RSleep (d : Z) : req unit                               (* time.Sleep *)
  | RCtxErr : req (option err)                              (* ctx.Err *)
  | RSelect (c : context) (d : Z) : req bool                (* true: the timer fired first *)
  | RS3Get (key : string) : req (res BlockValidation)       (* GetObject and decode *)
  | RS3Put (key : string) (v : BlockValidation) : req (res unit)
  | RS3List (prefix : string) (token : option string) : req (res S3Page)
  | RS3Block (key : string) : req (res BlockFile)
  | RKafkaWrite (d : destination) (n : OuterNotice) : req (res unit)
  | RKafkaDial (d : destination) : req (res unit)           (* kafka.DialLeader *)
  | RKafkaOffset (d : destination) (last : bool) : req (res Z)   (* conn.ReadFirstOffset, ReadLastOffset *)
  | RKafkaSeek (d : destination) (offset : Z) : req (res unit)   (* reader.SetOffset *)
  | RKafkaLag (d : destination) : req (res Z)               (* reader.ReadLag *)
  | RKafkaRead (d : destination) : req (res outer_msg)      (* reader.ReadMessage *)
  | REtcdTxn (ops : list etcd_op) : req (res unit)
  | RNodes : req (list Node)                                (* NodeMap.GetAll *)
  | RNodeRpc (n : Node) (timeout : Z) : req (res rpc_result)
  | RMetric (m : metric) : req unit
  | RFetch : req (res kafka_msg)                            (* FetchMessage *)
  | RCommit (offset : Z) : req (res unit)                   (* CommitMessages *)
  | RQuit : req bool                                        (* the quit channel is closed *)
  | RGrant (ttl : Z) : req (res Z)                          (* the new lease *)
  | RLockTxn (leaderKey versionKey version : string) (lease : Z) : req (res lock_reply)
  | RWatchKey (key : string) (rev : Z) : req watch_reply
  | RRevoke (lease : Z) : req (res unit)
  | RKeepAlive (lease : Z) : req (res unit)                 (* KeepAliveOnce *)
  | REtcdGet (key : string) : req (res (option string))
  | ROpen (what : string) : req (res unit)                  (* a client or store is opened *)
  | RClose (what : string) : req unit                       (* and closed *)
  | RTick (period : Z) : req bool                           (* true: the ticker fired, false: stopped *)
  | RSchedule : req nat.                                    (* which step of another goroutine runs *)

Inductive event : Type :=
  | Ev (A : Type) (r : req A) (a : A).

Definition env := ∀ A, list event → req A → A.

(** ** Worlds and operations *)
Record World `{Pebble} := mkWorld {
  w_env : env;
  w_chk : Checker;
  w_db : ConsistencyDB;
  w_hist : list event                       (* most recent first *)
}.
Arguments mkWorld {_} _ _ _ _.
Arguments w_env {_} _.
Arguments w_chk {_} _.
Arguments w_db {_} _.
Arguments w_hist {_} _.

Definition M `{Pebble} (A : Type) : Type := World → A * World.

Section monad.
Context `{Pebble}.

Definition ret {A} (a : A) : M A := λ w, (a, w).
Definition bind {A B} (m : M A) (f : A → M B) : M B := λ w, let '(a, w') := m w in f a w'.

(** A request: the answer is a function of the history, and becomes part of it. *)
Definition call {A} (r : req A) : M A := λ w,
  let a := w_env w A (w_hist w) r in
  (a, mkWorld (w_env w) (w_chk w) (w_db w) (Ev A r a :: w_hist w)).

Definition asks {A} (f : World → A) : M A := λ w, (f w, w).
Definition modify_chk (f : Checker → Checker) : M unit := λ w,
  (tt, mkWorld (w_env w) (f (w_chk w)) (w_db w) (w_hist w)).
Definition modify_pub (f : PubState → PubState) : M unit :=
  modify_chk (λ c, mkChecker (config c) (f (pub c)) (rep c) (scan c)).
Definition modify_rep (f : RepState → RepState) : M unit :=
  modify_chk (λ c, mkChecker (config c) (pub c) (f (rep c)) (scan c)).
Definition modify_scan (f : ScanRun → ScanRun) : M unit :=
  modify_chk (λ c, mkChecker (config c) (pub c) (rep c) (f (scan c))).

Definition get_config : M Config := asks (λ w, config (w_chk w)).
Definition get_pub : M PubState := asks (λ w, pub (w_chk w)).
Definition get_rep : M RepState := asks (λ w, rep (w_chk w)).
Definition get_scan : M ScanRun := asks (λ w, scan (w_chk w)).
Definition get_store : M store := asks (λ w, cdb_store (w_db w)).

(** An operation of the database. *)
Definition with_db {A} (f : ConsistencyDB → A * ConsistencyDB) : M A := λ w,
  let '(a, db') := f (w_db w) in (a, mkWorld (w_env w) (w_chk w) db' (w_hist w)).

Definition when (b : bool) (m : M unit) : M unit := if b then m else ret tt.

(** A loop of at most [p] iterations in the monad, cf. [loop_pos]. *)
Fixpoint loopM {S R} (p : positive) (f : S → M (S + R)) (s : S) : M (S + R) :=
  match p with
  | xH => f s
  | xO p => bind (loopM p f s) (λ r, match r with inl s' => loopM p f s' | inr r => ret (inr r) end)
  | xI p => bind (f s) (λ r, match r with
      | inl s' => bind (loopM p f s') (λ r, match r with
          | inl s'' => loopM p f s'' | inr r => ret (inr r) end)
      | inr r => ret (inr r) end)
  end.
End monad.

Notation "'let*' x := m 'in' k" := (bind m (λ x, k))
  (at level 10, x pattern, m at level 100, k at level 200) : checker_scope.
Notation "m ';;;' k" := (bind m (λ _, k))
  (at level 199, right associativity) : checker_scope.

(** ** Reasoning: weakest preconditions *)
Section wp.
Context `{Pebble}.

Definition wp {A} (m : M A) (Q : A → World → Prop) (w : World) : Prop := Q (m w).1 (m w).2.

Lemma wp_ret {A} (a : A) Q w : Q a w → wp (ret a) Q w.
Proof. done. Qed.

Lemma wp_bind {A B} (m : M A) (f : A → M B) Q w :
  wp m (λ a, wp (f a) Q) w → wp (bind m f) Q w.
Proof. unfold wp, bind. by destruct (m w). Qed.

Lemma wp_mono {A} (m : M A) (Q Q' : A → World → Prop) w :
  wp m Q w → (∀ a w', Q a w' → Q' a w') → wp m Q' w.
Proof. unfold wp. auto. Qed.

Lemma wp_and {A} (m : M A) (Q Q' : A → World → Prop) w :
  wp m Q w → wp m Q' w → wp m (λ a w', Q a w' ∧ Q' a w') w.
Proof. intros HQ HQ'. by split. Qed.
(** A request: the answer is the environment's, the world has one event more. *)
Lemma wp_call {A B} (r : req A) (k : A → M B) Q w :
  (∀ a, w_env w A (w_hist w) r = a →
     wp (k a) Q (mkWorld (w_env w) (w_chk w) (w_db w) (Ev A r a :: w_hist w))) →
  wp (bind (call r) k) Q w.
Proof. intros Hk. by apply (Hk _ eq_refl). Qed.
Lemma wp_run {A} (m : M A) Q w a w' : wp m Q w → m w = (a, w') → Q a w'.
Proof. unfold wp. intros Hq Hm. by rewrite Hm in Hq. Qed.

Lemma wp_loopM {S R} (f : S → M (S + R)) (Inv : S → World → Prop) (Post : R → World → Prop) :
  (∀ s w, Inv s w → wp (f s) (λ r w', match r with inl s' => Inv s' w' | inr r => Post r w' end) w) →
  ∀ p s w, Inv s w →
    wp (loopM p f s) (λ r w', match r with inl s' => Inv s' w' | inr r => Post r w' end) w.
Proof.
  intros Hstep. induction p as [p IH|p IH|]; intros s w Hs; simpl; [| |by apply Hstep].
  - apply wp_bind. eapply wp_mono; [by apply Hstep|]. intros [s'|r] w' Hw'; [|done].
    apply wp_bind. eapply wp_mono; [by apply IH|]. intros [s''|r] w'' Hw''; [|done]. by apply IH.
  - apply wp_bind. eapply wp_mono; [by apply IH|]. intros [s'|r] w' Hw'; [|done]. by apply IH.
Qed.

(** As [wp_loopM], when every iteration that goes on lowers [m] by at least one: a loop
    that used up its budget has lowered it by the budget. *)
Lemma wp_loopM_measure {S R} (f : S → M (S + R)) (m : S → World → Z) (Inv : S → World → Prop)
    (Post : R → World → Prop) :
  (∀ s w, Inv s w → wp (f s) (λ r w', match r with
     | inl s' => Inv s' w' ∧ m s' w' ≤ m s w - 1 | inr r => Post r w' end) w) →
  ∀ p s w, Inv s w →
    wp (loopM p f s) (λ r w', match r with
      | inl s' => Inv s' w' ∧ m s' w' ≤ m s w - Z.pos p | inr r => Post r w' end) w.
Proof.
  intros Hstep. induction p as [p IH|p IH|]; intros s w Hs; simpl; [| |by apply Hstep].
  - apply wp_bind. eapply wp_mono; [by apply Hstep|]. intros [s'|r] w' Hw'; [|done].
    destruct Hw' as [Hi Hm]. apply wp_bind. eapply wp_mono; [by apply IH|].
    intros [s''|r] w'' Hw''; [|done]. destruct Hw'' as [Hi' Hm'].
    eapply wp_mono; [by apply IH|]. intros [s3|r] w3 Hw3; [|done]. destruct Hw3. split; [done|lia].
  - apply wp_bind. eapply wp_mono; [by apply IH|]. intros [s'|r] w' Hw'; [|done].
    destruct Hw' as [Hi Hm]. eapply wp_mono; [by apply IH|]. intros [s3|r] w3 Hw3; [|done].
    destruct Hw3. split; [done|lia].
Qed.

(** [keeps f m]: the operation [m] leaves [f] of the world unchanged. *)
Definition keeps {A B} (f : World → B) (m : M A) : Prop := ∀ w, f (m w).2 = f w.

Lemma keeps_ret {A B} (f : World → B) (a : A) : keeps f (ret a).
Proof. done. Qed.
Lemma keeps_asks {A B} (f : World → B) (g : World → A) : keeps f (asks g).
Proof. done. Qed.
Lemma keeps_bind {A B C} (f : World → C) (m : M A) (k : A → M B) :
  keeps f m → (∀ a, keeps f (k a)) → keeps f (bind m k).
Proof.
  intros Hm Hk w. unfold bind. specialize (Hm w). destruct (m w) as [a w']. rewrite Hk. done.
Qed.
Lemma keeps_when {B} (f : World → B) b m : keeps f m → keeps f (when b m).
Proof. by destruct b. Qed.
Lemma keeps_loopM {S R B} (f : World → B) p (body : S → M (S + R)) s :
  (∀ s, keeps f (body s)) → keeps f (loopM p body s).
Proof.
  intros Hb. revert s. induction p as [p IH|p IH|]; intros s; simpl; [| |apply Hb];
    repeat (apply keeps_bind; [auto|intros []; auto using keeps_ret]).
Qed.
Lemma keeps_wp {A B} (f : World → B) (m : M A) Q w :
  keeps f m → wp m Q w → wp m (λ a w', Q a w' ∧ f w' = f w) w.
Proof. intros Hk Hq. split; [done|apply Hk]. Qed.
End wp.

Lemma keeps_chk_call `{Pebble} {A} (r : req A) : keeps w_chk (call r).
Proof. done. Qed.
Lemma keeps_db_call `{Pebble} {A} (r : req A) : keeps w_db (call r).
Proof. done. Qed.
Lemma keeps_db_modify `{Pebble} f : keeps w_db (modify_chk f).
Proof. done. Qed.
#[export] Hint Resolve keeps_chk_call keeps_db_call keeps_db_modify : keeps.

(** Walks through an operation, one [bind], match or loop at a time. *)
Ltac keeps_tac :=
  repeat lazymatch goal with
  | |- keeps _ (bind _ _) => apply keeps_bind; [|intros ?]
  | |- keeps _ (loopM _ _ _) => apply keeps_loopM; intros ?
  | |- keeps _ (match ?x with _ => _ end) => destruct x
  | |- keeps _ _ => solve [auto 2 with keeps]
  end.

#[export] Hint Resolve keeps_ret keeps_asks keeps_bind keeps_when keeps_loopM : keeps.
#[export] Hint Extern 1 (keeps _ (match ?x with _ => _ end)) => destruct x : keeps.
#[export] Hint Extern 1 (keeps _ (if ?x then _ else _)) => destruct x : keeps.

#[global] Arguments loopM : simpl never.

(** ** The clock

    A lower bound of the time that has passed, from the answers in the history. *)
Fixpoint elapsed (h : list event) : Z :=
  match h with
  | [] => 0
  | Ev _ r a :: h =>
      match r in req A return A → Z with
      | RNow => λ t, t
      | RSleep d => λ _, elapsed h + Z.max 0 d
      | RSelect _ d => λ fired : bool, if fired then elapsed h + Z.max 0 d else elapsed h
      | _ => λ _, elapsed h
      end a
  end.

(** The clock does not run backwards, and sleeps and timers last. *)
Definition clock_ok (e : env) : Prop := ∀ h, elapsed h ≤ e Z h RNow.

(** [extends P h h']: [h'] continues [h], and every new event satisfies [P]. *)
Definition extends (P : event → Prop) (h h' : list event) : Prop :=
  ∃ new, h' = new ++ h ∧ Forall P new.

Lemma extends_refl P h : extends P h h.
Proof. by exists []. Qed.
Lemma extends_trans P h1 h2 h3 : extends P h1 h2 → extends P h2 h3 → extends P h1 h3.
Proof.
  intros (n1 & -> & H1) (n2 & -> & H2). exists (n2 ++ n1). rewrite app_assoc.
  split; [done|]. by apply Forall_app.
Qed.
Lemma extends_one (P : event → Prop) ev h : P ev → extends P h (ev :: h).
Proof. intros He. exists [ev]. split; [done|]. by repeat constructor. Qed.
Lemma extends_cons (P : event → Prop) ev h h' : P ev → extends P h h' → extends P h (ev :: h').
Proof. intros He H. eapply extends_trans; [exact H|]. by apply extends_one. Qed.
Lemma extends_mono (P Q : event → Prop) h h' : (∀ ev, P ev → Q ev) → extends P h h' → extends Q h h'.
Proof. intros HPQ (n & -> & Hn). exists n. split; [done|]. by eapply Forall_impl. Qed.
#[export] Hint Resolve extends_refl extends_one extends_cons : chk.

Section emits.
Context `{Pebble}.
(** [emits P m]: every event of the operation satisfies [P]. *)
Definition emits {A} (P : event → Prop) (m : M A) : Prop := ∀ w, extends P (w_hist w) (w_hist (m w).2).
Lemma emits_bind {A B} P (m : M A) (k : A → M B) : emits P m → (∀ a, emits P (k a)) → emits P (bind m k).
Proof.
  intros Hm Hk w. unfold bind. specialize (Hm w). destruct (m w) as [a w']. eapply extends_trans; [exact Hm|apply Hk].
Qed.
Lemma emits_call {A} P (r : req A) : (∀ a, P (Ev A r a)) → emits P (call r).
Proof. intros Hr w. by apply extends_one. Qed.
Lemma emits_keeps {A} P (m : M A) : keeps w_hist m → emits P m.
Proof. intros Hm w. rewrite Hm. apply extends_refl. Qed.
Lemma emits_loopM {S R} P p (body : S → M (S + R)) s : (∀ s, emits P (body s)) → emits P (loopM p body s).
Proof.
  intros Hb w. change (wp (loopM p body s) (λ _ w', extends P (w_hist w) (w_hist w')) w). eapply wp_mono.
  { apply (wp_loopM body (λ _ w', extends P (w_hist w) (w_hist w')) (λ _ w', extends P (w_hist w) (w_hist w')));
      [|apply extends_refl].
    intros s' w' Hw. specialize (Hb s' w'). unfold wp.
    destruct (body s' w') as [[?|?] ?]; (eapply extends_trans; [exact Hw|exact Hb]). }
  by intros [] ?.
Qed.
End emits.

Ltac emits_tac :=
  repeat lazymatch goal with
  | |- emits _ (bind _ _) => apply emits_bind; [|intros ?]
  | |- emits _ (loopM _ _ _) => apply emits_loopM; intros ?
  | |- emits _ (call _) => apply emits_call; intros ?
  | |- emits _ (match ?x with _ => _ end) => destruct x eqn:?
  | |- emits _ _ => first [assumption|apply emits_keeps; by intros ?]
  end.
