(* ===== verification/Topics.v ===== *)
(** * Topics: reading back the last notice of an outer topic (check/check.go)

    [GetLastOuterBlockNotice] and the laws of a Kafka topic it relies on: the log of a
    topic only grows at its end, retention removes messages at its front. *)
From S2P Require Import Prelude Types Config Json Store ScanState BlockIndex Checker.

Section ops.
Context `{Pebble}.

(** The reader is opened on [d] for this call and closed by its callers; without a
    broker it cannot be opened, so the check for one never fails.  The error of the first
    [SetOffset] is ignored. *)
Definition GetLastOuterBlockNotice (d : destination) : M (res (option OuterNotice)) :=
  let* conn := call (RKafkaDial d) in
  match conn with
  | Fail e => ret (Fail e)
  | Ok _ =>
      let* first := call (RKafkaOffset d false) in
      match first with
      | Fail e => ret (Fail e)
      | Ok firstOffset =>
          let* last := call (RKafkaOffset d true) in
          match last with
          | Fail e => ret (Fail e)
          | Ok lastOffset =>
              if firstOffset =? lastOffset then ret (Ok None)
              else
                let* _ := call (RKafkaSeek d 0) in
                let* lag := call (RKafkaLag d) in
                match lag with
                | Fail e => ret (Fail e)
                | Ok lag =>
                    if lag =? 0 then ret (Ok None)
                    else
                      let* sought := call (RKafkaSeek d (i64 (lag - 1))) in
                      match sought with
                      | Fail e => ret (Fail e)
                      | Ok _ =>
                          let* msg := call (RKafkaRead d) in
                          ret (match msg with
                               | Fail e => Fail e
                               | Ok m =>
                                   if bool_decide (om_Key m = "NewBlock") then
                                     match om_Value m with
                                     | Fail e => Fail e
                                     | Ok blockNotice => Ok (Some blockNotice)
                                     end
                                   else Fail (ErrMsg "last message is not NewBlock")
                               end)
                      end
                end
          end
      end
  end.
End ops.

(** A history is a suffix of every later one. *)
Ltac later := repeat first [reflexivity | apply suffix_cons_r].

(** ** The topics *)

(** Where the reader of [d] stands: the offset it was last set to. *)
Fixpoint position (d : destination) (h : list event) : option Z :=
  match h with
  | [] => None
  | Ev _ r _ :: h =>
      match r with
      | RKafkaSeek d' off => if bool_decide (d' = d) then Some off else position d h
      | _ => position d h
      end
  end.

(** [log h d] lists every message that was ever written to [d], [base h d] is the offset of
    the oldest one that is still kept.  A reader without a consumer group can always be
    set to an offset. *)
Class Topics (e : env) := {
  log : list event → destination → list outer_msg;
  base : list event → destination → Z;
  log_grows : ∀ ev h d, log h d `prefix_of` log (ev :: h) d;
  base_grows : ∀ ev h d, base h d ≤ base (ev :: h) d;
  base_bounds : ∀ h d, 0 ≤ base h d ≤ Z.of_nat (length (log h d)) ≤ MaxInt64;
  first_offset : ∀ h d n, e _ h (RKafkaOffset d false) = Ok n → n = base h d;
  last_offset : ∀ h d n, e _ h (RKafkaOffset d true) = Ok n → n = Z.of_nat (length (log h d));
  read_lag : ∀ h d n p, e _ h (RKafkaLag d) = Ok n → position d h = Some p →
    n = Z.of_nat (length (log h d)) - p;
  read_message : ∀ h d m p, e _ h (RKafkaRead d) = Ok m → position d h = Some p → base h d ≤ p →
    log h d !! Z.to_nat p = Some m }.

(** [log] and [base] at a later time. *)
Lemma log_extends `{Topics e} h h' d : h `suffix_of` h' → log h d `prefix_of` log h' d.
Proof.
  intros [new ->]. induction new as [|ev new IH]; [done|]. etrans; [exact IH|apply log_grows].
Qed.
Lemma base_extends `{Topics e} h h' d : h `suffix_of` h' → base h d ≤ base h' d.
Proof.
  intros [new ->]. induction new as [|ev new IH]; [done|]. etrans; [exact IH|apply base_grows].
Qed.

Section facts.
Context `{Pebble}.

(** (C27) The notice that is read back is the last message of the topic at the time its
      length was read, unless retention has removed it meanwhile; and the topic is taken
      for empty only when it was. *)
Theorem last_notice_is_last `(T : !Topics (w_env w)) d r w' :
  GetLastOuterBlockNotice d w = (Ok r, w') →
  ∃ h, w_hist w `suffix_of` h ∧ h `suffix_of` w_hist w' ∧
    match r with
    | None => base h d = Z.of_nat (length (log h d))
    | Some n => base (w_hist w') d < Z.of_nat (length (log h d)) →
                last (log h d) = Some (mkOuterMsg "NewBlock" (Ok n))
    end.
Proof.
  intros Hrun. refine (wp_run _ (λ r w', ∀ o, r = Ok o → _) w _ _ _ Hrun r eq_refl). clear Hrun r w'.
  destruct w as [e c db h0]. simpl in T. unfold GetLastOuterBlockNotice.
  apply wp_call. intros [[]|] _; [|by apply wp_ret]. simpl. set (h1 := _ :: h0).
  apply wp_call. intros [first|] Hf; [|by apply wp_ret]. simpl in *. set (h2 := _ :: h1).
  apply wp_call. intros [lst|] Hl; [|by apply wp_ret]. simpl in *. set (h3 := _ :: h2).
  apply first_offset in Hf. apply last_offset in Hl. pose proof (base_bounds h1 d) as Hb1.
  destruct (Z.eqb_spec first lst) as [Heq|Hne].
  { apply wp_ret. intros o [= <-]. exists h1. split_and!; [later|later|]. subst.
    pose proof (prefix_length _ _ (log_extends h1 h2 d ltac:(later))). lia. }
  apply wp_call. intros u _. simpl. set (h4 := _ :: h3).
  assert (position d h4 = Some 0) as Hp4 by (unfold h4; simpl; by rewrite bool_decide_true).
  apply wp_call. intros [lag|] Hlag; [|by apply wp_ret]. simpl in *. set (h5 := _ :: h4).
  pose proof (read_lag _ _ _ _ Hlag Hp4) as Hlen. rewrite Z.sub_0_r in Hlen.
  pose proof (base_bounds h4 d) as Hb4.
  destruct (Z.eqb_spec lag 0) as [->|Hnz].
  { apply wp_ret. intros o [= <-]. exists h4. split_and!; [later|later|lia]. }
  assert (i64 (lag - 1) = lag - 1) as ->.
  { unfold i64, MaxInt64 in *. rewrite Z.mod_small by lia. lia. }
  apply wp_call. intros [[]|] _; [|by apply wp_ret]. simpl. set (h6 := _ :: h5).
  apply wp_call. intros [m|] Hr; [|by apply wp_ret]. simpl in *. set (h7 := _ :: h6).
  apply wp_ret. intros o Ho. case_bool_decide as Hk; [|done]. destruct (om_Value m) as [n|] eqn:Hv; [|done].
  injection Ho as <-.
  exists h4. split_and!; [later|later|]. intros Hkeep.
  assert (position d h6 = Some (lag - 1)) as Hp6 by (unfold h6; simpl; by rewrite bool_decide_true).
  assert (base h6 d ≤ lag - 1) as Hb.
  { pose proof (base_extends h6 h7 d ltac:(later)). simpl in Hkeep. fold h7 in Hkeep. lia. }
  pose proof (read_message _ _ _ _ Hr Hp6 Hb) as Hm.
  rewrite last_lookup. replace (Init.Nat.pred (length (log h4 d))) with (Z.to_nat (lag - 1)) by lia.
  destruct (log_extends h4 h6 d ltac:(later)) as [more Hmore]. rewrite Hmore in Hm.
  rewrite lookup_app_l in Hm by lia. rewrite Hm. destruct m as [k v]. simpl in *. by subst.
Qed.
End facts.
