(* ===== verification/Validation.v ===== *)
(** * Validation: the fork marks on S3 (check/check.go, the S3 half)

    Retries, object keys, paged listing, and the plan/apply pair that makes the
    objects of one height carry the right [IsFork] mark. *)
From S2P Require Import Prelude Types Config Json Store ScanState BlockIndex Checker.

(** [blockPrefetch]: what was read for a new block while the replicas were polled. *)
Record blockPrefetch := mkPrefetch {
  pf_validation : res BlockValidation;
  pf_keys : res (list string)
}.

Record forkRewrite := mkRewrite {
  rw_key : string;
  rw_hash : string;
  rw_validation : BlockValidation
}.

Definition s3RetryMaxWait : Z := 3 * Second.
Definition minBackoff : Z := 50 * Millisecond.

(** [ctx.Err()]. *)
Definition ctxErr `{Pebble} (c : context) : M (option err) :=
  match c with Background => ret None | WithCancel => call RCtxErr end.

(** ** [retryWithBackoff] *)
Definition next_backoff (backoff : Z) : Z :=
  if backoff <? Second then (if Second <? backoff * 2 then Second else backoff * 2) else backoff.

Fixpoint retry_go `{Pebble} {A} (fuel : nat) (c : context) (what : string) (maxWait : Z)
    (fn : M (res A)) (backoff waited : Z) : M (option (res A)) :=
  match fuel with
  | O => ret None
  | S fuel =>
      let* r := fn in
      match r with
      | Ok a => ret (Some (Ok a))
      | Fail e =>
          if maxWait <=? waited then ret (Some (Fail (ErrWrap what e)))
          else
            let* cerr := ctxErr c in
            match cerr with
            | Some _ => ret (Some (Fail e))
            | None =>
                let* fired := call (RSelect c backoff) in
                if fired then
                  retry_go fuel c what maxWait fn (next_backoff backoff) (waited + backoff)
                else ret (Some (Fail e))
            end
      end
  end.

(** Every round waits at least [minBackoff], so this many rounds are enough
    ([retry_go_returns]). *)
Definition retry_fuel (maxWait : Z) : nat := S (S (Z.to_nat (maxWait / minBackoff))).

Definition retryWithBackoff `{Pebble} {A} (c : context) (what : string) (maxWait : Z)
    (fn : M (res A)) : M (res A) :=
  let* r := retry_go (retry_fuel maxWait) c what maxWait fn minBackoff 0 in
  ret (match r with Some r => r | None => Fail (ErrMsg "retry fuel") end).

Section ops.
Context `{Pebble} `{HashText}.

(** ** Object keys *)
Definition blockValidationPrefix (cfg : Config) (blockNumber : Z) : string :=
  if IsVersionMode cfg then
    pretty (ChainID cfg) +:+ "/" +:+ Version cfg +:+ "/" +:+ pretty blockNumber +:+ "/"
  else pretty (ChainID cfg) +:+ "/" +:+ pretty blockNumber +:+ "/".

Definition blockValidationKey (cfg : Config) (b : BlockContext) : string :=
  if IsVersionMode cfg then
    pretty (ChainID cfg) +:+ "/" +:+ Version cfg +:+ "/" +:+ pretty (BlockNumber b) +:+ "/" +:+
      hash_string (BlockHash b)
  else pretty (ChainID cfg) +:+ "/" +:+ pretty (BlockNumber b) +:+ "/" +:+ hash_string (BlockHash b).

Definition blockValidationHashFromKey (cfg : Config) (key : string) : option string :=
  let keyParts := split_on "/" key in
  if IsVersionMode cfg then
    if bool_decide (length keyParts = 4%nat) then keyParts !! 3%nat else None
  else if bool_decide (length keyParts = 3%nat) then keyParts !! 2%nat else None.

(** ** Reads and writes of one object *)
(** The request answers with the decoded body; the context only cancels it. *)
Definition getRawValidationByKeyCtx (s3Key : string) : M (res BlockValidation) := call (RS3Get s3Key).
Definition getRawValidationByKeyWithReTryCtx (c : context) (s3Key : string) : M (res BlockValidation) :=
  retryWithBackoff c ("get raw validation " +:+ s3Key) s3RetryMaxWait (getRawValidationByKeyCtx s3Key).
Definition getRawValidationByKeyWithReTry (s3Key : string) : M (res BlockValidation) :=
  getRawValidationByKeyWithReTryCtx Background s3Key.

Definition rewriteValidationAtKeyCtx (s3Key : string) (v : BlockValidation) : M (res unit) :=
  call (RS3Put s3Key v).
Definition rewriteValidationAtKey (s3Key : string) (v : BlockValidation) : M (res unit) :=
  rewriteValidationAtKeyCtx s3Key v.

Definition rewriteValidationAtKeyWithRetry (s3Key : string) (blockNumber : Z) (hash : string)
    (v : BlockValidation) : M (res unit) :=
  retryWithBackoff Background ("rewrite block " +:+ hash +:+ " at height " +:+ pretty blockNumber)
    s3RetryMaxWait (rewriteValidationAtKey s3Key v).

Definition rewriteBlockWithRetry (b : BlockContext) (v : BlockValidation) : M (res unit) :=
  let* cfg := get_config in
  rewriteValidationAtKeyWithRetry (blockValidationKey cfg b) (BlockNumber b)
    (hash_string (BlockHash b)) v.

(** [getVersionBlockByHash]: a header from the block file of the outer bucket. *)
Definition getVersionBlockByHash (hash : Hash) : M (res BlockContext) :=
  let* cfg := get_config in
  let* r := call (RS3Block (pretty (ChainID cfg) +:+ "/" +:+ Version cfg +:+ "/" +:+ hash_string hash)) in
  ret (let! f := r in Ok (mkBlockContext (u64 (bf_Height f)) hash (bf_ParentID f) (bf_Timestamp f))).

(** ** Listing: one page per iteration *)
Definition list_page (c : context) (blockNumber : Z) (prefix : string)
    (s : option string * list string) : M ((option string * list string) + res (list string)) :=
  let '(token, keys) := s in
  let* r := retryWithBackoff c ("list objects at height " +:+ pretty blockNumber) s3RetryMaxWait
              (call (RS3List prefix token)) in
  match r with
  | Fail e => ret (inr (Fail e))
  | Ok resp =>
      let keys := keys ++ omap id (pg_Contents resp) in
      match pg_IsTruncated resp with
      | Some true =>
          match pg_NextToken resp with
          | None => ret (inr (Fail (ErrMsg "list objects truncated without continuation token")))
          | Some t => ret (inl (Some t, keys))
          end
      | _ => ret (inr (Ok keys))
      end
  end.

(** The source loops until a page is not truncated; [2 ^ 64] pages stand for no bound. *)
Definition listBlockValidationKeysCtx (c : context) (blockNumber : Z) : M (res (list string)) :=
  let* cfg := get_config in
  let* r := loopM (2 ^ 64) (list_page c blockNumber (blockValidationPrefix cfg blockNumber)) (None, []) in
  ret (match r with inr r => r | inl _ => Fail (ErrMsg "listing does not end") end).

(** ** Planning the marks of one height *)
Definition isCanonicalKey (cfg : Config) (canonicalHash : string) (key : string) : bool :=
  match blockValidationHashFromKey cfg key with
  | Some h => EqualFold h canonicalHash
  | None => false
  end.

Fixpoint plan_keys (c : context) (cfg : Config) (canonicalHash : string)
    (canonicalValidation : option BlockValidation) (blockNumber : Z) (keys : list string)
    (plan : list forkRewrite) (canonicalFound : bool) : M (res (list forkRewrite * bool)) :=
  match keys with
  | [] => ret (Ok (plan, canonicalFound))
  | key :: keys =>
      match blockValidationHashFromKey cfg key with
      | None => plan_keys c cfg canonicalHash canonicalValidation blockNumber keys plan canonicalFound
      | Some existingHashStr =>
          let isCanonical := EqualFold existingHashStr canonicalHash in
          let canonicalFound := canonicalFound || isCanonical in
          let* r := match (if isCanonical then canonicalValidation else None) with
                    | Some v => ret (Ok v)
                    | None => getRawValidationByKeyWithReTryCtx c key
                    end in
          match r with
          | Fail e => ret (Fail (ErrWrap ("get block validation error at height " +:+ pretty blockNumber) e))
          | Ok validation =>
              let shouldFork := negb isCanonical in
              let plan := if Bool.eqb (V_IsFork validation) shouldFork then plan
                          else plan ++ [mkRewrite key existingHashStr (set_V_IsFork shouldFork validation)] in
              plan_keys c cfg canonicalHash canonicalValidation blockNumber keys plan canonicalFound
          end
      end
  end.

(** The keys the plan works on: the prefetched ones if there are any and they have
    the canonical object, else a fresh listing. *)
Definition plan_listing (c : context) (cfg : Config) (canonicalHash : string) (blockNumber : Z)
    (hint : option blockPrefetch) : M (res (list string)) :=
  let keys := match hint with
              | Some p => match pf_keys p with Ok ks => ks | Fail _ => [] end
              | None => [] end in
  if bool_decide (keys = []) then listBlockValidationKeysCtx c blockNumber
  else if existsb (isCanonicalKey cfg canonicalHash) keys then ret (Ok keys)
  else listBlockValidationKeysCtx c blockNumber.

Definition planForkRewritesCtx (c : context) (block : BlockContext) (hint : option blockPrefetch)
    : M (res (list forkRewrite)) :=
  let* cfg := get_config in
  let canonicalHash := hash_string (BlockHash block) in
  let canonicalValidation :=
    match hint with
    | Some p => match pf_keys p, pf_validation p with Ok _, Ok v => Some v | _, _ => None end
    | None => None end in
  let* keys := plan_listing c cfg canonicalHash (BlockNumber block) hint in
  match keys with
  | Fail e => ret (Fail e)
  | Ok keys =>
      let* r := plan_keys c cfg canonicalHash canonicalValidation (BlockNumber block) keys [] false in
      ret (let! (plan, canonicalFound) := r in
           check! canonicalFound else ErrMsg "canonical block not found in S3" in
           Ok plan)
  end.

Definition planForkRewrites (block : BlockContext) (hint : option blockPrefetch) : M (res (list forkRewrite)) :=
  planForkRewritesCtx Background block hint.

Fixpoint applyForkRewrites (block : BlockContext) (plan : list forkRewrite) : M (res unit) :=
  match plan with
  | [] => ret (Ok tt)
  | rw :: plan =>
      let* r := rewriteValidationAtKeyWithRetry (rw_key rw) (BlockNumber block) (rw_hash rw)
                  (rw_validation rw) in
      match r with
      | Fail e => ret (Fail (ErrWrap ("rewrite block " +:+ rw_hash rw) e))
      | Ok _ => applyForkRewrites block plan
      end
  end.

(** [Ok true]: nothing had to be rewritten. *)
Definition rewriteForkBlocksAtHeight (block : BlockContext) (hint : option blockPrefetch) : M (res bool) :=
  let* plan := planForkRewrites block hint in
  match plan with
  | Fail e => ret (Fail e)
  | Ok [] => ret (Ok true)
  | Ok plan => let* r := applyForkRewrites block plan in ret (let! _ := r in Ok false)
  end.

(** The three attempts at one height; the hint serves the first one only. *)
Fixpoint rewrite_attempts (block : BlockContext) (attempts : nat) (hint : option blockPrefetch)
    : M (res unit) :=
  match attempts with
  | O => ret (Ok tt)
  | S attempts =>
      let* r := rewriteForkBlocksAtHeight block hint in
      match r with
      | Fail e => ret (Fail e)
      | Ok true => ret (Ok tt)
      | Ok false =>
          match attempts with
          | O => ret (Fail (ErrMsg "rewrite fork blocks did not converge"))
          | S _ => call (RSleep (100 * Millisecond)) ;;; rewrite_attempts block attempts None
          end
      end
  end.

Fixpoint rewriteForkBlocksAtSameHeight (newBlocks : list BlockContext) (prefetched : list blockPrefetch)
    : M (res unit) :=
  match newBlocks with
  | [] => ret (Ok tt)
  | block :: newBlocks =>
      let* r := rewrite_attempts block 3 (head prefetched) in
      match r with
      | Fail e => ret (Fail e)
      | Ok _ => rewriteForkBlocksAtSameHeight newBlocks (tail prefetched)
      end
  end.

(** Marks dropped blocks; a failure is counted in the metrics and skipped. *)
Fixpoint rewriteDropBlocks (dropBlocks : list BlockContext) : M unit :=
  match dropBlocks with
  | [] => ret tt
  | block :: dropBlocks =>
      let* cfg := get_config in
      let* r := getRawValidationByKeyWithReTry (blockValidationKey cfg block) in
      match r with
      | Fail _ => ret tt
      | Ok v =>
          if V_IsFork v then ret tt
          else let* _ := rewriteBlockWithRetry block (set_V_IsFork true v) in ret tt
      end ;;;
      rewriteDropBlocks dropBlocks
  end.

(** [prefetchNewBlocks]: the reads of one block, then of the next; [cancelled]
    answers of the environment stand for a prefetch that was aborted. *)
Fixpoint prefetchNewBlocks (newBlocks : list BlockContext) : M (list blockPrefetch) :=
  match newBlocks with
  | [] => ret []
  | block :: newBlocks =>
      let* cfg := get_config in
      let* v := getRawValidationByKeyWithReTryCtx WithCancel (blockValidationKey cfg block) in
      let* ks := listBlockValidationKeysCtx WithCancel (BlockNumber block) in
      let* rest := prefetchNewBlocks newBlocks in
      ret (mkPrefetch v ks :: rest)
  end.
End ops.

(** ** Retries end *)
Section retry_facts.
Context `{Pebble}.

Lemma next_backoff_ge b : minBackoff ≤ b → minBackoff ≤ next_backoff b.
Proof. unfold next_backoff, minBackoff, Second, Millisecond. repeat case_match; lia. Qed.

(** Whether [fuel] rounds are enough when every attempt fails and every timer fires. *)
Fixpoint rounds (fuel : nat) (maxWait backoff waited : Z) : bool :=
  match fuel with
  | O => false
  | S fuel => (maxWait <=? waited) || rounds fuel maxWait (next_backoff backoff) (waited + backoff)
  end.

Lemma rounds_enough fuel maxWait : ∀ b t,
  minBackoff ≤ b → fuel ≠ O → maxWait - t ≤ (Z.of_nat fuel - 1) * minBackoff →
  rounds fuel maxWait b t = true.
Proof.
  induction fuel as [|fuel IH]; intros b t Hb Hne Hf; [done|]. cbn [rounds].
  destruct (Z.leb_spec maxWait t) as [|Hlt]; [done|]. simpl.
  assert (minBackoff = 50000000) as Hm by done.
  apply IH; [by apply next_backoff_ge| |lia]. intros ->. lia.
Qed.

Lemma rounds_retry_fuel maxWait : rounds (retry_fuel maxWait) maxWait minBackoff 0 = true.
Proof.
  apply rounds_enough; [done|done|]. unfold retry_fuel.
  assert (minBackoff = 50000000) as -> by done.
  pose proof (Z.div_mod maxWait 50000000). pose proof (Z.mod_pos_bound maxWait 50000000). lia.
Qed.

(** Enough rounds return a result, whatever [fn] does, and more fuel changes nothing. *)
Lemma retry_go_rounds {A} n c what maxWait (fn : M (res A)) : ∀ b t w k,
  rounds n maxWait b t = true →
  ∃ r w', retry_go n c what maxWait fn b t w = (Some r, w') ∧
          retry_go (n + k) c what maxWait fn b t w = (Some r, w').
Proof.
  induction n as [|n IH]; intros b t w k Hr; [done|]. cbn [retry_go rounds Nat.add] in *.
  unfold bind. destruct (fn w) as [[a|e] w1]; [by eexists _, _|].
  destruct (maxWait <=? t); simpl in Hr; [by eexists _, _|].
  destruct (ctxErr c w1) as [[?|] w2]; [by eexists _, _|].
  destruct (call _ w2) as [[] w3]; [|by eexists _, _]. by apply IH.
Qed.

(** Partial correctness: [I] holds between the attempts, a success gives [R]. *)
Lemma wp_retry {A} (I : World → Prop) (R : A → World → Prop) c what maxWait (fn : M (res A)) w :
  (∀ w, I w → wp fn (λ r w', match r with Ok a => R a w' | Fail _ => I w' end) w) →
  (∀ w, I w → I (ctxErr c w).2) →
  (∀ w d, I w → I (call (RSelect c d) w).2) →
  I w → wp (retryWithBackoff c what maxWait fn)
           (λ r w', match r with Ok a => R a w' | Fail _ => I w' end) w.
Proof.
  intros Hfn Hctx Hsel Hw. unfold retryWithBackoff. apply wp_bind.
  cut (wp (retry_go (retry_fuel maxWait) c what maxWait fn minBackoff 0)
         (λ r w', match r with Some (Ok a) => R a w' | _ => I w' end) w).
  { intros Hgo. eapply wp_mono; [exact Hgo|]. intros [[]|] w' Hw'; by apply wp_ret. }
  generalize (retry_fuel maxWait), minBackoff, 0. intros n b t.
  revert b t w Hw. induction n as [|n IH]; intros b t w Hw; cbn [retry_go]; [done|].
  apply wp_bind. eapply wp_mono; [by apply Hfn|]. intros [a|e] w1 Hw1; [by apply wp_ret|].
  destruct (maxWait <=? t); [by apply wp_ret|].
  apply wp_bind. unfold wp at 1. specialize (Hctx w1 Hw1).
  destruct (ctxErr c w1) as [[?|] w2]; simpl in *; [by apply wp_ret|].
  apply wp_bind. unfold wp at 1. assert (I (call (RSelect c b) w2).2) as Hs by exact (Hsel w2 b Hctx).
  destruct (call (RSelect c b) w2) as [[] w3]; simpl in *; [by apply IH|by apply wp_ret].
Qed.

(** A retried S3 request is attempted at most eight times and always comes back
      with a result: eight rounds of the backoff sequence (50, 100, 200, 400,
      800, 1000, 1000 ms) exhaust the three-second budget. *)
Theorem s3_retry_eight_attempts {A} c what (fn : M (res A)) w :
  ∃ r w', retry_go 8 c what s3RetryMaxWait fn minBackoff 0 w = (Some r, w') ∧
          retryWithBackoff c what s3RetryMaxWait fn w = (r, w').
Proof.
  destruct (retry_go_rounds 8 c what s3RetryMaxWait fn minBackoff 0 w 54) as (r & w' & Hr1 & Hr2).
  { vm_compute. reflexivity. }
  exists r, w'. split; [done|]. unfold retryWithBackoff, bind.
  change (retry_fuel s3RetryMaxWait) with (8 + 54)%nat. by rewrite Hr2.
Qed.
End retry_facts.

(** ** A bucket

    What the mark theorems assume of S3 while an operation runs: a put that is
    acknowledged is visible, an unacknowledged one may or may not be, nobody else
    writes these objects, a get returns the object, and the pages of a listing
    concatenate to the keys with the prefix. *)
Definition event_put (ev : event) : option (string * BlockValidation * bool) :=
  match ev with
  | Ev _ r a =>
      match r in req A return A → option (string * BlockValidation * bool) with
      | RS3Put k v => λ a, Some (k, v, is_ok a)
      | _ => λ _, None
      end a
  end.

Definition page_rest (page : S3Page) (rest : option string → list string) : option (list string) :=
  match pg_IsTruncated page, pg_NextToken page with
  | Some true, Some t => Some (omap id (pg_Contents page) ++ rest (Some t))
  | Some true, None => None
  | _, _ => Some (omap id (pg_Contents page))
  end.

Record Bucket (e : env) := mkBucket {
  obj : list event → gmap string BlockValidation;
  rest : gset string → string → option string → list string;
  obj_put_ok ev h k v : event_put ev = Some (k, v, true) → obj (ev :: h) = <[k := v]> (obj h);
  obj_put_fail ev h k v : event_put ev = Some (k, v, false) →
    obj (ev :: h) = obj h ∨ obj (ev :: h) = <[k := v]> (obj h);
  obj_other ev h : event_put ev = None → obj (ev :: h) = obj h;
  obj_get h k v : e _ h (RS3Get k) = Ok v → obj h !! k = Some v;
  obj_list h p t page : e _ h (RS3List p t) = Ok page →
    ∀ l, page_rest page (rest (dom (obj h)) p) = Some l → l = rest (dom (obj h)) p t;
  rest_all D p k : k ∈ rest D p None ↔ k ∈ D ∧ String.prefix p k = true
}.
Arguments obj {_} _.
Arguments rest {_} _.

Section mark_facts.
Context `{Pebble} `{HashText} (e : env) (S3 : Bucket e) (cfg : Config).

(** The world runs in [e] with configuration [cfg], and the bucket holds [O]. *)
Definition bucket_is (O : gmap string BlockValidation) (w : World) : Prop :=
  w_env w = e ∧ config (w_chk w) = cfg ∧ obj S3 (w_hist w) = O.

Lemma call_answer {A} (r : req A) w a w' : call r w = (a, w') → w_env w A (w_hist w) r = a.
Proof. unfold call. by intros [= <- <-]. Qed.

Lemma bucket_quiet {A} (r : req A) O w : (∀ a, event_put (Ev A r a) = None) → bucket_is O w →
  bucket_is O (call r w).2.
Proof. intros Hq (He & Hc & Ho). split_and!; simpl; [done|done|]. by rewrite obj_other. Qed.

Lemma bucket_ctxErr c O w : bucket_is O w → bucket_is O (ctxErr c w).2.
Proof. destruct c; [done|]. by apply bucket_quiet. Qed.

Lemma bucket_select c d O w : bucket_is O w → bucket_is O (call (RSelect c d) w).2.
Proof. by apply bucket_quiet. Qed.
Hint Resolve bucket_ctxErr bucket_select : chk.

Lemma get_spec c key O w : bucket_is O w →
  wp (getRawValidationByKeyWithReTryCtx c key)
     (λ r w', bucket_is O w' ∧ ∀ v, r = Ok v → O !! key = Some v) w.
Proof.
  intros Hw. eapply wp_mono.
  - apply (wp_retry (bucket_is O) (λ v w', bucket_is O w' ∧ O !! key = Some v)); [|auto with chk..].
    clear w Hw. intros w Hw. pose proof (bucket_quiet (RS3Get key) O w ltac:(done) Hw) as Hb.
    unfold wp, getRawValidationByKeyCtx. destruct (call (RS3Get key) w) as [[v|] w'] eqn:Ec; [|exact Hb].
    split; [exact Hb|]. apply call_answer in Ec. destruct Hw as (He & _ & Ho).
    rewrite He in Ec. rewrite <- Ho. by eapply obj_get.
  - intros [v|] w' Hw'; [destruct Hw'|]; naive_solver.
Qed.

Lemma put_spec key n h v O w : bucket_is O w →
  wp (rewriteValidationAtKeyWithRetry key n h v)
     (λ r w', match r with
              | Ok _ => bucket_is (<[key := v]> O) w'
              | Fail _ => bucket_is O w' ∨ bucket_is (<[key := v]> O) w' end) w.
Proof.
  intros Hw. apply (wp_retry (λ w, bucket_is O w ∨ bucket_is (<[key := v]> O) w)
    (λ _ w', bucket_is (<[key := v]> O) w')); [| | |by left].
  2,3: intros; destruct_or?; auto with chk.
  assert (∀ O' w, bucket_is O' w → <[key := v]> O' = <[key := v]> O →
    wp (rewriteValidationAtKeyCtx key v) (λ r w', match r with
      | Ok _ => bucket_is (<[key := v]> O) w'
      | Fail _ => bucket_is O' w' ∨ bucket_is (<[key := v]> O) w' end) w) as Hput.
  { clear w Hw. intros O' w (He & Hc & Ho) Heq. unfold wp, rewriteValidationAtKeyCtx. simpl.
    set (ev := Ev _ _ _). destruct (w_env w _ _ _) as [[]|er] eqn:Ea.
    - split_and!; simpl; [done|done|]. rewrite (obj_put_ok e S3 _ _ key v); [congruence|done].
    - destruct (obj_put_fail e S3 ev (w_hist w) key v) as [Hf|Hf]; [done|left|right];
        (split_and!; simpl; [done|done|]; congruence). }
  intros w1 [H1|H1].
  - by apply Hput.
  - eapply wp_mono; [by apply (Hput _ _ H1), insert_insert_eq|]. intros [] w' Hw'; [done|].
    destruct Hw'; by right.
Qed.

Lemma list_spec c n O w : bucket_is O w →
  wp (listBlockValidationKeysCtx c n)
     (λ r w', bucket_is O w' ∧
        ∀ ks, r = Ok ks → ks = rest S3 (dom O) (blockValidationPrefix cfg n) None) w.
Proof.
  intros Hw. unfold listBlockValidationKeysCtx. set (p := blockValidationPrefix cfg n).
  apply wp_bind. unfold wp at 1. simpl. destruct Hw as (He & Hc & Ho). rewrite Hc. fold p.
  apply wp_bind. eapply wp_mono.
  - apply (wp_loopM _ (λ s w, bucket_is O w ∧ s.2 ++ rest S3 (dom O) p s.1 = rest S3 (dom O) p None)
      (λ r w, bucket_is O w ∧ ∀ ks, r = Ok ks → ks = rest S3 (dom O) p None)); [|done].
    clear w He Hc Ho. intros [t ks] w [Hw Hks]. simpl in Hks. unfold list_page.
    apply wp_bind. eapply wp_mono.
    + apply (wp_retry (bucket_is O) (λ page w', bucket_is O w' ∧
        ∀ l, page_rest page (rest S3 (dom O) p) = Some l → l = rest S3 (dom O) p t)); [|auto with chk..].
      clear w Hw. intros w Hw. pose proof (bucket_quiet (RS3List p t) O w ltac:(done) Hw) as Hb.
      unfold wp. destruct (call (RS3List p t) w) as [[page|] w'] eqn:Ec; [|exact Hb].
      split; [exact Hb|]. apply call_answer in Ec. destruct Hw as (He & _ & Ho).
      rewrite He in Ec. rewrite <- Ho. by apply obj_list.
    + intros [page|er] w' Hw'; [|by apply wp_ret]. destruct Hw' as [Hb Hl].
      unfold page_rest in Hl. destruct (pg_IsTruncated page) as [[]|].
      2,3: apply wp_ret; split; [done|]; intros ? [= <-]; by rewrite (Hl _ eq_refl).
      destruct (pg_NextToken page) as [t'|]; [|by apply wp_ret].
      apply wp_ret. split; [done|]. simpl. rewrite <- app_assoc. by rewrite (Hl _ eq_refl).
  - intros [s|r] w' Hw'; apply wp_ret; [|done]. by destruct Hw'.
Qed.

(** The rewrite a key needs, given the content of the bucket. *)
Definition mark_of (canonicalHash : string) (O : gmap string BlockValidation) (key : string)
    : option forkRewrite :=
  match blockValidationHashFromKey cfg key, O !! key with
  | Some h, Some v =>
      let shouldFork := negb (EqualFold h canonicalHash) in
      if Bool.eqb (V_IsFork v) shouldFork then None
      else Some (mkRewrite key h (set_V_IsFork shouldFork v))
  | _, _ => None
  end.

Lemma mark_of_key ch O key rw : mark_of ch O key = Some rw → rw_key rw = key.
Proof. unfold mark_of. repeat case_match; naive_solver. Qed.

Lemma plan_keys_spec c ch cv n O : ∀ keys plan found w,
  bucket_is O w →
  (∀ v key, cv = Some v → key ∈ keys → isCanonicalKey cfg ch key = true → O !! key = Some v) →
  wp (plan_keys c cfg ch cv n keys plan found)
     (λ r w', bucket_is O w' ∧ ∀ p f, r = Ok (p, f) →
        p = plan ++ omap (mark_of ch O) keys ∧ f = found || existsb (isCanonicalKey cfg ch) keys ∧
        ∀ key, key ∈ keys → is_Some (blockValidationHashFromKey cfg key) → is_Some (O !! key)) w.
Proof.
  induction keys as [|key keys IH]; intros plan found w Hw Hcv; cbn [plan_keys].
  { apply wp_ret. split; [done|]. intros p f [= <- <-]. simpl.
    rewrite app_nil_r, orb_false_r. set_solver. }
  unfold isCanonicalKey in *. destruct (blockValidationHashFromKey cfg key) as [h|] eqn:Eh.
  2: { eapply wp_mono; [apply IH; [done|set_solver]|]. intros r w' [Hb Hr]. split; [done|].
       intros p f Hpf. destruct (Hr p f Hpf) as (-> & -> & Hall). simpl.
       unfold mark_of at 2. rewrite Eh. split_and!; [done|done|].
       intros k Hk. apply elem_of_cons in Hk as [->|Hk]; [rewrite Eh; by intros []|auto]. }
  apply wp_bind.
  apply (wp_mono _ (λ r w', bucket_is O w' ∧ ∀ v, r = Ok v → O !! key = Some v)).
  { destruct (EqualFold h ch) eqn:Ef; [destruct cv as [v|]|]; [|by apply get_spec..].
    apply wp_ret. split; [done|]. intros ? [= <-]. apply Hcv; [done|set_solver|by rewrite Eh]. }
  intros [v|er] w1 [Hb Hv]; [|by apply wp_ret]. specialize (Hv v eq_refl).
  eapply wp_mono; [apply IH; [done|set_solver]|]. intros r w' [Hb' Hr]. split; [done|].
  intros p f Hpf. destruct (Hr p f Hpf) as (-> & -> & Hall). simpl. rewrite Eh.
  unfold mark_of at 2. rewrite Eh, Hv. split_and!.
  - destruct (Bool.eqb _ _); [done|]. by rewrite <- app_assoc.
  - by rewrite orb_assoc.
  - intros k Hk. apply elem_of_cons in Hk as [->|Hk]; [rewrite Hv; eauto|auto].
Qed.

(** What was prefetched for a block agrees with the bucket. *)
Definition hint_ok (b : BlockContext) (O : gmap string BlockValidation) (hint : option blockPrefetch)
    : Prop :=
  ∀ p, hint = Some p →
    (∀ ks, pf_keys p = Ok ks → ks ≠ [] → ∀ k, k ∈ ks ↔
       k ∈ dom O ∧ String.prefix (blockValidationPrefix cfg (BlockNumber b)) k = true) ∧
    (∀ v key, pf_validation p = Ok v → isCanonicalKey cfg (hash_string (BlockHash b)) key = true →
       String.prefix (blockValidationPrefix cfg (BlockNumber b)) key = true → O !! key = Some v).

Lemma plan_listing_spec c b O hint w : bucket_is O w → hint_ok b O hint →
  wp (plan_listing c cfg (hash_string (BlockHash b)) (BlockNumber b) hint)
     (λ r w', bucket_is O w' ∧ ∀ ks, r = Ok ks → ∀ k, k ∈ ks ↔
        k ∈ dom O ∧ String.prefix (blockValidationPrefix cfg (BlockNumber b)) k = true) w.
Proof.
  intros Hw Hh. unfold plan_listing.
  assert (wp (listBlockValidationKeysCtx c (BlockNumber b)) (λ r w', bucket_is O w' ∧
    ∀ ks, r = Ok ks → ∀ k, k ∈ ks ↔ k ∈ dom O ∧
      String.prefix (blockValidationPrefix cfg (BlockNumber b)) k = true) w) as Hlist.
  { eapply wp_mono; [by apply list_spec|]. intros r w' [Hb Hr]. split; [done|].
    intros ks Hks k. rewrite (Hr ks Hks). apply rest_all. }
  case_bool_decide as Hnil; [done|].
  destruct (existsb _ _); [|done]. apply wp_ret. split; [done|]. intros ks [= <-].
  destruct hint as [p|]; [|done]. destruct (Hh p eq_refl) as [Hk _].
  destruct (pf_keys p) as [ks|] eqn:Ek; [|done]. by apply Hk.
Qed.

Lemma plan_spec c b O hint w : bucket_is O w → hint_ok b O hint →
  wp (planForkRewritesCtx c b hint)
     (λ r w', bucket_is O w' ∧ ∀ plan, r = Ok plan → ∃ keys,
        (∀ k, k ∈ keys ↔ k ∈ dom O ∧
           String.prefix (blockValidationPrefix cfg (BlockNumber b)) k = true) ∧
        existsb (isCanonicalKey cfg (hash_string (BlockHash b))) keys = true ∧
        plan = omap (mark_of (hash_string (BlockHash b)) O) keys) w.
Proof.
  intros Hw Hh. unfold planForkRewritesCtx. apply wp_bind. unfold wp at 1. simpl.
  pose proof Hw as (_ & Hc & _). rewrite Hc. apply wp_bind.
  eapply wp_mono; [by apply plan_listing_spec|]. intros [ks|er] w1 [Hb Hks]; [|by apply wp_ret].
  specialize (Hks ks eq_refl). apply wp_bind. eapply wp_mono.
  - apply plan_keys_spec; [done|]. intros v key Hv Hin Hcan. destruct hint as [p|]; [|done].
    destruct (Hh p eq_refl) as [_ Hval]. destruct (pf_keys p); [|done].
    destruct (pf_validation p) as [v'|] eqn:Ev; [|done]. injection Hv as ->.
    apply (Hval v key eq_refl Hcan). by apply Hks.
  - intros r w2 [Hb2 Hr]. apply wp_ret. split; [done|]. intros plan Hp.
    apply res_bind_ok in Hp as ([p f] & -> & Hp). destruct (Hr p f eq_refl) as (-> & -> & _).
    simpl in Hp. destruct (existsb _ ks) eqn:Ex; [|done]. injection Hp as <-. by exists ks.
Qed.

Definition apply_marks (plan : list forkRewrite) (O : gmap string BlockValidation)
    : gmap string BlockValidation :=
  foldl (λ O rw, <[rw_key rw := rw_validation rw]> O) O plan.

Lemma apply_spec b plan : ∀ O w, bucket_is O w →
  wp (applyForkRewrites b plan)
     (λ r w', r = Ok tt → bucket_is (apply_marks plan O) w') w.
Proof.
  induction plan as [|rw plan IH]; intros O w Hw; cbn [applyForkRewrites]; [by apply wp_ret|].
  apply wp_bind. eapply wp_mono; [by apply put_spec|]. intros [u|er] w1 Hw1; [|by apply wp_ret].
  by apply IH.
Qed.

(** Every object of the height carries the right mark, and the canonical one exists. *)
Definition marked (b : BlockContext) (O : gmap string BlockValidation) : Prop :=
  (∃ key, is_Some (O !! key) ∧ isCanonicalKey cfg (hash_string (BlockHash b)) key = true ∧
     String.prefix (blockValidationPrefix cfg (BlockNumber b)) key = true) ∧
  ∀ key h v, String.prefix (blockValidationPrefix cfg (BlockNumber b)) key = true →
    blockValidationHashFromKey cfg key = Some h → O !! key = Some v →
    V_IsFork v = negb (EqualFold h (hash_string (BlockHash b))).

Lemma fold_marks ch O keys O' k :
  apply_marks (omap (mark_of ch O) keys) O' !! k =
  if decide (k ∈ keys) then match mark_of ch O k with
                            | Some rw => Some (rw_validation rw) | None => O' !! k end
  else O' !! k.
Proof.
  revert O'. induction keys as [|key keys IH]; intros O'; [done|]. csimpl.
  destruct (mark_of ch O key) as [rw|] eqn:Em.
  - change (apply_marks (omap (mark_of ch O) keys) (<[rw_key rw := rw_validation rw]> O') !! k =
      if decide (k ∈ key :: keys) then match mark_of ch O k with
        | Some rw => Some (rw_validation rw) | None => O' !! k end else O' !! k).
    rewrite IH. apply mark_of_key in Em as Hk. destruct (decide (k = key)) as [->|Hne].
    + rewrite (decide_True (P := key ∈ key :: keys)) by set_solver. rewrite Em, Hk, lookup_insert_eq.
      by destruct (decide _).
    + rewrite Hk, lookup_insert_ne by done.
      destruct (decide (k ∈ keys)), (decide (k ∈ key :: keys)); set_solver.
  - rewrite IH. destruct (decide (k = key)) as [->|Hne].
    + rewrite Em. by repeat destruct (decide _).
    + destruct (decide (k ∈ keys)), (decide (k ∈ key :: keys)); set_solver.
Qed.

(** Writing the planned rewrites makes the marks right and changes nothing else. *)
Lemma marks_effect b O keys :
  (∀ k, k ∈ keys ↔ k ∈ dom O ∧
     String.prefix (blockValidationPrefix cfg (BlockNumber b)) k = true) →
  existsb (isCanonicalKey cfg (hash_string (BlockHash b))) keys = true →
  let O' := apply_marks (omap (mark_of (hash_string (BlockHash b)) O) keys) O in
  marked b O' ∧ (∀ k, V_ValidationHash <$> O' !! k = V_ValidationHash <$> O !! k) ∧
  (∀ k, String.prefix (blockValidationPrefix cfg (BlockNumber b)) k = false → O' !! k = O !! k).
Proof.
  intros Hks Hex O'. set (ch := hash_string (BlockHash b)) in *.
  assert (∀ k, O' !! k = if decide (k ∈ keys) then match mark_of ch O k with
    | Some rw => Some (rw_validation rw) | None => O !! k end else O !! k) as HO'
    by (intros k; apply fold_marks).
  assert (∀ k, V_ValidationHash <$> O' !! k = V_ValidationHash <$> O !! k) as Hvh.
  { intros k. rewrite HO'. destruct (decide _); [|done]. unfold mark_of.
    repeat case_match; by simplify_eq. }
  split_and!; [split|done|].
  - apply existsb_exists in Hex as (key & Hin & Hcan). apply list_elem_of_In in Hin.
    exists key. pose proof (proj1 (Hks key) Hin) as [[v Hv]%elem_of_dom Hp]. split_and!; try done.
    specialize (Hvh key). rewrite Hv in Hvh. destruct (O' !! key); [eauto|done].
  - intros key h v Hp Hh Hv. rewrite HO' in Hv. unfold mark_of in Hv. rewrite Hh in Hv.
    destruct (O !! key) as [v0|] eqn:E0.
    + rewrite decide_True in Hv by (apply Hks; split; [by apply elem_of_dom_2 in E0|done]).
      destruct (Bool.eqb _ _) eqn:Eb; injection Hv as <-; [by apply Bool.eqb_prop in Eb|done].
    + by destruct (decide _).
  - intros k Hk. rewrite HO', decide_False; [done|]. intros Hin. apply Hks in Hin as [_ ?]. congruence.
Qed.

Lemma marked_no_plan b O keys : marked b O →
  (∀ k, k ∈ keys → String.prefix (blockValidationPrefix cfg (BlockNumber b)) k = true) →
  omap (mark_of (hash_string (BlockHash b)) O) keys = [].
Proof.
  intros [_ Hm] Hks. induction keys as [|key keys IH]; [done|]. csimpl.
  rewrite IH by set_solver. unfold mark_of.
  destruct (blockValidationHashFromKey cfg key) as [h|] eqn:Eh; [|done].
  destruct (O !! key) as [v|] eqn:Ev; [|done].
  rewrite (Hm key h v) by (try done; apply Hks; set_solver). by rewrite Bool.eqb_reflx.
Qed.

Lemma rewrite_at_height_spec b O hint w : bucket_is O w → hint_ok b O hint →
  wp (rewriteForkBlocksAtHeight b hint)
     (λ r w', ∀ d, r = Ok d → ∃ O', bucket_is O' w' ∧ marked b O' ∧ (d = true ↔ marked b O) ∧ (d = true → O' = O) ∧
        (∀ k, V_ValidationHash <$> O' !! k = V_ValidationHash <$> O !! k) ∧
        (∀ k, String.prefix (blockValidationPrefix cfg (BlockNumber b)) k = false →
           O' !! k = O !! k)) w.
Proof.
  intros Hw Hh. unfold rewriteForkBlocksAtHeight. apply wp_bind.
  eapply wp_mono; [by apply plan_spec|]. intros [plan|er] w1 [Hb Hp]; [|by apply wp_ret].
  destruct (Hp plan eq_refl) as (keys & Hks & Hex & ->).
  destruct (marks_effect b O keys Hks Hex) as (Hm & Hvh & Hout).
  destruct (omap (mark_of (hash_string (BlockHash b)) O) keys) as [|rw plan] eqn:Eo.
  - apply wp_ret. intros d [= <-]. exists O. by split_and!.
  - apply wp_bind. eapply wp_mono; [by apply apply_spec|]. intros [[]|er] w2 H2; apply wp_ret; [|done].
    intros d [= <-]. eexists. split_and!; [by apply H2|done| |done|done|done].
    split; [done|]. intros Hmk. exfalso.
    rewrite (marked_no_plan b O keys Hmk) in Eo; [done|]. intros k Hk. by apply Hks in Hk as [_ ?].
Qed.

(** (C18) One round at a height, when it succeeds, leaves every object of the height with
      the right fork mark -- the canonical one unmarked, every other one marked --
      and the canonical object present; validation hashes and all other objects
      are untouched; and it answers "nothing to do" exactly when the marks were
      right already.  It asks that nobody else writes the bucket meanwhile and that
      objects prefetched for the round are those of the bucket. *)
Theorem fork_marks_exact b O hint w d w' :
  bucket_is O w → hint_ok b O hint → rewriteForkBlocksAtHeight b hint w = (Ok d, w') →
  ∃ O', bucket_is O' w' ∧ marked b O' ∧ (d = true ↔ marked b O) ∧ (d = true → O' = O) ∧
    (∀ k, V_ValidationHash <$> O' !! k = V_ValidationHash <$> O !! k) ∧
    (∀ k, String.prefix (blockValidationPrefix cfg (BlockNumber b)) k = false → O' !! k = O !! k).
Proof. intros Hw Hh Hr. by apply (wp_run _ _ _ _ _ (rewrite_at_height_spec b O hint w Hw Hh) Hr). Qed.

(** (C19) The rounds converge: a round that follows a successful round on the same bucket
      finds nothing to do, so the three attempts at a height never end in "did not
      converge" without interference. *)
Theorem fork_marks_converge b O hint w d w1 w2 r w3 :
  bucket_is O w → hint_ok b O hint → rewriteForkBlocksAtHeight b hint w = (Ok d, w1) →
  w_env w2 = w_env w1 → config (w_chk w2) = config (w_chk w1) →
  obj S3 (w_hist w2) = obj S3 (w_hist w1) →
  rewriteForkBlocksAtHeight b None w2 = (r, w3) → r ≠ Ok false.
Proof.
  intros Hw Hh Hr He Hc Ho Hr2 ->.
  destruct (wp_run _ _ _ _ _ (rewrite_at_height_spec b O hint w Hw Hh) Hr d eq_refl) as
    (O1 & (He1 & Hc1 & Ho1) & Hm & _).
  assert (bucket_is O1 w2) as Hw2 by (split_and!; congruence).
  destruct (wp_run _ _ _ _ _ (rewrite_at_height_spec b O1 None w2 Hw2 ltac:(done)) Hr2 false eq_refl) as
    (O2 & _ & _ & Hd & _).
  by apply Hd in Hm.
Qed.
End mark_facts.

(** ** Object keys *)
Section key_facts.
Context `{HashTextLaws}.

Lemma digits_free n s : free_of "/" s = true → free_of "/" (pretty_N_go n s) = true.
Proof.
  revert s. induction (N.lt_wf_0 n) as [n _ IH]. intros s Hs.
  destruct (decide (0 < n)%N) as [Hn|Hn].
  - rewrite pretty_N_go_step by done. apply IH; [apply N.div_lt; lia|]. simpl.
    rewrite Hs, andb_true_r. unfold pretty_N_char. by repeat case_match.
  - replace n with 0%N by lia. by rewrite pretty_N_go_0.
Qed.

Lemma pretty_free (z : Z) : free_of "/" (pretty z) = true.
Proof.
  assert (∀ n : N, free_of "/" (pretty n) = true) as HN.
  { intros n. unfold pretty, pretty_N. case_decide; [done|]. by apply digits_free. }
  destruct z as [|p|p]; [done|apply (HN (Npos p))|].
  change (free_of "/" (String "-" (pretty (Npos p))) = true). simpl. by rewrite HN.
Qed.

Lemma split_slash s t : free_of "/" s = true →
  split_on "/" (s +:+ "/" +:+ t) = s :: split_on "/" t.
Proof. apply split_on_cons. Qed.

Lemma hash_part b : split_on "/" (pretty (BlockNumber b) +:+ "/" +:+ hash_string (BlockHash b)) =
  [pretty (BlockNumber b); hash_string (BlockHash b)].
Proof.
  rewrite split_slash by apply pretty_free. by rewrite split_on_free by apply hash_string_no_slash.
Qed.

Lemma split_on_length sep s t :
  (length (split_on sep (s +:+ String sep t)) > length (split_on sep t))%nat.
Proof.
  induction s as [|c s IH].
  - change (split_on sep ("" +:+ String sep t)) with (split_on sep (String sep t)). simpl.
    rewrite bool_decide_true by done. simpl. lia.
  - change (split_on sep (String c s +:+ String sep t)) with (split_on sep (String c (s +:+ String sep t))).
    simpl. case_bool_decide; simpl; [lia|]. destruct (split_on sep (s +:+ _)); simpl in *; lia.
Qed.

Lemma validation_key cfg b :
  (IsVersionMode cfg = true → free_of "/" (Version cfg) = true) →
  blockValidationHashFromKey cfg (blockValidationKey cfg b) = Some (hash_string (BlockHash b)) ∧
  isCanonicalKey cfg (hash_string (BlockHash b)) (blockValidationKey cfg b) = true ∧
  blockValidationKey cfg b = blockValidationPrefix cfg (BlockNumber b) +:+ hash_string (BlockHash b).
Proof.
  intros Hv.
  assert (blockValidationHashFromKey cfg (blockValidationKey cfg b) = Some (hash_string (BlockHash b)))
    as Hk.
  { unfold blockValidationHashFromKey, blockValidationKey.
    destruct (IsVersionMode cfg); rewrite split_slash by apply pretty_free.
    - by rewrite split_slash, hash_part by auto.
    - by rewrite hash_part. }
  split_and!; [done| |].
  - unfold isCanonicalKey. rewrite Hk. unfold EqualFold. by apply bool_decide_eq_true.
  - unfold blockValidationKey, blockValidationPrefix. destruct (IsVersionMode cfg); by rewrite !string_app_assoc.
Qed.

(** (C33) The object key of a block belongs to the listing prefix of its height, and in
      legacy mode, or with a version without a slash, its last part gives the
      block's hash back, so the block is recognised as the canonical one. *)
Theorem validation_key_roundtrip cfg b :
  (IsVersionMode cfg = true → free_of "/" (Version cfg) = true) →
  blockValidationHashFromKey cfg (blockValidationKey cfg b) = Some (hash_string (BlockHash b)) ∧
  isCanonicalKey cfg (hash_string (BlockHash b)) (blockValidationKey cfg b) = true ∧
  blockValidationKey cfg b = blockValidationPrefix cfg (BlockNumber b) +:+ hash_string (BlockHash b).
Proof. apply validation_key. Qed.

(** With a version that contains a slash no key of a block is recognised any
      more -- the canonical one included. *)
Theorem slash_version_breaks_keys cfg b v1 v2 :
  IsVersionMode cfg = true → Version cfg = v1 +:+ "/" +:+ v2 →
  blockValidationHashFromKey cfg (blockValidationKey cfg b) = None.
Proof.
  intros Hm Hv. unfold blockValidationHashFromKey, blockValidationKey. rewrite Hm, Hv.
  rewrite split_slash by apply pretty_free. rewrite bool_decide_false; [done|].
  set (t := pretty (BlockNumber b) +:+ "/" +:+ hash_string (BlockHash b)).
  assert (length (split_on "/" t) = 2%nat) as Ht by (by unfold t; rewrite hash_part).
  rewrite !string_app_assoc. cbn [length].
  pose proof (split_on_length "/" v1 (v2 +:+ "/" +:+ t)) as Ha.
  pose proof (split_on_length "/" v2 t) as Hb.
  change (String "/" (v2 +:+ "/" +:+ t)) with ("/" +:+ v2 +:+ "/" +:+ t) in Ha.
  change (String "/" t) with ("/" +:+ t) in Hb. lia.
Qed.
End key_facts.

(** ** A simulated environment

    A bucket that stores every put, a broker and a set of nodes with given answers;
    the witnesses of this and later files run the definitions in it. *)
Module Sim.
Record sim := mkSim {
  s_bucket : gmap string BlockValidation;
  s_blocks : gmap string BlockFile;
  s_kafka : list event → destination → OuterNotice → bool;
  s_last : list event → option OuterNotice;
  s_nodes : list Node;
  s_rpc : Node → res rpc_result;
  s_now : list event → Z;
  s_etcd : list event → list etcd_op → bool
}.

Definition objects (O : gmap string BlockValidation) (h : list event) : gmap string BlockValidation :=
  foldr (λ ev O, match event_put ev with Some (k, v, true) => <[k := v]> O | _ => O end) O h.

Definition listed (D : gset string) (p : string) (token : option string) : list string :=
  match token with None => base.filter (λ k, String.prefix p k = true) (elements D) | Some _ => [] end.

Definition ok_if (b : bool) : res unit := if b then Ok tt else Fail (ErrMsg "refused").

Definition sim_env (s : sim) : env := λ A h r,
  match r in req A return A with
  | RNow => s_now s h
  | RSleep _ => tt
  | RCtxErr => None
  | RSelect _ _ => true
  | RS3Get k => match objects (s_bucket s) h !! k with
                | Some v => Ok v | None => Fail (ErrMsg "NoSuchKey") end
  | RS3Put _ _ => Ok tt
  | RS3List p token => Ok (mkPage (Some <$> listed (dom (objects (s_bucket s) h)) p token) (Some false) None)
  | RS3Block k => match s_blocks s !! k with
                  | Some f => Ok f | None => Fail (ErrMsg "NoSuchKey") end
  | RKafkaWrite d n => ok_if (s_kafka s h d n)
  | RKafkaDial _ => Ok tt
  | RKafkaOffset _ last => Ok (if last then match s_last s h with Some _ => 1 | None => 0 end else 0)
  | RKafkaSeek _ _ => Ok tt
  | RKafkaLag _ => Ok 1
  | RKafkaRead _ => match s_last s h with
                    | Some n => Ok (mkOuterMsg "NewBlock" (Ok n)) | None => Fail (ErrMsg "EOF") end
  | REtcdTxn ops => ok_if (s_etcd s h ops)
  | RNodes => s_nodes s
  | RNodeRpc n _ => s_rpc s n
  | RMetric _ => tt
  | RSchedule => 0%nat
  | RFetch => Fail ErrDeadline
  | RCommit _ => Ok tt
  | RQuit => false
  | RGrant _ => Ok 1
  | RLockTxn _ _ _ _ => Ok LockTaken
  | RWatchKey _ _ => WatchEvents
  | RRevoke _ => Ok tt
  | RKeepAlive _ => Ok tt
  | REtcdGet _ => Ok None
  | ROpen _ => Ok tt
  | RClose _ => tt
  | RTick _ => true
  end.

(** The simulated bucket has the properties the mark theorems assume. *)
#[refine] Definition sim_bucket (s : sim) : Bucket (sim_env s) :=
  {| obj := objects (s_bucket s); rest := listed |}.
Proof.
  - intros ev h k v Hev. simpl. by rewrite Hev.
  - intros ev h k v Hev. left. simpl. by rewrite Hev.
  - intros ev h Hev. simpl. by rewrite Hev.
  - intros h k v. simpl. destruct (_ !! k); naive_solver.
  - intros h p t page [= <-] l. simpl. intros [= <-]. generalize (listed (dom (objects (s_bucket s) h)) p t).
    intros ks. induction ks as [|k ks IH]; [done|]. csimpl. by rewrite IH.
  - intros D p k. simpl. rewrite list_elem_of_filter, elem_of_elements. tauto.
Defined.

Definition quiet : sim := mkSim ∅ ∅ (λ _ _ _, true) (λ _, None) [] (λ _, Fail (ErrMsg "down")) (λ _, 0) (λ _ _, true).

(** A configuration of each mode. *)
Definition legacyConfig : Config := {|
  Listen := ":8663"; ReadyRatio := f64_0_8; CheckInterval := 20; CheckTimeout := 2000;
  RpcNodeTimeout := 5000; MsgWaitTimeout := 5000; ChainID := 7; Version := "";
  OuterVersionNewBlockTopic := ""; EtcdWriteTimeout := 5000; EtcdLockTTL := 20;
  VersionCheckInterval := 5; ForkScanInterval := 60; ForkScanLookback := -1
|}.
Definition versionConfig (version : string) : Config := {|
  Listen := ":8663"; ReadyRatio := f64_0_8; CheckInterval := 20; CheckTimeout := 2000;
  RpcNodeTimeout := 5000; MsgWaitTimeout := 5000; ChainID := 7; Version := version;
  OuterVersionNewBlockTopic := "outer"; EtcdWriteTimeout := 5000; EtcdLockTTL := 20;
  VersionCheckInterval := 5; ForkScanInterval := 60; ForkScanLookback := -1
|}.

Definition pub0 : PubState := mkPub None None false None (mkNoticeID zero_hash 0 0) ∅.
Definition rep0 : RepState := mkRep 0 0 0.
Definition scan0 : ScanRun := mkScanRun None None false false (mkSchedule 0 None 0 0 false) None [].
Definition checker0 (cfg : Config) : Checker := mkChecker cfg pub0 rep0 scan0.

#[local] Existing Instances mem_pebble.
Definition world0 (s : sim) (cfg : Config) : World :=
  mkWorld (sim_env s) (checker0 cfg) (mkCDB mem_empty None) [].
End Sim.

Module MarkDemo.
#[local] Existing Instances mem_pebble demo_hash_text.
Definition cfg := Sim.legacyConfig.
Definition b5 : BlockContext := mkBlockContext 5 (hashOf 1) (hashOf 9) 100.
Definition b5' : BlockContext := mkBlockContext 5 (hashOf 2) (hashOf 9) 100.
(** Both marks of height 5 are wrong. *)
Definition bucket5 : gmap string BlockValidation :=
  list_to_map [(blockValidationKey cfg b5, mkValidation 11 true);
               (blockValidationKey cfg b5', mkValidation 22 false)].
Definition sim5 : Sim.sim := Sim.mkSim bucket5 ∅ (λ _ _ _, true) (λ _, None) [] (λ _, Fail (ErrMsg "down"))
  (λ _, 0) (λ _ _, true).
Definition w5 : World := Sim.world0 sim5 cfg.
Definition round1 : res bool * World := rewriteForkBlocksAtHeight b5 None w5.
Definition round2 : res bool * World := rewriteForkBlocksAtHeight b5 None round1.2.

Lemma w5_bucket : bucket_is (Sim.sim_env sim5) (Sim.sim_bucket sim5) cfg bucket5 w5.
Proof. by split_and!. Qed.
Lemma no_hint_ok b O : hint_ok cfg b O None.
Proof. intros p. discriminate. Qed.
Lemma round1_eq : round1 = (Ok false, round1.2).
Proof. apply run_eq. vm_compute. reflexivity. Qed.
End MarkDemo.

Section validation_witnesses.
#[local] Existing Instances mem_pebble demo_hash_text.
Import MarkDemo.

Lemma fork_marks_exact_witness :
  ∃ O', bucket_is (Sim.sim_env sim5) (Sim.sim_bucket sim5) cfg O' round1.2 ∧ marked cfg b5 O' ∧ ¬ marked cfg b5 bucket5.
Proof.
  destruct (fork_marks_exact _ (Sim.sim_bucket sim5) cfg b5 bucket5 None w5 false round1.2
    w5_bucket (no_hint_ok _ _) round1_eq) as (O' & Hb & Hm & Hd & _).
  exists O'. split_and!; [exact Hb|exact Hm|]. intros Hn. apply Hd in Hn. discriminate Hn.
Defined.

Lemma fork_marks_converge_witness : round2.1 ≠ Ok false.
Proof.
  apply (fork_marks_converge _ (Sim.sim_bucket sim5) cfg b5 bucket5 None w5 false round1.2 round1.2
    round2.1 round2.2 w5_bucket (no_hint_ok _ _) round1_eq); try reflexivity.
Defined.

Lemma validation_key_roundtrip_witness :
  blockValidationHashFromKey (Sim.versionConfig "v1") (blockValidationKey (Sim.versionConfig "v1") b5) =
    Some (hash_string (hashOf 1)).
Proof.
  apply (validation_key_roundtrip (Sim.versionConfig "v1") b5). intros _. vm_compute. reflexivity.
Defined.

Lemma slash_version_breaks_keys_witness :
  blockValidationHashFromKey (Sim.versionConfig "release/v1")
    (blockValidationKey (Sim.versionConfig "release/v1") b5) = None.
Proof.
  apply (slash_version_breaks_keys (Sim.versionConfig "release/v1") b5 "release" "v1"); reflexivity.
Defined.
End validation_witnesses.
