(* ===== verification/Publish.v ===== *)
(** * Publish: delivery of outer notices (check/check.go)

    Which topics a notice goes to, the record of acknowledged deliveries that makes
    a retried notification resume, and the publication of dropped and new blocks. *)
From S2P Require Import Prelude Types Config Json Store ScanState BlockIndex Checker Validation.

(** ** The record of deliveries *)
Definition notice_key (b : OuterNotice) : outerNoticeKey := mkKey (ON_Hash b) (ON_IsFork b).

Definition notice_id (n : BlockChangeNotification) (tail : BlockContext) : noticeID :=
  mkNoticeID (BlockHash tail) (Z.of_nat (length (NewBlocks n))) (Z.of_nat (length (DropBlocks n))).

Definition isDelivered (p : PubState) (d : destination) (key : outerNoticeKey) : bool :=
  bool_decide (key ∈ default ∅ (delivered p !! d)).

Definition markDelivered (d : destination) (key : outerNoticeKey) (p : PubState) : PubState :=
  set_delivered (<[d := {[key]} ∪ default ∅ (delivered p !! d)]> (delivered p)) p.

(** The topics of a notice, in the order of the source's [targets] slice. *)
Definition targets (cfg : Config) (p : PubState) : list destination :=
  if IsVersionMode cfg then
    outerVersion :: (if bool_decide (is_Some (etcdLock p)) && isOuterSingletonAlign p
                     then [outerSingleton] else [])
  else [outerSingleton].

(** The notice of a block. *)
Definition block_notice (cfg : Config) (isFork : bool) (b : BlockContext) : OuterNotice :=
  mkOuterNotice (BlockNumber b) (BlockHash b) (ChainID cfg) (Timestamp b) isFork.

(** The latency of a block, or why there is none; [time.Time.Sub] saturates, which
    the range of the clock does not reach. *)
Definition blockEndToEndLatency (now : Z) (hash : Hash) (blockTimings : gmap Hash Z) : Z + string :=
  match blockTimings !! hash with
  | None => inr "missing"
  | Some firstSeenAt => if now - firstSeenAt <? 0 then inr "future" else inl (now - firstSeenAt)
  end.

Section ops.
Context `{Pebble}.

(** [tail] is the source's [n.NewBlocks[len(n.NewBlocks)-1]]; the caller has checked
    that there is one. *)
Definition beginNotice (n : BlockChangeNotification) (tail : BlockContext) : M unit :=
  modify_pub (λ p, if decide (notice_id n tail = currentNotice p) then p
                   else set_delivered ∅ (set_currentNotice (notice_id n tail) p)).

(** The writes of the first loop, one goroutine per undelivered target in the source;
    they go to different topics, so they are run here one after the other. *)
Fixpoint publish_writes (b : OuterNotice) (ts : list destination)
    : M (list (destination * res unit * Z)) :=
  match ts with
  | [] => ret []
  | d :: ts =>
      let* e := call (RKafkaWrite d b) in
      let* at_ := call RNow in
      let* rest := publish_writes b ts in
      ret ((d, e, at_) :: rest)
  end.

(** The second loop. *)
Fixpoint publish_marks (key : outerNoticeKey) (observe : destination → Z → M unit)
    (done : list (destination * res unit * Z)) : M bool :=
  match done with
  | [] => ret true
  | (d, e, at_) :: done =>
      match e with
      | Fail _ => let* _ := publish_marks key observe done in ret false
      | Ok _ => modify_pub (markDelivered d key) ;;; observe d at_ ;;; publish_marks key observe done
      end
  end.

Definition publishOuter (b : OuterNotice) (observe : destination → Z → M unit) : M bool :=
  let* cfg := get_config in
  let* p := get_pub in
  let key := notice_key b in
  let* done := publish_writes b (base.filter (λ d, isDelivered p d key = false) (targets cfg p)) in
  publish_marks key observe done.

Fixpoint WriteDropBlockNotice (dropBlocks : list BlockContext) : M bool :=
  match dropBlocks with
  | [] => ret true
  | block :: dropBlocks =>
      let* cfg := get_config in
      let* ok := publishOuter (block_notice cfg true block) (λ _ _, ret tt) in
      if ok then WriteDropBlockNotice dropBlocks else ret false
  end.

Definition observeBlockEndToEndLatency (block : BlockContext) (blockTimings : gmap Hash Z)
    (d : destination) (at_ : Z) : M unit :=
  match blockEndToEndLatency at_ (BlockHash block) blockTimings with
  | inr reason => call (RMetric (BlockIngressTimingIgnored d reason))
  | inl latency => call (RMetric (BlockIngressToOuterKafkaLatency d latency))
  end.

Fixpoint WriteNewBlockNotice (newBlocks : list BlockContext) (blockTimings : gmap Hash Z) : M bool :=
  match newBlocks with
  | [] => ret true
  | block :: newBlocks =>
      let* cfg := get_config in
      let b := block_notice cfg false block in
      let* ok := publishOuter b (observeBlockEndToEndLatency block blockTimings) in
      if ok then modify_pub (set_latestOuter (Some b)) ;;; WriteNewBlockNotice newBlocks blockTimings
      else ret false
  end.

(** Steps 6 and 7 of [processNotice]: the dropped blocks, then the new ones. *)
Definition publishNotice (dropBlocks newBlocks : list BlockContext) (blockTimings : gmap Hash Z) : M bool :=
  let* ok := WriteDropBlockNotice dropBlocks in
  if ok then WriteNewBlockNotice newBlocks blockTimings else ret false.
End ops.

(** ** Acknowledged deliveries

    [acks d h]: the notices whose write to [d] was acknowledged, oldest first. *)
Definition event_ack (d : destination) (ev : event) : option OuterNotice :=
  match ev with
  | Ev _ r a =>
      match r in req A return A → option OuterNotice with
      | RKafkaWrite d' n => λ a, if bool_decide (d' = d) && is_ok a then Some n else None
      | _ => λ _, None
      end a
  end.
Definition acks (d : destination) (h : list event) : list OuterNotice := omap (event_ack d) (reverse h).

Lemma acks_cons d ev h : acks d (ev :: h) = acks d h ++ option_list (event_ack d ev).
Proof. unfold acks. rewrite reverse_cons, omap_app. simpl. by destruct (event_ack d ev). Qed.

Lemma isDelivered_mark p d key d' key' :
  isDelivered (markDelivered d key p) d' key' =
    bool_decide (d = d' ∧ key = key') || isDelivered p d' key'.
Proof.
  unfold isDelivered, markDelivered. simpl. destruct (decide (d = d')) as [->|Hd].
  - rewrite lookup_insert_eq. simpl.
    destruct (bool_decide (d' = d' ∧ key = key')) eqn:E; simpl.
    + apply bool_decide_eq_true in E as [_ ->]. apply bool_decide_eq_true. set_solver.
    + apply bool_decide_eq_false in E. apply bool_decide_ext. set_solver.
  - rewrite lookup_insert_ne by done. by rewrite (bool_decide_false (d = d' ∧ _)) by tauto.
Qed.

Section facts.
Context `{Pebble}.

(** What a publication leaves alone. *)
Definition same_but_delivered (p p' : PubState) : Prop :=
  latestOuter p' = latestOuter p ∧ etcdLock p' = etcdLock p ∧
  isOuterSingletonAlign p' = isOuterSingletonAlign p ∧ cachedOuterSingle p' = cachedOuterSingle p ∧
  currentNotice p' = currentNotice p.

(** A quiet observer: it neither touches the checker nor writes to Kafka. *)
Definition quiet_observer (observe : destination → Z → M unit) : Prop :=
  ∀ d t w, let w' := (observe d t w).2 in
    w_env w' = w_env w ∧ w_chk w' = w_chk w ∧ w_db w' = w_db w ∧
    ∀ d', acks d' (w_hist w') = acks d' (w_hist w).

Lemma quiet_ret : quiet_observer (λ _ _, ret tt).
Proof. by intros d t w. Qed.
Lemma quiet_latency block timings : quiet_observer (observeBlockEndToEndLatency block timings).
Proof.
  intros d t w. unfold observeBlockEndToEndLatency.
  destruct (blockEndToEndLatency _ _ _); simpl; split_and!; try done;
    intros d'; rewrite acks_cons; apply app_nil_r.
Qed.

(** The writes: every target's log grows by the notice iff the write is acknowledged. *)
Lemma publish_writes_spec b ts w : NoDup ts →
  wp (publish_writes b ts) (λ done w',
    w_env w' = w_env w ∧ w_chk w' = w_chk w ∧ w_db w' = w_db w ∧ (λ x, x.1.1) <$> done = ts ∧
    (∀ d r t, (d, r, t) ∈ done →
       acks d (w_hist w') = acks d (w_hist w) ++ (if is_ok r then [b] else [])) ∧
    (∀ d, d ∉ ts → acks d (w_hist w') = acks d (w_hist w))) w.
Proof.
  revert w. induction ts as [|d ts IH]; intros w Hnd.
  { split_and!; try done. intros d r t Hin. by apply elem_of_nil in Hin. }
  apply NoDup_cons in Hnd as [Hd Hnd]. cbn [publish_writes].
  apply wp_bind. unfold wp at 1. simpl. set (a := w_env w _ _ _). apply wp_bind. unfold wp at 1. simpl.
  set (at_ := w_env w Z _ _). apply wp_bind. eapply wp_mono; [by apply IH|].
  intros done w' (He & Hc & Hb & Hts & Hin & Hout). apply wp_ret. simpl in *.
  assert (∀ d', acks d' (Ev Z RNow at_ :: Ev (res unit) (RKafkaWrite d b) a :: w_hist w) =
    acks d' (w_hist w) ++ (if bool_decide (d = d') && is_ok a then [b] else [])) as Hack.
  { intros d'. rewrite !acks_cons. simpl. rewrite app_nil_r. by destruct (_ && _). }
  split_and!; try done; [by rewrite <- Hts| |].
  - intros d' r t [[= -> -> ->]|Hdn]%elem_of_cons.
    + rewrite (Hout d Hd), Hack. by rewrite bool_decide_true.
    + rewrite (Hin d' r t Hdn), Hack. rewrite bool_decide_false; [by rewrite app_nil_r|].
      intros ->. apply Hd. rewrite <- Hts. apply list_elem_of_fmap. by exists (d', r, t).
  - intros d' Hd'. rewrite Hout by set_solver. rewrite Hack.
    rewrite bool_decide_false by set_solver. by rewrite app_nil_r.
Qed.

Lemma publish_marks_spec key observe done w : quiet_observer observe →
  wp (publish_marks key observe done) (λ ok w',
    w_env w' = w_env w ∧ w_db w' = w_db w ∧ config (w_chk w') = config (w_chk w) ∧
    rep (w_chk w') = rep (w_chk w) ∧ scan (w_chk w') = scan (w_chk w) ∧
    same_but_delivered (pub (w_chk w)) (pub (w_chk w')) ∧
    (∀ d, acks d (w_hist w') = acks d (w_hist w)) ∧
    (∀ d k, isDelivered (pub (w_chk w')) d k = true ↔
       isDelivered (pub (w_chk w)) d k = true ∨ k = key ∧ ∃ t, (d, Ok tt, t) ∈ done) ∧
    (ok = true ↔ ∀ d r t, (d, r, t) ∈ done → is_ok r = true)) w.
Proof.
  intros Hq. revert w. induction done as [|[[d r] t] done IH]; intros w; cbn [publish_marks].
  { apply wp_ret. split_and!; try done.
    - intros d k. split; [by left|]. intros [?|[_ [t Ht]]]; [done|]. by apply elem_of_nil in Ht.
    - split; [|done]. intros _ d r t Hin. by apply elem_of_nil in Hin. }
  destruct r as [[]|e].
  - apply wp_bind. unfold wp at 1. simpl. apply wp_bind.
    set (w1 := mkWorld _ _ _ _). unfold wp at 1. destruct (Hq d t w1) as (He & Hc & Hb & Ha).
    generalize dependent (observe d t w1). intros [u w2] He Hc Hb Ha. cbn [snd fst] in *.
    eapply wp_mono; [apply IH|].
    intros ok w' (He' & Hb' & Hcfg & Hrep & Hscan & Hs & Ha' & Hd & Hok).
    rewrite Hc in Hcfg, Hrep, Hscan, Hs, Hd.
    split; [by rewrite He'|]. split; [by rewrite Hb'|]. split_and!; try done.
    + intros d'. by rewrite Ha', Ha.
    + intros d' k. rewrite Hd. unfold w1. simpl. rewrite isDelivered_mark, orb_true_iff, bool_decide_eq_true.
      split; [intros [[[-> ->]|?]|[-> [t' ?]]]|intros [?|[-> [t' [[= -> ->]|?]%elem_of_cons]]]]; try tauto.
      * right. split; [done|]. exists t. by left.
      * right. split; [done|]. exists t'. by right.
      * right. split; [done|]. by exists t'.
    + rewrite Hok. split; intros Hall d1 r1 t1 Hin; [|eapply Hall; by right].
      apply elem_of_cons in Hin as [[= -> -> ->]|?]; [done|by eapply Hall].
  - apply wp_bind. eapply wp_mono; [apply IH|].
    intros ok w' (He' & Hb' & Hcfg & Hrep & Hscan & Hs & Ha' & Hd & Hok). apply wp_ret.
    split_and!; try done.
    + intros d' k. rewrite Hd. split; [intros [?|[-> [t' ?]]]; [by left|right; split; [done|exists t'; by right]]|].
      intros [?|[-> [t' [[=]|?]%elem_of_cons]]]; [by left|right; split; [done|by exists t']].
    + split; [done|]. intros Hall. specialize (Hall d (Fail e) t). exfalso. by assert (false = true) by (apply Hall; by left).
Qed.

(** Publications leave everything but the deliveries, the latest notice and the
    history alone. *)
Record framed (w w' : World) : Prop := {
  fr_env : w_env w' = w_env w;
  fr_db : w_db w' = w_db w;
  fr_config : config (w_chk w') = config (w_chk w);
  fr_rep : rep (w_chk w') = rep (w_chk w);
  fr_scan : scan (w_chk w') = scan (w_chk w);
  fr_lock : etcdLock (pub (w_chk w')) = etcdLock (pub (w_chk w));
  fr_align : isOuterSingletonAlign (pub (w_chk w')) = isOuterSingletonAlign (pub (w_chk w));
  fr_cached : cachedOuterSingle (pub (w_chk w')) = cachedOuterSingle (pub (w_chk w));
  fr_notice : currentNotice (pub (w_chk w')) = currentNotice (pub (w_chk w))
}.

Definition targets_of (w : World) : list destination := targets (config (w_chk w)) (pub (w_chk w)).

Lemma framed_refl w : framed w w.
Proof. by split. Qed.
Lemma framed_trans w1 w2 w3 : framed w1 w2 → framed w2 w3 → framed w1 w3.
Proof. intros [] []. split; congruence. Qed.
Lemma framed_targets w w' : framed w w' → targets_of w' = targets_of w.
Proof. intros [_ _ Hc _ _ Hl Ha _ _]. unfold targets_of, targets. by rewrite Hc, Hl, Ha. Qed.

Lemma targets_NoDup cfg p : NoDup (targets cfg p).
Proof.
  unfold targets. destruct (IsVersionMode cfg), (bool_decide (is_Some (etcdLock p)) && isOuterSingletonAlign p);
    repeat (apply NoDup_cons; split; [set_solver|]); constructor.
Qed.

(** One notice: the log of each undelivered target grows by it, or the target stays
    undelivered; every other log is left alone. *)
Lemma publishOuter_spec b observe w : quiet_observer observe →
  wp (publishOuter b observe) (λ ok w', framed w w' ∧
    latestOuter (pub (w_chk w')) = latestOuter (pub (w_chk w)) ∧
    (∀ d, (acks d (w_hist w') = acks d (w_hist w) ∧
           ∀ k, isDelivered (pub (w_chk w')) d k = isDelivered (pub (w_chk w)) d k) ∨
          (d ∈ targets_of w ∧ isDelivered (pub (w_chk w)) d (notice_key b) = false ∧
           acks d (w_hist w') = acks d (w_hist w) ++ [b] ∧
           ∀ k, isDelivered (pub (w_chk w')) d k = true ↔
                isDelivered (pub (w_chk w)) d k = true ∨ k = notice_key b)) ∧
    (ok = true ↔ ∀ d, d ∈ targets_of w → isDelivered (pub (w_chk w')) d (notice_key b) = true)) w.
Proof.
  intros Hq. unfold publishOuter. apply wp_bind. unfold wp at 1. simpl. apply wp_bind. unfold wp at 1. simpl.
  set (ts := base.filter _ _). apply wp_bind. eapply wp_mono.
  { apply publish_writes_spec. apply NoDup_filter, targets_NoDup. }
  intros done w1 (He & Hc & Hb & Hts & Hin & Hout). eapply wp_mono; [by apply publish_marks_spec|].
  intros ok w' (He' & Hb' & Hcfg & Hrep & Hscan & (Hl & Hlk & Hal & Hca & Hcn) & Ha' & Hd & Hok).
  rewrite Hc in Hcfg, Hrep, Hscan, Hl, Hlk, Hal, Hca, Hcn, Hd.
  assert (∀ d, d ∈ ts ↔ isDelivered (pub (w_chk w)) d (notice_key b) = false ∧ d ∈ targets_of w) as Hmem
    by (intros d; unfold ts; by rewrite list_elem_of_filter).
  assert (∀ d, d ∈ ts → ∃ r t, (d, r, t) ∈ done) as Hdone.
  { intros d Hd'. rewrite <- Hts in Hd'. apply list_elem_of_fmap in Hd' as ([[d0 r] t] & -> & Hd').
    by exists r, t. }
  assert (∀ d r t, (d, r, t) ∈ done → d ∈ ts) as Hdone'.
  { intros d r t Hdn. rewrite <- Hts. apply list_elem_of_fmap. by exists (d, r, t). }
  assert (∀ d r t r' t', (d, r, t) ∈ done → (d, r', t') ∈ done → is_ok r = is_ok r') as Huniq.
  { intros d r t r' t' H1 H2. pose proof (Hin _ _ _ H1) as E1. rewrite (Hin _ _ _ H2) in E1.
    apply app_inv_head in E1. by destruct (is_ok r), (is_ok r'). }
  split; [split; congruence|]. split; [done|]. split.
  - intros d. destruct (decide (d ∈ ts)) as [Hdt|Hdt].
    + destruct (Hdone d Hdt) as (r & t & Hdn). rewrite Ha', (Hin d r t Hdn).
      apply Hmem in Hdt as [Hnd Hdt]. destruct r as [[]|e]; simpl.
      * right. split_and!; try done. intros k. rewrite Hd.
        split; [intros [?|[-> _]]; auto|]. intros [?| ->]; [by left|right; split; [done|by exists t]].
      * left. rewrite app_nil_r. split; [done|]. intros k.
        apply Bool.eq_iff_eq_true. rewrite Hd. split; [|by left]. intros [?|[-> [t' Hdn']]]; [done|].
        pose proof (Huniq _ _ _ _ _ Hdn Hdn'). done.
    + left. rewrite Ha', Hout by done. split; [done|]. intros k. apply Bool.eq_iff_eq_true. rewrite Hd.
      split; [|by left]. intros [?|[-> [t' Hdn']]]; [done|]. by apply Hdone' in Hdn'.
  - rewrite Hok. split.
    + intros Hall d Hdt. apply Hd. destruct (isDelivered (pub (w_chk w)) d (notice_key b)) eqn:Ed; [by left|].
      right. split; [done|]. destruct (Hdone d) as (r & t & Hdn); [by apply Hmem|].
      exists t. specialize (Hall _ _ _ Hdn). by destruct r as [[]|].
    + intros Hall d r t Hdn. specialize (Hdone' _ _ _ Hdn). apply Hmem in Hdone' as [Hnd Hdt].
      apply Hall, Hd in Hdt as [?|[_ [t' Hdn']]]; [congruence|]. by rewrite (Huniq _ _ _ _ _ Hdn Hdn').
Qed.

(** ** A list of notices, resumed

    [at_pos base bs d n w]: of the notices [bs] exactly the first [n] have been
    acknowledged on [d] since its log was [base]. *)
Definition at_pos (base : destination → list OuterNotice) (bs : list OuterNotice) (d : destination)
    (n : nat) (w : World) : Prop :=
  (n ≤ length bs)%nat ∧ acks d (w_hist w) = base d ++ take n bs ∧
  ∀ i b, bs !! i = Some b →
    isDelivered (pub (w_chk w)) d (notice_key b) = bool_decide (i < n)%nat.

(** Every topic of the checker has acknowledged at least the first [j] notices. *)
Definition all_from (base : destination → list OuterNotice) (bs : list OuterNotice) (j : nat) (w : World)
    : Prop :=
  ∀ d, d ∈ targets_of w → ∃ n, (j ≤ n)%nat ∧ at_pos base bs d n w.
Definition others_untouched (base : destination → list OuterNotice) (w : World) : Prop :=
  ∀ d, d ∉ targets_of w → acks d (w_hist w) = base d.

Lemma publish_step base bs j b observe w : quiet_observer observe → NoDup (notice_key <$> bs) →
  bs !! j = Some b → all_from base bs j w → others_untouched base w →
  wp (publishOuter b observe) (λ ok w', framed w w' ∧
    latestOuter (pub (w_chk w')) = latestOuter (pub (w_chk w)) ∧ others_untouched base w' ∧
    all_from base bs (if ok then S j else j) w') w.
Proof.
  intros Hq Hnd Hb Hall Hout. eapply wp_mono; [by apply publishOuter_spec|].
  intros ok w' (Hf & Hl & Hstep & Hok). split; [done|]. split; [done|].
  unfold others_untouched, all_from. rewrite (framed_targets _ _ Hf). split.
  - intros d Hd. destruct (Hstep d) as [[-> _]|[? _]]; [by apply Hout|done].
  - intros d Hd. destruct (Hall d Hd) as (n & Hn & Hlen & Hlog & Hdel).
    destruct (Hstep d) as [[Hlog' Hdel']|(_ & Hnew & Hlog' & Hdel')].
    + exists n. split; [|by split_and!; [|rewrite Hlog'|intros i b' Hi; rewrite Hdel'; apply Hdel]].
      destruct ok; [|done]. pose proof (proj1 Hok eq_refl d Hd) as H1.
      rewrite Hdel', (Hdel _ _ Hb) in H1. apply bool_decide_eq_true in H1. lia.
    + rewrite (Hdel _ _ Hb) in Hnew. apply bool_decide_eq_false in Hnew. replace n with j in * by lia.
      exists (S j). split; [destruct ok; lia|]. split_and!.
      * by apply lookup_lt_Some in Hb.
      * rewrite Hlog', Hlog, (take_S_r _ _ _ Hb). by rewrite app_assoc.
      * intros i b' Hi. apply Bool.eq_iff_eq_true. rewrite Hdel', (Hdel _ _ Hi), !bool_decide_eq_true.
        split; [intros [?|Hk]; [lia|]|intros Hij].
        -- assert (i = j) as ->; [|lia]. eapply (NoDup_lookup _ _ _ _ Hnd); rewrite list_lookup_fmap.
           ++ by rewrite Hi.
           ++ rewrite Hb. simpl. by rewrite Hk.
        -- destruct (decide (i = j)) as [->|]; [right; congruence|left; lia].
Qed.

Section each.
Context (isFork : bool) (f : list BlockContext → M bool).
Context (observe : BlockContext → destination → Z → M unit) (post : OuterNotice → M unit).
Context (latest : OuterNotice → option OuterNotice → option OuterNotice).
Hypothesis f_nil : f [] = ret true.
Hypothesis f_cons : ∀ x l, f (x :: l) =
  (let* cfg := get_config in
   let* ok := publishOuter (block_notice cfg isFork x) (observe x) in
   if ok then post (block_notice cfg isFork x) ;;; f l else ret false).
Hypothesis observe_quiet : ∀ x, quiet_observer (observe x).
Hypothesis post_spec : ∀ b w, let w' := (post b w).2 in
  framed w w' ∧ w_hist w' = w_hist w ∧ delivered (pub (w_chk w')) = delivered (pub (w_chk w)) ∧
  latestOuter (pub (w_chk w')) = latest b (latestOuter (pub (w_chk w))).

Lemma at_pos_post base bs d n b w : at_pos base bs d n w → at_pos base bs d n (post b w).2.
Proof.
  destruct (post_spec b w) as (_ & Hh & Hd & _). intros (Hn & Ha & Hdel).
  split_and!; [done|by rewrite Hh|]. intros i b' Hi. rewrite <- (Hdel i b' Hi).
  unfold isDelivered. by rewrite Hd.
Qed.

(** The loop over the blocks of one half of the notification. *)
Lemma publish_each base bs l : NoDup (notice_key <$> bs) → ∀ j w,
  take (length l) (drop j bs) = block_notice (config (w_chk w)) isFork <$> l →
  all_from base bs j w → others_untouched base w →
  wp (f l) (λ ok w', framed w w' ∧ others_untouched base w' ∧
    ∃ i, (i ≤ length l)%nat ∧ ok = bool_decide (i = length l) ∧ all_from base bs (j + i) w' ∧
      latestOuter (pub (w_chk w')) =
        foldl (λ o b, latest b o) (latestOuter (pub (w_chk w)))
          (block_notice (config (w_chk w)) isFork <$> take i l)) w.
Proof.
  intros Hnd. induction l as [|x l IH]; intros j w Hbs Hall Hout.
  { rewrite f_nil. apply wp_ret. split; [apply framed_refl|]. split; [done|]. exists O.
    rewrite Nat.add_0_r. by split_and!. }
  rewrite f_cons. apply wp_bind. unfold wp at 1. simpl. apply wp_bind.
  assert (bs !! j = Some (block_notice (config (w_chk w)) isFork x)) as Hb.
  { apply (f_equal (λ l, l !! 0%nat)) in Hbs. rewrite lookup_take_lt, lookup_drop in Hbs by (simpl; lia).
    by rewrite Nat.add_0_r in Hbs. }
  eapply wp_mono; [by eapply publish_step|]. intros ok w1 (Hf1 & Hl1 & Hout1 & Hall1).
  destruct ok.
  2: { apply wp_ret. split; [done|]. split; [done|]. exists O. rewrite Nat.add_0_r. split_and!; try done.
       simpl. lia. }
  apply wp_bind. unfold wp at 1. set (b := block_notice _ _ x) in *.
  destruct (post_spec b w1) as (Hf2 & Hh2 & Hd2 & Hl2).
  eapply wp_mono; [apply (IH (S j))|].
  - rewrite (fr_config _ _ Hf2), (fr_config _ _ Hf1).
    apply (f_equal (drop 1)) in Hbs. rewrite skipn_firstn_comm, drop_drop in Hbs. simpl in Hbs.
    by rewrite Nat.sub_0_r, Nat.add_1_r in Hbs.
  - intros d Hd. rewrite (framed_targets _ _ Hf2) in Hd. destruct (Hall1 d Hd) as (n & Hn & Hp).
    exists n. split; [done|by apply at_pos_post].
  - intros d Hd. rewrite (framed_targets _ _ Hf2) in Hd. rewrite Hh2. by apply Hout1.
  - intros ok w' (Hf' & Hout' & i & Hi & -> & Hall' & Hl'). split; [by eapply framed_trans, framed_trans|].
    split; [done|]. exists (S i). split_and!.
    + simpl. lia.
    + apply bool_decide_ext. simpl. lia.
    + by rewrite Nat.add_succ_r.
    + rewrite Hl', Hl2, Hl1, (fr_config _ _ Hf2), (fr_config _ _ Hf1). done.
Qed.
End each.

(** The notices of a notification, in publication order. *)
Definition notices (cfg : Config) (dropBlocks newBlocks : list BlockContext) : list OuterNotice :=
  (block_notice cfg true <$> dropBlocks) ++ (block_notice cfg false <$> newBlocks).

Lemma publishNotice_spec base dropBlocks newBlocks timings w :
  let bs := notices (config (w_chk w)) dropBlocks newBlocks in
  NoDup (notice_key <$> bs) → all_from base bs 0 w → others_untouched base w →
  wp (publishNotice dropBlocks newBlocks timings) (λ ok w', framed w w' ∧ others_untouched base w' ∧
    ∃ i, (i ≤ length bs)%nat ∧ ok = bool_decide (i = length bs) ∧ all_from base bs i w' ∧
      latestOuter (pub (w_chk w')) =
        match (i - length dropBlocks)%nat with
        | O => latestOuter (pub (w_chk w))
        | S k => block_notice (config (w_chk w)) false <$> newBlocks !! k
        end) w.
Proof.
  intros bs Hnd Hall Hout. unfold publishNotice. apply wp_bind. eapply wp_mono.
  { apply (publish_each true WriteDropBlockNotice (λ _ _ _, ret tt) (λ _, ret tt) (λ _ o, o)
      eq_refl (λ _ _, eq_refl) (λ _, quiet_ret)) with (j := 0%nat) (base := base) (bs := bs); try done.
    unfold bs, notices. rewrite drop_0. by rewrite take_app_length' by (by rewrite length_fmap). }
  intros ok w1 (Hf1 & Hout1 & i & Hi & -> & Hall1 & Hl1). simpl in Hall1.
  assert (length bs = (length dropBlocks + length newBlocks)%nat) as Hlen
    by (unfold bs, notices; by rewrite length_app, !length_fmap).
  assert (latestOuter (pub (w_chk w1)) = latestOuter (pub (w_chk w))) as Hl1'.
  { rewrite Hl1. generalize (block_notice (config (w_chk w)) true <$> take i dropBlocks) as l,
      (latestOuter (pub (w_chk w))) as o. clear. by induction l. }
  case_bool_decide as Hfull.
  2: { apply wp_ret. split_and!; try done. exists i. split_and!; try done; [lia| |].
       - rewrite bool_decide_false; [done|lia].
       - rewrite Hl1'. by replace (i - length dropBlocks)%nat with O by lia. }
  subst i. eapply wp_mono.
  { apply (publish_each false (λ l, WriteNewBlockNotice l timings)
      (λ x, observeBlockEndToEndLatency x timings) (λ b, modify_pub (set_latestOuter (Some b)))
      (λ b _, Some b) eq_refl (λ _ _, eq_refl) (λ x, quiet_latency x timings))
      with (j := length dropBlocks) (base := base) (bs := bs); try done.
    unfold bs, notices. rewrite drop_app_length' by (by rewrite length_fmap).
    rewrite (fr_config _ _ Hf1). rewrite firstn_all2; [done|]. by rewrite length_fmap. }
  intros ok w' (Hf' & Hout' & k & Hk & -> & Hall' & Hl'). split; [by eapply framed_trans|].
  split; [done|]. exists (length dropBlocks + k)%nat. split_and!; [lia| |done|].
  - apply bool_decide_ext. lia.
  - rewrite Nat.add_comm, Nat.add_sub. rewrite Hl', Hl1', (fr_config _ _ Hf1).
    destruct k as [|k]; [done|].
    destruct (lookup_lt_is_Some_2 newBlocks k ltac:(lia)) as [x Hx].
    rewrite (take_S_r _ _ _ Hx), fmap_app, foldl_app. simpl. by rewrite Hx.
Qed.

Lemma all_from_start dropBlocks newBlocks w :
  delivered (pub (w_chk w)) = ∅ →
  all_from (λ d, acks d (w_hist w)) (notices (config (w_chk w)) dropBlocks newBlocks) 0 w.
Proof.
  intros Hd d _. exists O. split; [done|]. split_and!; [lia|by rewrite app_nil_r|].
  intros i b _. unfold isDelivered. rewrite Hd. rewrite lookup_empty. by case_bool_decide; [set_solver|].
Qed.

(** The retries of a notification's publication: [Run] calls [processNotice] again
    until it returns true. *)
Fixpoint publish_attempts (k : nat) (dropBlocks newBlocks : list BlockContext)
    (blockTimings : gmap Hash Z) : M bool :=
  match k with
  | O => ret false
  | S k => let* ok := publishNotice dropBlocks newBlocks blockTimings in
           if ok then ret true else publish_attempts k dropBlocks newBlocks blockTimings
  end.

(** (C4) Exactly once and in order.  A notification whose notices are distinct is
      published, with any number of failing attempts, starting with no recorded
      delivery: on every topic of the checker the acknowledged notices are, in
      order, the first ones of the notification, each of them once; when an attempt
      succeeds they are all of them; and no other topic is written. *)
Theorem publish_exactly_once k dropBlocks newBlocks timings w ok w' :
  let bs := notices (config (w_chk w)) dropBlocks newBlocks in
  NoDup (notice_key <$> bs) → delivered (pub (w_chk w)) = ∅ →
  publish_attempts k dropBlocks newBlocks timings w = (ok, w') →
  ∀ d, if decide (d ∈ targets_of w)
       then ∃ n, acks d (w_hist w') = acks d (w_hist w) ++ take n bs ∧
                 (ok = true → n = length bs)
       else acks d (w_hist w') = acks d (w_hist w).
Proof.
  intros bs Hnd Hd Hrun.
  assert (all_from (λ d, acks d (w_hist w)) bs 0 w) as Hall by by apply all_from_start.
  assert (others_untouched (λ d, acks d (w_hist w)) w) as Hout by done.
  cut (framed w w' ∧ others_untouched (λ d, acks d (w_hist w)) w' ∧
       all_from (λ d, acks d (w_hist w)) bs (if ok then length bs else 0%nat) w').
  { intros (Hf & Ho & Ha) d. unfold others_untouched, all_from in Ho, Ha.
    rewrite (framed_targets _ _ Hf) in Ho, Ha. case_decide as Hdt; [|by apply Ho].
    destruct (Ha d Hdt) as (n & Hn & Hlen & Hlog & _). exists n. split; [done|].
    intros ->. lia. }
  clear Hd. generalize dependent (λ d, acks d (w_hist w)). intros base Hall Hout.
  assert (framed w w) as Hf by apply framed_refl. revert Hf Hall Hout Hrun.
  generalize w at 2 3 4 5 as w0. induction k as [|k IH]; intros w0 Hf Hall Hout; cbn [publish_attempts].
  { by intros [= <- <-]. }
  intros Hrun. unfold bind in Hrun. destruct (publishNotice _ _ _ w0) as [o w1] eqn:Ep.
  assert (notices (config (w_chk w0)) dropBlocks newBlocks = bs) as Hbs
    by (by rewrite (fr_config _ _ Hf)).
  destruct (wp_run _ _ _ _ _ (publishNotice_spec base dropBlocks newBlocks timings w0
    ltac:(by rewrite Hbs) ltac:(by rewrite Hbs) Hout) Ep) as (Hf1 & Ho1 & i & Hi & Hok & Ha1 & _).
  rewrite Hbs in *. assert (framed w w1) as Hfw by by eapply framed_trans.
  destruct o.
  - injection Hrun as <- <-. symmetry in Hok. apply bool_decide_eq_true in Hok as ->. done.
  - apply (IH w1); try done. intros d Hdt. destruct (Ha1 d Hdt) as (n & _ & Hp). exists n. split; [lia|done].
Qed.

(** The latest notice advances with the publication: it is the last new block of a
      completed publication, and of a failed one the last new block that every
      topic acknowledged, or unchanged when that was none. *)
Theorem publish_latest dropBlocks newBlocks timings w ok w' :
  let bs := notices (config (w_chk w)) dropBlocks newBlocks in
  NoDup (notice_key <$> bs) → delivered (pub (w_chk w)) = ∅ →
  publishNotice dropBlocks newBlocks timings w = (ok, w') →
  ∃ i, (i ≤ length newBlocks)%nat ∧ (ok = true → i = length newBlocks) ∧
    (∀ d b, d ∈ targets_of w → b ∈ take i (block_notice (config (w_chk w)) false <$> newBlocks) →
       b ∈ acks d (w_hist w')) ∧
    latestOuter (pub (w_chk w')) =
      match i with
      | O => latestOuter (pub (w_chk w))
      | S k => block_notice (config (w_chk w)) false <$> newBlocks !! k
      end.
Proof.
  intros bs Hnd Hd Hrun.
  destruct (wp_run _ _ _ _ _ (publishNotice_spec (λ d, acks d (w_hist w)) dropBlocks newBlocks timings w
    Hnd (all_from_start _ _ _ Hd) (λ d _, eq_refl)) Hrun) as (Hf & _ & i & Hi & -> & Hall & Hl).
  fold bs in Hi, Hall. assert (length bs = (length dropBlocks + length newBlocks)%nat) as Hlen
    by (unfold bs, notices; by rewrite length_app, !length_fmap).
  exists (i - length dropBlocks)%nat. split_and!; [lia| | |done].
  - intros Hok. apply bool_decide_eq_true in Hok. fold bs in Hok. lia.
  - intros d b Hdt Hb. rewrite <- (framed_targets _ _ Hf) in Hdt.
    destruct (Hall d Hdt) as (n & Hn & _ & Hlog & _). rewrite Hlog. apply elem_of_app. right.
    unfold bs, notices. rewrite take_app, length_fmap. apply elem_of_app. right.
    apply list_elem_of_lookup in Hb as [j Hj]. apply lookup_take_Some in Hj as [Hj Hjl].
    apply list_elem_of_lookup. exists j. rewrite lookup_take_lt; [done|lia].
Qed.

(** ** Progress *)
Definition acking (e : env) : Prop := ∀ d n h, is_ok (e (res unit) h (RKafkaWrite d n)) = true.

Lemma publish_writes_acked b ts w : acking (w_env w) →
  wp (publish_writes b ts) (λ done w', w_env w' = w_env w ∧ Forall (λ x, is_ok x.1.2 = true) done) w.
Proof.
  revert w. induction ts as [|d ts IH]; intros w Hack; cbn [publish_writes].
  { apply wp_ret. by split. }
  apply wp_bind. unfold wp at 1. simpl. set (a := w_env w _ _ _). apply wp_bind. unfold wp at 1. simpl.
  set (t := w_env w Z _ _). apply wp_bind. eapply wp_mono; [by apply IH|].
  intros done w' [He Hf]. apply wp_ret. split; [done|]. constructor; [apply Hack|done].
Qed.

Lemma publishOuter_acked b observe w : quiet_observer observe → acking (w_env w) →
  wp (publishOuter b observe) (λ ok w', ok = true ∧ w_env w' = w_env w) w.
Proof.
  intros Hq Hack. unfold publishOuter. apply wp_bind. unfold wp at 1. simpl. apply wp_bind. unfold wp at 1.
  simpl. apply wp_bind. eapply wp_mono; [by apply publish_writes_acked|].
  intros done w1 [He Hf]. eapply wp_mono; [by apply publish_marks_spec|].
  intros ok w' (He' & _ & _ & _ & _ & _ & _ & _ & Hok). split; [|congruence].
  apply Hok. intros d r t Hin. rewrite Forall_forall in Hf. by apply (Hf (d, r, t)).
Qed.

(** When the broker acknowledges every write, one attempt publishes everything. *)
Theorem publish_completes dropBlocks newBlocks timings w :
  acking (w_env w) → (publishNotice dropBlocks newBlocks timings w).1 = true.
Proof.
  intros Hack. unfold publishNotice.
  assert (∀ l w, acking (w_env w) →
    wp (WriteDropBlockNotice l) (λ ok w', ok = true ∧ w_env w' = w_env w) w) as Hdrop.
  { clear w Hack. induction l as [|x l IH]; intros w Hack; cbn [WriteDropBlockNotice]; [done|].
    apply wp_bind. unfold wp at 1. simpl. apply wp_bind.
    eapply wp_mono; [by apply publishOuter_acked, Hack; apply quiet_ret|]. intros ok w1 [-> He].
    eapply wp_mono; [apply IH; by rewrite He|]. intros ok w2 [-> He2]. by rewrite He2. }
  assert (∀ l w, acking (w_env w) →
    wp (WriteNewBlockNotice l timings) (λ ok w', ok = true) w) as Hnew.
  { clear w Hack. induction l as [|x l IH]; intros w Hack; cbn [WriteNewBlockNotice]; [done|].
    apply wp_bind. unfold wp at 1. simpl. apply wp_bind.
    eapply wp_mono; [apply publishOuter_acked, Hack; apply quiet_latency|]. intros ok w1 [-> He].
    apply wp_bind. unfold wp at 1. simpl. apply IH. simpl. by rewrite He. }
  change (wp (let* ok := WriteDropBlockNotice dropBlocks in
    if ok then WriteNewBlockNotice newBlocks timings else ret false) (λ ok _, ok = true) w).
  apply wp_bind. eapply wp_mono; [by apply Hdrop|]. intros ok w1 [-> He]. apply Hnew. by rewrite He.
Qed.
End facts.

(** ** Witnesses

    A leader of version ["v1"], aligned, publishes a reorg of one dropped and two new
    blocks; the third Kafka write (the first new block, version topic) is refused. *)
Module PublishDemo.
#[local] Existing Instances mem_pebble.
Definition is_write (ev : event) : bool :=
  match ev with Ev _ r _ => match r with RKafkaWrite _ _ => true | _ => false end end.
Definition writes (h : list event) : nat := length (List.filter is_write h).
Definition broker (h : list event) (d : destination) (n : OuterNotice) : bool :=
  negb (Nat.eqb (writes h) 2).
Definition sim (kafka : list event → destination → OuterNotice → bool) : Sim.sim :=
  Sim.mkSim ∅ ∅ kafka (λ _, None) [] (λ _, Fail (ErrMsg "down")) (λ _, 0) (λ _ _, true).
Definition leader : PubState :=
  mkPub None (Some (mkEtcdLock "7/outer_block_notice" "7/version" "v1" 20 1 true)) true None
    (mkNoticeID zero_hash 0 0) ∅.
Definition world (kafka : list event → destination → OuterNotice → bool) : World :=
  mkWorld (Sim.sim_env (sim kafka)) (mkChecker (Sim.versionConfig "v1") leader Sim.rep0 Sim.scan0)
    (mkCDB mem_empty None) [].
Definition blk (n h p : Z) : BlockContext := mkBlockContext n (hashOf h) (hashOf p) 0.
Definition dropped : list BlockContext := [blk 2 2 1].
Definition added : list BlockContext := [blk 2 12 1; blk 3 13 12].
Definition w0 : World := world broker.
Definition keys0 : list outerNoticeKey := notice_key <$> notices (Sim.versionConfig "v1") dropped added.

Lemma keys0_NoDup : NoDup keys0.
Proof. apply (bool_decide_unpack (NoDup keys0)). vm_compute. exact I. Qed.
End PublishDemo.

Section publish_witnesses.
#[local] Existing Instances mem_pebble.
Import PublishDemo.

Lemma publish_exactly_once_witness :
  (publish_attempts 1 dropped added ∅ w0).1 = false ∧
  (publish_attempts 2 dropped added ∅ w0).1 = true ∧
  acks outerVersion (w_hist (publish_attempts 2 dropped added ∅ w0).2) =
    notices (Sim.versionConfig "v1") dropped added.
Proof.
  split; [vm_compute; reflexivity|]. split; [vm_compute; reflexivity|].
  pose proof (publish_exactly_once 2 dropped added ∅ w0 true (publish_attempts 2 dropped added ∅ w0).2
    keys0_NoDup eq_refl (run_eq _ _ ltac:(vm_compute; reflexivity)) outerVersion) as H.
  rewrite decide_True in H by (vm_compute; left). destruct H as (n & Hn & Hall).
  rewrite (Hall eq_refl), firstn_all in Hn. exact Hn.
Defined.

Lemma publish_latest_witness :
  latestOuter (pub (w_chk (publishNotice dropped added ∅ (world (λ _ _ _, true))).2)) =
    Some (block_notice (Sim.versionConfig "v1") false (blk 3 13 12)).
Proof.
  destruct (publish_latest dropped added ∅ (world (λ _ _ _, true)) true
    (publishNotice dropped added ∅ (world (λ _ _ _, true))).2
    keys0_NoDup eq_refl (run_eq _ _ ltac:(vm_compute; reflexivity))) as (i & _ & Hi & _ & Hl).
  rewrite (Hi eq_refl) in Hl. exact Hl.
Defined.

Lemma publish_completes_witness :
  (publishNotice dropped added ∅ (world (λ _ _ _, true))).1 = true.
Proof. apply publish_completes. intros d n h. reflexivity. Defined.
End publish_witnesses.
