(* ===== verification/Nodes.v ===== *)
(** * Nodes: replica nodes (nodes/node.go, nodes/map.go)

    The number parser behind [eth_blockNumber], the classification of a node, and
    the node map that mirrors the node keys of etcd. *)
From Stdlib Require Import Sorted.
From S2P Require Import Prelude Types Config Json Store ScanState BlockIndex Checker Validation.

(** ** [strconv.ParseInt(s, 0, 64)] *)
Definition lower (c : ascii) : Z := Z.lor (Z_of_byte c) 32.
Definition char_is (c : ascii) (z : Z) : bool := Z_of_byte c =? z.

(** The base of an unsigned literal and its digits. *)
Definition literal_base (s : string) : Z * string :=
  match s with
  | String c s' =>
      if char_is c 48 then
        match s' with
        | String c2 (String _ _ as ds) =>
            if lower c2 =? 98 then (2, ds)
            else if lower c2 =? 111 then (8, ds)
            else if lower c2 =? 120 then (16, ds)
            else (8, s')
        | _ => (8, s')
        end
      else (10, s)
  | EmptyString => (10, s)
  end.

(** The value of a digit character, [None] for a character that is none. *)
Definition digit_value (c : ascii) : option Z :=
  let n := Z_of_byte c in
  if (48 <=? n) && (n <=? 57) then Some (n - 48)
  else if (97 <=? lower c) && (lower c <=? 122) then Some (lower c - 97 + 10)
  else None.

(** The digit loop; underscores are skipped and reported. *)
Fixpoint parse_digits (base : Z) (s : string) (n : Z) (underscores : bool) : res (Z * bool) :=
  match s with
  | EmptyString => Ok (n, underscores)
  | String c s =>
      if char_is c 95 then parse_digits base s n true
      else match digit_value c with
           | None => Fail (ErrMsg "invalid syntax")
           | Some d =>
               check! d <? base else ErrMsg "invalid syntax" in
               check! n * base + d <=? MaxUint64 else ErrMsg "value out of range" in
               parse_digits base s (n * base + d) underscores
           end
  end.

(** [underscoreOK] after the sign and the base prefix: [saw] is the class of the
    last character, 0 a digit or the prefix, 1 an underscore, 2 neither. *)
Fixpoint underscores_ok (hex : bool) (s : string) (saw : Z) : bool :=
  match s with
  | EmptyString => negb (saw =? 1)
  | String c s =>
      let n := Z_of_byte c in
      if ((48 <=? n) && (n <=? 57)) || (hex && (97 <=? lower c) && (lower c <=? 102))
      then underscores_ok hex s 0
      else if char_is c 95 then if saw =? 0 then underscores_ok hex s 1 else false
      else if saw =? 1 then false else underscores_ok hex s 2
  end.
Definition underscoreOK (s : string) : bool :=
  let s := match s with
           | String c s' => if char_is c 45 || char_is c 43 then s' else s
           | EmptyString => s end in
  match s with
  | String c (String c2 s') =>
      if char_is c 48 && ((lower c2 =? 98) || (lower c2 =? 111) || (lower c2 =? 120))
      then underscores_ok (lower c2 =? 120) s' 0
      else underscores_ok false s 2
  | _ => underscores_ok false s 2
  end.

Definition parse_uint (s : string) : res Z :=
  match s with
  | EmptyString => Fail (ErrMsg "invalid syntax")
  | _ =>
      let '(base, ds) := literal_base s in
      let! (n, underscores) := parse_digits base ds 0 false in
      check! negb underscores || underscoreOK s else ErrMsg "invalid syntax" in
      Ok n
  end.

Definition parse_int (s : string) : res Z :=
  match s with
  | EmptyString => Fail (ErrMsg "invalid syntax")
  | String c s' =>
      let neg := char_is c 45 in
      let! un := parse_uint (if neg || char_is c 43 then s' else s) in
      if neg then check! un <=? 2 ^ 63 else ErrMsg "value out of range" in Ok (- un)
      else check! un <=? MaxInt64 else ErrMsg "value out of range" in Ok un
  end.

(** ** One node *)
Definition Node_Equal (a b : Node) : bool :=
  (StateType a =? StateType b) && bool_decide (Address a = Address b) && (Port a =? Port b) &&
  (NodeType a =? NodeType b).

Section node.
Context `{Pebble}.

(** The request is an HTTP POST to the node; the answer is its [result] member, or
    the transport, status or decoding error. *)
Definition EthBlockNumber (node : Node) (timeout : Z) : M (res Z) :=
  let* rsp := call (RNodeRpc node timeout) in
  ret (let! result := rsp in
       match result with
       | RpcOther => Fail (ErrMsg "eth_blockNumber returns invalid block number")
       | RpcString blockNumStr =>
           match parse_int blockNumStr with
           | Fail _ => Fail (ErrMsg "eth_blockNumber returns invalid block number")
           | Ok blockNum => Ok (u64 blockNum)
           end
       end).

Definition with_StateType (st : Z) (n : Node) : Node :=
  mkNode st (Address n) (Port n) (NodeType n) (Lease n).

(** The classification [Node.Check] makes of an answer. *)
Definition classify (node : Node) (kafkaLatestBlockNumber : Z) (latest : res Z) : NodeWithHeight :=
  let st := match latest with
            | Fail _ => 3
            | Ok n => if kafkaLatestBlockNumber <=? n then 1 else 2 end in
  mkNodeWithHeight (with_StateType st node) (match latest with Ok n => n | Fail _ => 0 end)
    (if StateType node =? st then NoChange
     else if (st =? 3) && (Lease node =? 0) then DelNode else UpdateNode).

Definition Node_Check (node : Node) (kafkaLatestBlockNumber timeout : Z) : M NodeWithHeight :=
  let* latest := EthBlockNumber node timeout in
  ret (classify node kafkaLatestBlockNumber latest).

Fixpoint check_nodes (ns : list Node) (kafkaLatestBlockNumber timeout : Z) : M (list NodeWithHeight) :=
  match ns with
  | [] => ret []
  | n :: ns =>
      let* s := Node_Check n kafkaLatestBlockNumber timeout in
      let* rest := check_nodes ns kafkaLatestBlockNumber timeout in
      ret (s :: rest)
  end.

(** The source asks all nodes at the same time and collects the answers in the order
    they arrive; [RNodes] lists the nodes in any order, here the order of arrival. *)
Definition CheckAll (kafkaLatestBlockNumber timeout : Z) : M (list NodeWithHeight) :=
  let* ns := call RNodes in check_nodes ns kafkaLatestBlockNumber timeout.
End node.

(** ** The node map

    [rw_watch]: no watch context yet, one that is live ([Some true]), or one that is
    cancelled. *)
Record RWMap := mkRWMap {
  rw_m : gmap string Node;
  rw_watch : option bool;
  rw_chainID : Z;
  rw_version : string
}.
Definition NewRWMap : RWMap := mkRWMap ∅ None 0 "".

(** One key of etcd with its value and lease. *)
Record etcd_kv := mkKv { kv_Key : string; kv_Value : string; kv_Lease : Z }.
Inductive etcd_event :=
  | EventTypePut (kv : etcd_kv) (modRevision : Z)
  | EventTypeDelete (kv : etcd_kv) (modRevision : Z).
Record watch_response := mkWatch {
  wr_Err : option err;
  wr_Revision : Z;
  wr_Events : list etcd_event
}.

Definition zero_node : Node := mkNode 0 "" 0 0 0.

(** [strings.TrimPrefix]. *)
Definition TrimPrefix (s prefix : string) : string :=
  if String.prefix prefix s
  then String.substring (String.length prefix) (String.length s - String.length prefix) s else s.

Section map_ops.
Context `{JsonText}.

Definition node_field (k : string) (v : json) (n : Node) : res Node :=
  if EqualFold k "stateType" then
    let! x := dec_uint64 v (StateType n) in Ok (mkNode x (Address n) (Port n) (NodeType n) (Lease n))
  else if EqualFold k "address" then
    let! x := dec_string v (Address n) in Ok (mkNode (StateType n) x (Port n) (NodeType n) (Lease n))
  else if EqualFold k "port" then
    let! x := dec_int64 v (Port n) in Ok (mkNode (StateType n) (Address n) x (NodeType n) (Lease n))
  else if EqualFold k "nodeType" then
    let! x := dec_uint64 v (NodeType n) in Ok (mkNode (StateType n) (Address n) (Port n) x (Lease n))
  else Ok n.

(** The node a put event or a listed key stands for; [None] when it is skipped. *)
Definition node_of_kv (kv : etcd_kv) : option Node :=
  if bool_decide (kv_Value kv = "") then None
  else match json_parse (kv_Value kv) with
       | None => None
       | Some j =>
           match dec_struct node_field j zero_node with
           | Fail _ => None
           | Ok n => Some (mkNode (StateType n) (Address n) (Port n) (NodeType n) (kv_Lease kv))
           end
       end.

Definition getNodesPrefix (m : RWMap) : string :=
  if bool_decide (rw_version m = "") then pretty (rw_chainID m) +:+ "/nodes/"
  else pretty (rw_chainID m) +:+ "/" +:+ rw_version m +:+ "/nodes/".

Definition GetByIP (m : RWMap) (ip : string) : Node := default zero_node (rw_m m !! ip).

Definition set_m (x : gmap string Node) (m : RWMap) : RWMap :=
  mkRWMap x (rw_watch m) (rw_chainID m) (rw_version m).

Definition SetByIP (ip : string) (node : Node) (m : RWMap) : RWMap :=
  match rw_m m !! ip with
  | Some oldNode => if Node_Equal oldNode node then m else set_m (<[ip := node]> (rw_m m)) m
  | None => set_m (<[ip := node]> (rw_m m)) m
  end.
Definition DeleteByIP (ip : string) (m : RWMap) : RWMap := set_m (delete ip (rw_m m)) m.
Definition Clear (m : RWMap) : RWMap := set_m ∅ m.

(** The node set of a [GetAll]; the order of a Go map is unspecified. *)
Definition GetAll (m : RWMap) : list Node := (map_to_list (rw_m m)).*2.

Definition load_kv (m : RWMap) (kv : etcd_kv) : RWMap :=
  match node_of_kv kv with
  | None => m
  | Some node => SetByIP (TrimPrefix (kv_Key kv) (getNodesPrefix m)) node m
  end.

(** [resp] is etcd's answer: the keys with the prefix, and the revision. *)
Definition reloadFromEtcd (resp : res (list etcd_kv * Z)) (m : RWMap) : res Z * RWMap :=
  match resp with
  | Fail e => (Fail (ErrWrap "failed to get data from etcd" e), m)
  | Ok (kvs, revision) => (Ok revision, foldl load_kv (Clear m) kvs)
  end.

Definition apply_event (prefix : string) (s : Z * RWMap) (ev : etcd_event) : Z * RWMap :=
  let '(lastRevision, m) := s in
  match ev with
  | EventTypePut kv rev =>
      (Z.max lastRevision rev,
       match node_of_kv kv with
       | None => m
       | Some node => SetByIP (TrimPrefix (kv_Key kv) prefix) node m
       end)
  | EventTypeDelete kv rev =>
      (Z.max lastRevision rev, DeleteByIP (TrimPrefix (kv_Key kv) prefix) m)
  end.

(** [rch] is what the channel delivers before it is closed. *)
Fixpoint processWatchEvents (rch : list watch_response) (prefix : string) (lastRevision : Z) (m : RWMap)
    : Z * err * RWMap :=
  match rch with
  | [] => (lastRevision, ErrMsg "watch channel closed", m)
  | wresp :: rch =>
      match wr_Err wresp with
      | Some e => (lastRevision, ErrWrap "watch response error" e, m)
      | None =>
          let '(rev, m') := foldl (apply_event prefix) (Z.max lastRevision (wr_Revision wresp), m)
                              (wr_Events wresp) in
          processWatchEvents rch prefix rev m'
      end
  end.

(** The first load; the watch goroutine is started from the returned revision. *)
Definition InitFromEtcd (chainID : Z) (version : string) (resp : res (list etcd_kv * Z)) (m : RWMap)
    : res Z * RWMap :=
  match reloadFromEtcd resp (mkRWMap (rw_m m) (Some true) chainID version) with
  | (Fail e, m) => (Fail (ErrWrap "failed to load initial data from etcd" e), m)
  | (Ok revision, m) => (Ok revision, m)
  end.

(** Without a watch there is nothing to cancel. *)
Definition StopWatch (m : RWMap) : RWMap :=
  match rw_watch m with
  | None => m
  | Some _ => mkRWMap (rw_m m) (Some false) (rw_chainID m) (rw_version m)
  end.
(** [watchCtx.Done]. *)
Definition cancelled (m : RWMap) : bool := negb (default true (rw_watch m)).

(** When [StopWatch] runs during a turn of [watchEtcd]: not at all, while the channel is
    read, or later, in the sleep before the reload. *)
Inductive stop_time := NotStopped | StoppedWatching | StoppedAsleep.
#[export] Instance stop_time_eq_dec : EqDecision stop_time.
Proof. solve_decision. Defined.

(** One turn of [watchEtcd]: watch from [revision + 1] until the channel ends, which is
    always an error, then reload; a failed reload keeps the old revision.  The context is
    looked at before the watch and after its error, but not after the sleep: the reload
    then still happens, and the next turn ends.  [inr]: the loop has ended. *)
Definition watch_turn (rch : list watch_response) (stopped : stop_time) (reload : res (list etcd_kv * Z))
    (s : Z * RWMap) : (Z * RWMap) + RWMap :=
  let '(revision, m) := s in
  if cancelled m then inr m
  else
    let '(_, _, m1) := processWatchEvents rch (getNodesPrefix m) 0 m in
    let m1 := match stopped with StoppedWatching => StopWatch m1 | _ => m1 end in
    if cancelled m1 then inr m1
    else
      let m1 := match stopped with StoppedAsleep => StopWatch m1 | _ => m1 end in
      match reloadFromEtcd reload m1 with
      | (Fail _, m2) => inl (revision, m2)
      | (Ok reloadRevision, m2) => inl (reloadRevision, m2)
      end.
End map_ops.

(** ** Block numbers in answers *)

(** The hexadecimal text a node answers with. *)
Fixpoint hex_text_go (fuel : nat) (z : Z) (acc : string) : string :=
  match fuel with
  | O => acc
  | S fuel => if z =? 0 then acc else hex_text_go fuel (z / 16) (String (hex_digit (z mod 16)) acc)
  end.
Definition hex_text (z : Z) : string :=
  "0x" +:+ (if z =? 0 then "0" else hex_text_go 16 z "").

Lemma hex_digit_value n : 0 ≤ n < 16 →
  digit_value (hex_digit n) = Some n ∧ char_is (hex_digit n) 95 = false.
Proof.
  intros Hn.
  assert (n = 0 ∨ n = 1 ∨ n = 2 ∨ n = 3 ∨ n = 4 ∨ n = 5 ∨ n = 6 ∨ n = 7 ∨ n = 8 ∨ n = 9 ∨
          n = 10 ∨ n = 11 ∨ n = 12 ∨ n = 13 ∨ n = 14 ∨ n = 15) as H by lia.
  repeat destruct H as [->|H]; try subst n; by vm_compute.
Qed.

Lemma parse_digit n s acc u : 0 ≤ n < 16 → acc * 16 + n ≤ MaxUint64 →
  parse_digits 16 (String (hex_digit n) s) acc u = parse_digits 16 s (acc * 16 + n) u.
Proof.
  intros Hn Hm. destruct (hex_digit_value n Hn) as [Hd H95]. cbn [parse_digits]. rewrite H95, Hd.
  by rewrite (proj2 (Z.ltb_lt n 16)), (proj2 (Z.leb_le _ _)) by lia.
Qed.

Lemma hex_text_go_parse fuel : ∀ z acc, 0 ≤ z < 16 ^ Z.of_nat fuel → z ≤ MaxUint64 →
  parse_digits 16 (hex_text_go fuel z acc) 0 false = parse_digits 16 acc z false.
Proof.
  induction fuel as [|fuel IH]; intros z acc Hz Hm; cbn [hex_text_go].
  { by replace z with 0 by (simpl in Hz; lia). }
  destruct (Z.eqb_spec z 0) as [->|Hne]; [done|].
  pose proof (Z.div_mod z 16 ltac:(lia)) as Hdm. pose proof (Z.mod_pos_bound z 16 ltac:(lia)) as Hmb.
  assert (0 ≤ z / 16) by (apply Z.div_pos; lia).
  rewrite IH; [|split; [done|]|lia].
  - rewrite parse_digit by lia. f_equal. lia.
  - apply Z.div_lt_upper_bound; [lia|]. rewrite Nat2Z.inj_succ, Z.pow_succ_r in Hz by lia. lia.
Qed.

Lemma hex_text_go_cons fuel : ∀ z acc, z ≠ 0 → fuel ≠ O →
  ∃ c s, hex_text_go fuel z acc = String c s.
Proof.
  assert (∀ fuel z c s, ∃ c' s', hex_text_go fuel z (String c s) = String c' s') as Haux.
  { clear fuel. induction fuel as [|fuel IH]; intros z c s; cbn [hex_text_go]; [eauto|].
    destruct (z =? 0); [eauto|apply IH]. }
  intros z acc Hz Hf. destruct fuel as [|fuel]; [done|]. cbn [hex_text_go].
  destruct (Z.eqb_spec z 0); [done|]. apply Haux.
Qed.

Lemma parse_hex_text z : 0 ≤ z ≤ MaxInt64 → parse_int (hex_text z) = Ok z.
Proof.
  intros Hz. unfold hex_text. destruct (Z.eqb_spec z 0) as [->|Hne]; [by vm_compute|].
  destruct (hex_text_go_cons 16 z "" Hne ltac:(done)) as (c & s & Hs). rewrite Hs.
  change ("0x" +:+ String c s) with (String "0" (String "x" (String c s))).
  assert (parse_digits 16 (String c s) 0 false = Ok (z, false)) as Hp.
  { rewrite <- Hs, hex_text_go_parse; [done| |unfold MaxUint64, MaxInt64 in *; lia].
    unfold MaxInt64 in Hz. change (16 ^ Z.of_nat 16) with (2 ^ 64). lia. }
  cbn [parse_int]. change (char_is "0" 45) with false. change (char_is "0" 43) with false.
  cbn [orb]. unfold parse_uint. change (literal_base (String "0" (String "x" (String c s)))) with (16, String c s).
  cbv iota beta. rewrite Hp. simpl. by rewrite (proj2 (Z.leb_le _ _)) by lia.
Qed.

Section node_facts.
Context `{Pebble}.

(** (C3) A replica that answers with the hexadecimal text of its height is ready exactly
      when that height has reached the notification's; an unreachable one is
      offline, and it is taken out of etcd only when it holds no lease and was not
      offline before.  The node's address, port, type and lease are kept. *)
Theorem node_check_classifies node kafka timeout w :
  let s := (Node_Check node kafka timeout w).1 in
  (∀ h, w_env w _ (w_hist w) (RNodeRpc node timeout) = Ok (RpcString (hex_text h)) → 0 ≤ h ≤ MaxInt64 →
     nh_LatestBlockNumber s = h ∧ StateType (nh_Node s) = (if kafka <=? h then 1 else 2) ∧
     nh_ChangeType s ≠ DelNode) ∧
  (∀ e, w_env w _ (w_hist w) (RNodeRpc node timeout) = Fail e →
     StateType (nh_Node s) = 3 ∧ (nh_ChangeType s = DelNode ↔ Lease node = 0 ∧ StateType node ≠ 3)) ∧
  (nh_ChangeType s = NoChange ↔ StateType (nh_Node s) = StateType node) ∧
  (Address (nh_Node s), Port (nh_Node s), NodeType (nh_Node s), Lease (nh_Node s)) =
    (Address node, Port node, NodeType node, Lease node).
Proof.
  unfold Node_Check, EthBlockNumber, bind, call. simpl.
  destruct (w_env w _ (w_hist w) (RNodeRpc node timeout)) as [[t|]|e] eqn:Er; simpl.
  - split; [|split; [done|split; [|done]]].
    + intros h [= ->] Hh. rewrite parse_hex_text by done. simpl.
      rewrite (u64_id h) by (unfold is_u64, MaxUint64, MaxInt64 in *; lia).
      split_and!; [done|done|]. by destruct (kafka <=? h), (StateType node =? _).
    + destruct (parse_int t); simpl; case_match; simpl; split; intros Hx; try done; try lia;
        repeat case_match; try done; lia.
  - split; [done|]. split; [done|]. split; [|done]. case_match; simpl; split; intros Hx; try done; try lia;
        repeat case_match; try done; lia.
  - split; [done|]. split; [|split; [|done]].
    + intros e' _. split; [done|]. destruct (Z.eqb_spec (StateType node) 3), (Z.eqb_spec (Lease node) 0);
        simpl; split; try done; naive_solver.
    + case_match; simpl; split; intros Hx; try done; try lia; repeat case_match; try done; lia.
Qed.

(** A negative block number in an answer wraps to a huge height, so the replica
      counts as ready for every notification. *)
Theorem negative_answer_is_ready node kafka timeout w :
  w_env w _ (w_hist w) (RNodeRpc node timeout) = Ok (RpcString "-1") → kafka ≤ MaxUint64 →
  StateType (nh_Node (Node_Check node kafka timeout w).1) = 1.
Proof.
  intros Er Hk. unfold Node_Check, EthBlockNumber, bind, call. simpl. rewrite Er. simpl.
  change ((if kafka <=? MaxUint64 then 1 else 2) = 1). by rewrite (proj2 (Z.leb_le _ _) Hk).
Qed.
End node_facts.

(** ** The node map mirrors etcd *)
Section mirror.
Context `{JsonText}.

(** What etcd stores under each key. *)
Notation etcd_view := (gmap string etcd_kv).
Definition view_event (v : etcd_view) (ev : etcd_event) : etcd_view :=
  match ev with
  | EventTypePut kv _ => <[kv_Key kv := kv]> v
  | EventTypeDelete kv _ => delete (kv_Key kv) v
  end.
Definition event_key (ev : etcd_event) : string :=
  match ev with EventTypePut kv _ | EventTypeDelete kv _ => kv_Key kv end.

(** Equal up to the lease, as [Node.Equal] compares. *)
Definition same_node (a b : Node) : Prop :=
  StateType a = StateType b ∧ Address a = Address b ∧ Port a = Port b ∧ NodeType a = NodeType b.

Lemma Node_Equal_spec a b : Node_Equal a b = true ↔ same_node a b.
Proof.
  unfold Node_Equal, same_node. rewrite !andb_true_iff, !Z.eqb_eq, bool_decide_eq_true. tauto.
Qed.

(** [m] mirrors [v]: a key that holds a node is in the map with that node up to the
    lease, and the map has no other addresses than keys of etcd. *)
Definition mirrors (v : etcd_view) (m : RWMap) : Prop :=
  (∀ ip kv n, v !! (getNodesPrefix m +:+ ip) = Some kv → node_of_kv kv = Some n →
     ∃ n', rw_m m !! ip = Some n' ∧ same_node n' n) ∧
  (∀ ip n, rw_m m !! ip = Some n → is_Some (v !! (getNodesPrefix m +:+ ip))).

Lemma substring_all s : String.substring 0 (String.length s) s = s.
Proof. induction s as [|c s IH]; simpl; [done|by rewrite IH]. Qed.

Lemma substring_app (p s : string) n : String.substring (String.length p) n (p +:+ s) = String.substring 0 n s.
Proof.
  induction p as [|c p IH]; [by destruct s|].
  change (String.substring (S (String.length p)) n (String c (p +:+ s)) = String.substring 0 n s).
  simpl. apply IH.
Qed.

Lemma TrimPrefix_app p s : TrimPrefix (p +:+ s) p = s.
Proof.
  unfold TrimPrefix. rewrite prefix_app, substring_app, string_app_length.
  replace (String.length p + String.length s - String.length p)%nat with (String.length s) by lia.
  apply substring_all.
Qed.

Lemma string_app_inj_l (p a b : string) : p +:+ a = p +:+ b → a = b.
Proof. intros Hab. by apply string_app_inj_len in Hab as [_ ?]. Qed.

Lemma prefix_SetByIP ip n m : getNodesPrefix (SetByIP ip n m) = getNodesPrefix m.
Proof. unfold SetByIP. by repeat case_match. Qed.

Lemma SetByIP_lookup ip n m ip' :
  (ip' ≠ ip → rw_m (SetByIP ip n m) !! ip' = rw_m m !! ip') ∧
  ∃ n', rw_m (SetByIP ip n m) !! ip = Some n' ∧ same_node n' n.
Proof.
  unfold SetByIP. destruct (rw_m m !! ip) as [old|] eqn:Eo; [destruct (Node_Equal old n) eqn:En|].
  - split; [done|]. exists old. by rewrite <- Node_Equal_spec.
  - split; [intros Hne; simpl; by rewrite lookup_insert_ne|]. exists n. simpl. by rewrite lookup_insert_eq.
  - split; [intros Hne; simpl; by rewrite lookup_insert_ne|]. exists n. simpl. by rewrite lookup_insert_eq.
Qed.

(** *** The watch loop

    [L] is what happened under the prefix [P], oldest first: the events with their
    revisions.  A watch from [r + 1] delivers events [since r]; a reload lists the
    keys at some revision. *)
Definition event_rev (ev : etcd_event) : Z :=
  match ev with EventTypePut _ r | EventTypeDelete _ r => r end.
(** The events of the responses before the first error. *)
Fixpoint delivered_events (rch : list watch_response) : list etcd_event :=
  match rch with
  | [] => []
  | wr :: rch => match wr_Err wr with Some _ => [] | None => wr_Events wr ++ delivered_events rch end
  end.
Definition since (L : list etcd_event) (r : Z) : list etcd_event := base.filter (λ ev, r < event_rev ev) L.
Definition upto (L : list etcd_event) (r : Z) : list etcd_event := base.filter (λ ev, event_rev ev ≤ r) L.
Definition after_events (L : list etcd_event) : etcd_view := foldl view_event ∅ L.
Definition untouched (E : list etcd_event) (key : string) : Prop := Forall (λ ev, event_key ev ≠ key) E.

(** A log of the prefix: in the order of the revisions. *)
Record log_of (P : string) (L : list etcd_event) : Prop := {
  log_sorted : StronglySorted (λ a b, event_rev a ≤ event_rev b) L;
  log_keys ev : ev ∈ L → ∃ ip, event_key ev = P +:+ ip
}.
(** What a reload at revision [r] is answered with. *)
Definition put_events (kvs : list etcd_kv) : list etcd_event := (λ kv, EventTypePut kv 0) <$> kvs.
Definition lists_at (P : string) (L : list etcd_event) (r : Z) (kvs : list etcd_kv) : Prop :=
  after_events (put_events kvs) = after_events (upto L r) ∧ Forall (λ kv, ∃ ip, kv_Key kv = P +:+ ip) kvs.

Definition nodes_prefix (chainID : Z) (version : string) : string :=
  getNodesPrefix (mkRWMap ∅ None chainID version).

(** The states of the loop: from the first load through the turns, whose watches may
    break off anywhere, whose reloads may fail, and which [StopWatch] may end. *)
Inductive watching (chainID : Z) (version : string) (L : list etcd_event) : Z * RWMap → Prop :=
  | watching_init kvs r m s m' :
      lists_at (nodes_prefix chainID version) L r kvs → InitFromEtcd chainID version (Ok (kvs, r)) m = (Ok s, m') →
      watching chainID version L (s, m')
  | watching_turn s rch stopped reload s' :
      watching chainID version L s → delivered_events rch `prefix_of` since L s.1 →
      (∀ kvs r, reload = Ok (kvs, r) → lists_at (nodes_prefix chainID version) L r kvs) →
      watch_turn rch stopped reload s = inl s' → watching chainID version L s'.

(** The map mirrors [v] on the keys that the events [E] leave alone. *)
Definition behind (P : string) (E : list etcd_event) (v : etcd_view) (m : RWMap) : Prop := ∀ ip,
  untouched E (P +:+ ip) →
  (∀ kv n, v !! (P +:+ ip) = Some kv → node_of_kv kv = Some n → ∃ n', rw_m m !! ip = Some n' ∧ same_node n' n) ∧
  (∀ n, rw_m m !! ip = Some n → is_Some (v !! (P +:+ ip))).

Lemma behind_nil P v m : getNodesPrefix m = P → behind P [] v m → mirrors v m.
Proof.
  intros <- Hb. split; intros ip; destruct (Hb ip (Forall_nil_2 _)) as [H1 H2]; eauto.
Qed.

Lemma untouched_lookup E key : ∀ v, untouched E key → foldl view_event v E !! key = v !! key.
Proof.
  induction E as [|ev E IH]; intros v; [done|]. intros [Hev HE]%Forall_cons. cbn [foldl].
  rewrite (IH (view_event v ev) HE).
  destruct ev as [kv r|kv r]; simpl in *; [by rewrite lookup_insert_ne|by rewrite lookup_delete_ne].
Qed.

Lemma split_log P L r : log_of P L → L = upto L r ++ since L r.
Proof.
  intros [Hs _]. unfold upto, since. induction Hs as [|ev L Hs IH Hall]; [done|].
  rewrite !filter_cons. destruct (decide (event_rev ev ≤ r)) as [Hle|Hgt].
  - rewrite decide_False by lia. simpl. by rewrite <- IH.
  - rewrite decide_True by lia. assert (Forall (λ b, r < event_rev b) L) as Hall'
      by (eapply Forall_impl; [exact Hall|simpl; lia]).
    clear -Hall'. assert (base.filter (λ ev, event_rev ev ≤ r) L = []) as ->; [|simpl; f_equal];
      induction Hall' as [|b L Hb _ IH]; [done| |done|]; rewrite filter_cons.
    + by rewrite decide_False by lia.
    + rewrite decide_True by lia. by f_equal.
Qed.

(** One event of a watch catches up with that event. *)
Lemma behind_event P E v0 ev m rev : getNodesPrefix m = P → (∃ ip, event_key ev = P +:+ ip) →
  let v := foldl view_event v0 (ev :: E) in behind P (ev :: E) v m →
  behind P E v (apply_event P (rev, m) ev).2 ∧ getNodesPrefix (apply_event P (rev, m) ev).2 = P.
Proof.
  intros Hp [ip0 Hk] v Hb. assert (∀ ip, P +:+ ip = P +:+ ip0 → ip = ip0) as Hinj by (intros ip; apply string_app_inj_l).
  assert (∀ ip, ip ≠ ip0 → untouched E (P +:+ ip) → untouched (ev :: E) (P +:+ ip)) as Hother.
  { intros ip Hne Hu. apply Forall_cons. split; [rewrite Hk; naive_solver|done]. }
  assert (untouched E (P +:+ ip0) → v !! (P +:+ ip0) = view_event v0 ev !! (P +:+ ip0)) as Hv
    by apply (untouched_lookup E _ (view_event v0 ev)).
  clearbody v. destruct ev as [kv r|kv r]; simpl in Hk, Hv; cbn [apply_event snd]; rewrite Hk, TrimPrefix_app in *.
  - rewrite lookup_insert_eq in Hv. destruct (node_of_kv kv) as [node|] eqn:En.
    + rewrite prefix_SetByIP. split; [|done]. intros ip Hu. destruct (SetByIP_lookup ip0 node m ip) as [Hne Heq].
      destruct (decide (ip = ip0)) as [->|Hd]; [|rewrite Hne by done; by apply Hb, Hother].
      rewrite (Hv Hu). split; [|by eauto]. intros kv' n [= <-] Hn. by simplify_eq.
    + split; [|done]. intros ip Hu. destruct (decide (ip = ip0)) as [->|Hd]; [|by apply Hb, Hother].
      rewrite (Hv Hu). split; [|by eauto]. intros kv' n [= <-]. congruence.
  - rewrite lookup_delete_eq in Hv. split; [|done]. intros ip Hu.
    destruct (decide (ip = ip0)) as [->|Hd]; simpl.
    + rewrite (Hv Hu), lookup_delete_eq. done.
    + rewrite lookup_delete_ne by done. by apply Hb, Hother.
Qed.

Lemma behind_events P D : ∀ E v0 m rev, getNodesPrefix m = P → Forall (λ ev, ∃ ip, event_key ev = P +:+ ip) D →
  let v := foldl view_event v0 (D ++ E) in behind P (D ++ E) v m →
  behind P E v (foldl (apply_event P) (rev, m) D).2 ∧ getNodesPrefix (foldl (apply_event P) (rev, m) D).2 = P.
Proof.
  induction D as [|ev D IH]; intros E v0 m rev Hp Hk v Hb; [done|]. apply Forall_cons in Hk as [Hev Hk].
  destruct (behind_event P (D ++ E) v0 ev m rev Hp Hev Hb) as [Hb1 Hp1].
  change (foldl (apply_event P) (rev, m) (ev :: D)) with (foldl (apply_event P) (apply_event P (rev, m) ev) D).
  destruct (apply_event P (rev, m) ev) as [rev1 m1]. by apply (IH E (view_event v0 ev)).
Qed.

(** What the responses before an error deliver is applied, the rest is not. *)
Lemma watch_applies P rch : ∀ rev m, (processWatchEvents rch P rev m).2 = (foldl (apply_event P) (rev, m) (delivered_events rch)).2.
Proof.
  assert (∀ D r r' m, (foldl (apply_event P) (r, m) D).2 = (foldl (apply_event P) (r', m) D).2) as Hrev.
  { induction D as [|ev D IH]; intros r r' m; [done|]. cbn [foldl]. by destruct ev; cbn [apply_event]. }
  induction rch as [|wr rch IH]; intros rev m; [done|]. cbn [processWatchEvents delivered_events].
  destruct (wr_Err wr); [done|]. rewrite foldl_app.
  pose proof (Hrev (wr_Events wr) (Z.max rev (wr_Revision wr)) rev m) as Heq.
  destruct (foldl _ (Z.max _ _, m) _) as [r1 m1], (foldl _ (rev, m) _) as [r2 m2]. simpl in Heq. subst m2.
  rewrite IH. apply Hrev.
Qed.

(** A reload is a watch that delivers every key. *)
Lemma load_events P kvs : ∀ m, getNodesPrefix m = P →
  foldl load_kv m kvs = (foldl (apply_event P) (0, m) (put_events kvs)).2.
Proof.
  induction kvs as [|kv kvs IH]; intros m Hp; [done|]. cbn [foldl put_events fmap list_fmap apply_event].
  rewrite IH by (unfold load_kv; destruct (node_of_kv kv); [by rewrite prefix_SetByIP|done]).
  unfold load_kv. by rewrite Hp.
Qed.

Lemma reload_behind P L r kvs m : log_of P L → lists_at P L r kvs → getNodesPrefix m = P →
  behind P (since L r) (after_events L) (foldl load_kv (Clear m) kvs) ∧
  getNodesPrefix (foldl load_kv (Clear m) kvs) = P.
Proof.
  intros Hlog [Hkvs Hkeys] Hp. rewrite (load_events P) by done.
  destruct (behind_events P (put_events kvs) [] ∅ (Clear m) 0 Hp) as [Hb Hp'].
  - by apply Forall_fmap.
  - intros ip Hu. rewrite app_nil_r in Hu |- *. rewrite untouched_lookup by done. split; intros *; simpl; by rewrite lookup_empty.
  - split; [|done]. intros ip Hu. destruct (Hb ip (Forall_nil_2 _)) as [H1 H2]. rewrite app_nil_r in H1, H2.
    unfold after_events in *. rewrite Hkvs in H1, H2. rewrite (split_log P L r) by done. rewrite foldl_app, untouched_lookup by done.
    by split.
Qed.

(** Cancelling the watch leaves the nodes alone. *)
Definition same_map (m m' : RWMap) : Prop := rw_m m = rw_m m' ∧ getNodesPrefix m = getNodesPrefix m'.
Lemma stop_same m m' : same_map m m' → same_map (StopWatch m) m'.
Proof. unfold StopWatch, same_map, getNodesPrefix. by destruct (rw_watch m). Qed.

Lemma watching_behind chainID version L s : let P := nodes_prefix chainID version in
  log_of P L → watching chainID version L s →
  behind P (since L s.1) (after_events L) s.2 ∧ getNodesPrefix s.2 = P.
Proof.
  intros P Hlog. induction 1 as [kvs r m s m' Hl Hi|[r m] rch stopped reload s' _ [Hb Hp] [E HE] Hr Ht].
  - unfold InitFromEtcd in Hi. simpl in Hi. injection Hi as <- <-. by apply reload_behind.
  - simpl in Hb, Hp, HE. unfold watch_turn in Ht. destruct (cancelled m); [done|].
    pose proof (watch_applies P rch 0 m) as Hw. rewrite Hp in Ht.
    destruct (processWatchEvents rch P 0 m) as [[r1 e1] m1]. simpl in Hw.
    set (m2 := match stopped with StoppedWatching => StopWatch m1 | _ => m1 end) in Ht.
    destruct (cancelled m2); [done|].
    set (m3 := match stopped with StoppedAsleep => StopWatch m2 | _ => m2 end) in Ht.
    assert (same_map m3 m1) as [Hm3 Hp3] by (unfold m3, m2; destruct stopped; by repeat (done || apply stop_same)).
    assert (after_events L = foldl view_event (after_events (upto L r)) (delivered_events rch ++ E)) as HL
      by (rewrite <- HE; unfold after_events; rewrite <- foldl_app; by rewrite <- (split_log P L r)).
    rewrite HL, HE in Hb. destruct (behind_events P (delivered_events rch) E (after_events (upto L r)) m 0 Hp) as [Hb1 Hp1]; [|exact Hb|].
    { apply Forall_forall. intros ev Hev. apply (log_keys _ _ Hlog). rewrite (split_log P L r), HE by done. set_solver. }
    rewrite <- Hw in Hb1, Hp1. rewrite <- HL in Hb1. clear Hw.
    destruct reload as [[kvs R]|er]; simpl in Ht; injection Ht as <-; simpl.
    + apply reload_behind; [done|auto|congruence].
    + split; [|congruence]. rewrite HE. intros ip [_ Hu]%Forall_app. rewrite Hm3. by apply Hb1.
Qed.

(** (C28) The node map mirrors the node keys of etcd.  The watch loop may have lost its watch any
    number of times, with failed or successful reloads in between, and replays events it
    has already seen: once a watch has delivered what happened since the loop's
    revision, the keys that hold a node are present with their node up to its lease, and
    no deleted or never stored address is left. *)
Theorem node_map_mirrors_etcd chainID version L s rch : let P := nodes_prefix chainID version in
  log_of P L → watching chainID version L s → delivered_events rch = since L s.1 →
  mirrors (after_events L) (processWatchEvents rch P 0 s.2).2.
Proof.
  intros P Hlog Hs Hd. destruct (watching_behind chainID version L s Hlog Hs) as [Hb Hp]. fold P in Hb, Hp.
  rewrite watch_applies, Hd.
  assert (after_events L = foldl view_event (after_events (upto L s.1)) (since L s.1 ++ [])) as HL
    by (rewrite app_nil_r, (split_log P L s.1) at 1 by done; apply foldl_app).
  rewrite HL in Hb |- *. rewrite <- (app_nil_r (since L s.1)) in Hb at 1.
  destruct (behind_events P (since L s.1) [] (after_events (upto L s.1)) s.2 0 Hp) as [Hb1 Hp1]; [|exact Hb|].
  - apply Forall_forall. intros ev [_ Hev]%list_elem_of_filter. by apply (log_keys _ _ Hlog).
  - by apply (behind_nil P).
Qed.

Lemma reload_keeps_watch reload m : rw_watch (reloadFromEtcd reload m).2 = rw_watch m.
Proof.
  destruct reload as [[kvs R]|er]; [|done]. simpl. change (rw_watch m) with (rw_watch (Clear m)).
  generalize (Clear m). induction kvs as [|kv kvs IH]; intros m'; [done|]. cbn [foldl]. rewrite IH.
  unfold load_kv, SetByIP. by repeat case_match.
Qed.

(** [StopWatch] ends the loop: at once between two turns, after the channel has closed when
    it runs while the channel is read, and otherwise, after one more reload, in the turn
    that follows. *)
Lemma stop_ends_watch rch stopped reload r m : rw_watch m = Some true →
  (∀ stopped', watch_turn rch stopped' reload (r, StopWatch m) = inr (StopWatch m)) ∧
  match watch_turn rch stopped reload (r, m) with
  | inr m' => stopped = StoppedWatching ∧ cancelled m' = true
  | inl (_, m') => stopped ≠ StoppedWatching ∧ cancelled m' = bool_decide (stopped = StoppedAsleep)
  end.
Proof.
  assert (∀ P D rev m, rw_watch (foldl (apply_event P) (rev, m) D).2 = rw_watch m) as Hw.
  { intros P D. induction D as [|ev D IH]; intros rev m'; [done|]. cbn [foldl].
    destruct ev as [kv ?|kv ?]; cbn [apply_event]; rewrite IH; [|done].
    destruct (node_of_kv kv); [|done]. unfold SetByIP. by repeat case_match. }
  intros Hb. split; [intros ?; unfold watch_turn, StopWatch, cancelled; by rewrite Hb|].
  pose proof (watch_applies (getNodesPrefix m) rch 0 m) as Ha.
  specialize (Hw (getNodesPrefix m) (delivered_events rch) 0 m). rewrite <- Ha, Hb in Hw.
  unfold watch_turn. unfold cancelled at 1. rewrite Hb. simpl.
  destruct (processWatchEvents rch _ 0 m) as [[r1 e1] m1]. simpl in Hw.
  assert (rw_watch (StopWatch m1) = Some false) as Hs by (unfold StopWatch; by rewrite Hw).
  destruct stopped; unfold cancelled at 1.
  - rewrite Hw. simpl. pose proof (reload_keeps_watch reload m1) as Hr.
    destruct (reloadFromEtcd reload m1) as [[] m2]; simpl in Hr; unfold cancelled; by rewrite Hr, Hw.
  - rewrite Hs. simpl. unfold cancelled. by rewrite Hs.
  - rewrite Hw. simpl. pose proof (reload_keeps_watch reload (StopWatch m1)) as Hr.
    destruct (reloadFromEtcd reload (StopWatch m1)) as [[] m2]; simpl in Hr; unfold cancelled; by rewrite Hr, Hs.
Qed.

(** A put that changes nothing but the lease of a registered node is ignored: the
      map keeps the node with the lease it had. *)
Theorem lease_change_ignored m ip old new :
  rw_m m !! ip = Some old → same_node old new → SetByIP ip new m = m.
Proof.
  intros Hm Hs. unfold SetByIP. rewrite Hm. by rewrite (proj2 (Node_Equal_spec old new) Hs).
Qed.
End mirror.

(** ** Witnesses *)
Module NodeDemo.
#[local] Existing Instances mem_pebble demo_hash_text demo_json_text.
Definition n1 : Node := mkNode 1 "10.0.0.1" 8545 1 0.
Definition n2 : Node := mkNode 2 "10.0.0.2" 8545 1 77.
Definition node_text (n : Node) : string :=
  json_print (JObj [("stateType", JNum (StateType n)); ("address", JStr (Address n));
                    ("port", JNum (Port n)); ("nodeType", JNum (NodeType n))]).
Definition kv1 : etcd_kv := mkKv "7/v1/nodes/a" (node_text n1) 0.
Definition kv2 : etcd_kv := mkKv "7/v1/nodes/b" (node_text n2) 77.
Definition rch : list watch_response :=
  [mkWatch None 5 [EventTypePut kv2 5]; mkWatch None 6 [EventTypeDelete kv1 6]].
Definition log : list etcd_event := [EventTypePut kv1 3; EventTypePut kv2 5; EventTypeDelete kv1 6].
Definition loaded : RWMap := (InitFromEtcd 7 "v1" (Ok ([kv1], 4)) NewRWMap).2.
Definition answering (text : string) : World :=
  Sim.world0 (Sim.mkSim ∅ ∅ (λ _ _ _, true) (λ _, None) [n1] (λ _, Ok (RpcString text)) (λ _, 0) (λ _ _, true))
    Sim.legacyConfig.
End NodeDemo.

Section node_witnesses.
#[local] Existing Instances mem_pebble demo_hash_text demo_json_text.
Import NodeDemo.

(** The first watch breaks off after one event and the reload fails: the second watch starts
    over from the first load. *)
Lemma node_map_mirrors_etcd_witness :
  let m := (processWatchEvents rch "7/v1/nodes/" 0
              (processWatchEvents [mkWatch None 5 [EventTypePut kv2 5]] "7/v1/nodes/" 0 loaded).2).2 in
  mirrors (after_events log) m ∧ rw_m m !! "a" = None.
Proof.
  split; [|vm_compute; reflexivity]. assert (log_of "7/v1/nodes/" log) as Hlog.
  { split; [repeat constructor; simpl; lia|]. intros ev Hev. repeat apply elem_of_cons in Hev as [->|Hev]; [by exists "a"|by exists "b"|by exists "a"|by apply elem_of_nil in Hev]. }
  eapply (node_map_mirrors_etcd 7 "v1" log (4, _) rch); [exact Hlog| |reflexivity].
  apply (watching_turn 7 "v1" log (4, loaded) [mkWatch None 5 [EventTypePut kv2 5]] NotStopped (Fail (ErrMsg "unavailable"))).
  - apply (watching_init 7 "v1" log [kv1] 4 NewRWMap 4 loaded); [|reflexivity]. split; [reflexivity|].
    repeat constructor. by exists "a".
  - by exists [EventTypeDelete kv1 6].
  - done.
  - reflexivity.
Defined.

Lemma node_check_classifies_witness :
  StateType (nh_Node (Node_Check n2 16 5 (answering (hex_text 16))).1) = 1 ∧
  StateType (nh_Node (Node_Check n2 17 5 (answering (hex_text 16))).1) = 2.
Proof.
  split.
  - destruct (node_check_classifies n2 16 5 (answering (hex_text 16))) as (Hok & _).
    apply (Hok 16); [reflexivity|unfold MaxInt64; lia].
  - destruct (node_check_classifies n2 17 5 (answering (hex_text 16))) as (Hok & _).
    apply (Hok 16); [reflexivity|unfold MaxInt64; lia].
Defined.

Lemma lease_change_ignored_witness :
  SetByIP "b" (mkNode 2 "10.0.0.2" 8545 1 78) (mkRWMap {["b" := n2]} (Some true) 7 "v1") = mkRWMap {["b" := n2]} (Some true) 7 "v1".
Proof. apply (lease_change_ignored _ _ n2); [reflexivity|by split_and!]. Defined.

Lemma negative_answer_is_ready_witness :
  StateType (nh_Node (Node_Check n2 1000000 5 (answering "-1")).1) = 1.
Proof. apply negative_answer_is_ready; [reflexivity|discriminate]. Defined.
End node_witnesses.
