(* ===== verification/Replicas.v ===== *)
(** * Replicas: waiting for the replicas and recording them in etcd (check/check.go)

    The quorum of ready replicas, the polling loop in front of a publication, and
    the etcd transactions that record the replica height and changed nodes. *)
From S2P Require Import Prelude Types Config Json Store ScanState BlockIndex Checker Validation Nodes.

Record ReplicaStateChangeNotification := mkChange {
  rc_LatestBlockNumber : option Z;
  rc_ReplicaStates : list NodeWithHeight
}.

(** The text form of a [hexutil.Big] is go-ethereum's. *)
Class BigText := { big_text : Z → string }.

(** What a response says about the node's height. *)
Definition answered (rsp : res rpc_result) : res Z :=
  let! result := rsp in
  match result with
  | RpcOther => Fail (ErrMsg "eth_blockNumber returns invalid block number")
  | RpcString blockNumStr =>
      match parse_int blockNumStr with
      | Fail _ => Fail (ErrMsg "eth_blockNumber returns invalid block number")
      | Ok blockNum => Ok (u64 blockNum)
      end
  end.

Definition is_ready (s : NodeWithHeight) : bool := StateType (nh_Node s) =? 1.

(** The number of ready nodes, as counted and compared in [check]. *)
Definition readyNodes (states : list NodeWithHeight) : Z := Z.of_nat (length (List.filter is_ready states)).
Definition ratio_reached (cfg : Config) (states : list NodeWithHeight) : bool :=
  f64_geb (f64_div (f64_of_int (readyNodes states)) (f64_of_int (Z.of_nat (length states))))
    (ReadyRatio cfg).

(** The lowest height of a ready node; heights are converted to [int]. *)
Definition min_ready_height (states : list NodeWithHeight) : Z :=
  foldl (λ lowest s, if is_ready s then
                       if i64 (nh_LatestBlockNumber s) <? lowest then i64 (nh_LatestBlockNumber s)
                       else lowest
                     else lowest) MaxInt64 states.

Section ops.
Context `{Pebble} `{JsonText} `{BigText}.

Definition check (kafkaLatestBlockNumber : Z) : M (res ReplicaStateChangeNotification) :=
  let* cfg := get_config in
  let* nodeStates := CheckAll kafkaLatestBlockNumber (dur_mul (RpcNodeTimeout cfg) Millisecond) in
  ret (if bool_decide (nodeStates = []) then Fail (ErrMsg "no node")
       else if ratio_reached cfg nodeStates
            then Ok (mkChange (Some (min_ready_height nodeStates)) nodeStates)
            else Ok (mkChange None nodeStates)).

(** One turn of the polling loop: a poll, then the deadline, then the timer.  The last
    error of a poll only appears in the text of the returned error. *)
Definition wait_round (kafkaLatestBlockNumber deadline interval : Z)
    : unit → M (unit + option ReplicaStateChangeNotification * option err) := λ _,
  let* r := check kafkaLatestBlockNumber in
  let change := match r with Ok c => Some c | Fail _ => None end in
  match change with
  | Some (mkChange (Some h) states) => ret (inr (Some (mkChange (Some h) states), None))
  | _ =>
      let* now := call RNow in
      if negb (now + interval <? deadline) then
        ret (inr (change, Some (ErrMsg "replicas not ready")))
      else
        let* fired := call (RSelect Background interval) in
        if fired then ret (inl tt) else ret (inr (change, Some (ErrMsg "checker quitting")))
  end.

Definition wait_exhausted : err := ErrMsg "polling does not end".

(** The loop has no bound of its own; [2 ^ 64] turns are more than any timeout
    allows ([wait_is_bounded]). *)
Definition waitReplicasReady (kafkaLatestBlockNumber timeout : Z)
    : M (option ReplicaStateChangeNotification * option err) :=
  let* start := call RNow in
  let* cfg := get_config in
  let* r := loopM (2 ^ 64) (wait_round kafkaLatestBlockNumber (start + timeout)
              (dur_mul (CheckInterval cfg) Millisecond)) tt in
  ret (match r with inr r => r | inl _ => (None, Some wait_exhausted) end).

Definition replicaWaitTimeout (cfg : Config) : Z := dur_mul (CheckTimeout cfg) Millisecond.

(** ** Keys and transactions *)
Definition node_key (cfg : Config) (n : Node) : string :=
  if IsVersionMode cfg then
    pretty (ChainID cfg) +:+ "/" +:+ Version cfg +:+ "/nodes/" +:+ Address n +:+ "_" +:+ pretty (Port n)
  else pretty (ChainID cfg) +:+ "/nodes/" +:+ Address n +:+ "_" +:+ pretty (Port n).
Definition height_key (cfg : Config) : string :=
  if IsVersionMode cfg then pretty (ChainID cfg) +:+ "/" +:+ Version cfg +:+ "/lastBlockNumber"
  else pretty (ChainID cfg) +:+ "/lastBlockNumber".

Definition height_text (h : Z) : string := json_print (JObj [("latestBlockNumber", JStr (big_text h))]).
Definition node_json (n : Node) : string :=
  json_print (JObj [("stateType", JNum (StateType n)); ("address", JStr (Address n));
                    ("port", JNum (Port n)); ("nodeType", JNum (NodeType n))]).

Definition is_gone (s : NodeWithHeight) : bool :=
  bool_decide (nh_ChangeType s = DelNode) && (Lease (nh_Node s) =? 0).

Definition remove_ops (cfg : Config) (states : list NodeWithHeight) : list etcd_op :=
  (λ s, OpDelete (node_key cfg (nh_Node s))) <$> List.filter is_gone states.

Definition RemoveOfflineNodesFromEtcd (change : ReplicaStateChangeNotification) : M unit :=
  let* cfg := get_config in
  match remove_ops cfg (rc_ReplicaStates change) with
  | [] => ret tt
  | ops => let* _ := call (REtcdTxn ops) in ret tt
  end.

(** The write of one changed node. *)
Definition node_op (cfg : Config) (s : NodeWithHeight) : option etcd_op :=
  let n := nh_Node s in
  match nh_ChangeType s with
  | NoChange => None
  | ct => Some (if Lease n =? 0 then
                  if bool_decide (ct = DelNode) then OpDelete (node_key cfg n)
                  else OpPut (node_key cfg n) (node_json n)
                else OpPutLease (node_key cfg n) (node_json n) (Lease n))
  end.

(** The height is written only when it differs from the last one written; the
    record of the last one is updated here, before the transaction. *)
Definition height_ops (cfg : Config) (lastWritten : Z) (change : ReplicaStateChangeNotification)
    : list etcd_op * Z :=
  match rc_LatestBlockNumber change with
  | None => ([], lastWritten)
  | Some h => if u64 h =? lastWritten then ([], lastWritten)
              else ([OpPut (height_key cfg) (height_text h)], u64 h)
  end.

Definition WriteReplicaStateChangeToEtcd (change : ReplicaStateChangeNotification) : M (res unit) :=
  let* cfg := get_config in
  let* r := get_rep in
  let '(hops, written) := height_ops cfg (lastWrittenBlockNumber r) change in
  modify_rep (set_lastWritten written) ;;;
  let ops := hops ++ omap (node_op cfg) (rc_ReplicaStates change) in
  match ops with
  | [] => ret (Ok tt)
  | _ =>
      let* e := call (REtcdTxn ops) in
      match e with
      | Fail e => ret (Fail e)
      | Ok _ =>
          let* now := call RNow in
          modify_rep (set_latestWriteEtcd now) ;;; ret (Ok tt)
      end
  end.

(** [record] only selects whether wait metrics are observed. *)
Definition checkAndNotify (kafkaLatestBlockNumber timeout : Z) (record : bool) : M bool :=
  let* r := get_rep in
  let* recent := (if kafkaLatestBlockNumber <? ReplicaLatestBlockNumber r
                  then let* now := call RNow in ret (now - latestWriteEtcd r <? Second)
                  else ret false) in
  if recent then ret true
  else
    let* (change, e) := waitReplicasReady kafkaLatestBlockNumber timeout in
    match e, change with
    | Some _, Some c => RemoveOfflineNodesFromEtcd c ;;; ret false
    | Some _, None => ret false
    | None, None => ret true          (* waitReplicasReady never returns (nil, nil) *)
    | None, Some c =>
        match rc_LatestBlockNumber c with
        | Some h => modify_rep (set_ReplicaLatest (u64 h))
        | None => ret tt
        end ;;;
        let* e := WriteReplicaStateChangeToEtcd c in ret (is_ok e)
    end.

Definition CheckAndNotifyEtcd : M bool :=
  let* cfg := get_config in
  let* r := get_rep in
  checkAndNotify (ReplicaLatestBlockNumber r) (replicaWaitTimeout cfg) false.
End ops.

(** ** The quorum *)
Section facts.
Context `{Pebble} `{JsonText} `{BigText}.

(** One poll: the nodes that are known, and what each of them answered. *)
Notation poll := (list (Node * res rpc_result)).
Definition answer_event (timeout : Z) (x : Node * res rpc_result) : event := Ev _ (RNodeRpc x.1 timeout) x.2.
Definition poll_events (timeout : Z) (p : poll) : list event :=
  reverse (answer_event timeout <$> p) ++ [Ev _ RNodes p.*1].
Definition states_of (kafka : Z) (p : poll) : list NodeWithHeight :=
  (λ x, classify x.1 kafka (answered x.2)) <$> p.

(** The heights that were answered and are not below the notification's, and the lowest of
    them as the source computes it, in [int]. *)
Definition votes (kafka : Z) (p : poll) : list Z :=
  omap (λ x, match answered x.2 with Ok h => if kafka <=? h then Some h else None | Fail _ => None end) p.
Definition lowest (kafka : Z) (p : poll) : Z := foldl Z.min MaxInt64 (i64 <$> votes kafka p).

(** Enough of the nodes voted. *)
Definition quorum (cfg : Config) (kafka : Z) (p : poll) : Prop :=
  p ≠ [] ∧ f64_geb (f64_div (f64_of_int (Z.of_nat (length (votes kafka p)))) (f64_of_int (Z.of_nat (length p))))
             (ReadyRatio cfg) = true.

Lemma ready_votes kafka p : readyNodes (states_of kafka p) = Z.of_nat (length (votes kafka p)).
Proof.
  unfold readyNodes, votes, states_of. f_equal. induction p as [|[n a] p IH]; [done|]. cbn [fmap list_fmap List.filter omap list_omap].
  unfold is_ready at 1, classify at 1. simpl. destruct (answered a) as [h|e]; simpl; [|done].
  destruct (kafka <=? h); simpl; [by f_equal|done].
Qed.

Lemma min_ready_votes kafka p : min_ready_height (states_of kafka p) = lowest kafka p.
Proof.
  unfold min_ready_height, lowest, states_of, votes. generalize MaxInt64 as acc. induction p as [|[n a] p IH]; intros acc; [done|].
  cbn [fmap list_fmap foldl omap list_omap]. unfold is_ready at 2, classify at 2. simpl.
  destruct (answered a) as [h|e]; simpl; [|apply IH]. destruct (kafka <=? h); simpl; [|apply IH]. rewrite IH. f_equal.
  destruct (Z.ltb_spec (i64 h) acc); lia.
Qed.

(** The lowest vote: a vote that no other is below, or there is none. *)
Lemma lowest_spec kafka p : Forall (λ h, h ≤ MaxInt64) (votes kafka p) → 0 ≤ kafka →
  Forall (λ h, lowest kafka p ≤ h) (votes kafka p) ∧ (votes kafka p ≠ [] → lowest kafka p ∈ votes kafka p) ∧
  Forall (λ h, kafka ≤ h) (votes kafka p).
Proof.
  intros Hm Hk. assert (Forall (λ h, kafka ≤ h) (votes kafka p)) as Hall.
  { apply Forall_forall. intros h (x & _ & Hx)%list_elem_of_omap. destruct (answered x.2); [|done].
    destruct (Z.leb_spec kafka a); [|done]. by injection Hx as <-. }
  unfold lowest. assert (i64 <$> votes kafka p = votes kafka p) as ->.
  { rewrite <- (list_fmap_id (votes kafka p)) at 2. apply Forall_fmap_ext_1. rewrite Forall_forall in Hm, Hall |- *.
    intros h Hin. specialize (Hm h Hin). specialize (Hall h Hin). unfold i64, MaxInt64 in *. rewrite Z.mod_small; unfold id; lia. }
  revert Hm Hall. generalize (votes kafka p). clear p. intros l Hm Hall.
  assert (∀ acc, let m := foldl Z.min acc l in m ≤ acc ∧ Forall (λ h, m ≤ h) l ∧ (m = acc ∨ m ∈ l)) as Hf.
  { clear Hm Hall. induction l as [|h l IH]; intros acc m; [by split_and!; [unfold m; simpl; lia|constructor|left]|].
    destruct (IH (Z.min acc h)) as (Ha & Hb & Hc). unfold m. simpl. split_and!; [lia|constructor; [lia|done]|].
    destruct Hc as [->|Hc]; [|right; by right]. destruct (Z.min_spec acc h) as [[_ ->]|[_ ->]]; [by left|right; by left]. }
  destruct (Hf MaxInt64) as (_ & Hb & Hc). split_and!; [done| |done]. intros Hne. destruct Hc as [Hc|]; [|done].
  destruct l as [|h l]; [done|]. rewrite Hc in Hb. apply Forall_cons in Hb as [Hb _]. apply Forall_cons in Hm as [Hm _].
  assert (h = MaxInt64) as -> by lia. rewrite Hc. left.
Qed.

(** No etcd transaction. *)
Definition event_txn (ev : event) : option (list etcd_op * bool) :=
  match ev with
  | Ev _ r a =>
      match r in req A return A → option (list etcd_op * bool) with
      | REtcdTxn ops => λ a, Some (ops, is_ok a)
      | _ => λ _, None
      end a
  end.
Definition no_txn (ev : event) : Prop := event_txn ev = None.

(** Polls read the world, issue no transaction and do not turn the clock back. *)
Record polled (w w' : World) : Prop := {
  po_env : w_env w' = w_env w;
  po_chk : w_chk w' = w_chk w;
  po_db : w_db w' = w_db w;
  po_hist : extends no_txn (w_hist w) (w_hist w')
}.
Lemma polled_refl w : polled w w.
Proof. split; auto with chk. Qed.
Lemma polled_trans w1 w2 w3 : polled w1 w2 → polled w2 w3 → polled w1 w3.
Proof. intros [] []. split; [congruence..|by eapply extends_trans]. Qed.
Lemma polled_call {A} (r : req A) w : (∀ a, no_txn (Ev A r a)) → polled w (call r w).2.
Proof. intros Hr. split; try done. simpl. by apply extends_one. Qed.

(** Nothing of a poll. *)
Definition no_poll (ev : event) : Prop :=
  match ev with Ev _ r _ => match r with RNodes | RNodeRpc _ _ => False | _ => True end end.
(** [p] is the last poll since [w], and no transaction was made before it. *)
Definition last_poll (w : World) (h : list event) (p : poll) : Prop :=
  ∃ before after, h = after ++ poll_events (dur_mul (RpcNodeTimeout (config (w_chk w))) Millisecond) p ++ before ∧
    extends no_txn (w_hist w) before ∧ Forall no_poll after.

Lemma last_poll_later w h p new : last_poll w h p → Forall no_poll new → last_poll w (new ++ h) p.
Proof.
  intros (before & after & -> & Hb & Ha) Hn. exists before, (new ++ after). rewrite app_assoc. split; [done|].
  split; [done|]. by apply Forall_app.
Qed.
Lemma last_poll_earlier w w1 h p : polled w w1 → last_poll w1 h p → last_poll w h p.
Proof.
  intros [_ Hc _ Hh] (before & after & -> & Hb & Ha). rewrite Hc. exists before, after. split; [done|].
  split; [by eapply extends_trans|done].
Qed.

Lemma check_nodes_spec kafka timeout ns w :
  wp (check_nodes ns kafka timeout) (λ states w', polled w w' ∧ elapsed (w_hist w') = elapsed (w_hist w) ∧
    ∃ p, p.*1 = ns ∧ states = states_of kafka p ∧ w_hist w' = reverse (answer_event timeout <$> p) ++ w_hist w) w.
Proof.
  revert w. induction ns as [|n ns IH]; intros w; cbn [check_nodes].
  { apply wp_ret. split; [apply polled_refl|]. split; [done|]. by exists []. }
  apply wp_bind. unfold Node_Check. apply wp_bind. unfold EthBlockNumber. apply wp_bind.
  unfold wp at 1, call. cbn [fst snd]. set (a := w_env w _ _ _). set (w1 := mkWorld _ _ _ _).
  assert (polled w w1) as Hp by (apply (polled_call (RNodeRpc n timeout)); done).
  apply wp_ret, wp_ret. change (res_bind a _) with (answered a).
  apply wp_bind. eapply wp_mono; [apply IH|]. intros states w' (Hp' & He & p & <- & -> & Hh). apply wp_ret.
  split; [by eapply polled_trans|]. split; [by rewrite He|]. exists ((n, a) :: p). split; [done|]. split; [done|].
  rewrite Hh, fmap_cons, reverse_cons, <- app_assoc. done.
Qed.

(** What a poll is worth. *)
Definition verdict (cfg : Config) (kafka : Z) (p : poll) (r : res ReplicaStateChangeNotification) : Prop :=
  match r with
  | Ok (mkChange (Some h) states) => states = states_of kafka p ∧ quorum cfg kafka p ∧ h = lowest kafka p
  | Ok (mkChange None states) => states = states_of kafka p ∧ ¬ quorum cfg kafka p
  | Fail _ => p = []
  end.

Lemma check_spec kafka w :
  wp (check kafka) (λ r w', polled w w' ∧ elapsed (w_hist w') = elapsed (w_hist w) ∧
    ∃ p, last_poll w (w_hist w') p ∧ verdict (config (w_chk w)) kafka p r) w.
Proof.
  unfold check. apply wp_bind. unfold wp at 1. simpl. apply wp_bind. unfold CheckAll. apply wp_bind.
  unfold wp at 1, call. cbn [fst snd]. set (ns := w_env w _ _ _). set (w1 := mkWorld _ _ _ _).
  assert (polled w w1) as Hp by (apply (polled_call RNodes); done).
  eapply wp_mono; [apply check_nodes_spec|]. intros states w' (Hp' & He & p & Hns & -> & Hh). apply wp_ret.
  split; [by eapply polled_trans|]. split; [by rewrite He|]. exists p. split.
  { exists (w_hist w), []. split; [|split; [apply extends_refl|constructor]]. rewrite Hh. unfold poll_events.
    rewrite <- app_assoc. simpl. by rewrite Hns. }
  assert (states_of kafka p = [] ↔ p = []) as Hnil by (unfold states_of; by destruct p).
  case_bool_decide as Hn; [by apply Hnil|]. unfold verdict, ratio_reached, quorum. rewrite ready_votes.
  unfold states_of at 1. rewrite length_fmap. rewrite Hnil in Hn. destruct (f64_geb _ _) eqn:Er.
  - split_and!; [done|done|done|apply min_ready_votes].
  - split; [done|]. intros [_ Hq]. congruence.
Qed.

(** What a wait returns: the quorum of its last poll, or an error with what the last poll saw. *)
Definition waited (w : World) (kafka : Z) (r : option ReplicaStateChangeNotification * option err) (h : list event) : Prop :=
  match r with
  | (Some c, None) => ∃ p, last_poll w h p ∧ quorum (config (w_chk w)) kafka p ∧
      c = mkChange (Some (lowest kafka p)) (states_of kafka p)
  | (Some c, Some _) => ∃ p, last_poll w h p ∧ ¬ quorum (config (w_chk w)) kafka p ∧
      rc_ReplicaStates c = states_of kafka p
  | (None, None) => False
  | (None, Some _) => True
  end.

Lemma wait_round_spec kafka deadline interval u w :
  wp (wait_round kafka deadline interval u) (λ r w', polled w w' ∧
    match r with
    | inl _ => clock_ok (w_env w) → 0 ≤ interval → elapsed (w_hist w) + interval < deadline ∧
                 elapsed (w_hist w) + interval ≤ elapsed (w_hist w')
    | inr r => waited w kafka r (w_hist w') ∧ r.2 ≠ Some wait_exhausted
    end) w.
Proof.
  unfold wait_round. apply wp_bind. eapply wp_mono; [apply check_spec|].
  intros r w1 (Hp1 & He1 & p & Hlp & Hv). set (change := match r with Ok c => Some c | Fail _ => None end).
  assert (∀ new e, Forall no_poll new → (∀ h, rc_LatestBlockNumber <$> change ≠ Some (Some h)) →
    waited w kafka (change, Some e) (new ++ w_hist w1)) as Hfail.
  { intros new e Hnew Hno. destruct r as [[[h|] states]|er]; [by destruct (Hno h)| |done].
    exists p. split; [by apply last_poll_later|]. by destruct Hv. }
  set (rest := bind (call RNow) _).
  assert ((∀ h, rc_LatestBlockNumber <$> change ≠ Some (Some h)) → wp rest (λ r w', polled w w' ∧
    match r with
    | inl _ => clock_ok (w_env w) → 0 ≤ interval → elapsed (w_hist w) + interval < deadline ∧
                 elapsed (w_hist w) + interval ≤ elapsed (w_hist w')
    | inr r => waited w kafka r (w_hist w') ∧ r.2 ≠ Some wait_exhausted
    end) w1) as Hrest.
  { intros Hno. unfold rest. apply wp_bind. unfold wp at 1, call. cbn [fst snd]. set (now := w_env w1 _ _ _).
    set (w2 := mkWorld _ _ _ _).
    assert (polled w w2) as Hp2 by (eapply polled_trans; [exact Hp1|]; by apply (polled_call RNow)).
    destruct (Z.ltb_spec (now + interval) deadline) as [Hlt|Hge]; simpl.
    2: { apply wp_ret. split; [done|]. split; [|done]. apply (Hfail [Ev Z RNow now]); [by repeat constructor|done]. }
    apply wp_bind. unfold wp at 1, call. cbn [fst snd]. set (fired := w_env w2 _ _ _).
    set (w3 := mkWorld _ _ _ _).
    assert (polled w w3) as Hp3
      by (eapply polled_trans; [exact Hp2|]; by apply (polled_call (RSelect Background interval))).
    assert (fired = true → elapsed (w_hist w3) = now + Z.max 0 interval) as Hel
      by (unfold w3; intros Hf; simpl; by rewrite Hf).
    destruct fired; apply wp_ret.
    2: { split; [done|]. split; [|done].
         apply (Hfail [Ev bool (RSelect Background interval) false; Ev Z RNow now]); [by repeat constructor|done]. }
    split; [done|]. intros Hclk Hi. rewrite (Hel eq_refl).
    assert (elapsed (w_hist w) ≤ now).
    { rewrite <- He1. unfold now. rewrite (po_env _ _ Hp1). apply Hclk. }
    lia. }
  clearbody rest. destruct r as [[[h|] states]|e]; [|by apply Hrest..].
  apply wp_ret. split; [done|]. split; [|done]. destruct Hv as (-> & Hq & ->). by exists p.
Qed.

Lemma waited_earlier w w1 kafka r h : polled w w1 → waited w1 kafka r h → waited w kafka r h.
Proof.
  intros Hp. unfold waited. rewrite (po_chk _ _ Hp). destruct r as [[c|] [e|]]; try done;
    intros (p & Hl & Hq); exists p; (split; [by eapply last_poll_earlier|done]).
Qed.

Lemma wait_spec kafka timeout w :
  wp (waitReplicasReady kafka timeout) (λ r w', polled w w' ∧ waited w kafka r (w_hist w')) w.
Proof.
  unfold waitReplicasReady. apply wp_bind. unfold wp at 1, call. cbn [fst snd].
  set (start := w_env w _ _ _). set (w1 := mkWorld _ _ _ _).
  assert (polled w w1) as Hp1 by (by apply (polled_call RNow)).
  apply wp_bind. unfold wp at 1. simpl. apply wp_bind. eapply wp_mono.
  { apply (wp_loopM _ (λ _ w', polled w w') (λ r w', polled w w' ∧ waited w kafka r (w_hist w')));
      [|exact Hp1]. intros u w2 Hp2. eapply wp_mono; [apply wait_round_spec|].
    intros [[]|r] w3 [Hp3 Hr]; [by eapply polled_trans|].
    split; [by eapply polled_trans|]. eapply waited_earlier; [done|]. apply Hr. }
  intros [u|r] w2 Hr; apply wp_ret; [|exact Hr]. by split.
Qed.

(** The turns that fit before the deadline. *)
Definition turns_left (deadline interval : Z) (w : World) : Z :=
  Z.max 0 ((deadline - elapsed (w_hist w) - 1) / interval).

Lemma wait_loop_ends kafka deadline interval p w :
  clock_ok (w_env w) → 0 < interval → turns_left deadline interval w < Z.pos p →
  wp (loopM p (wait_round kafka deadline interval) tt) (λ r _, match r with
    | inl _ => False | inr r => r.2 ≠ Some wait_exhausted end) w.
Proof.
  intros Hclk Hi Hp. eapply wp_mono.
  { apply (wp_loopM_measure _ (λ _ w, turns_left deadline interval w) (λ _ w', w_env w' = w_env w)
      (λ r _, r.2 ≠ Some wait_exhausted)); [|done].
    intros u w1 He1. eapply wp_mono; [apply wait_round_spec|]. intros [[]|r] w2 [Hpo Hr]; [|by apply Hr].
    split; [by rewrite (po_env _ _ Hpo)|].
    destruct Hr as [Hlt Hge]; [by rewrite He1|lia|]. unfold turns_left.
    assert (1 ≤ (deadline - elapsed (w_hist w1) - 1) / interval) by (apply Z.div_le_lower_bound; lia).
    assert ((deadline - elapsed (w_hist w2) - 1) / interval ≤
      (deadline - elapsed (w_hist w1) - 1 + (-1) * interval) / interval) as Hdec
      by (apply Z.div_le_mono; lia).
    rewrite Z.div_add in Hdec by lia. lia. }
  intros [u|r] w' Hr; [|done]. unfold turns_left in *. lia.
Qed.

(** (C20) Waiting for the replicas ends: with a clock that does not run backwards and a
      positive polling interval, every number of turns whose intervals add up to the
      timeout is enough -- in particular the loop comes back with a quorum or an
      error of its own. *)
Theorem wait_is_bounded kafka timeout p w :
  let interval := dur_mul (CheckInterval (config (w_chk w))) Millisecond in
  clock_ok (w_env w) → 0 < interval → timeout ≤ Z.pos p * interval → timeout ≤ MaxInt64 →
  (∃ r w', loopM p (wait_round kafka ((call RNow w).1 + timeout) interval) tt (call RNow w).2 = (inr r, w')) ∧
  (waitReplicasReady kafka timeout w).1.2 ≠ Some wait_exhausted.
Proof.
  intros interval Hclk Hi Hp Hmax.
  assert (∀ q, timeout ≤ Z.pos q * interval →
    turns_left ((call RNow w).1 + timeout) interval (call RNow w).2 < Z.pos q) as Ht.
  { intros q Hq. unfold turns_left. simpl. set (start := w_env w _ _ _).
    assert ((start + timeout - start - 1) / interval < Z.pos q); [|lia].
    apply Z.div_lt_upper_bound; [done|]. rewrite (Z.mul_comm interval). lia. }
  assert (clock_ok (w_env (call RNow w).2)) as Hclk' by done. split.
  - pose proof (wait_loop_ends kafka _ interval p _ Hclk' Hi (Ht p Hp)) as Hw. unfold wp in Hw.
    destruct (loopM p _ tt _) as [[u|r] w']; [done|]. by exists r, w'.
  - change (wp (waitReplicasReady kafka timeout) (λ r _, r.2 ≠ Some wait_exhausted) w).
    unfold waitReplicasReady. apply wp_bind. unfold wp at 1. apply wp_bind. unfold wp at 1. apply wp_bind.
    eapply wp_mono; [apply wait_loop_ends; [exact Hclk'|exact Hi|]|].
    + apply (Ht (2 ^ 64)%positive). unfold MaxInt64 in Hmax. change (Z.pos (2 ^ 64)) with (2 ^ 64). nia.
    + intros [u|r] w' Hr; by apply wp_ret.
Qed.

(** ** Writes to etcd *)

(** A transaction was acknowledged and had this operation. *)
Definition op_done (h : list event) (op : etcd_op) : Prop :=
  ∃ ops, Ev (res unit) (REtcdTxn ops) (Ok tt) ∈ h ∧ op ∈ ops.

Lemma write_spec change w :
  wp (WriteReplicaStateChangeToEtcd change) (λ r w',
    w_env w' = w_env w ∧ w_db w' = w_db w ∧ config (w_chk w') = config (w_chk w) ∧
    pub (w_chk w') = pub (w_chk w) ∧ scan (w_chk w') = scan (w_chk w) ∧
    ReplicaLatestBlockNumber (rep (w_chk w')) = ReplicaLatestBlockNumber (rep (w_chk w)) ∧
    (r ≠ Ok tt → latestWriteEtcd (rep (w_chk w')) = latestWriteEtcd (rep (w_chk w))) ∧
    lastWrittenBlockNumber (rep (w_chk w')) =
      match rc_LatestBlockNumber change with
      | Some h => u64 h | None => lastWrittenBlockNumber (rep (w_chk w)) end ∧
    ∃ new, w_hist w' = new ++ w_hist w ∧ Forall no_poll new ∧
      Forall (λ ev, ∀ ops ok, event_txn ev = Some (ops, ok) → ok = is_ok r) new ∧
      (r = Ok tt → ∀ h, rc_LatestBlockNumber change = Some h → u64 h ≠ lastWrittenBlockNumber (rep (w_chk w)) →
         op_done new (OpPut (height_key (config (w_chk w))) (height_text h)))) w.
Proof.
  unfold WriteReplicaStateChangeToEtcd. apply wp_bind. unfold wp at 1. simpl. apply wp_bind.
  unfold wp at 1. simpl. unfold height_ops.
  set (lw := match rc_LatestBlockNumber change with
    | Some h => u64 h | None => lastWrittenBlockNumber (rep (w_chk w)) end).
  set (p := match rc_LatestBlockNumber change with | Some h => _ | None => _ end).
  assert (p.2 = lw ∧ ∀ h, rc_LatestBlockNumber change = Some h → u64 h ≠ lastWrittenBlockNumber (rep (w_chk w)) →
    OpPut (height_key (config (w_chk w))) (height_text h) ∈ p.1) as [Hlw Hput].
  { unfold p, lw. destruct (rc_LatestBlockNumber change) as [h|]; [|done]. case_match; simpl; (split; [lia|]);
      intros h' [= <-] Hne; [lia|by left]. }
  destruct p as [hops written]. simpl in Hlw, Hput. subst written. apply wp_bind. unfold wp at 1. simpl.
  set (tail := omap _ _). assert (∀ op, op ∈ hops → op ∈ hops ++ tail) as Hin by set_solver.
  destruct (hops ++ tail) as [|op ops].
  { apply wp_ret. split_and!; try done. exists []. split_and!; try done. intros _ h Hh Hne.
    by destruct (not_elem_of_nil _ (Hin _ (Hput h Hh Hne))). }
  apply wp_bind. unfold wp at 1. simpl. set (a := w_env w _ _ _).
  destruct a as [[]|e].
  - apply wp_bind. unfold wp at 1. simpl. set (now := w_env w Z _ _).
    apply wp_bind. unfold wp at 1. simpl. apply wp_ret. split_and!; try done. simpl.
    exists [Ev Z RNow now; Ev (res unit) (REtcdTxn (op :: ops)) (Ok tt)]. split_and!; [done|by repeat constructor| |].
    + repeat constructor; [done|]. by intros ? ? [= <- <-].
    + intros _ h Hh Hne. exists (op :: ops). split; [set_solver|]. by apply Hin, Hput.
  - apply wp_ret. split_and!; try done. simpl. exists [Ev (res unit) (REtcdTxn (op :: ops)) (Fail e)].
    split_and!; [done|by repeat constructor| |done]. repeat constructor. by intros ? ? [= <- <-].
Qed.

(** The operations that remove the nodes that did not answer: those without a lease that
    were not offline before. *)
Definition removals (cfg : Config) (p : poll) : list etcd_op :=
  (λ x, OpDelete (node_key cfg x.1)) <$>
  List.filter (λ x, negb (is_ok (answered x.2)) && negb (StateType x.1 =? 3) && (Lease x.1 =? 0)) p.

Lemma remove_ops_removals cfg kafka p : remove_ops cfg (states_of kafka p) = removals cfg p.
Proof.
  unfold remove_ops, removals, states_of. induction p as [|[n a] p IH]; [done|]. cbn [fmap list_fmap List.filter].
  unfold is_gone at 1, classify at 1. simpl.
  destruct (answered a) as [h|e]; simpl.
  - destruct (if kafka <=? h then 1 else 2) eqn:Es; repeat case_match; try done; destruct (kafka <=? h); try done; simplify_eq.
  - destruct (StateType n =? 3) eqn:E3; simpl; [done|]. destruct (Lease n =? 0) eqn:El; simpl; [|done].
    by f_equal.
Qed.

Lemma remove_spec change w :
  wp (RemoveOfflineNodesFromEtcd change) (λ _ w', w_env w' = w_env w ∧ w_chk w' = w_chk w ∧ w_db w' = w_db w ∧
    ∃ new, w_hist w' = new ++ w_hist w ∧ Forall no_poll new ∧
      Forall (λ ev, ∀ ops ok, event_txn ev = Some (ops, ok) → ops = remove_ops (config (w_chk w)) (rc_ReplicaStates change)) new) w.
Proof.
  unfold RemoveOfflineNodesFromEtcd. apply wp_bind. unfold wp at 1. simpl.
  destruct (remove_ops _ _) as [|op ops]; [apply wp_ret; split_and!; try done; by exists []|].
  apply wp_bind. unfold wp at 1. simpl. apply wp_ret. split_and!; try done. simpl.
  eexists [_]. split_and!; [done|by repeat constructor|]. repeat constructor. by intros ? ? [= <- _].
Qed.

(** A height that was written to etcd less than a second ago. *)
Definition recently (kafka : Z) (w w' : World) : Prop :=
  kafka < ReplicaLatestBlockNumber (rep (w_chk w)) ∧ rep (w_chk w') = rep (w_chk w) ∧
  ∃ now, w_hist w' = Ev Z RNow now :: w_hist w ∧ now - latestWriteEtcd (rep (w_chk w)) < Second.
(** The lowest vote of the last poll's quorum is the recorded height. *)
Definition recorded (kafka : Z) (w w' : World) : Prop :=
  ∃ p, last_poll w (w_hist w') p ∧ quorum (config (w_chk w)) kafka p ∧
    ReplicaLatestBlockNumber (rep (w_chk w')) = u64 (lowest kafka p) ∧
    lastWrittenBlockNumber (rep (w_chk w')) = u64 (lowest kafka p) ∧
    (u64 (lowest kafka p) ≠ lastWrittenBlockNumber (rep (w_chk w)) →
     op_done (w_hist w') (OpPut (height_key (config (w_chk w))) (height_text (lowest kafka p)))).
(** No quorum: the record stays, and etcd only loses nodes that did not answer. *)
Definition not_ready (kafka : Z) (w w' : World) : Prop :=
  rep (w_chk w') = rep (w_chk w) ∧
  (extends no_txn (w_hist w) (w_hist w') ∨
   ∃ p, last_poll w (w_hist w') p ∧ ¬ quorum (config (w_chk w)) kafka p ∧
     extends (λ ev, ∀ ops ok, event_txn ev = Some (ops, ok) → ops = removals (config (w_chk w)) p) (w_hist w) (w_hist w')).
(** A quorum whose record etcd refused: the process has noted the height nevertheless. *)
Definition write_refused (kafka : Z) (w w' : World) : Prop :=
  ∃ p, last_poll w (w_hist w') p ∧ quorum (config (w_chk w)) kafka p ∧
    ReplicaLatestBlockNumber (rep (w_chk w')) = u64 (lowest kafka p) ∧
    lastWrittenBlockNumber (rep (w_chk w')) = u64 (lowest kafka p) ∧
    latestWriteEtcd (rep (w_chk w')) = latestWriteEtcd (rep (w_chk w)) ∧
    extends (λ ev, ∀ ops ok, event_txn ev = Some (ops, ok) → ok = false) (w_hist w) (w_hist w').

Lemma op_done_app new h op : op_done new op → op_done (new ++ h) op.
Proof. intros (ops & Hin & Hop). exists ops. split; [set_solver|done]. Qed.

Lemma last_poll_write w w2 w4 new p : polled w w2 → last_poll w (w_hist w2) p → w_hist w4 = new ++ w_hist w2 →
  Forall no_poll new → last_poll w (w_hist w4) p.
Proof. intros _ Hl -> Hn. by apply last_poll_later. Qed.

(** The whole check: what each answer means. *)
Lemma notify_spec kafka timeout record w :
  wp (checkAndNotify kafka timeout record) (λ ok w',
    w_env w' = w_env w ∧ w_db w' = w_db w ∧ config (w_chk w') = config (w_chk w) ∧
    pub (w_chk w') = pub (w_chk w) ∧ scan (w_chk w') = scan (w_chk w) ∧
    if ok then recently kafka w w' ∨ recorded kafka w w' else not_ready kafka w w' ∨ write_refused kafka w w') w.
Proof.
  unfold checkAndNotify. apply wp_bind. unfold wp at 1. simpl. apply wp_bind.
  apply (wp_mono _ (λ recent w', polled w w' ∧ (recent = true → recently kafka w w'))).
  { destruct (Z.ltb_spec kafka (ReplicaLatestBlockNumber (rep (w_chk w)))); [|by split; [apply polled_refl|]].
    apply wp_bind. unfold wp at 1. simpl. apply wp_ret. split; [by apply (polled_call RNow)|].
    intros Hlt%Z.ltb_lt. split_and!; [done|done|]. by eexists. }
  intros recent w1 (Hp1 & Hrec). destruct recent.
  { apply wp_ret. destruct Hp1 as [-> -> -> _]. split_and!; try done. left. auto. }
  apply wp_bind. eapply wp_mono; [apply wait_spec|]. intros [change e] w2 [Hp2 Hw%(waited_earlier w w1)]; [|done].
  assert (polled w w2) as Hp by by eapply polled_trans. pose proof Hp as [He Hc Hd Hh]. unfold waited in Hw.
  destruct e as [e|]; [destruct change as [c|]|destruct change as [c|]; [|done]].
  - destruct Hw as (p & Hl & Hnq & Hst). apply wp_bind. eapply wp_mono; [apply remove_spec|].
    intros _ w3 (He3 & Hc3 & Hd3 & new & Hn & Hnp & Hrm). apply wp_ret. rewrite Hc3, Hc. split_and!; try congruence.
    left. split; [by rewrite Hc3, Hc|]. right. exists p. split; [by eapply last_poll_write|]. split; [done|].
    rewrite Hn. eapply extends_trans; [eapply extends_mono, Hh; by intros ev -> ?|]. exists new. split; [done|].
    rewrite Hst, remove_ops_removals, Hc in Hrm. exact Hrm.
  - apply wp_ret. rewrite Hc. split_and!; try done. left. split; [by rewrite Hc|by left].
  - destruct Hw as (p & Hl & Hq & ->). cbn [rc_LatestBlockNumber]. apply wp_bind. unfold wp at 1. simpl.
    set (w3 := mkWorld _ _ _ _). apply wp_bind. eapply wp_mono; [apply write_spec|].
    intros r w4 (He4 & Hd4 & Hcf4 & Hp4 & Hs4 & Hr4 & Ht4 & Hw4 & new & Hn4 & Hnp4 & Htx4 & Hput4). apply wp_ret.
    cbn [rc_LatestBlockNumber] in Hw4, Hput4.
    unfold w3 in He4, Hd4, Hcf4, Hp4, Hs4, Hr4, Ht4, Hn4, Hput4. simpl in He4, Hd4, Hcf4, Hp4, Hs4, Hr4, Ht4, Hn4, Hput4.
    split_and!; try congruence. assert (last_poll w (w_hist w4) p) as Hl4 by by eapply last_poll_write.
    destruct r as [[]|e]; simpl; right; exists p.
    + split_and!; try done. intros Hne. rewrite Hn4, <- Hc. apply op_done_app. apply Hput4; [done|done|by rewrite Hc].
    + split_and!; try done; [rewrite Ht4 by done; by rewrite Hc|].
      rewrite Hn4. eapply extends_trans; [eapply extends_mono, Hh; by intros ev -> ?|]. by exists new.
Qed.



(** A height whose transaction failed is not written by the retry: the record of the
      last written height was updated before the transaction, so the next
      write of the same height, with no changed node, sends nothing and reports
      success. *)
Theorem failed_height_is_lost change h e w w1 :
  rc_LatestBlockNumber change = Some h →
  WriteReplicaStateChangeToEtcd change w = (Fail e, w1) →
  WriteReplicaStateChangeToEtcd (mkChange (Some h) []) w1 = (Ok tt, w1).
Proof.
  intros Hl Hr. destruct (wp_run _ _ _ _ _ (write_spec change w) Hr)
    as (_ & _ & _ & _ & _ & _ & _ & Hw & _). rewrite Hl in Hw.
  unfold WriteReplicaStateChangeToEtcd, bind, get_config, get_rep, asks, height_ops. simpl.
  rewrite (proj2 (Z.eqb_eq _ _) (eq_sym Hw)). simpl. destruct w1 as [e1 [c1 p1 [t r l] s1] d1 h1]. done.
Qed.
End facts.

(** ** Witnesses: three nodes, of which [up] answer with height 16 *)
Module ReplicaDemo.
#[local] Existing Instances mem_pebble demo_hash_text demo_json_text.
Definition demo_big_text : BigText := {| big_text z := hex_text z |}.
Definition nd (k : Z) : Node := mkNode 2 "10.0.0.1" (8545 + k) 1 0.
Definition answer (up : Z) (n : Node) : res rpc_result :=
  if Port n <? 8545 + up then Ok (RpcString "0x10") else Fail (ErrMsg "connection refused").
Definition sim (up : Z) (etcd : bool) : Sim.sim :=
  Sim.mkSim ∅ ∅ (λ _ _ _, true) (λ _, None) [nd 0; nd 1; nd 2] (answer up) elapsed (λ _ _, etcd).
Definition cfg : Config := {|
  Listen := ":8663"; ReadyRatio := f64_div (f64_of_int 6) (f64_of_int 10); CheckInterval := 20;
  CheckTimeout := 2000; RpcNodeTimeout := 5000; MsgWaitTimeout := 5000; ChainID := 7; Version := "";
  OuterVersionNewBlockTopic := ""; EtcdWriteTimeout := 5000; EtcdLockTTL := 20;
  VersionCheckInterval := 5; ForkScanInterval := 60; ForkScanLookback := -1
|}.
Definition w (up : Z) (etcd : bool) : World := Sim.world0 (sim up etcd) cfg.
End ReplicaDemo.

Section replica_witnesses.
Import ReplicaDemo.
#[local] Existing Instances mem_pebble demo_hash_text demo_json_text demo_big_text.



Lemma wait_is_bounded_witness :
  (waitReplicasReady 16 (100 * Millisecond) (w 1 true)).1.2 ≠ Some wait_exhausted.
Proof.
  apply (wait_is_bounded 16 (100 * Millisecond) 5 (w 1 true)).
  - intros h. reflexivity.
  - reflexivity.
  - vm_compute. discriminate.
  - vm_compute. discriminate.
Defined.

Lemma failed_height_is_lost_witness :
  ∃ w1, WriteReplicaStateChangeToEtcd (mkChange (Some 16) []) w1 = (Ok tt, w1) ∧
    lastWrittenBlockNumber (rep (w_chk w1)) = 16.
Proof.
  exists (WriteReplicaStateChangeToEtcd (mkChange (Some 16) []) (w 3 false)).2. split.
  - apply (failed_height_is_lost (mkChange (Some 16) []) 16 (ErrMsg "refused") (w 3 false)).
    + reflexivity.
    + apply run_eq. vm_compute. reflexivity.
  - vm_compute. reflexivity.
Defined.
End replica_witnesses.
