(* ===== verification/Align.v ===== *)
(** * Align: bringing the singleton topic to the version's chain (check/check.go)

    The common ancestor of two blocks, walked over the block files, and the notices
    that move the singleton topic from one branch to the other. *)
From S2P Require Import Prelude Types Config Json Store ScanState BlockIndex Checker Topics Validation Publish.

Section ops.
Context `{Pebble} `{HashText} `{JsonText} `{Rlp}.

(** ** [GetCommonAncestor] *)
Notation walk := (BlockContext * list BlockContext * list BlockContext)%type.

(** The first loop: the remote block walks back to the local height. *)
Definition lower_remote (localNumber : Z) (s : BlockContext * list BlockContext)
    : M ((BlockContext * list BlockContext) + res (BlockContext * list BlockContext)) :=
  let '(currentRemote, remoteAncestors) := s in
  if localNumber <? BlockNumber currentRemote then
    let* r := getVersionBlockByHash (ParentHash currentRemote) in
    match r with
    | Fail e => ret (inr (Fail (ErrWrap "failed to get remote parent block" e)))
    | Ok parentBlock => ret (inl (parentBlock, remoteAncestors ++ [currentRemote]))
    end
  else ret (inr (Ok (currentRemote, remoteAncestors))).

(** The second loop: both walk back until they meet. *)
Definition walk_back (s : (BlockContext * BlockContext) * (list BlockContext * list BlockContext))
    : M (((BlockContext * BlockContext) * (list BlockContext * list BlockContext)) + res walk) :=
  let '((currentLocal, currentRemote), (localAncestors, remoteAncestors)) := s in
  if bool_decide (BlockHash currentLocal = BlockHash currentRemote) then
    ret (inr (Ok (currentLocal, reverse localAncestors, reverse remoteAncestors)))
  else
    let* rl := getVersionBlockByHash (ParentHash currentLocal) in
    match rl with
    | Fail e => ret (inr (Fail (ErrWrap "failed to get local parent block" e)))
    | Ok localParent =>
        let* rr := getVersionBlockByHash (ParentHash currentRemote) in
        match rr with
        | Fail e => ret (inr (Fail (ErrWrap "failed to get remote parent block" e)))
        | Ok remoteParent =>
            ret (inl ((localParent, remoteParent),
                      (localAncestors ++ [currentLocal], remoteAncestors ++ [currentRemote])))
        end
    end.

(** The loops have no bound of their own; [2 ^ 64] is above any height
    ([common_ancestor_found]). *)
Definition GetCommonAncestor (localBlock remoteBlock : BlockContext) : M (res walk) :=
  if bool_decide (BlockHash localBlock = ParentHash remoteBlock) then
    ret (Ok (localBlock, [], [remoteBlock]))
  else
    let* r := loopM (2 ^ 64) (lower_remote (BlockNumber localBlock)) (remoteBlock, []) in
    match r with
    | inl _ => ret (Fail (ErrMsg "walk does not end"))
    | inr (Fail e) => ret (Fail e)
    | inr (Ok (currentRemote, remoteAncestors)) =>
        let* r := loopM (2 ^ 64) walk_back ((localBlock, currentRemote), ([], remoteAncestors)) in
        ret (match r with inr r => r | inl _ => Fail (ErrMsg "walk does not end") end)
    end.

(** ** [align] *)

(** Direct writes to the singleton topic, one notice after the other. *)
Fixpoint write_singleton (notices : list OuterNotice) : M (res unit) :=
  match notices with
  | [] => ret (Ok tt)
  | b :: notices =>
      let* r := call (RKafkaWrite outerSingleton b) in
      match r with
      | Fail e => ret (Fail (ErrWrap "failed to write block notice" e))
      | Ok _ => write_singleton notices
      end
  end.

(** One height of the forward catch-up. *)
Definition forward_step (last : Z) (i : Z) : M (Z + res unit) :=
  if i <=? last then
    let* st := get_store in
    let* cfg := get_config in
    match GetBlockInfoByNum st (i64 i) with
    | Fail e => ret (inr (Fail (ErrWrap "failed to get block during alignment" e)))
    | Ok block =>
        let* r := getVersionBlockByHash (BI_ID block) in
        match r with
        | Fail e => ret (inr (Fail (ErrWrap "failed to get block during alignment" e)))
        | Ok blockCtx =>
            let* r := call (RKafkaWrite outerSingleton
              (mkOuterNotice (BI_Height block) (BI_ID block) (ChainID cfg) (Timestamp blockCtx)
                 (BI_IsFork block))) in
            match r with
            | Fail e => ret (inr (Fail (ErrWrap "failed to write block notice" e)))
            | Ok _ => ret (inl (u64 (i + 1)))
            end
        end
    end
  else ret (inr (Ok tt)).

Definition align (version single : OuterNotice) : M (res unit) :=
  if bool_decide (ON_Hash version = ON_Hash single) then ret (Ok tt)
  else
    let* st := get_store in
    let* cfg := get_config in
    match GetBlockInfoByNum st (i64 (ON_BlockNumber single)) with
    | Fail e => ret (Fail (ErrWrap "failed to get singleton block" e))
    | Ok block =>
        if bool_decide (BI_ID block = ON_Hash single) then
          let* r := loopM (2 ^ 64) (forward_step (ON_BlockNumber version))
                      (u64 (ON_BlockNumber single + 1)) in
          ret (match r with inr r => r | inl _ => Fail (ErrMsg "catch-up does not end") end)
        else
          let* rA := getVersionBlockByHash (ON_Hash version) in
          match rA with
          | Fail e => ret (Fail (ErrWrap "failed to get version block" e))
          | Ok blockA =>
              let* rB := getVersionBlockByHash (ON_Hash single) in
              match rB with
              | Fail e => ret (Fail (ErrWrap "failed to get singleton block" e))
              | Ok blockB =>
                  let* r := GetCommonAncestor blockB blockA in
                  match r with
                  | Fail e => ret (Fail (ErrWrap "failed to find common ancestor" e))
                  | Ok (_, dropBlocks, newBlocks) =>
                      let* r := write_singleton (block_notice cfg true <$> dropBlocks) in
                      match r with
                      | Fail e => ret (Fail e)
                      | Ok _ => write_singleton (block_notice cfg false <$> newBlocks)
                      end
                  end
              end
          end
    end.

Definition fetchLatestOuterSingleBlockNotice : M (res (option OuterNotice)) :=
  GetLastOuterBlockNotice outerSingleton.

(** The notice is read again right before the alignment.  [None]: the goroutine panics; the
    second read may find no message, and [align] then reads a field of a nil notice. *)
Definition align_again (latest : OuterNotice) : M (option bool) :=
  let* r := fetchLatestOuterSingleBlockNotice in
  match r with
  | Fail _ => ret (Some false)
  | Ok None => modify_pub (set_cached None) ;;; ret None
  | Ok (Some single) =>
      modify_pub (set_cached (Some single)) ;;;
      let* r := align latest single in
      match r with
      | Fail _ => ret (Some false)
      | Ok _ => modify_pub (λ p, set_cached None (set_align true p)) ;;; ret (Some true)
      end
  end.

Definition AlignOuterSingleton : M (option bool) :=
  let* p := get_pub in
  match etcdLock p, isOuterSingletonAlign p, latestOuter p with
  | None, _, _ | _, true, _ | _, _, None => ret (Some true)
  | Some _, false, Some latest =>
      let* cached := (match cachedOuterSingle p with
        | Some n => ret (inl n)
        | None =>
            let* r := fetchLatestOuterSingleBlockNotice in
            match r with
            | Fail _ => ret (inr false)
            | Ok None => modify_pub (set_align true) ;;; ret (inr true)
            | Ok (Some n) => modify_pub (set_cached (Some n)) ;;; ret (inl n)
            end
        end) in
      match cached with
      | inr ok => ret (Some ok)
      | inl n => if ON_BlockNumber latest <? ON_BlockNumber n then ret (Some true) else align_again latest
      end
  end.
End ops.

(** ** Branches

    [branch anc l top]: [l] leads from above [anc] up to [top], each block the parent
    of the next; it is empty when [top] is the ancestor itself. *)
Fixpoint linked (parent : Hash) (l : list BlockContext) : Prop :=
  match l with
  | [] => True
  | b :: l => ParentHash b = parent ∧ linked (BlockHash b) l
  end.
Definition branch (anc : BlockContext) (l : list BlockContext) (top : BlockContext) : Prop :=
  linked (BlockHash anc) l ∧ BlockHash (default anc (last l)) = BlockHash top ∧
  (∀ b, last l = Some b → b = top).

(** The same for a walk in progress: [l] is in walking order, [cur] the next block. *)
Definition walked (cur : BlockContext) (l : list BlockContext) (top : BlockContext) : Prop :=
  linked (BlockHash cur) (reverse l) ∧ default cur (head l) = top.

Lemma walked_start top : walked top [] top.
Proof. by split. Qed.

Lemma walked_step cur l top p : BlockHash p = ParentHash cur → walked cur l top → walked p (l ++ [cur]) top.
Proof.
  intros Hp [Hl Ht]. split.
  - rewrite reverse_app. simpl. split; [done|exact Hl].
  - by destruct l.
Qed.

Lemma walked_branch cur l top anc : walked cur l top → BlockHash anc = BlockHash cur → branch anc (reverse l) top.
Proof.
  intros [Hl Ht] Ha. split; [by rewrite Ha|]. destruct l as [|b l]; simpl in *.
  - subst cur. by split.
  - rewrite reverse_cons, last_snoc. simpl. subst b. split; [done|]. by intros ? [= <-].
Qed.

Section facts.
Context `{Pebble} `{HashText} `{JsonText} `{Rlp}.

(** A header fetched by hash carries that hash. *)
Lemma header_hash h w :
  wp (getVersionBlockByHash h) (λ r w', (∀ b, r = Ok b → BlockHash b = h) ∧
    w_env w' = w_env w ∧ w_chk w' = w_chk w ∧ w_db w' = w_db w ∧
    ∀ d, acks d (w_hist w') = acks d (w_hist w)) w.
Proof.
  unfold getVersionBlockByHash. apply wp_bind. unfold wp at 1. simpl. apply wp_bind. unfold wp at 1. simpl.
  set (a := w_env w _ _ _). apply wp_ret. split_and!; try done.
  - intros b Hb. destruct a; [|done]. by injection Hb as <-.
  - intros d. simpl. rewrite acks_cons. apply app_nil_r.
Qed.

(** Nothing but the history changed, and that without a write to Kafka. *)
Record unpublished (w w' : World) : Prop := {
  un_env : w_env w' = w_env w;
  un_chk : w_chk w' = w_chk w;
  un_db : w_db w' = w_db w;
  un_acks : ∀ d, acks d (w_hist w') = acks d (w_hist w)
}.
Lemma unpublished_refl w : unpublished w w.
Proof. by split. Qed.
Lemma unpublished_trans w1 w2 w3 : unpublished w1 w2 → unpublished w2 w3 → unpublished w1 w3.
Proof. intros [] []. split; congruence. Qed.

Lemma header_spec h w :
  wp (getVersionBlockByHash h) (λ r w', unpublished w w' ∧ ∀ b, r = Ok b → BlockHash b = h) w.
Proof. eapply wp_mono; [apply header_hash|]. intros r w' (Hh & ? & ? & ? & ?). split; [by split|done]. Qed.

Lemma common_ancestor_spec localBlock remoteBlock w :
  wp (GetCommonAncestor localBlock remoteBlock) (λ r w', unpublished w w' ∧
    ∀ anc la ra, r = Ok (anc, la, ra) → branch anc la localBlock ∧ branch anc ra remoteBlock) w.
Proof.
  unfold GetCommonAncestor. case_bool_decide as Hp.
  { apply wp_ret. split; [apply unpublished_refl|]. intros anc la ra [= <- <- <-].
    split; split_and!; simpl; try done. by intros b [= <-]. }
  apply wp_bind. eapply wp_mono.
  { apply (wp_loopM _ (λ s w', unpublished w w' ∧ walked s.1 s.2 remoteBlock)
      (λ r w', unpublished w w' ∧ ∀ cur l, r = Ok (cur, l) → walked cur l remoteBlock)).
    - intros [cur l] w1 [Hu Hw]. unfold lower_remote. destruct (Z.ltb_spec (BlockNumber localBlock) (BlockNumber cur)).
      + apply wp_bind. eapply wp_mono; [apply header_spec|]. intros [p|e] w2 [Hu2 Hb]; apply wp_ret.
        * split; [by eapply unpublished_trans|]. simpl. by apply walked_step; [apply Hb|].
        * split; [by eapply unpublished_trans|done].
      + apply wp_ret. split; [done|]. by intros cur' l' [= <- <-].
    - split; [apply unpublished_refl|apply walked_start]. }
  intros [s|[[cur l]|e]] w1 Hw1; [apply wp_ret; by split; [apply Hw1|]| |apply wp_ret; by split; [apply Hw1|]].
  destruct Hw1 as [Hu1 Hw1]. specialize (Hw1 cur l eq_refl). apply wp_bind. eapply wp_mono.
  { apply (wp_loopM _ (λ s w', unpublished w w' ∧ walked s.1.1 s.2.1 localBlock ∧ walked s.1.2 s.2.2 remoteBlock)
      (λ r w', unpublished w w' ∧ ∀ anc la ra, r = Ok (anc, la, ra) →
         branch anc la localBlock ∧ branch anc ra remoteBlock)).
    - intros [[cl cr] [la ra]] w2 (Hu & Hwl & Hwr). unfold walk_back. case_bool_decide as Heq.
      + apply wp_ret. split; [done|]. intros anc la' ra' [= <- <- <-].
        split; [by eapply walked_branch|]. by eapply walked_branch.
      + apply wp_bind. eapply wp_mono; [apply header_spec|].
        intros [pl|e] w3 [Hu3 Hb3]; [|apply wp_ret; split; [by eapply unpublished_trans|done]].
        apply wp_bind. eapply wp_mono; [apply header_spec|].
        intros [pr|e] w4 [Hu4 Hb4]; apply wp_ret;
          (split; [by eapply unpublished_trans, unpublished_trans|]); [|done].
        simpl. split; (apply walked_step; [|done]); [by apply Hb3|by apply Hb4].
    - split; [done|]. split; [apply walked_start|done]. }
  intros [s|r] w2 Hw2; apply wp_ret; [by split; [apply Hw2|]|exact Hw2].
Qed.
End facts.

(** ** The walk over a consistent set of headers *)
Section headers.
Context `{Pebble} `{HashText} `{JsonText} `{Rlp}.
Context (hdr : Hash → option BlockContext).
Hypothesis hdr_hash : ∀ h b, hdr h = Some b → BlockHash b = h ∧ is_u64 (BlockNumber b).
Hypothesis hdr_parent : ∀ h b p, hdr h = Some b → hdr (ParentHash b) = Some p →
  BlockNumber p = BlockNumber b - 1.

(** The block files of the version serve exactly these headers. *)
Definition serves (w : World) : Prop :=
  ∀ h hist, w_env w _ hist (RS3Block (pretty (ChainID (config (w_chk w))) +:+ "/" +:+
      Version (config (w_chk w)) +:+ "/" +:+ hash_string h)) =
    match hdr h with
    | Some b => Ok (mkBlockFile (BlockNumber b) (ParentHash b) (Timestamp b))
    | None => Fail (ErrMsg "NoSuchKey")
    end.

Lemma serves_fetch h b w : serves w → hdr h = Some b →
  wp (getVersionBlockByHash h) (λ r w', r = Ok b ∧ serves w') w.
Proof.
  intros Hs Hh. unfold getVersionBlockByHash. apply wp_bind. unfold wp at 1. simpl.
  apply wp_bind. unfold wp at 1. simpl. rewrite Hs, Hh. apply wp_ret. split; [|done].
  destruct (hdr_hash h b Hh) as [<- Hu]. simpl. rewrite (u64_id _ Hu). by destruct b.
Qed.

(** [path b l c]: the blocks [l] lie on the way from [b] (included) down to [c]. *)
Fixpoint path (b : BlockContext) (l : list BlockContext) (c : BlockContext) : Prop :=
  match l with
  | [] => b = c
  | x :: l => x = b ∧ ∃ p, hdr (ParentHash b) = Some p ∧ path p l c
  end.

Lemma path_app b l1 l2 c : path b (l1 ++ l2) c → ∃ m, path b l1 m ∧ path m l2 c.
Proof.
  revert b. induction l1 as [|x l1 IH]; intros b; [by exists b|].
  intros (-> & p & Hp & Hl). destruct (IH p Hl) as (m & H1m & H2m). exists m. split; [|done].
  split; [done|by exists p].
Qed.

Lemma path_known b l c : hdr (BlockHash b) = Some b → path b l c →
  hdr (BlockHash c) = Some c ∧ BlockNumber c = BlockNumber b - Z.of_nat (length l) ∧
  ∀ i x, l !! i = Some x → hdr (BlockHash x) = Some x ∧ BlockNumber x = BlockNumber b - Z.of_nat i.
Proof.
  revert b. induction l as [|y l IH]; intros b Hb Hl; cbn [path] in Hl.
  { subst c. split_and!; [done|simpl; lia|done]. }
  destruct Hl as (-> & p & Hp & Hl).
  assert (hdr (BlockHash p) = Some p) as Hk by (by rewrite (proj1 (hdr_hash _ _ Hp))).
  destruct (IH p Hk Hl) as (Hc & Hn & Hi). pose proof (hdr_parent _ _ _ Hb Hp) as Hnp.
  split_and!; [done|simpl; lia|]. intros [|i] x Hx; [by injection Hx as <-; split; [|lia]|].
  destruct (Hi i x Hx). split; [done|lia].
Qed.

Lemma lower_remote_run n R c p w : serves w → ∀ b,
  path b R c → Forall (λ x, n < BlockNumber x) R → BlockNumber c ≤ n → Z.of_nat (length R) < Z.pos p →
  wp (loopM p (lower_remote n) (b, [])) (λ r w', r = inr (Ok (c, R)) ∧ serves w') w.
Proof.
  intros Hs b Hpath HR Hc Hp. eapply wp_mono.
  { apply (wp_loopM_measure _ (λ s _, Z.of_nat (length R) - Z.of_nat (length s.2))
      (λ s w', serves w' ∧ ∃ l, path s.1 l c ∧ s.2 ++ l = R) (λ r w', r = Ok (c, R) ∧ serves w')).
    2: { split; [done|]. by exists R. }
    intros [cur acc] w1 (Hs1 & l & Hl & Heq). unfold lower_remote. simpl in Hl, Heq.
    destruct l as [|x l]; cbn [path] in Hl.
    - subst cur. rewrite (proj2 (Z.ltb_ge _ _) Hc). apply wp_ret. by rewrite app_nil_r in Heq; subst acc.
    - destruct Hl as (-> & q & Hq & Hl).
      assert (n < BlockNumber cur) as Hn by (rewrite Forall_forall in HR; apply HR; subst R; set_solver).
      rewrite (proj2 (Z.ltb_lt _ _) Hn). apply wp_bind.
      eapply wp_mono; [by apply serves_fetch|]. intros r w2 [-> Hs2]. apply wp_ret. simpl.
      split; [|rewrite length_app; simpl; lia]. split; [done|]. exists l. split; [done|].
      by rewrite <- app_assoc. }
  intros [[cur acc]|r] w' Hr; [|destruct Hr as [-> ?]; done]. exfalso.
  destruct Hr as ((_ & l & _ & Heq) & Hm). simpl in Hm, Heq. subst R. rewrite length_app in Hm, Hp. lia.
Qed.

Lemma walk_back_run L R R0 c p w a b : serves w →
  path a L c → path b R c → length L = length R →
  Forall2 (λ x y, BlockHash x ≠ BlockHash y) L R → Z.of_nat (length L) < Z.pos p →
  wp (loopM p walk_back ((a, b), ([], R0)))
     (λ r _, r = inr (Ok (c, reverse L, reverse (R0 ++ R)))) w.
Proof.
  intros Hs Ha Hb Hlen Hd Hp. eapply wp_mono.
  { apply (wp_loopM_measure _ (λ s _, Z.of_nat (length L) - Z.of_nat (length s.2.1))
      (λ s w', serves w' ∧ ∃ l r, path s.1.1 l c ∧ path s.1.2 r c ∧ s.2.1 ++ l = L ∧
         s.2.2 ++ r = R0 ++ R ∧ Forall2 (λ x y, BlockHash x ≠ BlockHash y) l r)
      (λ r _, r = Ok (c, reverse L, reverse (R0 ++ R)))).
    2: { split; [done|]. exists L, R. by split_and!. }
    intros [[cl cr] [la ra]] w1 (Hs1 & l & r & Hl & Hr & Hel & Her & Hne). simpl in *. unfold walk_back.
    destruct Hne as [|x y l r Hxy Hne]; cbn [path] in Hl, Hr.
    - subst cl cr. rewrite app_nil_r in Hel, Her. subst la ra. rewrite bool_decide_true by done. by apply wp_ret.
    - destruct Hl as (-> & pl & Hpl & Hl). destruct Hr as (-> & pr & Hpr & Hr).
      rewrite bool_decide_false by done. apply wp_bind. eapply wp_mono; [by apply serves_fetch|].
      intros rl w2 [-> Hs2]. apply wp_bind. eapply wp_mono; [by apply serves_fetch|].
      intros rr w3 [-> Hs3]. apply wp_ret. simpl. split; [|rewrite length_app; simpl; lia].
      split; [done|]. exists l, r. split_and!; try done; by rewrite <- app_assoc. }
  intros [[[cl cr] [la ra]]|r] w' Hr; [|by subst]. exfalso.
  destruct Hr as ((_ & l & r & _ & _ & Heq & _) & Hm). simpl in Hm, Heq. subst L.
  rewrite length_app in Hm, Hp. lia.
Qed.

(** When the local block is the parent of the remote one it is the fork point. *)
Lemma parent_is_ancestor localBlock remoteBlock anc L R :
  hdr (BlockHash localBlock) = Some localBlock → hdr (BlockHash remoteBlock) = Some remoteBlock →
  path localBlock L anc → path remoteBlock R anc → (length L ≤ length R)%nat →
  (∀ x y, x ∈ L → y ∈ R → BlockHash x ≠ BlockHash y) → BlockHash localBlock = ParentHash remoteBlock →
  anc = localBlock ∧ L = [] ∧ R = [remoteBlock].
Proof.
  intros Hkl Hkr HL HR Hlen Hne Hp.
  pose proof (hdr_parent _ _ localBlock Hkr ltac:(by rewrite <- Hp)) as Hnp.
  destruct (path_known _ _ _ Hkl HL) as (_ & HnL & _).
  destruct R as [|x R]; cbn [path] in HR.
  { subst anc. destruct L; [|simpl in Hlen; lia]. cbn [path] in HL. subst localBlock. lia. }
  destruct HR as (-> & p & Hpp & HR). rewrite <- Hp, Hkl in Hpp. injection Hpp as <-.
  destruct L as [|y L]; cbn [path] in HL.
  - subst anc. destruct R as [|z R]; [done|]. cbn [path] in HR. destruct HR as (-> & q & Hq & HR).
    pose proof (path_known _ _ _ ltac:(by rewrite (proj1 (hdr_hash _ _ Hq))) HR) as (_ & HnR & _).
    pose proof (hdr_parent _ _ _ Hkl Hq). lia.
  - destruct HL as (-> & q & Hq & HL). destruct R as [|z R]; cbn [path] in HR; [subst anc; simpl in HnL; lia|].
    destruct HR as (-> & _). exfalso. apply (Hne localBlock localBlock); set_solver.
Qed.

(** (C25) On a consistent set of block files the walk returns the fork point: when the
      local and the remote block descend from [anc] along branches that share no
      block, the remote one not being the lower, the result is exactly [anc] and the
      two branches in ascending order. *)
Theorem common_ancestor_found localBlock remoteBlock anc L R w :
  serves w → hdr (BlockHash localBlock) = Some localBlock → hdr (BlockHash remoteBlock) = Some remoteBlock →
  path localBlock L anc → path remoteBlock R anc → (length L ≤ length R)%nat →
  (∀ x y, x ∈ L → y ∈ R → BlockHash x ≠ BlockHash y) →
  (GetCommonAncestor localBlock remoteBlock w).1 = Ok (anc, reverse L, reverse R).
Proof.
  intros Hs Hkl Hkr HL HR Hlen Hne.
  destruct (path_known _ _ _ Hkl HL) as (Hka & HnL & HiL). destruct (path_known _ _ _ Hkr HR) as (_ & HnR & HiR).
  assert (Z.of_nat (length R) < 2 ^ 64) as Hmax.
  { destruct (hdr_hash _ _ Hkr) as [_ Hu]. destruct (hdr_hash _ _ Hka) as [_ Hu'].
    unfold is_u64, MaxUint64 in *. lia. }
  unfold GetCommonAncestor. case_bool_decide as Hp.
  { by destruct (parent_is_ancestor localBlock remoteBlock anc L R) as (-> & -> & ->). }
  assert (∃ R1 R2, R = R1 ++ R2 ∧ length R2 = length L) as (R1 & R2 & -> & HlR2).
  { exists (take (length R - length L) R), (drop (length R - length L) R). rewrite take_drop.
    split; [done|]. rewrite length_drop. lia. }
  destruct (path_app _ _ _ _ HR) as (m & HR1 & HR2). rewrite length_app in *.
  change (wp (let* r := loopM (2 ^ 64) (lower_remote (BlockNumber localBlock)) (remoteBlock, []) in
    match r with
    | inl _ => ret (Fail (ErrMsg "walk does not end"))
    | inr (Fail e) => ret (Fail e)
    | inr (Ok (currentRemote, remoteAncestors)) =>
        let* r := loopM (2 ^ 64) walk_back ((localBlock, currentRemote), ([], remoteAncestors)) in
        ret (match r with inr r => r | inl _ => Fail (ErrMsg "walk does not end") end)
    end) (λ r _, r = Ok (anc, reverse L, reverse (R1 ++ R2))) w).
  destruct (path_known _ _ _ Hkr HR1) as (Hkm & Hnm & HiR1).
  apply wp_bind. eapply wp_mono.
  { apply (lower_remote_run _ R1 m); [done|done| | |].
    - apply Forall_forall. intros x Hx. apply list_elem_of_lookup in Hx as [i Hi].
      pose proof (lookup_lt_Some _ _ _ Hi). destruct (HiR1 i x Hi) as [_ ->]. lia.
    - lia.
    - change (Z.pos (2 ^ 64)) with (2 ^ 64). lia. }
  intros r w1 [-> Hs1]. apply wp_bind. eapply wp_mono.
  { apply (walk_back_run L R2 R1 anc); [done|done|done|done| |].
    - apply Forall2_same_length_lookup. split; [done|]. intros i x y Hx Hy. apply Hne.
      + by eapply list_elem_of_lookup_2.
      + apply elem_of_app. right. by eapply list_elem_of_lookup_2.
    - change (Z.pos (2 ^ 64)) with (2 ^ 64). lia. }
  intros r w2 ->. by apply wp_ret.
Qed.
End headers.

(** ** What [align] writes *)
Section align_facts.
Context `{Pebble} `{HashText} `{JsonText} `{Rlp}.

Lemma write_singleton_spec ns w :
  wp (write_singleton ns) (λ r w', w_env w' = w_env w ∧ w_chk w' = w_chk w ∧ w_db w' = w_db w ∧
    acks outerVersion (w_hist w') = acks outerVersion (w_hist w) ∧
    (r = Ok tt → acks outerSingleton (w_hist w') = acks outerSingleton (w_hist w) ++ ns)) w.
Proof.
  revert w. induction ns as [|b ns IH]; intros w; cbn [write_singleton].
  { apply wp_ret. split_and!; try done. by rewrite app_nil_r. }
  apply wp_bind. unfold wp at 1. simpl. set (a := w_env w _ _ _). destruct a as [[]|e].
  - eapply wp_mono; [apply IH|]. intros r w' (He & Hc & Hd & Hv & Hs). split_and!; try done.
    + rewrite Hv. simpl. rewrite acks_cons. simpl. by rewrite app_nil_r.
    + intros Hr. rewrite (Hs Hr). simpl. rewrite acks_cons. simpl. by rewrite <- app_assoc.
  - apply wp_ret. split_and!; try done. simpl. rewrite acks_cons. simpl. by rewrite app_nil_r.
Qed.

(** The block file of [hash] was read from S3, and has this timestamp. *)
Definition timestamp_read (cfg : Config) (h : list event) (hash : Hash) (timestamp : Z) : Prop :=
  ∃ f, Ev (res BlockFile) (RS3Block (pretty (ChainID cfg) +:+ "/" +:+ Version cfg +:+ "/" +:+ hash_string hash)) (Ok f) ∈ h ∧
    timestamp = bf_Timestamp f.

Lemma header_timestamp hash w :
  wp (getVersionBlockByHash hash) (λ r w', (∃ ev, w_hist w' = ev :: w_hist w) ∧ ∀ b, r = Ok b →
    timestamp_read (config (w_chk w)) (w_hist w') hash (Timestamp b)) w.
Proof.
  unfold getVersionBlockByHash. apply wp_bind. unfold wp at 1. simpl. apply wp_bind. unfold wp at 1. simpl.
  apply wp_ret. split; [by eexists|]. destruct (w_env w _ _ _) as [f|e] eqn:E; [|done]. intros b [= <-]. exists f.
  split; [by left|done].
Qed.

(** The notices of the canonical blocks from height [s] on, with the timestamps of their
    block files. *)
Definition canonical_run (st : store) (cfg : Config) (h : list event) (s : Z) (ns : list OuterNotice) : Prop :=
  ∀ k n, ns !! k = Some n → ∃ block, GetBlockInfoByNum st (i64 (s + Z.of_nat k)) = Ok block ∧
    ON_Hash n = BI_ID block ∧ ON_BlockNumber n = BI_Height block ∧ ON_IsFork n = BI_IsFork block ∧
    ON_ChainID n = ChainID cfg ∧ timestamp_read cfg h (ON_Hash n) (ON_Timestamp n).

Lemma canonical_run_grow st cfg h new s ns : canonical_run st cfg h s ns → canonical_run st cfg (new ++ h) s ns.
Proof.
  intros Hr k n Hk. destruct (Hr k n Hk) as (block & Hb & Hh & Hn & Hf & Hc & f & Hin & Ht). exists block.
  split_and!; try done. exists f. split; [set_solver|done].
Qed.

Lemma forward_spec last s w : is_u64 s → is_u64 last → last ≠ MaxUint64 → s ≤ last + 1 →
  wp (loopM (2 ^ 64) (forward_step last) s) (λ r w', w_chk w' = w_chk w ∧ w_db w' = w_db w ∧
    acks outerVersion (w_hist w') = acks outerVersion (w_hist w) ∧
    (r = inr (Ok tt) → ∃ ns, acks outerSingleton (w_hist w') = acks outerSingleton (w_hist w) ++ ns ∧
       Z.of_nat (length ns) = last + 1 - s ∧
       canonical_run (cdb_store (w_db w)) (config (w_chk w)) (w_hist w') s ns)) w.
Proof.
  intros Hus Hul Hne Hle.
  set (Inv := λ i w', w_chk w' = w_chk w ∧ w_db w' = w_db w ∧
    acks outerVersion (w_hist w') = acks outerVersion (w_hist w) ∧ s ≤ i ≤ last + 1 ∧
    ∃ ns, acks outerSingleton (w_hist w') = acks outerSingleton (w_hist w) ++ ns ∧
       Z.of_nat (length ns) = i - s ∧ canonical_run (cdb_store (w_db w)) (config (w_chk w)) (w_hist w') s ns).
  eapply wp_mono.
  { apply (wp_loopM _ Inv (λ r w', w_chk w' = w_chk w ∧ w_db w' = w_db w ∧
      acks outerVersion (w_hist w') = acks outerVersion (w_hist w) ∧
      (r = Ok tt → Inv (last + 1) w'))).
    - intros i w1 Hinv. pose proof Hinv as (Hc & Hd & Hv & Hi & ns & Hns & Hlen & Hrun).
      unfold forward_step. destruct (Z.leb_spec i last) as [Hil|Hil].
      2: { apply wp_ret. split_and!; try done. intros _. by replace (last + 1) with i by lia. }
      apply wp_bind. unfold wp at 1. simpl. apply wp_bind. unfold wp at 1. simpl. rewrite Hc, Hd.
      destruct (GetBlockInfoByNum _ (i64 i)) as [block|e] eqn:Eb; [|by apply wp_ret].
      apply wp_bind. eapply wp_mono; [apply wp_and; [apply header_spec|apply header_timestamp]|].
      intros [b|e] w2 ([Hu Hb] & [ev Hev] & Hts).
      2: { apply wp_ret. destruct Hu as [_ -> -> Hu]. by rewrite Hu. }
      specialize (Hts b eq_refl). rewrite Hc in Hts.
      destruct Hu as [_ Hc2 Hd2 Hu]. apply wp_bind. unfold wp at 1. simpl. set (a := w_env w2 _ _ _).
      destruct a as [[]|e]; apply wp_ret; simpl.
      2: { rewrite Hc2, Hd2, acks_cons, Hu. simpl. by rewrite app_nil_r. }
      unfold Inv. rewrite Hc2, Hd2. simpl. rewrite !acks_cons, !Hu. simpl.
      rewrite u64_succ by (unfold is_u64 in *; lia).
      split_and!; [done|done|by rewrite app_nil_r|lia|lia|].
      eexists (ns ++ [_]). rewrite Hns, <- app_assoc. split; [done|].
      rewrite length_app. simpl. split; [lia|].
      intros k n Hk. apply lookup_app_Some in Hk as [Hk|[Hge Hk]].
      { rewrite Hev. by apply (canonical_run_grow _ _ _ [_; ev] s ns). }
      apply list_lookup_singleton_Some in Hk as [Hk0 <-]. exists block.
      replace (s + Z.of_nat k) with i by lia. split_and!; try done.
      destruct Hts as (f & Hf & Ht). exists f. split; [by right|done].
    - unfold Inv. split_and!; try done; try lia. exists []. rewrite app_nil_r. split_and!; [done|simpl; lia|].
      intros k n Hk. done. }
  intros [i|r] w' Hr.
  - destruct Hr as (? & ? & ? & _). by split_and!.
  - destruct Hr as (? & ? & ? & Hr). split_and!; try done. intros [= ->]. apply Hr. done.
Qed.

(** The notices that take the singleton topic from [single] to [version], [h] being the
    history afterwards: none when it already ends in the version's latest block; when its last
    block is canonical, the canonical blocks of all following heights, the last of which
    is the version's latest block if that one is canonical; when its last block is not
    canonical, the drops of its branch and then the blocks of the version's branch, both
    ascending from a common ancestor. *)
Definition alignment (w : World) (h : list event) (version single : OuterNotice) (ns : list OuterNotice) : Prop :=
  ON_Hash version = ON_Hash single ∧ ns = [] ∨
  ON_Hash version ≠ ON_Hash single ∧
  ∃ block, GetBlockInfoByNum (cdb_store (w_db w)) (i64 (ON_BlockNumber single)) = Ok block ∧
    (BI_ID block = ON_Hash single ∧
     Z.of_nat (length ns) = ON_BlockNumber version - ON_BlockNumber single ∧
     canonical_run (cdb_store (w_db w)) (config (w_chk w)) h (ON_BlockNumber single + 1) ns ∧
     (∀ top, GetBlockInfoByNum (cdb_store (w_db w)) (i64 (ON_BlockNumber version)) = Ok top →
        BI_ID top = ON_Hash version → ∃ n, last ns = Some n ∧ ON_Hash n = ON_Hash version) ∨
     BI_ID block ≠ ON_Hash single ∧
     ∃ anc blockA blockB dropBlocks newBlocks,
       BlockHash blockA = ON_Hash version ∧ BlockHash blockB = ON_Hash single ∧
       branch anc dropBlocks blockB ∧ branch anc newBlocks blockA ∧
       ns = notices (config (w_chk w)) dropBlocks newBlocks).

(** A run of canonical blocks up to the version's height ends in its block. *)
Lemma run_ends st cfg h (version single : OuterNotice) block ns :
  GetBlockInfoByNum st (i64 (ON_BlockNumber single)) = Ok block → BI_ID block = ON_Hash single →
  ON_Hash version ≠ ON_Hash single →
  Z.of_nat (length ns) = ON_BlockNumber version - ON_BlockNumber single →
  canonical_run st cfg h (ON_BlockNumber single + 1) ns →
  ∀ top, GetBlockInfoByNum st (i64 (ON_BlockNumber version)) = Ok top → BI_ID top = ON_Hash version →
    ∃ n, last ns = Some n ∧ ON_Hash n = ON_Hash version.
Proof.
  intros Hb Hid Hne Hlen Hrun top Ht Htop. destruct ns as [|n0 ns0] eqn:Ens.
  { simpl in Hlen. replace (ON_BlockNumber version) with (ON_BlockNumber single) in Ht by lia. congruence. }
  rewrite <- Ens in *. destruct (lookup_lt_is_Some_2 ns (pred (length ns))) as [n Hn]; [subst ns; simpl; lia|].
  exists n. rewrite last_lookup. split; [done|]. destruct (Hrun _ n Hn) as (b & Hg & -> & _).
  assert (0 < length ns)%nat by (subst ns; simpl; lia).
  replace (ON_BlockNumber single + 1 + Z.of_nat (pred (length ns))) with (ON_BlockNumber version) in Hg by lia.
  congruence.
Qed.

Lemma align_spec version single w :
  is_u64 (ON_BlockNumber single) → is_u64 (ON_BlockNumber version) → ON_BlockNumber version ≠ MaxUint64 →
  ON_BlockNumber single ≤ ON_BlockNumber version →
  wp (align version single) (λ r w', w_chk w' = w_chk w ∧ w_db w' = w_db w ∧
    acks outerVersion (w_hist w') = acks outerVersion (w_hist w) ∧
    (r = Ok tt → ∃ ns, acks outerSingleton (w_hist w') = acks outerSingleton (w_hist w) ++ ns ∧
       alignment w (w_hist w') version single ns)) w.
Proof.
  intros Hus Huv Hne Hle. unfold align. case_bool_decide as Heq.
  { apply wp_ret. split_and!; try done. intros _. exists []. rewrite app_nil_r. split; [done|]. by left. }
  apply wp_bind. unfold wp at 1. simpl. apply wp_bind. unfold wp at 1. simpl.
  destruct (GetBlockInfoByNum _ (i64 (ON_BlockNumber single))) as [block|e] eqn:Egb; [|by apply wp_ret].
  case_bool_decide as Hcan.
  - apply wp_bind. rewrite u64_succ by (unfold is_u64, MaxUint64 in *; lia).
    eapply wp_mono; [apply forward_spec; try done; try (unfold is_u64, MaxUint64 in *; lia)|].
    intros r w1 (Hc & Hd & Hv & Hr). apply wp_ret. split_and!; try done. intros Hok.
    destruct r as [i|r]; [done|]. subst r. destruct (Hr eq_refl) as (ns & Hns & Hlen & Hrun).
    assert (Z.of_nat (length ns) = ON_BlockNumber version - ON_BlockNumber single) as Hl by lia.
    exists ns. split; [done|]. right. split; [done|]. exists block. split; [exact Egb|]. left. split_and!; try done.
    by eapply run_ends.
  - apply wp_bind. eapply wp_mono; [apply header_spec|]. intros [blockA|e] w1 [[He1 Hc1 Hd1 Ha1] HbA].
    2: { apply wp_ret. by rewrite Hc1, Hd1, Ha1. }
    apply wp_bind. eapply wp_mono; [apply header_spec|]. intros [blockB|e] w2 [[He2 Hc2 Hd2 Ha2] HbB].
    2: { apply wp_ret. by rewrite Hc2, Hd2, Ha2, Hc1, Hd1, Ha1. }
    apply wp_bind. eapply wp_mono; [apply common_ancestor_spec|].
    intros [[[anc la] ra]|e] w3 [[He3 Hc3 Hd3 Ha3] Hbr].
    2: { apply wp_ret. by rewrite Hc3, Hd3, Ha3, Hc2, Hd2, Ha2, Hc1, Hd1, Ha1. }
    destruct (Hbr anc la ra eq_refl) as [Hl Hr3]. apply wp_bind.
    eapply wp_mono; [apply write_singleton_spec|]. intros r w4 (He4 & Hc4 & Hd4 & Hv4 & Hs4).
    destruct r as [[]|e].
    2: { apply wp_ret. split_and!; [congruence..|by rewrite Hv4, Ha3, Ha2, Ha1|done]. }
    eapply wp_mono; [apply write_singleton_spec|]. intros r w5 (He5 & Hc5 & Hd5 & Hv5 & Hs5).
    split_and!; [congruence..|by rewrite Hv5, Hv4, Ha3, Ha2, Ha1|]. intros Hok.
    exists (notices (config (w_chk w)) la ra). split.
    + rewrite (Hs5 Hok), (Hs4 eq_refl), Ha3, Ha2, Ha1. by rewrite <- app_assoc.
    + right. split; [done|]. exists block. split; [exact Egb|]. right. split; [done|]. exists anc, blockA, blockB, la, ra.
      split_and!; [by apply HbA|by apply HbB|exact Hl|exact Hr3|done].
Qed.

(** (C24) A successful alignment writes only to the singleton topic, and writes the notices that
    take it from its last block to the version's latest block: it fast-forwards exactly
    when the topic's last block is canonical in the index, and otherwise drops its
    branch first. *)
Theorem align_writes version single w w' :
  align version single w = (Ok tt, w') →
  is_u64 (ON_BlockNumber single) → is_u64 (ON_BlockNumber version) → ON_BlockNumber version ≠ MaxUint64 →
  ON_BlockNumber single ≤ ON_BlockNumber version →
  acks outerVersion (w_hist w') = acks outerVersion (w_hist w) ∧ w_chk w' = w_chk w ∧ w_db w' = w_db w ∧
  ∃ ns, acks outerSingleton (w_hist w') = acks outerSingleton (w_hist w) ++ ns ∧
        alignment w (w_hist w') version single ns.
Proof.
  intros Hr Hus Huv Hne Hle.
  destruct (wp_run _ _ _ _ _ (align_spec version single w Hus Huv Hne Hle) Hr) as (Hc & Hd & Hv & Hs).
  by split_and!; [| | |apply Hs].
Qed.

(** The common ancestor, when one is returned, is one: both results are branches of
      parent-linked blocks from it up to the two blocks, whatever the block files
      contain, and nothing is published on the way. *)
Theorem common_ancestor_sound localBlock remoteBlock w anc la ra w' :
  GetCommonAncestor localBlock remoteBlock w = (Ok (anc, la, ra), w') →
  branch anc la localBlock ∧ branch anc ra remoteBlock ∧ w_chk w' = w_chk w ∧ w_db w' = w_db w ∧
  ∀ d, acks d (w_hist w') = acks d (w_hist w).
Proof.
  intros Hr. destruct (wp_run _ _ _ _ _ (common_ancestor_spec localBlock remoteBlock w) Hr)
    as ([_ Hc Hd Ha] & Hb). by destruct (Hb anc la ra eq_refl).
Qed.

Lemma header_keeps h : keeps w_chk (getVersionBlockByHash h).
Proof. unfold getVersionBlockByHash, get_config. keeps_tac. Qed.
Hint Resolve header_keeps : keeps.

Lemma write_singleton_keeps ns : keeps w_chk (write_singleton ns).
Proof. induction ns as [|b ns IH]; cbn [write_singleton]; keeps_tac. Qed.
Hint Resolve write_singleton_keeps : keeps.

Lemma align_keeps version single : keeps w_chk (align version single).
Proof.
  unfold align, get_store, get_config, GetCommonAncestor, forward_step, lower_remote, walk_back, get_store, get_config.
  keeps_tac.
Qed.

Lemma fetch_keeps : keeps w_chk fetchLatestOuterSingleBlockNotice.
Proof. unfold fetchLatestOuterSingleBlockNotice, GetLastOuterBlockNotice. keeps_tac. Qed.

Notation flag w := (isOuterSingletonAlign (pub (w_chk w))).

(** [w'] has just completed [align] for the topic's last notice. *)
Definition just_aligned (latest : OuterNotice) (w' : World) : Prop :=
  ∃ w1 w2 single w3 w4, fetchLatestOuterSingleBlockNotice w1 = (Ok (Some single), w2) ∧
    align latest single w3 = (Ok tt, w4) ∧ w_hist w3 = w_hist w2 ∧ w_hist w' = w_hist w4.

Lemma align_again_spec latest w :
  wp (align_again latest) (λ r w', flag w' = flag w ∨ r = Some true ∧ just_aligned latest w') w.
Proof.
  unfold align_again. apply wp_bind. unfold wp at 1. pose proof (fetch_keeps w) as Hk.
  destruct (fetchLatestOuterSingleBlockNotice w) as [[[single|]|e] w2] eqn:Ef; simpl in Hk |- *;
    [|left; simpl; by rewrite Hk..].
  apply wp_bind. unfold wp at 1. simpl. set (w3 := mkWorld _ _ _ _). apply wp_bind. unfold wp at 1.
  pose proof (align_keeps latest single w3) as Hkeep.
  destruct (align latest single w3) as [[[]|e] w4] eqn:Ea; simpl in Hkeep |- *.
  - right. split; [done|]. by exists w, w2, single, w3, w4.
  - left. simpl. rewrite Hkeep. simpl. by rewrite Hk.
Qed.

(** (C26) The flag "aligned" is raised only after an alignment: a call that raises it found
      an empty singleton topic, or has just completed [align] for the last notice it
      read back from the topic; and a call that fails leaves it down. *)
Theorem aligned_flag_sound w r w' :
  AlignOuterSingleton w = (r, w') → flag w = false → flag w' = true →
  r = Some true ∧ is_Some (etcdLock (pub (w_chk w))) ∧
  ∃ latest, latestOuter (pub (w_chk w)) = Some latest ∧
    ((∃ w1, fetchLatestOuterSingleBlockNotice w = (Ok None, w1) ∧ w_hist w' = w_hist w1) ∨
     just_aligned latest w').
Proof.
  intros Hr Hal Hup. revert Hal. refine (wp_run _ (λ r w', flag w' = true → flag w = false → _) w _ _ _ Hr Hup).
  clear Hr Hup r w'. unfold AlignOuterSingleton. apply wp_bind. unfold wp at 1, get_pub, asks. simpl.
  destruct (etcdLock _) as [l|]; [|apply wp_ret; congruence].
  destruct (flag w) eqn:Hfl; [by apply wp_ret|].
  destruct (latestOuter _) as [latest|]; [|apply wp_ret; congruence].
  assert (∀ wf, flag wf = false → wp (align_again latest) (λ r w', flag w' = true → false = false →
    r = Some true ∧ is_Some (Some l) ∧ ∃ latest0, Some latest = Some latest0 ∧
      ((∃ w1, fetchLatestOuterSingleBlockNotice w = (Ok None, w1) ∧ w_hist w' = w_hist w1) ∨
       just_aligned latest0 w')) wf) as Hagain.
  { intros wf Hf. eapply wp_mono; [apply align_again_spec|]. intros r w' [Hs|[-> Hj]]; [congruence|]. eauto 8. }
  apply wp_bind. destruct (cachedOuterSingle _) as [n|].
  { apply wp_ret. destruct (_ <? _); [apply wp_ret; congruence|by apply Hagain]. }
  apply wp_bind. unfold wp at 1. pose proof (fetch_keeps w) as Hk.
  destruct (fetchLatestOuterSingleBlockNotice w) as [[[n|]|e] w1] eqn:Ek; simpl in Hk |- *.
  - apply wp_bind. unfold wp at 1. simpl. apply wp_ret. destruct (_ <? _).
    + apply wp_ret. simpl. rewrite Hk. congruence.
    + apply Hagain. simpl. by rewrite Hk.
  - apply wp_bind. unfold wp at 1. simpl. apply wp_ret. apply wp_ret. intros _ _. split_and!; [done|done|].
    exists latest. split; [done|]. left. by exists w1.
  - apply wp_ret. apply wp_ret. rewrite Hk. congruence.
Qed.
End align_facts.

(** ** Witnesses

    Version chain 1, 12, 13; the singleton topic ends in block 3 of the branch 1, 2, 3. *)
Module AlignDemo.
#[local] Existing Instances mem_pebble demo_rlp demo_hash_text demo_json_text.
Definition blk (n h p : Z) : BlockContext := mkBlockContext n (hashOf h) (hashOf p) 0.
Definition cfg : Config := Sim.versionConfig "v1".
Definition file (b : BlockContext) : string * BlockFile :=
  ("7/v1/" +:+ hash_string (BlockHash b), mkBlockFile (BlockNumber b) (ParentHash b) (Timestamp b)).
Definition blocks : list BlockContext := [blk 1 1 9; blk 2 2 1; blk 3 3 2; blk 2 12 1; blk 3 13 12].
Definition single0 : OuterNotice := block_notice cfg false (blk 3 3 2).
Definition version0 : OuterNotice := block_notice cfg false (blk 3 13 12).
(** The broker refuses the [refused]-th write. *)
Definition sim (refused : nat) : Sim.sim :=
  Sim.mkSim ∅ (list_to_map (file <$> blocks))
    (λ h _ _, negb (Nat.eqb (PublishDemo.writes h) refused))
    (λ h, Some (default single0 (last (acks outerSingleton h)))) [] (λ _, Fail (ErrMsg "down"))
    (λ _, 0) (λ _ _, true).
Definition db : ConsistencyDB :=
  (WriteBlockInfos (mkCDB mem_empty None) [blk 1 1 9; blk 2 12 1; blk 3 13 12] [10; 20; 30]).2.
Definition leader : PubState :=
  mkPub (Some version0) (Some (mkEtcdLock "7/outer_block_notice" "7/version" "v1" 20 1 true)) false None
    (mkNoticeID zero_hash 0 0) ∅.
Definition w (refused : nat) : World :=
  mkWorld (Sim.sim_env (sim refused)) (mkChecker cfg leader Sim.rep0 Sim.scan0) db [].

(** The headers the block files stand for. *)
Definition hdr (h : Hash) : option BlockContext :=
  (λ f, mkBlockContext (bf_Height f) h (bf_ParentID f) (bf_Timestamp f)) <$>
    (list_to_map (file <$> blocks) : gmap string BlockFile) !! ("7/v1/" +:+ hash_string h).

Lemma hdr_in h b : hdr h = Some b → BlockHash b = h ∧
  ∃ x, x ∈ blocks ∧ BlockNumber b = BlockNumber x ∧ ParentHash b = ParentHash x.
Proof.
  unfold hdr. intros Hb. apply fmap_Some in Hb as (f & Hf & ->). split; [done|].
  apply elem_of_list_to_map_2 in Hf. apply list_elem_of_fmap in Hf as (x & [= _ ->] & Hx).
  by exists x.
Qed.
End AlignDemo.

(** A singleton topic of two messages, the last one [single0]. *)
Module TopicDemo.
#[local] Existing Instances mem_pebble demo_rlp demo_hash_text demo_json_text.
Import AlignDemo.
Definition msgs : list outer_msg :=
  [mkOuterMsg "NewBlock" (Ok (block_notice cfg false (blk 2 2 1))); mkOuterMsg "NewBlock" (Ok single0)].
Definition e : env := λ A h r,
  match r in req A return A with
  | RKafkaOffset _ last => Ok (if last then 2 else 0)
  | RKafkaLag d => Ok (2 - default 0 (position d h))
  | RKafkaRead d => match msgs !! Z.to_nat (default 0 (position d h)) with
                    | Some m => Ok m | None => Fail (ErrMsg "EOF") end
  | r => Sim.sim_env Sim.quiet _ h r
  end.
#[refine] Definition topics : Topics e := {| log := λ _ _, msgs; base := λ _ _, 0 |}.
Proof.
  - done.
  - done.
  - intros h d. by split.
  - by intros h d n [= <-].
  - by intros h d n [= <-].
  - intros h d n p [= <-] Hp. by rewrite Hp.
  - intros h d m p Hm Hp _. unfold e in Hm. rewrite Hp in Hm.
    change (match msgs !! Z.to_nat p with Some m => Ok m | None => Fail (ErrMsg "EOF") end = Ok m) in Hm.
    destruct (msgs !! Z.to_nat p) as [m'|]; [|discriminate Hm]. by injection Hm as ->.
Defined.
Definition w : World := mkWorld e (w_chk (AlignDemo.w 9)) (w_db (AlignDemo.w 9)) [].
End TopicDemo.

Section align_witnesses.
#[local] Existing Instances mem_pebble demo_rlp demo_hash_text demo_json_text.
Import AlignDemo.

Lemma align_writes_witness :
  (align version0 single0 (w 9)).1 = Ok tt ∧
  ∃ ns, acks outerSingleton (w_hist (align version0 single0 (w 9)).2) = [] ++ ns ∧
    alignment (w 9) (w_hist (align version0 single0 (w 9)).2) version0 single0 ns.
Proof.
  split; [vm_compute; reflexivity|].
  destruct (align_writes version0 single0 (w 9) (align version0 single0 (w 9)).2
    (run_eq _ _ ltac:(vm_compute; reflexivity))) as (_ & _ & _ & ns & Hns & Ha).
  - split; [done|unfold MaxUint64; simpl; lia].
  - split; [done|unfold MaxUint64; simpl; lia].
  - discriminate.
  - reflexivity.
  - exists ns. split; [exact Hns|exact Ha].
Defined.

Lemma common_ancestor_sound_witness :
  ∃ anc la ra, branch anc la (blk 3 3 2) ∧ branch anc ra (blk 3 13 12) ∧ la ≠ [] ∧ ra ≠ [].
Proof.
  destruct (GetCommonAncestor (blk 3 3 2) (blk 3 13 12) (w 9)) as [r w'] eqn:Er.
  assert (r = Ok (blk 1 1 9, [blk 2 2 1; blk 3 3 2], [blk 2 12 1; blk 3 13 12])) as Hr.
  { change r with (r, w').1. rewrite <- Er. vm_compute. reflexivity. }
  rewrite Hr in Er. destruct (common_ancestor_sound _ _ _ _ _ _ _ Er) as (Hl & Hrr & _).
  eexists _, _, _. split; [exact Hl|]. split; [exact Hrr|]. split; discriminate.
Defined.

Lemma common_ancestor_found_witness :
  (GetCommonAncestor (blk 3 3 2) (blk 3 13 12) (w 9)).1 =
    Ok (blk 1 1 9, [blk 2 2 1; blk 3 3 2], [blk 2 12 1; blk 3 13 12]).
Proof.
  apply (common_ancestor_found hdr) with (L := [blk 3 3 2; blk 2 2 1]) (R := [blk 3 13 12; blk 2 12 1]).
  - intros h b Hb. destruct (hdr_in h b Hb) as (Hh & x & Hin & Hn & _). split; [done|]. rewrite Hn.
    unfold is_u64, MaxUint64. unfold blocks in Hin. set_unfold. destruct_or? Hin; subst x; simpl; lia.
  - intros h b p Hb Hp. destruct (hdr_in h b Hb) as (_ & x & Hin & Hn & Hpar). rewrite Hpar in Hp. rewrite Hn.
    unfold blocks in Hin. set_unfold.
    destruct_or? Hin; subst x; vm_compute in Hp; first [discriminate Hp|injection Hp as <-; reflexivity].
  - intros h hist. change (Sim.sim_env (sim 9) (res BlockFile) hist
      (RS3Block ("7/v1/" +:+ hash_string h)) = match hdr h with
        | Some b => Ok (mkBlockFile (BlockNumber b) (ParentHash b) (Timestamp b))
        | None => Fail (ErrMsg "NoSuchKey") end).
    cbn [Sim.sim_env]. unfold hdr. change (Sim.s_blocks (sim 9)) with
      (list_to_map (file <$> blocks) : gmap string BlockFile).
    destruct (_ !! _) as [[n p t]|]; reflexivity.
  - vm_compute. reflexivity.
  - vm_compute. reflexivity.
  - simpl. split; [done|]. exists (blk 2 2 1). split; [vm_compute; reflexivity|]. split; [done|].
    exists (blk 1 1 9). split; [vm_compute; reflexivity|done].
  - simpl. split; [done|]. exists (blk 2 12 1). split; [vm_compute; reflexivity|]. split; [done|].
    exists (blk 1 1 9). split; [vm_compute; reflexivity|done].
  - simpl. lia.
  - intros x y Hx Hy. set_unfold. destruct_or? Hx; destruct_or? Hy; subst; discriminate.
Defined.

Lemma aligned_flag_sound_witness :
  (AlignOuterSingleton (w 9)).1 = Some true ∧ ∃ latest, latestOuter (pub (w_chk (w 9))) = Some latest.
Proof.
  assert (isOuterSingletonAlign (pub (w_chk (AlignOuterSingleton (w 9)).2)) = true) as Ht
    by (vm_compute; reflexivity).
  destruct (AlignOuterSingleton (w 9)) as [r w'] eqn:Er.
  destruct (aligned_flag_sound (w 9) r w' Er eq_refl Ht) as (Hr & _ & latest & Hl & _).
  split; [exact Hr|exists latest; exact Hl].
Defined.

Lemma last_notice_is_last_witness :
  ∃ w', GetLastOuterBlockNotice outerSingleton TopicDemo.w = (Ok (Some single0), w') ∧
    ∃ h, last (log (Topics := TopicDemo.topics) h outerSingleton) = Some (mkOuterMsg "NewBlock" (Ok single0)).
Proof.
  eexists. assert (Hr : GetLastOuterBlockNotice outerSingleton TopicDemo.w =
    (Ok (Some single0), (GetLastOuterBlockNotice outerSingleton TopicDemo.w).2))
    by (apply run_eq; vm_compute; reflexivity).
  split; [exact Hr|].
  destruct (last_notice_is_last (w := TopicDemo.w) TopicDemo.topics outerSingleton (Some single0) _ Hr) as (h & _ & _ & Hn).
  exists h. apply Hn. reflexivity.
Defined.

(** A failed alignment can lose drops: the drops are written from the fork point
      upwards, so after the second one is refused the topic ends in the first one,
      and the retry, which starts from there, never publishes the drop of the
      abandoned tip. *)
Theorem align_retry_loses_drop :
  (AlignOuterSingleton (w 1)).1 = Some false ∧
  (AlignOuterSingleton (AlignOuterSingleton (w 1)).2).1 = Some true ∧
  acks outerSingleton (w_hist (AlignOuterSingleton (AlignOuterSingleton (w 1)).2).2) =
    [block_notice cfg true (blk 2 2 1); block_notice cfg true (blk 2 2 1);
     block_notice cfg false (blk 2 12 1); block_notice cfg false (blk 3 13 12)].
Proof. vm_compute. by split_and!. Qed.
End align_witnesses.
