(* ===== verification/ForkScan.v ===== *)
(** * ForkScan: the continuous fork scan (check/fork_scan.go, check/fork_scan_batch.go)

    The durable cursor under the processing lock, the observation schedule, the
    batches of the scan worker and the window scan.

    The scan worker runs beside the processing goroutine.  Wherever the worker does
    not hold the lock, other steps may run: the definitions of the worker take a
    family [other] of steps and run, at each such point, the one the scheduler (the
    environment) picks. *)
From S2P Require Import Prelude Types Config Json Store ScanState BlockIndex Checker Validation Publish.

Definition forkScanBatchSize : nat := 128.
Definition forkScanBatchBudget : Z := 10 * Second.

(** ** The schedule *)
Definition zero_schedule : forkScanSchedule := mkSchedule 0 None 0 0 false.

Definition schedule_rewind (height generation : Z) (s : forkScanSchedule) : forkScanSchedule :=
  if height =? 0 then mkSchedule generation None 0 0 false
  else mkSchedule generation (sc_observedAt s) (Z.min (sc_observedHeight s) (u64 (height - 1)))
         (Z.min (sc_matureHeight s) (u64 (height - 1))) (sc_mature s).

Definition schedule_observe (now interval height generation : Z) (s : forkScanSchedule) : forkScanSchedule :=
  let s := if negb (sc_generation s =? generation) then mkSchedule generation None 0 0 false else s in
  match sc_observedAt s with
  | None => mkSchedule (sc_generation s) (Some now) height (sc_matureHeight s) (sc_mature s)
  | Some t =>
      if interval <=? now - t
      then mkSchedule (sc_generation s) (Some now) height (sc_observedHeight s) true
      else s
  end.

(** ** Batches *)
Definition batch_stale (b : forkScanBatch) (height : Z) : bool :=
  match b_rewind b with None => false | Some r => r <=? height end.

Definition fence (height : Z) (b : forkScanBatch) : forkScanBatch :=
  match b_rewind b with
  | Some old => if height <? old then mkBatch (b_start b) (b_upper b) (b_generation b) (Some height) else b
  | None => mkBatch (b_start b) (b_upper b) (b_generation b) (Some height)
  end.

(** [rewindForkScan], on the scanner's part of the checker. *)
Definition rewind_scan (height generation : Z) (r : ScanRun) : ScanRun :=
  let r := set_schedule (schedule_rewind height generation (forkSchedule r)) r in
  match forkBatch r with
  | Some p => set_batch (Some p) (alter (fence height) p (batchHeap r)) r
  | None => r
  end.

(** The continuity of a notification with a saved head. *)
Definition forkNoticeExtends (notice : BlockChangeNotification) (head_ : ForkScanAnchor) : bool :=
  match head (NewBlocks notice) with
  | None => false
  | Some first =>
      match head (DropBlocks notice), last (DropBlocks notice) with
      | Some dropped0, Some tail =>
          (BlockNumber tail =? A_Height head_) && bool_decide (BlockHash tail = A_Hash head_) &&
          (BlockNumber dropped0 =? BlockNumber first) && bool_decide (ParentHash dropped0 = ParentHash first)
      | _, _ =>
          (A_Height head_ <? MaxUint64) && (BlockNumber first =? u64 (A_Height head_ + 1)) &&
          bool_decide (ParentHash first = A_Hash head_)
      end
  end.

(** [isAlreadyProcessed], on the publication state. *)
Definition already_processed (p : PubState) (notice : BlockChangeNotification) : bool :=
  match latestOuter p, last (NewBlocks notice) with
  | Some latest, Some tail => bool_decide (BlockHash tail = ON_Hash latest)
  | _, _ => false
  end.

Section ops.
Context `{Pebble} `{HashText} `{JsonText} `{Rlp}.

Definition rewindForkScan (height generation : Z) : M unit := modify_scan (rewind_scan height generation).

Definition saveForkScan (state : ForkScanState) : M (res unit) :=
  let* cfg := get_config in
  let* e := with_db (λ db, let '(e, st) := SaveForkScan (cdb_store db) (ChainID cfg) (Version cfg) state in
                           (e, mkCDB st (cdb_latest db))) in
  match e with
  | Some e => ret (Fail e)
  | None => modify_scan (set_forkState (Some state)) ;;; ret (Ok tt)
  end.

Definition loadForkScan : M (res unit) :=
  let* cfg := get_config in
  if negb (ContinuousForkScan cfg) then ret (Ok tt)
  else
    let* st := get_store in
    match LoadForkScan st (ChainID cfg) (Version cfg) with
    | Fail e => ret (Fail (ErrWrap "load continuous fork scan" e))
    | Ok state =>
        modify_scan (λ r, set_schedule zero_schedule (set_recovery None false (set_aligned false
          (set_forkState state r)))) ;;;
        let* p := get_pub in
        let* e := match latestOuter p with
          | None => ret (Ok tt)
          | Some n =>
              if negb (ON_ChainID n =? ChainID cfg) then
                ret (Fail (ErrMsg "fork scan: invalid startup outer anchor"))
              else if ON_IsFork n then modify_scan (set_recovery None true) ;;; ret (Ok tt)
              else modify_scan (set_recovery (Some (mkAnchor (ON_BlockNumber n) (ON_Hash n))) false) ;;; ret (Ok tt)
          end in
        match e with
        | Fail e => ret (Fail e)
        | Ok _ =>
            let* r := get_scan in
            match state with
            | None => ret (Ok tt)
            | Some s =>
                if bool_decide (Pending s = None) && bool_decide (forkRecoveryAnchor r = Some (Published s)) then
                  match GetCanonicalHashByNum st (A_Height (Published s)) with
                  | Fail e => ret (Fail (ErrWrap "validate restored fork scan anchor" e))
                  | Ok hash =>
                      modify_scan (set_aligned (bool_decide (hash = Some (A_Hash (Published s))))) ;;; ret (Ok tt)
                  end
                else ret (Ok tt)
            end
        end
    end.

Definition initializeForkScan (anchor : ForkScanAnchor) (position : option ForkScanPosition) : M (res unit) :=
  if A_Height anchor =? MaxUint64 then
    ret (Fail (ErrMsg "fork scan baseline height overflows next_scan_height"))
  else
    let* r := get_scan in
    let generation := match forkState r with
                      | None => Ok 1
                      | Some s => if Generation s =? MaxUint64
                                  then Fail (ErrMsg "fork scan generation overflow")
                                  else Ok (u64 (Generation s + 1))
                      end in
    match generation with
    | Fail e => ret (Fail e)
    | Ok generation =>
        let* e := saveForkScan (mkScanState 1 anchor (u64 (A_Height anchor + 1)) generation anchor position None) in
        match e with
        | Fail e => ret (Fail e)
        | Ok _ => rewindForkScan 0 generation ;;; ret (Ok tt)
        end
    end.

(** The blocks of a replayed notification, checked against the canonical index. *)
Fixpoint replay_blocks (st : store) (prev : option BlockContext) (blocks : list BlockContext) : res unit :=
  match blocks with
  | [] => Ok tt
  | block :: blocks =>
      let! _ := match prev with
                | None => Ok tt
                | Some prev =>
                    if (BlockNumber prev =? MaxUint64) || negb (BlockNumber block =? u64 (BlockNumber prev + 1))
                       || negb (bool_decide (ParentHash block = BlockHash prev))
                    then Fail (ErrMsg "non-contiguous published replay") else Ok tt
                end in
      let! hash := GetCanonicalHashByNum st (BlockNumber block) in
      check! bool_decide (hash = Some (BlockHash block))
        else ErrMsg "published replay has no matching canonical" in
      replay_blocks st (Some block) blocks
  end.

(** The cursor a replay leads to. *)
Definition replay_state (notice : BlockChangeNotification) (first : BlockContext) (anchor : ForkScanAnchor)
    (s : ForkScanState) : res ForkScanState :=
  if bool_decide (DropBlocks notice = []) then Ok (set_Published anchor (set_Pending None s))
  else if Generation s =? MaxUint64 then Fail (ErrMsg "fork scan generation overflow")
  else Ok (set_Published anchor (set_Pending None
         (set_NextHeight (Z.min (NextHeight s) (BlockNumber first)) (set_Generation (u64 (Generation s + 1)) s)))).

(** [s] is the cursor, [first] and [tail] the ends of the new blocks: the caller has
    checked that both exist. *)
Definition reconcileForkScanReplay (notice : BlockChangeNotification) (first tail : BlockContext)
    (s : ForkScanState) (anchor : ForkScanAnchor) : M (res unit) :=
  let* st := get_store in
  let plan :=
    check! bool_decide (Pending s = None) || bool_decide (Pending s = Some anchor)
      else ErrMsg "replayed head does not match pending canonical update" in
    let! _ := replay_blocks st None (NewBlocks notice) in
    check! bool_decide (mkAnchor (BlockNumber tail) (BlockHash tail) = anchor)
      else ErrMsg "published replay tail does not match recovery anchor" in
    replay_state notice first anchor s in
  match plan with
  | Fail e => ret (Fail e)
  | Ok next =>
      let* e := saveForkScan next in
      match e with
      | Fail e => ret (Fail e)
      | Ok _ =>
          when (negb (bool_decide (DropBlocks notice = []))) (rewindForkScan (BlockNumber first) (Generation next)) ;;;
          ret (Ok tt)
      end
  end.

(** Whether an offset gap and a changed anchor show that the message history was lost. *)
Definition recovery_reset (s : ForkScanState) (anchor : ForkScanAnchor) (position : option ForkScanPosition) : bool :=
  match Position s, position with
  | Some old, Some position =>
      bool_decide (P_Topic old = P_Topic position) && (P_Partition old =? P_Partition position) &&
      (P_Offset old <? P_Offset position) && (1 <? i64 (P_Offset position - P_Offset old)) &&
      negb (bool_decide (Published s = anchor))
  | _, _ => false
  end.

Definition prepareForkScan (notice : BlockChangeNotification) (position : option ForkScanPosition) : M bool :=
  let* cfg := get_config in
  let* r := get_scan in
  let* p := get_pub in
  if negb (ContinuousForkScan cfg) || forkAligned r then ret true
  else match forkRecoveryAnchor r with
  | None => ret true
  | Some anchor =>
      match forkState r, head (NewBlocks notice), last (NewBlocks notice) with
      | None, _, _ => let* e := initializeForkScan anchor None in ret (is_ok e)
      | Some s, Some first, Some tail =>
          if negb (bool_decide (Published s = anchor)) && already_processed p notice &&
             forkNoticeExtends notice (Published s) then
            let* e := reconcileForkScanReplay notice first tail s anchor in ret (is_ok e)
          else if recovery_reset s anchor position then
            let* e := initializeForkScan anchor None in ret (is_ok e)
          else ret true
      | Some s, _, _ =>
          if recovery_reset s anchor position then
            let* e := initializeForkScan anchor None in ret (is_ok e)
          else ret true
      end
  end.

Definition finishForkScan (position : option ForkScanPosition) : M bool :=
  let* cfg := get_config in
  let* r := get_scan in
  let* p := get_pub in
  if negb (ContinuousForkScan cfg) then ret true
  else match latestOuter p with
  | None => ret false
  | Some n =>
      if negb (ON_ChainID n =? ChainID cfg) then ret false
      else if ON_IsFork n then ret (forkRecoveryDrop r)
      else
        let anchor := mkAnchor (ON_BlockNumber n) (ON_Hash n) in
        let* e := match forkState r with
          | None => initializeForkScan anchor position
          | Some s =>
              let next := set_Published anchor s in
              let next := if bool_decide (Pending next = Some anchor) then set_Pending None next else next in
              let next := match position with Some _ => set_Position position next | None => next end in
              saveForkScan next
          end in
        match e with
        | Fail _ => ret false
        | Ok _ => modify_scan (λ r, set_recovery (forkRecoveryAnchor r) false (set_aligned true r)) ;;; ret true
        end
  end.

(** ** The observation *)
Definition observeForkScan : M (Z * Z * bool) :=
  let* cfg := get_config in
  let* r := get_scan in
  match forkState r with
  | Some s =>
      if negb (forkAligned r) || bool_decide (is_Some (Pending s)) then ret (0, 0, false)
      else
        let* now := call RNow in
        let sched := schedule_observe now (dur_mul (ForkScanInterval cfg) Second) (A_Height (Published s))
                       (Generation s) (forkSchedule r) in
        modify_scan (set_schedule sched) ;;;
        ret (sc_matureHeight sched, Generation s, sc_mature sched && (NextHeight s <=? sc_matureHeight sched))
  | None => ret (0, 0, false)
  end.

(** ** Batches under the lock *)
Definition get_batch (p : nat) : M (option forkScanBatch) := asks (λ w, batchHeap (scan (w_chk w)) !! p).

(** The result is the address of the new batch. *)
Definition beginForkScanBatch (upper generation : Z) : M (res nat) :=
  let* r := get_scan in
  match forkState r with
  | Some s =>
      if negb (forkAligned r) || bool_decide (is_Some (Pending s)) then ret (Fail ErrScanNoCanonical)
      else if bool_decide (is_Some (forkBatch r)) then ret (Fail (ErrMsg "fork scan batch already active"))
      else
        let sched := forkSchedule r in
        let upper := if generation =? Generation s then Ok upper
                     else if negb (sc_generation sched =? Generation s) || negb (sc_mature sched)
                          then Fail ErrScanStale
                          else Ok (Z.min upper (sc_matureHeight sched)) in
        match upper with
        | Fail e => ret (Fail e)
        | Ok upper =>
            let b := mkBatch (NextHeight s) (Z.min upper (A_Height (Published s))) (Generation s) None in
            modify_scan (λ r, set_batch (Some (length (batchHeap r))) (batchHeap r ++ [b]) r) ;;;
            ret (Ok (length (batchHeap r)))
        end
  | None => ret (Fail ErrScanNoCanonical)
  end.

Definition readScanCanonical (height : Z) : M (res Hash) :=
  let* st := get_store in
  ret (match GetCanonicalHashByNum st height with
       | Fail e => Fail e
       | Ok None => Fail ErrScanNoCanonical
       | Ok (Some hash) => Ok hash
       end).

Definition verifyForkScanBatchHeight (p : nat) (height : Z) (hash : Hash) : M (res unit) :=
  let* r := get_scan in
  let* b := get_batch p in
  match forkState r, b with
  | Some s, Some b =>
      if negb (bool_decide (forkBatch r = Some p)) || negb (forkAligned r) ||
         negb (NextHeight s =? b_start b) || batch_stale b height then ret (Fail ErrScanStale)
      else if negb (Generation s =? b_generation b) && bool_decide (b_rewind b = None) then ret (Fail ErrScanStale)
      else if A_Height (Published s) <? height then ret (Fail ErrScanNoCanonical)
      else
        let* current := readScanCanonical height in
        ret (let! current := current in
             check! bool_decide (current = hash) else ErrScanStale in Ok tt)
  | _, _ => ret (Fail ErrScanStale)
  end.

(** The verified prefix of the checked heights: the next height and the error that
    ended it. *)
Fixpoint verify_checked (p : nat) (checked : list (Z * Hash)) (nextHeight : Z) : M (Z * option err) :=
  match checked with
  | [] => ret (nextHeight, None)
  | (height, hash) :: checked =>
      let* e := verifyForkScanBatchHeight p height hash in
      match e with
      | Fail e => ret (nextHeight, Some e)
      | Ok _ => verify_checked p checked (u64 (height + 1))
      end
  end.

Definition finishForkScanBatch (c : context) (p : nat) (checked : list (Z * Hash)) : M (bool * option err) :=
  let* b := get_batch p in
  let* r := get_scan in
  match b with
  | None => ret (true, Some ErrScanStale)         (* [p] is always allocated *)
  | Some b =>
      let* cerr := ctxErr c in
      let* result := match cerr with
        | Some e => ret (true, Some e)
        | None =>
            let* (nextHeight, verifyErr) := verify_checked p checked (b_start b) in
            match (if b_start b <? nextHeight then forkState r else None) with
            | Some s =>
                let* e := saveForkScan (set_NextHeight nextHeight s) in
                match e with
                | Fail e => ret (true, Some e)
                | Ok _ => ret (nextHeight <=? b_upper b, verifyErr)
                end
            | None => ret (nextHeight <=? b_upper b, verifyErr)
            end
        end in
      modify_scan (λ r, set_batch None (batchHeap r) r) ;;;
      ret result
  end.

(** ** The worker, with steps of other goroutines where it does not hold the lock *)
Context (other : nat → M unit).

Definition unlocked : M unit := let* n := call RSchedule in other n.

(** The writes of a plan: each under the lock, after [verify], without retries. *)
Fixpoint scan_puts (plan : list forkRewrite) (verify : M (res unit)) : M (res unit) :=
  match plan with
  | [] => ret (Ok tt)
  | rw :: plan =>
      unlocked ;;;
      let* v := verify in
      match v with
      | Fail e => ret (Fail e)
      | Ok _ =>
          let* e := rewriteValidationAtKeyCtx (rw_key rw) (rw_validation rw) in
          match e with
          | Fail e => ret (Fail e)
          | Ok _ => scan_puts plan verify
          end
      end
  end.

Definition executeForkScanPlan (c : context) (height : Z) (hash : Hash) (verify : M (res unit)) : M (res unit) :=
  unlocked ;;;
  let* plan := planForkRewritesCtx c (mkBlockContext height hash zero_hash 0) None in
  match plan with
  | Fail e => ret (Fail e)
  | Ok plan =>
      let* e := scan_puts plan verify in
      match e with
      | Fail e => ret (Fail e)
      | Ok _ => let* cerr := ctxErr c in ret (match cerr with Some e => Fail e | None => Ok tt end)
      end
  end.

Definition scanContinuousBatchHeight (c : context) (p : nat) (height : Z) : M (res Hash) :=
  unlocked ;;;
  let* hash := readScanCanonical height in
  match hash with
  | Fail e => ret (Fail (ErrWrap ("height " +:+ pretty height) e))
  | Ok hash =>
      let* e := executeForkScanPlan c height hash
        (let* cerr := ctxErr c in
         match cerr with
         | Some e => ret (Fail e)
         | None => verifyForkScanBatchHeight p height hash
         end) in
      ret (let! _ := e in Ok hash)
  end.

(** The loop over the heights of a batch; [fuel] counts down the batch size.  The
    result is the checked heights and the error that ended the loop. *)
Fixpoint batch_loop (fuel : nat) (c : context) (p : nat) (deadline height : Z) (checked : list (Z * Hash))
    : M (list (Z * Hash) * option err) :=
  match fuel with
  | O => ret (checked, None)
  | S fuel =>
      let* b := get_batch p in
      match b with
      | None => ret (checked, Some ErrScanStale)
      | Some b =>
          if b_upper b <? height then ret (checked, None)
          else
            let* cerr := ctxErr c in
            match cerr with
            | Some e => ret (checked, Some e)
            | None =>
                unlocked ;;;
                let* b := get_batch p in
                if match b with Some b => batch_stale b height | None => true end
                then ret (checked, Some ErrScanStale)
                else
                  let* expired := (if bool_decide (checked = []) then ret false
                                   else let* now := call RNow in ret (negb (now <? deadline))) in
                  if expired then ret (checked, None)
                  else if height =? MaxUint64
                  then ret (checked, Some (ErrMsg "fork scan next height overflow"))
                  else
                    let* hash := scanContinuousBatchHeight c p height in
                    match hash with
                    | Fail e => ret (checked, Some e)
                    | Ok hash => batch_loop fuel c p deadline (u64 (height + 1)) (checked ++ [(height, hash)])
                    end
            end
      end
  end.

Definition scanContinuousBatch (c : context) (upper generation : Z) : M (bool * option err) :=
  unlocked ;;;
  let* p := beginForkScanBatch upper generation in
  match p with
  | Fail e => ret (true, Some e)
  | Ok p =>
      let* now := call RNow in
      let* b := get_batch p in
      let start := match b with Some b => b_start b | None => 0 end in
      let* (checked, e) := batch_loop forkScanBatchSize c p (now + forkScanBatchBudget) start [] in
      unlocked ;;;
      let* (more, commitErr) := finishForkScanBatch c p checked in
      ret (more, err_join e commitErr)
  end.

(** ** The window scan *)
Definition canonicalForScan (height : Z) : M (res Hash) :=
  let* p := get_pub in
  match latestOuter p with
  | None => ret (Fail ErrScanNoCanonical)
  | Some n => if ON_BlockNumber n <? height then ret (Fail ErrScanNoCanonical) else readScanCanonical height
  end.

Definition verifyWindow (c : context) (height : Z) (hash : Hash) : M (res unit) :=
  let* cerr := ctxErr c in
  match cerr with
  | Some e => ret (Fail e)
  | None =>
      let* current := canonicalForScan height in
      ret (let! current := current in
           check! bool_decide (current = hash) else ErrScanStale in Ok tt)
  end.

Definition scanForkBlocksAtHeight (c : context) (height : Z) : M (res unit) :=
  unlocked ;;;
  let* hash := canonicalForScan height in
  match hash with
  | Fail e => ret (Fail (ErrWrap ("height " +:+ pretty height) e))
  | Ok hash =>
      let* e := executeForkScanPlan c height hash (verifyWindow c height hash) in
      match e with
      | Fail e => ret (Fail e)
      | Ok _ => unlocked ;;; verifyWindow c height hash
      end
  end.

(** The counter an error moves; stale scans and cancellations are not counted. *)
Inductive scan_report := NotCounted | ForkScanSkips | ForkScanErrors.
Definition reportForkScanError (e : err) : scan_report :=
  if err_is e ErrScanStale || err_is e ErrCanceled then NotCounted
  else if err_is e ErrScanNoCanonical then ForkScanSkips else ForkScanErrors.

(** One height of the window; the loop ends at the tip or when it is cancelled. *)
Definition window_step (c : context) (tip h : Z) : M (Z + unit) :=
  let* cerr := ctxErr c in
  match cerr with
  | Some _ => ret (inr tt)
  | None =>
      let* _ := scanForkBlocksAtHeight c h in
      ret (if h =? tip then inr tt else inl (u64 (h + 1)))
  end.

Definition window_start (lookback tip : Z) : Z :=
  if lookback <=? tip then u64 (tip - lookback + 1) else 0.

Definition scanRecentForkBlocks (c : context) : M unit :=
  let* cfg := get_config in
  if (ForkScanLookback cfg <=? 0) || (ForkScanInterval cfg <=? 0) then ret tt
  else
    unlocked ;;;
    let* p := get_pub in
    match latestOuter p with
    | None => ret tt
    | Some latest =>
        let tip := ON_BlockNumber latest in
        let* _ := loopM (2 ^ 64) (window_step c tip) (window_start (u64 (ForkScanLookback cfg)) tip) in
        ret tt
    end.

(** One turn of the worker of continuous mode: how long to wait for the next one. *)
Definition continuous_turn (c : context) : M Z :=
  let* cfg := get_config in
  let interval := dur_mul (ForkScanInterval cfg) Second in
  unlocked ;;;
  let* (upper, generation, ready) := observeForkScan in
  if ready then
    let* (more, e) := scanContinuousBatch c upper generation in
    ret (match e with
         | Some e => if err_is e ErrScanStale then Millisecond else interval
         | None => if more then Millisecond else interval
         end)
  else ret interval.

(** The worker's loops: windows by a ticker, or continuous scans by a timer whose first
    expiry is immediate; each ends when the context is cancelled.  The bound [2 ^ 64]
    on the turns stands for none. *)
Definition window_turn (c : context) (interval : Z) : unit → M (unit + unit) := λ _,
  let* fired := call (RTick interval) in
  if (fired : bool) then scanRecentForkBlocks c ;;; ret (inl tt) else ret (inr tt).
Definition timer_turn (c : context) (wait : Z) : M (Z + unit) :=
  let* fired := call (RSelect c wait) in
  if (fired : bool) then let* wait := continuous_turn c in ret (inl wait) else ret (inr tt).
Definition runForkScan (c : context) : M unit :=
  let* cfg := get_config in
  if (ForkScanInterval cfg <=? 0) || (ForkScanLookback cfg =? 0) then ret tt
  else if ContinuousForkScan cfg then let* _ := loopM (2 ^ 64) (timer_turn c) 0 in ret tt
  else let* _ := loopM (2 ^ 64) (window_turn c (dur_mul (ForkScanInterval cfg) Second)) tt in ret tt.
End ops.

(** ** The schedule matures a height only after a full interval *)
Inductive schedule_op :=
  | Observe (now height generation : Z)
  | Rewind (height generation : Z).

Definition schedule_apply (interval : Z) (s : forkScanSchedule) (op : schedule_op) : forkScanSchedule :=
  match op with
  | Observe now height generation => schedule_observe now interval height generation s
  | Rewind height generation => schedule_rewind height generation s
  end.

(** The generation of the last operation. *)
Definition generation_of (ops : list schedule_op) : Z :=
  match ops with
  | [] => 0
  | Observe _ _ generation :: _ | Rewind _ generation :: _ => generation
  end.

(** [h] is covered by the observation at [t] of the operations [ops], newest first:
    it was not above the published height observed then, no later rewind reached down to
    it, and no later observation was made in another generation than the one before
    it -- a generation that did not come with a rewind discards what was observed. *)
Fixpoint observed_at (t h : Z) (ops : list schedule_op) : Prop :=
  match ops with
  | [] => False
  | Observe now height generation :: ops =>
      now = t ∧ h ≤ height ∨ generation = generation_of ops ∧ observed_at t h ops
  | Rewind height _ :: ops => h < height ∧ observed_at t h ops
  end.

(** The last observation of the operations. *)
Fixpoint last_now (ops : list schedule_op) : option Z :=
  match ops with
  | [] => None
  | Observe now _ _ :: _ => Some now
  | Rewind _ _ :: ops => last_now ops
  end.

Definition op_wf (op : schedule_op) : Prop :=
  match op with Observe _ h _ => is_u64 h | Rewind h _ => is_u64 h end.

(** The schedule after the operations, oldest last. *)
Definition schedule_run (interval : Z) (ops : list schedule_op) : forkScanSchedule :=
  foldr (λ op s, schedule_apply interval s op) zero_schedule ops.

Definition now_le (now : Z) (op : schedule_op) : Prop :=
  match op with Observe t _ _ => t ≤ now | Rewind _ _ => True end.

(** The clock of the observations does not run backwards. *)
Fixpoint nows_sorted (ops : list schedule_op) : Prop :=
  match ops with
  | [] => True
  | Observe now _ _ :: ops => Forall (now_le now) ops ∧ nows_sorted ops
  | Rewind _ _ :: ops => nows_sorted ops
  end.

Lemma last_now_le t ops now : Forall (now_le now) ops → last_now ops = Some t → t ≤ now.
Proof.
  intros Hf. induction Hf as [|[n h g|h g] ops Hn Hf IH]; simpl; [done| |done].
  intros [= <-]. done.
Qed.

(** What the schedule [s] knows about the operations [ops] that led to it. *)
Record schedule_ok (interval : Z) (ops : list schedule_op) (s : forkScanSchedule) : Prop := {
  so_observed64 : is_u64 (sc_observedHeight s);
  so_mature64 : is_u64 (sc_matureHeight s);
  so_generation : sc_generation s = generation_of ops;
  so_observed t : sc_observedAt s = Some t →
    (∀ now, Forall (now_le now) ops → t ≤ now) ∧ ∀ h, 0 ≤ h ≤ sc_observedHeight s → observed_at t h ops;
  so_mature : sc_mature s = true → ∃ t t1, last_now ops = Some t1 ∧ t + interval ≤ t1 ∧
    ∀ h, 0 ≤ h ≤ sc_matureHeight s → observed_at t h ops;
  so_immature : sc_mature s = false → sc_matureHeight s = 0
}.

(** A schedule that knows nothing yet. *)
Lemma schedule_ok_zero interval ops : schedule_ok interval ops (mkSchedule (generation_of ops) None 0 0 false).
Proof. split; simpl; unfold is_u64, MaxUint64; by try lia. Qed.

(** The first observation after everything was discarded. *)
Lemma schedule_ok_first interval ops now height g : is_u64 height → Forall (now_le now) ops →
  schedule_ok interval (Observe now height g :: ops) (mkSchedule g (Some now) height 0 false).
Proof.
  intros Hh Hnow. split; simpl; try done.
  intros t [= <-]. split; [intros n Hn; by apply Forall_cons in Hn as [? _]|]. intros h Hr. left. split; [done|lia].
Qed.

(** A maturity that was reached before stays after another observation of the generation. *)
Lemma mature_later interval ops now height s : schedule_ok interval ops s → Forall (now_le now) ops →
  sc_mature s = true → let ops' := Observe now height (generation_of ops) :: ops in
  ∃ t t1, last_now ops' = Some t1 ∧ t + interval ≤ t1 ∧ ∀ h, 0 ≤ h ≤ sc_matureHeight s → observed_at t h ops'.
Proof.
  intros Hs Hnow Hm. destruct (so_mature _ _ _ Hs Hm) as (t & t1 & Hl & Hle & Hall). exists t, now.
  pose proof (last_now_le _ _ _ Hnow Hl). split_and!; [done|lia|]. intros h Hh. right. split; [done|by apply Hall].
Qed.

Lemma schedule_ok_observe interval ops now height g s : is_u64 height → Forall (now_le now) ops →
  schedule_ok interval ops s →
  schedule_ok interval (Observe now height g :: ops) (schedule_observe now interval height g s).
Proof.
  intros Hop Hnow Hs. unfold schedule_observe. pose proof (so_generation _ _ _ Hs) as Hg.
  destruct (Z.eqb_spec (sc_generation s) g) as [Heq|Hne]; cbn [negb]; [|by apply schedule_ok_first].
  assert (g = generation_of ops) as -> by congruence. pose proof (mature_later interval ops now height s Hs Hnow) as Hmat.
  assert (∀ t, Some now = Some t → let ops' := Observe now height (generation_of ops) :: ops in
    (∀ n, Forall (now_le n) ops' → t ≤ n) ∧ ∀ h, 0 ≤ h ≤ height → observed_at t h ops') as Hnew.
  { intros t [= <-]. split; [intros n Hn; by apply Forall_cons in Hn as [? _]|]. intros h Hh. left. split; [done|lia]. }
  destruct Hs as [Ho1 Hm1 _ Hobs1 _ Hz1].
  destruct (sc_observedAt s) as [t|] eqn:Et; [destruct (Z.leb_spec interval (now - t))|].
  - split; [done|done|done|exact Hnew| |done]. intros _. simpl. exists t, now. split_and!; [done|lia|].
    intros h Hh. right. split; [done|by apply (Hobs1 t)].
  - split; [done|done|done| |exact Hmat|done]. rewrite Et. intros t' [= <-].
    destruct (Hobs1 t eq_refl) as [Hle Hall]. split.
    + intros n Hn. apply Forall_cons in Hn as [Hn _]. simpl in Hn. specialize (Hle now Hnow). lia.
    + intros h Hh. right. split; [done|by apply Hall].
  - by split.
Qed.

Lemma schedule_ok_rewind interval ops height g s : is_u64 height → schedule_ok interval ops s →
  schedule_ok interval (Rewind height g :: ops) (schedule_rewind height g s).
Proof.
  intros Hop [Ho Hm Hg Hobs Hmat Hz]. unfold schedule_rewind.
  destruct (Z.eqb_spec height 0) as [->|Hne]; [apply (schedule_ok_zero interval (Rewind 0 g :: ops))|].
  assert (u64 (height - 1) = height - 1) as -> by (apply u64_id; unfold is_u64 in *; lia).
  unfold is_u64 in *. split; simpl; unfold is_u64; try lia.
  - intros t Ht. destruct (Hobs t Ht) as [Hle Hall]. split.
    + intros n Hn. apply Forall_cons in Hn as [_ Hn]. by apply Hle.
    + intros h Hh. split; [lia|]. apply Hall. lia.
  - intros Hmt. destruct (Hmat Hmt) as (t0 & t1 & Hl & Hle & Hall). exists t0, t1. split_and!; [done|done|].
    intros h Hh. split; [lia|]. apply Hall. lia.
  - intros Hmf. rewrite Hz by done. lia.
Qed.

Lemma schedule_inv interval ops : Forall op_wf ops → nows_sorted ops →
  schedule_ok interval ops (schedule_run interval ops).
Proof.
  induction ops as [|[now height g|height g] ops IH]; [intros _ _; apply (schedule_ok_zero interval [])| |];
    intros [Hop Hwf]%Forall_cons Hsort; cbn [schedule_run foldr schedule_apply]; fold (schedule_run interval ops).
  - destruct Hsort as [Hnow Hsort]. by apply schedule_ok_observe, IH.
  - by apply schedule_ok_rewind, IH.
Qed.

(** (C36) Maturity takes a full interval in one generation.  Whatever the order of observations
    and rewinds, when the schedule reports a mature height, every height up to it was
    covered by an observation at least one interval before the latest one; no rewind since
    then reached down to it, and no observation since then was made in a new generation
    that had not come with a rewind. *)
Theorem schedule_matures_after_interval interval ops h :
  Forall op_wf ops → nows_sorted ops →
  sc_mature (schedule_run interval ops) = true → 0 ≤ h ≤ sc_matureHeight (schedule_run interval ops) →
  ∃ t t1, last_now ops = Some t1 ∧ t + interval ≤ t1 ∧ observed_at t h ops.
Proof.
  intros Hwf Hs Hm Hh. destruct (so_mature _ _ _ (schedule_inv interval ops Hwf Hs) Hm) as (t & t1 & Hl & Hle & Hall).
  exists t, t1. auto.
Qed.

(** The observation of generation 1 does not count after generation 3 came without a rewind. *)
Lemma schedule_matures_after_interval_witness :
  (∃ t t1, last_now [Observe 130 9 2; Rewind 5 2; Observe 60 8 1; Observe 0 7 1] = Some t1 ∧ t + 60 ≤ t1 ∧
    observed_at t 0 [Observe 130 9 2; Rewind 5 2; Observe 60 8 1; Observe 0 7 1]) ∧
  sc_mature (schedule_run 60 [Observe 130 9 3; Observe 0 7 1]) = false.
Proof.
  split; [|reflexivity].
  apply (schedule_matures_after_interval 60 [Observe 130 9 2; Rewind 5 2; Observe 60 8 1; Observe 0 7 1] 0).
  - repeat constructor; unfold MaxUint64; simpl; lia.
  - repeat constructor; simpl; lia.
  - vm_compute. reflexivity.
  - vm_compute. split; [discriminate|discriminate].
Defined.

(** ** What the locked operations change *)
Section facts.
Context `{HashTextLaws} `{!JsonText} `{!JsonTextLaws} `{PebbleLaws} `{!Rlp}.

Notation scan_of w := (scan (w_chk w)).

(** The stored cursor of this checker's scope. *)
Definition stored (w : World) : option string :=
  kv_view (cdb_store (w_db w)) !! forkScanKey (ChainID (config (w_chk w))) (Version (config (w_chk w))).

(** The rest of the world: environment, configuration, publication, replicas, and
    the block indexes. *)
Record frame (w w' : World) : Prop := {
  f_env : w_env w' = w_env w;
  f_config : config (w_chk w') = config (w_chk w);
  f_pub : pub (w_chk w') = pub (w_chk w);
  f_rep : rep (w_chk w') = rep (w_chk w);
  f_idx : ∀ h, idx (cdb_store (w_db w')) h = idx (cdb_store (w_db w)) h
}.
Lemma frame_refl w : frame w w.
Proof. by split. Qed.
Lemma frame_trans w1 w2 w3 : frame w1 w2 → frame w2 w3 → frame w1 w3.
Proof. intros [] []. split; congruence. Qed.

(** Batches keep their range, and fences only come down. *)
Definition batch_le (b b' : forkScanBatch) : Prop :=
  b_start b' = b_start b ∧ b_upper b' = b_upper b ∧ b_generation b' = b_generation b ∧
  ∀ h, batch_stale b h = true → batch_stale b' h = true.
Definition heap_le (l l' : list forkScanBatch) : Prop :=
  ∀ p b, l !! p = Some b → ∃ b', l' !! p = Some b' ∧ batch_le b b'.

Lemma heap_le_refl l : heap_le l l.
Proof. intros p b Hb. exists b. by split_and!. Qed.
Lemma batch_le_trans b1 b2 b3 : batch_le b1 b2 → batch_le b2 b3 → batch_le b1 b3.
Proof. intros (?&?&?&?) (?&?&?&?). split_and!; try congruence. auto. Qed.
Lemma heap_le_trans l1 l2 l3 : heap_le l1 l2 → heap_le l2 l3 → heap_le l1 l3.
Proof.
  intros Ha Hb p b Hp. destruct (Ha p b Hp) as (b2 & Hp2 & Hle). destruct (Hb p b2 Hp2) as (b3 & Hp3 & Hle').
  exists b3. split; [done|]. by eapply batch_le_trans.
Qed.

Lemma fence_le h b : batch_le b (fence h b) ∧ ∀ h', h ≤ h' → batch_stale (fence h b) h' = true.
Proof.
  unfold fence, batch_le, batch_stale. destruct (b_rewind b) as [r|] eqn:Er; [destruct (Z.ltb_spec h r)|];
    simpl; rewrite ?Er; split_and!; try done; intros; lia.
Qed.

Lemma rewind_scan_spec h g r :
  forkState (rewind_scan h g r) = forkState r ∧ forkAligned (rewind_scan h g r) = forkAligned r ∧
  forkRecoveryAnchor (rewind_scan h g r) = forkRecoveryAnchor r ∧
  forkRecoveryDrop (rewind_scan h g r) = forkRecoveryDrop r ∧
  forkBatch (rewind_scan h g r) = forkBatch r ∧ heap_le (batchHeap r) (batchHeap (rewind_scan h g r)) ∧
  ∀ p b, forkBatch r = Some p → batchHeap r !! p = Some b → ∃ b',
    batchHeap (rewind_scan h g r) !! p = Some b' ∧ batch_le b b' ∧
    ∀ h', h ≤ h' → batch_stale b' h' = true.
Proof.
  unfold rewind_scan. destruct r as [s ra rd al sc [q|] heap]; simpl.
  - split_and!; try done.
    + intros p b Hb. destruct (decide (p = q)) as [->|Hne].
      * exists (fence h b). rewrite list_lookup_alter_eq, Hb. split; [done|]. apply fence_le.
      * exists b. rewrite list_lookup_alter_ne by done. split; [done|]. by split_and!.
    + intros p b [= <-] Hb. exists (fence h b). rewrite list_lookup_alter_eq, Hb.
      split; [done|]. apply fence_le.
  - split_and!; try done. apply heap_le_refl.
Qed.

Lemma save_spec s w :
  wp (saveForkScan s) (λ r w', frame w w' ∧ w_hist w' = w_hist w ∧
    match r with
    | Ok _ => validate s = None ∧ scan_of w' = set_forkState (Some s) (scan_of w) ∧
              stored w' = Some (json_print (state_json s))
    | Fail _ => scan_of w' = scan_of w ∧ stored w' = stored w
    end) w.
Proof.
  unfold saveForkScan. apply wp_bind. unfold wp at 1. simpl. apply wp_bind. unfold wp at 1, with_db.
  destruct (SaveForkScan _ _ _ s) as [e st] eqn:Es. simpl. destruct e as [e|].
  - apply wp_ret. apply SaveForkScan_err in Es. unfold stored, idx. simpl. rewrite Es.
    split_and!; try done. split; try done. intros h. unfold idx. simpl. by rewrite Es.
  - apply SaveForkScan_ok in Es as [Hv Hview]. apply wp_bind. unfold wp at 1. simpl. apply wp_ret.
    unfold stored. simpl. rewrite Hview, lookup_insert_eq. split_and!; try done. split; try done.
    intros h. unfold idx. simpl. rewrite Hview, lookup_insert_ne; [done|].
    intros Hk. by apply eq_sym, numKey_forkScanKey in Hk.
Qed.

(** How a locked operation of the processing goroutine may change the cursor: not at
    all; a new start; or the same baseline with a cursor that is not higher.  The
    memory and the store change together. *)
Definition cursor_change (w w' : World) : Prop :=
  (forkState (scan_of w') = forkState (scan_of w) ∧ stored w' = stored w) ∨
  ∃ s', forkState (scan_of w') = Some s' ∧ stored w' = Some (json_print (state_json s')) ∧
    validate s' = None ∧
    (NextHeight s' = A_Height (Baseline s') + 1 ∨
     ∃ s, forkState (scan_of w) = Some s ∧ Baseline s' = Baseline s ∧ NextHeight s' ≤ NextHeight s).

(** The cursor's fields stay in the range of their types. *)
Definition cursor_wf (w : World) : Prop := ∀ s, forkState (scan_of w) = Some s → state_wf s.

Record locked (w w' : World) : Prop := {
  lk_frame : frame w w';
  lk_hist : w_hist w' = w_hist w;
  lk_heap : heap_le (batchHeap (scan_of w)) (batchHeap (scan_of w'));
  lk_batch : forkBatch (scan_of w') = forkBatch (scan_of w);
  lk_cursor : cursor_change w w';
  lk_wf : cursor_wf w → cursor_wf w'
}.

Lemma locked_refl w : locked w w.
Proof. split; [apply frame_refl|done|apply heap_le_refl|done|by left|done]. Qed.

(** A save of [s'], then possibly a rewind or a change of the run-time flags. *)
Lemma locked_save w w1 w' s' :
  frame w w1 → w_hist w1 = w_hist w → validate s' = None →
  scan_of w1 = set_forkState (Some s') (scan_of w) → stored w1 = Some (json_print (state_json s')) →
  (cursor_wf w → state_wf s') →
  (NextHeight s' = A_Height (Baseline s') + 1 ∨
   ∃ s, forkState (scan_of w) = Some s ∧ Baseline s' = Baseline s ∧ NextHeight s' ≤ NextHeight s) →
  frame w1 w' → w_hist w' = w_hist w1 → forkState (scan_of w') = forkState (scan_of w1) →
  forkBatch (scan_of w') = forkBatch (scan_of w1) →
  heap_le (batchHeap (scan_of w1)) (batchHeap (scan_of w')) → stored w' = stored w1 →
  locked w w'.
Proof.
  intros Hf Hh Hv Hs Hst Hwf Hc Hf' Hh' Hs' Hb' Hp' Hst'. split.
  - by eapply frame_trans.
  - congruence.
  - by rewrite Hs in Hp'.
  - by rewrite Hb', Hs.
  - right. exists s'. rewrite Hs', Hs, Hst'. by split_and!.
  - intros Hw s Hss. rewrite Hs', Hs in Hss. injection Hss as <-. by apply Hwf.
Qed.

Lemma state_wf_next s : state_wf s → is_u64 (NextHeight s) ∧ is_u64 (Generation s).
Proof. unfold state_wf. tauto. Qed.

Lemma initialize_spec anchor position w :
  anchor_wf anchor → (∀ p, position = Some p → position_wf p) →
  wp (initializeForkScan anchor position) (λ r w', locked w w' ∧
    (r = Ok tt → ∃ s, forkState (scan_of w') = Some s ∧ Baseline s = anchor ∧ Published s = anchor)) w.
Proof.
  intros Ha Hp. unfold initializeForkScan. destruct (Z.eqb_spec (A_Height anchor) MaxUint64) as [Hm|Hm].
  { apply wp_ret. by split; [apply locked_refl|]. }
  apply wp_bind. unfold wp at 1. simpl.
  destruct (match forkState (scan_of w) with None => _ | Some s => _ end) as [g|e] eqn:Eg.
  2: { apply wp_ret. by split; [apply locked_refl|]. }
  assert (is_u64 g) as Hg.
  { destruct (forkState (scan_of w)) as [s|]; [|injection Eg as <-; unfold is_u64, MaxUint64; lia].
    destruct (Generation s =? MaxUint64); [done|]. injection Eg as <-. apply u64_range. }
  assert (u64 (A_Height anchor + 1) = A_Height anchor + 1) as Hu by (by apply u64_succ).
  apply wp_bind. eapply wp_mono; [apply save_spec|]. intros [[]|e] w1 (Hf & Hh & Hr).
  - destruct Hr as (Hv & Hs & Hst). apply wp_bind. unfold wp at 1. simpl. apply wp_ret.
    destruct (rewind_scan_spec 0 g (scan_of w1)) as (Hs1 & _ & _ & _ & Hb1 & Hh1 & _). split.
    + eapply (locked_save w w1); try done.
      * intros _. unfold state_wf, anchor_wf, is_u64, MaxUint64, MaxInt64 in *. simpl. rewrite Hu.
        split_and!; try lia; [done|by intros ?].
      * left. simpl. lia.

    + intros _. eexists. simpl. rewrite Hs1, Hs. by split_and!.
  - apply wp_ret. destruct Hr as [Hs Hst]. split; [|done]. split; try done.
    + rewrite Hs. apply heap_le_refl.
    + by rewrite Hs.
    + left. by rewrite Hs.
    + unfold cursor_wf. by rewrite Hs.
Qed.

Lemma locked_unchanged w w1 : frame w w1 → w_hist w1 = w_hist w → scan_of w1 = scan_of w → stored w1 = stored w →
  locked w w1.
Proof.
  intros Hf Hh Hs Hst. split; try done.
  - rewrite Hs. apply heap_le_refl.
  - by rewrite Hs.
  - left. by rewrite Hs.
  - unfold cursor_wf. by rewrite Hs.
Qed.

Lemma replay_state_spec notice first anchor s next : replay_state notice first anchor s = Ok next →
  state_wf s → anchor_wf anchor → is_u64 (BlockNumber first) →
  state_wf next ∧ Baseline next = Baseline s ∧ NextHeight next ≤ NextHeight s.
Proof.
  unfold replay_state. intros Hr (Hf & Hb & Hn & Hg & Hp & Hpos & Hpend) Ha Hfi.
  pose proof (u64_range (Generation s + 1)) as Hu.
  case_bool_decide; [|destruct (Generation s =? MaxUint64); [done|]]; injection Hr as <-;
    unfold state_wf, anchor_wf, is_u64 in *; simpl; split_and!; try done; try lia; by intros ?.
Qed.

Lemma reconcile_spec notice first tail s anchor w :
  forkState (scan_of w) = Some s → cursor_wf w → anchor_wf anchor → is_u64 (BlockNumber first) →
  wp (reconcileForkScanReplay notice first tail s anchor) (λ r w', locked w w') w.
Proof.
  intros Hs Hwf Ha Hfi. unfold reconcileForkScanReplay. apply wp_bind. unfold wp at 1. simpl.
  match goal with |- wp (match ?p with _ => _ end) _ _ => destruct p as [next|e] eqn:Ep end;
    [|apply wp_ret, locked_refl]. res_inv. apply replay_state_spec in Ep as (Hwfn & Hbn & Hnn); [|by apply Hwf|done..].
  apply wp_bind. eapply wp_mono; [apply save_spec|]. intros [[]|e] w1 (Hf & Hh & Hr).
  - destruct Hr as (Hv & Hs1 & Hst). apply wp_bind.
    assert (∀ w', frame w1 w' → w_hist w' = w_hist w1 → forkState (scan_of w') = forkState (scan_of w1) →
      forkBatch (scan_of w') = forkBatch (scan_of w1) →
      heap_le (batchHeap (scan_of w1)) (batchHeap (scan_of w')) → stored w' = stored w1 → locked w w') as Hl.
    { intros w'. apply (locked_save w w1 w' next); try done. right. by exists s. }
    destruct (negb _); unfold wp at 1; simpl; apply wp_ret; apply Hl; try done.
    + simpl. apply rewind_scan_spec.
    + simpl. apply rewind_scan_spec.
    + simpl. apply rewind_scan_spec.
    + apply heap_le_refl.
  - apply wp_ret. destruct Hr. by apply locked_unchanged.
Qed.

(** Inputs in range: the positions of the reader, the new blocks, the latest notice. *)
Definition position_ok (position : option ForkScanPosition) : Prop :=
  ∀ p, position = Some p → position_wf p.
Definition recovery_ok (w : World) : Prop :=
  ∀ a, forkRecoveryAnchor (scan_of w) = Some a → anchor_wf a.
Definition latest_ok (w : World) : Prop :=
  ∀ n, latestOuter (pub (w_chk w)) = Some n → is_u64 (ON_BlockNumber n).

Lemma prepare_spec notice position w :
  cursor_wf w → recovery_ok w → blocks_wf (NewBlocks notice) →
  wp (prepareForkScan notice position) (λ r w', locked w w') w.
Proof.
  intros Hwf Hrec Hbl. unfold prepareForkScan. apply wp_bind. unfold wp at 1. simpl.
  apply wp_bind. unfold wp at 1. simpl. apply wp_bind. unfold wp at 1. simpl.
  destruct (negb _ || _); [apply wp_ret, locked_refl|].
  destruct (forkRecoveryAnchor (scan_of w)) as [anchor|] eqn:Ea; [|apply wp_ret, locked_refl].
  assert (anchor_wf anchor) as Haw by (by apply Hrec).
  assert (∀ w, wp (let* e := initializeForkScan anchor None in ret (is_ok e)) (λ _ w', locked w w') w) as Hinit.
  { intros w0. apply wp_bind. eapply wp_mono; [by apply initialize_spec|]. intros r w1 [Hl _]. by apply wp_ret. }
  destruct (forkState (scan_of w)) as [s|] eqn:Es; [|apply Hinit].
  destruct (head (NewBlocks notice)) as [first|] eqn:Eh.
  2: { destruct (recovery_reset s anchor position); [apply Hinit|apply wp_ret, locked_refl]. }
  destruct (last (NewBlocks notice)) as [tail|].
  2: { destruct (recovery_reset s anchor position); [apply Hinit|apply wp_ret, locked_refl]. }
  destruct (_ && _ && _).
  - apply wp_bind. eapply wp_mono; [apply reconcile_spec; try done|].
    + destruct (NewBlocks notice); [done|]. injection Eh as ->. by apply Forall_cons in Hbl as [? _].
    + intros r w1 Hl. by apply wp_ret.
  - destruct (recovery_reset s anchor position); [apply Hinit|apply wp_ret, locked_refl].
Qed.

Lemma finish_spec position w :
  cursor_wf w → latest_ok w → position_ok position →
  wp (finishForkScan position) (λ r w', locked w w') w.
Proof.
  intros Hwf Hlat Hpos. unfold finishForkScan. do 3 (apply wp_bind; unfold wp at 1; simpl).
  destruct (negb _); [apply wp_ret, locked_refl|].
  destruct (latestOuter (pub (w_chk w))) as [n|] eqn:En; [|apply wp_ret, locked_refl].
  destruct (negb _); [apply wp_ret, locked_refl|]. destruct (ON_IsFork n); [apply wp_ret, locked_refl|].
  set (anchor := mkAnchor _ _). assert (anchor_wf anchor) as Ha by (by apply Hlat).
  apply wp_bind. apply (wp_mono _ (λ r w', locked w w')).
  - destruct (forkState (scan_of w)) as [s|] eqn:Es.
    + set (next1 := if bool_decide _ then _ else _). set (next := match position with Some _ => _ | None => _ end).
      assert (Baseline next = Baseline s ∧ NextHeight next = NextHeight s ∧ state_wf next) as (Hb & Hn & Hw).
      { destruct (Hwf s Es) as (Hf & Hb & Hn & Hg & Hp & Hps & Hpend). unfold next, next1, state_wf.
        destruct position as [p|], (bool_decide _); simpl; split_and!; try done; try lia;
          first [by intros ?|intros ? [= <-]; by apply Hpos]. }
      eapply wp_mono; [apply save_spec|]. intros [[]|e] w1 (Hf & Hh & Hr).
      * destruct Hr as (Hv & Hs1 & Hst). eapply (locked_save w w1 w1 next); try done.
        -- right. exists s. split_and!; [done|done|lia].
        -- apply heap_le_refl.
      * destruct Hr. by apply locked_unchanged.
    + eapply wp_mono; [by apply initialize_spec|]. by intros r w1 [Hl _].
  - intros [[]|e] w1 Hl; [|by apply wp_ret]. apply wp_bind. unfold wp at 1. simpl. apply wp_ret.
    destruct Hl as [Hf Hh Hp Hb Hc Hw]. split; try done. by destruct Hf.
Qed.

(** ** Batches *)

(** A checked height is still good: the batch is the active one and starts at the
    cursor, no reorg reached down to the height since the batch began, the height is
    published, and its canonical hash is the one that was scanned. *)
Definition verified (w : World) (p : nat) (x : Z * Hash) : Prop :=
  ∃ s b, forkState (scan_of w) = Some s ∧ batchHeap (scan_of w) !! p = Some b ∧
    forkBatch (scan_of w) = Some p ∧ NextHeight s = b_start b ∧ batch_stale b x.1 = false ∧
    x.1 ≤ A_Height (Published s) ∧ canon (cdb_store (w_db w)) x.1 = Some x.2.

Lemma read_canonical_spec h w :
  wp (readScanCanonical h) (λ r w', w' = w ∧ ∀ x, r = Ok x → canon (cdb_store (w_db w)) h = Some x) w.
Proof.
  unfold readScanCanonical. apply wp_bind. unfold wp at 1. simpl. apply wp_ret. split; [done|].
  intros x Hx. destruct (GetCanonicalHashByNum _ h) as [[y|]|e] eqn:Eg; [|done..].
  injection Hx as ->. by apply GetCanonicalHashByNum_ok in Eg as [? _].
Qed.

Lemma verify_spec p h hash w :
  wp (verifyForkScanBatchHeight p h hash) (λ r w', w' = w ∧ (r = Ok tt → verified w p (h, hash))) w.
Proof.
  unfold verifyForkScanBatchHeight. do 2 (apply wp_bind; unfold wp at 1; simpl).
  destruct (forkState (scan_of w)) as [s|] eqn:Es; [|by apply wp_ret].
  destruct (batchHeap (scan_of w) !! p) as [b|] eqn:Eb; [|by apply wp_ret].
  destruct (bool_decide_reflect (forkBatch (scan_of w) = Some p)) as [Hp|]; [|by apply wp_ret]. simpl.
  destruct (forkAligned (scan_of w)); [|by apply wp_ret]. simpl.
  destruct (Z.eqb_spec (NextHeight s) (b_start b)) as [Hn|]; [|by apply wp_ret]. simpl.
  destruct (batch_stale b h) eqn:Est; [by apply wp_ret|].
  destruct (negb _ && _); [by apply wp_ret|].
  destruct (Z.ltb_spec (A_Height (Published s)) h) as [|Hpub]; [by apply wp_ret|].
  apply wp_bind. eapply wp_mono; [apply read_canonical_spec|]. intros r w' [-> Hr]. apply wp_ret.
  split; [done|]. intros Hok. destruct r as [x|]; [|done]. simpl in Hok.
  destruct (bool_decide_reflect (x = hash)) as [->|]; [|done].
  exists s, b. split_and!; try done. by apply Hr.
Qed.

(** The verified prefix has [k] heights. *)
Definition prefix_next (start : Z) (checked : list (Z * Hash)) (k : nat) : Z :=
  match k with O => start | S k => match checked !! k with Some x => u64 (x.1 + 1) | None => start end end.

Lemma verify_checked_spec p checked : ∀ start w,
  wp (verify_checked p checked start) (λ r w', w' = w ∧ ∃ k, (k ≤ length checked)%nat ∧
    Forall (verified w p) (take k checked) ∧ r.1 = prefix_next start checked k ∧
    (r.2 = None → k = length checked)) w.
Proof.
  induction checked as [|[h hash] checked IH]; intros start w; cbn [verify_checked].
  { apply wp_ret. split; [done|]. exists O. by split_and!. }
  apply wp_bind. eapply wp_mono; [apply verify_spec|]. intros [[]|e] w1 [-> Hv].
  - eapply wp_mono; [apply IH|]. intros r w' (-> & k & Hk & Hf & Hr & Hn). split; [done|].
    exists (S k). split_and!; [simpl; lia|constructor; [by apply Hv|done]| |intros Hnn; simpl; by rewrite Hn].
    rewrite Hr. destruct k as [|k]; [done|]. simpl.
    destruct (lookup_lt_is_Some_2 checked k ltac:(lia)) as [x ->]. done.
  - apply wp_ret. split; [done|]. exists O. split_and!; try done. simpl. lia.
Qed.

Lemma finish_batch_spec c p checked w :
  wp (finishForkScanBatch c p checked) (λ r w', frame w w' ∧
    forkBatch (scan_of w') = (if batchHeap (scan_of w) !! p then None else forkBatch (scan_of w)) ∧
    batchHeap (scan_of w') = batchHeap (scan_of w) ∧
    ((forkState (scan_of w') = forkState (scan_of w) ∧ stored w' = stored w) ∨
     ∃ k s b h hash, checked !! k = Some (h, hash) ∧ Forall (verified w p) (take (S k) checked) ∧
       forkState (scan_of w) = Some s ∧ batchHeap (scan_of w) !! p = Some b ∧ b_start b < u64 (h + 1) ∧
       forkState (scan_of w') = Some (set_NextHeight (u64 (h + 1)) s) ∧
       stored w' = Some (json_print (state_json (set_NextHeight (u64 (h + 1)) s))) ∧
       validate (set_NextHeight (u64 (h + 1)) s) = None)) w.
Proof.
  unfold finishForkScanBatch. do 2 (apply wp_bind; unfold wp at 1; simpl).
  destruct (batchHeap (scan_of w) !! p) as [b|] eqn:Eb.
  2: { apply wp_ret. split_and!; try done. by left. }
  apply wp_bind. apply (wp_mono _ (λ r w', frame w w' ∧ scan_of w' = scan_of w ∧ w_db w' = w_db w)).
  { destruct c; [apply wp_ret|]; (split; [by split|done]). }
  intros cerr w1 (Hf1 & Hs1 & Hd1). assert (stored w1 = stored w) as Hst1.
  { unfold stored. by rewrite Hd1, (f_config _ _ Hf1). }
  apply wp_bind. apply (wp_mono _ (λ r w', frame w w' ∧ batchHeap (scan_of w') = batchHeap (scan_of w) ∧
    ((forkState (scan_of w') = forkState (scan_of w) ∧ stored w' = stored w) ∨
     ∃ k s b h hash, checked !! k = Some (h, hash) ∧ Forall (verified w p) (take (S k) checked) ∧
       forkState (scan_of w) = Some s ∧ batchHeap (scan_of w) !! p = Some b ∧ b_start b < u64 (h + 1) ∧
       forkState (scan_of w') = Some (set_NextHeight (u64 (h + 1)) s) ∧
       stored w' = Some (json_print (state_json (set_NextHeight (u64 (h + 1)) s))) ∧
       validate (set_NextHeight (u64 (h + 1)) s) = None))).
  2: { intros r w2 (Hf2 & Hh2 & Hc2). apply wp_bind. unfold wp at 1. simpl. apply wp_ret.
       split; [destruct Hf2; by split|]. split; [done|]. rewrite Eb in Hc2. split; [exact Hh2|exact Hc2]. }
  destruct cerr as [e|]; [apply wp_ret; rewrite Hs1; split_and!; [done|done|by left]|].
  apply wp_bind. eapply wp_mono; [apply verify_checked_spec|].
  intros [nextHeight verifyErr] w2 (-> & k & Hk & Hver & Hnext & _). simpl in Hnext.
  assert (∀ x, verified w1 p x → verified w p x) as Hvw.
  { intros x (s & b' & H1' & H2' & H3' & H4' & H5' & H6' & H7'). exists s, b'.
    rewrite Hs1 in H1', H2', H3'. by rewrite Hd1 in H7'. }
  destruct (Z.ltb_spec (b_start b) nextHeight) as [Hlt|Hge]; [destruct (forkState (scan_of w)) as [s|] eqn:Es|].
  2,3: apply wp_ret; rewrite Hs1, ?Es; split_and!; [done|done|by left].
  destruct k as [|k]; [simpl in Hnext; lia|]. simpl in Hnext.
  destruct (checked !! k) as [[h hash]|] eqn:Ek; [|lia]. simpl in Hnext. subst nextHeight.
  apply wp_bind. eapply wp_mono; [apply save_spec|]. intros [[]|e] w3 (Hf3 & Hh3 & Hr3); apply wp_ret.
  - destruct Hr3 as (Hv3 & Hs3 & Hst3). split_and!; [by eapply frame_trans|by rewrite Hs3, Hs1|].
    right. exists k, s, b, h, hash. rewrite Hs3. split_and!; try done.
    eapply Forall_impl; [exact Hver|exact Hvw].
  - destruct Hr3 as [Hs3 Hst3]. rewrite Hs3, Hs1. split_and!; [by eapply frame_trans|done|].
    left. by rewrite Es, Hst3.
Qed.

(** (C35) A batch commits only verified work.  When finishing a batch moves the cursor, it
      moves to just above a checked height, and that height and every one checked
      before it are, at this moment and under the lock, in the active batch,
      published, not reached by any reorg since the batch began, and canonical with
      the hash that was scanned; memory and store are updated together, and
      otherwise neither changes. *)
Theorem batch_commits_verified_prefix c p checked w r w' :
  finishForkScanBatch c p checked w = (r, w') →
  (forkState (scan_of w') = forkState (scan_of w) ∧ stored w' = stored w) ∨
  ∃ k s h hash, checked !! k = Some (h, hash) ∧ forkState (scan_of w) = Some s ∧
    forkState (scan_of w') = Some (set_NextHeight (u64 (h + 1)) s) ∧
    stored w' = Some (json_print (state_json (set_NextHeight (u64 (h + 1)) s))) ∧
    Forall (verified w p) (take (S k) checked).
Proof.
  intros Hr. destruct (wp_run _ _ _ _ _ (finish_batch_spec c p checked w) Hr)
    as (_ & _ & _ & [?|(k & s & b & h & hash & Hk & Hv & Hs & _ & _ & Hs' & Hst & _)]); [by left|right].
  exists k, s, h, hash. by split_and!.
Qed.
End facts.

(** ** Witnesses: a chain of three blocks, the cursor at height 2 *)
Module ScanDemo.
#[local] Existing Instances mem_pebble demo_rlp demo_hash_text demo_json_text.
Definition cfg : Config := Sim.legacyConfig.
Definition key (n h : Z) : string := blockValidationKey cfg (mkBlockContext n (hashOf h) zero_hash 0).
(** Both objects of height 2 carry the wrong mark. *)
Definition bucket : gmap string BlockValidation :=
  list_to_map [(key 2 2, mkValidation 20 true); (key 2 22, mkValidation 22 false); (key 3 3, mkValidation 30 false)].
Definition sim : Sim.sim := Sim.mkSim bucket ∅ (λ _ _ _, true) (λ _, None) [] (λ _, Fail (ErrMsg "down"))
  elapsed (λ _ _, true).
Definition cursor0 : ForkScanState :=
  mkScanState 1 (mkAnchor 1 (hashOf 1)) 2 1 (mkAnchor 3 (hashOf 3)) None None.
Definition scan0 : ScanRun :=
  mkScanRun (Some cursor0) None false true (mkSchedule 1 (Some 0) 3 3 true) None [].
Definition w0 : World :=
  mkWorld (Sim.sim_env sim) (mkChecker cfg Sim.pub0 Sim.rep0 scan0) Demo.db1 [].
Definition begun : res nat * World := beginForkScanBatch 3 1 w0.
Definition checked : list (Z * Hash) := [(2, hashOf 2); (3, hashOf 3)].
Definition finished : (bool * option err) * World := finishForkScanBatch WithCancel 0 checked begun.2.
Definition alone : nat → M unit := λ _, ret tt.
Definition scanned : (bool * option err) * World := scanContinuousBatch alone WithCancel 3 1 w0.
End ScanDemo.

Section scan_witnesses.
#[local] Existing Instances mem_pebble demo_rlp demo_hash_text demo_json_text.
Import ScanDemo.

Lemma batch_commits_verified_prefix_witness :
  (NextHeight <$> forkState (scan (w_chk finished.2)) = Some 4) ∧
  ∃ k, Forall (verified begun.2 0) (take (S k) checked).
Proof.
  split; [vm_compute; reflexivity|].
  destruct (batch_commits_verified_prefix WithCancel 0 checked begun.2 finished.1 finished.2
    (surjective_pairing finished)) as [[Hf _]|(k & s & h & hash & _ & _ & _ & _ & Hv)].
  - apply (f_equal (fmap NextHeight)) in Hf. revert Hf. vm_compute. intros Hf. discriminate Hf.
  - exists k. exact Hv.
Defined.

(** An undisturbed batch scans both heights, repairs the marks and moves the cursor. *)
Example undisturbed_batch :
  scanned.1 = (false, None) ∧ NextHeight <$> forkState (scan (w_chk scanned.2)) = Some 4 ∧
  V_IsFork <$> Sim.objects bucket (w_hist scanned.2) !! key 2 2 = Some false ∧
  V_IsFork <$> Sim.objects bucket (w_hist scanned.2) !! key 2 22 = Some true.
Proof. vm_compute. by split_and!. Qed.
End scan_witnesses.
