(* ===== verification/Window.v ===== *)
(** * Window: the window scan (check/fork_scan.go)

    With a positive lookback the scan worker goes over the last heights below the published
    head again and again; the loop that does one pass ends at the head by a comparison,
    because the height may be the largest of its width. *)
From S2P Require Import Prelude Types Config Json Store ScanState BlockIndex Checker Validation ForkScan.

Section window.
Context `{Pebble} `{HashText} `{JsonText}.
Context (other : nat → M unit).

(** The reference: the heights of the window, from the lowest, until the pass is cancelled. *)
Fixpoint scan_heights (c : context) (hs : list Z) : M unit :=
  match hs with
  | [] => ret tt
  | h :: hs =>
      let* cerr := ctxErr c in
      match cerr with
      | Some _ => ret tt
      | None => let* _ := scanForkBlocksAtHeight other c h in scan_heights c hs
      end
  end.
Definition window_heights (lookback tip : Z) : list Z :=
  let lowest := Z.max 0 (tip - lookback + 1) in seqZ lowest (tip - lowest + 1).

(** The window has the last [lookback] heights, or all of them. *)
Lemma elem_window lookback tip h : 0 < lookback → h ∈ window_heights lookback tip ↔ 0 ≤ h ∧ tip - lookback < h ≤ tip.
Proof. intros Hl. unfold window_heights. rewrite elem_of_seqZ. lia. Qed.

Lemma window_start_spec lookback tip : 0 < lookback ≤ MaxInt64 → is_u64 tip →
  window_start (u64 lookback) tip = Z.max 0 (tip - lookback + 1).
Proof.
  intros Hl Ht. unfold window_start. rewrite u64_id by (unfold is_u64, MaxUint64, MaxInt64 in *; lia).
  destruct (Z.leb_spec lookback tip) as [Hle|Hgt]; [|lia]. rewrite u64_id by (unfold is_u64 in *; lia). lia.
Qed.

(** One step of the loop does the first height of the reference and leaves the rest. *)
Lemma window_step_spec c tip h w : is_u64 tip → 0 ≤ h ≤ tip →
  wp (window_step other c tip h) (λ r w', match r with
    | inl h' => h' = h + 1 ∧ h' ≤ tip ∧
        scan_heights c (seqZ h (tip - h + 1)) w = scan_heights c (seqZ h' (tip - h' + 1)) w'
    | inr _ => scan_heights c (seqZ h (tip - h + 1)) w = (tt, w')
    end) w.
Proof.
  intros Ht Hh. rewrite (seqZ_cons h) by lia. replace (Z.pred (tip - h + 1)) with (tip - h) by lia.
  unfold window_step, wp. cbn [scan_heights]. unfold bind. destruct (ctxErr c w) as [[e|] w1]; [done|].
  destruct (scanForkBlocksAtHeight other c h w1) as [r w2]. destruct (Z.eqb_spec h tip) as [->|Hne]; simpl.
  - by rewrite Z.sub_diag.
  - rewrite u64_id by (unfold is_u64 in *; lia). split_and!; [done|lia|].
    unfold Z.succ. by replace (tip - (h + 1) + 1) with (tip - h) by lia.
Qed.

(** The loop from [start] is the reference on the heights from [start] to the tip. *)
Lemma window_loop c tip start p w : is_u64 tip → 0 ≤ start ≤ tip → tip - start < Z.pos p →
  loopM p (window_step other c tip) start w = (inr tt, (scan_heights c (seqZ start (tip - start + 1)) w).2).
Proof.
  intros Ht Hs Hp.
  pose proof (wp_loopM_measure (window_step other c tip) (λ h _, tip - h)
    (λ h w', 0 ≤ h ≤ tip ∧
       scan_heights c (seqZ h (tip - h + 1)) w' = scan_heights c (seqZ start (tip - start + 1)) w)
    (λ _ w', scan_heights c (seqZ start (tip - start + 1)) w = (tt, w'))) as Hloop.
  ospecialize (Hloop _ p start w _); [|done|].
  - intros h w' [Hh Hf]. eapply wp_mono; [by apply window_step_spec|].
    intros [h'|[]] w2; rewrite Hf; [|done]. intros (-> & Hle & ->). split_and!; [lia|done|done|lia].
  - unfold wp in Hloop. destruct (loopM _ _ _ w) as [[h|[]] w'].
    + destruct Hloop as [[Hh _] Hm]. exfalso. lia.
    + cbn [fst snd] in Hloop. by rewrite Hloop.
Qed.

(** (C34) The window scan goes over the window once, in order: it scans exactly the last
    [ForkScanLookback] heights up to the published head it read, from the lowest to the
    head (so the loop ends, also when the head is the largest 64-bit height and the next
    one would be 0), whatever the scan of one height meets, and stops early only when it is
    cancelled. *)
Theorem window_scan_is_reference c w :
  0 < ForkScanLookback (config (w_chk w)) ≤ MaxInt64 → 0 < ForkScanInterval (config (w_chk w)) →
  latest_ok (unlocked other w).2 →
  scanRecentForkBlocks other c w =
    (let* _ := unlocked other in
     let* p := get_pub in
     match latestOuter p with
     | None => ret tt
     | Some latest => scan_heights c (window_heights (ForkScanLookback (config (w_chk w))) (ON_BlockNumber latest))
     end) w.
Proof.
  intros Hl Hi Ht. unfold scanRecentForkBlocks, latest_ok in *. unfold get_config, asks, bind at 1.
  destruct (Z.leb_spec (ForkScanLookback (config (w_chk w))) 0); [lia|].
  destruct (Z.leb_spec (ForkScanInterval (config (w_chk w))) 0); [lia|]. cbn [orb]. unfold bind.
  destruct (unlocked other w) as [[] w1]. unfold get_pub, asks. cbn [snd] in Ht.
  destruct (latestOuter (pub (w_chk w1))) as [n|]; [|done]. specialize (Ht n eq_refl).
  rewrite window_start_spec, window_loop by (done || rewrite ?Pos2Z.inj_pow; unfold is_u64, MaxUint64 in *; lia).
  unfold window_heights. by destruct (scan_heights _ _ _) as [[] w2].
Qed.
End window.

(** ** Witness: the window of two heights below the head of the demonstration chain *)
Module WindowDemo.
#[local] Existing Instances mem_pebble demo_rlp demo_hash_text demo_json_text.
Definition cfg : Config := {|
  Listen := ":8663"; ReadyRatio := f64_0_8; CheckInterval := 20; CheckTimeout := 2000;
  RpcNodeTimeout := 5000; MsgWaitTimeout := 5000; ChainID := 7; Version := "";
  OuterVersionNewBlockTopic := ""; EtcdWriteTimeout := 5000; EtcdLockTTL := 20;
  VersionCheckInterval := 5; ForkScanInterval := 60; ForkScanLookback := 2
|}.
Definition latest : OuterNotice := mkOuterNotice 3 (hashOf 3) 7 0 false.
Definition w0 : World :=
  mkWorld (Sim.sim_env ScanDemo.sim)
    (mkChecker cfg (mkPub (Some latest) None false None (mkNoticeID zero_hash 0 0) ∅) Sim.rep0 Sim.scan0) Demo.db1 [].
Definition scanned : World := (scanRecentForkBlocks ScanDemo.alone WithCancel w0).2.
End WindowDemo.

Section window_witness.
#[local] Existing Instances mem_pebble demo_rlp demo_hash_text demo_json_text.
Import WindowDemo.

(** Both heights of the window are scanned, and the marks of height 2 repaired. *)
Lemma window_scan_is_reference_witness :
  (V_IsFork <$> Sim.objects ScanDemo.bucket (w_hist scanned) !! ScanDemo.key 2 2 = Some false ∧
   V_IsFork <$> Sim.objects ScanDemo.bucket (w_hist scanned) !! ScanDemo.key 2 22 = Some true) ∧
  window_heights 2 3 = [2; 3] ∧
  scanRecentForkBlocks ScanDemo.alone WithCancel w0 =
    (let* _ := unlocked ScanDemo.alone in
     let* p := get_pub in
     match latestOuter p with
     | None => ret tt
     | Some latest => scan_heights ScanDemo.alone WithCancel (window_heights 2 (ON_BlockNumber latest))
     end) w0.
Proof.
  split; [vm_compute; by split|]. split; [reflexivity|].
  apply (window_scan_is_reference ScanDemo.alone WithCancel w0).
  - vm_compute. split; [reflexivity|discriminate].
  - vm_compute. reflexivity.
  - intros n Hn. vm_compute in Hn. injection Hn as <-. vm_compute. split; discriminate.
Defined.
End window_witness.
