(* ===== verification/ScanBatch.v ===== *)
(** * ScanBatch: the batch of the scan worker as a machine (check/fork_scan_batch.go)

    One batch in small steps, with the points at which it gives up the lock, what it checks
    before it goes on, and every way in which it ends; steps of other goroutines come in
    between.  A run of [scanContinuousBatch] is a run of this machine. *)
From S2P Require Import Prelude Types Config Json Store ScanState BlockIndex Checker Validation Publish.
From S2P Require Import ForkScan.

(** Where a batch is: it has not begun; at the head of its loop, behind the checks made
    before and after it held the lock again, with the canonical hash of the height, with the
    rest of the plan to write, out of the loop, and at its end.  [h] is the height at hand,
    [checked] the heights done before it. *)
Inductive batch_pc :=
  | Ready
  | Next (p : nat) (deadline h : Z) (checked : list (Z * Hash))
  | Held (p : nat) (deadline h : Z) (checked : list (Z * Hash))
  | Entered (p : nat) (deadline h : Z) (checked : list (Z * Hash))
  | Hashed (p : nat) (deadline h : Z) (checked : list (Z * Hash)) (x : Hash)
  | Writing (p : nat) (deadline h : Z) (checked : list (Z * Hash)) (x : Hash) (plan : list forkRewrite)
  | Left (p : nat) (checked : list (Z * Hash)) (e : option err)
  | Ended (more : bool) (e : option err).

Section machine.
Context `{Pebble} `{HashText} `{JsonText} `{Rlp}.
Context (other : nat → M unit) (c : context) (upper generation : Z).

(** What is checked under the lock before each write: the context, then the batch. *)
Definition verify_write (p : nat) (h : Z) (x : Hash) : M (res unit) :=
  let* cerr := ctxErr c in
  match cerr with Some e => ret (Fail e) | None => verifyForkScanBatchHeight p h x end.

Notation batch_at w p := (batchHeap (scan (w_chk w)) !! p).
Notation plan_of h x := (planForkRewritesCtx c (mkBlockContext h x zero_hash 0) None).

(** The read leaves the world as it is. *)
Lemma read_same h w : wp (readScanCanonical h) (λ _ w', w' = w) w.
Proof. unfold readScanCanonical. apply wp_bind. unfold wp at 1. simpl. by apply wp_ret. Qed.

Inductive batch_step : World * batch_pc → World * batch_pc → Prop :=
  (* the lock is not held: the scheduler picks a step of another goroutine *)
  | b_other w w' pc : unlocked other w = (tt, w') → batch_step (w, pc) (w', pc)
  (* the begin, and the clock for the time budget *)
  | b_begin w w1 w' p now : beginForkScanBatch upper generation w = (Ok p, w1) → call RNow w1 = (now, w') →
      batch_step (w, Ready)
        (w', Next p (now + forkScanBatchBudget) (match batch_at w' p with Some b => b_start b | None => 0 end) [])
  | b_refused w w' e : beginForkScanBatch upper generation w = (Fail e, w') →
      batch_step (w, Ready) (w', Ended true (Some e))
  (* the loop goes on within the batch and its size, if it is not cancelled, *)
  | b_within w w' p d h l b : (length l < forkScanBatchSize)%nat → batch_at w p = Some b → h ≤ b_upper b →
      ctxErr c w = (None, w') → batch_step (w, Next p d h l) (w', Held p d h l)
  | b_full w p d h l : length l = forkScanBatchSize → batch_step (w, Next p d h l) (w, Left p l None)
  | b_upper_reached w p d h l b : batch_at w p = Some b → b_upper b < h → batch_step (w, Next p d h l) (w, Left p l None)
  | b_gone w p d h l : batch_at w p = None → batch_step (w, Next p d h l) (w, Left p l (Some ErrScanStale))
  | b_cancelled w w' p d h l e : ctxErr c w = (Some e, w') → batch_step (w, Next p d h l) (w', Left p l (Some e))
  (* if no reorg reached down to the height and, but for the first height, time is left, *)
  | b_fresh w w' p d h l b : batch_at w p = Some b → batch_stale b h = false → h ≠ MaxUint64 →
      (l = [] ∧ w' = w ∨ l ≠ [] ∧ ∃ now, call RNow w = (now, w') ∧ now < d) →
      batch_step (w, Held p d h l) (w', Entered p d h l)
  | b_fenced w p d h l : match batch_at w p with Some b => batch_stale b h = true | None => True end →
      batch_step (w, Held p d h l) (w, Left p l (Some ErrScanStale))
  | b_expired w w' p d h l now : l ≠ [] → call RNow w = (now, w') → d ≤ now →
      batch_step (w, Held p d h l) (w', Left p l None)
  | b_overflow w w' p d l : l = [] ∧ w' = w ∨ (∃ now, call RNow w = (now, w')) →
      batch_step (w, Held p d MaxUint64 l) (w', Left p l (Some (ErrMsg "fork scan next height overflow")))
  (* with the canonical hash, *)
  | b_read w p d h l x : readScanCanonical h w = (Ok x, w) → batch_step (w, Entered p d h l) (w, Hashed p d h l x)
  | b_uncanonical w p d h l e : readScanCanonical h w = (Fail e, w) →
      batch_step (w, Entered p d h l) (w, Left p l (Some (ErrWrap ("height " +:+ pretty h) e)))
  (* plans the height, *)
  | b_plan w w' p d h l x plan : plan_of h x w = (Ok plan, w') →
      batch_step (w, Hashed p d h l x) (w', Writing p d h l x plan)
  | b_plan_fails w w' p d h l x e : plan_of h x w = (Fail e, w') → batch_step (w, Hashed p d h l x) (w', Left p l (Some e))
  (* writes what was planned, each write right after its verification, *)
  | b_put w w1 w' p d h l x rw plan u : verify_write p h x w = (Ok tt, w1) →
      rewriteValidationAtKeyCtx (rw_key rw) (rw_validation rw) w1 = (Ok u, w') →
      batch_step (w, Writing p d h l x (rw :: plan)) (w', Writing p d h l x plan)
  | b_unverified w w' p d h l x rw plan e : verify_write p h x w = (Fail e, w') →
      batch_step (w, Writing p d h l x (rw :: plan)) (w', Left p l (Some e))
  | b_put_fails w w1 w' p d h l x rw plan e : verify_write p h x w = (Ok tt, w1) →
      rewriteValidationAtKeyCtx (rw_key rw) (rw_validation rw) w1 = (Fail e, w') →
      batch_step (w, Writing p d h l x (rw :: plan)) (w', Left p l (Some e))
  (* and has then done the height, if it is still not cancelled. *)
  | b_height w w' p d h l x : ctxErr c w = (None, w') →
      batch_step (w, Writing p d h l x []) (w', Next p d (u64 (h + 1)) (l ++ [(h, x)]))
  | b_height_cancelled w w' p d h l x e : ctxErr c w = (Some e, w') →
      batch_step (w, Writing p d h l x []) (w', Left p l (Some e))
  (* The heights that are done are committed in any case. *)
  | b_finish w w' p l e more ce : finishForkScanBatch c p l w = ((more, ce), w') →
      batch_step (w, Left p l e) (w', Ended more (err_join e ce)).

(** ** The code is a run of the machine *)
Definition runs (c0 : World * batch_pc) (w : World) (pc : batch_pc) : Prop := rtc batch_step c0 (w, pc).

Lemma runs_step c0 w pc w' pc' : runs c0 w pc → batch_step (w, pc) (w', pc') → runs c0 w' pc'.
Proof. apply rtc_r. Qed.

(** An operation with its run named. *)
Lemma wp_named {A B} (m : M A) (f : A → M B) Q w :
  (∀ a w', m w = (a, w') → wp (f a) Q w') → wp (bind m f) Q w.
Proof. intros Hm. unfold wp, bind. destruct (m w) as [a w'] eqn:E. by apply Hm. Qed.

Lemma runs_unlocked {B} c0 pc (f : unit → M B) Q w : runs c0 w pc →
  (∀ w', runs c0 w' pc → wp (f tt) Q w') → wp (bind (unlocked other) f) Q w.
Proof. intros Hr Hf. apply wp_named. intros [] w' E. apply Hf. eapply runs_step; [done|by constructor]. Qed.

(** Where an outcome leads. *)
Definition leads (c0 : World * batch_pc) {A} (p : nat) (l : list (Z * Hash)) (ok : A → batch_pc) (r : res A) (w : World) : Prop :=
  runs c0 w (match r with Ok a => ok a | Fail e => Left p l (Some e) end).

Lemma puts_run c0 p d h l x plan : ∀ w, runs c0 w (Writing p d h l x plan) →
  wp (scan_puts other plan (verify_write p h x)) (leads c0 p l (λ _, Writing p d h l x [])) w.
Proof.
  induction plan as [|rw plan IH]; intros w Hr; cbn [scan_puts]; [by apply wp_ret|].
  apply (runs_unlocked _ _ _ _ _ Hr). clear w Hr. intros w Hr. apply wp_named. intros [u|e] w1 Ev.
  2: { apply wp_ret. eapply runs_step; [exact Hr|by eapply b_unverified]. }
  destruct u. apply wp_named. intros [u|e] w2 Ep.
  - apply IH. eapply runs_step; [exact Hr|by eapply b_put].
  - apply wp_ret. eapply runs_step; [exact Hr|by eapply b_put_fails].
Qed.

Lemma execute_run c0 p d h l x w : runs c0 w (Hashed p d h l x) →
  wp (executeForkScanPlan other c h x (verify_write p h x))
    (leads c0 p l (λ _, Next p d (u64 (h + 1)) (l ++ [(h, x)]))) w.
Proof.
  intros Hr. unfold executeForkScanPlan. apply (runs_unlocked _ _ _ _ _ Hr). clear w Hr. intros w Hr.
  apply wp_named. intros [plan|e] w1 Ep; [|apply wp_ret; eapply runs_step; [exact Hr|by eapply b_plan_fails]].
  apply wp_bind. eapply wp_mono; [apply puts_run; eapply runs_step; [exact Hr|by eapply b_plan]|].
  clear w w1 Hr Ep. intros [u|e] w Hr; [|by apply wp_ret]. apply wp_named. intros [e|] w1 Ec; apply wp_ret.
  - eapply runs_step; [exact Hr|by eapply b_height_cancelled].
  - eapply runs_step; [exact Hr|by eapply b_height].
Qed.

Lemma height_run c0 p d h l w : runs c0 w (Entered p d h l) →
  wp (scanContinuousBatchHeight other c p h) (leads c0 p l (λ x, Next p d (u64 (h + 1)) (l ++ [(h, x)]))) w.
Proof.
  intros Hr. unfold scanContinuousBatchHeight. apply (runs_unlocked _ _ _ _ _ Hr). clear w Hr. intros w Hr.
  apply wp_named. intros r w1 Er. assert (w1 = w) as -> by (apply (wp_run _ _ _ _ _ (read_same h w) Er)).
  destruct r as [x|e]; [|apply wp_ret; eapply runs_step; [exact Hr|by eapply b_uncanonical]].
  apply wp_bind. eapply wp_mono; [apply (execute_run c0 p d h l x); eapply runs_step; [exact Hr|by eapply b_read]|].
  intros [u|e] w2 Hr2; by apply wp_ret.
Qed.

Lemma loop_run c0 p d fuel : ∀ h l w, (length l + fuel)%nat = forkScanBatchSize → runs c0 w (Next p d h l) →
  wp (batch_loop other fuel c p d h l) (λ r w', runs c0 w' (Left p r.1 r.2)) w.
Proof.
  induction fuel as [|fuel IH]; intros h l w Hl Hr; cbn [batch_loop].
  { apply wp_ret. eapply runs_step; [exact Hr|]. apply b_full. simpl. lia. }
  apply wp_bind. unfold wp at 1. simpl. destruct (batchHeap (scan (w_chk w)) !! p) as [b|] eqn:Eb.
  2: { apply wp_ret. eapply runs_step; [exact Hr|by apply b_gone]. }
  destruct (Z.ltb_spec (b_upper b) h).
  { apply wp_ret. eapply runs_step; [exact Hr|by eapply b_upper_reached]. }
  apply wp_named. intros [e|] w1 Ec; [apply wp_ret; eapply runs_step; [exact Hr|by eapply b_cancelled]|].
  apply (runs_unlocked c0 (Held p d h l)).
  { eapply runs_step; [exact Hr|]. eapply b_within; [lia|done|done|done]. }
  clear w w1 b Eb Ec Hr H3. intros w Hr. apply wp_bind. unfold wp at 1. simpl.
  destruct (batchHeap (scan (w_chk w)) !! p) as [b|] eqn:Eb.
  2: { apply wp_ret. eapply runs_step; [exact Hr|]. apply b_fenced. by rewrite Eb. }
  destruct (batch_stale b h) eqn:Es.
  { apply wp_ret. eapply runs_step; [exact Hr|]. apply b_fenced. by rewrite Eb. }
  apply wp_named. intros expired w1 Ee.
  assert (if expired then ∃ now, l ≠ [] ∧ call RNow w = (now, w1) ∧ d ≤ now
    else l = [] ∧ w1 = w ∨ l ≠ [] ∧ ∃ now, call RNow w = (now, w1) ∧ now < d) as Hexp.
  { case_bool_decide as Hnil; [injection Ee as <- <-; by left|]. unfold bind, ret in Ee.
    destruct (call RNow w) as [now w2] eqn:En. injection Ee as <- <-. destruct (Z.ltb_spec now d); simpl; [right|]; eauto. }
  clear Ee. destruct expired.
  { destruct Hexp as (now & Hne & Hn & Hd). apply wp_ret. eapply runs_step; [exact Hr|by eapply b_expired]. }
  destruct (Z.eqb_spec h MaxUint64) as [->|Hm].
  { apply wp_ret. eapply runs_step; [exact Hr|]. apply b_overflow. destruct Hexp as [?|(_ & now & ? & _)]; eauto. }
  apply wp_bind. eapply wp_mono; [apply height_run; eapply runs_step; [exact Hr|by eapply b_fresh]|].
  intros [x|e] w2 Hr2; [|by apply wp_ret]. apply IH; [rewrite length_app; simpl; lia|exact Hr2].
Qed.

Lemma batch_run w : wp (scanContinuousBatch other c upper generation) (λ r w', runs (w, Ready) w' (Ended r.1 r.2)) w.
Proof.
  unfold scanContinuousBatch. apply (runs_unlocked (w, Ready) Ready); [apply rtc_refl|]. intros w0 Hr.
  apply wp_named. intros [p|e] w1 Eb; [|apply wp_ret; eapply runs_step; [exact Hr|by apply b_refused]].
  apply wp_named. intros now w2 En. apply wp_named. intros ob w2' Eg. unfold get_batch, asks in Eg. injection Eg as <- <-.
  pose proof (runs_step _ _ _ _ _ Hr (b_begin w0 w1 w2 p now Eb En)) as Hr2. apply wp_bind.
  eapply wp_mono; [exact (loop_run _ p _ forkScanBatchSize _ [] w2 eq_refl Hr2)|].
  intros [l e] w3 Hr3. apply (runs_unlocked _ _ _ _ _ Hr3). intros w4 Hr4.
  apply wp_named. intros [more ce] w5 Ef. apply wp_ret. eapply runs_step; [exact Hr4|by apply b_finish].
Qed.
End machine.
