(* ===== verification/Process.v ===== *)
(** * Process: one inner notification from check to commit (check/check.go)

    The checks on a notification, the index write, [processNotice], and the loop of
    [Run] that fetches, processes and commits. *)
From S2P Require Import Prelude Types Config Json Store ScanState BlockIndex Checker Topics Validation Publish.
From S2P Require Import Nodes Replicas Align ForkScan.

Section ops.
Context `{Pebble} `{HashText} `{JsonText} `{Rlp} `{BigText}.

(** ** Checks *)
Definition isDuplicateBlockNotification (p : PubState) (notice : BlockChangeNotification) : bool :=
  match latestOuter p, DropBlocks notice, NewBlocks notice with
  | Some latest, [], [b] => bool_decide (BlockHash b = ON_Hash latest)
  | _, _, _ => false
  end.

Definition isAlreadyProcessed : PubState → BlockChangeNotification → bool := already_processed.

Definition msgCheck (p : PubState) (notice : BlockChangeNotification) : bool :=
  match latestOuter p with
  | None => true
  | Some latest =>
      match last (DropBlocks notice), head (NewBlocks notice) with
      | Some b, _ => bool_decide (BlockHash b = ON_Hash latest)
      | None, Some b => bool_decide (ParentHash b = ON_Hash latest)
      | None, None => false               (* the caller has checked for new blocks *)
      end
  end.

(** ** The index write *)

(** The validation hashes that were prefetched, one per new block. *)
Fixpoint prefetched_hashes (prefetched : list blockPrefetch) : res (list Z) :=
  match prefetched with
  | [] => Ok []
  | pf :: prefetched =>
      let! v := pf_validation pf in
      let! rest := prefetched_hashes prefetched in
      Ok (V_ValidationHash v :: rest)
  end.

Definition writeBlockInfoToDB (newBlocks : list BlockContext) (prefetched : list blockPrefetch) : M bool :=
  match prefetched_hashes prefetched, head newBlocks with
  | Ok validationHashes, Some first =>
      let* cfg := get_config in
      let* r := get_scan in
      match (if ContinuousForkScan cfg then forkState r else None) with
      | Some s =>
          let* next := with_db (λ db, WriteBlockInfosWithForkScan db newBlocks validationHashes
                                        (ChainID cfg) (Version cfg) (Some s)) in
          match next with
          | Ok (Some next) =>
              when (negb (Generation next =? Generation s))
                (rewindForkScan (BlockNumber first) (Generation next)) ;;;
              modify_scan (set_forkState (Some next)) ;;;
              ret true
          | Ok None => ret true             (* a write with a cursor returns one *)
          | Fail _ => ret false
          end
      | None =>
          let* e := with_db (λ db, WriteBlockInfos db newBlocks validationHashes) in
          ret (match e with Some _ => false | None => true end)
      end
  | _, _ => ret false
  end.

(** ** [processNotice]; [None] is a panic of the goroutine *)
Definition align_and_finish (notice : BlockChangeNotification) (position : option ForkScanPosition) : M (option bool) :=
  let* ok := prepareForkScan notice position in
  if negb ok then ret (Some false)
  else
    let* ok := AlignOuterSingleton in
    match ok with
    | Some true => let* ok := finishForkScan position in ret (Some ok)
    | _ => ret ok
    end.

(** The steps 1 to 8 behind the checks; [tail] is the last new block. *)
Definition publish_steps (notice : BlockChangeNotification) (tail : BlockContext)
    (blockTimings : gmap Hash Z) : M (option bool * list blockPrefetch) :=
  let* cfg := get_config in
  let dropBlocks := reverse (DropBlocks notice) in
  let newBlocks := NewBlocks notice in
  let* prefetched := prefetchNewBlocks newBlocks in
  let* ok := checkAndNotify (BlockNumber tail) (replicaWaitTimeout cfg) true in
  if negb ok then ret (Some false, prefetched)
  else
    rewriteDropBlocks dropBlocks ;;;
    let* ok := writeBlockInfoToDB newBlocks prefetched in
    if negb ok then ret (Some false, prefetched)
    else
      let* e := rewriteForkBlocksAtSameHeight newBlocks prefetched in
      match e with
      | Fail _ => ret (Some false, prefetched)
      | Ok _ =>
          let* ok := publishNotice dropBlocks newBlocks blockTimings in
          if negb ok then ret (Some false, prefetched)
          else let* ok := AlignOuterSingleton in ret (ok, prefetched)
      end.

Definition processNotice (notice : BlockChangeNotification) (blockTimings : gmap Hash Z)
    (position : option ForkScanPosition) : M (option bool) :=
  let* p := get_pub in
  match last (NewBlocks notice) with
  | None => ret (Some false)
  | Some tail =>
      if isDuplicateBlockNotification p notice || isAlreadyProcessed p notice then
        align_and_finish notice position
      else if negb (msgCheck p notice) then ret (Some false)
      else
        let* ok := prepareForkScan notice position in
        if negb ok then ret (Some false)
        else
          beginNotice notice tail ;;;
          let* (r, prefetched) := publish_steps notice tail blockTimings in
          match r with
          | Some true =>
              let* ok := finishForkScan position in
              if negb ok then ret (Some false)
              else
                (* the recheck after the publication; its failure is only logged *)
                let* _ := rewriteForkBlocksAtSameHeight (NewBlocks notice)
                            ((λ pf, mkPrefetch (pf_validation pf) (Ok [])) <$> prefetched) in
                ret (Some true)
          | _ => ret r
          end
  end.

Definition Process (notice : BlockChangeNotification) (blockTimings : gmap Hash Z) : M (option bool) :=
  processNotice notice blockTimings None.

(** ** [Run]: one turn is one message; the state is [latestMsgOffset] *)
Inductive run_end := RunQuit | RunPanic | RunForever.

Definition process_turn (msg : kafka_msg) (notice : BlockChangeNotification) (latestMsgOffset : Z)
    : unit → M (unit + option run_end) := λ _,
  let* quit := call RQuit in
  if quit then ret (inr (Some RunQuit))
  else if negb (latestMsgOffset =? 0) && (msg_Offset msg <=? latestMsgOffset) then ret (inr None)
  else
    let* ok := processNotice notice (msg_Timings msg)
                 (Some (mkPosition (msg_Topic msg) (msg_Partition msg) (msg_Offset msg))) in
    match ok with
    | None => ret (inr (Some RunPanic))
    | Some true => ret (inr None)
    | Some false => call (RSleep Second) ;;; ret (inl tt)
    end.

Definition commit_turn (msg : kafka_msg) : unit → M (unit + option run_end) := λ _,
  let* quit := call RQuit in
  if quit then ret (inr (Some RunQuit))
  else
    let* e := call (RCommit (msg_Offset msg)) in
    match e with
    | Ok _ => ret (inr None)
    | Fail _ => call (RSleep Second) ;;; ret (inl tt)
    end.

(** The retry loops have no bound; [2 ^ 64] turns stand for it. *)
Definition run_turn (latestMsgOffset : Z) : M (Z + run_end) :=
  let* quit := call RQuit in
  if quit then ret (inr RunQuit)
  else
    let* msg := call RFetch in
    match msg with
    | Fail ErrDeadline => let* _ := CheckAndNotifyEtcd in ret (inl latestMsgOffset)
    | Fail _ => call (RSleep Second) ;;; ret (inl latestMsgOffset)
    | Ok msg =>
        match msg_Value msg with
        | Fail _ => call (RSleep Second) ;;; ret (inl latestMsgOffset)
        | Ok notice =>
            let* r := loopM (2 ^ 64) (process_turn msg notice latestMsgOffset) tt in
            match r with
            | inr None =>
                let* r := loopM (2 ^ 64) (commit_turn msg) tt in
                match r with
                | inr None => ret (inl (msg_Offset msg))
                | inr (Some e) => ret (inr e)
                | inl _ => ret (inr RunForever)
                end
            | inr (Some e) => ret (inr e)
            | inl _ => ret (inr RunForever)
            end
        end
    end.

Definition Run : M (Z + run_end) := loopM (2 ^ 64) run_turn 0.
End ops.

(** ** What each part leaves alone *)
Section frames.
Context `{Pebble} `{HashText} `{JsonText} `{Rlp} `{BigText}.

(** The offsets whose commit was requested, latest first. *)
Definition event_commit (ev : event) : option Z :=
  match ev with
  | Ev _ r _ => match r with RCommit offset => Some offset | _ => None end
  end.
Definition commits (h : list event) : list Z := omap event_commit h.
#[global] Arguments commits : simpl never.

Lemma commits_cons ev h : commits (ev :: h) = option_list (event_commit ev) ++ commits h.
Proof. unfold commits. simpl. by destruct (event_commit ev). Qed.

(** The requests that the other topics, members and checks of this library are about. *)
Definition tracked (ev : event) : bool :=
  match ev with
  | Ev _ r _ => match r with
      | RKafkaWrite _ _ | RCommit _ | REtcdTxn _ | RGrant _ | RLockTxn _ _ _ _ => true
      | _ => false
      end
  end.
Definition effects (h : list event) : list event := base.filter (λ ev, tracked ev = true) h.

Lemma effects_cons ev h : effects (ev :: h) = if tracked ev then ev :: effects h else effects h.
Proof. unfold effects. rewrite filter_cons. by destruct (tracked ev). Qed.
Lemma acks_effects d h : acks d h = acks d (effects h).
Proof.
  induction h as [|ev h IH]; [done|]. rewrite effects_cons, acks_cons, IH. destruct (tracked ev) eqn:Et.
  - by rewrite acks_cons.
  - destruct ev as [A r a]. destruct r; try done; apply app_nil_r.
Qed.
Lemma commits_effects h : commits h = commits (effects h).
Proof.
  induction h as [|ev h IH]; [done|]. rewrite effects_cons, commits_cons, IH. destruct (tracked ev) eqn:Et.
  - by rewrite commits_cons.
  - destruct ev as [A r a]. by destruct r.
Qed.

(** Neither the checker nor the database, and no such request. *)
Definition surface (w : World) : env * Checker * ConsistencyDB * list event :=
  (w_env w, w_chk w, w_db w, effects (w_hist w)).
Notation quiet m := (keeps surface m).

Lemma quiet_call {A} (r : req A) : (∀ a, tracked (Ev A r a) = false) → quiet (call r).
Proof. intros Hr w. unfold surface. simpl. by rewrite effects_cons, Hr. Qed.

Lemma quiet_ctxErr c : quiet (ctxErr c).
Proof. destruct c; [apply keeps_ret|by apply quiet_call]. Qed.

Lemma quiet_retry {A} c what maxWait (fn : M (res A)) : quiet fn → quiet (retryWithBackoff c what maxWait fn).
Proof.
  intros Hfn. unfold retryWithBackoff. apply keeps_bind; [|intros; apply keeps_ret].
  generalize (retry_fuel maxWait), minBackoff, 0. intros n. induction n as [|n IH]; intros b t; cbn [retry_go].
  { apply keeps_ret. }
  apply keeps_bind; [done|]. intros [a|e]; [apply keeps_ret|]. destruct (maxWait <=? t); [apply keeps_ret|].
  apply keeps_bind; [apply quiet_ctxErr|]. intros [e'|]; [apply keeps_ret|].
  apply keeps_bind; [by apply quiet_call|]. intros []; [apply IH|apply keeps_ret].
Qed.

#[local] Hint Extern 1 (keeps surface (call _)) => apply quiet_call; done : keeps.
#[local] Hint Resolve quiet_ctxErr quiet_retry : keeps.

Lemma quiet_get c key : quiet (getRawValidationByKeyWithReTryCtx c key).
Proof. unfold getRawValidationByKeyWithReTryCtx, getRawValidationByKeyCtx. auto with keeps. Qed.
Lemma quiet_get_retry key : quiet (getRawValidationByKeyWithReTry key).
Proof. apply quiet_get. Qed.
Lemma quiet_put key n h v : quiet (rewriteValidationAtKeyWithRetry key n h v).
Proof. unfold rewriteValidationAtKeyWithRetry, rewriteValidationAtKey, rewriteValidationAtKeyCtx. auto with keeps. Qed.
Lemma quiet_put_block b v : quiet (rewriteBlockWithRetry b v).
Proof. unfold rewriteBlockWithRetry, get_config. apply keeps_bind; [apply keeps_asks|]. intros cfg. apply quiet_put. Qed.
Lemma quiet_list c n : quiet (listBlockValidationKeysCtx c n).
Proof.
  unfold listBlockValidationKeysCtx, get_config. apply keeps_bind; [apply keeps_asks|]. intros cfg.
  apply keeps_bind; [|intros; apply keeps_ret]. apply keeps_loopM. intros [t ks]. unfold list_page.
  apply keeps_bind; [auto with keeps|]. intros [page|e]; [|apply keeps_ret].
  destruct (pg_IsTruncated page) as [[]|]; [destruct (pg_NextToken page)| |]; apply keeps_ret.
Qed.
#[local] Hint Resolve quiet_get quiet_get_retry quiet_put quiet_put_block quiet_list : keeps.

Lemma quiet_plan_keys c cfg ch cv n keys : ∀ plan found, quiet (plan_keys c cfg ch cv n keys plan found).
Proof.
  induction keys as [|key keys IH]; intros plan found; cbn [plan_keys]; [apply keeps_ret|].
  destruct (blockValidationHashFromKey cfg key) as [h|]; [|apply IH].
  apply keeps_bind; [destruct (if EqualFold h ch then cv else None); auto with keeps|].
  intros [v|e]; [apply IH|apply keeps_ret].
Qed.
Lemma quiet_plan c b hint : quiet (planForkRewritesCtx c b hint).
Proof.
  unfold planForkRewritesCtx, get_config. apply keeps_bind; [apply keeps_asks|]. intros cfg.
  apply keeps_bind.
  - unfold plan_listing. case_bool_decide; [auto with keeps|]. destruct (existsb _ _); auto with keeps.
  - intros [ks|e]; [|apply keeps_ret]. apply keeps_bind; [apply quiet_plan_keys|intros; apply keeps_ret].
Qed.
Lemma quiet_apply b plan : quiet (applyForkRewrites b plan).
Proof.
  induction plan as [|rw plan IH]; cbn [applyForkRewrites]; [apply keeps_ret|].
  apply keeps_bind; [auto with keeps|]. intros [u|e]; [apply IH|apply keeps_ret].
Qed.
Lemma quiet_rewrite b hint : quiet (rewriteForkBlocksAtHeight b hint).
Proof.
  unfold rewriteForkBlocksAtHeight. apply keeps_bind; [apply quiet_plan|]. intros [[|rw plan]|e]; try apply keeps_ret.
  apply keeps_bind; [apply quiet_apply|intros; apply keeps_ret].
Qed.
Lemma quiet_attempts b n : ∀ hint, quiet (rewrite_attempts b n hint).
Proof.
  induction n as [|n IH]; intros hint; cbn [rewrite_attempts]; [apply keeps_ret|].
  apply keeps_bind; [apply quiet_rewrite|]. intros [[]|e]; try apply keeps_ret.
  destruct n; [apply keeps_ret|]. apply keeps_bind; [auto with keeps|]. intros _. apply IH.
Qed.
Lemma quiet_same_height l : ∀ pf, quiet (rewriteForkBlocksAtSameHeight l pf).
Proof.
  induction l as [|b l IH]; intros pf; cbn [rewriteForkBlocksAtSameHeight]; [apply keeps_ret|].
  apply keeps_bind; [apply quiet_attempts|]. intros [u|e]; [apply IH|apply keeps_ret].
Qed.
Lemma quiet_drops l : quiet (rewriteDropBlocks l).
Proof.
  induction l as [|b l IH]; cbn [rewriteDropBlocks]; [apply keeps_ret|].
  unfold get_config. apply keeps_bind; [apply keeps_asks|]. intros cfg. apply keeps_bind; [auto with keeps|].
  intros r. apply keeps_bind; [|intros; apply IH]. destruct r as [v|e]; [|apply keeps_ret].
  destruct (V_IsFork v); [apply keeps_ret|]. apply keeps_bind; [auto with keeps|intros; apply keeps_ret].
Qed.
Lemma quiet_prefetch l : quiet (prefetchNewBlocks l).
Proof.
  induction l as [|b l IH]; cbn [prefetchNewBlocks]; [apply keeps_ret|]. unfold get_config.
  apply keeps_bind; [apply keeps_asks|]. intros cfg. apply keeps_bind; [auto with keeps|]. intros v.
  apply keeps_bind; [auto with keeps|]. intros ks. apply keeps_bind; [apply IH|intros; apply keeps_ret].
Qed.

(** What a quiet operation gives. *)
Lemma quiet_unpublished {A} (m : M A) w : quiet m →
  wp m (λ _ w', unpublished w w' ∧ commits (w_hist w') = commits (w_hist w)) w.
Proof.
  intros Hm. specialize (Hm w). unfold surface in Hm. unfold wp. destruct (m w) as [a w']. simpl in *.
  injection Hm as He Hc Hd Hx. split; [split; [done..|]; intros d|].
  - by rewrite acks_effects, Hx, <- acks_effects.
  - by rewrite commits_effects, Hx, <- commits_effects.
Qed.

(** The checks and the fork-scan steps do not touch the publication state; no
    component but the publication writes to the version topic. *)
Definition published (w : World) : Config * PubState * list OuterNotice * list OuterNotice * list Z :=
  (config (w_chk w), pub (w_chk w), acks outerVersion (w_hist w), acks outerSingleton (w_hist w), commits (w_hist w)).

Lemma published_call {A} (r : req A) : (∀ d a, event_ack d (Ev A r a) = None ∧ event_commit (Ev A r a) = None) →
  keeps published (call r).
Proof.
  intros Hr w. unfold published. simpl. rewrite !acks_cons, commits_cons, (proj2 (Hr outerVersion _)).
  by rewrite !(λ d, proj1 (Hr d _)), !app_nil_r.
Qed.
Lemma published_scan f : keeps published (modify_scan f).
Proof. by intros w. Qed.
Lemma published_rep f : keeps published (modify_rep f).
Proof. by intros w. Qed.
Lemma published_db {A} (f : ConsistencyDB → A * ConsistencyDB) : keeps published (with_db f).
Proof. intros w. unfold with_db. by destruct (f (w_db w)). Qed.
#[local] Hint Extern 1 (keeps published (call _)) => apply published_call; done : keeps.
#[local] Hint Resolve published_scan published_rep published_db : keeps.

Lemma published_save s : keeps published (saveForkScan s).
Proof. unfold saveForkScan, get_config. keeps_tac. Qed.
#[local] Hint Resolve published_save : keeps.
Lemma published_initialize a p : keeps published (initializeForkScan a p).
Proof. unfold initializeForkScan, get_scan, rewindForkScan. keeps_tac. Qed.
#[local] Hint Resolve published_initialize : keeps.
Lemma published_prepare n p : keeps published (prepareForkScan n p).
Proof.
  unfold prepareForkScan, reconcileForkScanReplay, get_config, get_scan, get_pub, get_store, rewindForkScan, when.
  keeps_tac.
Qed.
Lemma published_finish p : keeps published (finishForkScan p).
Proof. unfold finishForkScan, get_config, get_scan, get_pub. keeps_tac. Qed.
Lemma published_write l pf : keeps published (writeBlockInfoToDB l pf).
Proof. unfold writeBlockInfoToDB, get_config, get_scan, rewindForkScan, when. keeps_tac. Qed.

Lemma published_check_nodes ns k t : keeps published (check_nodes ns k t).
Proof. induction ns as [|n ns IH]; cbn [check_nodes]; unfold Node_Check, EthBlockNumber; keeps_tac. Qed.
#[local] Hint Resolve published_check_nodes : keeps.
Lemma published_notify k t r : keeps published (checkAndNotify k t r).
Proof.
  unfold checkAndNotify, get_rep, waitReplicasReady, get_config. 
  unfold wait_round, check, CheckAll, get_config, RemoveOfflineNodesFromEtcd, WriteReplicaStateChangeToEtcd, get_config, get_rep.
  keeps_tac.
Qed.

(** The alignment keeps the latest notice and the version topic. *)
Definition aligned_part (w : World) : Config * option OuterNotice * option EtcdLock * list OuterNotice * list Z * ConsistencyDB * ScanRun :=
  (config (w_chk w), latestOuter (pub (w_chk w)), etcdLock (pub (w_chk w)), acks outerVersion (w_hist w), commits (w_hist w), w_db w, scan (w_chk w)).
Lemma aligned_call {A} (r : req A) :
  (∀ a, event_ack outerVersion (Ev A r a) = None ∧ event_commit (Ev A r a) = None) → keeps aligned_part (call r).
Proof. intros Hr w. unfold aligned_part. simpl. destruct (Hr (w_env w A (w_hist w) r)) as [Ha Hc].
  by rewrite acks_cons, commits_cons, Ha, Hc, app_nil_r. Qed.
Lemma aligned_pub_align b : keeps aligned_part (modify_pub (set_align b)).
Proof. by intros w. Qed.
Lemma aligned_pub_cached b : keeps aligned_part (modify_pub (set_cached b)).
Proof. by intros w. Qed.
Lemma aligned_pub_both b : keeps aligned_part (modify_pub (λ p, set_cached None (set_align b p))).
Proof. by intros w. Qed.
#[local] Hint Extern 1 (keeps aligned_part (call _)) => apply aligned_call; done : keeps.
#[local] Hint Resolve aligned_pub_align aligned_pub_cached aligned_pub_both : keeps.
Lemma aligned_singleton ns : keeps aligned_part (write_singleton ns).
Proof. induction ns as [|b ns IH]; cbn [write_singleton]; keeps_tac. Qed.
#[local] Hint Resolve aligned_singleton : keeps.
Lemma aligned_keeps : keeps aligned_part AlignOuterSingleton.
Proof.
  unfold AlignOuterSingleton, align_again, fetchLatestOuterSingleBlockNotice, GetLastOuterBlockNotice.
  unfold align, get_store, get_config, get_pub, GetCommonAncestor.
  unfold forward_step, lower_remote, walk_back, getVersionBlockByHash, get_store, get_config. keeps_tac.
Qed.

(** The publication commits no offset. *)
Definition committed (w : World) : list Z := commits (w_hist w).
Notation uncommitted m := (keeps committed m).

Lemma committed_call {A} (r : req A) : (∀ a, event_commit (Ev A r a) = None) → uncommitted (call r).
Proof. intros Hr w. unfold committed. simpl. by rewrite commits_cons, Hr. Qed.
Lemma committed_pub f : uncommitted (modify_pub f).
Proof. by intros w. Qed.
#[local] Hint Extern 1 (keeps committed (call _)) => apply committed_call; done : keeps.
#[local] Hint Resolve committed_pub : keeps.

Lemma committed_writes n ts : uncommitted (publish_writes n ts).
Proof. induction ts as [|t ts IH]; cbn [publish_writes]; keeps_tac. Qed.
Lemma committed_marks key observe l : (∀ d t, uncommitted (observe d t)) → uncommitted (publish_marks key observe l).
Proof. intros Ho. induction l as [|[[d e] t] l IH]; cbn [publish_marks]; keeps_tac. Qed.
Lemma committed_outer n observe : (∀ d t, uncommitted (observe d t)) → uncommitted (publishOuter n observe).
Proof.
  intros Ho. unfold publishOuter, get_config, get_pub. do 2 (apply keeps_bind; [apply keeps_asks|intros ?]).
  apply keeps_bind; [apply committed_writes|]. intros l. by apply committed_marks.
Qed.
Lemma committed_latency b timings d t : uncommitted (observeBlockEndToEndLatency b timings d t).
Proof. unfold observeBlockEndToEndLatency. keeps_tac. Qed.
#[local] Hint Resolve committed_latency : keeps.
Lemma committed_publish dropBlocks newBlocks timings : uncommitted (publishNotice dropBlocks newBlocks timings).
Proof.
  unfold publishNotice. apply keeps_bind.
  - induction dropBlocks as [|x l IH]; cbn [WriteDropBlockNotice]; unfold get_config; [apply keeps_ret|].
    apply keeps_bind; [apply keeps_asks|]. intros cfg. apply keeps_bind; [apply committed_outer; auto with keeps|].
    intros ok. keeps_tac.
  - intros ok. destruct ok; [|apply keeps_ret].
    induction newBlocks as [|x l IH]; cbn [WriteNewBlockNotice]; unfold get_config; [apply keeps_ret|].
    apply keeps_bind; [apply keeps_asks|]. intros cfg. apply keeps_bind; [apply committed_outer; auto with keeps|].
    intros ok. keeps_tac.
Qed.
End frames.

(** ** One notification *)
Section facts.
Context `{HashTextLaws} `{!JsonText} `{!JsonTextLaws} `{PebbleLaws} `{!Rlp} `{!RlpLaws} `{!BigText}.

Notation latest_of w := (latestOuter (pub (w_chk w))).

Record steady (w w' : World) : Prop := {
  st_config : config (w_chk w') = config (w_chk w);
  st_pub : pub (w_chk w') = pub (w_chk w);
  st_acks d : acks d (w_hist w') = acks d (w_hist w);
  st_commits : commits (w_hist w') = commits (w_hist w) }.

Lemma published_eq {A} (m : M A) w : keeps published m → wp m (λ _ w', steady w w') w.
Proof.
  intros Hm. specialize (Hm w). unfold published in Hm. unfold wp. destruct (m w) as [a w']. simpl in *.
  injection Hm as Hc Hp Hv Hs Hco. split; [done|done| |done]. by intros [].
Qed.

(** The topics that only the publication writes: the version topic, and without the
    leader's lock, as in legacy mode, the singleton topic. *)
Definition primary (w : World) (d : destination) : Prop :=
  d = outerVersion ∨ etcdLock (pub (w_chk w)) = None.
(** Nothing more was acknowledged there. *)
Definition unpublished_in (w w' : World) : Prop :=
  ∀ d, primary w d → acks d (w_hist w') = acks d (w_hist w).

Record realigned (w w' : World) : Prop := {
  ra_config : config (w_chk w') = config (w_chk w);
  ra_commits : commits (w_hist w') = commits (w_hist w);
  ra_latest : latest_of w' = latest_of w;
  ra_lock : etcdLock (pub (w_chk w')) = etcdLock (pub (w_chk w));
  ra_db : w_db w' = w_db w;
  ra_acks : unpublished_in w w';
  ra_scan : scan (w_chk w') = scan (w_chk w) }.

Lemma aligned_eq w : wp AlignOuterSingleton (λ _ w', realigned w w') w.
Proof.
  pose proof (aligned_keeps w) as Hm. unfold aligned_part in Hm. unfold wp.
  destruct (AlignOuterSingleton w) as [a w'] eqn:Ea. simpl in *. injection Hm as Hc Hl Hk Hv Hco Hd Hs.
  split; try done. intros d [->|Hn]; [done|]. unfold AlignOuterSingleton, bind, get_pub, asks in Ea.
  rewrite Hn in Ea. by injection Ea as _ <-.
Qed.

(** The latest notice is that of a new block, but not of the last one. *)
Definition partly (cfg : Config) (l : list BlockContext) (latest : option OuterNotice) : Prop :=
  ∃ k b, l !! k = Some b ∧ (S k < length l)%nat ∧ latest = Some (block_notice cfg false b).

(** A publication leaves the database and the scanner alone; when it is complete the
    latest notice is that of the last new block, and otherwise that of an earlier one or
    still the same. *)
Lemma publishNotice_frame dropBlocks newBlocks timings w :
  wp (publishNotice dropBlocks newBlocks timings) (λ ok w', framed w w' ∧ commits (w_hist w') = commits (w_hist w) ∧
    (ok = true → ∀ tail, last newBlocks = Some tail →
       latest_of w' = Some (block_notice (config (w_chk w)) false tail)) ∧
    (ok = false → latest_of w' = latest_of w ∨ partly (config (w_chk w)) newBlocks (latest_of w'))) w.
Proof.
  assert (∀ l w, wp (WriteDropBlockNotice l) (λ _ w', framed w w' ∧ latest_of w' = latest_of w) w) as Hdrop.
  { clear w. induction l as [|x l IH]; intros w; cbn [WriteDropBlockNotice]; [apply wp_ret; split; [apply framed_refl|done]|].
    apply wp_bind. unfold wp at 1. simpl. apply wp_bind.
    eapply wp_mono; [apply publishOuter_spec, quiet_ret|]. intros ok w1 (Hf & Hl & _).
    destruct ok; [|by apply wp_ret]. eapply wp_mono; [apply IH|]. intros ok2 w2 [Hf2 Hl2].
    split; [by eapply framed_trans|congruence]. }
  assert (∀ l w, wp (WriteNewBlockNotice l timings) (λ ok w', framed w w' ∧
    (ok = true → ∀ tail, last l = Some tail → latest_of w' = Some (block_notice (config (w_chk w)) false tail)) ∧
    (ok = false → latest_of w' = latest_of w ∨ partly (config (w_chk w)) l (latest_of w'))) w) as Hnew.
  { clear w. induction l as [|x l IH]; intros w; cbn [WriteNewBlockNotice].
    { apply wp_ret. split; [apply framed_refl|done]. }
    apply wp_bind. unfold wp at 1. simpl. apply wp_bind.
    eapply wp_mono; [apply publishOuter_spec, quiet_latency|]. intros ok w1 (Hf & Hl1 & _).
    destruct ok; [|apply wp_ret; split_and!; [done|done|by left]]. apply wp_bind. unfold wp at 1. simpl.
    set (w2 := mkWorld _ _ _ _). assert (framed w w2) as Hf2 by (destruct Hf; by split).
    destruct l as [|y l].
    - apply wp_ret. split_and!; [done| |done]. intros _ tail [= <-]. done.
    - eapply wp_mono; [apply IH|]. intros ok w3 (Hf3 & Hl & Hp). rewrite (fr_config _ _ Hf2) in Hl, Hp.
      split_and!; [by eapply framed_trans|exact Hl|]. intros Hok. right. destruct (Hp Hok) as [Heq|(k & b & Hk & Hlt & Heq)].
      + exists O, x. split_and!; [done|simpl; lia|by rewrite Heq].
      + exists (S k), b. split_and!; [done|simpl in *; lia|done]. }
  enough (wp (publishNotice dropBlocks newBlocks timings) (λ ok w', framed w w' ∧
    (ok = true → ∀ tail, last newBlocks = Some tail →
       latest_of w' = Some (block_notice (config (w_chk w)) false tail)) ∧
    (ok = false → latest_of w' = latest_of w ∨ partly (config (w_chk w)) newBlocks (latest_of w'))) w) as Hw.
  { pose proof (committed_publish dropBlocks newBlocks timings w) as Hc. unfold wp in *. by destruct Hw. }
  unfold publishNotice. apply wp_bind. eapply wp_mono; [apply Hdrop|]. intros ok w1 [Hf Hl1].
  destruct ok; [|apply wp_ret; split_and!; [done|done|by left]]. eapply wp_mono; [apply Hnew|]. intros ok w2 (Hf2 & Hl & Hp).
  split; [by eapply framed_trans|]. rewrite <- Hl1. by rewrite <- (fr_config _ _ Hf).
Qed.

(** The fork-scan steps do not touch the block index. *)
Lemma idx_save h s : keeps (λ w, idx (cdb_store (w_db w)) h) (saveForkScan s).
Proof. intros w. destruct (save_spec s w) as (Hf & _). apply (f_idx _ _ Hf). Qed.
#[local] Hint Resolve idx_save : keeps.
Lemma idx_initialize h a p : keeps (λ w, idx (cdb_store (w_db w)) h) (initializeForkScan a p).
Proof. unfold initializeForkScan, get_scan, rewindForkScan, modify_scan, modify_chk. intros w.
  unfold bind, asks. destruct (_ =? _); [done|]. destruct (match forkState _ with Some _ => _ | None => _ end); [|done].
  match goal with |- context [saveForkScan ?s w] => pose proof (idx_save h s w) as Hs; destruct (saveForkScan s w) as [[[]|e] w1] end;
  done.
Qed.
#[local] Hint Resolve idx_initialize : keeps.
Lemma idx_prepare h n p : keeps (λ w, idx (cdb_store (w_db w)) h) (prepareForkScan n p).
Proof.
  unfold prepareForkScan, reconcileForkScanReplay, get_config, get_scan, get_pub, get_store, rewindForkScan, when.
  repeat lazymatch goal with
  | |- keeps _ (bind _ _) => apply keeps_bind; [|intros ?]
  | |- keeps _ (match ?x with _ => _ end) => destruct x
  | |- keeps _ (modify_scan _) => by intros w
  | |- keeps _ _ => solve [auto 2 with keeps]
  end.
Qed.
Lemma idx_finish h p : keeps (λ w, idx (cdb_store (w_db w)) h) (finishForkScan p).
Proof.
  unfold finishForkScan, get_config, get_scan, get_pub.
  repeat lazymatch goal with
  | |- keeps _ (bind _ _) => apply keeps_bind; [|intros ?]
  | |- keeps _ (match ?x with _ => _ end) => destruct x
  | |- keeps _ (modify_scan _) => by intros w
  | |- keeps _ _ => solve [auto 2 with keeps]
  end.
Qed.

(** What the fork-scan steps of the processing goroutine leave alone. *)
Record beside (w w' : World) : Prop := {
  bs_steady : steady w w';
  bs_idx h : idx (cdb_store (w_db w')) h = idx (cdb_store (w_db w)) h }.

Lemma prepare_frame n p w : wp (prepareForkScan n p) (λ _ w', beside w w') w.
Proof. split; [apply (published_eq _ w (published_prepare n p))|intros h; apply (idx_prepare h n p w)]. Qed.
Lemma finish_frame p w : wp (finishForkScan p) (λ _ w', beside w w') w.
Proof. split; [apply (published_eq _ w (published_finish p))|intros h; apply (idx_finish h p w)]. Qed.

(** The index write, seen from the checker: how the fork-scan state follows it. *)
Definition scan_follows (w w' : World) (first : BlockContext) (s : ForkScanState) (r : option ForkScanState) : Prop :=
  ∃ n, r = Some n ∧ forkState (scan (w_chk w')) = Some n ∧
    forkBatch (scan (w_chk w')) = forkBatch (scan (w_chk w)) ∧
    heap_le (batchHeap (scan (w_chk w))) (batchHeap (scan (w_chk w'))) ∧
    (Generation n ≠ Generation s → ∀ p b, forkBatch (scan (w_chk w)) = Some p →
       batchHeap (scan (w_chk w)) !! p = Some b → ∃ b', batchHeap (scan (w_chk w')) !! p = Some b' ∧
       ∀ h, BlockNumber first ≤ h → batch_stale b' h = true).

Record same_publisher (w w' : World) : Prop := {
  sp_env : w_env w' = w_env w;
  sp_hist : w_hist w' = w_hist w;
  sp_config : config (w_chk w') = config (w_chk w);
  sp_pub : pub (w_chk w') = pub (w_chk w);
  sp_rep : rep (w_chk w') = rep (w_chk w) }.

(** The cursor that goes along with a write. *)
Definition cursor_for_write (w : World) : option ForkScanState :=
  if ContinuousForkScan (config (w_chk w)) then forkState (scan (w_chk w)) else None.

Record wrote (l : list BlockContext) (w w' : World) (c : Z) (v : string) (first tail : BlockContext)
    (top : Z) (ch : bool) (r : option ForkScanState) : Prop := {
  wr_head : head l = Some first;
  wr_last : last l = Some tail;
  wr_effect : write_effect (cdb_store (w_db w)) l c v (cursor_for_write w) first tail top ch r (cdb_store (w_db w'));
  wr_scan : match cursor_for_write w with
            | None => scan (w_chk w') = scan (w_chk w) ∧ stored w' = stored w
            | Some s => (c, v) = (ChainID (config (w_chk w)), Version (config (w_chk w))) ∧
                        scan_follows w w' first s r
            end }.

Lemma write_db_spec l pf w : blocks_wf l →
  wp (writeBlockInfoToDB l pf) (λ ok w', same_publisher w w' ∧
    if ok then ∃ c v first tail top ch r, wrote l w w' c v first tail top ch r
    else scan (w_chk w') = scan (w_chk w) ∧ kv_view (cdb_store (w_db w')) = kv_view (cdb_store (w_db w))) w.
Proof.
  intros Hwf. unfold writeBlockInfoToDB.
  destruct (prefetched_hashes pf) as [vhs|e]; [|by apply wp_ret].
  destruct (head l) as [first|] eqn:Eh; [|by apply wp_ret].
  do 2 (apply wp_bind; unfold wp at 1; simpl). fold (cursor_for_write w).
  destruct (cursor_for_write w) as [s|] eqn:Est; apply wp_bind; unfold wp at 1, with_db.
  - destruct (WriteBlockInfosWithForkScan _ _ _ _ _ _) as [r db'] eqn:Ew. destruct r as [r|e].
    + destruct (Write_ok _ _ _ _ _ _ _ _ Ew Hwf) as (first' & tail & top & ch & Hf' & Ht & Heff).
      assert (first' = first) as -> by congruence.
      destruct (we_some _ _ _ _ _ _ _ _ _ _ _ Heff s eq_refl) as (n & k & -> & _).
      assert (∀ w1, same_publisher w w1 → w_db w1 = db' → scan_follows w w1 first s (Some n) →
        same_publisher w w1 ∧ ∃ c v first tail top ch r, wrote l w w1 c v first tail top ch r) as Hend.
      { intros w1 Hsp Hd Hsf. split; [done|]. do 2 eexists. exists first, tail, top, ch, (Some n).
        split; [done|done| |]; rewrite ?Hd, Est; [exact Heff|done]. }
      apply wp_bind. destruct (negb (Generation n =? Generation s)) eqn:Eg; unfold when, wp at 1; simpl.
      * destruct (rewind_scan_spec (BlockNumber first) (Generation n) (scan (w_chk w)))
          as (_ & _ & _ & _ & Hb & Hl & Hfe).
        apply wp_bind. unfold wp at 1. simpl. apply wp_ret. apply Hend; [done|done|]. exists n. split_and!; try done.
        intros _ p b Hpb Hbb. destruct (Hfe p b Hpb Hbb) as (b' & Hb' & _ & Hst). by exists b'.
      * apply wp_bind. unfold wp at 1. simpl. apply wp_ret. apply Hend; [done|done|]. exists n.
        split_and!; try done; [apply heap_le_refl|]. intros Hne. by apply negb_false_iff, Z.eqb_eq in Eg.
    + apply Write_fail in Ew as [Hv _]. by apply wp_ret.
  - destruct (WriteBlockInfos _ _ _) as [e db'] eqn:Ew. apply wp_ret. unfold WriteBlockInfos in Ew.
    destruct (WriteBlockInfosWithForkScan _ _ _ 0 "" None) as [[r|e'] db1] eqn:Ew1; injection Ew as <- <-.
    + destruct (Write_ok _ _ _ _ _ _ _ _ Ew1 Hwf) as (first' & tail & top & ch & Hf' & Ht & Heff).
      split; [done|]. exists 0, "", first', tail, top, ch, r. split; rewrite ?Est; try done. split; [done|]. by apply (Write_none_cursor _ _ _ _ _ _ _ _ _ Ew1).
    + apply Write_fail in Ew1 as [Hv _]. by split.
Qed.

(** A notification whose last block was published already. *)
Definition replayed (w : World) (notice : BlockChangeNotification) : bool :=
  isDuplicateBlockNotification (pub (w_chk w)) notice || isAlreadyProcessed (pub (w_chk w)) notice.

(** The cursor after a successful [finishForkScan]. *)
Definition cursor_at (w : World) (latest : OuterNotice) (position : option ForkScanPosition) : Prop :=
  ∃ s, forkState (scan (w_chk w)) = Some s ∧ stored w = Some (json_print (state_json s)) ∧
    Published s = mkAnchor (ON_BlockNumber latest) (ON_Hash latest) ∧
    (∀ p, position = Some p → Position s = Some p) ∧ forkAligned (scan (w_chk w)) = true.

Lemma initialize_stored anchor position w :
  wp (initializeForkScan anchor position) (λ r w', r = Ok tt → pub (w_chk w') = pub (w_chk w) ∧
    ∃ s, forkState (scan (w_chk w')) = Some s ∧ stored w' = Some (json_print (state_json s)) ∧
      Published s = anchor ∧ Position s = position) w.
Proof.
  unfold initializeForkScan. destruct (_ =? _); [by apply wp_ret|]. apply wp_bind. unfold wp at 1. simpl.
  destruct (match forkState _ with Some _ => _ | None => _ end) as [g|e]; [|by apply wp_ret].
  apply wp_bind. eapply wp_mono; [apply wp_and; [apply save_spec|apply published_eq, published_save]|].
  intros [[]|e] w1 ((Hf & Hh & Hr) & [_ Hp _ _]); [|by apply wp_ret]. destruct Hr as (Hv & Hs & Hst).
  apply wp_bind. unfold wp at 1. simpl. apply wp_ret. intros _. split; [done|]. eexists.
  destruct (rewind_scan_spec 0 g (scan (w_chk w1))) as (Hs1 & _). unfold stored in *. simpl. rewrite Hs1, Hs.
  by split_and!.
Qed.

Lemma finish_cursor position w :
  wp (finishForkScan position) (λ ok w', ok = true → ContinuousForkScan (config (w_chk w)) = true →
    ∀ latest, latest_of w = Some latest → ON_IsFork latest = false → cursor_at w' latest position) w.
Proof.
  unfold finishForkScan. do 3 (apply wp_bind; unfold wp at 1; simpl).
  destruct (ContinuousForkScan _) eqn:Ec; [|by apply wp_ret]. cbn [negb].
  destruct (latest_of w) as [n|] eqn:El; [|by apply wp_ret].
  destruct (negb _); [by apply wp_ret|]. destruct (ON_IsFork n) eqn:Ef.
  { apply wp_ret. intros _ _ l [= <-]. by rewrite Ef. }
  apply wp_bind. apply (wp_mono _ (λ r w', r = Ok tt → ∃ s, forkState (scan (w_chk w')) = Some s ∧
    stored w' = Some (json_print (state_json s)) ∧ Published s = mkAnchor (ON_BlockNumber n) (ON_Hash n) ∧
    ∀ p, position = Some p → Position s = Some p)).
  - destruct (forkState (scan (w_chk w))) as [s|].
    + eapply wp_mono; [apply save_spec|]. intros [[]|e] w1 (_ & _ & Hr); [|done]. intros _.
      destruct Hr as (_ & Hs & Hst). eexists. rewrite Hs. split_and!; [done|done| |].
      * by destruct position, (bool_decide _).
      * intros p ->. by destruct (bool_decide _).
    + eapply wp_mono; [apply initialize_stored|]. intros r w1 Hr Hok.
      destruct (Hr Hok) as (_ & s & Hs & Hst & Hp & Hpos). exists s. split_and!; try done. congruence.
  - intros [[]|e] w1 Hr; [|by apply wp_ret]. destruct (Hr eq_refl) as (s & Hs & Hst & Hp & Hpos).
    apply wp_bind. unfold wp at 1. simpl. apply wp_ret. intros _ _ l [= <-] _. by exists s.
Qed.

(** The new blocks are canonical in the index, up to the notification's tip. *)
Definition indexed (l : list BlockContext) (w : World) : Prop :=
  ∀ tail h x, last l = Some tail → 0 ≤ h ≤ BlockNumber tail → last_at h l = Some x →
    canon (cdb_store (w_db w)) h = Some x.

Lemma write_indexed l pf w :
  wp (writeBlockInfoToDB l pf) (λ ok w', steady w w' ∧ (ok = true → blocks_wf l → indexed l w')) w.
Proof.
  pose proof (published_eq _ w (published_write l pf)) as Hp. unfold wp in *. split; [done|]. intros Hok Hwf.
  pose proof (write_db_spec l pf w Hwf) as Hs. unfold wp in Hs. rewrite Hok in Hs.
  destruct Hs as (_ & c & v & first & tail & top & ch & r & [Hh Hl He _]). intros tail' h x Ht Hr Hx.
  assert (tail' = tail) as -> by congruence. apply canon_idx. rewrite (we_idx _ _ _ _ _ _ _ _ _ _ _ He) by lia.
  destruct (Z.ltb_spec (BlockNumber tail) h); [lia|]. by rewrite Hx.
Qed.

(** Nothing more was acknowledged anywhere. *)
Definition untouched (w w' : World) : Prop := ∀ d, acks d (w_hist w') = acks d (w_hist w).

(** The outcome of steps 1 to 8. *)
Record stepped (notice : BlockChangeNotification) (tail : BlockContext) (w : World) (done : bool) (w' : World) : Prop := {
  sd_config : config (w_chk w') = config (w_chk w);
  sd_commits : commits (w_hist w') = commits (w_hist w);
  sd_lock : etcdLock (pub (w_chk w')) = etcdLock (pub (w_chk w));
  sd_latest : done = true → latest_of w' = Some (block_notice (config (w_chk w)) false tail);
  sd_partly : latest_of w' = latest_of w ∨ partly (config (w_chk w)) (NewBlocks notice) (latest_of w') ∨
    latest_of w' = Some (block_notice (config (w_chk w)) false tail);
  sd_index : blocks_wf (NewBlocks notice) → untouched w w' ∨ indexed (NewBlocks notice) w' }.

Lemma stepped_steady notice tail w w' : steady w w' → stepped notice tail w false w'.
Proof. intros [Hc Hp Ha Hm]. split; [done|done|by rewrite Hp|done|left; by rewrite Hp|by left]. Qed.
Lemma steady_trans w1 w2 w3 : steady w1 w2 → steady w2 w3 → steady w1 w3.
Proof. intros [] []. split; [congruence..| |congruence]. intros d. by rewrite st_acks1. Qed.
Lemma unpublished_steady w w' : unpublished w w' ∧ commits (w_hist w') = commits (w_hist w) → steady w w'.
Proof. intros [[_ Hc _ Ha] Hm]. by split; rewrite ?Hc. Qed.

(** [unpublished_in] only depends on the lock and the deliveries. *)
Lemma unpublished_in_trans w w1 w2 w' : unpublished_in w w1 → (∀ d, acks d (w_hist w2) = acks d (w_hist w1)) →
  etcdLock (pub (w_chk w2)) = etcdLock (pub (w_chk w)) → unpublished_in w2 w' → unpublished_in w w'.
Proof.
  intros Ha Hb Hk Hc d Hd. rewrite Hc, Hb; [by apply Ha|]. destruct Hd as [->|Hn]; [by left|right; congruence].
Qed.
Lemma unpublished_in_steady w w' : (∀ d, acks d (w_hist w') = acks d (w_hist w)) → unpublished_in w w'.
Proof. by intros Ha d _. Qed.

Lemma publish_steps_spec notice tail timings w : last (NewBlocks notice) = Some tail →
  wp (publish_steps notice tail timings)
    (λ r w', stepped notice tail w (bool_decide (r.1 = Some true)) w') w.
Proof.
  intros Ht. unfold publish_steps. apply wp_bind. unfold wp at 1. simpl.
  apply wp_bind. eapply wp_mono; [apply quiet_unpublished, quiet_prefetch|]. intros pf w1 Hs1%unpublished_steady.
  apply wp_bind. eapply wp_mono; [apply published_eq, published_notify|]. intros ok w2 Hs2.
  pose proof (steady_trans _ _ _ Hs1 Hs2) as Hs12. destruct ok; [|by apply wp_ret, stepped_steady].
  apply wp_bind. eapply wp_mono; [apply quiet_unpublished, quiet_drops|]. intros _ w3 Hs3%unpublished_steady.
  pose proof (steady_trans _ _ _ Hs12 Hs3) as Hs13. apply wp_bind. eapply wp_mono; [apply write_indexed|].
  intros ok w4 [Hs4 Hi]. pose proof (steady_trans _ _ _ Hs13 Hs4) as Hs14.
  destruct ok; [|by apply wp_ret, stepped_steady].
  apply wp_bind. eapply wp_mono; [apply quiet_unpublished, quiet_same_height|]. intros e w5 [Hu5 Hm5].
  pose proof (steady_trans _ _ _ Hs14 (unpublished_steady _ _ (conj Hu5 Hm5))) as Hs15.
  destruct e as [u|e]; [|by apply wp_ret, stepped_steady]. apply wp_bind.
  eapply wp_mono; [apply publishNotice_frame|]. intros ok w6 (Hf & Hm6 & Hl & Hp6).
  assert (blocks_wf (NewBlocks notice) → indexed (NewBlocks notice) w6) as Hi6.
  { intros Hwf. unfold indexed. rewrite (fr_db _ _ Hf), (un_db _ _ Hu5). by apply Hi. }
  assert (config (w_chk w6) = config (w_chk w)) as Hc6 by (by rewrite (fr_config _ _ Hf), (st_config _ _ Hs15)).
  assert (commits (w_hist w6) = commits (w_hist w)) as Hm by (by rewrite Hm6, (st_commits _ _ Hs15)).
  assert (etcdLock (pub (w_chk w6)) = etcdLock (pub (w_chk w))) as Hk6 by (by rewrite (fr_lock _ _ Hf), (un_chk _ _ Hu5), (st_pub _ _ Hs14)).
  assert (config (w_chk w5) = config (w_chk w)) as Hc5 by apply (st_config _ _ Hs15).
  destruct ok.
  2: { apply wp_ret. split; [done..| |intros Hwf; right; by apply Hi6]. rewrite Hc5 in Hp6.
       assert (latest_of w5 = latest_of w) as <- by (by rewrite (st_pub _ _ Hs15)).
       destruct (Hp6 eq_refl) as [?|?]; [by left|right; by left]. }
  apply wp_bind. eapply wp_mono; [apply aligned_eq|]. intros r w7 [Hc7 Hm7 Hl7 Hk7 Hd7 _ _]. apply wp_ret.
  split; [congruence..| | |].
  - intros _. by rewrite Hl7, (Hl eq_refl tail Ht), Hc5.
  - right. right. by rewrite Hl7, (Hl eq_refl tail Ht), Hc5.
  - intros Hwf. right. unfold indexed. rewrite Hd7. by apply Hi6.
Qed.

(** The outcome of one notification. *)
Record processed (notice : BlockChangeNotification) (position : option ForkScanPosition) (w : World)
    (ok : bool) (w' : World) : Prop := {
  pr_config : config (w_chk w') = config (w_chk w);
  pr_commits : commits (w_hist w') = commits (w_hist w);
  pr_lock : etcdLock (pub (w_chk w')) = etcdLock (pub (w_chk w));
  pr_latest : ok = true → ∃ tail latest, last (NewBlocks notice) = Some tail ∧ latest_of w' = Some latest ∧
    ON_Hash latest = BlockHash tail ∧
    (ContinuousForkScan (config (w_chk w)) = true → ON_IsFork latest = false → cursor_at w' latest position);
  pr_partly : latest_of w' = latest_of w ∨ partly (config (w_chk w)) (NewBlocks notice) (latest_of w') ∨
    ∃ tail latest, last (NewBlocks notice) = Some tail ∧ latest_of w' = Some latest ∧ ON_Hash latest = BlockHash tail;
  pr_index : blocks_wf (NewBlocks notice) → replayed w notice = false →
    untouched w w' ∨ indexed (NewBlocks notice) w' }.

Lemma replayed_latest w notice tail : replayed w notice = true → last (NewBlocks notice) = Some tail →
  ∃ latest, latest_of w = Some latest ∧ ON_Hash latest = BlockHash tail.
Proof.
  unfold replayed, isAlreadyProcessed, already_processed, isDuplicateBlockNotification. intros Hd Ht. rewrite Ht in Hd.
  destruct (latest_of w) as [latest|]; [|done]. exists latest. split; [done|].
  apply orb_true_iff in Hd as [Hd|Hd]; [|by apply bool_decide_eq_true in Hd].
  destruct (DropBlocks notice); [|done]. destruct (NewBlocks notice) as [|b [|]]; try done.
  simpl in Ht. injection Ht as <-. by apply bool_decide_eq_true in Hd.
Qed.

(** The alignment, with its run named. *)
Lemma wp_known_aligned {B} (f : option bool → M B) Q w :
  (∀ o w', AlignOuterSingleton w = (o, w') → realigned w w' → wp (f o) Q w') → wp (bind AlignOuterSingleton f) Q w.
Proof.
  intros Hf. pose proof (aligned_eq w) as Ha. unfold wp, bind in *. destruct (AlignOuterSingleton w) as [o w'] eqn:E.
  by apply Hf.
Qed.

Lemma processed_beside notice position w w' : steady w w' → processed notice position w false w'.
Proof.
  intros [Hc Hp Ha Hm]. split; [done|done|by rewrite Hp|done|left; by rewrite Hp|by left].
Qed.

(** Of all that could be published, at most one alignment was. *)
Definition only_aligned (w w' : World) : Prop :=
  untouched w w' ∨
  ∃ w1 r w2, steady w w1 ∧ AlignOuterSingleton w1 = (r, w2) ∧ untouched w2 w' ∧
    ∀ h, idx (cdb_store (w_db w1)) h = idx (cdb_store (w_db w)) h.

Lemma align_and_finish_spec notice position w : replayed w notice = true →
  wp (align_and_finish notice position) (λ r w',
    (unpublished_in w w' ∧ only_aligned w w' ∧ latest_of w' = latest_of w ∧
     ∀ h, idx (cdb_store (w_db w')) h = idx (cdb_store (w_db w)) h) ∧
    (is_Some (last (NewBlocks notice)) → processed notice position w (bool_decide (r = Some true)) w')) w.
Proof.
  intros Hd. unfold align_and_finish. apply wp_bind.
  eapply wp_mono; [apply prepare_frame|]. intros ok w1 [Hs1 Hi1]. pose proof Hs1 as [Hc1 Hp1 Ha1 Hm1].
  destruct ok.
  2: { apply wp_ret. split_and!; [by intros d _|by left|by rewrite Hp1|done|]. intros _. by apply processed_beside. }
  apply wp_known_aligned. intros o w2 Eo [Hc2 Hm2 Hl2 Hk2 Hd2 Ha2 _].
  assert (∀ h, idx (cdb_store (w_db w2)) h = idx (cdb_store (w_db w)) h) as Hi2 by (intros h; by rewrite Hd2).
  assert (∀ w3, untouched w2 w3 → only_aligned w w3) as Hal by (intros w3 Hw3; right; by exists w1, o, w2).
  rewrite Hp1 in Hl2, Hk2. apply (unpublished_in_trans w w) in Ha2; [|by intros d _|done|by rewrite Hp1].
  destruct o as [[]|].
  2,3: apply wp_ret; split_and!; [done|by apply Hal|done..|]; intros _; split; [congruence..|done|by left|by rewrite Hd].
  apply wp_bind. eapply wp_mono; [apply wp_and; [apply finish_frame|apply finish_cursor]|].
  intros ok w3 ([[Hc3 Hp3 Ha3 Hm3] Hi3] & Hcur). apply wp_ret. rewrite <- Hp3 in Hl2, Hk2.
  assert (unpublished_in w w3) as Ha by (intros d Hd'; rewrite Ha3; by apply Ha2).
  split_and!; [done|by apply Hal|done|intros h; by rewrite Hi3|]. intros [tail Ht].
  destruct (replayed_latest _ _ _ Hd Ht) as (latest & Hl & Hh). split; [congruence..| |by left|by rewrite Hd].
  intros Hok%bool_decide_eq_true. injection Hok as ->. exists tail, latest. split_and!; [done|congruence|done|].
  intros Hcont Hf. apply Hcur; try done; congruence.
Qed.

Lemma process_spec notice timings position w :
  wp (processNotice notice timings position)
    (λ r w', processed notice position w (bool_decide (r = Some true)) w') w.
Proof.
  unfold processNotice. apply wp_bind. unfold wp at 1. simpl.
  destruct (last (NewBlocks notice)) as [tail|] eqn:Et; [|by apply wp_ret, processed_beside].
  fold (replayed w notice). destruct (replayed w notice) eqn:Ed.
  { eapply wp_mono; [by apply align_and_finish_spec|]. intros r w' [_ Hpr]. apply Hpr. by rewrite Et. }
  destruct (msgCheck _ notice); [|by apply wp_ret, processed_beside].
  apply wp_bind. eapply wp_mono; [apply prepare_frame|]. intros ok w1 [[Hc1 Hp1 Ha1 Hm1] _].
  destruct ok; [|by apply wp_ret, processed_beside]. apply wp_bind. unfold wp at 1. simpl.
  set (w2 := mkWorld _ _ _ _). apply wp_bind.
  assert (etcdLock (pub (w_chk w2)) = etcdLock (pub (w_chk w1))) as Hk2 by (subst w2; simpl; by case_decide).
  assert (latest_of w2 = latest_of w) as Hlat2 by (subst w2; simpl; case_decide; simpl; by rewrite Hp1).
  eapply wp_mono; [by apply publish_steps_spec|]. intros [r pf] w3 [Hc3 Hm3 Hk3 Hl3 Hpa3 Hi3].
  rewrite Hlat2 in Hpa3. simpl in Hc3, Hm3, Hl3, Hpa3, Hi3. rewrite Hc1 in Hpa3.
  assert (config (w_chk w3) = config (w_chk w)) as Hc by congruence.
  assert (commits (w_hist w3) = commits (w_hist w)) as Hm by congruence.
  assert (etcdLock (pub (w_chk w3)) = etcdLock (pub (w_chk w))) as Hk by (by rewrite Hk3, Hk2, Hp1).
  assert (blocks_wf (NewBlocks notice) → untouched w w3 ∨ indexed (NewBlocks notice) w3) as Hi3'.
  { intros Hwf. destruct (Hi3 Hwf) as [Ha|Hx]; [left|by right]. intros d. by rewrite Ha. }
  assert (∀ w4, latest_of w4 = latest_of w3 → latest_of w4 = latest_of w ∨
    partly (config (w_chk w)) (NewBlocks notice) (latest_of w4) ∨
    ∃ tail latest, last (NewBlocks notice) = Some tail ∧ latest_of w4 = Some latest ∧ ON_Hash latest = BlockHash tail) as Hpa.
  { intros w4 ->. destruct Hpa3 as [?|[?|?]]; [by left|right; by left|]. right. right. by eexists tail, _. }
  destruct r as [[]|]; [|apply wp_ret; split; auto; done..].
  specialize (Hl3 eq_refl). apply wp_bind. eapply wp_mono; [apply wp_and; [apply finish_frame|apply finish_cursor]|].
  intros ok w4 ([[Hc4 Hp4 Ha4 Hm4] Hi4] & Hcur).
  assert (blocks_wf (NewBlocks notice) → untouched w w4 ∨ indexed (NewBlocks notice) w4) as Hi.
  { intros Hwf. destruct (Hi3' Hwf) as [Ha|Hx]; [left; intros d; rewrite Ha4; by apply Ha|right]. unfold indexed, canon in *.
    intros t h x. rewrite Hi4. apply Hx. }
  destruct ok; [|apply wp_ret; split; [congruence..|done|apply Hpa; by rewrite Hp4|by auto]].
  apply wp_bind. eapply wp_mono; [apply quiet_unpublished, quiet_same_height|]. intros e w5 [[_ Hc5 Hd5 Ha5] Hm5].
  apply wp_ret. split; [congruence..| |apply Hpa; by rewrite Hc5, Hp4|].
  - intros _. exists tail, (block_notice (config (w_chk w1)) false tail). rewrite Hc5, Hp4.
    split_and!; [done|done|done|]. intros Hcont Hf. unfold cursor_at, stored. rewrite Hc5, Hd5.
    apply Hcur; try done. by rewrite Hc.
  - intros Hwf _. unfold untouched, indexed. setoid_rewrite Ha5. rewrite Hd5. by apply Hi.
Qed.

(** A notification that is reported processed was published to its end: it has new
      blocks, and the checker's latest notice carries the hash of the last one. *)
Theorem processed_means_published notice timings position w w' :
  processNotice notice timings position w = (Some true, w') →
  ∃ tail latest, last (NewBlocks notice) = Some tail ∧ latest_of w' = Some latest ∧
    ON_Hash latest = BlockHash tail.
Proof.
  intros Hr. destruct (wp_run _ _ _ _ _ (process_spec notice timings position w) Hr) as [_ _ _ Hl _ _].
  destruct (Hl eq_refl) as (tail & latest & ? & ? & ? & _). by exists tail, latest.
Qed.

Lemma replay_spec notice timings position w : replayed w notice = true →
  wp (processNotice notice timings position) (λ _ w', unpublished_in w w' ∧ only_aligned w w' ∧
    latest_of w' = latest_of w ∧ ∀ h, idx (cdb_store (w_db w')) h = idx (cdb_store (w_db w)) h) w.
Proof.
  intros Hd. unfold processNotice. apply wp_bind. unfold wp at 1. simpl. fold (replayed w notice). rewrite Hd.
  destruct (last (NewBlocks notice)); [|apply wp_ret; split_and!; try done; by left].
  eapply wp_mono; [by apply align_and_finish_spec|]. by intros r w' [? _].
Qed.

(** (C37) No reader of the published blocks is ahead of the block index: when the processing of a
    notification had any notice acknowledged in any topic, then, whether it succeeded or
    not, each new block is the canonical one at its height.  A notification that was
    published before is no exception, except that its alignment may still write to
    the singleton topic on behalf of the leader. *)
Theorem index_before_publication notice timings position w r w' d :
  processNotice notice timings position w = (r, w') → blocks_wf (NewBlocks notice) →
  replayed w notice = false ∨ primary w d →
  acks d (w_hist w') ≠ acks d (w_hist w) → indexed (NewBlocks notice) w'.
Proof.
  intros Hr Hwf Hd Hne. destruct (replayed w notice) eqn:Ed.
  - destruct Hd as [|Hd]; [done|]. destruct (wp_run _ _ _ _ _ (replay_spec _ timings position w Ed) Hr) as [Ha _].
    by destruct Hne; apply Ha.
  - destruct (wp_run _ _ _ _ _ (process_spec notice timings position w) Hr) as [_ _ _ _ _ Hi].
    destruct (Hi Hwf Ed) as [Ha|]; [by destruct Hne; apply Ha|done].
Qed.

(** (C38) A notification that was published before is not published again: all that is written
    to Kafka meanwhile is one alignment -- which writes to the singleton topic, and only
    for a leader that is not aligned; the topic the notification went to, the block
    index and the latest notice stay as they are. *)
Theorem replay_only_aligns notice timings position w r w' :
  replayed w notice = true → processNotice notice timings position w = (r, w') →
  unpublished_in w w' ∧ only_aligned w w' ∧ latest_of w' = latest_of w ∧
  ∀ h, idx (cdb_store (w_db w')) h = idx (cdb_store (w_db w)) h.
Proof. intros Hd Hr. apply (wp_run _ _ _ _ _ (replay_spec notice timings position w Hd) Hr). Qed.

(** The notification of a chain: no block is new twice, dropped as well, or the parent of
    the first. *)
Record distinct (notice : BlockChangeNotification) : Prop := {
  ds_new : NoDup (BlockHash <$> NewBlocks notice);
  ds_drop b : last (DropBlocks notice) = Some b → BlockHash b ∉ BlockHash <$> NewBlocks notice;
  ds_parent b : head (NewBlocks notice) = Some b → ParentHash b ∉ BlockHash <$> NewBlocks notice }.

(** The check refuses a notification when the latest notice is that of one of its blocks,
    the last one apart. *)
Lemma partly_refused notice timings position w : distinct notice →
  partly (config (w_chk w)) (NewBlocks notice) (latest_of w) →
  processNotice notice timings position w = (Some false, w).
Proof.
  intros [Hnd Hdrop Hpar] (k & b & Hk & Hlt & Hl).
  assert (BlockHash b ∈ BlockHash <$> NewBlocks notice) as Hin by (apply list_elem_of_fmap_2; by eapply list_elem_of_lookup_2).
  destruct (last (NewBlocks notice)) as [tail|] eqn:Et; [|by apply last_None in Et; rewrite Et in Hlt; simpl in Hlt; lia].
  assert (BlockHash tail ≠ BlockHash b) as Hne.
  { intros Heq. rewrite last_lookup in Et.
    assert (k = pred (length (NewBlocks notice))); [|lia].
    eapply (NoDup_lookup (BlockHash <$> NewBlocks notice)); [done|by rewrite list_lookup_fmap, Hk|].
    rewrite list_lookup_fmap, Et. simpl. by rewrite Heq. }
  unfold processNotice, bind, get_pub, asks. rewrite Et.
  replace (isDuplicateBlockNotification _ notice) with false.
  2: { symmetry. unfold isDuplicateBlockNotification. rewrite Hl.
       destruct (DropBlocks notice); [|done]. destruct (NewBlocks notice) as [|x [|]]; try done. simpl in Hlt. lia. }
  unfold isAlreadyProcessed, already_processed. rewrite Hl, Et. simpl. rewrite bool_decide_false by done.
  unfold msgCheck. rewrite Hl. simpl. destruct (last (DropBlocks notice)) as [x|] eqn:Ed.
  - rewrite bool_decide_false; [done|]. intros Heq. apply (Hdrop x eq_refl). by rewrite Heq.
  - destruct (head (NewBlocks notice)) as [x|] eqn:Eh; [|done].
    rewrite bool_decide_false; [done|]. intros Heq. apply (Hpar x eq_refl). by rewrite Heq.
Qed.


(** ** The loop of [Run] *)

(** A turn may commit the offset of its message: the message was skipped, untouched,
    because its offset is not above the one the loop reached before, or its
    notification was processed in this turn. *)
Definition covered (msg : kafka_msg) (notice : BlockChangeNotification) (latestMsgOffset : Z)
    (cont : bool) (w w' : World) : Prop :=
  (latestMsgOffset ≠ 0 ∧ msg_Offset msg ≤ latestMsgOffset ∧ w_chk w' = w_chk w ∧ w_db w' = w_db w ∧ untouched w w') ∨
  (latestMsgOffset = 0 ∨ latestMsgOffset < msg_Offset msg) ∧
  ∃ tail latest, last (NewBlocks notice) = Some tail ∧ latest_of w' = Some latest ∧
    ON_Hash latest = BlockHash tail ∧
    (cont = true → ON_IsFork latest = false →
     cursor_at w' latest (Some (mkPosition (msg_Topic msg) (msg_Partition msg) (msg_Offset msg)))).

Lemma process_loop_spec p msg notice latestMsgOffset w :
  wp (loopM p (process_turn msg notice latestMsgOffset) tt) (λ r w',
    commits (w_hist w') = commits (w_hist w) ∧ (r = inr None →
      covered msg notice latestMsgOffset (ContinuousForkScan (config (w_chk w))) w w')) w.
Proof.
  set (skip := negb (latestMsgOffset =? 0) && (msg_Offset msg <=? latestMsgOffset)).
  set (Inv (_ : unit) w' := commits (w_hist w') = commits (w_hist w) ∧ config (w_chk w') = config (w_chk w) ∧
    (skip = true → w_chk w' = w_chk w ∧ w_db w' = w_db w ∧ untouched w w')).
  eapply wp_mono; [apply (wp_loopM _ Inv (λ r w', commits (w_hist w') = commits (w_hist w) ∧ (r = None →
      covered msg notice latestMsgOffset (ContinuousForkScan (config (w_chk w))) w w'))); [|by split]|].
  - intros [] w1 (Hm1 & Hc1 & Hsk1). unfold process_turn. fold skip. apply wp_bind. unfold wp at 1. simpl.
    destruct (w_env w1 _ _ RQuit); [by apply wp_ret; split; [simpl; rewrite commits_cons|]|].
    destruct skip eqn:El.
    { apply wp_ret. split; [by simpl; rewrite commits_cons|]. intros _. left. destruct (Hsk1 eq_refl) as (Hk & Hd & Ha).
      unfold skip in El. split_and!; [lia|lia|done|done|]. intros d. simpl. rewrite acks_cons, Ha. apply app_nil_r. }
    apply wp_bind. eapply wp_mono; [apply process_spec|]. intros r w2 [Hc2 Hm2 _ Hl2 _ _]. simpl in Hc2, Hm2, Hl2.
    rewrite commits_cons in Hm2. simpl in Hm2. destruct r as [[]|].
    + apply wp_ret. split; [congruence|]. intros _. right. split; [unfold skip in El; lia|].
      destruct (Hl2 eq_refl) as (tail & l & ? & ? & ? & Hcur). exists tail, l. split_and!; try done. by rewrite <- Hc1.
    + apply wp_bind. unfold wp at 1. simpl. apply wp_ret. split; [simpl; rewrite commits_cons; simpl; congruence|].
      split; [simpl; congruence|done].
    + apply wp_ret. split; [congruence|done].
  - intros [s|r] w' Hw'; [by destruct Hw'|]. destruct Hw' as [Hm Hr]. split; [done|]. intros [= ->]. by apply Hr.
Qed.

(** An operation whose result is known. *)
Lemma wp_step {A B} (m : M A) (f : A → M B) Q w a w1 : m w = (a, w1) → wp (f a) Q w1 → wp (bind m f) Q w.
Proof. intros Hm Hw. apply wp_bind. unfold wp at 1. by rewrite Hm. Qed.

Lemma commit_loop_spec p msg w :
  wp (loopM p (commit_turn msg) tt) (λ _ w', w_chk w' = w_chk w ∧ w_db w' = w_db w ∧ untouched w w' ∧
    ∃ n, commits (w_hist w') = replicate n (msg_Offset msg) ++ commits (w_hist w)) w.
Proof.
  set (P w' := w_chk w' = w_chk w ∧ w_db w' = w_db w ∧ untouched w w' ∧
    ∃ n, commits (w_hist w') = replicate n (msg_Offset msg) ++ commits (w_hist w)).
  assert (∀ w1 ev, P w1 → event_commit ev = None → (∀ d, event_ack d ev = None) →
    P (mkWorld (w_env w1) (w_chk w1) (w_db w1) (ev :: w_hist w1))) as Hev.
  { intros w1 ev (Hc & Hd & Ha & n & Hn) He Hack. split_and!; [done|done| |].
    - intros d. simpl. rewrite acks_cons, Hack, Ha. apply app_nil_r.
    - exists n. simpl. by rewrite commits_cons, He. }
  eapply wp_mono; [apply (wp_loopM _ (λ _, P) (λ _, P)); [|by split_and!; [..|exists O]]|by intros []].
  intros [] w1 HP. unfold commit_turn. apply wp_bind. unfold wp at 1. simpl.
  apply (Hev w1 (Ev bool RQuit (w_env w1 _ (w_hist w1) RQuit))) in HP as HP1; [|done|done].
  destruct (w_env w1 _ _ RQuit); [by apply wp_ret|].
  apply wp_bind. unfold wp at 1. simpl. set (w2 := mkWorld _ _ _ _) in HP1 |- *.
  match goal with |- context [Ev ?T (RCommit ?o) ?x] => set (a := x); assert (P (mkWorld (w_env w2) (w_chk w2) (w_db w2) (Ev T (RCommit o) a :: w_hist w2))) as HP2 end.
  { destruct HP1 as (Hc & Hd & Ha & n & Hn). split_and!; [done|done| |].
    - intros d. simpl. rewrite acks_cons, Ha. apply app_nil_r.
    - exists (S n). simpl in Hn |- *. rewrite commits_cons. simpl. by rewrite Hn. }
  destruct a; [by apply wp_ret|]. apply wp_bind. unfold wp at 1. simpl. apply wp_ret.
  by apply (Hev _ (Ev unit (RSleep Second) _) HP2).
Qed.

(** (C39) The reader's offset is committed only for a message that is done with.  A turn of [Run]
    that fetched a message asks Kafka to commit no offset but that message's, and it does
    so only in two cases: the message is skipped, with the checker, the database and the
    topics as they are, because its offset is not above the one the loop reached before;
    or its notification is published to its last block and, in continuous mode and unless
    the latest notice is a drop's, the stored scan cursor carries the message's position
    and the published block. *)
Theorem commit_after_process latestMsgOffset msg notice w w1 w2 r w' :
  call RQuit w = (false, w1) → call RFetch w1 = (Ok msg, w2) → msg_Value msg = Ok notice →
  run_turn latestMsgOffset w = (r, w') →
  ∃ n, commits (w_hist w') = replicate n (msg_Offset msg) ++ commits (w_hist w) ∧
    (n ≠ O → covered msg notice latestMsgOffset (ContinuousForkScan (config (w_chk w))) w w').
Proof.
  intros Hq Hf Hv. revert r w'. set (Post w' := ∃ n, commits (w_hist w') = replicate n (msg_Offset msg) ++ commits (w_hist w) ∧
    (n ≠ O → covered msg notice latestMsgOffset (ContinuousForkScan (config (w_chk w))) w w')).
  enough (wp (run_turn latestMsgOffset) (λ _, Post) w) as Hw by (intros r w' Hr; apply (wp_run _ _ _ _ _ Hw Hr)).
  unfold run_turn. apply (wp_step _ _ _ _ _ _ Hq), (wp_step _ _ _ _ _ _ Hf). rewrite Hv.
  assert (commits (w_hist w2) = commits (w_hist w) ∧ w_chk w2 = w_chk w ∧ w_db w2 = w_db w ∧ untouched w w2) as (Hm2 & Hc2 & Hd2 & Ha2).
  { injection Hq as _ <-. injection Hf as _ <-. split_and!; try done.
    intros d. simpl. rewrite !acks_cons. simpl. by rewrite !app_nil_r. }
  apply wp_bind. eapply wp_mono; [apply process_loop_spec|]. intros p w3 [Hm3 Hp]. rewrite Hc2 in Hp.
  assert (Post w3) as HP3 by (exists O; split; [simpl; congruence|done]).
  destruct p as [u|[e|]]; [by apply wp_ret..|]. specialize (Hp eq_refl).
  apply wp_bind. eapply wp_mono; [apply commit_loop_spec|]. intros q w4 (Hc4 & Hd4 & Ha4 & n & Hn).
  assert (Post w4) as HP4.
  { exists n. split; [by rewrite Hn, Hm3, Hm2|]. intros _. destruct Hp as [(H1' & H2' & H3' & H4' & H5')|[Ho Hp]].
    - left. split_and!; [done|done|congruence|congruence|]. intros d. by rewrite Ha4, H5', Ha2.
    - right. split; [done|]. unfold cursor_at, stored in *. by rewrite Hc4, Hd4. }
  by destruct q as [u|[e|]]; apply wp_ret.
Qed.
End facts.

(** ** Witnesses: a chain of three blocks, its tip replaced by two new blocks *)
Module ProcessDemo.
#[local] Existing Instances mem_pebble demo_rlp demo_hash_text demo_json_text.
#[export] Instance demo_big_text : BigText := ReplicaDemo.demo_big_text.
Definition cfg : Config := Sim.legacyConfig.
Definition blk (n h p : Z) : BlockContext := mkBlockContext n (hashOf h) (hashOf p) 0.
Definition notice : BlockChangeNotification := {| NewBlocks := [blk 3 13 2; blk 4 14 13]; DropBlocks := [blk 3 3 2] |}.
Definition key (n h : Z) : string := blockValidationKey cfg (blk n h 0).
Definition bucket : gmap string BlockValidation :=
  list_to_map [(key 3 3, mkValidation 30 false); (key 3 13, mkValidation 31 false); (key 4 14, mkValidation 41 false)].
(** The broker acknowledges the first [upto] writes only. *)
Definition sim (upto : nat) : Sim.sim := Sim.mkSim bucket ∅
  (λ h _ _, Nat.ltb (PublishDemo.writes h) upto) (λ _, None) [ReplicaDemo.nd 0] (λ _, Ok (RpcString "0x10"))
  elapsed (λ _ _, true).
Definition msg : kafka_msg := mkMsg "inner" 0 11 (Ok notice) ∅.
Definition ev (upto : nat) : env := λ A h r,
  match r in req A return A with
  | RFetch => Ok msg
  | r => Sim.sim_env (sim upto) _ h r
  end.
Definition pub1 : PubState :=
  mkPub (Some (block_notice cfg false (blk 3 3 2))) None true None (mkNoticeID zero_hash 0 0) ∅.
Definition scan1 : ScanRun :=
  mkScanRun (Some Demo.cursor) None false true (mkSchedule 1 (Some 0) 3 3 true) None [].
Definition w (upto : nat) : World :=
  mkWorld (ev upto) (mkChecker cfg pub1 Sim.rep0 scan1) Demo.db1 [].
Definition pos : ForkScanPosition := mkPosition "inner" 0 11.
Definition once (upto : nat) : option bool * World := processNotice notice ∅ (Some pos) (w upto).
End ProcessDemo.

Section process_witnesses.
#[local] Existing Instances mem_pebble demo_rlp demo_hash_text demo_json_text.
Import ProcessDemo.

Lemma notice_wf : blocks_wf (NewBlocks notice).
Proof. repeat constructor; vm_compute; congruence. Qed.

Lemma processed_means_published_witness :
  (once 9).1 = Some true ∧ ∃ latest, latestOuter (pub (w_chk (once 9).2)) = Some latest ∧ ON_Hash latest = hashOf 14.
Proof.
  split; [vm_compute; reflexivity|].
  destruct (processed_means_published notice ∅ (Some pos) (w 9) (once 9).2 (run_eq _ _ ltac:(vm_compute; reflexivity)))
    as (tail & latest & Ht & Hl & Hh). injection Ht as <-. exists latest. split; [exact Hl|exact Hh].
Defined.

(** Only one of the two new blocks was published: the index has both. *)
Lemma index_before_publication_witness :
  (once 2).1 = Some false ∧ acks outerSingleton (w_hist (once 2).2) ≠ [] ∧
  canon (cdb_store (w_db (once 2).2)) 4 = Some (hashOf 14).
Proof.
  split; [vm_compute; reflexivity|].
  assert (length (acks outerSingleton (w_hist (once 2).2)) = 2%nat) as Hl by (vm_compute; reflexivity).
  assert (acks outerSingleton (w_hist (once 2).2) ≠ []) as Hne.
  { intros He. rewrite He in Hl. discriminate Hl. }
  split; [exact Hne|].
  apply (index_before_publication notice ∅ (Some pos) (w 2) (once 2).1 (once 2).2 outerSingleton
    (surjective_pairing _) notice_wf ltac:(left; vm_compute; reflexivity) Hne (blk 4 14 13)); [reflexivity|vm_compute; split; discriminate|reflexivity].
Defined.

(** The same notification again, after its blocks were published. *)
Lemma replay_only_aligns_witness :
  replayed (once 9).2 notice = true ∧
  acks outerSingleton (w_hist (processNotice notice ∅ (Some pos) (once 9).2).2) =
    acks outerSingleton (w_hist (once 9).2).
Proof.
  assert (replayed (once 9).2 notice = true) as Hr by (vm_compute; reflexivity). split; [exact Hr|].
  apply (replay_only_aligns notice ∅ (Some pos) _ _ _ Hr (surjective_pairing _)).
  right. vm_compute. reflexivity.
Defined.

Lemma notice_distinct : distinct notice.
Proof.
  split.
  - apply (bool_decide_unpack (NoDup (BlockHash <$> NewBlocks notice))). vm_compute. exact Logic.I.
  - intros b Hb. injection Hb as <-.
    apply (bool_decide_unpack (hashOf 3 ∉ BlockHash <$> NewBlocks notice)). vm_compute. exact Logic.I.
  - intros b Hb. injection Hb as <-.
    apply (bool_decide_unpack (hashOf 2 ∉ BlockHash <$> NewBlocks notice)). vm_compute. exact Logic.I.
Qed.


Lemma commit_after_process_witness :
  commits (w_hist (run_turn 0 (w 9)).2) = [11] ∧
  ∃ s, forkState (scan (w_chk (run_turn 0 (w 9)).2)) = Some s ∧ Position s = Some pos.
Proof.
  assert (commits (w_hist (run_turn 0 (w 9)).2) = [11]) as Hc by (vm_compute; reflexivity).
  split; [exact Hc|].
  assert (ON_IsFork <$> latestOuter (pub (w_chk (run_turn 0 (w 9)).2)) = Some false) as Hf by (vm_compute; reflexivity).
  destruct (commit_after_process 0 msg notice (w 9) (call RQuit (w 9)).2 (call RFetch (call RQuit (w 9)).2).2
    (run_turn 0 (w 9)).1 (run_turn 0 (w 9)).2 eq_refl eq_refl eq_refl (surjective_pairing _)) as (n & Hn & Hcov).
  rewrite Hc in Hn. destruct n as [|n]; [discriminate Hn|].
  destruct (Hcov (Nat.neq_succ_0 n)) as [[Hz _]|(_ & tail & latest & _ & Hl & _ & Hcur)]; [by destruct Hz|].
  rewrite Hl in Hf. injection Hf as Hf.
  destruct (Hcur eq_refl Hf) as (s & Hs & _ & _ & Hp & _). exists s. split; [exact Hs|apply Hp; reflexivity].
Defined.
End process_witnesses.
