(* ===== verification/Health.v ===== *)
(** * Health: operations that succeed in a healthy environment

    Total-correctness lemmas for the parts of a turn: with S3, the replicas, etcd and the
    store answering, every part returns, and it returns a success.  Progress.v puts them
    together. *)
From S2P Require Import Prelude Types Config Json Store ScanState BlockIndex Checker Topics Validation Publish.
From S2P Require Import Nodes Replicas Align ForkScan Process.

(** ** S3 *)

(** Objects that exist are returned, puts are acknowledged, and listings answer: a page
    that is not the last one has a key and a token. *)
Record s3_healthy (e : env) (S3 : Bucket e) : Prop := {
  hs_get h k v : obj S3 h !! k = Some v → e _ h (RS3Get k) = Ok v;
  hs_put h k v : e _ h (RS3Put k v) = Ok tt;
  hs_list h p t : ∃ page, e _ h (RS3List p t) = Ok page ∧
    (pg_IsTruncated page = Some true → omap id (pg_Contents page) ≠ [] ∧ is_Some (pg_NextToken page))
}.
(** No height of the bucket has [2 ^ 64] objects. *)
Definition listable {e} (S3 : Bucket e) (O : gmap string BlockValidation) : Prop :=
  ∀ p, Z.of_nat (length (rest S3 (dom O) p None)) < 2 ^ 64.

Section s3.
Context `{Pebble} `{HashText} (e : env) (S3 : Bucket e) (cfg : Config) (healthy : s3_healthy e S3).
Notation holding := (bucket_is e S3 cfg).

Lemma retry_ok {A} c what m (fn : M (res A)) Q w :
  wp fn (λ r w', ∃ a, r = Ok a ∧ Q (Ok a) w') w → wp (retryWithBackoff c what m fn) Q w.
Proof.
  intros Hf. unfold retryWithBackoff. apply wp_bind. change (retry_fuel m) with (S (pred (retry_fuel m))).
  cbn [retry_go]. apply wp_bind. eapply wp_mono; [exact Hf|]. intros r w' (a & -> & Hq). by apply wp_ret, wp_ret.
Qed.

Lemma get_ok c key O v w : holding O w → O !! key = Some v →
  wp (getRawValidationByKeyWithReTryCtx c key) (λ r w', r = Ok v ∧ holding O w') w.
Proof.
  intros Hw Hv. apply retry_ok. pose proof Hw as (He & _ & Ho). exists v.
  assert (w_env w _ (w_hist w) (RS3Get key) = Ok v) as Hr by (rewrite He; apply (hs_get _ _ healthy); by rewrite Ho).
  split_and!; [exact Hr|done|by apply bucket_quiet].
Qed.

Lemma put_ok key n h v O w : holding O w →
  wp (rewriteValidationAtKeyWithRetry key n h v) (λ r w', r = Ok tt ∧ holding (<[key := v]> O) w') w.
Proof.
  intros Hw. pose proof (put_spec e S3 cfg key n h v O w Hw) as Hp.
  assert (wp (rewriteValidationAtKeyWithRetry key n h v) (λ r _, r = Ok tt) w) as Hr.
  { apply retry_ok. exists tt. split; [|done]. unfold rewriteValidationAtKeyCtx, call. simpl.
    destruct Hw as (-> & _). apply (hs_put _ _ healthy). }
  unfold wp in *. rewrite Hr in Hp |- *. done.
Qed.

(** The keys of a height. *)
Definition height_keys (O : gmap string BlockValidation) (n : Z) (ks : list string) : Prop :=
  ∀ k, k ∈ ks ↔ k ∈ dom O ∧ String.prefix (blockValidationPrefix cfg n) k = true.

Lemma list_ok c n O w : holding O w → listable S3 O →
  wp (listBlockValidationKeysCtx c n) (λ r w', ∃ ks, r = Ok ks ∧ height_keys O n ks ∧ holding O w') w.
Proof.
  intros Hw Hsz. pose proof (list_spec e S3 cfg c n O w Hw) as Hspec. unfold wp in *. destruct Hspec as [Hb Hks].
  enough (is_ok (listBlockValidationKeysCtx c n w).1 = true) as Hok.
  { destruct (listBlockValidationKeysCtx c n w) as [[ks|er] w']; [|done]. exists ks. split_and!; [done| |done].
    intros k. rewrite (Hks ks eq_refl). apply rest_all. }
  clear Hb Hks. change (wp (listBlockValidationKeysCtx c n) (λ r _, is_ok r = true) w).
  unfold listBlockValidationKeysCtx. apply wp_bind. unfold wp at 1. simpl. pose proof Hw as (_ & -> & Ho).
  set (p := blockValidationPrefix cfg n). apply wp_bind. eapply wp_mono.
  { apply (wp_loopM_measure _ (λ s _, Z.of_nat (length (rest S3 (dom O) p s.1))) (λ _, holding O)
      (λ r _, is_ok r = true)); [|exact Hw].
    clear w Hw Ho. intros [t ks] w Hw. unfold list_page. apply wp_bind, retry_ok. pose proof Hw as (He & _ & Ho).
    destruct (hs_list _ _ healthy (w_hist w) p t) as (page & Hp & Hpage). exists page.
    split; [unfold call; simpl; by rewrite He|].
    pose proof (obj_list _ S3 (w_hist w) p t page Hp) as Hl. rewrite Ho in Hl.
    pose proof (bucket_quiet e S3 cfg (RS3List p t) O w ltac:(done) Hw) as Hb.
    unfold page_rest in Hl. destruct (pg_IsTruncated page) as [[]|]; [|by apply wp_ret..].
    destruct (Hpage eq_refl) as [Hne [t' Ht]]. rewrite Ht in Hl |- *. apply wp_ret. split; [exact Hb|]. simpl.
    rewrite <- (Hl _ eq_refl), length_app. destruct (omap id (pg_Contents page)); [done|]. simpl. lia. }
  intros [s|r] w' Hr; apply wp_ret; [|done]. destruct Hr as [_ Hr]. simpl in Hr.
  specialize (Hsz p). lia.
Qed.

(** ** The fork marks of one height *)

(** The canonical object of the block exists and its height can be listed; keys that were
    prefetched exist. *)
Definition has_canonical (b : BlockContext) (O : gmap string BlockValidation) : Prop := listable S3 O ∧ ∃ key,
  key ∈ dom O ∧ isCanonicalKey cfg (hash_string (BlockHash b)) key = true ∧
  String.prefix (blockValidationPrefix cfg (BlockNumber b)) key = true.
Definition hint_exists (O : gmap string BlockValidation) (hint : option blockPrefetch) : Prop :=
  ∀ p ks, hint = Some p → pf_keys p = Ok ks → ∀ k, k ∈ ks → k ∈ dom O.

Lemma plan_keys_ok c ch cv n O : ∀ keys plan found w, holding O w → (∀ k, k ∈ keys → k ∈ dom O) →
  Forall (λ rw, rw_key rw ∈ dom O) plan →
  wp (plan_keys c cfg ch cv n keys plan found) (λ r w', holding O w' ∧
    ∃ p, r = Ok (p, found || existsb (isCanonicalKey cfg ch) keys) ∧ Forall (λ rw, rw_key rw ∈ dom O) p) w.
Proof.
  induction keys as [|key keys IH]; intros plan found w Hw Hk Hp; cbn [plan_keys existsb].
  { apply wp_ret. split; [done|]. exists plan. by rewrite orb_false_r. }
  unfold isCanonicalKey at 1. destruct (blockValidationHashFromKey cfg key) as [h|]; [|apply IH; set_solver].
  assert (key ∈ dom O) as Hkey by set_solver. pose proof Hkey as [v Hv]%elem_of_dom. apply wp_bind.
  apply (wp_mono _ (λ r w', holding O w' ∧ ∃ v, r = Ok v)).
  { destruct (if EqualFold h ch then cv else None) as [v'|]; [apply wp_ret; eauto|].
    eapply wp_mono; [by apply get_ok|]. intros r w' [-> Hb]. eauto. }
  intros r w1 (Hb & v' & ->). rewrite orb_assoc. apply IH; [done|set_solver|].
  destruct (Bool.eqb _ _); [done|]. apply Forall_app. split; [done|]. by apply Forall_singleton.
Qed.

Lemma apply_ok b plan : ∀ O w, holding O w → Forall (λ rw, rw_key rw ∈ dom O) plan →
  wp (applyForkRewrites b plan) (λ r w', r = Ok tt ∧ ∃ O', holding O' w' ∧ dom O' = dom O) w.
Proof.
  induction plan as [|rw plan IH]; intros O w Hw Hp; cbn [applyForkRewrites]; [apply wp_ret; eauto|].
  apply Forall_cons in Hp as [Hk Hp]. apply wp_bind. eapply wp_mono; [by apply put_ok|].
  intros r w1 [-> Hw1]. assert (dom (<[rw_key rw := rw_validation rw]> O) = dom O) as Hd by (rewrite dom_insert_L; set_solver).
  eapply wp_mono; [apply IH; [exact Hw1|by rewrite Hd]|]. intros r w2 (-> & O' & Hw2 & Hd2). eauto with congruence.
Qed.

Lemma plan_ok c b O hint w : holding O w → has_canonical b O → hint_exists O hint →
  wp (planForkRewritesCtx c b hint) (λ r w', holding O w' ∧
    ∃ plan, r = Ok plan ∧ Forall (λ rw, rw_key rw ∈ dom O) plan) w.
Proof.
  intros Hw (Hsz & key & Hin & Hcan & Hpre) Hh. unfold planForkRewritesCtx. apply wp_bind. unfold wp at 1. simpl.
  pose proof Hw as (_ & -> & _). apply wp_bind. set (ch := hash_string (BlockHash b)) in *.
  apply (wp_mono _ (λ r w', holding O w' ∧ ∃ ks, r = Ok ks ∧ (∀ k, k ∈ ks → k ∈ dom O) ∧
    existsb (isCanonicalKey cfg ch) ks = true)).
  { assert (wp (listBlockValidationKeysCtx c (BlockNumber b)) (λ r w', holding O w' ∧ ∃ ks, r = Ok ks ∧
      (∀ k, k ∈ ks → k ∈ dom O) ∧ existsb (isCanonicalKey cfg ch) ks = true) w) as Hl.
    { eapply wp_mono; [by apply list_ok|]. intros r w' (ks & -> & Hks & Hb). split; [done|]. exists ks.
      split_and!; [done|intros k Hk; by apply Hks|]. apply existsb_exists. exists key.
      split; [apply list_elem_of_In; by apply Hks|done]. }
    unfold plan_listing. case_bool_decide; [exact Hl|]. destruct (existsb _ _) eqn:Ex; [|exact Hl].
    apply wp_ret. split; [done|]. eexists. split_and!; [done| |done]. intros k Hk.
    destruct hint as [p|]; [|set_solver]. destruct (pf_keys p) as [ks|] eqn:Ek; [|set_solver]. by eapply Hh. }
  intros r w1 (Hb & ks & -> & Hks & Hex). apply wp_bind. eapply wp_mono; [by apply plan_keys_ok|].
  intros r w2 (Hb2 & p & -> & Hp). apply wp_ret. split; [done|]. rewrite Hex. simpl. eauto.
Qed.

Lemma rewrite_ok b O hint w : holding O w → has_canonical b O → hint_exists O hint →
  wp (rewriteForkBlocksAtHeight b hint) (λ r w', ∃ d O', r = Ok d ∧ holding O' w' ∧ dom O' = dom O) w.
Proof.
  intros Hw Hc Hh. unfold rewriteForkBlocksAtHeight. apply wp_bind. eapply wp_mono; [by apply plan_ok|].
  intros r w1 (Hb & plan & -> & Hp). destruct plan as [|rw plan]; [apply wp_ret; eauto|].
  apply wp_bind. eapply wp_mono; [by apply apply_ok|]. intros r w2 (-> & O' & Hb2 & Hd). apply wp_ret. eauto.
Qed.

Lemma has_canonical_dom b O O' : dom O' = dom O → has_canonical b O → has_canonical b O'.
Proof. unfold has_canonical, listable. by intros ->. Qed.
Lemma hint_exists_dom O O' hint : dom O' = dom O → hint_exists O hint → hint_exists O' hint.
Proof. unfold hint_exists. by intros ->. Qed.
Lemma holding_sleep d O w : holding O w → holding O (call (RSleep d) w).2.
Proof. by apply bucket_quiet. Qed.

(** Three attempts are enough, even when the first one works on a stale hint: the second
    one is exact, and the third one finds nothing to do. *)
Lemma attempts_ok b O hint w : holding O w → has_canonical b O → hint_exists O hint →
  wp (rewrite_attempts b 3 hint) (λ r w', r = Ok tt ∧ ∃ O', holding O' w' ∧ dom O' = dom O) w.
Proof.
  intros Hw Hc Hh. cbn [rewrite_attempts]. apply wp_bind. eapply wp_mono; [by apply rewrite_ok|].
  intros r w1 (d & O1 & -> & Hw1 & Hd1). destruct d; [apply wp_ret; eauto|].
  apply wp_bind. unfold wp at 1. cbn [snd call]. pose proof (holding_sleep (100 * Millisecond) O1 w1 Hw1) as Hs1. simpl in Hs1.
  apply (has_canonical_dom b O O1 Hd1) in Hc. apply wp_bind.
  eapply wp_mono; [apply wp_and; [by apply (rewrite_ok b O1 None)|by apply (rewrite_at_height_spec e S3 cfg b O1 None)]|].
  intros r w2 [(d & O2 & -> & Hw2 & Hd2) Hsp]. destruct d; [apply wp_ret; split; [done|]; exists O2; split; [done|congruence]|].
  destruct (Hsp false eq_refl) as (O2' & Hw2' & Hm & _). assert (O2' = O2) as -> by (destruct Hw2' as (_ & _ & <-), Hw2 as (_ & _ & <-); done).
  apply wp_bind. unfold wp at 1. cbn [snd call]. pose proof (holding_sleep (100 * Millisecond) O2 w2 Hw2) as Hs2. simpl in Hs2.
  apply (has_canonical_dom b O1 O2 Hd2) in Hc. apply wp_bind.
  eapply wp_mono; [apply wp_and; [by apply (rewrite_ok b O2 None)|by apply (rewrite_at_height_spec e S3 cfg b O2 None)]|].
  intros r w3 [(d & O3 & -> & Hw3 & Hd3) Hsp3]. destruct (Hsp3 d eq_refl) as (O3' & _ & _ & Hdm & _).
  rewrite (proj2 Hdm Hm). apply wp_ret. split; [done|]. exists O3. split; [done|congruence].
Qed.

Lemma same_height_ok O l : ∀ O' pfs w, holding O' w → dom O' = dom O → Forall (λ b, has_canonical b O) l →
  Forall (λ pf, hint_exists O (Some pf)) pfs →
  wp (rewriteForkBlocksAtSameHeight l pfs) (λ r w', r = Ok tt ∧ ∃ O', holding O' w' ∧ dom O' = dom O) w.
Proof.
  induction l as [|b l IH]; intros O' pfs w Hw Hd Hc Hp; cbn [rewriteForkBlocksAtSameHeight]; [apply wp_ret; eauto|].
  apply Forall_cons in Hc as [Hb Hc]. apply wp_bind. eapply wp_mono.
  { apply attempts_ok; [exact Hw|by eapply has_canonical_dom|]. apply (hint_exists_dom O); [done|].
    intros p ks Hpf. destruct pfs as [|pf pfs]; [done|]. injection Hpf as ->. apply Forall_cons in Hp as [Hp _]. by apply Hp. }
  intros r w1 (-> & O1 & Hw1 & Hd1). apply (IH O1); [done|congruence|done|]. destruct pfs; [done|]. by apply Forall_cons in Hp as [_ ?].
Qed.

(** ** Prefetch and drops *)

(** What is prefetched for the new blocks. *)
Definition prefetched_ok (O : gmap string BlockValidation) (b : BlockContext) (pf : blockPrefetch) : Prop :=
  (∃ v, pf_validation pf = Ok v ∧ O !! blockValidationKey cfg b = Some v) ∧ hint_exists O (Some pf).

Lemma prefetch_ok O l : listable S3 O → ∀ w, holding O w → Forall (λ b, is_Some (O !! blockValidationKey cfg b)) l →
  wp (prefetchNewBlocks l) (λ pfs w', holding O w' ∧ Forall2 (prefetched_ok O) l pfs) w.
Proof.
  intros Hsz. induction l as [|b l IH]; intros w Hw Hl; cbn [prefetchNewBlocks]; [by apply wp_ret|].
  apply Forall_cons in Hl as [[v Hv] Hl]. apply wp_bind. unfold wp at 1. simpl. pose proof Hw as (_ & -> & _).
  apply wp_bind. eapply wp_mono; [by apply get_ok|]. intros r w1 [-> Hw1].
  apply wp_bind. eapply wp_mono; [by apply list_ok|]. intros r w2 (ks & -> & Hks & Hw2).
  apply wp_bind. eapply wp_mono; [by apply IH|]. intros pfs w3 [Hw3 Hf]. apply wp_ret. split; [done|].
  constructor; [|done]. split; [by exists v|]. intros p ks' [= <-] [= <-] k Hk. by apply Hks.
Qed.

Lemma drops_ok (O : gmap string BlockValidation) l : ∀ (O' : gmap string BlockValidation) w, holding O' w → dom O' = dom O →
  wp (rewriteDropBlocks l) (λ _ w', ∃ O' : gmap string BlockValidation, holding O' w' ∧ dom O' = dom O) w.
Proof.
  induction l as [|b l IH]; intros O' w Hw Hd; cbn [rewriteDropBlocks]; [apply wp_ret; eauto|].
  apply wp_bind. unfold wp at 1. simpl. pose proof Hw as (_ & -> & _). apply wp_bind.
  eapply wp_mono; [by apply (get_spec e S3 cfg)|]. intros r w1 [Hw1 Hv]. apply wp_bind.
  destruct r as [v|er]; [|by apply wp_ret, (IH O')]. specialize (Hv v eq_refl).
  destruct (V_IsFork v); [by apply wp_ret, (IH O')|]. apply wp_bind. unfold rewriteBlockWithRetry.
  apply wp_bind. unfold wp at 1. simpl. pose proof Hw1 as (_ & -> & _).
  eapply wp_mono; [by apply put_ok|]. intros r w2 [-> Hw2]. apply wp_ret. eapply IH; [exact Hw2|].
  rewrite dom_insert_L. apply elem_of_dom_2 in Hv. set_solver.
Qed.
End s3.

Section keys.
Context `{HashTextLaws}.

(** The object of a block is the canonical one of its height. *)
Lemma own_canonical {e} (S3 : Bucket e) cfg b O : (IsVersionMode cfg = true → free_of "/" (Version cfg) = true) →
  listable S3 O → is_Some (O !! blockValidationKey cfg b) → has_canonical e S3 cfg b O.
Proof.
  intros Hv Hsz Ho. split; [done|]. destruct (validation_key cfg b Hv) as (_ & Hc & Hk). exists (blockValidationKey cfg b).
  split_and!; [by apply elem_of_dom|done|]. rewrite Hk. apply prefix_app.
Qed.
End keys.

(** ** The replicas *)

Definition node_states (rpc : Node → res rpc_result) (height : Z) (ns : list Node) : list NodeWithHeight :=
  (λ n, classify n height (answered (rpc n))) <$> ns.

(** The nodes give the same answers whenever they are asked, enough of them have the height,
    and etcd executes the transactions. *)
Record replicas_healthy (e : env) (cfg : Config) (height : Z) : Prop := {
  hr_quorum : ∃ ns rpc, (∀ h, e _ h RNodes = ns) ∧ (∀ h n t, e _ h (RNodeRpc n t) = rpc n) ∧
    ns ≠ [] ∧ ratio_reached cfg (node_states rpc height ns) = true;
  hr_txn h ops : e _ h (REtcdTxn ops) = Ok tt
}.

Lemma wp_loop_stop `{Pebble} {S R} p (body : S → M (S + R)) s Q w :
  wp (body s) (λ r w', ∃ a, r = inr a ∧ Q (inr a) w') w → wp (loopM p body s) Q w.
Proof.
  intros Hb. unfold wp in *. destruct Hb as (a & Ha & Hq).
  assert (loopM p body s w = (inr a, (body s w).2)) as ->; [|exact Hq].
  clear Hq. destruct (body s w) as [r w1] eqn:Eb. simpl in *. subst r.
  induction p as [p IH|p IH|]; unfold loopM; fold (@loopM _ S R); unfold bind; [by rewrite Eb|by rewrite IH|done].
Qed.

Section replicas.
Context `{Pebble} `{JsonText} `{BigText} (e : env) (cfg : Config) (height : Z).
Context (healthy : replicas_healthy e cfg height).

Lemma check_nodes_ok rpc t ns : (∀ h n t, e _ h (RNodeRpc n t) = rpc n) → ∀ w, w_env w = e →
  wp (check_nodes ns height t) (λ states w', states = node_states rpc height ns ∧ w_env w' = e) w.
Proof.
  intros Hrpc. induction ns as [|n ns IH]; intros w He; cbn [check_nodes]; [by apply wp_ret|].
  apply wp_bind. unfold Node_Check. apply wp_bind. unfold EthBlockNumber. apply wp_call. intros a Ha.
  rewrite He, Hrpc in Ha. subst a. apply wp_ret, wp_ret, wp_bind. eapply wp_mono; [by apply IH|].
  intros states w1 [-> Hw1]. by apply wp_ret.
Qed.

Lemma poll_ok w : w_env w = e → config (w_chk w) = cfg →
  wp (check height) (λ r w', (∃ h states, r = Ok (mkChange (Some h) states)) ∧ w_env w' = e) w.
Proof.
  intros He Hc. destruct (hr_quorum _ _ _ healthy) as (ns & rpc & Hn & Hrpc & Hne & Hr).
  unfold check. apply wp_bind. unfold wp at 1. simpl. rewrite Hc. apply wp_bind. unfold CheckAll.
  apply wp_call. intros a Ha. rewrite He, Hn in Ha. subst a.
  eapply wp_mono; [by apply (check_nodes_ok rpc)|]. intros states w1 [-> Hw1]. apply wp_ret. split; [|done].
  rewrite bool_decide_false by (unfold node_states; by destruct ns). rewrite Hr. eauto.
Qed.

Lemma wait_ok t w : w_env w = e → config (w_chk w) = cfg →
  wp (waitReplicasReady height t) (λ r w', (∃ c h, r = (Some c, None) ∧ rc_LatestBlockNumber c = Some h) ∧ w_env w' = e) w.
Proof.
  intros He Hc. unfold waitReplicasReady. apply wp_call. intros start _. apply wp_bind. unfold wp at 1. simpl.
  apply wp_bind, wp_loop_stop. unfold wait_round. apply wp_bind. eapply wp_mono; [by apply poll_ok|].
  intros r w1 ((h & states & ->) & Hw1). apply wp_ret. eexists. split; [done|]. apply wp_ret. eauto 10.
Qed.

Lemma notify_ok t r w : w_env w = e → config (w_chk w) = cfg →
  wp (checkAndNotify height t r) (λ ok _, ok = true) w.
Proof.
  intros He Hc. unfold checkAndNotify. apply wp_bind. unfold wp at 1. simpl. apply wp_bind.
  apply (wp_mono _ (λ _ w', w_env w' = e ∧ config (w_chk w') = cfg)).
  { destruct (_ <? _); [apply wp_call; intros now _; by apply wp_ret|by apply wp_ret]. }
  intros recent w1 [He1 Hc1]. destruct recent; [by apply wp_ret|].
  apply wp_bind. eapply wp_mono; [by apply wait_ok|]. intros [c e'] w2 ((c' & h & [= -> ->] & Hh) & He2).
  rewrite Hh. apply wp_bind. unfold wp at 1. simpl. apply wp_bind. unfold WriteReplicaStateChangeToEtcd.
  do 2 (apply wp_bind; unfold wp at 1; simpl). destruct (height_ops _ _ _) as [hops written].
  apply wp_bind. unfold wp at 1. simpl. destruct (hops ++ _) as [|op ops]; [by apply wp_ret, wp_ret|].
  apply wp_call. intros a Ha. rewrite He2 in Ha. rewrite (hr_txn _ _ _ healthy) in Ha. subst a.
  apply wp_call. intros now _. apply wp_bind. unfold wp at 1. simpl. by apply wp_ret, wp_ret.
Qed.
End replicas.

(** ** The store

    [I] holds of a store that works, and goes on holding: its reads succeed and its batches
    are committed. *)
Record store_healthy `{PebbleLaws} (I : store → Prop) : Prop := {
  sh_read st : I st → readable st;
  sh_commit st b : I st → ∃ st', kv_commit st b = (None, st') ∧ I st';
  sh_stage b op : is_ok (kv_stage b op) = true
}.

(** A cursor may still be moved. *)
Definition cursor_live (s : ForkScanState) : Prop :=
  validate s = None ∧ Generation s ≠ MaxUint64 ∧ is_u64 (Generation s) ∧ anchor_wf (Published s).

(** A cursor that moved down, in the same or the next generation, passes validation. *)
Lemma validate_lower s k g p : validate s = None → k ≤ NextHeight s → g ≠ 0 → A_Hash p ≠ zero_hash →
  validate (set_Pending (Some p) (set_Generation g (set_NextHeight k s))) = None.
Proof.
  rewrite !validate_spec. simpl. intros (? & ? & ? & ? & ? & Hn & _ & ?) Hk Hg Hp.
  split_and!; try done; [|by intros ? [= <-]]. intros Hne. specialize (Hn Hne). lia.
Qed.

Section stores.
Context `{HashText} `{JsonText} `{PebbleLaws} `{RlpLaws} (I : store → Prop) (healthy : store_healthy I).

Definition index_valid (st : store) (h : Z) : Prop := ∀ d, idx st h = Some d → is_Some (to_hash d).

Lemma stage_ok b op : ∃ b', kv_stage b op = Ok b'.
Proof. pose proof (sh_stage _ healthy b op). destruct (kv_stage b op); [eauto|done]. Qed.

Lemma canonical_ok st h : I st → index_valid st h → is_ok (GetCanonicalHashByNum st h) = true.
Proof.
  intros Hi Hv. pose proof (sh_read _ healthy st Hi (numKey h)) as Hr. unfold GetCanonicalHashByNum, getBlockHashByNum.
  unfold index_valid, idx in Hv. destruct (kv_view st !! numKey h) as [d|]; rewrite Hr; [|done]. simpl.
  by destruct (Hv d eq_refl) as [x ->].
Qed.

Lemma write_blocks_ok st l : I st → Forall (λ p, 0 ≤ BlockNumber p.1 ∧ index_valid st (BlockNumber p.1) ∧ 0 ≤ p.2) l →
  ∀ acc, is_ok (write_blocks st acc l) = true.
Proof.
  intros Hi Hl. induction l as [|[b vh] l IH]; intros acc; [done|].
  apply Forall_cons in Hl as [(Hn & Hx & Hvh) Hl]. cbn [write_blocks]. simpl in Hn, Hx, Hvh.
  assert (is_ok (write_block st acc b vh) = true) as Hb.
  { unfold write_block. pose proof (canonical_ok st (BlockNumber b) Hi Hx) as Hc.
    destruct (GetCanonicalHashByNum st (BlockNumber b)) as [old|]; [|done]. simpl.
    pose proof (rlp_encode_nonneg (mkBlockInfoRlp (BlockNumber b) vh) Hn Hvh) as He.
    destruct (rlp_encode _) as [d|]; [|done]. simpl.
    set (ops := wa_batch _). destruct (stage_ok ops (BSet (hashKey (BlockHash b)) d)) as [b1 ->]. simpl.
    by destruct (stage_ok b1 (BSet (numKey (BlockNumber b)) (hash_bytes (BlockHash b)))) as [b2 ->]. }
  destruct (write_block st acc b vh) as [acc'|]; [|done]. by apply IH.
Qed.

Lemma clean_above_ok st tip acc : I st → is_u64 tip → is_ok (clean_above st tip acc) = true.
Proof.
  intros Hi Ht. unfold clean_above.
  destruct (loop_pos_total (clean_step st) (λ s, MaxUint64 - s.1) (λ s, is_u64 s.1) (λ r, is_ok r = true))
    with (p := (2 ^ 64)%positive) (s := (tip, acc)) as (r & Hr & Hok); [..|by rewrite Hr].
  - intros [h a] Hh. simpl in Hh. unfold clean_step. destruct (Z.ltb_spec h MaxUint64); [|done].
    rewrite u64_succ by (done || lia). pose proof (sh_read _ healthy st Hi (numKey (h + 1))) as Hr.
    destruct (kv_view st !! _); rewrite Hr; [|done].
    destruct (stage_ok (wa_batch (affected (h + 1) a)) (BDelete (numKey (h + 1)))) as [b ->]. simpl.
    unfold is_u64 in *. lia.
  - done.
  - intros [h a] Hh. unfold is_u64 in Hh. simpl in *. lia.
  - simpl. unfold is_u64, MaxUint64 in *. lia.
Qed.

Lemma write_cursor_ok c v acc : (∀ n, wa_next acc = Some n → (wa_changed acc = true → Generation n ≠ MaxUint64) ∧
    validate (if wa_changed acc then set_Generation (u64 (Generation n + 1)) n else n) = None) →
  is_ok (write_cursor c v acc) = true.
Proof.
  intros Hn. unfold write_cursor. destruct (wa_next acc) as [n|]; [|done]. destruct (Hn n eq_refl) as [Hg Hv].
  destruct (wa_changed acc).
  - rewrite (proj2 (Z.eqb_neq _ _)) by by apply Hg. simpl. unfold setForkScan. rewrite Hv.
    destruct (stage_ok (wa_batch acc) (BSet (forkScanKey c v) (json_print (state_json (set_Generation (u64 (Generation n + 1)) n))))) as [b ->].
    done.
  - simpl. unfold setForkScan. rewrite Hv. by destruct (stage_ok (wa_batch acc) (BSet (forkScanKey c v) (json_print (state_json n)))) as [b ->].
Qed.

(** The write of a notification's blocks is committed. *)
Lemma write_ok db blocks vhs c v state first tail : I (cdb_store db) →
  length blocks = length vhs → blocks_wf blocks → Forall (λ vh, 0 ≤ vh) vhs →
  Forall (λ b, index_valid (cdb_store db) (BlockNumber b)) blocks →
  head blocks = Some first → last blocks = Some tail → BlockHash tail ≠ zero_hash →
  (∀ s, state = Some s → cursor_live s) →
  ∃ r db', WriteBlockInfosWithForkScan db blocks vhs c v state = (Ok r, db') ∧ I (cdb_store db').
Proof.
  intros Hi Hlen Hwf Hvh Hidx Hf Ht Hz Hs. unfold WriteBlockInfosWithForkScan. rewrite Hf, Ht.
  destruct (last vhs) as [vh|] eqn:El; [|apply last_None in El; subst vhs; by destruct blocks].
  rewrite bool_decide_true by done. cbn [negb].
  assert (is_ok (write_batch (cdb_store db) blocks vhs c v state first tail) = true) as Hb.
  2: { destruct (write_batch _ _ _ _ _ _ _ _) as [acc|]; [|done].
       destruct (sh_commit _ healthy (cdb_store db) (wa_batch acc) Hi) as (st' & -> & Hi'). eauto. }
  assert (is_u64 (BlockNumber tail) ∧ is_u64 (BlockNumber first)) as [Htip Hfirst].
  { unfold blocks_wf in Hwf. rewrite Forall_forall in Hwf. split; apply Hwf; [by apply last_Some_elem_of|].
    destruct blocks; [done|]. injection Hf as ->. by left. }
  unfold write_batch. set (pend := mkAnchor _ _). set (acc0 := mkAcc [] false _).
  set (acc1 := match state with Some _ => _ | None => acc0 end).
  assert (Forall (λ p, 0 ≤ BlockNumber p.1) (zip blocks vhs)) as Hnn.
  { apply Forall_forall. intros [b x] Hin%elem_of_zip_l. simpl. by apply (proj1 (Forall_forall _ _) Hwf) in Hin as [? _]. }
  assert (is_ok (write_blocks (cdb_store db) acc1 (zip blocks vhs)) = true) as Hw1.
  { apply write_blocks_ok; [done|]. apply Forall_forall. intros [b x] Hin. simpl.
    pose proof (proj1 (Forall_forall _ _) Hnn _ Hin). split; [done|]. rewrite Forall_forall in Hidx; rewrite Forall_forall in Hvh.
    split; [apply Hidx; by apply elem_of_zip_l in Hin|apply Hvh; by apply elem_of_zip_r in Hin]. }
  destruct (write_blocks _ acc1 _) as [acc2|] eqn:Ew1; [|done]. apply write_blocks_spec in Ew1 as (Hle1 & _); [|done].
  cbn [res_bind]. pose proof (clean_above_ok (cdb_store db) (BlockNumber tail) acc2 Hi Htip) as Hw2.
  destruct (clean_above _ _ _) as [acc3|] eqn:Ew2; [|done].
  apply clean_above_spec in Ew2 as (top & (_ & Hle2 & _) & _); [|done]. cbn [res_bind].
  apply write_cursor_ok. intros n Hn. assert (acc_le acc0 acc1) as Hle0.
  { subst acc1. destruct state; [|apply acc_le_refl].
    destruct (_ <=? _); [apply acc_le_affected; unfold is_u64 in *; lia|apply acc_le_refl]. }
  pose proof (acc_le_trans _ _ _ Hle0 (acc_le_trans _ _ _ Hle1 Hle2)) as [_ Hle]. rewrite Hn in Hle.
  destruct state as [s|]; [|done]. destruct (Hs s eq_refl) as (Hv & Hg & Hgu & _). simpl in Hle.
  destruct Hle as (k & -> & [_ Hk] & _). split; [done|]. destruct (validate_None _ Hv) as (_ & Hg0 & _).
  replace (if wa_changed acc3 then _ else _) with (set_Pending (Some pend) (set_Generation
    (if wa_changed acc3 then u64 (Generation s + 1) else Generation s) (set_NextHeight k s))) by (destruct (wa_changed acc3), s; done).
  apply validate_lower; [done|done| |done]. destruct (wa_changed acc3); [|done].
  rewrite u64_succ by done. unfold is_u64 in Hgu. lia.
Qed.

(** Saving a valid cursor succeeds. *)
Lemma save_ok s w : I (cdb_store (w_db w)) → validate s = None →
  wp (saveForkScan s) (λ r w', r = Ok tt ∧ I (cdb_store (w_db w'))) w.
Proof.
  intros Hi Hv. unfold saveForkScan. apply wp_bind. unfold wp at 1. simpl. apply wp_bind. unfold wp at 1, with_db, SaveForkScan, setForkScan.
  rewrite Hv. destruct (stage_ok [] (BSet (forkScanKey (ChainID (config (w_chk w))) (Version (config (w_chk w)))) (json_print (state_json s)))) as [b ->].
  destruct (sh_commit _ healthy _ b Hi) as (st' & -> & Hi'). simpl. apply wp_bind. unfold wp at 1. simpl. by apply wp_ret.
Qed.
End stores.

(** ** The simulated environment is healthy *)
Module HealthDemo.
#[local] Existing Instances mem_pebble demo_rlp demo_hash_text demo_json_text.
Definition writable (st : @store mem_pebble) : Prop := mem_bad st = [] ∧ mem_readonly st = false.

Lemma db_ok : store_healthy writable.
Proof.
  split.
  - intros st [Hb _]. by apply mem_readable.
  - intros st b [Hb Hr]. simpl. unfold mem_commit. rewrite Hr. eexists. split; [done|]. by split.
  - done.
Qed.
Lemma sim_s3_ok s : s3_healthy (Sim.sim_env s) (Sim.sim_bucket s).
Proof.
  split.
  - intros h k v Ho. simpl in *. by rewrite Ho.
  - done.
  - intros h p t. by eexists.
Qed.
(** Buckets of fewer than [2 ^ 64] objects can be listed. *)
Lemma sim_listable s O : Z.of_nat (size O) < 2 ^ 64 → listable (Sim.sim_bucket s) O.
Proof.
  intros HO p. simpl. pose proof (length_filter (λ k, String.prefix p k = true) (elements (dom O))) as Hl.
  assert (length (elements (dom O)) = size O) as Hn by (change (size (dom O) = size O); apply size_dom). lia.
Qed.
End HealthDemo.
