(* ===== verification/Progress.v ===== *)
(** * Progress: in a healthy environment a fresh notification is published and committed

    The parts of a turn succeed (Health.v); here they are put together, from the checks of
    [processNotice] to the committed offset of [run_turn]. *)
From S2P Require Import Prelude Types Config Json Store ScanState BlockIndex Checker Topics Validation Publish.
From S2P Require Import Nodes Replicas Align ForkScan Process Health.

Section stages.
Context `{HashTextLaws} `{!JsonText} `{!JsonTextLaws} `{PebbleLaws} `{!Rlp} `{!RlpLaws} `{!BigText}.
Context (e : env) (S3 : Bucket e) (cfg : Config) (I : store → Prop).
Context (s3_ok : s3_healthy e S3) (db_ok : store_healthy I).
Notation holding := (bucket_is e S3 cfg).

(** *** The replicas *)
Definition undisturbed (w : World) : env * ConsistencyDB * ScanRun := (w_env w, w_db w, scan (w_chk w)).

Lemma undisturbed_call {A} (r : req A) : keeps undisturbed (call r).
Proof. by intros w. Qed.
Lemma undisturbed_rep f : keeps undisturbed (modify_rep f).
Proof. by intros w. Qed.
#[local] Hint Resolve undisturbed_call undisturbed_rep : keeps.
Lemma undisturbed_nodes ns k t : keeps undisturbed (check_nodes ns k t).
Proof. induction ns as [|n ns IH]; cbn [check_nodes]; unfold Node_Check, EthBlockNumber; keeps_tac. Qed.
#[local] Hint Resolve undisturbed_nodes : keeps.
Lemma undisturbed_notify k t r : keeps undisturbed (checkAndNotify k t r).
Proof.
  unfold checkAndNotify, get_rep, waitReplicasReady, get_config.
  unfold wait_round, check, CheckAll, get_config, RemoveOfflineNodesFromEtcd, WriteReplicaStateChangeToEtcd, get_config, get_rep.
  keeps_tac.
Qed.

(** Operations that put no object leave the bucket alone. *)
Definition no_put (ev : event) : Prop := event_put ev = None.
Lemma no_put_obj h h' : extends no_put h h' → obj S3 h' = obj S3 h.
Proof. intros (new & -> & Hn). induction Hn as [|ev new Hev _ IH]; [done|]. simpl. by rewrite obj_other. Qed.
Lemma no_put_nodes ns k t : emits no_put (check_nodes ns k t).
Proof. induction ns as [|n ns IH]; cbn [check_nodes]; unfold Node_Check, EthBlockNumber; emits_tac; done. Qed.
Lemma no_put_notify k t r : emits no_put (checkAndNotify k t r).
Proof.
  pose proof no_put_nodes as Hn. unfold checkAndNotify, get_rep, waitReplicasReady, get_config.
  unfold wait_round, check, CheckAll, get_config, RemoveOfflineNodesFromEtcd, WriteReplicaStateChangeToEtcd, get_config, get_rep.
  emits_tac; first [apply Hn|done].
Qed.
Lemma no_put_writes n ts : emits no_put (publish_writes n ts).
Proof. induction ts as [|d ts IH]; cbn [publish_writes]; emits_tac; done. Qed.
Lemma no_put_marks key observe l : (∀ d t, emits no_put (observe d t)) → emits no_put (publish_marks key observe l).
Proof. intros Ho. induction l as [|[[d r] t] l IH]; cbn [publish_marks]; emits_tac; apply Ho. Qed.
Lemma no_put_outer n observe : (∀ d t, emits no_put (observe d t)) → emits no_put (publishOuter n observe).
Proof.
  intros Ho. pose proof no_put_writes as Hw. pose proof (λ key l, no_put_marks key observe l Ho) as Hm.
  unfold publishOuter, get_config, get_pub. emits_tac; [apply Hw|apply Hm].
Qed.
Lemma no_put_publish dropBlocks newBlocks timings : emits no_put (publishNotice dropBlocks newBlocks timings).
Proof.
  unfold publishNotice. apply emits_bind.
  - induction dropBlocks as [|x l IH]; cbn [WriteDropBlockNotice]; unfold get_config; emits_tac.
    apply no_put_outer. intros d t. emits_tac.
  - intros ok. destruct ok; [|by apply emits_keeps].
    induction newBlocks as [|x l IH]; cbn [WriteNewBlockNotice]; unfold get_config; emits_tac.
    apply no_put_outer. intros d t. unfold observeBlockEndToEndLatency. emits_tac; done.
Qed.

(** *** The cursor *)

(** The cursor can be published up to [tail]. *)
Definition finishable (tail : BlockContext) (r : ScanRun) : Prop := ∃ n, forkState r = Some n ∧
  validate n = None ∧ (BlockNumber tail ≠ MaxUint64 → NextHeight n ≤ BlockNumber tail + 1).

(** What the checker's scanner needs, when there is one: it is aligned, and its cursor can be
    moved. *)
Definition scanner_ready (r : ScanRun) : Prop := ContinuousForkScan cfg = true →
  forkAligned r = true ∧ ∃ s, forkState r = Some s ∧ cursor_live s.

(** The fields of a position that are validated. *)
Definition position_valid (position : option ForkScanPosition) : Prop :=
  ∀ p, position = Some p → P_Topic p ≠ "" ∧ 0 ≤ P_Partition p ∧ 0 ≤ P_Offset p.

Lemma validate_finish n a position : validate n = None → A_Hash a ≠ zero_hash →
  (A_Height a ≠ MaxUint64 → NextHeight n ≤ u64 (A_Height a + 1)) → position_valid position →
  let next := set_Published a n in
  let next := if bool_decide (Pending next = Some a) then set_Pending None next else next in
  validate (match position with Some _ => set_Position position next | None => next end) = None.
Proof.
  intros Hv Ha Hn Hp next next1. apply validate_spec in Hv as (Hf & Hg & Hb & _ & Hbm & _ & Hpe & Hpo).
  assert (Format next1 = 1 ∧ Generation next1 ≠ 0 ∧ Baseline next1 = Baseline n ∧ Published next1 = a ∧
    NextHeight next1 = NextHeight n ∧ Position next1 = Position n ∧
    ∀ p, Pending next1 = Some p → Pending n = Some p) as (Hf1 & Hg1 & Hb1 & Hp1 & Hn1 & Ho1 & Hpe1).
  { unfold next1, next. case_bool_decide; by split_and!. }
  clearbody next1. apply validate_spec.
  destruct position as [p|]; simpl; rewrite Hf1, Hb1, Hp1, Hn1; split_and!; try done; first [by auto|by rewrite Ho1|intros q [= <-]; by apply Hp].
Qed.

(** *** The index write *)
Definition prefetched_nonneg (O : gmap string BlockValidation) (b : BlockContext) : Prop :=
  ∀ v, O !! blockValidationKey cfg b = Some v → 0 ≤ V_ValidationHash v.

Lemma prefetched_values O l pfs : Forall2 (prefetched_ok cfg O) l pfs → Forall (prefetched_nonneg O) l →
  ∃ vhs, prefetched_hashes pfs = Ok vhs ∧ length l = length vhs ∧ Forall (λ vh, 0 ≤ vh) vhs.
Proof.
  induction 1 as [|b pf l pfs [(v & Hv & Ho) _] _ IH]; [by exists []|]. intros [Hb Hl]%Forall_cons.
  destruct (IH Hl) as (vhs & Hp & Hlen & Hf). cbn [prefetched_hashes]. rewrite Hv, Hp. simpl.
  exists (V_ValidationHash v :: vhs). split_and!; [done|by simpl; rewrite Hlen|]. constructor; [by apply Hb|done].
Qed.

Lemma index_ok O l pfs first tail w : config (w_chk w) = cfg → I (cdb_store (w_db w)) → blocks_wf l →
  head l = Some first → last l = Some tail → BlockNumber first ≤ BlockNumber tail → BlockHash tail ≠ zero_hash →
  Forall (λ b, index_valid (cdb_store (w_db w)) (BlockNumber b)) l →
  Forall2 (prefetched_ok cfg O) l pfs → Forall (prefetched_nonneg O) l → scanner_ready (scan (w_chk w)) →
  wp (writeBlockInfoToDB l pfs) (λ ok w', ok = true ∧ same_publisher w w' ∧ I (cdb_store (w_db w')) ∧
    (ContinuousForkScan cfg = true → finishable tail (scan (w_chk w')))) w.
Proof.
  intros Hc Hi Hwf Hf Ht Hft Hz Hx Hpf Hnn Hs. destruct (prefetched_values O l pfs Hpf Hnn) as (vhs & Hvhs & Hlen & Hpos).
  assert (wp (writeBlockInfoToDB l pfs) (λ ok w', ok = true ∧ I (cdb_store (w_db w'))) w) as Hok.
  { unfold writeBlockInfoToDB. rewrite Hvhs, Hf. do 2 (apply wp_bind; unfold wp at 1; simpl). rewrite Hc.
    set (state := if ContinuousForkScan cfg then _ else _).
    assert (∀ s, state = Some s → cursor_live s) as Hst.
    { unfold state. intros s. destruct (ContinuousForkScan cfg) eqn:Ec; [|done]. destruct (Hs Ec) as (_ & s' & -> & Hl). congruence. }
    destruct state as [s|] eqn:Est; apply wp_bind; unfold wp at 1, with_db.
    - destruct (write_ok I db_ok (w_db w) l vhs (ChainID cfg) (Version cfg) (Some s) first tail) as (r & db' & Hw & Hi'); try done.
      rewrite Hw. pose proof Hw as Hw'. apply Write_ok in Hw' as (f' & t' & top & ch & _ & _ & Heff); [|done].
      destruct (we_some _ _ _ _ _ _ _ _ _ _ _ Heff s eq_refl) as (n & k & -> & _).
      apply wp_bind. destruct (negb _); unfold when, wp at 1; simpl; apply wp_bind; unfold wp at 1; simpl; by apply wp_ret.
    - destruct (write_ok I db_ok (w_db w) l vhs 0 "" None first tail) as (r & db' & Hw & Hi'); try done.
      unfold WriteBlockInfos. rewrite Hw. split; [done|exact Hi']. }
  pose proof (write_db_spec l pfs w Hwf) as Hspec. unfold wp in *. destruct Hok as [Hok Hi']. rewrite Hok in Hspec.
  destruct Hspec as [Hsp (c & v & f' & t' & top & ch & r & [Hf' Ht' Heff Hscan])]. split_and!; [done|done|done|].
  intros Hcont. destruct (Hs Hcont) as (_ & s & Hfs & Hv & _ & _ & Hpw). unfold cursor_for_write in *. rewrite Hc, Hcont, Hfs in *.
  destruct Hscan as [_ (n & -> & Hn & _)]. exists n. destruct (we_some _ _ _ _ _ _ _ _ _ _ _ Heff s eq_refl)
    as (n' & k & [= <-] & Hvn & Hnk & [_ Hk] & _ & _ & _ & Hpub & _). split_and!; [done|done|]. intros Hmax.
  assert (NextHeight n = k) as -> by (by rewrite Hnk). assert (f' = first) as -> by congruence.
  destruct (decide (BlockNumber first ≤ A_Height (Published s))) as [Hle|Hgt]; [destruct (Hpub Hle); lia|].
  destruct (validate_None _ Hv) as (_ & _ & _ & _ & _ & Hnext).
  assert (is_u64 (BlockNumber first)) as Hu.
  { apply (proj1 (Forall_forall _ _) Hwf). destruct l; [done|]. injection Hf as ->. by left. }
  unfold is_u64 in Hu. assert (A_Height (Published s) ≠ MaxUint64) as Hne by lia. specialize (Hnext Hne).
  rewrite u64_succ in Hnext by (exact Hpw || exact Hne). lia.
Qed.

(** The publication is recorded in the cursor. *)
Lemma finish_ok position tail w : config (w_chk w) = cfg → I (cdb_store (w_db w)) →
  latestOuter (pub (w_chk w)) = Some (block_notice cfg false tail) → is_u64 (BlockNumber tail) →
  BlockHash tail ≠ zero_hash → position_valid position →
  (ContinuousForkScan cfg = true → finishable tail (scan (w_chk w))) →
  wp (finishForkScan position) (λ ok _, ok = true) w.
Proof.
  intros Hc Hi Hl Hu Hz Hp Hs. unfold finishForkScan. do 3 (apply wp_bind; unfold wp at 1; simpl).
  rewrite Hc. destruct (ContinuousForkScan cfg); [|by apply wp_ret]. destruct (Hs eq_refl) as (n & Hn & Hv & Hle).
  rewrite Hl, Hn. simpl. rewrite Z.eqb_refl. simpl. set (anchor := mkAnchor _ _).
  pose proof (validate_finish n anchor position Hv Hz) as Hval. cbv zeta in Hval.
  apply wp_bind. eapply wp_mono; [apply (save_ok I db_ok); [done|apply Hval; [|done]]|].
  - intros Hmax. simpl in *. rewrite u64_succ by done. by apply Hle.
  - intros r w1 [-> _]. apply wp_bind. unfold wp at 1. simpl. by apply wp_ret.
Qed.

(** ** One notification *)

(** The bucket has the objects of the new blocks, with validation hashes that can be stored. *)
Definition objects_ready (O : gmap string BlockValidation) (l : list BlockContext) : Prop :=
  Forall (λ b, ∃ v, O !! blockValidationKey cfg b = Some v ∧ 0 ≤ V_ValidationHash v) l.

(** A notification of new blocks from [first] to [tail] that the checker can take up next. *)
Record acceptable (notice : BlockChangeNotification) (first tail : BlockContext) (w : World) : Prop := {
  ac_first : head (NewBlocks notice) = Some first;
  ac_tail : last (NewBlocks notice) = Some tail;
  ac_wf : blocks_wf (NewBlocks notice);
  ac_order : BlockNumber first ≤ BlockNumber tail;
  ac_hash : BlockHash tail ≠ zero_hash;
  ac_distinct : NoDup (notice_key <$> notices cfg (reverse (DropBlocks notice)) (NewBlocks notice));
  ac_objects : objects_ready (obj S3 (w_hist w)) (NewBlocks notice);
  ac_listable : listable S3 (obj S3 (w_hist w));
  ac_index : Forall (λ b, index_valid (cdb_store (w_db w)) (BlockNumber b)) (NewBlocks notice);
  ac_scan : scanner_ready (scan (w_chk w));
  ac_aligned : etcdLock (pub (w_chk w)) = None ∨ isOuterSingletonAlign (pub (w_chk w)) = true
}.

(** The world of a member that works: its environment, configuration and store. *)
Record working (w : World) : Prop := {
  wk_env : w_env w = e;
  wk_config : config (w_chk w) = cfg;
  wk_store : I (cdb_store (w_db w))
}.

(** Everything was published, and nothing else on the topics of the checker. *)
Record published_all (notice : BlockChangeNotification) (tail : BlockContext) (w w' : World) : Prop := {
  pa_latest : latestOuter (pub (w_chk w')) = Some (block_notice cfg false tail);
  pa_acks d : d ∈ targets_of w → acks d (w_hist w') = acks d (w_hist w) ++
    notices cfg (reverse (DropBlocks notice)) (NewBlocks notice)
}.

Context (versioned : IsVersionMode cfg = true → free_of "/" (Version cfg) = true) (broker : acking e).

Lemma canonical_all O l : objects_ready O l → listable S3 O → Forall (λ b, has_canonical e S3 cfg b O) l.
Proof. intros Ho Hs. eapply Forall_impl; [exact Ho|]. intros b (v & Hv & _). apply own_canonical; [done|done|by exists v]. Qed.

Lemma quiet_working {A} (m : M A) w : keeps surface m → working w →
  wp m (λ _ w', working w' ∧ w_chk w' = w_chk w ∧ w_db w' = w_db w ∧ ∀ d, acks d (w_hist w') = acks d (w_hist w)) w.
Proof.
  intros Hm [He Hc Hi]. eapply wp_mono; [by apply quiet_unpublished|]. intros a w' [[He' Hc' Hd' Ha'] _].
  split_and!; [split; congruence|done..].
Qed.

Lemma publish_ok notice tail timings w : w_env w = e → config (w_chk w) = cfg → delivered (pub (w_chk w)) = ∅ →
  NoDup (notice_key <$> notices cfg (reverse (DropBlocks notice)) (NewBlocks notice)) →
  last (NewBlocks notice) = Some tail →
  wp (publishNotice (reverse (DropBlocks notice)) (NewBlocks notice) timings)
    (λ ok w', ok = true ∧ framed w w' ∧ published_all notice tail w w') w.
Proof.
  intros He Hc Hd Hnd Ht. set (drops := reverse _) in *. set (news := NewBlocks notice) in *.
  pose proof (publish_completes drops news timings w ltac:(by rewrite He)) as Hok.
  pose proof (publishNotice_spec (λ d, acks d (w_hist w)) drops news timings w) as Hspec.
  rewrite Hc in Hspec. specialize (Hspec Hnd). pose proof (all_from_start drops news w Hd) as Hall.
  rewrite Hc in Hall. specialize (Hspec Hall (λ d _, eq_refl)). unfold wp in *.
  destruct (publishNotice drops news timings w) as [ok w']. simpl in *. subst ok.
  destruct Hspec as (Hf & _ & i & _ & Hi & Ha & Hl). symmetry in Hi. apply bool_decide_eq_true in Hi.
  assert (length (notices cfg drops news) = (length drops + length news)%nat) as Hlen
    by (unfold notices; by rewrite length_app, !length_fmap).
  split_and!; [done|done|]. split.
  - rewrite Hl, Hi, Hlen. replace (length drops + length news - length drops)%nat with (length news) by lia.
    destruct (length news) as [|k] eqn:En; [apply nil_length_inv in En; by rewrite En in Ht|].
    rewrite last_lookup, En in Ht. simpl in Ht. by rewrite Ht.
  - intros d Hd'. rewrite <- (framed_targets _ _ Hf) in Hd'. destruct (Ha d Hd') as (n & Hn & Hle & Hlog & _).
    rewrite Hlog. by rewrite take_ge by lia.
Qed.

Lemma notify_stage height w : working w → replicas_healthy e cfg height →
  wp (checkAndNotify height (replicaWaitTimeout cfg) true) (λ ok w', ok = true ∧ working w' ∧
    pub (w_chk w') = pub (w_chk w) ∧ scan (w_chk w') = scan (w_chk w) ∧ w_db w' = w_db w ∧
    (∀ d, acks d (w_hist w') = acks d (w_hist w)) ∧ obj S3 (w_hist w') = obj S3 (w_hist w)) w.
Proof.
  intros [He Hc Hi] Hrep. set (t := replicaWaitTimeout cfg).
  pose proof (notify_ok e cfg height Hrep t true w He Hc) as Hok.
  pose proof (published_eq _ w (published_notify height t true)) as Hpub.
  pose proof (undisturbed_notify height t true w) as Hu. pose proof (no_put_notify height t true w) as Hn.
  unfold wp in *. destruct (checkAndNotify height t true w) as [ok w']. simpl in *.
  destruct Hpub as [Hc' Hp' Ha' _]. injection Hu as He' Hd' Hs'. apply no_put_obj in Hn.
  split_and!; try done. split; congruence.
Qed.

(** The steps behind the checks. *)
Lemma steps_ok notice first tail timings w : working w → acceptable notice first tail w →
  replicas_healthy e cfg (BlockNumber tail) → delivered (pub (w_chk w)) = ∅ →
  wp (publish_steps notice tail timings) (λ r w', r.1 = Some true ∧ working w' ∧ published_all notice tail w w' ∧
    (ContinuousForkScan cfg = true → finishable tail (scan (w_chk w')))) w.
Proof.
  intros Hk [Hf Ht Hwf Hft Hz Hnd Hob Hsz Hx Hs Hal] Hrep Hdel. set (O := obj S3 (w_hist w)) in *.
  assert (holding O w) as Hw by (by destruct Hk). unfold publish_steps. apply wp_bind. unfold wp at 1. simpl.
  rewrite (wk_config _ Hk). apply wp_bind. eapply wp_mono.
  { apply wp_and; [apply (prefetch_ok e S3 cfg s3_ok O _ Hsz)|apply quiet_working, Hk; apply quiet_prefetch]; [done|].
    eapply Forall_impl; [exact Hob|]. intros b (v & Hv & _). by exists v. }
  intros pfs w1 [[Hw1 Hpf] (Hk1 & Hchk1 & Hdb1 & Ha1)].
  apply wp_bind. eapply wp_mono; [by apply notify_stage|].
  intros ok w2 (-> & Hk2 & Hp2 & Hs2 & Hdb2 & Ha2 & Ho2). simpl.
  assert (holding O w2) as Hw2 by (split_and!; [apply Hk2|apply Hk2|]; rewrite Ho2; apply Hw1).
  apply wp_bind. eapply wp_mono; [apply wp_and; [by apply (drops_ok e S3 cfg s3_ok O _ O)|apply quiet_working, Hk2; apply quiet_drops]|].
  intros [] w3 [(O3 & Hw3 & Hd3) (Hk3 & Hchk3 & Hdb3 & Ha3)].
  apply wp_bind. eapply wp_mono.
  { apply (index_ok O _ pfs first tail); try done; [apply Hk3|apply Hk3|by rewrite Hdb3, Hdb2, Hdb1| |by rewrite Hchk3, Hs2, Hchk1].
    eapply Forall_impl; [exact Hob|]. intros b (v & Hv & Hpos) v' Hv'. congruence. }
  intros ok w4 (-> & [He4 Hh4 Hc4 Hp4 _] & Hi4 & Hfin). simpl.
  assert (working w4) as Hk4 by (destruct Hk3; split; congruence).
  assert (holding O3 w4) as Hw4 by (split_and!; [apply Hk4|apply Hk4|]; rewrite Hh4; apply Hw3).
  apply wp_bind. eapply wp_mono.
  { apply wp_and; [apply (same_height_ok e S3 cfg s3_ok O _ O3)|apply quiet_working, Hk4; apply quiet_same_height]; [done|done| |].
    - by apply canonical_all.
    - apply Forall_forall. intros pf Hin. apply list_elem_of_lookup in Hin as [i Hi].
      destruct (Forall2_lookup_r _ _ _ _ _ Hpf Hi) as (b & _ & _ & Hh). exact Hh. }
  intros r w5 [(-> & _) (Hk5 & Hchk5 & Hdb5 & Ha5)].
  assert (pub (w_chk w5) = pub (w_chk w)) as Hp5 by (by rewrite Hchk5, Hp4, Hchk3, Hp2, Hchk1).
  apply wp_bind. eapply wp_mono; [apply publish_ok; try done; [apply Hk5|apply Hk5|by rewrite Hp5]|].
  intros ok w6 (-> & Hf6 & [Hl6 Ha6]). simpl.
  assert (AlignOuterSingleton w6 = (Some true, w6)) as Hal6.
  { unfold AlignOuterSingleton, bind, get_pub, asks. rewrite (fr_lock _ _ Hf6), (fr_align _ _ Hf6), Hp5.
    destruct Hal as [->| ->]; [done|]. by destruct (etcdLock _). }
  apply (wp_step _ _ _ _ _ _ Hal6), wp_ret. split; [done|]. destruct Hf6 as [He6 Hdb6 Hc6 _ Hs6 _ _ _ _].
  split; [destruct Hk5; split; congruence|]. split; [split; [done|]|].
  - intros d Hd. rewrite Ha6; [|by unfold targets_of in *; rewrite Hp5, Hchk5, Hc4, Hchk3, (wk_config _ Hk2), <- (wk_config _ Hk)].
    by rewrite Ha5, Hh4, Ha3, Ha2, Ha1.
  - intros Hcont. rewrite Hs6, Hchk5. by apply Hfin.
Qed.

(** The notification is the next one, and has not been tried before. *)
Record fresh (notice : BlockChangeNotification) (tail : BlockContext) (w : World) : Prop := {
  fr_replay : replayed w notice = false;
  fr_chain : msgCheck (pub (w_chk w)) notice = true;
  fr_untried : notice_id notice tail ≠ currentNotice (pub (w_chk w))
}.

Lemma env_finish position : keeps w_env (finishForkScan position).
Proof.
  assert (∀ s, keeps w_env (saveForkScan s)) as Hs.
  { intros s. unfold saveForkScan, get_config. keeps_tac; intros w; [|done]. unfold with_db. by destruct (SaveForkScan _ _ _ _). }
  unfold finishForkScan, initializeForkScan, rewindForkScan, get_config, get_scan, get_pub.
  repeat lazymatch goal with
  | |- keeps _ (bind _ _) => apply keeps_bind; [|intros ?]
  | |- keeps _ (match ?x with _ => _ end) => destruct x
  | |- keeps _ (saveForkScan _) => apply Hs
  | |- keeps _ _ => by intros w
  end.
Qed.

Lemma process_ok notice first tail timings position w : working w → acceptable notice first tail w →
  fresh notice tail w → replicas_healthy e cfg (BlockNumber tail) → position_valid position →
  wp (processNotice notice timings position) (λ r w', r = Some true ∧ w_env w' = e ∧ published_all notice tail w w') w.
Proof.
  intros Hk Ha [Hrp Hmc Hid] Hrep Hpos. pose proof Ha as [Hf Ht Hwf Hft Hz Hnd Hob Hsz Hx Hs Hal].
  unfold processNotice. apply wp_bind. unfold wp at 1. simpl. rewrite Ht. fold (replayed w notice). rewrite Hrp, Hmc. simpl.
  assert (prepareForkScan notice position w = (true, w)) as Hprep.
  { unfold prepareForkScan, bind, get_config, get_scan, get_pub, asks. rewrite (wk_config _ Hk).
    destruct (ContinuousForkScan cfg) eqn:Ec; [|done]. by destruct (Hs Ec) as [-> _]. }
  apply (wp_step _ _ _ _ _ _ Hprep). simpl. apply wp_bind. unfold wp at 1. simpl. rewrite decide_False by done.
  set (w2 := mkWorld _ _ _ _). assert (working w2) as Hk2 by (by destruct Hk).
  assert (acceptable notice first tail w2) as Ha2 by (by destruct Ha).
  apply wp_bind. eapply wp_mono; [by apply (steps_ok notice first tail timings w2)|].
  intros [r pfs] w3 (Hr & Hk3 & [Hl3 Ha3] & Hfin). simpl in Hr. subst r.
  assert (is_u64 (BlockNumber tail)) as Hu.
  { apply (proj1 (Forall_forall _ _) Hwf). by apply last_Some_elem_of. }
  pose proof (finish_ok position tail w3 (wk_config _ Hk3) (wk_store _ Hk3) Hl3 Hu Hz Hpos Hfin) as Hok.
  pose proof (finish_frame position w3) as Hfr. pose proof (env_finish position w3) as He4.
  apply wp_bind. unfold wp in Hok, Hfr |- * at 1. destruct (finishForkScan position w3) as [ok w4]. simpl in *.
  subst ok. destruct Hfr as [[_ Hp4 Ha4 _] _]. simpl. apply wp_bind.
  eapply wp_mono; [apply quiet_unpublished, quiet_same_height|]. intros r w5 [[He5 Hc5 _ Ha5] _]. apply wp_ret.
  split_and!; [done|rewrite He5, He4; apply Hk3|]. split.
  - by rewrite Hc5, Hp4.
  - intros d Hd. rewrite Ha5, Ha4. by apply Ha3.
Qed.

(** ** One turn of [Run] *)

(** The reader hands out the message and commits offsets, and the service is not stopped. *)
Record reader_healthy (msg : kafka_msg) : Prop := {
  rd_quit h : e _ h RQuit = false;
  rd_fetch h : e _ h RFetch = Ok msg;
  rd_commit h : e _ h (RCommit (msg_Offset msg)) = Ok tt
}.

Definition msg_position (msg : kafka_msg) : ForkScanPosition :=
  mkPosition (msg_Topic msg) (msg_Partition msg) (msg_Offset msg).

Lemma turn_ok latestMsgOffset msg notice first tail w : working w → acceptable notice first tail w →
  fresh notice tail w → replicas_healthy e cfg (BlockNumber tail) → reader_healthy msg →
  msg_Value msg = Ok notice → position_valid (Some (msg_position msg)) →
  latestMsgOffset = 0 ∨ latestMsgOffset < msg_Offset msg →
  wp (run_turn latestMsgOffset) (λ r w', r = inl (msg_Offset msg) ∧ published_all notice tail w w' ∧
    commits (w_hist w') = msg_Offset msg :: commits (w_hist w)) w.
Proof.
  intros Hk Ha Hfr Hrep [Hq Hfe Hco] Hv Hpos Hoff. pose proof (wk_env _ Hk) as He. unfold run_turn.
  apply wp_call. intros a Ha1. rewrite He, Hq in Ha1. subst a. set (w1 := mkWorld _ _ _ _).
  apply wp_call. intros a Ha2. simpl in Ha2. rewrite He, Hfe in Ha2. subst a. set (w2 := mkWorld _ _ _ _). rewrite Hv.
  apply wp_bind, wp_loop_stop. unfold process_turn. apply wp_call. intros a Ha3. simpl in Ha3. rewrite He, Hq in Ha3. subst a.
  set (w3 := mkWorld _ _ _ _). replace (negb (latestMsgOffset =? 0) && (msg_Offset msg <=? latestMsgOffset)) with false.
  2: { symmetry. destruct (Z.eqb_spec latestMsgOffset 0); [done|]. simpl. apply Z.leb_gt. lia. }
  assert (working w3 ∧ acceptable notice first tail w3 ∧ fresh notice tail w3) as (Hk3 & Ha3 & Hf3).
  { assert (obj S3 (w_hist w3) = obj S3 (w_hist w)) as Ho by (unfold w3, w2, w1; simpl; by rewrite !obj_other).
    split_and!; [by destruct Hk| |by destruct Hfr]. destruct Ha; split; rewrite ?Ho; done. }
  apply wp_bind. pose proof (process_spec notice (msg_Timings msg) (Some (msg_position msg)) w3) as Hcm.
  pose proof (process_ok notice first tail (msg_Timings msg) (Some (msg_position msg)) w3 Hk3 Ha3 Hf3 Hrep Hpos) as Hp.
  unfold wp in Hcm, Hp |- * at 1. fold (msg_position msg).
  destruct (processNotice notice (msg_Timings msg) (Some (msg_position msg)) w3) as [r w4]. simpl in Hcm, Hp |- *.
  destruct Hp as (-> & He4 & [Hl4 Ha4]). destruct Hcm as [_ Hm4 _ _ _]. simpl in Hm4. rewrite !commits_cons in Hm4. simpl in Hm4.
  apply wp_ret. exists None. split; [done|]. apply wp_bind, wp_loop_stop. unfold commit_turn.
  apply wp_call. intros a Ha5. rewrite He4, Hq in Ha5. subst a.
  apply wp_call. intros a Ha6. simpl in Ha6. rewrite He4, Hco in Ha6. subst a.
  apply wp_ret. exists None. split; [done|]. apply wp_ret. split; [done|]. split.
  - split; [done|]. intros d Hd. simpl. rewrite !acks_cons. simpl. rewrite !app_nil_r, (Ha4 d Hd). 
    unfold w3, w2, w1. simpl. by rewrite !acks_cons, !app_nil_r.
  - simpl. rewrite !commits_cons. simpl. by rewrite Hm4.
Qed.

(** (C5) Progress.  In a healthy environment -- S3, broker, etcd and store answer, a quorum of
    the replicas has the height, the reader hands out the message -- a turn of [Run] on a
    fresh notification that is acceptable returns; it reaches the message's offset
    in its first attempt, with every notice acknowledged once and in order on every
    topic of the checker, the latest notice at the last new block, and the offset
    committed. *)
Theorem turn_completes latestMsgOffset msg notice first tail w :
  working w → acceptable notice first tail w → fresh notice tail w →
  replicas_healthy e cfg (BlockNumber tail) → reader_healthy msg →
  msg_Value msg = Ok notice → position_valid (Some (msg_position msg)) →
  latestMsgOffset = 0 ∨ latestMsgOffset < msg_Offset msg →
  ∃ w', run_turn latestMsgOffset w = (inl (msg_Offset msg), w') ∧ published_all notice tail w w' ∧
    commits (w_hist w') = msg_Offset msg :: commits (w_hist w).
Proof.
  intros Hk Ha Hf Hr Hrd Hv Hp Ho.
  pose proof (turn_ok latestMsgOffset msg notice first tail w Hk Ha Hf Hr Hrd Hv Hp Ho) as Hw. unfold wp in Hw.
  destruct (run_turn latestMsgOffset w) as [r w']. simpl in Hw. destruct Hw as (-> & ? & ?). by exists w'.
Qed.
End stages.

(** ** Witness: the reorg of Process.v, with a broker that acknowledges everything *)
Module ProgressDemo.
#[local] Existing Instances mem_pebble demo_rlp demo_hash_text demo_json_text ProcessDemo.demo_big_text.
Definition cfg : Config := ProcessDemo.cfg.
Definition sim : Sim.sim := Sim.mkSim ProcessDemo.bucket ∅ (λ _ _ _, true) (λ _, None) [ReplicaDemo.nd 0]
  (λ _, Ok (RpcString "0x10")) elapsed (λ _ _, true).
Definition e : env := λ A h r,
  match r in req A return A with RFetch => Ok ProcessDemo.msg | r => Sim.sim_env sim _ h r end.
#[refine] Definition S3 : Bucket e := {| obj := Sim.objects ProcessDemo.bucket; rest := Sim.listed |}.
Proof.
  - apply (obj_put_ok _ (Sim.sim_bucket sim)).
  - apply (obj_put_fail _ (Sim.sim_bucket sim)).
  - apply (obj_other _ (Sim.sim_bucket sim)).
  - apply (obj_get _ (Sim.sim_bucket sim)).
  - apply (obj_list _ (Sim.sim_bucket sim)).
  - apply (rest_all _ (Sim.sim_bucket sim)).
Defined.
Definition w : World := mkWorld e (mkChecker cfg ProcessDemo.pub1 Sim.rep0 ProcessDemo.scan1) Demo.db1 [].
Lemma s3_ok : s3_healthy e S3.
Proof.
  split.
  - intros h k v Ho. simpl in *. unfold Sim.sim_env. simpl. by rewrite Ho.
  - done.
  - intros h p t. by eexists.
Qed.
Lemma replicas_ok : replicas_healthy e cfg 4.
Proof.
  split; [|done]. exists [ReplicaDemo.nd 0], (λ _, Ok (RpcString "0x10")). split_and!; [done|done|done|].
  vm_compute. reflexivity.
Qed.
Lemma bucket_listable : listable S3 ProcessDemo.bucket.
Proof. apply (HealthDemo.sim_listable sim). vm_compute. reflexivity. Qed.
Lemma index_ok3 h x : idx (cdb_store Demo.db1) h = x → match x with Some d => bool_decide (is_Some (to_hash d)) | None => true end = true →
  index_valid (cdb_store Demo.db1) h.
Proof. intros <- Hx d Hd. rewrite Hd in Hx. by apply bool_decide_eq_true in Hx. Qed.

Lemma notice_acceptable : acceptable e S3 cfg ProcessDemo.notice (ProcessDemo.blk 3 13 2) (ProcessDemo.blk 4 14 13) w.
Proof.
  split.
  - reflexivity.
  - reflexivity.
  - apply notice_wf.
  - vm_compute. discriminate.
  - apply (bool_decide_unpack (hashOf 14 ≠ zero_hash)). vm_compute. exact Logic.I.
  - apply (bool_decide_unpack _). vm_compute. exact Logic.I.
  - repeat apply Forall_cons_2; [eexists; split; [vm_compute; reflexivity|vm_compute; discriminate]..|constructor].
  - exact bucket_listable.
  - repeat apply Forall_cons_2; [eapply index_ok3; vm_compute; reflexivity..|constructor].
  - intros _. split; [reflexivity|]. eexists. split; [reflexivity|]. vm_compute. by split_and!.
  - by left.
Qed.
Lemma notice_fresh : fresh ProcessDemo.notice (ProcessDemo.blk 4 14 13) w.
Proof.
  split; [vm_compute; reflexivity|vm_compute; reflexivity|].
  apply (bool_decide_unpack _). vm_compute. exact Logic.I.
Qed.
End ProgressDemo.

Section progress_witnesses.
#[local] Existing Instances mem_pebble demo_rlp demo_hash_text demo_json_text ProcessDemo.demo_big_text.
Import ProgressDemo.

Lemma turn_completes_witness : ∃ w', run_turn 0 w = (inl 11, w') ∧
  acks outerSingleton (w_hist w') = notices cfg (reverse (DropBlocks ProcessDemo.notice)) (NewBlocks ProcessDemo.notice) ∧
  commits (w_hist w') = [11].
Proof.
  destruct (turn_completes e S3 cfg HealthDemo.writable s3_ok HealthDemo.db_ok ltac:(discriminate) ltac:(done) 0 ProcessDemo.msg ProcessDemo.notice
    (ProcessDemo.blk 3 13 2) (ProcessDemo.blk 4 14 13) w) as (w' & Hr & [_ Ha] & Hc).
  - split; [reflexivity|reflexivity|split; reflexivity].
  - exact notice_acceptable.
  - exact notice_fresh.
  - exact replicas_ok.
  - split; reflexivity.
  - reflexivity.
  - intros p [= <-]. simpl. split_and!; [discriminate|lia|lia].
  - left. reflexivity.
  - exists w'. split; [exact Hr|]. split; [|exact Hc]. rewrite (Ha outerSingleton); [reflexivity|vm_compute; left].
Defined.
End progress_witnesses.
