(* ===== verification/ScanProgress.v ===== *)
(** * ScanProgress: in a healthy environment the scan worker catches up

    A batch that starts on released heights moves the durable cursor by at least one of
    them, whatever the clock says; with the steps of the other goroutines in between, as
    long as these leave the scanner alone. *)
From S2P Require Import Prelude Types Config Json Store ScanState BlockIndex Checker Topics Validation Publish.
From S2P Require Import Nodes Replicas Align ForkScan Process Health.

Section progress.
Context `{HashTextLaws} `{!JsonText} `{!JsonTextLaws} `{PebbleLaws} `{!Rlp} `{!RlpLaws}.
Context (e : env) (S3 : Bucket e) (cfg : Config) (I : store → Prop) (c : context).
Context (s3_ok : s3_healthy e S3) (db_ok : store_healthy I) (running : ∀ h, e _ h RCtxErr = None).
Notation holding := (bucket_is e S3 cfg).

(** The steps of the other goroutines: they may ask for anything but puts, and leave the
    checker and the database as they are. *)
Context (other : nat → M unit).
Context (other_still : ∀ n w, w_env (other n w).2 = w_env w ∧ w_chk (other n w).2 = w_chk w ∧
  w_db (other n w).2 = w_db w ∧ (∀ O, holding O w → holding O (other n w).2)).

(** The world of a scan: the checker [chk] and the database [db] stay, the bucket keeps its
    keys [D]. *)
Record scanning (chk : Checker) (db : ConsistencyDB) (D : gset string) (w : World) : Prop := {
  sc_chk : w_chk w = chk;
  sc_db : w_db w = db;
  sc_bucket : ∃ O, holding O w ∧ dom O = D
}.

Context (chk : Checker) (db : ConsistencyDB) (D : gset string) (p : nat) (s : ForkScanState) (b : forkScanBatch).
Notation still := (scanning chk db D).

(** The active batch, as it began. *)
Record batch_ready : Prop := {
  br_state : forkState (scan chk) = Some s;
  br_active : forkBatch (scan chk) = Some p;
  br_batch : batchHeap (scan chk) !! p = Some b;
  br_aligned : forkAligned (scan chk) = true;
  br_start : b_start b = NextHeight s;
  br_upper : b_upper b ≤ A_Height (Published s);
  br_generation : b_generation b = Generation s;
  br_rewind : b_rewind b = None;
  br_store : I (cdb_store db)
}.
Context (ready : batch_ready).

(** A height that can be scanned: it has a canonical block, whose object exists. *)
Definition scannable (h : Z) (x : Hash) : Prop := canon (cdb_store db) h = Some x ∧
  ∀ O, dom O = D → has_canonical e S3 cfg (mkBlockContext h x zero_hash 0) O.

Lemma still_quiet {A} (m : M A) w : keeps surface m → (∀ O, holding O w → holding O (m w).2) → still w → still (m w).2.
Proof.
  intros Hm Hb [Hc Hd (O & Hw & HD)]. specialize (Hm w). unfold surface in Hm. injection Hm as _ Hc' Hd' _.
  split; [congruence|congruence|]. exists O. split; [by apply Hb|done].
Qed.

Lemma unlocked_ok w : still w → wp (unlocked other) (λ _ w', still w') w.
Proof.
  intros [Hc Hd (O & Hw & HD)]. unfold unlocked. apply wp_call. intros n _. set (w1 := mkWorld _ _ _ _).
  assert (holding O w1) as Hw1 by (destruct Hw as (? & ? & <-); split_and!; [done..|by apply obj_other]).
  destruct (other_still n w1) as (_ & Hc' & Hd' & Hb). unfold wp. split; [by rewrite Hc'|by rewrite Hd'|eauto].
Qed.

Lemma ctx_ok w : still w → wp (ctxErr c) (λ r w', r = None ∧ still w') w.
Proof.
  intros Hs. destruct c; [by apply wp_ret|]. unfold ctxErr, wp. split.
  - destruct Hs as [_ _ (O & (He & _) & _)]. simpl. by rewrite He, running.
  - apply still_quiet; [by apply quiet_call| |done]. intros O. by apply bucket_quiet.
Qed.

Lemma canonical_found h x : canon (cdb_store db) h = Some x → GetCanonicalHashByNum (cdb_store db) h = Ok (Some x).
Proof.
  unfold canon, idx. intros Hx. pose proof (sh_read _ db_ok _ (br_store ready) (numKey h)) as Hr.
  unfold GetCanonicalHashByNum, getBlockHashByNum. destruct (kv_view _ !! numKey h) as [d|]; [|done].
  rewrite Hr. simpl in *. by rewrite Hx.
Qed.

Lemma read_ok h x w : still w → scannable h x → wp (readScanCanonical h) (λ r w', r = Ok x ∧ w' = w) w.
Proof.
  intros [_ Hd _] [Hx _]. unfold readScanCanonical. apply wp_bind. unfold wp at 1. simpl. apply wp_ret.
  by rewrite Hd, (canonical_found h x Hx).
Qed.

Lemma verify_ok h x w : still w → scannable h x → h ≤ b_upper b →
  wp (verifyForkScanBatchHeight p h x) (λ r w', r = Ok tt ∧ w' = w) w.
Proof.
  intros Hs Hx Hh. destruct ready as [Rs Ra Rb Rl Rst Ru Rg Rr _]. unfold verifyForkScanBatchHeight.
  do 2 (apply wp_bind; unfold wp at 1; simpl). rewrite (sc_chk _ _ _ _ Hs), Rs, Rb, Ra, Rl.
  rewrite bool_decide_true by done. simpl. rewrite Rst, Z.eqb_refl. unfold batch_stale. rewrite Rr. simpl.
  rewrite Rg, Z.eqb_refl. simpl. rewrite (proj2 (Z.ltb_ge _ _)) by lia.
  apply wp_bind. eapply wp_mono; [by apply (read_ok h x)|]. intros r w' [-> ->]. apply wp_ret. simpl.
  by rewrite bool_decide_true.
Qed.

Lemma puts_ok (verify : M (res unit)) plan : (∀ w, still w → wp verify (λ r w', r = Ok tt ∧ still w') w) →
  Forall (λ rw, rw_key rw ∈ D) plan → ∀ w, still w →
  wp (scan_puts other plan verify) (λ r w', r = Ok tt ∧ still w') w.
Proof.
  intros Hv Hp. induction plan as [|rw plan IH]; intros w Hs; cbn [scan_puts]; [by apply wp_ret|].
  apply Forall_cons in Hp as [Hk Hp]. apply wp_bind. eapply wp_mono; [by apply unlocked_ok|]. intros [] w1 Hs1.
  apply wp_bind. eapply wp_mono; [by apply Hv|]. intros r w2 [-> Hs2]. unfold rewriteValidationAtKeyCtx.
  destruct Hs2 as [Hc2 Hd2 (O & Hw2 & HD)]. apply wp_call. intros a Ha. pose proof Hw2 as (He & Hc & Ho).
  rewrite He, (hs_put _ _ s3_ok) in Ha. subst a. apply IH; [done|]. split; [done|done|].
  exists (<[rw_key rw := rw_validation rw]> O). split; [|rewrite dom_insert_L; set_solver].
  split_and!; [done|done|]. simpl. erewrite obj_put_ok by done. by rewrite Ho.
Qed.

Lemma height_ok h x w : still w → scannable h x → h ≤ b_upper b →
  wp (scanContinuousBatchHeight other c p h) (λ r w', r = Ok x ∧ still w') w.
Proof.
  intros Hs Hx Hh. unfold scanContinuousBatchHeight. apply wp_bind. eapply wp_mono; [by apply unlocked_ok|].
  intros [] w1 Hs1. apply wp_bind. eapply wp_mono; [by apply (read_ok h x)|]. intros r w' [-> ->].
  apply wp_bind. unfold executeForkScanPlan. apply wp_bind. eapply wp_mono; [by apply unlocked_ok|].
  intros [] w2 Hs2. pose proof Hs2 as [Hc2 Hd2 (O & Hw2 & HD)].
  assert (hint_exists O None) as Hnone by done.
  pose proof (plan_ok e S3 cfg s3_ok c _ O None w2 Hw2 (proj2 Hx O HD) Hnone) as Hplan.
  pose proof (quiet_plan c (mkBlockContext h x zero_hash 0) None w2) as Hq.
  unfold wp in Hplan. destruct (planForkRewritesCtx _ _ None w2) as [r w3] eqn:Ep. simpl in Hplan, Hq.
  apply (wp_step _ _ _ _ _ _ Ep). destruct Hplan as (Hw3 & plan & -> & Hpl). injection Hq as _ Hc3 Hd3 _.
  assert (still w3) as Hs3 by (split; [congruence|congruence|by exists O]). rewrite HD in Hpl.
  apply wp_bind. eapply wp_mono.
  { apply puts_ok; [|exact Hpl|exact Hs3]. intros w4 Hs4. apply wp_bind.
    eapply wp_mono; [by apply ctx_ok|]. intros r w5 [-> Hs5].
    eapply wp_mono; [by apply (verify_ok h x)|]. by intros r w6 [-> ->]. }
  intros r w4 [-> Hs4]. apply wp_bind. eapply wp_mono; [by apply ctx_ok|]. intros r w5 [-> Hs5]. apply wp_ret. by apply wp_ret.
Qed.

(** *** The heights of a batch *)
Fixpoint scanned (h : Z) (l : list (Z * Hash)) : Prop :=
  match l with
  | [] => True
  | (h', x) :: l => h' = h ∧ h ≤ b_upper b ∧ scannable h x ∧ scanned (h + 1) l
  end.
Context (bounded : b_upper b < MaxUint64).

Lemma scanned_bound l : ∀ h, scanned h l → h ≤ b_upper b + 1 → h + Z.of_nat (length l) ≤ b_upper b + 1.
Proof.
  induction l as [|[h' x] l IH]; intros h; simpl; [lia|]. intros (-> & Hh & _ & Hl) _. specialize (IH _ Hl). lia.
Qed.

Lemma get_batch_ok w : still w → get_batch p w = (Some b, w).
Proof. intros Hs. unfold get_batch, asks. by rewrite (sc_chk _ _ _ _ Hs), (br_batch ready). Qed.

(** The loop scans at least the first height: the time budget counts from the second on. *)
Lemma loop_ok deadline fuel : ∀ h checked w, still w → 0 ≤ h →
  (∀ h', h ≤ h' ≤ b_upper b → ∃ x, scannable h' x) →
  wp (batch_loop other fuel c p deadline h checked) (λ r w', r.2 = None ∧ still w' ∧
    ∃ l, r.1 = checked ++ l ∧ scanned h l ∧ (checked = [] → fuel ≠ O → h ≤ b_upper b → l ≠ [])) w.
Proof.
  induction fuel as [|fuel IH]; intros h checked w Hs Hh Hsc; cbn [batch_loop].
  { apply wp_ret. split_and!; [done|done|]. exists []. by rewrite app_nil_r. }
  assert (∀ w', still w' → (checked = [] → b_upper b < h) → wp (ret (checked, None)) (λ (r : list (Z * Hash) * option err) w', r.2 = None ∧ still w' ∧
    ∃ l, r.1 = checked ++ l ∧ scanned h l ∧ (checked = [] → S fuel ≠ O → h ≤ b_upper b → l ≠ [])) w') as Hstop.
  { intros w' Hw' Hemp. apply wp_ret. split_and!; [done|done|]. exists []. rewrite app_nil_r. split_and!; [done|done|].
    intros Hc. specialize (Hemp Hc). lia. }
  apply (wp_step _ _ _ _ _ _ (get_batch_ok w Hs)). destruct (Z.ltb_spec (b_upper b) h) as [|Hle]; [by apply Hstop|].
  apply wp_bind. eapply wp_mono; [by apply ctx_ok|]. intros r w1 [-> Hs1].
  apply wp_bind. eapply wp_mono; [by apply unlocked_ok|]. intros [] w2 Hs2.
  apply (wp_step _ _ _ _ _ _ (get_batch_ok w2 Hs2)). unfold batch_stale. rewrite (br_rewind ready).
  apply wp_bind. apply (wp_mono _ (λ r w', still w' ∧ (checked = [] → r = false))).
  { case_bool_decide; [by apply wp_ret|]. apply wp_call. intros now _. apply wp_ret. split; [|done].
    destruct Hs2 as [Hc2 Hd2 (O & (He & Hc & <-) & HD)]. split; [done|done|]. eexists. split; [|exact HD].
    split_and!; [done..|]. by apply obj_other. }
  intros expired w3 [Hs3 Hex]. destruct expired.
  { apply Hstop; [done|]. intros Hc. by specialize (Hex Hc). }
  rewrite (proj2 (Z.eqb_neq h MaxUint64)) by lia. destruct (Hsc h) as [x Hx]; [lia|].
  apply wp_bind. eapply wp_mono; [by apply (height_ok h x)|]. intros r w4 [-> Hs4].
  rewrite u64_succ by (unfold is_u64; lia). eapply wp_mono; [apply IH; [done|lia|intros h' Hh'; apply Hsc; lia]|].
  intros r w5 (Hr & Hs5 & l & Hl & Hsl & _). split_and!; [done|done|]. exists ((h, x) :: l).
  split_and!; [by rewrite Hl, <- app_assoc|by split_and!|done].
Qed.

Lemma verify_all_ok l : ∀ h w, 0 ≤ h → still w → scanned h l →
  wp (verify_checked p l h) (λ r w', r = (h + Z.of_nat (length l), None) ∧ w' = w) w.
Proof.
  induction l as [|[h' x] l IH]; intros h w Hh Hs; cbn [verify_checked scanned length].
  { intros _. apply wp_ret. split; [|done]. f_equal. lia. }
  intros (-> & Hle & Hx & Hl). apply wp_bind. eapply wp_mono; [by apply (verify_ok h x)|]. intros r w' [-> ->].
  rewrite u64_succ by (unfold is_u64; lia). eapply wp_mono; [apply IH; [lia|done|done]|].
  intros r w' [-> ->]. split; [|done]. f_equal. lia.
Qed.

(** The cursor moves to just above the last height of the batch. *)
Definition committed_at (n : Z) (w' : World) : Prop :=
  frame (mkWorld e chk db []) w' ∧ (∃ O, holding O w' ∧ dom O = D) ∧ I (cdb_store (w_db w')) ∧
  scan (w_chk w') = set_batch None (batchHeap (scan chk)) (set_forkState (Some (set_NextHeight n s)) (scan chk)) ∧
  stored w' = Some (json_print (state_json (set_NextHeight n s))).

Lemma commit_ok l w : still w → l ≠ [] → scanned (NextHeight s) l → NextHeight s ≤ b_upper b → 0 ≤ NextHeight s →
  validate s = None → anchor_wf (Published s) →
  let n := NextHeight s + Z.of_nat (length l) in
  wp (finishForkScanBatch c p l) (λ r w', r = (n <=? b_upper b, None) ∧ committed_at n w') w.
Proof.
  intros Hs Hne Hl Hle Hpos Hv Hpw n. pose proof (scanned_bound l _ Hl ltac:(lia)) as Hn. fold n in Hn.
  assert (NextHeight s < n) as Hlt by (destruct l; [done|simpl in n; lia]).
  assert (validate (set_NextHeight n s) = None) as Hvn.
  { apply validate_spec. apply validate_spec in Hv as (? & ? & ? & ? & ? & _ & ? & ?). simpl. split_and!; try done.
    intros Hmax. pose proof (br_upper ready). rewrite u64_succ by done. lia. }
  unfold finishForkScanBatch. apply (wp_step _ _ _ _ _ _ (get_batch_ok w Hs)). apply wp_bind. unfold wp at 1. simpl.
  rewrite (sc_chk _ _ _ _ Hs), (br_state ready), (br_start ready).
  apply wp_bind. eapply wp_mono; [by apply ctx_ok|]. intros r w1 [-> Hs1]. apply wp_bind, wp_bind.
  eapply wp_mono; [by apply verify_all_ok|]. intros r w' [-> ->]. fold n. rewrite (proj2 (Z.ltb_lt _ _) Hlt).
  destruct Hs1 as [Hc1 Hd1 (O & Hw1 & HD)].
  assert (I (cdb_store (w_db w1))) as Hi by (rewrite Hd1; apply (br_store ready)).
  pose proof (save_ok I db_ok (set_NextHeight n s) w1 Hi Hvn) as Hok. pose proof (save_spec (set_NextHeight n s) w1) as Hsp.
  unfold wp in Hok, Hsp. destruct (saveForkScan (set_NextHeight n s) w1) as [r w2] eqn:Es. simpl in Hok, Hsp.
  destruct Hok as [-> Hi2]. destruct Hsp as (Hf & Hh2 & _ & Hst & Hsto). apply (wp_step _ _ _ _ _ _ Es), wp_ret.
  apply wp_bind. unfold wp at 1. simpl. apply wp_ret. split; [done|]. destruct Hw1 as (He1 & Hcf1 & Ho1).
  destruct Hf as [Hfe Hfc Hfp Hfr Hfi]. split_and!; [| |done|by simpl; rewrite Hst, Hc1|done].
  - split; simpl; [congruence..|]. intros h. by rewrite Hfi, Hd1.
  - exists O. split; [split_and!; simpl; congruence|done].
Qed.
End progress.

(** ** Turns of the worker *)
Section turns.
Context `{HashTextLaws} `{!JsonText} `{!JsonTextLaws} `{PebbleLaws} `{!Rlp} `{!RlpLaws}.
Context (e : env) (S3 : Bucket e) (cfg : Config) (I : store → Prop) (c : context).
Context (s3_ok : s3_healthy e S3) (db_ok : store_healthy I) (running : ∀ h, e _ h RCtxErr = None).
Notation holding := (bucket_is e S3 cfg).
Context (other : nat → M unit).
Context (other_still : ∀ n w, w_env (other n w).2 = w_env w ∧ w_chk (other n w).2 = w_chk w ∧
  w_db (other n w).2 = w_db w ∧ (∀ O, holding O w → holding O (other n w).2)).

(** The scanner with the cursor [s] and no active batch; every height from the cursor to
    the published head has its canonical block, whose object exists. *)
Record scan_idle (s : ForkScanState) (w : World) : Prop := {
  si_env : w_env w = e;
  si_config : config (w_chk w) = cfg;
  si_store : I (cdb_store (w_db w));
  si_stored : stored w = Some (json_print (state_json s));
  si_state : forkState (scan (w_chk w)) = Some s;
  si_pending : Pending s = None;
  si_aligned : forkAligned (scan (w_chk w)) = true;
  si_batch : forkBatch (scan (w_chk w)) = None;
  si_valid : validate s = None;
  si_next : 0 ≤ NextHeight s;
  si_published : is_u64 (A_Height (Published s)) ∧ A_Height (Published s) ≠ MaxUint64;
  si_heights h : NextHeight s ≤ h ≤ A_Height (Published s) →
    ∃ x, scannable e S3 cfg (w_db w) (dom (obj S3 (w_hist w))) h x
}.

(** The schedule of the cursor's generation has released a height. *)
Definition released (s : ForkScanState) (sched : forkScanSchedule) : Prop :=
  sc_generation sched = Generation s ∧ sc_mature sched = true ∧ is_Some (sc_observedAt sched) ∧
  sc_matureHeight sched ≤ sc_observedHeight sched ≤ A_Height (Published s).

Lemma scannable_db db db' D h x : (∀ h, idx (cdb_store db') h = idx (cdb_store db) h) →
  scannable e S3 cfg db D h x → scannable e S3 cfg db' D h x.
Proof. intros Hi [Hx Hm]. split; [|done]. unfold canon in *. by rewrite Hi. Qed.

Notation still := (scanning e S3 cfg).

Lemma idle_still s w : scan_idle s w → still (w_chk w) (w_db w) (dom (obj S3 (w_hist w))) w.
Proof. intros []. split; [done|done|]. eexists. split; [|done]. by split_and!. Qed.

(** After a batch the scanner is idle at the new cursor. *)
Lemma committed_idle s n w w' chk D : scan_idle s w → NextHeight s ≤ n → n ≤ A_Height (Published s) + 1 →
  config chk = cfg → scan chk = set_batch (forkBatch (scan chk)) (batchHeap (scan chk)) (scan (w_chk w)) →
  dom (obj S3 (w_hist w)) = D → committed_at e S3 cfg I chk (w_db w) D s n w' → scan_idle (set_NextHeight n s) w'.
Proof.
  intros [He Hc Hi _ Hs Hp Ha Hb Hv Hn [Hu Hm] Hh] Hlo Hhi Hcf Hsc HD ([Hfe Hfc _ _ Hfi] & (O & Hw & HO) & Hi' & Hscan & Hsto).
  simpl in *. split; rewrite ?Hscan; simpl; try done.
  - congruence.
  - by rewrite Hsc.
  - apply validate_spec. apply validate_spec in Hv as (? & ? & ? & ? & ? & _ & ? & ?). simpl. split_and!; try done.
    intros _. rewrite u64_succ by done. lia.
  - lia.
  - intros h Hr. destruct (Hh h) as [x Hx]; [lia|]. exists x. eapply scannable_db; [exact Hfi|].
    destruct Hw as (_ & _ & ->). by rewrite HO, <- HD.
Qed.

(** The batch that is begun covers the heights up to [upper]. *)
Lemma begin_ok upper s w : scan_idle s w → NextHeight s ≤ upper ≤ A_Height (Published s) →
  let p := length (batchHeap (scan (w_chk w))) in
  let b := mkBatch (NextHeight s) (Z.min upper (A_Height (Published s))) (Generation s) None in
  let chk1 := mkChecker (config (w_chk w)) (pub (w_chk w)) (rep (w_chk w))
    (set_batch (Some p) (batchHeap (scan (w_chk w)) ++ [b]) (scan (w_chk w))) in
  batch_ready I chk1 (w_db w) p s b ∧
  ∀ w1 D, still (w_chk w) (w_db w) D w1 →
    ∃ w2, beginForkScanBatch upper (Generation s) w1 = (Ok p, w2) ∧ still chk1 (w_db w) D w2.
Proof.
  intros [He Hc Hi _ Hst Hp Ha Hb Hv Hn [Hu Hm] Hh] [Hlo Hup] p b chk1. split.
  - split; simpl; try done; [|lia]. unfold p. rewrite lookup_app_r by lia. by rewrite Nat.sub_diag.
  - intros w1 D [Hc1 Hd1 (O & Hw1 & HO)]. unfold beginForkScanBatch, bind, get_scan, asks.
    rewrite Hc1, Hst, Ha, Hp, Hb, Z.eqb_refl. simpl. rewrite Hc1. eexists. split; [reflexivity|].
    split; [done|done|]. exists O. split; [|done]. destruct Hw1 as (? & ? & ?). split_and!; [done|exact Hc|done].
Qed.

(** A batch on released heights moves the cursor above at least one of them. *)
Lemma batch_ok upper s w : scan_idle s w → NextHeight s ≤ upper ≤ A_Height (Published s) →
  wp (scanContinuousBatch other c upper (Generation s)) (λ r w', ∃ n, NextHeight s < n ≤ upper + 1 ∧
    r = (n <=? upper, None) ∧ scan_idle (set_NextHeight n s) w' ∧
    forkSchedule (scan (w_chk w')) = forkSchedule (scan (w_chk w))) w.
Proof.
  intros Hidle [Hlo Hup]. pose proof (idle_still _ _ Hidle) as Hs.
  destruct (begin_ok upper s w Hidle ltac:(lia)) as [Hready Hbegin].
  pose proof Hidle as [_ Hc _ _ _ _ _ _ Hv Hn [Hu Hm] Hh].
  set (D := dom (obj S3 (w_hist w))) in *. set (p := length _) in *. set (b := mkBatch _ _ _ _) in *.
  set (chk1 := mkChecker _ _ _ _) in *. assert (b_upper b = upper) as Hbu by (simpl; lia).
  assert (b_upper b < MaxUint64) as Hlt by (unfold is_u64 in Hu; lia).
  unfold scanContinuousBatch. apply wp_bind. eapply wp_mono; [by apply (unlocked_ok e S3 cfg other other_still)|].
  intros [] w1 Hs1. destruct (Hbegin w1 D Hs1) as (w2 & Hw2 & Hs2). apply (wp_step _ _ _ _ _ _ Hw2).
  apply wp_call. intros now _. set (w3 := mkWorld _ _ _ _).
  assert (still chk1 (w_db w) D w3) as Hs3.
  { destruct Hs2 as [Hc2 Hd2 (O & (? & ? & <-) & HO)]. split; [done|done|]. eexists. split; [|exact HO].
    split_and!; [done|done|by apply obj_other]. }
  apply (wp_step _ _ _ _ _ _ (get_batch_ok e S3 cfg I chk1 (w_db w) D p s b Hready w3 Hs3)).
  apply wp_bind. eapply wp_mono.
  { apply (loop_ok e S3 cfg I c s3_ok db_ok running other other_still chk1 (w_db w) D p s b Hready Hlt); [done|done|].
    intros h Hr. simpl in Hr. apply Hh. lia. }
  intros [checked e'] w4 (He' & Hs4 & l & Hl & Hsl & Hne). simpl in He', Hl. subst e' checked.
  apply wp_bind. eapply wp_mono; [by apply (unlocked_ok e S3 cfg other other_still)|]. intros [] w5 Hs5.
  specialize (Hne eq_refl ltac:(done) ltac:(simpl; lia)). apply wp_bind. eapply wp_mono.
  { apply (commit_ok e S3 cfg I c db_ok running chk1 (w_db w) D p s b Hready Hlt l w5 Hs5 Hne Hsl); [lia|done|done|done]. }
  intros r w6 [-> Hcom]. pose proof (scanned_bound e S3 cfg (w_db w) D b l _ Hsl ltac:(simpl; lia)) as Hbound.
  apply wp_ret. exists (NextHeight s + Z.of_nat (length l)). simpl in Hbound.
  assert (0 < Z.of_nat (length l)) by (destruct l; [done|simpl; lia]).
  split; [lia|]. split; [by rewrite Hbu|]. split; [|by destruct Hcom as (_ & _ & _ & -> & _)].
  eapply (committed_idle s _ w w6 chk1 D); [done|lia|lia|done|done|done|done].
Qed.

(** The observation keeps the released heights released. *)
Lemma observe_ok s w : scan_idle s w → released s (forkSchedule (scan (w_chk w))) →
  wp observeForkScan (λ r w', scan_idle s w' ∧ released s (forkSchedule (scan (w_chk w'))) ∧
    let upper := sc_matureHeight (forkSchedule (scan (w_chk w'))) in
    sc_matureHeight (forkSchedule (scan (w_chk w))) ≤ upper ∧ r = (upper, Generation s, NextHeight s <=? upper)) w.
Proof.
  intros [He Hc Hi Hsto Hst Hp Ha Hb Hv Hn [Hu Hm] Hh] (Hg & Hma & [t Ht] & Hmat & Hobs). unfold observeForkScan.
  do 2 (apply wp_bind; unfold wp at 1; simpl). rewrite Hst, Ha, Hp. simpl. apply wp_call. intros now _.
  set (old := forkSchedule (scan (w_chk w))) in *. set (new := schedule_observe _ _ _ _ old).
  assert (sc_generation new = Generation s ∧ sc_mature new = true ∧ is_Some (sc_observedAt new) ∧
    sc_matureHeight old ≤ sc_matureHeight new ≤ sc_observedHeight new ∧ sc_observedHeight new ≤ A_Height (Published s)) as
    (Hg' & Hma' & Hat' & Hmat' & Hobs').
  { unfold new, schedule_observe. rewrite Hg, Z.eqb_refl. simpl. rewrite Ht. destruct (_ <=? _); simpl; split_and!; try done; lia. }
  clearbody new. apply wp_bind. unfold wp at 1. simpl. apply wp_ret. simpl. split; [|split; [|split; [lia|]]].
  - split; simpl; try done. intros h Hr. rewrite obj_other by done. by apply Hh.
  - unfold released. split_and!; try done. lia.
  - by rewrite Hma'.
Qed.

(** One turn: a released height above the cursor is scanned. *)
Lemma scan_turn_ok s w : scan_idle s w → released s (forkSchedule (scan (w_chk w))) →
  wp (continuous_turn other c) (λ _ w', ∃ n, scan_idle (set_NextHeight n s) w' ∧
    released (set_NextHeight n s) (forkSchedule (scan (w_chk w'))) ∧ NextHeight s ≤ n ∧
    sc_matureHeight (forkSchedule (scan (w_chk w))) ≤ sc_matureHeight (forkSchedule (scan (w_chk w'))) ∧
    (NextHeight s ≤ sc_matureHeight (forkSchedule (scan (w_chk w))) → NextHeight s < n)) w.
Proof.
  intros Hidle Hrel. unfold continuous_turn. apply wp_bind. unfold wp at 1. simpl.
  apply wp_bind. pose proof (idle_still _ _ Hidle) as Hs. eapply wp_mono; [by apply (unlocked_ok e S3 cfg other other_still)|].
  intros [] w1 [Hc1 Hd1 (O & (He1 & Hcf1 & Ho1) & HO)].
  assert (scan_idle s w1) as Hidle1.
  { destruct Hidle. split; rewrite ?Hc1, ?Hd1; try done. unfold stored in *. by rewrite Hc1, Hd1.
    intros h Hr. rewrite Ho1, HO. auto. }
  rewrite <- Hc1 in Hrel |- *. apply wp_bind. eapply wp_mono; [by apply observe_ok|].
  intros [[upper generation] rdy] w2 (Hidle2 & Hrel2 & Hmat & [= -> -> ->]).
  set (upper := sc_matureHeight (forkSchedule (scan (w_chk w2)))) in *.
  destruct (Z.leb_spec (NextHeight s) upper) as [Hle|Hgt].
  - apply wp_bind. pose proof Hrel2 as (_ & _ & _ & Hm1 & Hm2). eapply wp_mono; [apply batch_ok; [done|fold upper in Hm1; lia]|].
    intros [more err'] w3 (n & Hn & _ & Hidle3 & Hsch). apply wp_ret. exists n. rewrite Hsch. split_and!; [done|done|lia|done|lia].
  - apply wp_ret. exists (NextHeight s). replace (set_NextHeight (NextHeight s) s) with s by (by destruct s).
    split_and!; [done|done|lia|done|lia].
Qed.

(** The turns of the worker's loop, one timer after the other. *)
Fixpoint scan_turns (k : nat) : M unit :=
  match k with O => ret tt | S k => let* _ := continuous_turn other c in scan_turns k end.

(** (C6) The worker catches up.  In a healthy environment, with steps of other goroutines that
    leave the checker and the database as they are, the worker's turns move the cursor above every height that is
    released now, in at most one turn per height: the time budget of a batch never
    stops it; memory and store agree on the cursor. *)
Theorem worker_catches_up k s w : scan_idle s w → released s (forkSchedule (scan (w_chk w))) →
  sc_matureHeight (forkSchedule (scan (w_chk w))) - NextHeight s < Z.of_nat k →
  ∃ n w', scan_turns k w = (tt, w') ∧ sc_matureHeight (forkSchedule (scan (w_chk w))) < n ∧
    forkState (scan (w_chk w')) = Some (set_NextHeight n s) ∧
    stored w' = Some (json_print (state_json (set_NextHeight n s))).
Proof.
  set (target := sc_matureHeight _). intros Hidle Hrel Hk.
  enough (wp (scan_turns k) (λ _ w', ∃ n, target < n ∧ scan_idle (set_NextHeight n s) w') w) as Hw.
  { unfold wp in Hw. destruct (scan_turns k w) as [[] w']. destruct Hw as (n & Hn & [? ? ? Hsto Hst]). by exists n, w'. }
  assert (target ≤ sc_matureHeight (forkSchedule (scan (w_chk w)))) as Ht by (unfold target; lia). clearbody target.
  revert s w Hidle Hrel Hk Ht. induction k as [|k IH]; intros s w Hidle Hrel Hk Ht; cbn [scan_turns].
  - apply wp_ret. exists (NextHeight s). replace (set_NextHeight (NextHeight s) s) with s by (by destruct s). split; [lia|done].
  - apply wp_bind. eapply wp_mono; [by apply scan_turn_ok|]. intros _ w1 (n & Hidle1 & Hrel1 & Hn & Hmat & Hadv).
    eapply wp_mono; [apply (IH _ w1 Hidle1 Hrel1); simpl; lia|]. intros [] w2 (n2 & Hn2 & Hidle2). by exists n2.
Qed.
End turns.

Module ScanProgressDemo.
#[local] Existing Instances mem_pebble demo_rlp demo_hash_text demo_json_text.
Import ScanDemo.
Definition e : env := Sim.sim_env sim.
(** The cursor is in the store; both objects of height 2 carry the wrong mark. *)
Definition db : ConsistencyDB := mkCDB (SaveForkScan (cdb_store Demo.db1) (ChainID cfg) (Version cfg) cursor0).2 (cdb_latest Demo.db1).
Definition w : World := mkWorld e (w_chk w0) db [].
(** Between the worker's steps the other goroutines read an object. *)
Definition reading : nat → M unit := λ _, let* _ := call (RS3Get "x") in ret tt.

Lemma running h : e _ h RCtxErr = None.
Proof. done. Qed.
Lemma reading_still n w : w_env (reading n w).2 = w_env w ∧ w_chk (reading n w).2 = w_chk w ∧
  w_db (reading n w).2 = w_db w ∧ (∀ O, bucket_is e (Sim.sim_bucket sim) cfg O w → bucket_is e (Sim.sim_bucket sim) cfg O (reading n w).2).
Proof. by split_and!. Qed.

Lemma height_scannable h n : canon (cdb_store (w_db w)) h = Some (hashOf n) → key h n ∈ dom bucket →
  isCanonicalKey cfg (hash_string (hashOf n)) (key h n) = true →
  String.prefix (blockValidationPrefix cfg h) (key h n) = true →
  scannable e (Sim.sim_bucket sim) cfg (w_db w) (dom bucket) h (hashOf n).
Proof.
  intros Hc Hd Hk Hp. split; [exact Hc|]. intros O HO. split; [|exists (key h n); by rewrite HO].
  apply HealthDemo.sim_listable. rewrite <- size_dom, HO. vm_compute. reflexivity.
Qed.
Lemma idle : scan_idle e (Sim.sim_bucket sim) cfg HealthDemo.writable cursor0 w.
Proof.
  split; try reflexivity.
  - split; vm_compute; reflexivity.
  - vm_compute. discriminate.
  - vm_compute. by split_and!.
  - intros h Hh. simpl in Hh. assert (h = 2 ∨ h = 3) as [-> | ->] by lia.
    + exists (hashOf 2). apply height_scannable; vm_compute; reflexivity.
    + exists (hashOf 3). apply height_scannable; vm_compute; reflexivity.
Qed.
End ScanProgressDemo.

Section scan_progress_witnesses.
#[local] Existing Instances mem_pebble demo_rlp demo_hash_text demo_json_text.
Import ScanDemo ScanProgressDemo.

Lemma worker_catches_up_witness : ∃ n w', scan_turns WithCancel reading 2 w = (tt, w') ∧ 3 < n ∧
  forkState (scan (w_chk w')) = Some (set_NextHeight n cursor0).
Proof.
  destruct (worker_catches_up e (Sim.sim_bucket sim) cfg HealthDemo.writable WithCancel (HealthDemo.sim_s3_ok sim)
    HealthDemo.db_ok running reading reading_still 2 cursor0 w) as (n & w' & Hr & Hn & Hst & _).
  - exact idle.
  - split; [reflexivity|split; [reflexivity|split; [by eexists|]]]. vm_compute. by split.
  - reflexivity.
  - exists n, w'. split; [exact Hr|]. by split.
Defined.
End scan_progress_witnesses.
