(* ===== verification/ScanSystem.v ===== *)
(** * ScanSystem: the scan worker and the processing goroutine together

    A transition system whose steps are the operations that run under the checker's
    lock, or read without it, and whose configurations record, beside the world, where
    the worker is and which heights it has scanned (check/fork_scan.go,
    check/fork_scan_batch.go, check/check.go).  The invariant: no height below the
    durable cursor was left unscanned since its canonical block last changed. *)
From S2P Require Import Prelude Types Config Json Store ScanState BlockIndex Checker Validation Publish.
From S2P Require Import Nodes Replicas Align ForkScan Process.

Section system.
Context `{HashTextLaws} `{!JsonText} `{!JsonTextLaws} `{PebbleLaws} `{!Rlp} `{!RlpLaws} `{!BigText}.

Notation scan_of w := (scan (w_chk w)).

(** The canonical hash of a height. *)
Definition canon_at (w : World) (h : Z) : option Hash := canon (cdb_store (w_db w)) h.

(** A reorg at [h]: the block that was canonical is not any more. *)
Definition reorged (w w' : World) (h : Z) : bool :=
  match canon_at w h with Some x => negb (bool_decide (canon_at w' h = Some x)) | None => false end.

(** ** Configurations *)

(** The worker within a batch: between two heights, after it read the canonical
    hash of a height, or with writes left of the height's plan.  [e] is the number of reorgs
    the height had seen when its hash was read. *)
Inductive stage :=
  | Between
  | Chosen (h : Z) (x : Hash) (e : nat)
  | Planned (h : Z) (x : Hash) (e : nat) (plan : list forkRewrite).
Inductive worker :=
  | Idle
  | Batch (p : nat) (checked : list (Z * Hash)) (st : stage).

(** [c_epoch h]: how many reorgs replaced or removed the canonical block of [h];
    [c_done]: the scans that came to their end, with the epoch and hash they read. *)
Record conf := mkConf {
  c_world : World;
  c_pc : worker;
  c_epoch : Z → nat;
  c_done : list (Z * nat * Hash)
}.

Definition epoch_after (E : Z → nat) (w w' : World) (h : Z) : nat :=
  if reorged w w' h then S (E h) else E h.

(** ** Steps of the processing goroutine *)

(** Anything that leaves the block index, the configuration and the scanner alone. *)
Record aside (w w' : World) : Prop := {
  as_config : config (w_chk w') = config (w_chk w);
  as_scan : scan_of w' = scan_of w;
  as_db : w_db w' = w_db w;
  as_latest : latest_ok w → latest_ok w' }.

(** New blocks come in ascending order, as far as the first is the lowest. *)
Definition lowest_first (l : list BlockContext) : Prop :=
  ∀ first b, head l = Some first → b ∈ l → BlockNumber first ≤ BlockNumber b.

Inductive main (w w' : World) : Prop :=
  | main_prepare notice position r :
      blocks_wf (NewBlocks notice) → prepareForkScan notice position w = (r, w') → main w w'
  | main_write l pf ok :
      blocks_wf l → lowest_first l → writeBlockInfoToDB l pf w = (ok, w') → main w w'
  | main_finish position r :
      position_ok position → finishForkScan position w = (r, w') → main w w'
  | main_aside : aside w w' → main w w'.

(** A restart: the store keeps its content, the checker starts over. *)
Definition restarted (w w1 : World) : Prop :=
  config (w_chk w1) = config (w_chk w) ∧ scan_of w1 = Sim.scan0 ∧ latest_ok w1 ∧
  kv_view (cdb_store (w_db w1)) = kv_view (cdb_store (w_db w)).

(** ** Steps of the system *)
Inductive step : conf → conf → Prop :=
  | step_main w w' pc E D : main w w' →
      step (mkConf w pc E D) (mkConf w' pc (epoch_after E w w') D)
  | step_observe (w w' : World) r pc E D : observeForkScan w = (r, w') →
      step (mkConf w pc E D) (mkConf w' pc E D)
  | step_begin w w' upper generation p E D :
      beginForkScanBatch upper generation w = (Ok p, w') →
      step (mkConf w Idle E D) (mkConf w' (Batch p [] Between) E D)
  | step_read w w' p b checked h x E D :
      batchHeap (scan_of w) !! p = Some b → h = b_start b + Z.of_nat (length checked) →
      readScanCanonical h w = (Ok x, w') →
      step (mkConf w (Batch p checked Between) E D) (mkConf w' (Batch p checked (Chosen h x (E h))) E D)
  | step_plan w w' c p checked h x e plan E D :
      planForkRewritesCtx c (mkBlockContext h x zero_hash 0) None w = (Ok plan, w') →
      step (mkConf w (Batch p checked (Chosen h x e)) E D) (mkConf w' (Batch p checked (Planned h x e plan)) E D)
  | step_put w w1 w' p checked h x e rw plan E D u :
      verifyForkScanBatchHeight p h x w = (Ok tt, w1) →
      rewriteValidationAtKeyCtx (rw_key rw) (rw_validation rw) w1 = (Ok u, w') →
      step (mkConf w (Batch p checked (Planned h x e (rw :: plan))) E D)
           (mkConf w' (Batch p checked (Planned h x e plan)) E D)
  | step_height w p checked h x e E D :
      step (mkConf w (Batch p checked (Planned h x e [])) E D)
           (mkConf w (Batch p (checked ++ [(h, x)]) Between) E ((h, e, x) :: D))
  | step_finish w w' c p checked st r E D : finishForkScanBatch c p checked w = (r, w') →
      step (mkConf w (Batch p checked st) E D) (mkConf w' Idle E D)
  | step_restart w w1 w' pc E D : restarted w w1 → loadForkScan w1 = (Ok tt, w') →
      step (mkConf w pc E D) (mkConf w' Idle E D).

(** The beginning: continuous mode, no cursor in memory or in the store. *)
Record initial (w : World) : Prop := {
  in_cont : ContinuousForkScan (config (w_chk w)) = true;
  in_state : forkState (scan_of w) = None;
  in_batch : forkBatch (scan_of w) = None;
  in_stored : stored w = None;
  in_latest : latest_ok w;
  in_recovery : recovery_ok w }.

Definition start (w : World) : conf := mkConf w Idle (λ _, O) [].
Definition reachable (c : conf) : Prop := ∃ w, initial w ∧ rtc step (start w) c.

(** ** The invariant *)
Definition stage_inv (w : World) (E : Z → nat) (b : forkScanBatch) (n : nat) (st : stage) : Prop :=
  match st with
  | Between => True
  | Chosen h x e | Planned h x e _ =>
      h = b_start b + Z.of_nat n ∧ (e ≤ E h)%nat ∧ (e = E h → canon_at w h = Some x) ∧
      (e = E h ∨ batch_stale b h = true)
  end.

Definition worker_inv (w : World) (E : Z → nat) (D : list (Z * nat * Hash)) (pc : worker) : Prop :=
  match pc with
  | Idle => forkBatch (scan_of w) = None
  | Batch p checked st =>
      forkBatch (scan_of w) = Some p ∧ is_Some (forkState (scan_of w)) ∧ ∃ b,
        batchHeap (scan_of w) !! p = Some b ∧ is_u64 (b_start b) ∧
        (∀ i h x, checked !! i = Some (h, x) → h = b_start b + Z.of_nat i ∧ ∃ e, (h, e, x) ∈ D ∧
           (e = E h ∨ batch_stale b h = true)) ∧
        stage_inv w E b (length checked) st
  end.

(** What the cursor promises about a height. *)
Definition scanned_now (w : World) (E : Z → nat) (D : list (Z * nat * Hash)) (h : Z) : Prop :=
  ∃ x, canon_at w h = Some x ∧ (h, E h, x) ∈ D.

Record inv (w : World) (pc : worker) (E : Z → nat) (D : list (Z * nat * Hash)) : Prop := {
  i_cont : ContinuousForkScan (config (w_chk w)) = true;
  i_latest : latest_ok w;
  i_recovery : recovery_ok w;
  i_wf : cursor_wf w;
  i_stored : stored w = json_print ∘ state_json <$> forkState (scan_of w);
  i_valid : ∀ s, forkState (scan_of w) = Some s → validate s = None;
  i_done : ∀ h e x, (h, e, x) ∈ D → 0 ≤ h ∧ (e ≤ E h)%nat ∧ (e = E h → canon_at w h = Some x);
  i_cover : ∀ s h, forkState (scan_of w) = Some s → A_Height (Baseline s) < h < NextHeight s →
    scanned_now w E D h;
  i_worker : worker_inv w E D pc }.

(** ** What the invariant needs of a change

    [evolves]: reorgs are counted, canonical blocks stay unless a reorg is counted, and
    the active batch is fenced wherever one is. *)
Record evolves (w w' : World) (E E' : Z → nat) : Prop := {
  ev_epoch h : (E h ≤ E' h)%nat;
  ev_canon h x : 0 ≤ h → E' h = E h → canon_at w h = Some x → canon_at w' h = Some x;
  ev_batch : forkBatch (scan_of w') = forkBatch (scan_of w);
  ev_heap : heap_le (batchHeap (scan_of w)) (batchHeap (scan_of w'));
  ev_fence p b h : 0 ≤ h → forkBatch (scan_of w) = Some p → batchHeap (scan_of w) !! p = Some b → E' h ≠ E h →
    ∃ b', batchHeap (scan_of w') !! p = Some b' ∧ batch_stale b' h = true }.

Lemma evolves_stale w w' E E' p b b' h e : evolves w w' E E' → 0 ≤ h → forkBatch (scan_of w) = Some p →
  batchHeap (scan_of w) !! p = Some b → batchHeap (scan_of w') !! p = Some b' → batch_le b b' →
  e = E h ∨ batch_stale b h = true → e = E' h ∨ batch_stale b' h = true.
Proof.
  intros Hev Hh Hp Hb Hb' (_ & _ & _ & Hst) [->|Hs]; [|right; by apply Hst].
  destruct (decide (E' h = E h)) as [Heq|Hne]; [by left|right].
  destruct (ev_fence _ _ _ _ Hev p b h Hh Hp Hb Hne) as (b2 & Hb2 & Hs2). by simplify_eq.
Qed.

Lemma evolves_done w w' E E' h e x : evolves w w' E E' → 0 ≤ h →
  (e ≤ E h)%nat ∧ (e = E h → canon_at w h = Some x) → (e ≤ E' h)%nat ∧ (e = E' h → canon_at w' h = Some x).
Proof.
  intros Hev Hh [Hle Hc]. pose proof (ev_epoch _ _ _ _ Hev h). split; [lia|]. intros He.
  apply (ev_canon _ _ _ _ Hev); [done|lia|]. apply Hc. lia.
Qed.

Lemma worker_evolves w w' E E' D pc : evolves w w' E E' →
  (is_Some (forkState (scan_of w)) → is_Some (forkState (scan_of w'))) →
  worker_inv w E D pc → worker_inv w' E' D pc.
Proof.
  intros Hev Hst. destruct pc as [|p checked st]; [simpl; by rewrite (ev_batch _ _ _ _ Hev)|]. intros (Hp & Hs & b & Hb & Hu & Hck & Hstage).
  destruct (ev_heap _ _ _ _ Hev p b Hb) as (b' & Hb' & Hle). pose proof Hle as (Hstart & _).
  split_and!; [by rewrite (ev_batch _ _ _ _ Hev)|by apply Hst|]. exists b'. rewrite Hstart.
  split_and!; [done|done| |].
  - intros i h x Hi. destruct (Hck i h x Hi) as (-> & e & He & Hor). split; [done|]. exists e. split; [done|].
    eapply evolves_stale; try done. unfold is_u64 in Hu. lia.
  - destruct st as [|h x e|h x e plan]; simpl in *; [done|..]; rewrite Hstart;
      destruct Hstage as (-> & Hle' & Hc & Hor);
      assert (0 ≤ b_start b + Z.of_nat (length checked)) as Hpos by (unfold is_u64 in Hu; lia);
      destruct (evolves_done w w' E E' _ e x Hev Hpos (conj Hle' Hc)); split_and!; try done; by eapply evolves_stale.
Qed.

(** The invariant through a change: the cursor may only keep heights that it had, and
    whose block was not reorganised away. *)
Lemma inv_evolves w w' E E' D pc : inv w pc E D → evolves w w' E E' →
  config (w_chk w') = config (w_chk w) → latest_ok w' →
  forkRecoveryAnchor (scan_of w') = forkRecoveryAnchor (scan_of w) → cursor_wf w' →
  stored w' = json_print ∘ state_json <$> forkState (scan_of w') →
  (∀ s, forkState (scan_of w') = Some s → validate s = None) →
  (is_Some (forkState (scan_of w)) → is_Some (forkState (scan_of w'))) →
  (∀ s' h, forkState (scan_of w') = Some s' → A_Height (Baseline s') < h < NextHeight s' → 0 ≤ h ∧ E' h = E h ∧
     ∃ s, forkState (scan_of w) = Some s ∧ A_Height (Baseline s) < h < NextHeight s) →
  inv w' pc E' D.
Proof.
  intros Hi Hev Hc Hl Hr Hwf Hst Hv Hs Hcov. split; try done.
  - rewrite Hc. apply (i_cont _ _ _ _ Hi).
  - intros a. rewrite Hr. apply (i_recovery _ _ _ _ Hi).
  - intros h e x Hd. destruct (i_done _ _ _ _ Hi h e x Hd) as [Hh He]. split; [done|]. by eapply evolves_done.
  - intros s' h Hs' Hh. destruct (Hcov s' h Hs' Hh) as (Hh0 & He & s & Hss & Hr').
    destruct (i_cover _ _ _ _ Hi s h Hss Hr') as (x & Hx & Hin). exists x. rewrite He.
    split; [|done]. by apply (ev_canon _ _ _ _ Hev).
  - eapply worker_evolves; [done..|]. apply (i_worker _ _ _ _ Hi).
Qed.

(** A change that leaves the index alone. *)
Lemma inv_locked w w' E E' D pc : inv w pc E D → (∀ h, E' h = E h) →
  (∀ h, idx (cdb_store (w_db w')) h = idx (cdb_store (w_db w)) h) →
  config (w_chk w') = config (w_chk w) → latest_ok w' →
  forkRecoveryAnchor (scan_of w') = forkRecoveryAnchor (scan_of w) → (cursor_wf w → cursor_wf w') →
  forkBatch (scan_of w') = forkBatch (scan_of w) → heap_le (batchHeap (scan_of w)) (batchHeap (scan_of w')) →
  cursor_change w w' → inv w' pc E' D.
Proof.
  intros Hi HE Hidx Hc Hl Hr Hwf Hb Hh Hcur. assert (∀ h, canon_at w' h = canon_at w h) as Hcan.
  { intros h. unfold canon_at, canon. by rewrite Hidx. }
  assert (evolves w w' E E') as Hev.
  { split; try done; [intros h; by rewrite HE|intros h x _; by rewrite Hcan|]. intros p b h _ _ _ []. apply HE. }
  eapply inv_evolves; try done; [by apply Hwf, (i_wf _ _ _ _ Hi)|..];
    destruct Hcur as [[Hs Hst]|(s' & Hs & Hst & Hv & Hor)]; rewrite Hs.
  - rewrite Hst. apply (i_stored _ _ _ _ Hi).
  - done.
  - apply (i_valid _ _ _ _ Hi).
  - by intros s [= <-].
  - done.
  - by eexists.
  - intros s h Hss Hr'. destruct (i_wf _ _ _ _ Hi s Hss) as (_ & [Hb0 _] & _). split; [lia|]. split; [done|]. by exists s.
  - intros s h [= <-] Hr'. destruct (Hwf (i_wf _ _ _ _ Hi) s' Hs) as (_ & [Hb0 _] & _).
    split; [lia|]. split; [done|]. destruct Hor as [Hn|(s & Hss & Hbb & Hn)]; [lia|].
    exists s. split; [done|]. rewrite <- Hbb. lia.
Qed.

(** ** The index write *)

(** A reorg by a successful write is seen by the cursor. *)
Lemma reorg_covered st l c v s first tail top ch n st' h x :
  write_effect st l c v (Some s) first tail top ch (Some n) st' → head l = Some first → last l = Some tail →
  lowest_first l → 0 ≤ h → canon st h = Some x → canon st' h ≠ Some x →
  ch = true ∧ NextHeight n ≤ h ∧ BlockNumber first ≤ h.
Proof.
  intros Heff Hf Ht Hlow Hh Hx Hne.
  destruct (we_some _ _ _ _ _ _ _ _ _ _ _ Heff s eq_refl) as (n' & k & [= <-] & _ & -> & _ & _ & _ & _ & _ & Hrun & Hrep).
  assert (BlockNumber first ≤ BlockNumber tail) as Hft by (by eapply Hlow, last_Some_elem_of).
  pose proof (we_idx _ _ _ _ _ _ _ _ _ _ _ Heff h Hh) as Hi.
  destruct (Z.ltb_spec (BlockNumber tail) h), (Z.leb_spec h top); simpl in Hi.
  1: { destruct (Hrun h ltac:(lia)). destruct ch; simpl in *; split_and!; try done; lia. }
  all: destruct (last_at h l) as [y|] eqn:Ey; [|destruct Hne; apply canon_idx; rewrite Hi; by apply canon_idx].
  all: apply last_at_elem in Ey as (b & Hb & <- & <-);
    assert (x ≠ BlockHash b) as Hxb by (intros ->; destruct Hne; by apply canon_idx);
    destruct (Hrep b x Hb Hx Hxb) as [-> Hk]; simpl; split_and!; [done|done|by eapply Hlow].
Qed.

Lemma epoch_after_same E w w' h : canon_at w' h = canon_at w h → epoch_after E w w' h = E h.
Proof. unfold epoch_after, reorged. intros ->. destruct (canon_at w h); [|done]. by rewrite bool_decide_true. Qed.

Lemma epoch_after_canon E w w' h x : epoch_after E w w' h = E h → canon_at w h = Some x → canon_at w' h = Some x.
Proof.
  unfold epoch_after, reorged. intros He Hx. rewrite Hx in He. case_bool_decide; [done|]. simpl in He. lia.
Qed.

Lemma epoch_after_reorg E w w' h : epoch_after E w w' h ≠ E h →
  ∃ x, canon_at w h = Some x ∧ canon_at w' h ≠ Some x.
Proof.
  unfold epoch_after, reorged. destruct (canon_at w h) as [x|]; [|done]. case_bool_decide; [done|]. by exists x.
Qed.

Lemma anchor_keeps {A} (m : M A) w a w' : keeps (λ w, forkRecoveryAnchor (scan_of w)) m → m w = (a, w') →
  forkRecoveryAnchor (scan_of w') = forkRecoveryAnchor (scan_of w).
Proof. intros Hm Hr. specialize (Hm w). by rewrite Hr in Hm. Qed.

Lemma anchor_scan f : (∀ r, forkRecoveryAnchor (f r) = forkRecoveryAnchor r) →
  keeps (λ w, forkRecoveryAnchor (scan_of w)) (modify_scan f).
Proof. intros Hf w. apply Hf. Qed.
Lemma anchor_rewind h g : keeps (λ w, forkRecoveryAnchor (scan_of w)) (rewindForkScan h g).
Proof. apply anchor_scan. intros r. by destruct (rewind_scan_spec h g r) as (_ & _ & Hr & _). Qed.
Lemma anchor_db {A} (f : ConsistencyDB → A * ConsistencyDB) : keeps (λ w, forkRecoveryAnchor (scan_of w)) (with_db f).
Proof. intros w. unfold with_db. by destruct (f (w_db w)). Qed.
Lemma anchor_call {A} (r : req A) : keeps (λ w, forkRecoveryAnchor (scan_of w)) (call r).
Proof. by intros w. Qed.
#[local] Hint Extern 1 (keeps _ (modify_scan _)) => apply anchor_scan; done : keeps.
#[local] Hint Resolve anchor_rewind anchor_db anchor_call : keeps.
Lemma anchor_save s : keeps (λ w, forkRecoveryAnchor (scan_of w)) (saveForkScan s).
Proof. unfold saveForkScan, get_config. keeps_tac. Qed.
#[local] Hint Resolve anchor_save : keeps.
Lemma anchor_initialize a p : keeps (λ w, forkRecoveryAnchor (scan_of w)) (initializeForkScan a p).
Proof. unfold initializeForkScan, get_scan. keeps_tac. Qed.
#[local] Hint Resolve anchor_initialize : keeps.
Lemma anchor_prepare n p : keeps (λ w, forkRecoveryAnchor (scan_of w)) (prepareForkScan n p).
Proof. unfold prepareForkScan, reconcileForkScanReplay, get_config, get_scan, get_pub, get_store, when. keeps_tac. Qed.
Lemma anchor_finish p : keeps (λ w, forkRecoveryAnchor (scan_of w)) (finishForkScan p).
Proof. unfold finishForkScan, get_config, get_scan, get_pub. keeps_tac. Qed.
Lemma anchor_write l pf : keeps (λ w, forkRecoveryAnchor (scan_of w)) (writeBlockInfoToDB l pf).
Proof. unfold writeBlockInfoToDB, get_config, get_scan, when. keeps_tac. Qed.

Lemma write_evolves w w' l c v s n first tail top ch E :
  write_effect (cdb_store (w_db w)) l c v (Some s) first tail top ch (Some n) (cdb_store (w_db w')) →
  head l = Some first → last l = Some tail → lowest_first l → state_wf s → scan_follows w w' first s (Some n) →
  evolves w w' E (epoch_after E w w').
Proof.
  intros Heff Hf Ht Hlow Hwf (n' & [= <-] & _ & Hb & Hheap & Hfence). split.
  - intros h. unfold epoch_after. destruct (reorged w w' h); lia.
  - intros h x _. apply epoch_after_canon.
  - done.
  - done.
  - intros p b h Hh Hp Hbb Hne. destruct (epoch_after_reorg _ _ _ _ Hne) as (x & Hx & Hx').
    destruct (reorg_covered _ _ _ _ _ _ _ _ _ _ _ _ _ Heff Hf Ht Hlow Hh Hx Hx') as (-> & _ & Hle).
    destruct (Hfence) with (p := p) (b := b) as (b' & Hb' & Hst); try done; [|exists b'; split; [done|by apply Hst]].
    destruct (we_some _ _ _ _ _ _ _ _ _ _ _ Heff s eq_refl) as (n' & k & [= <-] & _ & -> & _ & _ & Hmax & _).
    simpl. destruct Hwf as (_ & _ & _ & Hg & _). rewrite u64_succ by (by try apply Hmax). lia.
Qed.

Lemma write_state_wf st l c v s first tail top ch n st' : write_effect st l c v (Some s) first tail top ch (Some n) st' →
  is_u64 (BlockNumber tail) → state_wf s → state_wf n.
Proof.
  intros Heff Ht (Hf & Hb & Hn & Hg & Hp & Hpos & Hpend).
  destruct (we_some _ _ _ _ _ _ _ _ _ _ _ Heff s eq_refl) as (n' & k & [= <-] & _ & -> & Hk & _).
  pose proof (u64_range (Generation s + 1)) as Hu. unfold state_wf, anchor_wf, is_u64 in *. simpl.
  split_and!; try done; try lia; [destruct ch; lia..|]. by intros a [= <-].
Qed.

Lemma inv_write w w' l pf ok pc E D : inv w pc E D → blocks_wf l → lowest_first l →
  writeBlockInfoToDB l pf w = (ok, w') → inv w' pc (epoch_after E w w') D.
Proof.
  intros Hi Hwf Hlow Hw. pose proof (anchor_keeps _ _ _ _ (anchor_write l pf) Hw) as Hrec.
  destruct (wp_run _ _ _ _ _ (write_db_spec l pf w Hwf) Hw) as ([_ _ Hc Hp _] & Hok).
  assert (latest_ok w') as Hl by (unfold latest_ok; rewrite Hp; apply (i_latest _ _ _ _ Hi)).
  destruct ok.
  2: { destruct Hok as [Hs Hv]. assert (∀ h, idx (cdb_store (w_db w')) h = idx (cdb_store (w_db w)) h) as Hidx.
       { intros h. unfold idx. by rewrite Hv. }
       eapply inv_locked; try done; rewrite ?Hs; try done.
       - intros h. apply epoch_after_same. unfold canon_at, canon. by rewrite Hidx.
       - unfold cursor_wf. by rewrite Hs.
       - apply heap_le_refl.
       - left. unfold stored. by rewrite Hs, Hv, Hc. }
  destruct Hok as (c & v & first & tail & top & ch & r & [Hf Ht Heff Hsc]).
  unfold cursor_for_write in *. rewrite (i_cont _ _ _ _ Hi) in Heff, Hsc.
  destruct (forkState (scan_of w)) as [s|] eqn:Es.
  - destruct Hsc as [Hcv Hsf]. injection Hcv as -> ->. pose proof Hsf as (n & -> & Hn & _).
    pose proof (i_wf _ _ _ _ Hi s Es) as Hswf.
    assert (is_u64 (BlockNumber tail)) as Htail.
    { apply last_Some_elem_of in Ht. by apply (proj1 (Forall_forall _ _) Hwf) in Ht. }
    pose proof (we_some _ _ _ _ _ _ _ _ _ _ _ Heff s eq_refl) as (n' & k & [= <-] & Hval & Hneq & Hk & _ & _ & Hst & _).
    eapply inv_evolves; try done.
    + by eapply write_evolves.
    + intros s'. rewrite Hn. intros [= <-]. by eapply write_state_wf.
    + rewrite Hn. unfold stored. by rewrite Hc, Hst.
    + intros s'. rewrite Hn. by intros [= <-].
    + intros s' h. rewrite Hn. intros [= <-] Hr. destruct Hswf as (_ & [Hb0 _] & _).
      assert (Baseline n = Baseline s ∧ NextHeight n ≤ NextHeight s) as [Hbb Hnn] by (subst n; simpl; split; [done|lia]).
      rewrite Hbb in Hr. assert (0 ≤ h) as Hh by lia. split; [done|]. split; [|exists s; split; [done|lia]].
      destruct (decide (epoch_after E w w' h = E h)) as [He|Hne]; [done|].
      destruct (epoch_after_reorg _ _ _ _ Hne) as (x & Hx & Hx').
      destruct (reorg_covered _ _ _ _ _ _ _ _ _ _ _ _ _ Heff Hf Ht Hlow Hh Hx Hx') as (_ & Hle & _). lia.
  - destruct Hsc as [Hs Hst]. eapply inv_evolves; try done; rewrite ?Hs; try done.
    + split; rewrite ?Hs; [|intros h x _; apply epoch_after_canon|done|apply heap_le_refl|].
      * intros h. unfold epoch_after. destruct (reorged w w' h); lia.
      * intros p b h _ Hpb. pose proof (i_worker _ _ _ _ Hi) as Hwk. destruct pc as [|q ck sg]; [by rewrite Hwk in Hpb|].
        destruct Hwk as (_ & [? Hsome] & _). by rewrite Es in Hsome.
    + intros s'. rewrite Hs, Es. done.
    + rewrite Hst, Es, (i_stored _ _ _ _ Hi), Es. done.
    + intros s'. by rewrite Es.
    + by rewrite Es.
Qed.

(** ** The other steps of the processing goroutine *)
Lemma frame_latest w w' : frame w w' → latest_ok w → latest_ok w'.
Proof. intros [_ _ Hp _ _]. unfold latest_ok. by rewrite Hp. Qed.

Lemma inv_of_locked w w' pc E D : inv w pc E D → locked w w' →
  forkRecoveryAnchor (scan_of w') = forkRecoveryAnchor (scan_of w) → inv w' pc (epoch_after E w w') D.
Proof.
  intros Hi [Hf Hh Hhe Hb Hc Hw] Hr. eapply inv_locked; try done.
  - intros h. apply epoch_after_same. unfold canon_at, canon. by rewrite (f_idx _ _ Hf).
  - apply (f_idx _ _ Hf).
  - apply (f_config _ _ Hf).
  - eapply frame_latest; [done|]. apply (i_latest _ _ _ _ Hi).
Qed.

Lemma inv_main w w' pc E D : inv w pc E D → main w w' → inv w' pc (epoch_after E w w') D.
Proof.
  intros Hi [notice position r Hwf Hr|l pf ok Hwf Hlow Hw|position r Hpos Hr|[Hc Hs Hd Hl]].
  - apply inv_of_locked; [done| |by eapply anchor_keeps, Hr; apply anchor_prepare].
    apply (wp_run _ _ _ _ _ (prepare_spec notice position w (i_wf _ _ _ _ Hi) (i_recovery _ _ _ _ Hi) Hwf) Hr).
  - by eapply inv_write.
  - apply inv_of_locked; [done| |by eapply anchor_keeps, Hr; apply anchor_finish].
    apply (wp_run _ _ _ _ _ (finish_spec position w (i_wf _ _ _ _ Hi) (i_latest _ _ _ _ Hi) Hpos) Hr).
  - eapply inv_locked; try done; rewrite ?Hs, ?Hd; try done.
    + intros h. apply epoch_after_same. unfold canon_at. by rewrite Hd.
    + apply Hl, (i_latest _ _ _ _ Hi).
    + unfold cursor_wf. by rewrite Hs.
    + apply heap_le_refl.
    + left. unfold stored. by rewrite Hs, Hd, Hc.
Qed.

(** ** The steps of the worker *)

(** The checker and the database as they are. *)
Lemma inv_same w w' pc E D : inv w pc E D → w_chk w' = w_chk w → w_db w' = w_db w → inv w' pc E D.
Proof.
  intros [Hi1 Hi2 Hi3 Hi4 Hi5 Hi6 Hi7 Hi8 Hi9] Hc Hd. split.
  1-6: unfold latest_ok, recovery_ok, cursor_wf, stored in *; by rewrite ?Hc, ?Hd.
  - unfold canon_at in *. by rewrite Hd.
  - unfold scanned_now, canon_at in *. by rewrite Hc, Hd.
  - unfold worker_inv, stage_inv, canon_at in *. by rewrite Hc, Hd.
Qed.

Lemma inv_quiet {A} (m : M A) w a w' pc E D : keeps surface m → m w = (a, w') → inv w pc E D → inv w' pc E D.
Proof.
  intros Hm Hr Hi. destruct (wp_run _ _ _ _ _ (quiet_unpublished m w Hm) Hr) as [[_ Hc Hd _] _].
  by eapply inv_same.
Qed.

Lemma quiet_ctx_put key v : keeps surface (rewriteValidationAtKeyCtx key v).
Proof. unfold rewriteValidationAtKeyCtx. by apply quiet_call. Qed.

Lemma inv_observe w r w' pc E D : inv w pc E D → observeForkScan w = (r, w') → inv w' pc E D.
Proof.
  intros Hi. unfold observeForkScan, bind, get_config, get_scan, asks, call, modify_scan, modify_chk, ret. simpl.
  destruct (forkState (scan_of w)) as [s|] eqn:Es; [destruct (negb _ || _)|]; intros [= _ <-]; [done| |done].
  eapply inv_locked; try done; [apply (i_latest _ _ _ _ Hi)|apply heap_le_refl|by left].
Qed.

Lemma inv_begin w w' upper generation p E D : inv w Idle E D →
  beginForkScanBatch upper generation w = (Ok p, w') → inv w' (Batch p [] Between) E D.
Proof.
  intros Hi. pose proof (i_wf _ _ _ _ Hi) as Hw. unfold cursor_wf in Hw.
  unfold beginForkScanBatch, bind, get_scan, asks, modify_scan, modify_chk, ret.
  destruct (forkState (scan_of w)) as [s|] eqn:Es; [|done]. destruct (negb _ || _); [done|].
  case_bool_decide; [done|]. simpl. destruct (if _ =? _ then _ else _) as [upper'|e]; [|done].
  intros [= <- <-]. destruct (Hw s eq_refl) as (_ & _ & Hn & _).
  assert (inv w Idle E D) as Hi' by done. destruct Hi as [Hi1 Hi2 Hi3 Hi4 Hi5 Hi6 Hi7 Hi8 _]. split; try done.
  simpl. split_and!; [done|by rewrite Es|]. eexists. rewrite lookup_app_r, Nat.sub_diag by done.
  split_and!; [done|done| |done]. intros i h x Hx. by rewrite lookup_nil in Hx.
Qed.

Lemma inv_read w w' p b checked h x E D : inv w (Batch p checked Between) E D →
  batchHeap (scan_of w) !! p = Some b → h = b_start b + Z.of_nat (length checked) →
  readScanCanonical h w = (Ok x, w') → inv w' (Batch p checked (Chosen h x (E h))) E D.
Proof.
  intros Hi Hb Hh Hr. destruct (wp_run _ _ _ _ _ (read_canonical_spec h w) Hr) as [-> Hx].
  destruct Hi as [Hi1 Hi2 Hi3 Hi4 Hi5 Hi6 Hi7 Hi8 (Hp & Hs & b' & Hb' & Hu & Hck & _)]. split; try done.
  simplify_eq. split_and!; [done|done|]. exists b'. split_and!; [done|done|done|]. simpl.
  split_and!; [done|lia|intros _; by apply Hx|by left].
Qed.

Lemma inv_stage w p checked st st' E D : inv w (Batch p checked st) E D →
  (∀ b n, stage_inv w E b n st → stage_inv w E b n st') → inv w (Batch p checked st') E D.
Proof.
  intros [Hi1 Hi2 Hi3 Hi4 Hi5 Hi6 Hi7 Hi8 (Hp & Hs & b & Hb & Hu & Hck & Hst)] Hm. split; try done.
  split_and!; [done|done|]. exists b. split_and!; try done. by apply Hm.
Qed.

Lemma inv_height w p checked h x e E D : inv w (Batch p checked (Planned h x e [])) E D →
  inv w (Batch p (checked ++ [(h, x)]) Between) E ((h, e, x) :: D).
Proof.
  intros [Hi1 Hi2 Hi3 Hi4 Hi5 Hi6 Hi7 Hi8 (Hp & Hs & b & Hb & Hu & Hck & Hst)].
  destruct Hst as (-> & Hle & Hc & Hor). split; try done.
  - intros h' e' x' [[= -> -> ->]|Hin]%elem_of_cons; [|by apply Hi7].
    split_and!; [unfold is_u64 in Hu; lia|done|done].
  - intros s h' Hs' Hr. destruct (Hi8 s h' Hs' Hr) as (y & Hy & Hin). exists y. split; [done|by right].
  - split_and!; [done|done|]. exists b. split_and!; [done|done| |done].
    intros i h' x' [Hi|[Hi [= <- <-]]]%lookup_snoc_Some.
    + destruct Hi as [_ Hi]. destruct (Hck i h' x' Hi) as (-> & e' & Hin & Hor'). split; [done|].
      exists e'. split; [by right|done].
    + subst i. split; [done|]. exists e. split; [by left|done].
Qed.

(** The heights of a verified prefix are scanned, now. *)
Lemma verified_scanned w p b checked n E D i h x :
  (∀ i h x, checked !! i = Some (h, x) → h = b_start b + Z.of_nat i ∧ ∃ e, (h, e, x) ∈ D ∧
     (e = E h ∨ batch_stale b h = true)) →
  batchHeap (scan_of w) !! p = Some b → Forall (verified w p) (take n checked) →
  checked !! i = Some (h, x) → (i < n)%nat → scanned_now w E D h.
Proof.
  intros Hck Hb Hv Hi Hn. destruct (Hck i h x Hi) as (-> & e & Hin & Hor).
  rewrite Forall_lookup in Hv. destruct (Hv i (b_start b + Z.of_nat i, x)) as (s & b' & Hs & Hb' & _ & _ & Hst & _ & Hc).
  { by rewrite lookup_take_lt. }
  simplify_eq. simpl in *. destruct Hor as [->|Hst']; [|congruence]. by exists x.
Qed.

Lemma anchor_finish_batch c p checked : keeps (λ w, forkRecoveryAnchor (scan_of w)) (finishForkScanBatch c p checked).
Proof.
  unfold finishForkScanBatch, get_batch, get_scan.
  assert (∀ start, keeps (λ w, forkRecoveryAnchor (scan_of w)) (verify_checked p checked start)) as Hv.
  { intros start w. by destruct (verify_checked_spec p checked start w) as [-> _]. }
  assert (keeps (λ w, forkRecoveryAnchor (scan_of w)) (ctxErr c)) by (destruct c; [apply keeps_ret|apply anchor_call]).
  keeps_tac.
Qed.

Lemma inv_finish w w' c p checked st r E D : inv w (Batch p checked st) E D →
  finishForkScanBatch c p checked w = (r, w') → inv w' Idle E D.
Proof.
  intros Hi Hr. destruct (wp_run _ _ _ _ _ (finish_batch_spec c p checked w) Hr) as (Hf & Hb & Hh & Hcur).
  pose proof (i_worker _ _ _ _ Hi) as (Hp & Hsome & b & Hbb & Hu & Hck & _). rewrite Hbb in Hb.
  assert (∀ h, canon_at w' h = canon_at w h) as Hcan by (intros h; unfold canon_at, canon; by rewrite (f_idx _ _ Hf)).
  assert (forkRecoveryAnchor (scan_of w') = forkRecoveryAnchor (scan_of w)) as Hrec.
  { eapply anchor_keeps, Hr. apply anchor_finish_batch. }
  destruct Hi as [Hi1 Hi2 Hi3 Hi4 Hi5 Hi6 Hi7 Hi8 _].
  assert (∀ h, scanned_now w E D h → scanned_now w' E D h) as Hsc by (intros h; unfold scanned_now; by rewrite Hcan).
  assert (recovery_ok w' ∧ latest_ok w') as [Hro Hlo].
  { split; [unfold recovery_ok; by rewrite Hrec|by eapply frame_latest]. }
  destruct Hcur as [[Hs Hst]|(k & s & b' & h & x & Hk & Hv & Hs & Hb' & Hlt & Hs' & Hst & Hval)].
  - split; try done.
    + by rewrite (f_config _ _ Hf).
    + unfold cursor_wf. by rewrite Hs.
    + by rewrite Hst, Hs.
    + by rewrite Hs.
    + intros h e x. rewrite Hcan. apply Hi7.
    + intros s h. rewrite Hs. intros Hss Hr'. by apply Hsc, (Hi8 s).
  - assert (b' = b) as -> by congruence. destruct (Hck k h x Hk) as [Hhk _].
    pose proof Hv as Hvk. rewrite Forall_lookup in Hvk.
    destruct (Hvk k (h, x)) as (s2 & b2 & Hs2 & Hb2 & _ & Hnext & _ & Hpub & _).
    { rewrite lookup_take_lt by lia. done. }
    assert (b2 = b) as -> by congruence. assert (s2 = s) as -> by congruence.
    simpl in Hpub. pose proof (Hi4 _ Hs) as Hwf.
    assert (0 ≤ h < MaxUint64) as Hhr.
    { destruct Hwf as (_ & _ & _ & _ & [_ Hp64] & _). unfold is_u64 in Hu. split; [lia|].
      destruct (decide (h = MaxUint64)) as [Hm|Hm]; [|lia]. exfalso. rewrite Hm in Hlt. change (u64 (MaxUint64 + 1)) with 0 in Hlt. lia. }
    assert (u64 (h + 1) = h + 1) as Hu1 by (apply u64_succ; unfold is_u64; lia). rewrite Hu1 in *.
    split; try done.
    + by rewrite (f_config _ _ Hf).
    + intros s'. rewrite Hs'. intros [= <-]. destruct Hwf as (Hw1 & Hw2 & Hw3 & Hw4 & Hw5 & Hw6 & Hw7).
      unfold state_wf, is_u64 in *. simpl. split_and!; try done; lia.
    + by rewrite Hst, Hs'.
    + intros s'. rewrite Hs'. by intros [= <-].
    + intros h' e' x'. rewrite Hcan. apply Hi7.
    + intros s' h'. rewrite Hs'. intros [= <-]. simpl. intros Hr'. apply Hsc.
      destruct (decide (h' < NextHeight s)); [apply (Hi8 s h'); [done|lia]|].
      destruct (lookup_lt_is_Some_2 checked (Z.to_nat (h' - NextHeight s))) as [[h2 x2] Hl].
      { apply lookup_lt_Some in Hk. lia. }
      destruct (Hck _ _ _ Hl) as [Hh2 _]. assert (h2 = h') as -> by lia.
      eapply verified_scanned; [exact Hck|done|exact Hv|exact Hl|lia].
Qed.

(** ** Restarts *)
Lemma load_stored st c v r o :
  kv_view st !! forkScanKey c v = json_print ∘ state_json <$> o →
  (∀ s, o = Some s → validate s = None ∧ state_wf s) → LoadForkScan st c v = Ok r → r = o.
Proof.
  intros Hv Ho Hl. destruct (kv_get st (forkScanKey c v)) as [d|e] eqn:Eg.
  - apply kv_get_ok in Eg as Hd. rewrite Hv in Hd. apply fmap_Some in Hd as (s & -> & ->).
    destruct (Ho s eq_refl) as [Hval Hwf]. rewrite (LoadForkScan_stored st c v s Hval Hwf Eg) in Hl. congruence.
  - unfold LoadForkScan in Hl. rewrite Eg in Hl. destruct (err_is e ErrNotFound) eqn:Ee; [|done].
    injection Hl as <-. apply (kv_get_missing _ _ _ Eg) in Ee. rewrite Hv in Ee. by apply fmap_None in Ee.
Qed.

Lemma load_spec w : ContinuousForkScan (config (w_chk w)) = true → latest_ok w →
  wp loadForkScan (λ r w', r = Ok tt →
    LoadForkScan (cdb_store (w_db w)) (ChainID (config (w_chk w))) (Version (config (w_chk w))) =
      Ok (forkState (scan_of w')) ∧
    w_db w' = w_db w ∧ config (w_chk w') = config (w_chk w) ∧ pub (w_chk w') = pub (w_chk w) ∧
    forkBatch (scan_of w') = forkBatch (scan_of w) ∧ recovery_ok w') w.
Proof.
  intros Hc Hl. unfold loadForkScan. apply wp_bind. unfold wp at 1. simpl. rewrite Hc. simpl.
  apply wp_bind. unfold wp at 1. simpl.
  destruct (LoadForkScan _ _ _) as [state|e] eqn:El; [|by apply wp_ret].
  do 2 (apply wp_bind; unfold wp at 1; simpl). apply wp_bind.
  set (w1 := mkWorld _ _ _ _). apply (wp_mono _ (λ r w', r = Ok tt → forkState (scan_of w') = state ∧
    w_db w' = w_db w ∧ config (w_chk w') = config (w_chk w) ∧ pub (w_chk w') = pub (w_chk w) ∧
    forkBatch (scan_of w') = forkBatch (scan_of w) ∧ recovery_ok w')).
  - destruct (latestOuter (pub (w_chk w))) as [n|] eqn:En; [|by apply wp_ret].
    destruct (negb _); [by apply wp_ret|]. destruct (ON_IsFork n); [by apply wp_bind, wp_ret|].
    apply wp_bind. unfold wp at 1. simpl. apply wp_ret. intros _. split_and!; try done.
    intros a [= <-]. by apply Hl.
  - intros [[]|e] w2 Hw2; [|by apply wp_ret]. destruct (Hw2 eq_refl) as (Hs & Hd & Hcc & Hp & Hb & Hr).
    apply wp_bind. unfold wp at 1. simpl. destruct state as [s|]; [|by apply wp_ret; intros _; rewrite Hs].
    destruct (_ && _); [|by apply wp_ret; intros _; rewrite Hs].
    destruct (GetCanonicalHashByNum _ _); [|by apply wp_ret].
    apply wp_bind. unfold wp at 1. simpl. apply wp_ret. intros _. simpl. by rewrite Hs.
Qed.

Lemma inv_restart w w1 w' pc E D : inv w pc E D → restarted w w1 → loadForkScan w1 = (Ok tt, w') →
  inv w' Idle E D.
Proof.
  intros [Hi1 Hi2 Hi3 Hi4 Hi5 Hi6 Hi7 Hi8 _] (Hc & Hs & Hl & Hv) Hr. rewrite <- Hc in Hi1.
  destruct (wp_run _ _ _ _ _ (load_spec w1 Hi1 Hl) Hr eq_refl) as (Hload & Hd & Hc' & Hp & Hb & Hro).
  assert (forkState (scan_of w') = forkState (scan_of w)) as Hst.
  { eapply load_stored, Hload; [by rewrite Hv, Hc; apply Hi5|]. intros s Hss. split; [by apply Hi6|by apply Hi4]. }
  assert (∀ h, canon_at w' h = canon_at w h) as Hcan.
  { intros h. unfold canon_at, canon, idx. by rewrite Hd, Hv. }
  split.
  - by rewrite Hc'.
  - unfold latest_ok. by rewrite Hp.
  - done.
  - unfold cursor_wf. by rewrite Hst.
  - unfold stored in *. by rewrite Hd, Hc', Hv, Hst, Hc.
  - by rewrite Hst.
  - intros h e x. rewrite Hcan. apply Hi7.
  - intros s h. rewrite Hst. unfold scanned_now. rewrite Hcan. apply Hi8.
  - simpl. by rewrite Hb, Hs.
Qed.

(** ** Every reachable configuration *)
Lemma inv_start w : initial w → inv w Idle (λ _, O) [].
Proof.
  intros [Hc Hs Hb Hst Hl Hr]. split; try done; unfold cursor_wf; rewrite ?Hs; try done.
  intros h e x Hin. by apply elem_of_nil in Hin.
Qed.

Definition inv_of (c : conf) : Prop := inv (c_world c) (c_pc c) (c_epoch c) (c_done c).

Lemma inv_step c c' : step c c' → inv_of c → inv_of c'.
Proof.
  unfold inv_of. intros Hstep Hi; destruct Hstep; simpl in *.
  - by eapply inv_main.
  - by eapply inv_observe.
  - by eapply inv_begin.
  - by eapply inv_read.
  - eapply inv_stage; [eapply inv_quiet; [apply quiet_plan|done|exact Hi]|done].
  - match goal with Hv : verifyForkScanBatchHeight _ _ _ _ = _ |- _ =>
      destruct (wp_run _ _ _ _ _ (verify_spec _ _ _ _) Hv) as [-> _] end.
    eapply inv_stage; [eapply inv_quiet; [apply quiet_ctx_put|done|exact Hi]|done].
  - by apply inv_height.
  - by eapply inv_finish.
  - by eapply inv_restart.
Qed.

Lemma inv_steps c c' : rtc step c c' → inv_of c → inv_of c'.
Proof. induction 1; [done|]. intros Hi. by eauto using inv_step. Qed.

Lemma inv_reachable c : reachable c → inv_of c.
Proof. intros (w & Hw & Hr). eapply inv_steps; [done|]. by apply inv_start. Qed.

(** (C1) No height is skipped.  Whatever the interleaving of the processing goroutine,
    the scan worker and restarts: every height above the baseline and below the scan
    cursor has a canonical block, and the worker has brought a scan of the height
    to its end for this very block, after the last reorg that touched the height;
    and the cursor in memory is the one in the store. *)
Theorem no_height_skipped c : reachable c →
  stored (c_world c) = json_print ∘ state_json <$> forkState (scan_of (c_world c)) ∧
  ∀ s h, forkState (scan_of (c_world c)) = Some s → A_Height (Baseline s) < h < NextHeight s →
    ∃ x, canon_at (c_world c) h = Some x ∧ (h, c_epoch c h, x) ∈ c_done c.
Proof.
  intros Hr%inv_reachable. split; [apply (i_stored _ _ _ _ Hr)|]. intros s h Hs Hh. by apply (i_cover _ _ _ _ Hr s).
Qed.
End system.
