(* ===== verification/ScanRefine.v ===== *)
(** * ScanRefine: the functions of the code are paths of the system

    A run of [scanContinuousBatch], with any steps of other goroutines where it does not hold
    the lock, is a run of the machine of ScanBatch.v and, when these are steps of the
    processing goroutine, a path of [ScanSystem.step]; a run of [processNotice] is a
    sequence of its [main] steps. *)
From S2P Require Import Prelude Types Config Json Store ScanState BlockIndex Checker Validation Publish.
From S2P Require Import Nodes Replicas Align ForkScan ScanBatch Process ScanSystem.

Section worker.
Context `{HashTextLaws} `{!JsonText} `{!JsonTextLaws} `{PebbleLaws} `{!Rlp} `{!RlpLaws} `{!BigText}.

Notation scan_of w := (scan (w_chk w)).

(** ** Steps of the processing goroutine, in a row *)
Lemma main_heap w w' pc E D : inv w pc E D → main w w' → heap_le (batchHeap (scan_of w)) (batchHeap (scan_of w')).
Proof.
  intros Hi [notice position r Hwf Hr|l pf ok Hwf Hlow Hw|position r Hpos Hr|[_ Hs _ _]].
  - apply (wp_run _ _ _ _ _ (prepare_spec notice position w (i_wf _ _ _ _ Hi) (i_recovery _ _ _ _ Hi) Hwf) Hr).
  - destruct (wp_run _ _ _ _ _ (write_db_spec l pf w Hwf) Hw) as (_ & Hok). destruct ok.
    + destruct Hok as (c & v & first & tail & top & ch & r & [_ _ _ Hsc]).
      destruct (cursor_for_write w); [|destruct Hsc as [-> _]; apply heap_le_refl].
      destruct Hsc as (_ & n & _ & _ & _ & Hh & _). done.
    + destruct Hok as [-> _]. apply heap_le_refl.
  - apply (wp_run _ _ _ _ _ (finish_spec position w (i_wf _ _ _ _ Hi) (i_latest _ _ _ _ Hi) Hpos) Hr).
  - rewrite Hs. apply heap_le_refl.
Qed.

(** The batch at [p] starts at [start]. *)
Definition begins (w : World) (p : nat) (start : Z) : Prop :=
  ∃ b, batchHeap (scan_of w) !! p = Some b ∧ b_start b = start.

Lemma begins_le w w' p start : heap_le (batchHeap (scan_of w)) (batchHeap (scan_of w')) → begins w p start → begins w' p start.
Proof. intros Hh (b & Hb & <-). destruct (Hh p b Hb) as (b' & Hb' & Hs & _). by exists b'. Qed.

(** [goes]: a path of the system that keeps the starts of the batches. *)
Definition goes (c c' : conf) : Prop :=
  rtc step c c' ∧ ∀ p start, begins (c_world c) p start → begins (c_world c') p start.

Lemma goes_refl c : goes c c.
Proof. by split. Qed.
Lemma goes_trans c1 c2 c3 : goes c1 c2 → goes c2 c3 → goes c1 c3.
Proof. intros [Ha Hb] [Hc Hd]. split; [by etrans|eauto]. Qed.
Lemma goes_inv c c' : goes c c' → inv_of c → inv_of c'.
Proof. intros [Hs _]. by apply inv_steps. Qed.

Lemma goes_main w w' pc E D : inv w pc E D → rtc main w w' → ∃ E', goes (mkConf w pc E D) (mkConf w' pc E' D).
Proof.
  intros Hi Hr. revert E Hi. induction Hr as [w|w w1 w' Hm Hr IH]; intros E Hi; [by exists E; apply goes_refl|].
  destruct (IH _ (inv_main _ _ _ _ _ Hi Hm)) as [E' Hg]. exists E'. eapply goes_trans; [|exact Hg].
  split; [apply rtc_once; by constructor|]. intros p start. simpl. apply begins_le. by eapply main_heap.
Qed.

(** An operation that leaves the checker and the database as they are. *)
Lemma aside_same w w' : w_chk w' = w_chk w → w_db w' = w_db w → aside w w'.
Proof. intros Hc Hd. split; unfold latest_ok; by rewrite ?Hc, ?Hd. Qed.

Lemma aside_quiet {A} (m : M A) w : keeps surface m → wp m (λ _ w', aside w w') w.
Proof. intros Hm. eapply wp_mono; [by apply quiet_unpublished|]. intros a w' [[_ Hc Hd _] _]. by apply aside_same. Qed.

Lemma goes_aside w w' pc E D : inv w pc E D → aside w w' → ∃ E', goes (mkConf w pc E D) (mkConf w' pc E' D).
Proof. intros Hi Ha. eapply goes_main; [done|]. apply rtc_once. by apply main_aside. Qed.

(** One more step that leaves the starts alone. *)
Lemma goes_step c c' : step c c' → batchHeap (scan_of (c_world c')) = batchHeap (scan_of (c_world c)) → goes c c'.
Proof. intros Hs Hh. split; [by apply rtc_once|]. intros p start (b & Hb & Hst). exists b. by rewrite Hh. Qed.

(** ** The worker *)
Context (other : nat → M unit) (other_main : ∀ n w, rtc main w (other n w).2).

(** From [c0] to the worker at [pc]. *)
Definition path (c0 : conf) (w : World) (pc : worker) : Prop := ∃ E D, goes c0 (mkConf w pc E D).

Lemma path_unlocked c0 w pc : inv_of c0 → path c0 w pc → wp (unlocked other) (λ _ w', path c0 w' pc) w.
Proof.
  intros Hi (E & D & Hg). unfold unlocked. apply wp_bind. unfold wp at 1. simpl.
  set (w1 := mkWorld _ _ _ _). unfold wp. simpl.
  destruct (goes_aside w w1 pc E D (goes_inv _ _ Hg Hi)) as [E1 Hg1]; [by apply aside_same|].
  pose proof (goes_trans _ _ _ Hg Hg1) as Hg2.
  match goal with |- context [other ?n w1] => destruct (goes_main _ _ _ _ _ (goes_inv _ _ Hg2 Hi) (other_main n w1)) as [E2 Hg3] end.
  exists E2, D. by eapply goes_trans.
Qed.

Lemma path_quiet {A} c0 (m : M A) w pc : keeps surface m → inv_of c0 → path c0 w pc →
  wp m (λ _ w', path c0 w' pc) w.
Proof.
  intros Hm Hi (E & D & Hg). eapply wp_mono; [by apply aside_quiet|]. intros a w' Ha.
  destruct (goes_aside w w' pc E D (goes_inv _ _ Hg Hi) Ha) as [E1 Hg1]. exists E1, D. by eapply goes_trans.
Qed.

Lemma path_ctxErr c0 c w pc : inv_of c0 → path c0 w pc → wp (ctxErr c) (λ _ w', path c0 w' pc) w.
Proof. intros Hi Hp. apply path_quiet; [apply quiet_ctxErr|done|done]. Qed.

(** An operation, with its result named. *)
Lemma wp_known {A B} (m : M A) (f : A → M B) Q w :
  (∀ a w', m w = (a, w') → wp (f a) Q w') → wp (bind m f) Q w.
Proof. intros Hm. unfold wp, bind. destruct (m w) as [a w'] eqn:E. by apply Hm. Qed.

Lemma quiet_now : keeps surface (call RNow).
Proof. by apply quiet_call. Qed.

(** The check before each write: the context, then the batch. *)
Definition verify_step (c : context) (p : nat) (h : Z) (x : Hash) : M (res unit) :=
  let* cerr := ctxErr c in
  match cerr with Some e => ret (Fail e) | None => verifyForkScanBatchHeight p h x end.

Lemma path_puts c0 c p checked h x e plan : ∀ w, inv_of c0 → path c0 w (Batch p checked (Planned h x e plan)) →
  wp (scan_puts other plan (verify_step c p h x)) (λ r w', ∃ plan', path c0 w' (Batch p checked (Planned h x e plan')) ∧
    (r = Ok tt → plan' = [])) w.
Proof.
  induction plan as [|rw plan IH]; intros w Hi Hp; cbn [scan_puts].
  { apply wp_ret. by exists []. }
  apply wp_bind. eapply wp_mono; [exact (path_unlocked _ _ _ Hi Hp)|]. intros ? w1 Hp1.
  unfold verify_step at 1. apply wp_bind, wp_bind. eapply wp_mono; [exact (path_ctxErr _ c _ _ Hi Hp1)|]. intros ce w2 Hp2.
  destruct ce as [ce|]; [apply wp_ret, wp_ret; by exists (rw :: plan)|].
  unfold wp at 1. pose proof (verify_spec p h x w2) as Hv. unfold wp in Hv.
  destruct (verifyForkScanBatchHeight p h x w2) as [v w3] eqn:Ev. simpl in *. destruct Hv as [-> _].
  destruct v as [[]|ve]; [|apply wp_ret; by exists (rw :: plan)].
  apply wp_known. intros pr w4 Ep.
  pose proof (wp_run _ _ _ _ _ (path_quiet c0 _ w2 _ (quiet_ctx_put _ _) Hi Hp2) Ep) as Hq.
  pose proof (wp_run _ _ _ _ _ (quiet_unpublished _ w2 (quiet_ctx_put _ _)) Ep) as Hu. simpl in *.
  destruct pr as [u|pe]; [|apply wp_ret; by exists (rw :: plan)].
  apply IH; [done|]. destruct Hp2 as (E & D & Hg). exists E, D. eapply goes_trans; [exact Hg|].
  apply goes_step; [by eapply step_put|]. simpl. destruct Hu as [[_ -> _ _] _]. done.
Qed.

(** Some stage of the height at hand. *)
Definition within (c0 : conf) (p : nat) (checked : list (Z * Hash)) (w : World) : Prop :=
  ∃ st, path c0 w (Batch p checked st).

Lemma path_execute c0 c p checked h x e w : inv_of c0 → path c0 w (Batch p checked (Chosen h x e)) →
  wp (executeForkScanPlan other c h x (verify_step c p h x)) (λ r w', within c0 p checked w' ∧
    (r = Ok tt → path c0 w' (Batch p checked (Planned h x e [])))) w.
Proof.
  intros Hi Hp. unfold executeForkScanPlan. apply wp_bind.
  eapply wp_mono; [exact (path_unlocked _ _ _ Hi Hp)|]. intros ? w1 Hp1. apply wp_known. intros plan w2 Ep.
  pose proof (quiet_plan c (mkBlockContext h x zero_hash 0) None) as Hquiet.
  pose proof (wp_run _ _ _ _ _ (path_quiet c0 _ w1 _ Hquiet Hi Hp1) Ep) as Hq.
  pose proof (wp_run _ _ _ _ _ (quiet_unpublished _ w1 Hquiet) Ep) as Hu. cbv beta in Hq, Hu.
  destruct plan as [plan|pe]; [|by apply wp_ret; split; [eexists|]].
  assert (path c0 w2 (Batch p checked (Planned h x e plan))) as Hp2.
  { destruct Hp1 as (E & D & Hg). exists E, D. eapply goes_trans; [exact Hg|].
    apply goes_step; [by eapply step_plan|]. cbn [c_world]. destruct Hu as [[_ -> _ _] _]. done. }
  apply wp_bind. eapply wp_mono; [exact (path_puts _ _ _ _ _ _ _ plan w2 Hi Hp2)|].
  intros r w3 (plan' & Hp3 & Hr). destruct r as [[]|re]; [|by apply wp_ret; split; [eexists|]].
  rewrite (Hr eq_refl) in Hp3. apply wp_bind. eapply wp_mono; [exact (path_ctxErr _ c _ _ Hi Hp3)|].
  intros ce w4 Hp4. apply wp_ret. destruct ce; by split; [eexists|].
Qed.

Lemma path_height c0 c p checked start h w : inv_of c0 → path c0 w (Batch p checked Between) → begins w p start →
  h = start + Z.of_nat (length checked) →
  wp (scanContinuousBatchHeight other c p h) (λ r w', begins w' p start ∧ within c0 p checked w' ∧
    ∀ x, r = Ok x → path c0 w' (Batch p (checked ++ [(h, x)]) Between)) w.
Proof.
  intros Hi Hp Hb Hh.
  enough (∀ c1, path c1 w (Batch p checked Between) → inv_of c1 →
    wp (scanContinuousBatchHeight other c p h) (λ r w', within c1 p checked w' ∧
      ∀ x, r = Ok x → path c1 w' (Batch p (checked ++ [(h, x)]) Between)) w) as Hgen.
  { destruct Hp as (E & D & Hg). pose proof (goes_inv _ _ Hg Hi) as Hi1.
    eapply wp_mono; [apply (Hgen (mkConf w (Batch p checked Between) E D)); [|done]|].
    { exists E, D. apply goes_refl. }
    intros r w' [(st & E1 & D1 & Hg1) Hr]. split; [by apply Hg1|]. split.
    - exists st, E1, D1. by eapply goes_trans.
    - intros x Hx. destruct (Hr x Hx) as (E2 & D2 & Hg2). exists E2, D2. by eapply goes_trans. }
  clear c0 Hi Hp. intros c0 Hp Hi. unfold scanContinuousBatchHeight.
  assert (∃ E D, goes c0 (mkConf w (Batch p checked Between) E D)) as (E0 & D0 & Hg0) by done.
  set (c1 := mkConf w (Batch p checked Between) E0 D0) in *. pose proof (goes_inv _ _ Hg0 Hi) as Hi1.
  assert (path c1 w (Batch p checked Between)) as Hpc1 by (exists E0, D0; apply goes_refl).
  apply wp_bind. eapply wp_mono; [exact (path_unlocked _ _ _ Hi1 Hpc1)|]. intros ? w1 (E1 & D1 & Hg1).
  apply wp_known. intros hash w2 Er. destruct (wp_run _ _ _ _ _ (read_canonical_spec h w1) Er) as [-> _].
  pose proof (goes_trans _ _ _ Hg0 Hg1) as Hg01.
  destruct hash as [x|e]; [|by apply wp_ret; split; [exists Between, E1, D1|]].
  destruct (proj2 Hg1 p start Hb) as (b & Hbb & Hst). simpl in Hbb.
  assert (path c0 w1 (Batch p checked (Chosen h x (E1 h)))) as Hp2.
  { exists E1, D1. eapply goes_trans; [exact Hg01|]. apply goes_step; [|done].
    eapply step_read; [exact Hbb|by rewrite Hst|exact Er]. }
  apply wp_bind. fold (verify_step c p h x).
  eapply wp_mono; [exact (path_execute _ _ _ _ _ _ _ _ Hi Hp2)|]. intros r w3 [Hw Hr]. apply wp_ret. split; [done|].
  destruct r as [[]|re]; [|done]. intros y [= <-]. destruct (Hr eq_refl) as (E3 & D3 & Hg3).
  do 2 eexists. eapply goes_trans; [exact Hg3|]. apply goes_step; [apply step_height|done].
Qed.

(** A path that also remembers where the batch starts. *)
Definition batch_path (c0 : conf) (p : nat) (start : Z) (w : World) (pc : worker) : Prop :=
  path c0 w pc ∧ begins w p start.

Lemma batch_path_step c0 p start w w' pc pc' :
  inv_of c0 → batch_path c0 p start w pc →
  (∀ c1, inv_of c1 → path c1 w pc → path c1 w' pc') → batch_path c0 p start w' pc'.
Proof.
  intros Hi [(E & D & Hg) Hb] Hf.
  destruct (Hf (mkConf w pc E D)) as (E' & D' & Hg').
  { by eapply goes_inv. }
  { exists E, D. apply goes_refl. }
  split; [exists E', D'; by eapply goes_trans|]. by apply (proj2 Hg').
Qed.

Lemma path_loop c0 c p start deadline fuel : ∀ checked h w, inv_of c0 →
  batch_path c0 p start w (Batch p checked Between) → h = start + Z.of_nat (length checked) → is_u64 h →
  wp (batch_loop other fuel c p deadline h checked) (λ r w', within c0 p r.1 w') w.
Proof.
  induction fuel as [|fuel IH]; intros checked h w Hi Hp Hh Hu; cbn [batch_loop].
  { apply wp_ret. exists Between. apply Hp. }
  assert (within c0 p checked w) as Hwi by (exists Between; apply Hp).
  apply wp_bind. unfold wp at 1. simpl. destruct (batchHeap (scan_of w) !! p) as [b|]; [|by apply wp_ret].
  destruct (b_upper b <? h); [by apply wp_ret|].
  apply wp_known. intros ce w1 Ec.
  assert (batch_path c0 p start w1 (Batch p checked Between)) as Hp1.
  { eapply batch_path_step; [done|exact Hp|]. intros c1 Hi1 Hq. apply (wp_run _ _ _ _ _ (path_ctxErr _ c _ _ Hi1 Hq) Ec). }
  destruct ce as [e|]; [apply wp_ret; exists Between; apply Hp1|].
  apply wp_known. intros u w2 Eu.
  assert (batch_path c0 p start w2 (Batch p checked Between)) as Hp2.
  { eapply batch_path_step; [done|exact Hp1|]. intros c1 Hi1 Hq. apply (wp_run _ _ _ _ _ (path_unlocked _ _ _ Hi1 Hq) Eu). }
  apply wp_bind. unfold wp at 1. simpl.
  destruct (match batchHeap (scan_of w2) !! p with Some b => _ | None => _ end); [apply wp_ret; exists Between; apply Hp2|].
  apply wp_bind. apply (wp_mono _ (λ _ w', batch_path c0 p start w' (Batch p checked Between))).
  { case_bool_decide; [by apply wp_ret|]. apply wp_bind. unfold wp at 1. simpl. apply wp_ret.
    eapply batch_path_step; [done|exact Hp2|]. intros c1 Hi1 Hq.
    apply (path_quiet c1 (call RNow) w2 _ quiet_now Hi1 Hq). }
  intros ex w3 Hp3. destruct ex; [apply wp_ret; exists Between; apply Hp3|].
  destruct (Z.eqb_spec h MaxUint64) as [|Hm]; [apply wp_ret; exists Between; apply Hp3|].
  apply wp_bind. destruct Hp3 as [Hp3 Hb3].
  eapply wp_mono; [exact (path_height _ c _ _ _ _ _ Hi Hp3 Hb3 Hh)|]. intros r w4 (Hb4 & Hw4 & Hr).
  destruct r as [x|e]; [|by apply wp_ret]. rewrite u64_succ by done. apply IH; [done|split; [by apply Hr|done]| |].
  - rewrite length_app. simpl. lia.
  - unfold is_u64 in *. lia.
Qed.

Lemma begin_fails upper generation w e w' : beginForkScanBatch upper generation w = (Fail e, w') → w' = w.
Proof.
  unfold beginForkScanBatch, bind, get_scan, asks, modify_scan, modify_chk, ret.
  repeat case_match; naive_solver.
Qed.

Lemma scan_batch_path c upper generation w E D r w' :
  inv_of (mkConf w Idle E D) → scanContinuousBatch other c upper generation w = (r, w') →
  ∃ E' D', rtc step (mkConf w Idle E D) (mkConf w' Idle E' D').
Proof.
  intros Hi. set (c0 := mkConf w Idle E D) in *.
  revert r w'.
  enough (wp (scanContinuousBatch other c upper generation) (λ _ w', ∃ E' D', rtc step c0 (mkConf w' Idle E' D')) w) as Hw.
  { intros r w' Hr. apply (wp_run _ _ _ _ _ Hw Hr). }
  assert (path c0 w Idle) as Hp by (exists E, D; apply goes_refl).
  unfold scanContinuousBatch. apply wp_bind. eapply wp_mono; [exact (path_unlocked _ _ _ Hi Hp)|].
  intros ? w1 (E1 & D1 & Hg1). pose proof (goes_inv _ _ Hg1 Hi) as Hi1. apply wp_known. intros [p|e] w2 Eb.
  2: { apply begin_fails in Eb as ->. apply wp_ret. exists E1, D1. apply Hg1. }
  pose proof (inv_begin _ _ _ _ _ _ _ Hi1 Eb) as Hi2. set (c2 := mkConf w2 (Batch p [] Between) E1 D1).
  destruct (i_worker _ _ _ _ Hi2) as (_ & _ & b & Hb & Hu & _).
  assert (rtc step c0 c2) as Hr2 by (eapply rtc_r; [apply Hg1|by eapply step_begin]).
  assert (batch_path c2 p (b_start b) w2 (Batch p [] Between)) as Hp2.
  { split; [exists E1, D1; apply goes_refl|by exists b]. }
  apply wp_known. intros now w3 En.
  assert (batch_path c2 p (b_start b) w3 (Batch p [] Between)) as Hp3.
  { eapply batch_path_step; [done|exact Hp2|]. intros c1 Hi' Hq.
    apply (wp_run _ _ _ _ _ (path_quiet c1 _ w2 _ quiet_now Hi' Hq) En). }
  apply wp_known. intros ob w3' Eg. unfold get_batch, asks in Eg. injection Eg as <- <-.
  destruct (proj2 Hp3) as (b3 & Hb3 & Hst3). rewrite Hb3, Hst3. apply wp_bind.
  assert (b_start b = b_start b + Z.of_nat (length (@nil (Z * Hash)))) as Hz by (simpl; lia).
  eapply wp_mono; [exact (path_loop c2 c p (b_start b) _ _ [] (b_start b) w3 Hi2 Hp3 Hz Hu)|].
  intros [checked e] w4 (st & Hp4). apply wp_bind. eapply wp_mono; [exact (path_unlocked c2 _ _ Hi2 Hp4)|].
  intros ? w5 (E5 & D5 & [Hr5 _]). apply wp_known. intros [more ce] w6 Ef. apply wp_ret.
  exists E5, D5. etrans; [exact Hr2|]. eapply rtc_r; [exact Hr5|by eapply step_finish].
Qed.

(** (C2) The batch of the code is the batch machine of ScanBatch.v, whatever the other goroutines
    do where the lock is not held: it ends with a result that the machine ends with, so it
    writes only what it planned and verified right before, goes on only from heights whose
    whole plan was written, and stops early only for one of the reasons of the machine.
    When the other goroutines do steps of the processing goroutine, the batch is moreover
    a path of the scan system from one idle configuration to another. *)
Theorem scan_batch_refines c upper generation w r w' :
  scanContinuousBatch other c upper generation w = (r, w') →
  rtc (batch_step other c upper generation) (w, Ready) (w', Ended r.1 r.2) ∧
  ∀ E D, reachable (mkConf w Idle E D) → ∃ E' D', rtc step (mkConf w Idle E D) (mkConf w' Idle E' D').
Proof.
  intros Hr. split; [exact (wp_run _ _ _ _ _ (batch_run other c upper generation w) Hr)|].
  intros E D Hreach%inv_reachable. by eapply scan_batch_path.
Qed.
End worker.

(** ** The processing goroutine *)
Section process.
Context `{HashTextLaws} `{!JsonText} `{!JsonTextLaws} `{PebbleLaws} `{!Rlp} `{!RlpLaws} `{!BigText}.

Notation latest_of w := (latestOuter (pub (w_chk w))).

Lemma rtc_aside w w' : aside w w' → rtc main w w'.
Proof. intros Ha. by apply rtc_once, main_aside. Qed.

Lemma aside_align w : wp AlignOuterSingleton (λ _ w', aside w w') w.
Proof.
  eapply wp_mono; [apply aligned_eq|]. intros r w' [Hc _ Hl _ Hd _ Hs]. split; try done.
  unfold latest_ok. by rewrite Hl.
Qed.

Lemma aside_notify k t r w : wp (checkAndNotify k t r) (λ _ w', aside w w') w.
Proof.
  eapply wp_mono; [apply notify_spec|]. intros ok w' (_ & Hd & Hc & Hp & Hs & _). split; try done.
  unfold latest_ok. by rewrite Hp.
Qed.

(** A publication moves the latest notice only to one of the new blocks. *)
Lemma aside_publish dropBlocks newBlocks timings w : blocks_wf newBlocks →
  wp (publishNotice dropBlocks newBlocks timings) (λ _ w', aside w w') w.
Proof.
  intros Hwf. enough (wp (publishNotice dropBlocks newBlocks timings) (λ _ w', latest_ok w → latest_ok w') w) as Hl.
  { pose proof (publishNotice_frame dropBlocks newBlocks timings w) as Hf. unfold wp in *. destruct Hf as [[] _].
    by split. }
  assert (∀ l w, wp (WriteDropBlockNotice l) (λ _ w', latest_of w' = latest_of w) w) as Hdrop.
  { clear w. induction l as [|x l IH]; intros w; cbn [WriteDropBlockNotice]; [by apply wp_ret|].
    apply wp_bind. unfold wp at 1. simpl. apply wp_bind.
    eapply wp_mono; [apply publishOuter_spec, quiet_ret|]. intros ok w1 (_ & Hl & _).
    destruct ok; [|by apply wp_ret]. eapply wp_mono; [apply IH|]. intros ? w2 Hl2. congruence. }
  unfold publishNotice. apply wp_bind. eapply wp_mono; [apply Hdrop|]. intros ok w1 Hl1.
  assert (latest_ok w → latest_ok w1) as Hw1 by (unfold latest_ok; by rewrite Hl1).
  destruct ok; [|by apply wp_ret]. clear Hl1.
  enough (latest_ok w1 → wp (WriteNewBlockNotice newBlocks timings) (λ _ w', latest_ok w') w1) as Hn.
  { unfold wp in *. auto. }
  clear Hw1. revert w1. induction newBlocks as [|x l IH]; intros w1 Hl; cbn [WriteNewBlockNotice]; [by apply wp_ret|].
  apply Forall_cons in Hwf as [Hx Hwf]. apply wp_bind. unfold wp at 1. simpl. apply wp_bind.
  eapply wp_mono; [apply publishOuter_spec, quiet_latency|]. intros ok w2 (_ & Hl2 & _).
  destruct ok; [|apply wp_ret; unfold latest_ok; by rewrite Hl2].
  apply wp_bind. unfold wp at 1. simpl. apply IH; [done|]. intros n [= <-]. exact Hx.
Qed.

(** Whatever [processNotice] does to the index and the scanner, it does with the steps of the
    system. *)
Lemma process_path notice timings position w r w' :
  blocks_wf (NewBlocks notice) → lowest_first (NewBlocks notice) → position_ok position →
  processNotice notice timings position w = (r, w') → rtc main w w'.
Proof.
  intros Hwf Hlow Hpos. revert r w'.
  enough (wp (processNotice notice timings position) (λ _ w', rtc main w w') w) as Hw.
  { intros r w' Hr. apply (wp_run _ _ _ _ _ Hw Hr). }
  assert (∀ w1 w2, aside w1 w2 → rtc main w w1 → rtc main w w2) as Haside.
  { intros w1 w2 Ha Hr. eapply rtc_r; [exact Hr|by apply main_aside]. }
  assert (rtc main w w) as Hw0 by done.
  unfold processNotice. apply wp_bind. unfold wp at 1. simpl.
  destruct (last (NewBlocks notice)) as [tail|]; [|by apply wp_ret]. destruct (_ || _).
  - unfold align_and_finish. apply wp_known. intros ok w1 E1.
    assert (rtc main w w1) as Hw1 by (eapply rtc_r; [exact Hw0|by eapply main_prepare]).
    destruct ok; [|by apply wp_ret]. apply wp_bind. eapply wp_mono; [apply aside_align|]. intros o w2 Ha2.
    pose proof (Haside _ _ Ha2 Hw1) as Hw2. destruct o as [[]|]; [|by apply wp_ret..].
    apply wp_known. intros ok w3 E3. apply wp_ret. eapply rtc_r; [exact Hw2|by eapply main_finish].
  - destruct (msgCheck _ notice); [|by apply wp_ret]. apply wp_known. intros ok w1 E1.
    assert (rtc main w w1) as Hw1 by (eapply rtc_r; [exact Hw0|by eapply main_prepare]).
    destruct ok; [|by apply wp_ret]. apply wp_known. intros u w2 E2.
    assert (rtc main w w2) as Hw2.
    { eapply Haside; [|exact Hw1]. unfold beginNotice in E2. injection E2 as <- <-. split; try done.
      unfold latest_ok. simpl. by case_decide. }
    apply wp_bind. apply (wp_mono _ (λ _ w', rtc main w w')).
    + unfold publish_steps. apply wp_bind. unfold wp at 1. simpl. apply wp_bind.
      eapply wp_mono; [apply aside_quiet, quiet_prefetch|]. intros pf w3 Ha3. pose proof (Haside _ _ Ha3 Hw2) as Hw3.
      apply wp_bind. eapply wp_mono; [apply aside_notify|]. intros ok w4 Ha4. pose proof (Haside _ _ Ha4 Hw3) as Hw4.
      destruct ok; [|by apply wp_ret]. apply wp_bind. eapply wp_mono; [apply aside_quiet, quiet_drops|].
      intros ? w5 Ha5. pose proof (Haside _ _ Ha5 Hw4) as Hw5. apply wp_known. intros ok w6 E6.
      assert (rtc main w w6) as Hw6 by (eapply rtc_r; [exact Hw5|by eapply main_write]).
      destruct ok; [|by apply wp_ret]. apply wp_bind. eapply wp_mono; [apply aside_quiet, quiet_same_height|].
      intros e w7 Ha7. pose proof (Haside _ _ Ha7 Hw6) as Hw7. destruct e; [|by apply wp_ret].
      apply wp_bind. eapply wp_mono; [by apply aside_publish|]. intros ok w8 Ha8.
      pose proof (Haside _ _ Ha8 Hw7) as Hw8. destruct ok; [|by apply wp_ret].
      apply wp_bind. eapply wp_mono; [apply aside_align|]. intros o w9 Ha9. apply wp_ret. exact (Haside _ _ Ha9 Hw8).
    + intros [o pf] w3 Hw3. destruct o as [[]|]; [|by apply wp_ret..]. apply wp_known. intros ok w4 E4.
      assert (rtc main w w4) as Hw4 by (eapply rtc_r; [exact Hw3|by eapply main_finish]).
      destruct ok; [|by apply wp_ret]. apply wp_bind. eapply wp_mono; [apply aside_quiet, quiet_same_height|].
      intros e w5 Ha5. apply wp_ret. exact (Haside _ _ Ha5 Hw4).
Qed.
End process.

(** ** Witnesses: a new checker on a chain of three blocks *)
Module SystemDemo.
#[local] Existing Instances mem_pebble demo_rlp demo_hash_text demo_json_text.
Definition blk (n h p : Z) : BlockContext := mkBlockContext n (hashOf h) (hashOf p) 0.
Definition published_at (n : Z) : PubState :=
  mkPub (Some (block_notice ScanDemo.cfg false (blk n n (n - 1)))) None true None (mkNoticeID zero_hash 0 0) ∅.
(** The outer topic ends at block 1. *)
Definition w0 : World :=
  mkWorld (Sim.sim_env ScanDemo.sim) (mkChecker ScanDemo.cfg (published_at 1) Sim.rep0 Sim.scan0) Demo.db1 [].
Definition pos (n : Z) : option ForkScanPosition := Some (mkPosition "inner" 0 n).
(** The cursor is initialised, then blocks 2 and 3 are published. *)
Definition w1 : World := (finishForkScan (pos 1) w0).2.
Definition w2 : World :=
  mkWorld (w_env w1) (mkChecker ScanDemo.cfg (published_at 3) Sim.rep0 (scan (w_chk w1))) (w_db w1) (w_hist w1).
Definition w3 : World := (finishForkScan (pos 3) w2).2.
Definition w4 : World := (scanContinuousBatch ScanDemo.alone WithCancel 3 1 w3).2.
End SystemDemo.

Section system_witnesses.
#[local] Existing Instances mem_pebble demo_rlp demo_hash_text demo_json_text ReplicaDemo.demo_big_text.
Import SystemDemo.

Lemma demo_initial : initial w0.
Proof.
  split; [vm_compute; reflexivity|reflexivity|reflexivity|vm_compute; reflexivity| |by intros a Ha].
  intros n Hn. injection Hn as <-. vm_compute. split; discriminate.
Qed.

Lemma pos_ok n : 0 ≤ n ≤ MaxInt64 → position_ok (pos n).
Proof. intros Hn p Hp. injection Hp as <-. split_and!; simpl; unfold MaxInt64 in *; done || lia. Qed.

Lemma demo_main : rtc main w0 w3.
Proof.
  eapply rtc_l; [apply (main_finish w0 w1 (pos 1) (finishForkScan (pos 1) w0).1); [by apply pos_ok|apply surjective_pairing]|].
  eapply rtc_l; [apply (main_aside w1 w2)|].
  { split; [vm_compute; reflexivity|reflexivity|reflexivity|]. intros _ n Hn. injection Hn as <-.
    vm_compute. split; discriminate. }
  eapply rtc_l; [apply (main_finish w2 w3 (pos 3) (finishForkScan (pos 3) w2).1); [by apply pos_ok|apply surjective_pairing]|].
  apply rtc_refl.
Qed.

Lemma demo_reachable : ∃ E D, reachable (mkConf w3 Idle E D).
Proof.
  destruct (goes_main w0 w3 Idle (λ _, O) [] (inv_start w0 demo_initial) demo_main) as (E & Hg & _).
  exists E, []. exists w0. split; [apply demo_initial|exact Hg].
Qed.

Lemma alone_main n w : rtc main w (ScanDemo.alone n w).2.
Proof. apply rtc_refl. Qed.

Lemma no_height_skipped_witness :
  NextHeight <$> forkState (scan (w_chk w4)) = Some 4 ∧
  ∃ E D, reachable (mkConf w4 Idle E D) ∧ (3, E 3, hashOf 3) ∈ D.
Proof.
  assert (NextHeight <$> forkState (scan (w_chk w4)) = Some 4) as Hn by (vm_compute; reflexivity).
  split; [exact Hn|]. destruct demo_reachable as (E & D & w & Hw & Hr).
  destruct (scan_batch_path ScanDemo.alone alone_main WithCancel 3 1 w3 E D
    (scanContinuousBatch ScanDemo.alone WithCancel 3 1 w3).1 w4) as (E' & D' & Hr').
  { apply inv_reachable. exists w. split; [exact Hw|exact Hr]. }
  { apply surjective_pairing. }
  exists E', D'. assert (reachable (mkConf w4 Idle E' D')) as Hreach.
  { exists w. split; [exact Hw|]. etrans; [exact Hr|exact Hr']. }
  split; [exact Hreach|]. destruct (no_height_skipped _ Hreach) as [_ Hc].
  assert ((λ s, (A_Height (Baseline s), NextHeight s)) <$> forkState (scan (w_chk w4)) = Some (1, 4)) as Hs
    by (vm_compute; reflexivity).
  destruct (forkState (scan (w_chk w4))) as [s|] eqn:Es; [|discriminate Hs]. injection Hs as Hb Hs.
  destruct (Hc s 3 Es) as (x & Hx & Hin); [lia|].
  assert (canon_at w4 3 = Some (hashOf 3)) as H3 by (vm_compute; reflexivity).
  simpl in Hx. rewrite H3 in Hx. injection Hx as <-. exact Hin.
Defined.

(** Beside the worker, the processing goroutine takes up the reorg of [ProcessDemo]. *)
Definition processing : nat → M unit := λ _,
  let* _ := processNotice ProcessDemo.notice ∅ (Some ProcessDemo.pos) in ret tt.
Lemma processing_main n w : rtc main w (processing n w).2.
Proof.
  unfold processing, bind. destruct (processNotice _ ∅ _ w) as [r w'] eqn:Er. simpl.
  eapply process_path, Er; [apply notice_wf| |].
  - intros first b Hf Hb. injection Hf as <-. repeat (apply elem_of_cons in Hb as [->|Hb]; [vm_compute; discriminate|]).
    by apply elem_of_nil in Hb.
  - intros p Hp. injection Hp as <-. vm_compute. split_and!; done.
Qed.

Lemma scan_batch_refines_witness :
  let run := scanContinuousBatch processing WithCancel 3 1 w3 in
  rtc (batch_step processing WithCancel 3 1) (w3, Ready) (run.2, Ended run.1.1 run.1.2) ∧
  ∃ E D E' D', rtc step (mkConf w3 Idle E D) (mkConf run.2 Idle E' D').
Proof.
  intros run. destruct (scan_batch_refines processing processing_main WithCancel 3 1 w3 run.1 run.2 (surjective_pairing run))
    as [Hm Hp]. split; [exact Hm|]. destruct demo_reachable as (E & D & Hr). exists E, D. apply Hp. exact Hr.
Defined.
End system_witnesses.
