(* ===== verification/Lock.v ===== *)
(** * Lock: the leader's lock in etcd (check/etcd_lock.go)

    The operations of one lock, the contract of the etcd server they rely on, and
    mutual exclusion between the members of a chain. *)
From S2P Require Import Prelude Types Config Json Store ScanState BlockIndex Checker Validation.

(** ** Operations *)
Definition set_lease (lease : Z) (l : EtcdLock) : EtcdLock :=
  mkEtcdLock (l_leaderKey l) (l_versionKey l) (l_version l) (l_ttl l) lease (l_cancel l).
Definition set_cancel (b : bool) (l : EtcdLock) : EtcdLock :=
  mkEtcdLock (l_leaderKey l) (l_versionKey l) (l_version l) (l_ttl l) (l_lease l) b.

Definition NewLock (leaderKey versionKey version : string) (ttl : Z) : EtcdLock :=
  mkEtcdLock leaderKey versionKey version ttl 0 false.

(** What [Acquire] does next, given the answer to its transaction. *)
Inductive acquire_next := Won | GiveUp | Retry | WaitFor (rev : Z).
Definition acquire_reply (l : EtcdLock) (r : res lock_reply) : acquire_next :=
  match r with
  | Fail _ => GiveUp
  | Ok LockTaken => Won
  | Ok (LockRefused leader version) =>
      match version with
      | None => GiveUp
      | Some currentVersion =>
          if bool_decide (currentVersion = l_version l) then
            match leader with None => Retry | Some rev => WaitFor rev end
          else GiveUp
      end
  end.

(** Failures of [KeepAliveOnce] in a row that the watchdog puts up with, plus one. *)
Definition maxFail : Z := 3.

(** How the watchdog ended; [TickerPanic]: [time.NewTicker] panics on a period that is not
    positive. *)
Inductive watch_end := WatchLost | WatchStopped | TickerPanic.
#[export] Instance watch_end_eq_dec : EqDecision watch_end.
Proof. solve_decision. Defined.

Section ops.
Context `{Pebble}.

(** The error of [Revoke] is dropped. *)
Definition Release (l : EtcdLock) : M EtcdLock :=
  let* l := (if l_lease l =? 0 then ret l
             else let* _ := call (RRevoke (l_lease l)) in ret (set_lease 0 l)) in
  ret (set_cancel false l).

(** One turn of the loop of [Acquire]. *)
Definition acquire_turn (l : EtcdLock) : unit → M (unit + bool * EtcdLock) := λ _,
  let* r := call (RLockTxn (l_leaderKey l) (l_versionKey l) (l_version l) (l_lease l)) in
  match acquire_reply l r with
  | Won => ret (inr (true, l))
  | GiveUp => let* l := Release l in ret (inr (false, l))
  | Retry => ret (inl tt)
  | WaitFor rev =>
      let* ev := call (RWatchKey (l_leaderKey l) rev) in
      match ev with
      | WatchErr => let* _ := call (RSleep Second) in ret (inl tt)
      | WatchEvents => ret (inl tt)
      | WatchCancelled => let* l := Release l in ret (inr (false, l))
      end
  end.

(** The loop waits for as long as another member holds the lock; [None]: it is still waiting
    after [2 ^ 64] turns.  When no lease is granted the lock is not released: there is
    nothing to release but the context. *)
Definition Acquire (l : EtcdLock) : M (option bool * EtcdLock) :=
  let l := set_cancel true l in
  let* lease := call (RGrant (l_ttl l)) in
  match lease with
  | Fail _ => ret (Some false, l)
  | Ok lease =>
      let l := set_lease lease l in
      let* r := loopM (2 ^ 64) (acquire_turn l) tt in
      ret (match r with inl _ => (None, l) | inr (ok, l) => (Some ok, l) end)
  end.

(** The period of the watchdog's ticker: integer division, then a [time.Duration]. *)
Definition watch_period (l : EtcdLock) : Z := dur_mul (Z.quot (l_ttl l) 4) Second.

(** One turn of the watchdog; the state is [failCount]. *)
Definition watchdog_turn (l : EtcdLock) (failCount : Z) : M (Z + watch_end) :=
  let* fired := call (RTick (watch_period l)) in
  if (fired : bool) then
    let* r := call (RKeepAlive (l_lease l)) in
    match r with
    | Fail _ =>
        let failCount := failCount + 1 in
        if maxFail <=? failCount then ret (inr WatchLost) else ret (inl failCount)
    | Ok _ => ret (inl 0)
    end
  else ret (inr WatchStopped).

(** The watchdog up to its end; what it does when the lock is lost is [lease_lost] of
    Leader.v.  [None]: it still runs after [2 ^ 64] turns. *)
Definition WatchDog (l : EtcdLock) : M (option watch_end) :=
  if watch_period l <=? 0 then ret (Some TickerPanic)
  else
    let* r := loopM (2 ^ 64) (watchdog_turn l) 0 in
    ret (match r with inl _ => None | inr e => Some e end).
End ops.

(** ** What one lock does *)
Section facts.
Context `{Pebble}.

(** The requests of [Acquire]: it never renews the lease while it waits. *)
Definition acquire_event (ev : event) : Prop :=
  match ev with Ev _ r _ => match r with
  | RGrant _ | RLockTxn _ _ _ _ | RWatchKey _ _ | RSleep _ | RRevoke _ => True
  | _ => False end end.

(** The lock [l] with its lease given back. *)
Definition released (l : EtcdLock) : EtcdLock := set_cancel false (set_lease 0 l).

(** [w'] continues [w] with the events [new], most recent first, and differs in nothing else. *)
Definition grew (new : list event) (w w' : World) : Prop :=
  w' = mkWorld (w_env w) (w_chk w) (w_db w) (new ++ w_hist w).

Lemma grew_trans n1 n2 w1 w2 w3 : grew n1 w1 w2 → grew n2 w2 w3 → grew (n2 ++ n1) w1 w3.
Proof. unfold grew. intros -> ->. simpl. by rewrite app_assoc. Qed.

Lemma release_spec l w :
  wp (Release l) (λ l' w', l' = released l ∧
    if l_lease l =? 0 then w' = w else ∃ a, grew [Ev _ (RRevoke (l_lease l)) a] w w') w.
Proof.
  unfold Release. apply wp_bind. destruct (Z.eqb_spec (l_lease l) 0) as [Hz|Hz].
  - apply wp_ret. apply wp_ret. split; [|done]. unfold released. rewrite <- Hz. by destruct l.
  - apply wp_call. intros a _. apply wp_ret. apply wp_ret. split; [done|]. by exists a.
Qed.

(** The outcome of the loop of [Acquire] for the lock [l], seen in its events. *)
Definition acquired (l : EtcdLock) (r : bool * EtcdLock) (new : list event) : Prop :=
  if r.1 then
    r.2 = l ∧ head new = Some (Ev _ (RLockTxn (l_leaderKey l) (l_versionKey l) (l_version l) (l_lease l)) (Ok LockTaken))
  else r.2 = released l ∧ (l_lease l ≠ 0 → ∃ a, head new = Some (Ev _ (RRevoke (l_lease l)) a)).

Definition turn_post (l : EtcdLock) (w : World) (r : unit + bool * EtcdLock) (w' : World) : Prop :=
  ∃ new, grew new w w' ∧ Forall acquire_event new ∧
    match r with inl _ => True | inr r => acquired l r new end.

Lemma give_up_spec l w new w0 : grew new w w0 → Forall acquire_event new →
  wp (let* l := Release l in ret (inr (false, l))) (turn_post l w) w0.
Proof.
  intros Hg Hf. apply wp_bind. eapply wp_mono; [apply release_spec|]. intros l' w' [-> Hw]. apply wp_ret.
  destruct (Z.eqb_spec (l_lease l) 0) as [Hz|Hz].
  - subst w'. by exists new.
  - destruct Hw as [a Hw]. exists ([Ev _ (RRevoke (l_lease l)) a] ++ new).
    split_and!; [by eauto using grew_trans|by constructor|]. split; [done|]. intros _. by exists a.
Qed.

Lemma acquire_keeps l : keeps w_chk (Acquire l).
Proof.
  assert (∀ l, keeps w_chk (Release l)) as Hr by (intros l'; unfold Release; keeps_tac).
  unfold Acquire, acquire_turn. keeps_tac.
Qed.

Lemma acquire_turn_spec l w : wp (acquire_turn l tt) (turn_post l w) w.
Proof.
  unfold acquire_turn. apply wp_call. intros r _. set (ev1 := Ev _ _ r). set (w1 := mkWorld _ _ _ _).
  assert (grew [ev1] w w1) as Hw1 by done.
  destruct (acquire_reply l r) as [| | |rev] eqn:En.
  - apply wp_ret. exists [ev1]. split_and!; [done|by repeat constructor|]. split; [done|].
    subst ev1. destruct r as [[|leader version]|]; [done|simpl in En; by repeat case_match|done].
  - by eapply give_up_spec; [exact Hw1|repeat constructor].
  - apply wp_ret. exists [ev1]. by split_and!; [|repeat constructor|].
  - apply wp_call. intros a _. set (ev2 := Ev _ _ a). set (w2 := mkWorld _ _ _ _).
    assert (grew ([ev2] ++ [ev1]) w w2) as Hw2 by done. destruct a.
    + apply wp_call. intros u _. apply wp_ret. set (ev3 := Ev _ _ u). exists ([ev3] ++ [ev2] ++ [ev1]).
      by split_and!; [|repeat constructor|].
    + apply wp_ret. eexists. by split_and!; [exact Hw2|repeat constructor|].
    + by eapply give_up_spec; [exact Hw2|repeat constructor].
Qed.

Lemma acquire_loop_spec l w : wp (loopM (2 ^ 64) (acquire_turn l) tt) (turn_post l w) w.
Proof.
  eapply wp_mono.
  { apply (wp_loopM _ (λ _ w', ∃ new, grew new w w' ∧ Forall acquire_event new)
      (λ r w', turn_post l w (inr r) w')).
    - intros [] w1 (n1 & Hg1 & Hf1). eapply wp_mono; [apply acquire_turn_spec|].
      intros [[]|r] w2 (n2 & Hg2 & Hf2 & Hr); exists (n2 ++ n1).
      + split; [by eauto using grew_trans|by apply Forall_app].
      + split_and!; [by eauto using grew_trans|by apply Forall_app|]. unfold acquired in *. destruct r as [[] l']; simpl in *.
        * destruct Hr as [-> Hh]. split; [done|]. by destruct n2.
        * destruct Hr as [-> Hh]. split; [done|]. intros Hz. destruct (Hh Hz) as [a Ha]. exists a. by destruct n2.
    - exists []. split; [by destruct w|constructor]. }
  intros [[]|r] w' Hw; [|done]. destruct Hw as (new & Hg & Hf). by exists new.
Qed.

(** The outcome of [Acquire], with its events. *)
Definition outcome (l : EtcdLock) (ok : bool) (l' : EtcdLock) (new : list event) : Prop :=
  (∃ e, ok = false ∧ l' = set_cancel true l ∧ new = [Ev _ (RGrant (l_ttl l)) (Fail e)]) ∨
  ∃ lease, Ev _ (RGrant (l_ttl l)) (Ok lease) ∈ new ∧ acquired (set_lease lease (set_cancel true l)) (ok, l') new.

Lemma acquire_spec l w : wp (Acquire l) (λ r w', ∀ ok l', r = (Some ok, l') →
  ∃ new, grew new w w' ∧ Forall acquire_event new ∧ outcome l ok l' new) w.
Proof.
  unfold Acquire. apply wp_call. intros [lease|e] _; set (w1 := mkWorld _ _ _ _); cbv zeta.
  - apply wp_bind. eapply wp_mono; [apply acquire_loop_spec|].
    intros r w' (new & Hg & Hf & Hr). apply wp_ret. intros ok l' Hl. destruct r as [[]|[ok' l'']]; [done|].
    injection Hl as -> ->. exists (new ++ [Ev _ (RGrant (l_ttl l)) (Ok lease)]).
    split_and!; [by apply (grew_trans _ _ _ w1)|apply Forall_app; by repeat constructor|]. right. exists lease.
    split; [apply elem_of_app; right; by constructor|]. unfold acquired in *. simpl in *. destruct ok.
    + destruct Hr as [-> Hh]. split; [done|]. by destruct new.
    + destruct Hr as [-> Hh]. split; [done|]. intros Hz. destruct (Hh Hz) as [a Ha]. exists a. by destruct new.
  - apply wp_ret. intros ok l' [= <- <-]. exists [Ev _ (RGrant (l_ttl l)) (Fail e)].
    split_and!; [done|by repeat constructor|]. left. by exists e.
Qed.

(** (C23) The outcome of an acquisition.  When it succeeds the last thing it did was a
    transaction that took the leader key, with the lock's own keys and version and the
    lease it was granted in this call; when it fails after a grant the last thing it
    did was to revoke that lease.  It never renews the lease while it waits. *)
Theorem acquire_outcome l w ok l' w' :
  Acquire l w = (Some ok, l', w') →
  ∃ new, grew new w w' ∧ Forall acquire_event new ∧ outcome l ok l' new.
Proof. intros Hr. exact (wp_run _ _ _ _ _ (acquire_spec l w) Hr ok l' eq_refl). Qed.

Lemma acquired_events l w l' w' : Acquire l w = (Some true, l', w') →
  Ev _ (RGrant (l_ttl l)) (Ok (l_lease l')) ∈ w_hist w' ∧
  Ev _ (RLockTxn (l_leaderKey l) (l_versionKey l) (l_version l) (l_lease l')) (Ok LockTaken) ∈ w_hist w'.
Proof.
  intros Hr. destruct (wp_run _ _ _ _ _ (acquire_spec l w) Hr true l' eq_refl) as (new & Hg & _ & Ho).
  rewrite Hg. simpl. destruct Ho as [(? & ? & _)|(lease & Hin & Hl & Hh)]; [done|]. simpl in Hl. subst l'. simpl in *.
  destruct new as [|ev new]; [done|]. injection Hh as ->. set_solver.
Qed.

(** ** The watchdog

    The answers of [KeepAliveOnce], most recent first, as the watchdog sees them. *)
Definition event_beat (ev : event) : option bool :=
  match ev with
  | Ev _ r a => match r in req A return A → option bool with
                | RKeepAlive _ => λ a, Some (is_ok a)
                | _ => λ _, None
                end a
  end.
Definition beats (h : list event) : list bool := omap event_beat h.

(** Three failures in a row, somewhere. *)
Fixpoint three_in_a_row (ks : list bool) : bool :=
  match ks with
  | false :: ((false :: (false :: _)) as ks') => true
  | _ :: ks => three_in_a_row ks
  | [] => false
  end.
(** The failures since the last success. *)
Fixpoint failing (ks : list bool) : Z := match ks with false :: ks => failing ks + 1 | _ => 0 end.

Lemma failing_nonneg ks : 0 ≤ failing ks.
Proof. induction ks as [|[] ks IH]; simpl; lia. Qed.

Lemma three_in_a_row_fail ks :
  three_in_a_row (false :: ks) = (maxFail <=? failing ks + 1) || three_in_a_row ks.
Proof.
  unfold maxFail. destruct ks as [|[] ks]; [done|done|]. destruct ks as [|[] ks]; [done|done|].
  cbn [three_in_a_row failing]. pose proof (failing_nonneg ks). by rewrite (proj2 (Z.leb_le _ _)) by lia.
Qed.

(** (C22) The watchdog's counter decides exactly "three failures in a row": it reports the lock
      lost if and only if three renewals in a row failed since it was started, and it
      does so at the third one.  It panics if and only if the ttl is too short for its ticker. *)
Theorem watchdog_counts_a_row l w e w' :
  WatchDog l w = (Some e, w') →
  (e = TickerPanic ↔ watch_period l ≤ 0) ∧
  ∃ ks, beats (w_hist w') = ks ++ beats (w_hist w) ∧
    (e = WatchLost ↔ three_in_a_row ks = true) ∧ three_in_a_row (tail ks) = false.
Proof.
  intros Hr. refine (wp_run _ (λ r w', ∀ e, r = Some e → _) w _ _ _ Hr e eq_refl). clear Hr e w'.
  unfold WatchDog. destruct (Z.leb_spec (watch_period l) 0) as [Hp|Hp].
  { apply wp_ret. intros e [= <-]. split; [done|]. exists []. by split_and!. }
  apply wp_bind. eapply wp_mono.
  { apply (wp_loopM _ (λ n w', ∃ ks, beats (w_hist w') = ks ++ beats (w_hist w) ∧ n = failing ks ∧
        three_in_a_row ks = false)
      (λ e w', e ≠ TickerPanic ∧ ∃ ks, beats (w_hist w') = ks ++ beats (w_hist w) ∧
        (e = WatchLost ↔ three_in_a_row ks = true) ∧ three_in_a_row (tail ks) = false)).
    2: { by exists []. }
    intros n w1 (ks & Hks & -> & Hno). unfold watchdog_turn. apply wp_call. intros [] _.
    2: { apply wp_ret. split; [done|]. exists ks. split_and!; [done|by rewrite Hno|].
         destruct ks as [|[] ks]; [done|done|]. rewrite three_in_a_row_fail in Hno. by apply orb_false_iff in Hno as [_ ?]. }
    apply wp_call. intros [u|e] _.
    - apply wp_ret. exists (true :: ks). split_and!; [|done|done]. simpl. by rewrite <- Hks.
    - cbv zeta. destruct (maxFail <=? failing ks + 1) eqn:Em; apply wp_ret.
      + split; [done|]. exists (false :: ks). split_and!; [simpl; by rewrite <- Hks| |done].
        by rewrite three_in_a_row_fail, Em.
      + exists (false :: ks). split_and!; [simpl; by rewrite <- Hks|done|]. by rewrite three_in_a_row_fail, Em. }
  intros [n|e] w' Hw; apply wp_ret; [done|]. intros e' [= <-]. destruct Hw as [He Hw].
  split; [split; [done|lia]|exact Hw].
Qed.
End facts.

(** ** The etcd server

    [serve s (Some ev) s']: the server takes part in the request of [ev] and gives its
    answer; [serve s None s']: something else happens, as a lease running out.  [owner s k]
    is the lease that the key [k] is attached to. *)
Class EtcdServer := {
  server : Type;
  serve : server → option event → server → Prop;
  owner : server → string → option Z;
  version_at : server → string → option string;
  alive : server → Z → Prop;
  granted : server → Z → Prop                  (* at some time *)
}.

(** The transactions of the checker that write the key. *)
Definition writes_key (k : string) (ev : event) : Prop :=
  match ev with Ev _ r _ => match r with
  | REtcdTxn ops => ∃ o, o ∈ ops ∧ match o with OpPut k' _ | OpPutLease k' _ _ | OpDelete k' => k' = k end
  | _ => False end end.

(** A granted lease is new, and a lease that ended is not granted again; a key is put with
    a lease only while the lease lives, and stays attached to it until the lease ends,
    unless the key is written; the transaction of the lock puts the leader key when
    that key is absent and the version key has the expected value. *)
Class EtcdLaws `{EtcdServer} : Prop := {
  serve_granted s o s' lease : serve s o s' → granted s lease → granted s' lease;
  serve_dead s o s' lease : serve s o s' → granted s lease → alive s' lease → alive s lease;
  serve_owner s o s' k lease : serve s o s' → (∀ ev, o = Some ev → ¬ writes_key k ev) →
    owner s k = Some lease → alive s' lease → owner s' k = Some lease;
  grant_fresh s ttl lease s' : serve s (Some (Ev _ (RGrant ttl) (Ok lease))) s' →
    ¬ granted s lease ∧ granted s' lease;
  txn_taken s lk vk version lease s' :
    serve s (Some (Ev _ (RLockTxn lk vk version lease) (Ok LockTaken))) s' →
    owner s lk = None ∧ version_at s vk = Some version ∧ alive s lease ∧ granted s lease ∧
    owner s' lk = Some lease
}.

(** The requests of all members in the order the server saw them, most recent first. *)
Inductive run `{EtcdServer} : list (nat * event) → server → Prop :=
  | run_init s : run [] s
  | run_request i ev τ s s' : run τ s → serve s (Some ev) s' → run ((i, ev) :: τ) s'
  | run_other τ s s' : run τ s → serve s None s' → run τ s'.

(** What member [i] sees of it. *)
Definition seen_by (i : nat) (τ : list (nat * event)) : list event :=
  omap (λ p, if bool_decide (p.1 = i) then Some p.2 else None) τ.

Lemma seen_by_in i τ ev h : ev ∈ h → h `suffix_of` seen_by i τ → (i, ev) ∈ τ.
Proof.
  intros Hin [l Hl]. assert (ev ∈ seen_by i τ) as Hs by (rewrite Hl; set_solver).
  apply list_elem_of_omap in Hs as ([j ev'] & Hin' & Hj). simpl in Hj.
  case_bool_decide; [|done]. by simplify_eq.
Qed.

Section exclusion.
Context `{EtcdLaws}.

Lemma run_granted τ s i ttl lease : run τ s → (i, Ev _ (RGrant ttl) (Ok lease)) ∈ τ → granted s lease.
Proof.
  induction 1 as [s|j ev τ s s' Hr IH Hs|τ s s' Hr IH Hs]; [by intros ?%not_elem_of_nil| |].
  - intros [[= <- <-]|Hin]%elem_of_cons; [by eapply grant_fresh|]. by eapply serve_granted; eauto.
  - intros Hin. by eapply serve_granted; eauto.
Qed.

(** A lease is granted to one member. *)
Lemma run_grant_unique τ s i j ttl ttl' lease : run τ s →
  (i, Ev _ (RGrant ttl) (Ok lease)) ∈ τ → (j, Ev _ (RGrant ttl') (Ok lease)) ∈ τ → i = j.
Proof.
  induction 1 as [s|k ev τ s s' Hr IH Hs|τ s s' Hr IH Hs]; [by intros ?%not_elem_of_nil| |done].
  intros [Hi|Hi]%elem_of_cons [Hj|Hj]%elem_of_cons; [congruence| | |by apply IH].
  - injection Hi as <- <-. destruct (grant_fresh _ _ _ _ Hs) as [[] _]. by eapply run_granted.
  - injection Hj as <- <-. destruct (grant_fresh _ _ _ _ Hs) as [[] _]. by eapply run_granted.
Qed.

(** Who took the key holds it for as long as its lease lives. *)
Lemma run_owner τ s k i vk version lease : run τ s → Forall (λ p, ¬ writes_key k p.2) τ →
  (i, Ev _ (RLockTxn k vk version lease) (Ok LockTaken)) ∈ τ →
  granted s lease ∧ (alive s lease → owner s k = Some lease).
Proof.
  induction 1 as [s|j ev τ s s' Hr IH Hs|τ s s' Hr IH Hs]; [by intros _ ?%not_elem_of_nil| |].
  - intros [Hw Hf]%Forall_cons [Hin|Hin]%elem_of_cons.
    + injection Hin as <- <-. destruct (txn_taken _ _ _ _ _ _ Hs) as (_ & _ & _ & Hg & Ho).
      split; [by eapply serve_granted|done].
    + destruct (IH Hf Hin) as [Hg Ho]. split; [by eapply serve_granted|]. intros Ha.
      eapply serve_owner; [exact Hs|by intros ? [= <-]| |done]. apply Ho. by eapply serve_dead.
  - intros Hf Hin. destruct (IH Hf Hin) as [Hg Ho]. split; [by eapply serve_granted|]. intros Ha.
    eapply serve_owner; [exact Hs|done| |done]. apply Ho. by eapply serve_dead.
Qed.

Context `{Pebble}.

(** (C7) Mutual exclusion: when two members have both acquired the lock of one leader key, at
      most one of their leases lives, and the key is attached to the one that does.
      The members run [Acquire] in any interleaving with each other and with anything
      else the server sees, as long as no other transaction writes the leader key. *)
Theorem leader_exclusive τ s i j l1 l1' w1 w1' l2 l2' w2 w2' :
  run τ s → Forall (λ p, ¬ writes_key (l_leaderKey l1) p.2) τ →
  l_leaderKey l2 = l_leaderKey l1 → i ≠ j →
  Acquire l1 w1 = (Some true, l1', w1') → w_hist w1' `suffix_of` seen_by i τ →
  Acquire l2 w2 = (Some true, l2', w2') → w_hist w2' `suffix_of` seen_by j τ →
  (alive s (l_lease l1') → owner s (l_leaderKey l1) = Some (l_lease l1')) ∧
  ¬ (alive s (l_lease l1') ∧ alive s (l_lease l2')).
Proof.
  intros Hr Hf Hk Hij Ha1 Hs1 Ha2 Hs2.
  assert (∀ m l w l' w', Acquire l w = (Some true, l', w') → w_hist w' `suffix_of` seen_by m τ →
    l_leaderKey l = l_leaderKey l1 →
    (m, Ev _ (RGrant (l_ttl l)) (Ok (l_lease l'))) ∈ τ ∧
    (alive s (l_lease l') → owner s (l_leaderKey l1) = Some (l_lease l'))) as Hacq.
  { intros m l w l' w' Ha Hs Hl. destruct (acquired_events _ _ _ _ Ha) as (Hg & Ht).
    split; [by eapply seen_by_in|]. rewrite Hl in Ht. eapply run_owner; [done|done|by eapply seen_by_in]. }
  destruct (Hacq _ _ _ _ _ Ha1 Hs1 eq_refl) as [Hg1 Ho1]. destruct (Hacq _ _ _ _ _ Ha2 Hs2 Hk) as [Hg2 Ho2].
  split; [done|]. intros [Hl1 Hl2]. pose proof (Ho1 Hl1) as Hown. rewrite (Ho2 Hl2) in Hown.
  injection Hown as Heq. rewrite Heq in Hg2. apply Hij. by eapply run_grant_unique.
Qed.
End exclusion.

(** ** Witnesses *)
Module LockDemo.
#[local] Existing Instances mem_pebble.
Record srv := mkSrv {
  sv_owner : gmap string Z;
  sv_version : gmap string string;
  sv_live : gset Z;
  sv_next : Z
}.
(** The lease ends, and its keys go with it. *)
Definition drop (lease : Z) (s : srv) : srv :=
  mkSrv (base.filter (λ kv, kv.2 ≠ lease) (sv_owner s)) (sv_version s) (sv_live s ∖ {[lease]}) (sv_next s).
Definition taking (s : srv) (lk vk version : string) (lease : Z) : Prop :=
  sv_owner s !! lk = None ∧ sv_version s !! vk = Some version ∧ lease ∈ sv_live s.
Definition answers (s : srv) (ev : event) (s' : srv) : Prop :=
  match ev with
  | Ev _ r a => match r in req A return A → Prop with
      | RGrant _ => λ a, match a with
          | Ok lease => lease = sv_next s ∧
              s' = mkSrv (sv_owner s) (sv_version s) ({[sv_next s]} ∪ sv_live s) (sv_next s + 1)
          | Fail _ => s' = s end
      | RLockTxn lk vk version lease => λ a, match a with
          | Ok LockTaken => taking s lk vk version lease ∧ lease < sv_next s ∧
              s' = mkSrv (<[lk := lease]> (sv_owner s)) (sv_version s) (sv_live s) (sv_next s)
          | _ => s' = s end
      | RRevoke lease => λ _, s' = drop lease s
      | _ => λ _, s' = s
      end a
  end.
Definition demo_server : EtcdServer := {|
  server := srv;
  serve s o s' := match o with Some ev => answers s ev s' | None => ∃ lease, s' = drop lease s end;
  owner s k := sv_owner s !! k;
  version_at s k := sv_version s !! k;
  alive s lease := lease ∈ sv_live s;
  granted s lease := lease < sv_next s
|}.

Lemma drop_owner lease s k l : sv_owner s !! k = Some l → l ∈ sv_live (drop lease s) →
  sv_owner (drop lease s) !! k = Some l.
Proof. simpl. intros Ho Hl. apply map_lookup_filter_Some. split; [done|]. simpl. set_solver. Qed.

(** A step drops a lease, grants one, takes a key, or changes nothing. *)
Lemma answers_cases s ev s' : answers s ev s' → s' = s ∨ (∃ lease, s' = drop lease s) ∨
  s' = mkSrv (sv_owner s) (sv_version s) ({[sv_next s]} ∪ sv_live s) (sv_next s + 1) ∨
  ∃ lk lease, sv_owner s !! lk = None ∧
    s' = mkSrv (<[lk := lease]> (sv_owner s)) (sv_version s) (sv_live s) (sv_next s).
Proof.
  destruct ev as [A r a]. destruct r; simpl; try (intros ->; by left).
  - destruct a; [intros [_ ->]; auto|intros ->; by left].
  - destruct a as [[|]|]; [|intros ->; by left|intros ->; by left].
    intros ((? & _) & _ & ->). right. right. right. eauto.
  - intros ->. right. left. eauto.
Qed.
Lemma serve_cases s o s' : serve (EtcdServer := demo_server) s o s' → s' = s ∨ (∃ lease, s' = drop lease s) ∨
  s' = mkSrv (sv_owner s) (sv_version s) ({[sv_next s]} ∪ sv_live s) (sv_next s + 1) ∨
  ∃ lk lease, sv_owner s !! lk = None ∧
    s' = mkSrv (<[lk := lease]> (sv_owner s)) (sv_version s) (sv_live s) (sv_next s).
Proof. destruct o; simpl; [apply answers_cases|]. intros [lease ->]. right. left. eauto. Qed.

#[export] Instance demo_server_laws : @EtcdLaws demo_server.
Proof.
  split.
  - intros s o s' lease Hs. apply serve_cases in Hs as [->|[[? ->]|[->|(? & ? & _ & ->)]]]; simpl; lia.
  - intros s o s' lease Hs. apply serve_cases in Hs as [->|[[? ->]|[->|(? & ? & _ & ->)]]]; simpl; try done; [set_solver|].
    intros Hg [Hl%elem_of_singleton|Hl]%elem_of_union; [lia|done].
  - intros s o s' k lease Hs _. apply serve_cases in Hs as [->|[[? ->]|[->|(lk & ? & Hn & ->)]]]; simpl; try done.
    + intros Ho Hl. by apply drop_owner.
    + intros Ho _. destruct (decide (k = lk)) as [->|]; [congruence|]. by rewrite lookup_insert_ne.
  - intros s ttl lease s' [-> ->]. simpl. lia.
  - intros s lk vk version lease s' [(Ho & Hv & Hl) [Hn ->]]. simpl. split_and!; try done. by rewrite lookup_insert_eq.
Qed.

(** Member [i] is granted the lease [i + 1] and takes the key. *)
Definition lock : EtcdLock := NewLock "7/outer_block_notice" "7/version" "v1" 20.
Definition member_env (i : Z) : env := λ A h r,
  match r in req A return A with RGrant _ => Ok (i + 1) | r => Sim.sim_env Sim.quiet _ h r end.
Definition member (i : Z) : World := mkWorld (member_env i) (Sim.checker0 Sim.legacyConfig) (mkCDB mem_empty None) [].
Definition acquire_events (i : Z) : list event := w_hist (Acquire lock (member i)).2.
(** Member 0 acquires, its lease ends, member 1 acquires. *)
Definition trace : list (nat * event) := ((λ ev, (1%nat, ev)) <$> acquire_events 1) ++ ((λ ev, (0%nat, ev)) <$> acquire_events 0).
Definition s0 : srv := mkSrv ∅ {["7/version" := "v1"]} ∅ 1.
Definition s2 : srv := mkSrv {["7/outer_block_notice" := 1]} {["7/version" := "v1"]} {[1]} 2.
Definition s3 : srv := drop 1 s2.
Definition s5 : srv := mkSrv {["7/outer_block_notice" := 2]} {["7/version" := "v1"]} ({[2]} ∪ sv_live s3) 3.

Lemma trace_run : run (H := demo_server) trace s5.
Proof.
  apply (run_request (H := demo_server)) with (mkSrv ∅ {["7/version" := "v1"]} ({[2]} ∪ sv_live s3) 3).
  2: { vm_compute. split_and!; reflexivity. }
  apply (run_request (H := demo_server)) with s3.
  2: { split; reflexivity. }
  apply (run_other (H := demo_server)) with s2; [|by exists 1].
  apply (run_request (H := demo_server)) with (mkSrv ∅ {["7/version" := "v1"]} {[1]} 2).
  2: { vm_compute. split_and!; reflexivity. }
  apply (run_request (H := demo_server)) with s0; [apply run_init|]. split; reflexivity.
Qed.

(** The version moved on; and renewals that all fail. *)
Definition refused_env : env := λ A h r,
  match r in req A return A with
  | RLockTxn _ _ _ _ => Ok (LockRefused None (Some "v2"))
  | RKeepAlive _ => Fail (ErrMsg "unavailable")
  | r => Sim.sim_env Sim.quiet _ h r
  end.
Definition refused : World := mkWorld refused_env (Sim.checker0 Sim.legacyConfig) (mkCDB mem_empty None) [].
End LockDemo.

Section lock_witnesses.
#[local] Existing Instances mem_pebble.
Import LockDemo.

Lemma leader_exclusive_witness :
  ¬ (alive (EtcdServer := demo_server) s5 1 ∧ alive (EtcdServer := demo_server) s5 2) ∧
  alive (EtcdServer := demo_server) s5 2.
Proof.
  split; [|vm_compute; reflexivity].
  refine (proj2 (leader_exclusive (H := demo_server) trace s5 0 1 lock (set_lease 1 (set_cancel true lock)) (member 0)
    (Acquire lock (member 0)).2 lock (set_lease 2 (set_cancel true lock)) (member 1) (Acquire lock (member 1)).2
    trace_run _ eq_refl _ (run_eq _ _ _) _ (run_eq _ _ _) _)).
  - repeat constructor; intros [].
  - discriminate.
  - vm_compute. reflexivity.
  - exists []. vm_compute. reflexivity.
  - vm_compute. reflexivity.
  - exists []. vm_compute. reflexivity.
Defined.

Lemma acquire_outcome_witness :
  (Acquire lock refused).1 = (Some false, set_cancel false lock) ∧
  ∃ new, grew new refused (Acquire lock refused).2 ∧ outcome lock false (set_cancel false lock) new.
Proof.
  assert (Hr : Acquire lock refused = (Some false, set_cancel false lock, (Acquire lock refused).2))
    by (apply run_eq; vm_compute; reflexivity).
  split; [by rewrite Hr|]. destruct (acquire_outcome lock refused false _ _ Hr) as (new & Hg & _ & Ho).
  exists new. split; [exact Hg|exact Ho].
Defined.

Lemma watchdog_counts_a_row_witness :
  WatchLost = TickerPanic ↔ watch_period (set_lease 1 lock) ≤ 0.
Proof.
  assert (Hr : WatchDog (set_lease 1 lock) refused = (Some WatchLost, (WatchDog (set_lease 1 lock) refused).2))
    by (apply run_eq; vm_compute; reflexivity).
  exact (proj1 (watchdog_counts_a_row (set_lease 1 lock) refused WatchLost _ Hr)).
Defined.
End lock_witnesses.
