(* ===== verification/Leader.v ===== *)
(** * Leader: who publishes to the singleton topic (check/check.go)

    Taking up and giving up the leadership of a chain, the periodic check of the version
    key, the start and the shutdown of the service. *)
From S2P Require Import Prelude Types Config Json Store ScanState BlockIndex Checker Topics Validation Publish.
From S2P Require Import Nodes Replicas Align ForkScan Process Lock.

Definition leader_key (cfg : Config) : string := pretty (ChainID cfg) +:+ "/outer_block_notice".
Definition version_key (cfg : Config) : string := pretty (ChainID cfg) +:+ "/version".

(** The lock of a configuration. *)
Definition lock_of (cfg : Config) : EtcdLock :=
  NewLock (leader_key cfg) (version_key cfg) (Version cfg) (EtcdLockTTL cfg).

Section ops.
Context `{Pebble} `{HashText} `{JsonText} `{Rlp} `{BigText}.

(** Runs under the lock of the checker, which it keeps while [Acquire] waits; [None]: it
    still waits. *)
Definition ChangeToChainLeader : M (option (res unit)) :=
  let* p := get_pub in
  match etcdLock p with
  | Some _ => ret (Some (Ok tt))
  | None =>
      let* cfg := get_config in
      let* (acquired, lock) := Acquire (lock_of cfg) in
      match acquired with
      | None => ret None
      | Some false => ret (Some (Fail (ErrMsg "acquire etcd lock failed")))
      | Some true => modify_pub (set_etcdLock (Some lock)) ;;; ret (Some (Ok tt))
      end
  end.

(** [Release] changes the lock object that the checker then forgets. *)
Definition RevokeChainLeader : M unit :=
  let* p := get_pub in
  match etcdLock p with
  | None => ret tt
  | Some lock =>
      let* _ := Release lock in
      modify_pub (set_etcdLock None) ;;;
      modify_pub (set_align false)
  end.

(** The watchdog of the lock with the lease [lease] has given up: it clears the lease in the
    lock object, without the checker's lock, and only then calls [RevokeChainLeader]. *)
Definition lease_lost (lease : Z) : M unit :=
  modify_pub (λ p, match etcdLock p with
    | Some lock => if l_lease lock =? lease then set_etcdLock (Some (set_lease 0 lock)) p else p
    | None => p
    end).

(** One tick of the version check; [None]: it is blocked in [Acquire]. *)
Definition version_check : M (option unit) :=
  let* cfg := get_config in
  let* resp := call (REtcdGet (version_key cfg)) in
  match resp with
  | Fail _ => ret (Some tt)
  | Ok kv =>
      let* p := get_pub in
      match kv with
      | Some currentVersion =>
          if bool_decide (currentVersion = Version cfg) then
            match etcdLock p with
            | None => let* r := ChangeToChainLeader in ret (match r with None => None | Some _ => Some tt end)
            | Some _ => ret (Some tt)
            end
          else
            match etcdLock p with
            | None => ret (Some tt)
            | Some _ => RevokeChainLeader ;;; ret (Some tt)
            end
      | None =>
          match etcdLock p with
          | None => ret (Some tt)
          | Some _ => RevokeChainLeader ;;; ret (Some tt)
          end
      end
  end.

(** The goroutine: a panic when the interval is not positive, else a check per tick until
    the service stops.  [inl]: it still runs after [2 ^ 64] ticks. *)
Inductive check_end := CheckStopped | CheckPanic | CheckBlocked.
Definition version_tick (interval : Z) : unit → M (unit + check_end) := λ _,
  let* fired := call (RTick interval) in
  if (fired : bool) then
    let* r := version_check in
    ret (match r with Some _ => inl tt | None => inr CheckBlocked end)
  else ret (inr CheckStopped).
Definition version_checks : M (unit + check_end) :=
  let* cfg := get_config in
  let interval := dur_mul (VersionCheckInterval cfg) Second in
  if interval <=? 0 then ret (inr CheckPanic) else loopM (2 ^ 64) (version_tick interval) tt.

(** The first check, whose failure ends the start; the goroutine is [version_checks]. *)
Definition InitLeaderFromEtcd : M (option (res unit)) :=
  let* cfg := get_config in
  let* resp := call (REtcdGet (version_key cfg)) in
  match resp with
  | Fail e => ret (Some (Fail e))
  | Ok (Some etcdVersion) =>
      if bool_decide (etcdVersion = Version cfg) then ChangeToChainLeader else ret (Some (Ok tt))
  | Ok None => ret (Some (Ok tt))
  end.

(** ** Start and shutdown *)

(** The checker of a configuration before anything was loaded. *)
Definition zero_checker (cfg : Config) : Checker :=
  mkChecker cfg (mkPub None None false None (mkNoticeID zero_hash 0 0) ∅) (mkRep 0 0 0)
    (mkScanRun None None false false zero_schedule None []).

(** Opens the parts the service depends on, in this order. *)
Fixpoint open_all (parts : list string) : M (res unit) :=
  match parts with
  | [] => ret (Ok tt)
  | part :: parts =>
      let* r := call (ROpen part) in
      match r with Fail e => ret (Fail e) | Ok _ => open_all parts end
  end.
(** The consistency database comes first.  The global is nil when the process starts, and
    [w_db] has the store that lies in the directory. *)
Definition open_db : M (res unit) :=
  let* r := call (ROpen "consistency db") in
  with_db (λ db, match OpenConsistencyDB None (let! _ := r in Ok (cdb_store db)) with
    | (Some e, _) => (Fail e, db)
    | (None, db') => (Ok tt, default db db')
    end).
(** The node map ([InitFromEtcd] of Nodes.v) is shared by reference; here it is a part like
    the others. *)
Definition open_parts : M (res unit) :=
  let* r := open_db in
  match r with Fail e => ret (Fail e) | Ok _ => open_all ["outer s3"; "etcd"; "node map"] end.

Definition NewChecker (cfg : Config) : M (option (res unit)) :=
  match Validate cfg with
  | Some e => ret (Some (Fail e))
  | None =>
      let* r := open_parts in
      match r with
      | Fail e => ret (Some (Fail e))
      | Ok _ =>
          modify_chk (λ _, zero_checker cfg) ;;;
          let* last := GetLastOuterBlockNotice (if IsVersionMode cfg then outerVersion else outerSingleton) in
          match last with
          | Fail e => ret (Some (Fail e))
          | Ok notice =>
              modify_pub (set_latestOuter notice) ;;;
              let* r := loadForkScan in
              match r with
              | Fail e => ret (Some (Fail e))
              | Ok _ => if IsVersionMode cfg then InitLeaderFromEtcd else ret (Some (Ok tt))
              end
          end
      end
  end.

(** The steps of [shutdown]: it waits for the scan worker, cancels the watch of the nodes
    without waiting for its goroutine, gives up the lock, and closes the clients and the
    database.  The wait and the cancellation show in the process (Lifecycle.v): they ask no
    service for anything. *)
Inductive stop_step := WaitScan | CancelWatch | GiveUpLock | CloseOf (part : string).
Definition shutdown_steps (cfg : Config) : list stop_step :=
  [WaitScan; CancelWatch; GiveUpLock; CloseOf "inner reader"] ++
  (if IsVersionMode cfg then [CloseOf "version writer"] else []) ++
  [CloseOf "singleton writer"; CloseOf "etcd"; CloseOf "consistency db"].
Definition stop (s : stop_step) : M unit :=
  match s with
  | WaitScan | CancelWatch => ret tt
  | GiveUpLock => RevokeChainLeader
  | CloseOf part => call (RClose part)
  end.
Fixpoint in_order (steps : list stop_step) : M unit :=
  match steps with [] => ret tt | s :: steps => stop s ;;; in_order steps end.
Definition shutdown : M unit := let* cfg := get_config in in_order (shutdown_steps cfg).
End ops.

(** ** The replica record leaves the leader key alone

    The transactions of the checkers are those of the replica record (Replicas.v); on
    any member of any chain and version they write no leader key, as
    [leader_exclusive] asks of them. *)
Section spared.
Context `{Pebble} `{HashText} `{JsonText} `{Rlp} `{BigText}.

(** Two keys under numeric prefixes are equal only when their remainders are. *)
Lemma prefixed_inj (c d : Z) s t : pretty c +:+ String "/" s = pretty d +:+ String "/" t →
  split_on "/" s = split_on "/" t.
Proof.
  intros Heq. apply (f_equal (split_on "/"%char)) in Heq. rewrite !split_on_cons in Heq by apply pretty_free.
  by injection Heq.
Qed.

Lemma split_on_slash s t : (2 ≤ length (split_on "/" (s +:+ String "/" t)))%nat.
Proof.
  assert (∀ t, (1 ≤ length (split_on "/" t))%nat) as Hone.
  { clear. intros t. induction t as [|c t IH]; simpl; [lia|]. case_bool_decide; simpl; [lia|].
    destruct (split_on "/"%char t); simpl in *; lia. }
  induction s as [|c s IH].
  - simpl. specialize (Hone t). lia.
  - change (String c s +:+ String "/" t) with (String c (s +:+ String "/" t)). simpl.
    case_bool_decide; simpl; [lia|]. destruct (split_on "/"%char (s +:+ String "/" t)); simpl in *; lia.
Qed.

Lemma deeper_key cfg (c : Z) s t : pretty c +:+ String "/" (s +:+ String "/" t) ≠ leader_key cfg.
Proof.
  intros Heq%prefixed_inj. pose proof (split_on_slash s t) as Hl. rewrite Heq in Hl. simpl in Hl. lia.
Qed.

Lemma node_key_spared cfg cfg' n : node_key cfg' n ≠ leader_key cfg.
Proof.
  unfold node_key. destruct (IsVersionMode cfg').
  - exact (deeper_key cfg (ChainID cfg') (Version cfg') ("nodes/" +:+ Address n +:+ "_" +:+ pretty (Port n))).
  - exact (deeper_key cfg (ChainID cfg') "nodes" (Address n +:+ "_" +:+ pretty (Port n))).
Qed.
Lemma height_key_spared cfg cfg' : height_key cfg' ≠ leader_key cfg.
Proof.
  unfold height_key. destruct (IsVersionMode cfg').
  - exact (deeper_key cfg (ChainID cfg') (Version cfg') "lastBlockNumber").
  - intros Heq. by apply (prefixed_inj _ _ "lastBlockNumber" "outer_block_notice") in Heq.
Qed.

(** Neither a transaction that writes a leader key nor a write to Kafka. *)
Definition harmless (ev : event) : Prop :=
  match ev with Ev _ r _ => match r with
    | REtcdTxn ops => Forall (λ o, ∀ cfg, match o with
        OpPut k _ | OpPutLease k _ _ | OpDelete k => k ≠ leader_key cfg end) ops
    | RKafkaWrite _ _ => False
    | _ => True
    end end.
Lemma harmless_spares ev cfg : harmless ev → ¬ writes_key (leader_key cfg) ev.
Proof.
  destruct ev as [A r a]. destruct r; try done; try (by intros _ []). simpl. rewrite Forall_forall.
  intros Hf (o & Ho & Hk). specialize (Hf o Ho cfg). by destruct o.
Qed.

Lemma check_nodes_harmless ns k t : emits harmless (check_nodes ns k t).
Proof.
  induction ns as [|n ns IH]; cbn [check_nodes]; unfold Node_Check, EthBlockNumber; emits_tac; done.
Qed.

Lemma wait_harmless k t : emits harmless (waitReplicasReady k t).
Proof.
  pose proof check_nodes_harmless as Hn. unfold waitReplicasReady, wait_round, check, CheckAll, get_config.
  emits_tac; done.
Qed.

Lemma remove_harmless c : emits harmless (RemoveOfflineNodesFromEtcd c).
Proof.
  unfold RemoveOfflineNodesFromEtcd, get_config. apply emits_bind; [apply emits_keeps; by intros ?|]. intros cfg'.
  destruct (remove_ops cfg' (rc_ReplicaStates c)) as [|o ops] eqn:Eo; emits_tac. unfold harmless. rewrite <- Eo.
  unfold remove_ops. apply Forall_fmap, Forall_true. intros s cfg. exact (node_key_spared cfg cfg' _).
Qed.

Lemma write_harmless c : emits harmless (WriteReplicaStateChangeToEtcd c).
Proof.
  unfold WriteReplicaStateChangeToEtcd, get_config, get_rep. do 2 (apply emits_bind; [apply emits_keeps; by intros ?|]; intros ?).
  destruct (height_ops _ _ _) as [hops written] eqn:Eh. apply emits_bind; [apply emits_keeps; by intros ?|]. intros ?.
  destruct (hops ++ _) as [|o ops] eqn:Eo; emits_tac; try done. unfold harmless. rewrite <- Eo.
  apply Forall_app. split.
  - unfold height_ops in Eh. destruct (rc_LatestBlockNumber c); [|by injection Eh as <- <-].
    destruct (_ =? _); injection Eh as <- <-; [done|]. apply Forall_singleton. intros cfg. apply height_key_spared.
  - apply Forall_forall. intros op (s & _ & Hop)%list_elem_of_omap cfg. unfold node_op in Hop.
    repeat case_match; simplify_eq; apply node_key_spared.
Qed.

Lemma notify_harmless k t r : emits harmless (checkAndNotify k t r).
Proof.
  pose proof wait_harmless as Hw. pose proof remove_harmless as Hr. pose proof write_harmless as Hwr.
  unfold checkAndNotify, get_rep. emits_tac; first [apply Hw|apply Hr|apply Hwr|done|idtac].
Qed.

(** Polling the replicas and recording them, in any chain and version, writes no leader key. *)
Theorem notify_spares_leader_key cfg k t r :
  emits (λ ev, ¬ writes_key (leader_key cfg) ev) (checkAndNotify k t r).
Proof. intros w. eapply extends_mono, notify_harmless. intros ev. apply harmless_spares. Qed.
End spared.
