(* ===== verification/Service.v ===== *)
(** * Service: the checker's state is well formed under every goroutine

    The goroutines of the service -- message processing, the scan worker, the version check,
    the watchdog of the lock -- take turns at the checker's state; a step is what one of
    them does while it holds the lock, or one access it makes without. *)
From S2P Require Import Prelude Types Config Json Store ScanState BlockIndex Checker Topics Validation Publish.
From S2P Require Import Nodes Replicas Align ForkScan Process Lock Leader.

(** Only the leader is aligned; the lock is the one of the configuration, with a lease, and
    is only held in version mode; an aligned checker keeps no notice of the singleton
    topic; the active batch is allocated. *)
Record checker_wf (c : Checker) : Prop := {
  wf_follower : etcdLock (pub c) = None → isOuterSingletonAlign (pub c) = false;
  wf_lock : ∀ l, etcdLock (pub c) = Some l → ∃ lease, l = set_lease lease (set_cancel true (lock_of (config c)));
  wf_mode : is_Some (etcdLock (pub c)) → IsVersionMode (config c) = true;
  wf_cached : isOuterSingletonAlign (pub c) = true → cachedOuterSingle (pub c) = None;
  wf_batch : ∀ p, forkBatch (scan c) = Some p → (p < length (batchHeap (scan c)))%nat
}.

Section steps.
Context `{Pebble} `{HashText} `{JsonText} `{Rlp} `{BigText}.

(** The requests made without the checker's lock: those of the scan worker outside its
    fences, of the watchdog's ticker, of the loops of [Run] and of the version check. *)
Definition unlocked_request {A} (r : req A) : Prop :=
  match r with
  | RKafkaWrite _ _ | REtcdTxn _ | RGrant _ | RLockTxn _ _ _ _ | RRevoke _ => False
  | _ => True
  end.

Inductive service_step : World → World → Prop :=
  | step_process w notice timings position r w' :
      processNotice notice timings position w = (r, w') → service_step w w'
  | step_notify w r w' : CheckAndNotifyEtcd w = (r, w') → service_step w w'
  | step_lead w r w' : IsVersionMode (config (w_chk w)) = true →
      ChangeToChainLeader w = (r, w') → service_step w w'
  | step_revoke w w' : RevokeChainLeader w = (tt, w') → service_step w w'
  | step_lease_lost w lease w' : lease_lost lease w = (tt, w') → service_step w w'
  | step_observe w r w' : observeForkScan w = (r, w') → service_step w w'
  | step_begin w upper generation r w' : beginForkScanBatch upper generation w = (r, w') → service_step w w'
  | step_finish w c p checked r w' : finishForkScanBatch c p checked w = (r, w') → service_step w w'
  | step_request w A (req : req A) a w' : unlocked_request req → call req w = (a, w') → service_step w w'.

(** [preserves I m]: the invariant [I] of the checker is one of the operation. *)
Definition preserves (I : Checker → Prop) {A} (m : M A) : Prop := ∀ w, I (w_chk w) → I (w_chk (m w).2).

Section rules.
Context (I : Checker → Prop).
Lemma preserves_ret {A} (a : A) : preserves I (ret a).
Proof. by intros w. Qed.
Lemma preserves_asks {A} (g : World → A) : preserves I (asks g).
Proof. by intros w. Qed.
Lemma preserves_call {A} (r : req A) : preserves I (call r).
Proof. by intros w. Qed.
Lemma preserves_db {A} (f : ConsistencyDB → A * ConsistencyDB) : preserves I (with_db f).
Proof. intros w. unfold with_db. by destruct (f (w_db w)). Qed.
Lemma preserves_bind {A B} (m : M A) (k : A → M B) :
  preserves I m → (∀ a, preserves I (k a)) → preserves I (bind m k).
Proof. intros Hm Hk w Hw. unfold bind. specialize (Hm w Hw). destruct (m w) as [a w']. by apply Hk. Qed.
Lemma preserves_loopM {S R} p (body : S → M (S + R)) s : (∀ s, preserves I (body s)) → preserves I (loopM p body s).
Proof.
  intros Hb w Hw. pose proof (wp_loopM body (λ _ w, I (w_chk w)) (λ _ w, I (w_chk w))) as Hl.
  specialize (Hl (λ s w Hw, ltac:(specialize (Hb s w Hw); unfold wp; by destruct (body s w) as [[] ?])) p s w Hw).
  unfold wp in Hl. by destruct (loopM p body s w) as [[] ?].
Qed.
Lemma preserves_keeps {A} (m : M A) : keeps w_chk m → preserves I m.
Proof. intros Hm w Hw. by rewrite Hm. Qed.
Lemma preserves_wp {A} (m : M A) w : preserves I m → I (w_chk w) → wp m (λ _ w', I (w_chk w')) w.
Proof. intros Hm. apply Hm. Qed.
End rules.
End steps.

Create HintDb preserves discriminated.
#[export] Hint Resolve preserves_ret preserves_asks preserves_call preserves_db preserves_bind : preserves.

(** As [keeps_tac]. *)
Ltac preserves_tac :=
  repeat lazymatch goal with
  | |- preserves _ (bind _ _) => apply preserves_bind; [|intros ?]
  | |- preserves _ (loopM _ _ _) => apply preserves_loopM; intros ?
  | |- preserves _ (when ?b _) => destruct b; unfold when
  | |- preserves _ (match ?x with _ => _ end) => destruct x
  | |- preserves _ _ => solve [auto 2 with preserves]
  end.

Section wf.
Context `{Pebble} `{HashText} `{JsonText} `{Rlp} `{BigText}.
Notation wf := checker_wf.

Lemma wf_rep f : preserves wf (modify_rep f).
Proof. intros w []. by split. Qed.
Lemma wf_delivered f : preserves wf (modify_pub (λ p, set_delivered (f p) p)).
Proof. intros w []. by split. Qed.
(** Of the scanner's part only the batch matters. *)
Lemma wf_scan f : (∀ r, forkBatch (f r) = forkBatch r ∧ length (batchHeap (f r)) = length (batchHeap r)) →
  preserves wf (modify_scan f).
Proof.
  intros Hf w []. split; try done. simpl. intros p. destruct (Hf (scan (w_chk w))) as [-> ->]. auto.
Qed.
Lemma wf_rewind h g : preserves wf (rewindForkScan h g).
Proof.
  apply wf_scan. intros r. unfold rewind_scan. simpl. destruct (forkBatch r) as [p|] eqn:E; [|done]. simpl.
  by rewrite length_alter.
Qed.
#[local] Hint Resolve wf_rep wf_rewind : preserves.
#[local] Hint Extern 1 (preserves wf (modify_scan _)) => apply wf_scan; done : preserves.

Lemma wf_save s : preserves wf (saveForkScan s).
Proof. unfold saveForkScan, get_config. preserves_tac. Qed.
#[local] Hint Resolve wf_save : preserves.
Lemma wf_initialize a p : preserves wf (initializeForkScan a p).
Proof. unfold initializeForkScan, get_scan. preserves_tac. Qed.
#[local] Hint Resolve wf_initialize : preserves.
Lemma wf_prepare n p : preserves wf (prepareForkScan n p).
Proof. unfold prepareForkScan, reconcileForkScanReplay, get_config, get_scan, get_pub, get_store. preserves_tac. Qed.
Lemma wf_finish p : preserves wf (finishForkScan p).
Proof. unfold finishForkScan, get_config, get_scan, get_pub. preserves_tac. Qed.
Lemma wf_write l pf : preserves wf (writeBlockInfoToDB l pf).
Proof. unfold writeBlockInfoToDB, get_config, get_scan. preserves_tac. Qed.
#[local] Hint Resolve wf_prepare wf_finish wf_write : preserves.

Lemma wf_observe : preserves wf observeForkScan.
Proof. unfold observeForkScan, get_config, get_scan. preserves_tac. Qed.
Lemma wf_begin upper generation : preserves wf (beginForkScanBatch upper generation).
Proof.
  unfold beginForkScanBatch, get_scan. preserves_tac.
  intros w []. split; try done. simpl. intros p [= <-]. rewrite length_app. simpl. lia.
Qed.
Lemma wf_finish_batch c p checked : preserves wf (finishForkScanBatch c p checked).
Proof.
  unfold finishForkScanBatch, get_batch, get_scan. 
  assert (∀ l n, preserves wf (verify_checked p l n)) as Hv.
  { intros l. induction l as [|[h x] l IH]; intros n; cbn [verify_checked]; [auto with preserves|].
    unfold verifyForkScanBatchHeight, readScanCanonical, get_store, get_batch, get_scan. preserves_tac. }
  assert (preserves wf (modify_scan (λ r, set_batch None (batchHeap r) r))) as Hnone.
  { intros w []. by split. }
  assert (preserves wf (ctxErr c)) as Hc by (unfold ctxErr; destruct c; auto with preserves).
  preserves_tac.
Qed.

(** The steps of the processing goroutine. *)
Lemma wf_surface {A} (m : M A) : keeps surface m → preserves wf m.
Proof.
  intros Hm w Hw. specialize (Hm w). unfold surface in Hm. injection Hm as _ Hc _ _. by rewrite Hc.
Qed.
#[local] Hint Resolve wf_observe wf_begin wf_finish_batch : preserves.

Lemma wf_check_nodes ns k t : preserves wf (check_nodes ns k t).
Proof. induction ns as [|n ns IH]; cbn [check_nodes]; unfold Node_Check, EthBlockNumber; preserves_tac. Qed.
#[local] Hint Resolve wf_check_nodes : preserves.
Lemma wf_notify k t r : preserves wf (checkAndNotify k t r).
Proof.
  unfold checkAndNotify, get_rep, waitReplicasReady, get_config.
  unfold wait_round, check, CheckAll, get_config, RemoveOfflineNodesFromEtcd, WriteReplicaStateChangeToEtcd, get_config, get_rep.
  preserves_tac.
Qed.

Lemma wf_publish dropBlocks newBlocks timings : preserves wf (publishNotice dropBlocks newBlocks timings).
Proof.
  intros w []. pose proof (publishNotice_frame dropBlocks newBlocks timings w) as Hf. unfold wp in Hf.
  destruct Hf as ([_ _ Hc _ Hs Hl Ha Hn _] & _). split; rewrite ?Hc, ?Hs, ?Hl, ?Ha, ?Hn; auto.
Qed.
Lemma wf_begin_notice n t : preserves wf (beginNotice n t).
Proof. intros w []. unfold beginNotice, modify_pub, modify_chk. simpl. destruct (decide _); by split. Qed.
#[local] Hint Resolve wf_notify wf_publish wf_begin_notice : preserves.

Notation cached w := (cachedOuterSingle (pub (w_chk w))).
Notation flag w := (isOuterSingletonAlign (pub (w_chk w))).

(** The alignment ends with the flag and the cached notice as they were, or not aligned, or
    aligned without a cached notice. *)
Lemma align_again_flags latest w :
  wp (align_again latest) (λ _ w', flag w = false → flag w' = true → cached w' = None) w.
Proof.
  unfold align_again. apply wp_bind. unfold wp at 1. pose proof (fetch_keeps w) as Hk.
  destruct (fetchLatestOuterSingleBlockNotice w) as [[[single|]|e] w2]; simpl in Hk |- *;
    [|unfold wp; simpl; rewrite ?Hk; congruence..].
  apply wp_bind. unfold wp at 1. simpl. set (w3 := mkWorld _ _ _ _). apply wp_bind. unfold wp at 1.
  pose proof (align_keeps latest single w3) as Hkeep.
  destruct (align latest single w3) as [[[]|e] w4]; simpl in Hkeep |- *; [done|].
  apply wp_ret. rewrite Hkeep. simpl. rewrite Hk. congruence.
Qed.

Lemma align_flags w : wp AlignOuterSingleton (λ _ w', 
  (flag w = true → cached w = None) → flag w' = true → cached w' = None) w.
Proof.
  unfold AlignOuterSingleton. apply wp_bind. unfold wp at 1, get_pub, asks. simpl.
  destruct (etcdLock _) as [l|]; [|by apply wp_ret]. destruct (flag w) eqn:Hfl; [apply wp_ret; auto|].
  destruct (latestOuter _) as [latest|]; [|apply wp_ret; congruence].
  apply wp_bind. destruct (cached w) as [n|] eqn:Hca.
  - apply wp_ret. destruct (_ <? _); [apply wp_ret; congruence|].
    eapply wp_mono; [apply align_again_flags|]. auto.
  - apply wp_bind. unfold wp at 1. pose proof (fetch_keeps w) as Hk.
    destruct (fetchLatestOuterSingleBlockNotice w) as [[[n|]|e] w1]; simpl in Hk |- *.
    + apply wp_bind. unfold wp at 1. simpl. apply wp_ret. destruct (_ <? _).
      * apply wp_ret. simpl. rewrite Hk. congruence.
      * eapply wp_mono; [apply align_again_flags|]. simpl. rewrite Hk. auto.
    + apply wp_bind. unfold wp at 1. simpl. do 2 apply wp_ret. simpl. by rewrite Hk.
    + do 2 apply wp_ret. rewrite Hk. congruence.
Qed.

Lemma wf_align : preserves wf AlignOuterSingleton.
Proof.
  intros w []. pose proof (aligned_eq w) as Ha. pose proof (align_flags w) as Hf. unfold wp in *.
  destruct (etcdLock (pub (w_chk w))) as [l|] eqn:El.
  - destruct Ha as [Hc _ _ Hl _ _ Hs]. split; rewrite ?Hc, ?Hl, ?Hs, ?El; auto. done.
  - unfold AlignOuterSingleton, bind, get_pub, asks in *. rewrite El in *. simpl. by split; rewrite ?El.
Qed.
#[local] Hint Resolve wf_align : preserves.
#[local] Hint Extern 1 (preserves wf (prefetchNewBlocks _)) => apply wf_surface, quiet_prefetch : preserves.
#[local] Hint Extern 1 (preserves wf (rewriteDropBlocks _)) => apply wf_surface, quiet_drops : preserves.
#[local] Hint Extern 1 (preserves wf (rewriteForkBlocksAtSameHeight _ _)) => apply wf_surface, quiet_same_height : preserves.
#[local] Hint Resolve wf_prepare wf_finish wf_write : preserves.

Lemma wf_process notice timings position : preserves wf (processNotice notice timings position).
Proof.
  unfold processNotice, align_and_finish, publish_steps, get_pub, get_config. preserves_tac.
Qed.

(** The steps of the leadership. *)
Lemma wf_revoke : preserves wf RevokeChainLeader.
Proof.
  intros w Hw. unfold RevokeChainLeader, bind, get_pub, asks. destruct (etcdLock (pub (w_chk w))) as [l|]; [|done].
  pose proof (release_spec l w) as Hr. unfold wp in Hr. destruct (Release l w) as [l' w']. simpl in *.
  assert (w_chk w' = w_chk w) as Hc.
  { destruct Hr as [_ Hr]. destruct (_ =? 0); [by subst|]. destruct Hr as [a ->]. done. }
  destruct Hw. split; simpl; rewrite ?Hc; try done.
Qed.
Lemma wf_lease_lost lease : preserves wf (lease_lost lease).
Proof.
  intros [e [cf p r s] db h] Hw. simpl in *. destruct (etcdLock p) as [l|] eqn:El; [|done].
  destruct (_ =? _); [|done]. destruct Hw as [Hf Hl Hm Hc Hb]. simpl in *. destruct (Hl l El) as [lease' ->].
  split; simpl; try done.
  - intros l [= <-]. by exists 0.
  - intros _. apply Hm. by rewrite El.
Qed.
Lemma wf_lead w : IsVersionMode (config (w_chk w)) = true → wf (w_chk w) →
  wf (w_chk (ChangeToChainLeader w).2).
Proof.
  intros Hm Hw. unfold ChangeToChainLeader, bind, get_pub, get_config, asks.
  destruct (etcdLock (pub (w_chk w))) as [l|] eqn:El; [done|].
  pose proof (acquire_spec (lock_of (config (w_chk w))) w) as Ha. unfold wp in Ha.
  pose proof (acquire_keeps (lock_of (config (w_chk w))) w) as Hk.
  destruct (Acquire (lock_of (config (w_chk w))) w) as [[ok l'] w'] eqn:Er. simpl in Ha, Hk |- *.
  destruct ok as [[]|]; simpl; rewrite ?Hk; [|done..].
  destruct (Ha true l' eq_refl) as (new & _ & _ & [(? & ? & _)|(lease & _ & Hl & _)]); [done|]. simpl in Hl. subst l'.
  destruct Hw as [Hf Hl Hmo Hca Hb]. split; simpl; try done. intros l [= <-]. by exists lease.
Qed.

(** *** The start *)
Lemma wf_load : preserves wf loadForkScan.
Proof. unfold loadForkScan, get_config, get_store, get_pub, get_scan. preserves_tac. Qed.
Lemma config_load w : config (w_chk (loadForkScan w).2) = config (w_chk w).
Proof.
  enough (keeps (λ w, config (w_chk w)) loadForkScan) as Hk by apply Hk.
  unfold loadForkScan, get_config, get_store, get_pub, get_scan. keeps_tac; by intros ?.
Qed.

Lemma wf_new cfg w : wp (NewChecker cfg) (λ r w', r = Some (Ok tt) → wf (w_chk w')) w.
Proof.
  unfold NewChecker. destruct (Validate cfg); [by apply wp_ret|]. apply wp_bind. unfold wp at 1.
  destruct (open_parts w) as [[[]|e] w1]; [|done]. apply wp_bind. unfold wp at 1. simpl. set (w2 := mkWorld _ _ _ _).
  assert (keeps w_chk (GetLastOuterBlockNotice (if IsVersionMode cfg then outerVersion else outerSingleton))) as Hg
    by (unfold GetLastOuterBlockNotice; keeps_tac).
  specialize (Hg w2). apply wp_bind. unfold wp at 1.
  destruct (GetLastOuterBlockNotice _ w2) as [[notice|e] w3]; [|done]. simpl in Hg |- *.
  apply wp_bind. unfold wp at 1. simpl. set (w4 := mkWorld _ _ _ _).
  assert (wf (w_chk w4)) as Hw4 by (unfold w4; simpl; rewrite Hg; split; try done; by intros []).
  pose proof (wf_load w4 Hw4) as Hl. pose proof (config_load w4) as Hcf. apply wp_bind. unfold wp at 1.
  destruct (loadForkScan w4) as [[[]|e] w5]; [|done]. simpl in *.
  destruct (IsVersionMode cfg) eqn:Em; [|by apply wp_ret].
  unfold InitLeaderFromEtcd. apply wp_bind. unfold wp at 1. simpl. apply wp_call. intros [[v|]|e] _; [|by intros _|by intros].
  destruct (bool_decide _); [|by intros _]. intros _. apply wf_lead; [|done]. simpl. by rewrite Hcf, Hg.
Qed.

Lemma wf_check_notify : preserves wf CheckAndNotifyEtcd.
Proof. unfold CheckAndNotifyEtcd, get_config, get_rep. preserves_tac. Qed.

Lemma service_step_wf w w' : service_step w w' → wf (w_chk w) → wf (w_chk w').
Proof.
  intros Hs Hw. destruct Hs as [w notice timings position r w' Hr|w r w' Hr|w r w' Hm Hr|w w' Hr|w lease w' Hr|w r w' Hr|
    w upper generation r w' Hr|w c p checked r w' Hr|w A q a w' _ Hr]; apply (f_equal snd) in Hr; simpl in Hr; subst w'.
  - by apply wf_process.
  - by apply wf_check_notify.
  - by apply wf_lead.
  - by apply wf_revoke.
  - by apply wf_lease_lost.
  - by apply wf_observe.
  - by apply wf_begin.
  - by apply wf_finish_batch.
  - done.
Qed.

(** (C14) The state of a running service is well formed: whatever the goroutines do, and in
    any order, the checker is aligned only while it leads, leads only in version mode with
    the lock of its configuration, keeps no notice of the singleton topic once aligned,
    and its active scan batch exists. *)
Theorem service_well_formed cfg w0 w1 w2 :
  NewChecker cfg w0 = (Some (Ok tt), w1) → rtc service_step w1 w2 → wf (w_chk w2).
Proof.
  intros Hn Hr. pose proof (wp_run _ _ _ _ _ (wf_new cfg w0) Hn eq_refl) as Hw. clear Hn.
  induction Hr as [w|w w' w'' Hs _ IH]; [done|]. by eapply IH, service_step_wf.
Qed.
End wf.

(** ** Witnesses *)
Module ServiceDemo.
#[local] Existing Instances mem_pebble demo_rlp demo_hash_text demo_json_text ProcessDemo.demo_big_text.
(** The version key has the version of the configuration. *)
Definition e : env := λ A h r,
  match r in req A return A with
  | REtcdGet _ => Ok (Some "v1")
  | r => Sim.sim_env Sim.quiet _ h r
  end.
Definition cfg : Config := Sim.versionConfig "v1".
Definition w0 : World := mkWorld e (Sim.checker0 Sim.legacyConfig) (mkCDB mem_empty None) [].
Definition w1 : World := (NewChecker cfg w0).2.
End ServiceDemo.

Section service_witnesses.
#[local] Existing Instances mem_pebble demo_rlp demo_hash_text demo_json_text ProcessDemo.demo_big_text.
Import ServiceDemo.

Lemma service_well_formed_witness :
  checker_wf (w_chk (RevokeChainLeader w1).2) ∧ is_Some (etcdLock (pub (w_chk w1))).
Proof.
  split; [|exists (set_lease 1 (set_cancel true (lock_of cfg))); vm_compute; reflexivity].
  assert (Hn : NewChecker cfg w0 = (Some (Ok tt), w1)) by (apply run_eq; vm_compute; reflexivity).
  apply (service_well_formed cfg w0 w1 (RevokeChainLeader w1).2 Hn).
  apply rtc_once, step_revoke. destruct (RevokeChainLeader w1) as [[] w']. reflexivity.
Defined.
End service_witnesses.
