(* ===== verification/Cluster.v ===== *)
(** * Cluster: one writer of the singleton topic

    The members of a cluster -- services of any chains, versions and modes, that start,
    run, crash at any point and start again -- and one etcd server.  What the members do
    themselves keeps the leader key to its lock, so the laws of the server give one
    leader per chain, and only a leader writes to the singleton topic. *)
From S2P Require Import Prelude Types Config Json Store ScanState BlockIndex Checker Topics Validation Publish.
From S2P Require Import Nodes Replicas Align ForkScan Process Lock Leader Service.

(** A write to the singleton topic, acknowledged or not. *)
Definition writes_singleton (ev : event) : Prop :=
  match ev with Ev _ r _ => match r with RKafkaWrite outerSingleton _ => True | _ => False end end.

(** The configuration and the lock of a checker. *)
Definition leadership `{Pebble} (w : World) : Config * option EtcdLock :=
  (config (w_chk w), etcdLock (pub (w_chk w))).

(** A member of a version that holds no lock. *)
Definition follower (c : Config * option EtcdLock) : Prop := IsVersionMode c.1 = true ∧ c.2 = None.

(** What a member with this leadership may ask for: no transaction of its own writes a
    leader key, and a follower does not write to the singleton topic. *)
Definition allowed (c : Config * option EtcdLock) (ev : event) : Prop :=
  (∀ cfg, ¬ writes_key (leader_key cfg) ev) ∧ (follower c → ¬ writes_singleton ev).

Section ruled.
Context `{Pebble} `{HashText} `{JsonText} `{Rlp} `{BigText}.

(** The operation keeps the leadership, and all it asks for is allowed under it. *)
Definition ruled {A} (m : M A) : Prop := ∀ w,
  leadership (m w).2 = leadership w ∧
  extends (allowed (leadership w)) (effects (w_hist w)) (effects (w_hist (m w).2)).

Lemma ruled_bind {A B} (m : M A) (k : A → M B) : ruled m → (∀ a, ruled (k a)) → ruled (bind m k).
Proof.
  intros Hm Hk w. unfold bind. specialize (Hm w). destruct (m w) as [a w1]. destruct Hm as [Hl1 He1].
  destruct (Hk a w1) as [Hl2 He2]. simpl in *. rewrite Hl1 in Hl2, He2. split; [done|]. by eapply extends_trans.
Qed.
Lemma ruled_ret {A} (a : A) : ruled (ret a).
Proof. intros w. split; [done|apply extends_refl]. Qed.
Lemma ruled_asks {A} (g : World → A) : ruled (asks g).
Proof. intros w. split; [done|apply extends_refl]. Qed.
Lemma ruled_loopM {S R} p (body : S → M (S + R)) s : (∀ s, ruled (body s)) → ruled (loopM p body s).
Proof.
  intros Hb. revert s. induction p as [p IH|p IH|]; intros s; unfold loopM; fold (@loopM _ S R); [| |apply Hb];
    repeat (apply ruled_bind; [auto|intros []; auto using ruled_ret]).
Qed.

Lemma extends_effects P h h' : extends P h h' → extends P (effects h) (effects h').
Proof.
  intros (new & -> & Hf). exists (effects new). unfold effects. rewrite filter_app. split; [done|].
  apply Forall_forall. intros ev [_ Hin]%list_elem_of_filter. by rewrite Forall_forall in Hf; apply Hf.
Qed.
(** From the two halves of the claim. *)
Lemma ruled_emits {A} (m : M A) : keeps leadership m →
  (∀ w, extends (allowed (leadership w)) (w_hist w) (w_hist (m w).2)) → ruled m.
Proof. intros Hk He w. split; [apply Hk|]. by apply extends_effects. Qed.
Lemma ruled_quiet {A} (m : M A) : keeps surface m → ruled m.
Proof.
  intros Hm w. specialize (Hm w). unfold surface in Hm. injection Hm as _ Hc _ Hx. unfold leadership.
  rewrite Hc, Hx. split; [done|apply extends_refl].
Qed.

Lemma harmless_allowed c ev : harmless ev → allowed c ev.
Proof.
  intros He. split; [intros cfg; by apply harmless_spares|]. intros _.
  destruct ev as [A r a]. destruct r; simpl in *; by auto.
Qed.
Lemma ruled_harmless {A} (m : M A) : keeps leadership m → emits harmless m → ruled m.
Proof. intros Hk He. apply ruled_emits; [done|]. intros w. eapply extends_mono, He. apply harmless_allowed. Qed.

Lemma ruled_call {A} (r : req A) : (∀ a, harmless (Ev A r a)) → ruled (call r).
Proof. intros Hr. apply ruled_emits; [by intros w|]. intros w. by apply extends_one, harmless_allowed. Qed.
Lemma ruled_still {A} (m : M A) : keeps leadership m → keeps w_hist m → ruled m.
Proof. intros Hl Hh. apply ruled_emits; [done|]. intros w. rewrite Hh. apply extends_refl. Qed.
Lemma ruled_scan f : ruled (modify_scan f).
Proof. by apply ruled_still; intros w. Qed.
Lemma ruled_rep f : ruled (modify_rep f).
Proof. by apply ruled_still; intros w. Qed.
Lemma ruled_pub f : (∀ p, etcdLock (f p) = etcdLock p) → ruled (modify_pub f).
Proof. intros Hf. apply ruled_still; intros w; [|done]. unfold leadership. simpl. by rewrite Hf. Qed.
Lemma ruled_db {A} (f : ConsistencyDB → A * ConsistencyDB) : ruled (with_db f).
Proof. apply ruled_still; intros w; unfold with_db; by destruct (f (w_db w)). Qed.
End ruled.

Create HintDb ruled discriminated.
#[export] Hint Resolve ruled_ret ruled_asks ruled_scan ruled_rep ruled_db : ruled.
#[export] Hint Extern 1 (ruled (call _)) => apply ruled_call; done : ruled.
#[export] Hint Extern 1 (ruled (modify_pub _)) => apply ruled_pub; done : ruled.

(** As [keeps_tac]. *)
Ltac ruled_tac :=
  repeat lazymatch goal with
  | |- ruled (bind _ _) => apply ruled_bind; [|intros ?]
  | |- ruled (loopM _ _ _) => apply ruled_loopM; intros ?
  | |- ruled (when ?b _) => destruct b; unfold when
  | |- ruled (match ?x with _ => _ end) => destruct x
  | |- ruled _ => solve [auto 2 with ruled]
  end.

(** ** The operations are ruled *)
Section operations.
Context `{Pebble} `{HashText} `{JsonText} `{Rlp} `{BigText}.

(** *** The scanner under the lock *)
Lemma ruled_save s : ruled (saveForkScan s).
Proof. unfold saveForkScan, get_config. ruled_tac. Qed.
#[local] Hint Resolve ruled_save : ruled.
Lemma ruled_initialize a p : ruled (initializeForkScan a p).
Proof. unfold initializeForkScan, get_scan, rewindForkScan. ruled_tac. Qed.
#[local] Hint Resolve ruled_initialize : ruled.
Lemma ruled_prepare n p : ruled (prepareForkScan n p).
Proof. unfold prepareForkScan, reconcileForkScanReplay, get_config, get_scan, get_pub, get_store, rewindForkScan. ruled_tac. Qed.
Lemma ruled_finish p : ruled (finishForkScan p).
Proof. unfold finishForkScan, get_config, get_scan, get_pub. ruled_tac. Qed.
Lemma ruled_write l pf : ruled (writeBlockInfoToDB l pf).
Proof. unfold writeBlockInfoToDB, get_config, get_scan, rewindForkScan. ruled_tac. Qed.
Lemma ruled_observe : ruled observeForkScan.
Proof. unfold observeForkScan, get_config, get_scan. ruled_tac. Qed.
Lemma ruled_begin upper generation : ruled (beginForkScanBatch upper generation).
Proof. unfold beginForkScanBatch, get_scan. ruled_tac. Qed.
Lemma ruled_finish_batch c p checked : ruled (finishForkScanBatch c p checked).
Proof.
  unfold finishForkScanBatch, get_batch, get_scan, ctxErr.
  assert (∀ l n, ruled (verify_checked p l n)) as Hv.
  { intros l. induction l as [|[h x] l IH]; intros n; cbn [verify_checked]; [auto with ruled|].
    unfold verifyForkScanBatchHeight, readScanCanonical, get_store, get_batch, get_scan. ruled_tac. }
  ruled_tac.
Qed.
Lemma ruled_load : ruled loadForkScan.
Proof. unfold loadForkScan, get_config, get_store, get_pub, get_scan. ruled_tac. Qed.
#[local] Hint Resolve ruled_prepare ruled_finish ruled_write : ruled.

(** *** Publication and alignment *)
Lemma emits_writes c b ts : (follower c → outerSingleton ∉ ts) → emits (allowed c) (publish_writes b ts).
Proof.
  induction ts as [|d ts IH]; cbn [publish_writes]; intros Hc; emits_tac.
  - split; [by intros ? []|]. intros Hf. destruct d; [by intros []|]. specialize (Hc Hf). set_solver.
  - by apply harmless_allowed.
  - apply IH. intros Hf. specialize (Hc Hf). set_solver.
Qed.
Lemma ruled_marks key observe l : (∀ d t, ruled (observe d t)) → ruled (publish_marks key observe l).
Proof. intros Ho. induction l as [|[[d e] t] l IH]; cbn [publish_marks]; ruled_tac. Qed.
Lemma ruled_outer n observe : (∀ d t, ruled (observe d t)) → ruled (publishOuter n observe).
Proof.
  intros Ho w. unfold publishOuter, bind, get_config, get_pub, asks. cbv beta zeta iota. set (ts := base.filter _ _).
  assert (follower (leadership w) → outerSingleton ∉ ts) as Hts.
  { intros [Hm Hk] [_ Hin]%list_elem_of_filter. revert Hin. unfold targets. simpl in Hm, Hk.
    rewrite Hm, Hk. simpl. set_solver. }
  pose proof (emits_writes (leadership w) n ts Hts w) as He.
  assert (keeps leadership (publish_writes n ts)) as Hk.
  { clear. induction ts as [|t ts IH]; cbn [publish_writes]; keeps_tac; by intros ?. }
  specialize (Hk w). destruct (publish_writes n ts w) as [l w1]. simpl in *. clearbody ts.
  destruct (ruled_marks (notice_key n) observe l Ho w1) as [Hk2 He2]. rewrite Hk in Hk2, He2. split; [done|].
  eapply extends_trans; [by apply extends_effects|exact He2].
Qed.
Lemma ruled_latency b timings d t : ruled (observeBlockEndToEndLatency b timings d t).
Proof. unfold observeBlockEndToEndLatency. ruled_tac. Qed.
#[local] Hint Resolve ruled_latency : ruled.
Lemma ruled_publish dropBlocks newBlocks timings : ruled (publishNotice dropBlocks newBlocks timings).
Proof.
  unfold publishNotice. apply ruled_bind.
  - induction dropBlocks as [|x l IH]; cbn [WriteDropBlockNotice]; unfold get_config; [apply ruled_ret|].
    apply ruled_bind; [apply ruled_asks|]. intros cfg. apply ruled_bind; [apply ruled_outer; auto with ruled|].
    intros ok. ruled_tac.
  - intros ok. destruct ok; [|apply ruled_ret].
    induction newBlocks as [|x l IH]; cbn [WriteNewBlockNotice]; unfold get_config; [apply ruled_ret|].
    apply ruled_bind; [apply ruled_asks|]. intros cfg. apply ruled_bind; [apply ruled_outer; auto with ruled|].
    intros ok. ruled_tac.
Qed.

Lemma ruled_align : ruled AlignOuterSingleton.
Proof.
  intros w. split; [|apply extends_effects].
  { pose proof (aligned_keeps w) as Hk. unfold aligned_part in Hk. injection Hk as Hc _ Hl _ _ _ _.
    unfold leadership. by rewrite Hc, Hl. }
  destruct (etcdLock (pub (w_chk w))) as [l|] eqn:El.
  2: { unfold AlignOuterSingleton, bind, get_pub, asks. rewrite El. apply extends_refl. }
  eapply (extends_mono (λ ev, ∀ cfg, ¬ writes_key (leader_key cfg) ev)).
  { intros ev Hev. split; [done|]. intros [_ Hn]. unfold leadership in Hn. simpl in Hn. congruence. }
  enough (emits (λ ev, ∀ cfg, ¬ writes_key (leader_key cfg) ev) AlignOuterSingleton) as He by apply He. clear.
  assert (∀ ns, emits (λ ev, ∀ cfg, ¬ writes_key (leader_key cfg) ev) (write_singleton ns)) as Hw.
  { intros ns. induction ns as [|b ns IH]; cbn [write_singleton]; emits_tac; by intros ? []. }
  unfold AlignOuterSingleton, align_again, fetchLatestOuterSingleBlockNotice, GetLastOuterBlockNotice.
  unfold align, get_store, get_config, get_pub, GetCommonAncestor.
  unfold forward_step, lower_remote, walk_back, getVersionBlockByHash, get_store, get_config.
  emits_tac; try (by intros ? []); apply Hw.
Qed.

(** *** The processing goroutine *)
Lemma ruled_notify k t r : ruled (checkAndNotify k t r).
Proof.
  apply ruled_harmless; [|apply notify_harmless]. intros w. pose proof (published_notify k t r w) as Hk.
  unfold published in Hk. injection Hk as Hc Hp _ _ _. unfold leadership. by rewrite Hc, Hp.
Qed.
Lemma ruled_check_notify : ruled CheckAndNotifyEtcd.
Proof. unfold CheckAndNotifyEtcd, get_config, get_rep. pose proof ruled_notify. ruled_tac. Qed.
#[local] Hint Resolve ruled_notify ruled_publish ruled_align : ruled.
#[local] Hint Extern 1 (ruled (prefetchNewBlocks _)) => apply ruled_quiet, quiet_prefetch : ruled.
#[local] Hint Extern 1 (ruled (rewriteDropBlocks _)) => apply ruled_quiet, quiet_drops : ruled.
#[local] Hint Extern 1 (ruled (rewriteForkBlocksAtSameHeight _ _)) => apply ruled_quiet, quiet_same_height : ruled.
Lemma ruled_begin_notice n t : ruled (beginNotice n t).
Proof. apply ruled_pub. intros p. by case_decide. Qed.
#[local] Hint Resolve ruled_begin_notice : ruled.
Lemma ruled_process notice timings position : ruled (processNotice notice timings position).
Proof. unfold processNotice, align_and_finish, publish_steps, get_pub, get_config. ruled_tac. Qed.
End operations.

(** ** The life of a member

    [move b w b' w']: a process that runs ([b]) makes a step, or a process is started on
    what the one before it left: its history, and any memory and store.  A start that
    fails leaves no process. *)
Section life.
Context `{Pebble} `{HashText} `{JsonText} `{Rlp} `{BigText}.

Inductive move : bool → World → bool → World → Prop :=
  | move_step w w' : service_step w w' → move true w true w'
  | move_start b w w0 cfg r w' : w_hist w0 = w_hist w → NewChecker cfg w0 = (r, w') →
      move b w (bool_decide (r = Some (Ok tt))) w'.

(** A crash leaves any part of the requests of a move. *)
Inductive life : bool → World → Prop :=
  | life_new w : w_hist w = [] → life false w
  | life_move b w b' w' : life b w → move b w b' w' → life b' w'
  | life_crash b w b1 w1 w' : life b w → move b w b1 w1 →
      w_hist w `suffix_of` w_hist w' → w_hist w' `suffix_of` w_hist w1 → life false w'.

(** The requests by which the lock of a member got its lease. *)
Definition holds (w : World) (lease : Z) : Prop := ∃ ttl vk version,
  Ev _ (RGrant ttl) (Ok lease) ∈ effects (w_hist w) ∧
  Ev _ (RLockTxn (leader_key (config (w_chk w))) vk version lease) (Ok LockTaken) ∈ effects (w_hist w).
Definition sound (w : World) : Prop :=
  checker_wf (w_chk w) ∧ ∀ l, etcdLock (pub (w_chk w)) = Some l → l_lease l = 0 ∨ holds w (l_lease l).

Lemma holds_grows P w w' lease : extends P (effects (w_hist w)) (effects (w_hist w')) →
  config (w_chk w') = config (w_chk w) → holds w lease → holds w' lease.
Proof. intros (new & Hn & _) Hc (ttl & vk & v & Hg & Ht). exists ttl, vk, v. rewrite Hn, Hc. set_solver. Qed.

Lemma in_effects ev h : tracked ev = true → ev ∈ h → ev ∈ effects h.
Proof. intros. by apply list_elem_of_filter. Qed.

(** Every request of a step is allowed under the leadership at its start. *)
Notation obeys w w' := (extends (allowed (leadership w)) (effects (w_hist w)) (effects (w_hist w'))).

Lemma acquire_harmless l : emits harmless (Acquire l).
Proof. unfold Acquire, acquire_turn, Release. emits_tac; done. Qed.

Lemma lead_spec w : wp ChangeToChainLeader (λ _ w', config (w_chk w') = config (w_chk w) ∧
  extends harmless (w_hist w) (w_hist w') ∧ (etcdLock (pub (w_chk w')) = etcdLock (pub (w_chk w)) ∨
    ∃ l, etcdLock (pub (w_chk w')) = Some l ∧ holds w' (l_lease l))) w.
Proof.
  unfold ChangeToChainLeader. apply wp_bind. unfold wp at 1. simpl.
  destruct (etcdLock (pub (w_chk w))) as [l|] eqn:El.
  { apply wp_ret. split_and!; [done|apply extends_refl|by left]. }
  apply wp_bind. unfold wp at 1. simpl. set (l := lock_of (config (w_chk w))). apply wp_bind. unfold wp at 1.
  pose proof (acquire_keeps l w) as Hk. pose proof (acquire_harmless l w) as He.
  pose proof (acquired_events l w) as Ha. destruct (Acquire l w) as [[ok l'] w1]. simpl in Hk, He |- *.
  destruct ok as [[]|].
  2,3: apply wp_ret; rewrite Hk; split_and!; [done..|by left].
  apply wp_bind. unfold wp at 1. simpl. apply wp_ret. simpl. rewrite Hk. split_and!; [done..|]. right. exists l'.
  split; [done|]. destruct (Ha l' w1 eq_refl) as [Hg Ht]. exists (l_ttl l), (l_versionKey l), (l_version l).
  split; by apply in_effects.
Qed.

Lemma revoke_spec w : wp RevokeChainLeader (λ _ w', config (w_chk w') = config (w_chk w) ∧
  extends harmless (w_hist w) (w_hist w') ∧ etcdLock (pub (w_chk w')) = None) w.
Proof.
  unfold RevokeChainLeader. apply wp_bind. unfold wp at 1. simpl.
  destruct (etcdLock (pub (w_chk w))) as [l|] eqn:El.
  2: { apply wp_ret. split_and!; [done|apply extends_refl|done]. }
  apply wp_bind. eapply wp_mono; [apply release_spec|]. intros l' w1 [_ Hw].
  assert (w_chk w1 = w_chk w ∧ extends harmless (w_hist w) (w_hist w1)) as [Hc He].
  { destruct (_ =? _); [subst; split; [done|apply extends_refl]|]. destruct Hw as [a ->]. split; [done|by apply extends_one]. }
  apply wp_bind. unfold wp at 1. simpl. unfold wp. simpl. by rewrite Hc.
Qed.

Lemma harmless_obeys w w' : extends harmless (w_hist w) (w_hist w') → obeys w w'.
Proof. intros He. apply extends_effects. eapply extends_mono, He. apply harmless_allowed. Qed.

Lemma ruled_sound {A} (m : M A) w : ruled m → sound w → checker_wf (w_chk (m w).2) →
  sound (m w).2 ∧ obeys w (m w).2.
Proof.
  intros Hm [_ Hs] Hwf. destruct (Hm w) as [Hl He]. split; [|done]. split; [done|]. intros l Hlk.
  unfold leadership in Hl. injection Hl as Hc Hk. destruct (Hs l ltac:(congruence)) as [?|?]; [by left|right].
  by eapply holds_grows.
Qed.

(** A step of a running member. *)
Lemma step_sound w w' : service_step w w' → sound w → sound w' ∧ obeys w w'.
Proof.
  intros Hst Hs. pose proof (service_step_wf _ _ Hst (proj1 Hs)) as Hwf. pose proof (proj2 Hs) as Hh.
  destruct Hst as [w notice timings position r w' Hr|w r w' Hr|w r w' Hm Hr|w w' Hr|w lease w' Hr|w r w' Hr|
    w upper generation r w' Hr|w c p checked r w' Hr|w A q a w' Hu Hr].
  3: { destruct (wp_run _ _ _ _ _ (lead_spec w) Hr) as (Hc & He & Hl). apply harmless_obeys in He.
       split; [split; [done|]|done]. intros l Hlk. destruct Hl as [Hl|(l' & Hl & Ho)].
       - rewrite Hl in Hlk. destruct (Hh l Hlk) as [?|?]; [by left|right; by eapply holds_grows].
       - right. congruence. }
  3: { destruct (wp_run _ _ _ _ _ (revoke_spec w) Hr) as (Hc & He & Hl). apply harmless_obeys in He.
       split; [split; [done|congruence]|done]. }
  3: { injection Hr as <-. split; [|apply extends_refl]. split; [done|]. simpl. intros l.
       destruct (etcdLock (pub (w_chk w))) as [l0|] eqn:El; [|congruence].
       destruct (_ =? _); simpl; [intros [= <-]; by left|]. rewrite El. intros [= <-]. by apply Hh. }
  all: apply (f_equal snd) in Hr; simpl in Hr; subst w'.
  - by apply ruled_sound, Hwf; [apply ruled_process|].
  - by apply ruled_sound, Hwf; [apply ruled_check_notify|].
  - by apply ruled_sound, Hwf; [apply ruled_observe|].
  - by apply ruled_sound, Hwf; [apply ruled_begin|].
  - by apply ruled_sound, Hwf; [apply ruled_finish_batch|].
  - apply (ruled_sound (call q) w); [|done|done]. apply ruled_call. intros b. by destruct q.
Qed.

Lemma open_harmless l : emits harmless (open_all l).
Proof. induction l as [|part l IH]; cbn [open_all]; emits_tac; done. Qed.
Lemma open_parts_harmless : emits harmless open_parts.
Proof. unfold open_parts, open_db. emits_tac; try done; [intros w; unfold with_db; case_match; apply extends_refl|apply open_harmless]. Qed.
Lemma load_silent : keeps w_hist loadForkScan.
Proof. unfold loadForkScan, get_config, get_store, get_pub, get_scan. keeps_tac; by intros ?. Qed.

(** The start: the checker before the leadership has no lock. *)
Lemma start_spec cfg w : wp (NewChecker cfg) (λ r w', extends harmless (w_hist w) (w_hist w') ∧
  (r = Some (Ok tt) → sound w')) w.
Proof.
  enough (wp (NewChecker cfg) (λ r w', extends harmless (w_hist w) (w_hist w') ∧ (r = Some (Ok tt) →
    ∀ l, etcdLock (pub (w_chk w')) = Some l → l_lease l = 0 ∨ holds w' (l_lease l))) w) as Hw.
  { pose proof (wf_new cfg w) as Hwf. unfold wp, sound in *. destruct Hw. by auto. }
  unfold NewChecker. destruct (Validate cfg); [apply wp_ret; split; [apply extends_refl|done]|].
  apply wp_bind. unfold wp at 1. pose proof (open_parts_harmless w) as Ho.
  destruct (open_parts w) as [[[]|e] w1]; [|done]. simpl in Ho. apply wp_bind. unfold wp at 1. simpl. set (w2 := mkWorld _ _ _ _).
  set (topic := if IsVersionMode cfg then _ else _).
  assert (keeps w_chk (GetLastOuterBlockNotice topic) ∧ emits harmless (GetLastOuterBlockNotice topic)) as [Hk He]
    by (unfold GetLastOuterBlockNotice; split; [keeps_tac|emits_tac; done]).
  specialize (Hk w2). specialize (He w2). apply wp_bind. unfold wp at 1.
  destruct (GetLastOuterBlockNotice topic w2) as [[notice|e] w3]; simpl in Hk, He |- *;
    [|split; [by eapply extends_trans|done]].
  apply wp_bind. unfold wp at 1. simpl. set (w4 := mkWorld _ _ _ _).
  assert (extends harmless (w_hist w) (w_hist w4)) as H4 by (by eapply extends_trans).
  pose proof (load_silent w4) as Hh. destruct (ruled_load w4) as [Hl _]. apply wp_bind. unfold wp at 1.
  destruct (loadForkScan w4) as [[[]|e] w5]; simpl in Hh, Hl |- *; [|split; [simpl; by rewrite Hh|done]].
  assert (etcdLock (pub (w_chk w5)) = None) as Hn by (injection Hl as _ ->; unfold w4; simpl; by rewrite Hk).
  destruct (IsVersionMode cfg); [|apply wp_ret; split; [by rewrite Hh|congruence]].
  unfold InitLeaderFromEtcd. apply wp_bind. unfold wp at 1. simpl. apply wp_call.
  assert (∀ a, extends harmless (w_hist w) (Ev _ (REtcdGet (version_key (config (w_chk w5)))) a :: w_hist w5)) as H5
    by (intros a; apply extends_cons; [done|by rewrite Hh]).
  intros [[v|]|e] _; [|by split; [apply H5|simpl; congruence]..].
  destruct (bool_decide _); [|by split; [apply H5|simpl; congruence]].
  eapply wp_mono; [apply lead_spec|]. intros r w' (_ & Hex & Hlk). split; [by eapply extends_trans; [apply H5|exact Hex]|].
  intros _ l Hl'. destruct Hlk as [Hlk|(l' & Hl2 & Ho')]; [simpl in Hlk; congruence|]. right. congruence.
Qed.
End life.

Section invariant.
Context `{Pebble} `{HashText} `{JsonText} `{Rlp} `{BigText}.

(** No transaction of a member writes a leader key. *)
Definition spared (h : list event) : Prop := Forall (λ ev, ∀ cfg, ¬ writes_key (leader_key cfg) ev) (effects h).

Lemma spared_extends P h h' : (∀ ev, P ev → ∀ cfg, ¬ writes_key (leader_key cfg) ev) → spared h →
  extends P (effects h) (effects h') → spared h'.
Proof.
  intros HP Hs (new & Hn & Hf). unfold spared. rewrite Hn. apply Forall_app. split; [|done]. by eapply Forall_impl.
Qed.
Lemma spared_suffix h h' : h `suffix_of` h' → spared h' → spared h.
Proof. intros [new ->] Hs. unfold spared, effects in *. rewrite filter_app in Hs. by apply Forall_app in Hs as [_ ?]. Qed.

Lemma move_sound b w b' w' : move b w b' w' → (b = true → sound w) → spared (w_hist w) →
  (b' = true → sound w') ∧ spared (w_hist w').
Proof.
  intros [w1 w2 Hst|b1 w1 w0 cfg r w2 Hh Hr] Hb Hsp.
  - destruct (step_sound _ _ Hst (Hb eq_refl)) as [Hs He]. split; [done|].
    eapply spared_extends; [|exact Hsp|exact He]. by intros ev [? _].
  - destruct (wp_run _ _ _ _ _ (start_spec cfg w0) Hr) as [He Hs]. split.
    + intros Hd. apply Hs. by apply bool_decide_eq_true in Hd.
    + eapply spared_extends; [|exact Hsp|rewrite <- Hh; by apply extends_effects]. intros ev Hev c. by apply harmless_spares.
Qed.

Lemma life_sound b w : life b w → (b = true → sound w) ∧ spared (w_hist w).
Proof.
  induction 1 as [w Hh|b w b' w' _ [Hs Hsp] Hm|b w b1 w1 w' _ [Hs Hsp] Hm _ Hsuf].
  - split; [done|]. unfold spared. rewrite Hh. constructor.
  - by eapply move_sound.
  - split; [done|]. destruct (move_sound _ _ _ _ Hm Hs Hsp) as [_ Hsp1]. by eapply spared_suffix.
Qed.
End invariant.

(** ** The cluster

    [ms m] says whether the process of member [m] runs, and its state; the server sees what
    the members ask for, in any order, and nothing else asks. *)
Section cluster.
Context `{Pebble} `{HashText} `{JsonText} `{Rlp} `{BigText} `{EtcdServer}.

Record cluster (ms : nat → bool * World) (τ : list (nat * event)) (s : server) : Prop := {
  cl_run : run τ s;
  cl_life m : life (ms m).1 (ms m).2;
  cl_seen m : w_hist (ms m).2 = seen_by m τ
}.

(** The member holds the lock, and its lease lives. *)
Definition leads (s : server) (w : World) : Prop := ∃ l,
  etcdLock (pub (w_chk w)) = Some l ∧ l_lease l ≠ 0 ∧ alive s (l_lease l).

Definition wrote_singleton (w w' : World) : Prop := ∃ new ev,
  w_hist w' = new ++ w_hist w ∧ ev ∈ new ∧ writes_singleton ev.
End cluster.

Section single_writer.
Context `{Pebble} `{HashText} `{JsonText} `{Rlp} `{BigText} `{EtcdLaws}.

Lemma leader_key_chain cfg cfg' : ChainID cfg = ChainID cfg' → leader_key cfg = leader_key cfg'.
Proof. unfold leader_key. by intros ->. Qed.

Lemma cluster_spared ms τ s cfg : cluster ms τ s → Forall (λ p, ¬ writes_key (leader_key cfg) p.2) τ.
Proof.
  intros [_ Hl Hs]. apply Forall_forall. intros [m ev] Hin Hw. simpl in Hw.
  assert (ev ∈ w_hist (ms m).2) as Hev.
  { rewrite Hs. apply list_elem_of_omap. exists (m, ev). split; [done|]. simpl. by rewrite bool_decide_true. }
  destruct (life_sound _ _ (Hl m)) as [_ Hsp]. unfold spared in Hsp. rewrite Forall_forall in Hsp.
  apply (Hsp ev) with cfg; [|done]. apply in_effects; [|done]. destruct ev as [A r a]. by destruct r.
Qed.

(** The lease of a leader was granted to it, and the leader key is attached to it. *)
Lemma leads_owner ms τ s m : cluster ms τ s → (ms m).1 = true → leads s (ms m).2 → ∃ ttl lease,
  (m, Ev _ (RGrant ttl) (Ok lease)) ∈ τ ∧ owner s (leader_key (config (w_chk (ms m).2))) = Some lease ∧
  alive s lease.
Proof.
  intros Hc Hb (l & Hl & Hz & Ha). destruct (life_sound _ _ (cl_life _ _ _ Hc m)) as [Hs _].
  destruct (proj2 (Hs Hb) l Hl) as [?|(ttl & vk & v & [_ Hg]%list_elem_of_filter & [_ Ht]%list_elem_of_filter)]; [done|].
  assert (w_hist (ms m).2 `suffix_of` seen_by m τ) as Hsuf by (by rewrite (cl_seen _ _ _ Hc)).
  exists ttl, (l_lease l). split_and!; [by eapply seen_by_in| |done].
  eapply run_owner; [apply (cl_run _ _ _ Hc)|by eapply cluster_spared|by eapply seen_by_in|done].
Qed.

(** (C8) One writer.  In a cluster whose members run, crash and restart in any interleaving, of
    two running members of one chain at most one leads with a live lease; and a member of a
    version writes to the singleton topic in a step only if it holds the lock when the step
    begins.  So two members can write at the same time only while one of them has
    not yet noticed that its lease ended. *)
Theorem singleton_single_writer ms τ s i j :
  cluster ms τ s → i ≠ j → (ms i).1 = true → (ms j).1 = true →
  ChainID (config (w_chk (ms i).2)) = ChainID (config (w_chk (ms j).2)) →
  ¬ (leads s (ms i).2 ∧ leads s (ms j).2) ∧
  ∀ w', service_step (ms i).2 w' → IsVersionMode (config (w_chk (ms i).2)) = true →
    wrote_singleton (ms i).2 w' → is_Some (etcdLock (pub (w_chk (ms i).2))).
Proof.
  intros Hc Hij Hi Hj Hch. split.
  - intros [Hli Hlj]. destruct (leads_owner _ _ _ _ Hc Hi Hli) as (t1 & l1 & Hg1 & Ho1 & _).
    destruct (leads_owner _ _ _ _ Hc Hj Hlj) as (t2 & l2 & Hg2 & Ho2 & _).
    rewrite (leader_key_chain _ _ Hch) in Ho1. assert (l1 = l2) as <- by congruence.
    apply Hij. by eapply run_grant_unique; [apply (cl_run _ _ _ Hc)|..].
  - intros w' Hst Hm (new & ev & Hn & Hin & Hw). destruct (life_sound _ _ (cl_life _ _ _ Hc i)) as [Hs _].
    destruct (step_sound _ _ Hst (Hs Hi)) as [_ (new' & He & Hf)].
    destruct (etcdLock (pub (w_chk (ms i).2))) as [l|] eqn:El; [by exists l|]. exfalso.
    unfold effects in He. rewrite Hn, filter_app in He. apply app_inv_tail in He. subst new'.
    rewrite Forall_forall in Hf. destruct (Hf ev) as [_ Hno]; [|by apply Hno].
    apply list_elem_of_filter. split; [|done]. destruct ev as [A r a]. by destruct r.
Qed.
End single_writer.

(** ** Witnesses: the first leader's lease ends unnoticed, and the second member takes over *)
Module ClusterDemo.
#[local] Existing Instances mem_pebble demo_rlp demo_hash_text demo_json_text ProcessDemo.demo_big_text.
Definition cfg : Config := ServiceDemo.cfg.
(** Member [i] is granted the lease [i + 1]. *)
Definition e (i : Z) : env := λ A h r,
  match r in req A return A with RGrant _ => Ok (i + 1) | r => ServiceDemo.e _ h r end.
Definition born (i : Z) : World := mkWorld (e i) (Sim.checker0 Sim.legacyConfig) (mkCDB mem_empty None) [].
Definition started (i : Z) : World := (NewChecker cfg (born i)).2.
Definition ms (m : nat) : bool * World :=
  match m with O => (true, started 0) | S O => (true, started 1) | _ => (false, born 0) end.
Definition tag (m : nat) : list event → list (nat * event) := fmap (λ ev, (m, ev)).
Definition trace : list (nat * event) := tag 1 (w_hist (started 1)) ++ tag 0 (w_hist (started 0)).
Definition s0 : LockDemo.srv := LockDemo.mkSrv ∅ {[version_key cfg := "v1"]} ∅ 1.
Definition s2 : LockDemo.srv := LockDemo.mkSrv {[leader_key cfg := 1]} {[version_key cfg := "v1"]} {[1]} 2.
Definition s3 : LockDemo.srv := LockDemo.drop 1 s2.
Definition s5 : LockDemo.srv := LockDemo.mkSrv {[leader_key cfg := 2]} {[version_key cfg := "v1"]} {[2]} 3.

(** Requests that leave the server as it is. *)
Definition idle (ev : event) : bool :=
  match ev with Ev _ r _ => match r with RGrant _ | RLockTxn _ _ _ _ | RRevoke _ => false | _ => true end end.
Lemma run_idle m h τ s : forallb idle h = true → run (H := LockDemo.demo_server) τ s →
  run (H := LockDemo.demo_server) (tag m h ++ τ) s.
Proof.
  intros Hi Hr. induction h as [|ev h IH]; [done|]. simpl in Hi. apply andb_true_iff in Hi as [He Hh].
  apply (run_request (H := LockDemo.demo_server)) with s; [by apply IH|]. destruct ev as [A r a]. by destruct r.
Qed.

(** A start ends with the grant of the lease and the transaction. *)
Lemma run_start m h τ s t1 t2 lk vk v lease : head h = Some (Ev _ (RLockTxn lk vk v lease) (Ok LockTaken)) →
  (∃ ttl, head (tail h) = Some (Ev _ (RGrant ttl) (Ok lease))) → forallb idle (tail (tail h)) = true →
  LockDemo.answers s (Ev _ (RGrant 0) (Ok lease)) t1 →
  LockDemo.answers t1 (Ev _ (RLockTxn lk vk v lease) (Ok LockTaken)) t2 →
  run (H := LockDemo.demo_server) τ s → run (H := LockDemo.demo_server) (tag m h ++ τ) t2.
Proof.
  destruct h as [|ev [|ev' h]]; [done|by intros _ [? ?]|]. simpl. intros [= ->] [ttl [= ->]] Hi H1 H2 Hr.
  apply (run_request (H := LockDemo.demo_server)) with t1; [|exact H2].
  apply (run_request (H := LockDemo.demo_server)) with s; [|exact H1]. by apply run_idle.
Qed.

Lemma cluster_demo : cluster (H4 := LockDemo.demo_server) ms trace s5.
Proof.
  split.
  - unfold trace. eapply (run_start 1 _ _ s3 (LockDemo.mkSrv ∅ {[version_key cfg := "v1"]} {[2]} 3));
      [vm_compute; reflexivity|eexists; vm_compute; reflexivity|vm_compute; reflexivity| | |].
    + vm_compute. split; reflexivity.
    + vm_compute. split_and!; reflexivity.
    + apply (run_other (H := LockDemo.demo_server)) with s2; [|by exists 1]. rewrite <- (app_nil_r (tag 0 _)).
      eapply (run_start 0 _ _ s0 (LockDemo.mkSrv ∅ {[version_key cfg := "v1"]} {[1]} 2));
      [vm_compute; reflexivity|eexists; vm_compute; reflexivity|vm_compute; reflexivity| | |apply run_init].
      * vm_compute. split; reflexivity.
      * vm_compute. split_and!; reflexivity.
  - assert (∀ i, (NewChecker cfg (born i)).1 = Some (Ok tt) → life true (started i)) as Hs.
    { intros i Hr. eapply (life_move false (born i)); [by apply life_new|].
      pose proof (move_start false (born i) (born i) cfg (Some (Ok tt)) (started i) eq_refl (run_eq _ _ Hr)) as Hm.
      rewrite bool_decide_true in Hm by reflexivity. exact Hm. }
    intros [|[|m]]; [apply Hs; vm_compute; reflexivity..|by apply life_new].
  - intros [|[|m]]; [vm_compute; reflexivity..|]. vm_compute. reflexivity.
Qed.
End ClusterDemo.

Section cluster_witnesses.
#[local] Existing Instances mem_pebble demo_rlp demo_hash_text demo_json_text ProcessDemo.demo_big_text.
#[local] Existing Instance LockDemo.demo_server_laws.
Import ClusterDemo.

(** Both members hold their locks; only the second one's lease lives. *)
Lemma singleton_single_writer_witness :
  leads (H4 := LockDemo.demo_server) s5 (started 1) ∧ is_Some (etcdLock (pub (w_chk (started 0)))) ∧
  ¬ leads (H4 := LockDemo.demo_server) s5 (started 0).
Proof.
  assert (leads (H4 := LockDemo.demo_server) s5 (started 1)) as Hl.
  { exists (set_lease 2 (set_cancel true (lock_of cfg))). split_and!; [vm_compute; reflexivity|discriminate|vm_compute; reflexivity]. }
  split; [exact Hl|]. split; [exists (set_lease 1 (set_cancel true (lock_of cfg))); vm_compute; reflexivity|].
  intros Hl0. refine (proj1 (singleton_single_writer (H4 := LockDemo.demo_server) ms trace s5 0 1 cluster_demo
    (Nat.neq_succ_diag_r 0) eq_refl eq_refl eq_refl) _). split; [exact Hl0|exact Hl].
Defined.
End cluster_witnesses.
