(* ===== verification/Api.v ===== *)
(** * Api: the JSON-RPC queries (cmd/checker/server.go)

    Decoding of a request, the handlers and their error codes. *)
From S2P Require Import Prelude Types Config Json Store ScanState BlockIndex Checker Validation Nodes.

(** ** Requests and responses *)

(** [Params] holds interface values; they are kept as syntax trees. *)
Record JsonRpcReq := mkReq {
  rq_ID : Z;
  rq_JsonRpc : string;
  rq_Method : string;
  rq_Params : list json
}.

(** The dynamic types of a result: a block pointer, possibly nil, or a bool. *)
Inductive rpc_value := RBlock (b : option BlockInfo) | RBool (b : bool).

(** The error's text is [err_text], of the packages the error comes from. *)
Inductive JsonRpcRsp :=
  | NewJsonRpcRsp (result : rpc_value)
  | NewErrorRsp (code : Z) (message : err).

Class ErrText := { err_text : err → string }.

(** The body that is sent; a nil block is sent as null. *)
Definition block_json `{HashText} (b : BlockInfo) : json :=
  JObj [("id", JStr (hash_string (BI_ID b))); ("num", JNum (BI_Height b));
        ("validation_hash", JNum (BI_ValidationHash b)); ("is_fork", JBool (BI_IsFork b))].
Definition value_json `{HashText} (v : rpc_value) : json :=
  match v with RBlock None => JNull | RBlock (Some b) => block_json b | RBool b => JBool b end.
Definition rsp_json `{HashText} `{ErrText} (r : JsonRpcRsp) : json :=
  match r with
  | NewJsonRpcRsp v => JObj [("id", JNum 1); ("jsonrpc", JStr "2.0"); ("result", value_json v)]
  | NewErrorRsp code message =>
      JObj [("id", JNum 1); ("jsonrpc", JStr "2.0");
            ("error", JObj [("code", JNum code); ("message", JStr (err_text message))])]
  end.

(** A number decodes into an interface value when it is in the range of float64:
    [float_in_range] for the texts that are no integers, below [2 ^ 1024 - 2 ^ 970] for the
    others. *)
Class FloatText := { float_in_range : string → bool }.
Fixpoint any_ok `{FloatText} (j : json) : bool :=
  match j with
  | JNum z => Z.abs z <? 2 ^ 1024 - 2 ^ 970
  | JFloat s => float_in_range s
  | JArr l => forallb any_ok l
  | JObj l => forallb (λ kv, any_ok kv.2) l
  | _ => true
  end.
Definition dec_params `{FloatText} (j : json) (cur : list json) : res (list json) :=
  match j with
  | JArr l => check! forallb any_ok l else ErrMsg "json: number out of range" in Ok l
  | JNull => Ok []
  | _ => Fail (ErrMsg "json: cannot unmarshal into slice")
  end.
Definition req_field `{FloatText} (k : string) (v : json) (q : JsonRpcReq) : res JsonRpcReq :=
  if EqualFold k "id" then
    let! x := dec_int64 v (rq_ID q) in Ok (mkReq x (rq_JsonRpc q) (rq_Method q) (rq_Params q))
  else if EqualFold k "jsonrpc" then
    let! x := dec_string v (rq_JsonRpc q) in Ok (mkReq (rq_ID q) x (rq_Method q) (rq_Params q))
  else if EqualFold k "method" then
    let! x := dec_string v (rq_Method q) in Ok (mkReq (rq_ID q) (rq_JsonRpc q) x (rq_Params q))
  else if EqualFold k "params" then
    let! x := dec_params v (rq_Params q) in Ok (mkReq (rq_ID q) (rq_JsonRpc q) (rq_Method q) x)
  else Ok q.
Definition decode_req `{JsonText} `{FloatText} (body : string) : res JsonRpcReq :=
  match json_parse body with
  | None => Fail (ErrMsg "invalid JSON")
  | Some j => dec_struct req_field j (mkReq 0 "" "" [])
  end.

(** ** [big.Int.SetString(s, 0)] *)

(** The digit loop of [nat.scan]: value, digit count, whether the last character was an
    underscore, whether a separator was misplaced, and the rest of the text.  [prev] is
    true after a digit or a base prefix. *)
Record scan_state := mkScan { sn_value : Z; sn_count : Z; sn_prev : bool; sn_sep : bool; sn_inval : bool }.
Fixpoint scan_digits (base : Z) (s : string) (st : scan_state) : scan_state * string :=
  match s with
  | EmptyString => (st, s)
  | String c s' =>
      if char_is c 95 then
        scan_digits base s' (mkScan (sn_value st) (sn_count st) false true (sn_inval st || negb (sn_prev st)))
      else match digit_value c with
           | Some d =>
               if d <? base then
                 scan_digits base s' (mkScan (sn_value st * base + d) (sn_count st + 1) true false (sn_inval st))
               else (st, s)
           | None => (st, s)
           end
  end.

(** The base, whether a lone leading zero made it octal, the state and the text the digit
    loop starts from. *)
Definition scan_prefix (s : string) : Z * bool * scan_state * string :=
  match s with
  | String c s' =>
      if char_is c 48 then
        match s' with
        | EmptyString => (10, false, mkScan 0 1 true false false, s')
        | String c2 ds =>
            if lower c2 =? 98 then (2, false, mkScan 0 0 true false false, ds)
            else if lower c2 =? 111 then (8, false, mkScan 0 0 true false false, ds)
            else if lower c2 =? 120 then (16, false, mkScan 0 0 true false false, ds)
            else (8, true, mkScan 0 0 true false false, s')
        end
      else (10, false, mkScan 0 0 false false false, s)
  | EmptyString => (10, false, mkScan 0 0 false false false, s)
  end.
Definition nat_scan (s : string) : option Z :=
  let '(base, octal, st, ds) := scan_prefix s in
  let '(st, rest) := scan_digits base ds st in
  if bool_decide (rest = "") && negb (sn_inval st || sn_sep st) && (octal || negb (sn_count st =? 0))
  then Some (sn_value st) else None.
Definition SetString (s : string) : option Z :=
  match s with
  | String c s' =>
      if char_is c 45 then Z.opp <$> nat_scan s'
      else nat_scan (if char_is c 43 then s' else s)
  | EmptyString => None
  end.

(** ** Handlers

    [db] is [None] while the database is not open.  A handler returns the response, or
    [None] when it panics, which the server answers with status 500. *)
Class HexHash := { HexToHash : string → Hash }.

Section handlers.
Context `{Pebble} `{HashText} `{JsonText} `{Rlp} `{HexHash} `{FloatText}.

Definition not_open : JsonRpcRsp := NewErrorRsp (-39005) (ErrMsg "db not initialized").
Definition no_params : JsonRpcRsp := NewErrorRsp (-32602) (ErrMsg "params not found").

Definition handleGetLatestBlock (db : option ConsistencyDB) : JsonRpcRsp :=
  match db with
  | None => not_open
  | Some db => NewJsonRpcRsp (RBlock (GetLatestBlockInfo db))
  end.

(** The type assertion on the first parameter panics when it is not a string. *)
Definition handleGetBlockByHeight (db : option ConsistencyDB) (req : JsonRpcReq) : option JsonRpcRsp :=
  match rq_Params req with
  | [] => Some no_params
  | JStr height :: _ =>
      Some (if bool_decide (height = "") then no_params
            else match SetString height with
                 | None => NewErrorRsp (-32602) (ErrMsg "num params error")
                 | Some num =>
                     match db with
                     | None => not_open
                     | Some db =>
                         match GetBlockInfoByNum (cdb_store db) num with
                         | Fail e => NewErrorRsp (-39005) e
                         | Ok block => NewJsonRpcRsp (RBlock (Some block))
                         end
                     end
                 end)
  | _ :: _ => None
  end.

Definition handleGetBlockById (db : option ConsistencyDB) (req : JsonRpcReq) : JsonRpcRsp :=
  match rq_Params req with
  | [] => no_params
  | JStr id :: _ =>
      match db with
      | None => not_open
      | Some db =>
          match GetBlockInfoByHash (cdb_store db) (HexToHash id) with
          | Fail e => NewErrorRsp (-39005) e
          | Ok block => NewJsonRpcRsp (RBlock (Some block))
          end
      end
  | _ :: _ => NewErrorRsp (-32602) (ErrMsg "params error")
  end.

Definition handleBlockIsValid (db : option ConsistencyDB) (req : JsonRpcReq) : JsonRpcRsp :=
  match rq_Params req with
  | [] => no_params
  | JStr id :: _ =>
      match db with
      | None => not_open
      | Some db =>
          match GetBlockInfoByHash (cdb_store db) (HexToHash id) with
          | Fail e => NewErrorRsp (-39005) e
          | Ok block0 =>
              match GetBlockInfoByNum (cdb_store db) (BI_Height block0) with
              | Fail e => NewErrorRsp (-39005) e
              | Ok block1 => NewJsonRpcRsp (RBool (bool_decide (BI_ID block0 = BI_ID block1)))
              end
          end
      end
  | _ :: _ => NewErrorRsp (-32602) (ErrMsg "params error")
  end.

Definition index (db : option ConsistencyDB) (body : string) : option JsonRpcRsp :=
  match decode_req body with
  | Fail _ => Some (NewErrorRsp (-32700) (ErrMsg "parse error"))
  | Ok req =>
      if negb (bool_decide (rq_JsonRpc req = "2.0")) then
        Some (NewErrorRsp (-32600) (ErrMsg "jsonrpc version not found"))
      else if bool_decide (rq_Method req = "") then Some (NewErrorRsp (-32601) (ErrMsg "method not found"))
      else if bool_decide (rq_Method req = "getLatestBlock") then Some (handleGetLatestBlock db)
      else if bool_decide (rq_Method req = "getBlockByHeight") then handleGetBlockByHeight db req
      else if bool_decide (rq_Method req = "getBlockById") then Some (handleGetBlockById db req)
      else if bool_decide (rq_Method req = "blockIsValid") then Some (handleBlockIsValid db req)
      else Some (NewErrorRsp (-32601) (ErrMsg "method not found"))
  end.

(** *** The routes

    [HttpRsp]: status 200 with a JSON-RPC body; [HttpPanic]: status 500 from
    [gin.Recovery]; [HttpMetrics]: the exposition of the collectors; [HttpRouter]: the
    router's own answer to a request that has no route. *)
Inductive http_answer := HttpRsp (r : JsonRpcRsp) | HttpPanic | HttpMetrics | HttpRouter.
(** The methods of [router.Any]. *)
Definition any_methods : list string :=
  ["GET"; "POST"; "PUT"; "PATCH"; "HEAD"; "OPTIONS"; "DELETE"; "CONNECT"; "TRACE"].
Definition startHTTPServer (db : option ConsistencyDB) (method path body : string) : http_answer :=
  if bool_decide (path = "/metrics" ∧ method = "GET") then HttpMetrics
  else if bool_decide (path = "/" ∧ method ∈ any_methods) then
    match index db body with Some r => HttpRsp r | None => HttpPanic end
  else HttpRouter.
End handlers.

(** ** Which requests are answered *)
Section answers.
Context `{Pebble} `{HashText} `{JsonText} `{Rlp} `{HexHash} `{FloatText}.

(** (C30) Every request to the root, with any method, is answered with a result or one of five
    error codes, except one kind: [getBlockByHeight] panics exactly when its first
    parameter is not a string. *)
Theorem index_answers db method text : method ∈ any_methods →
  match startHTTPServer db method "/" text with
  | HttpRsp (NewJsonRpcRsp _) => is_Some db
  | HttpRsp (NewErrorRsp code _) => code ∈ [-32700; -32600; -32601; -32602; -39005]
  | HttpPanic => ∃ req p ps, decode_req text = Ok req ∧ rq_JsonRpc req = "2.0" ∧
              rq_Method req = "getBlockByHeight" ∧ rq_Params req = p :: ps ∧ ∀ s, p ≠ JStr s
  | HttpMetrics | HttpRouter => False
  end.
Proof.
  intros Hmethod. unfold startHTTPServer. rewrite bool_decide_false by (by intros [? _]). rewrite bool_decide_true by done.
  assert (∀ db, match handleGetLatestBlock db with
    | NewJsonRpcRsp _ => is_Some db | NewErrorRsp code _ => code ∈ [-32700; -32600; -32601; -32602; -39005] end) as Hl.
  { intros [d|]; simpl; [done|set_solver]. }
  unfold index. destruct (decode_req text) as [req|e]; [|set_solver].
  case_bool_decide as Hv; cbn [negb]; [|set_solver]. case_bool_decide; [set_solver|].
  case_bool_decide; [apply Hl|]. case_bool_decide as Hm; [|case_bool_decide; [|case_bool_decide; [|set_solver]]].
  - unfold handleGetBlockByHeight. destruct (rq_Params req) as [|p ps] eqn:Ep; [simpl; set_solver|].
    destruct p; try (exists req; eexists _, _; split_and!; done). unfold no_params, not_open.
    repeat case_match; simplify_eq; simpl; first [done|set_solver].
  - unfold handleGetBlockById, no_params, not_open. repeat case_match; simplify_eq; simpl; first [done|set_solver].
  - unfold handleBlockIsValid, no_params, not_open. repeat case_match; simplify_eq; simpl; first [done|set_solver].
Qed.
End answers.

(** The text form of a hash reads back through [common.HexToHash]. *)
Class HexHashLaws `{HashText, HexHash} : Prop := { hex_to_hash_string h : HexToHash (hash_string h) = h }.

(** ** What the queries answer *)
Section facts.
Context `{Pebble} `{HashText} `{!JsonText} `{!JsonTextLaws} `{!Rlp} `{!HexHash} `{!HexHashLaws} `{FloatText}.

(** The body of a request. *)
Definition body (method : string) (param : string) : string :=
  json_print (JObj [("id", JNum 1); ("jsonrpc", JStr "2.0"); ("method", JStr method); ("params", JArr [JStr param])]).

Lemma decode_body method param : is_ascii method = true → is_ascii param = true →
  decode_req (body method param) = Ok (mkReq 1 "2.0" method [JStr param]).
Proof.
  intros Hm Hp. unfold decode_req, body. rewrite json_parse_print.
  2: { simpl. by rewrite Hm, Hp. }
  cbn [dec_struct dec_members req_field res_bind]. unfold req_field. dec_eval. cbn [res_bind dec_string rq_ID rq_JsonRpc rq_Method rq_Params].
  unfold dec_int64. rewrite dec_int_num by (unfold MaxInt64; lia). simpl. dec_eval. simpl. dec_eval. simpl. dec_eval. done.
Qed.

(** The record of the block [h] in the index. *)
Definition recorded (st : store) (h : Hash) (n vh : Z) : Prop :=
  ∃ d, kv_get st (hashKey h) = Ok d ∧ rlp_decode d = Ok (mkBlockInfoRlp n vh).

Lemma recorded_info st h n vh c : is_u64 n → recorded st h n vh → getBlockHashByNum st n = Ok c →
  GetBlockInfoByHash st h = Ok (mkBlockInfo h n (i64 vh) (negb (bool_decide (c = h)))).
Proof.
  intros Hn (d & Hd & Hr) Hc. unfold GetBlockInfoByHash. rewrite Hd. simpl. rewrite Hr. simpl.
  by rewrite Hc, (u64_id _ Hn).
Qed.

(** (C29) The queries agree with the index and with each other: for a recorded block at a height
    whose canonical block is [c], [getBlockById] gives its record and marks it a fork
    exactly when it is not [c], [blockIsValid] tells whether it is [c], and
    [getBlockByHeight], with any literal of the height, gives [c]. *)
Theorem queries_agree db h c n vh vc text :
  is_u64 n → recorded (cdb_store db) h n vh → recorded (cdb_store db) c n vc →
  getBlockHashByNum (cdb_store db) n = Ok c → SetString text = Some n → is_ascii text = true →
  index (Some db) (body "getBlockById" (hash_string h)) =
    Some (NewJsonRpcRsp (RBlock (Some (mkBlockInfo h n (i64 vh) (negb (bool_decide (c = h))))))) ∧
  index (Some db) (body "blockIsValid" (hash_string h)) = Some (NewJsonRpcRsp (RBool (bool_decide (h = c)))) ∧
  index (Some db) (body "getBlockByHeight" text) =
    Some (NewJsonRpcRsp (RBlock (Some (mkBlockInfo c n (i64 vc) false)))).
Proof.
  intros Hn Hh Hc Hcan Htext Hasc.
  pose proof (recorded_info _ _ _ _ _ Hn Hh Hcan) as Hih. pose proof (recorded_info _ _ _ _ _ Hn Hc Hcan) as Hic.
  rewrite bool_decide_true in Hic by done.
  assert (GetBlockInfoByNum (cdb_store db) n = Ok (mkBlockInfo c n (i64 vc) false)) as Hnum
    by (unfold GetBlockInfoByNum; rewrite Hcan; exact Hic).
  unfold index. rewrite !decode_body by (try done; apply hash_string_ascii). split_and!.
  - simpl. unfold handleGetBlockById. simpl. by rewrite hex_to_hash_string, Hih.
  - simpl. unfold handleBlockIsValid. simpl. rewrite hex_to_hash_string, Hih. simpl. by rewrite Hnum.
  - simpl. unfold handleGetBlockByHeight. simpl. rewrite bool_decide_false by (by intros ->). by rewrite Htext, Hnum.
Qed.

End facts.

(** ** Witnesses: block 2 replaced by block 22 *)
Section api_witnesses.
#[local] Existing Instances mem_pebble demo_rlp demo_hash_text demo_json_text.
#[local] Instance demo_hex : HexHash := {| HexToHash s := default zero_hash (hash_parse s) |}.
#[local] Instance demo_hex_laws : HexHashLaws.
Proof. split. intros h. pose proof (hash_parse_string h) as Hh. simpl in Hh |- *. by rewrite Hh. Qed.
#[local] Instance demo_float : FloatText := {| float_in_range _ := true |}.

(** A request without a body. *)
Lemma index_answers_witness : ∃ r, startHTTPServer (Some Demo.db2) "GET" "/" "" = HttpRsp r.
Proof.
  pose proof (index_answers (Some Demo.db2) "GET" "" ltac:(vm_compute; left)) as Ha.
  destruct (startHTTPServer (Some Demo.db2) "GET" "/" "") as [r| | |] eqn:E; [by eexists| |done|done].
  exfalso. revert E. vm_compute. discriminate.
Defined.
Lemma queries_agree_witness :
  index (Some Demo.db2) (body "blockIsValid" (hash_string (hashOf 2))) = Some (NewJsonRpcRsp (RBool false)) ∧
  index (Some Demo.db2) (body "getBlockByHeight" "0x0_2") =
    Some (NewJsonRpcRsp (RBlock (Some (mkBlockInfo (hashOf 22) 2 220 false)))).
Proof.
  destruct (queries_agree Demo.db2 (hashOf 2) (hashOf 22) 2 20 220 "0x0_2") as (_ & Hv & Hh).
  - split; [done|unfold MaxUint64; lia].
  - eexists. split; vm_compute; reflexivity.
  - eexists. split; vm_compute; reflexivity.
  - vm_compute. reflexivity.
  - reflexivity.
  - reflexivity.
  - split; [exact Hv|exact Hh].
Defined.
End api_witnesses.
