(* ===== verification/Lifecycle.v ===== *)
(** * Lifecycle: the process from its start to its exit

    [main], [Close], and the goroutines of the checker with the conditions under which each
    of them still runs (cmd/checker/main.go, check/check.go): how [Run] heeds [quit], in
    which order the parts are closed, and who is left over then. *)
From S2P Require Import Prelude Types Config Json Store ScanState BlockIndex Checker Topics Validation Publish.
From S2P Require Import Nodes Replicas Align ForkScan Process Health Lock Leader Service Cluster Api.

(** ** What the goroutines ask for

    No operation but [shutdown] closes anything, and only the loops of [Run] look at
    [quit]. *)
Definition ordinary (ev : event) : Prop :=
  match ev with Ev _ r _ => match r with RClose _ | RQuit => False | _ => True end end.


Section calm.
Context `{Pebble}.
(** The operation stays in its environment, closes nothing and does not look at [quit]. *)
Definition calm {A} (m : M A) : Prop := ∀ w,
  w_env (m w).2 = w_env w ∧ extends ordinary (w_hist w) (w_hist (m w).2).

Lemma calm_bind {A B} (m : M A) (k : A → M B) : calm m → (∀ a, calm (k a)) → calm (bind m k).
Proof.
  intros Hm Hk w. unfold bind. specialize (Hm w). destruct (m w) as [a w1]. destruct Hm as [He1 Hh1].
  destruct (Hk a w1) as [He2 Hh2]. split; [by rewrite He2|]. by eapply extends_trans.
Qed.
Lemma calm_call {A} (r : req A) : (∀ a, ordinary (Ev A r a)) → calm (call r).
Proof. intros Hr w. split; [done|]. by apply extends_one. Qed.
Lemma calm_still {A} (m : M A) : keeps w_env m → keeps w_hist m → calm m.
Proof. intros He Hh w. rewrite He, Hh. split; [done|apply extends_refl]. Qed.
Lemma calm_loopM {S R} p (body : S → M (S + R)) s : (∀ s, calm (body s)) → calm (loopM p body s).
Proof.
  intros Hb. revert s. induction p as [p IH|p IH|]; intros s; unfold loopM; fold (@loopM _ S R); [| |apply Hb];
    repeat (apply calm_bind; [auto|intros []; auto]); by apply calm_still; intros w.
Qed.
End calm.

Create HintDb calm discriminated.
(** As [keeps_tac]. *)
Ltac calm_tac :=
  repeat lazymatch goal with
  | |- calm (bind _ _) => apply calm_bind; [|intros ?]
  | |- calm (loopM _ _ _) => apply calm_loopM; intros ?
  | |- calm (call _) => apply calm_call; intros ?; exact Logic.I
  | |- calm (when ?b _) => destruct b; unfold when
  | |- calm (with_db _) => apply calm_still; intros ?; unfold with_db; by case_match
  | |- calm (match ?x with _ => _ end) => destruct x
  | |- calm _ => first [apply calm_still; by intros ?|solve [auto 2 with calm]]
  end.

Section operations.
Context `{Pebble} `{HashText} `{JsonText} `{Rlp} `{BigText}.

Lemma calm_retry {A} c what m (fn : M (res A)) : calm fn → calm (retryWithBackoff c what m fn).
Proof.
  intros Hf. unfold retryWithBackoff. apply calm_bind; [|intros; calm_tac]. 
  generalize (retry_fuel m), minBackoff, 0. intros n. induction n as [|n IH]; intros b t; cbn [retry_go]; [calm_tac|].
  unfold ctxErr. apply calm_bind; [exact Hf|]. intros r. calm_tac.
Qed.
#[local] Hint Extern 1 (calm (retryWithBackoff _ _ _ (call _))) => apply calm_retry, calm_call; intros ?; exact Logic.I : calm.
Lemma calm_get c key : calm (getRawValidationByKeyWithReTryCtx c key).
Proof. unfold getRawValidationByKeyWithReTryCtx, getRawValidationByKeyCtx. auto 2 with calm. Qed.
Lemma calm_get_retry key : calm (getRawValidationByKeyWithReTry key).
Proof. apply calm_get. Qed.
Lemma calm_put key n h v : calm (rewriteValidationAtKeyWithRetry key n h v).
Proof. unfold rewriteValidationAtKeyWithRetry, rewriteValidationAtKey, rewriteValidationAtKeyCtx. auto 2 with calm. Qed.
#[local] Hint Resolve calm_get calm_get_retry calm_put : calm.
Lemma calm_put_block b v : calm (rewriteBlockWithRetry b v).
Proof. unfold rewriteBlockWithRetry, get_config. calm_tac. Qed.
Lemma calm_list c n : calm (listBlockValidationKeysCtx c n).
Proof. unfold listBlockValidationKeysCtx, list_page, get_config. calm_tac. Qed.
#[local] Hint Resolve calm_put_block calm_list : calm.
Lemma calm_plan c b hint : calm (planForkRewritesCtx c b hint).
Proof.
  assert (∀ cfg ch cv n keys plan found, calm (plan_keys c cfg ch cv n keys plan found)) as Hk.
  { intros cfg ch cv n keys. induction keys as [|k keys IH]; intros plan found; cbn [plan_keys]; calm_tac. }
  unfold planForkRewritesCtx, get_config, plan_listing. calm_tac; apply Hk.
Qed.
#[local] Hint Resolve calm_plan : calm.
Lemma calm_rewrite b hint : calm (rewriteForkBlocksAtHeight b hint).
Proof.
  assert (∀ plan, calm (applyForkRewrites b plan)) as Ha.
  { intros plan. induction plan as [|rw plan IH]; cbn [applyForkRewrites]; calm_tac. }
  unfold rewriteForkBlocksAtHeight, planForkRewrites. calm_tac; apply Ha.
Qed.
#[local] Hint Resolve calm_rewrite : calm.
Lemma calm_attempts b n : ∀ hint, calm (rewrite_attempts b n hint).
Proof. induction n as [|n IH]; intros hint; cbn [rewrite_attempts]; calm_tac. Qed.
#[local] Hint Resolve calm_attempts : calm.
Lemma calm_same_height l : ∀ pf, calm (rewriteForkBlocksAtSameHeight l pf).
Proof. induction l as [|b l IH]; intros pf; cbn [rewriteForkBlocksAtSameHeight]; calm_tac. Qed.
Lemma calm_drops l : calm (rewriteDropBlocks l).
Proof. induction l as [|b l IH]; cbn [rewriteDropBlocks]; unfold get_config; calm_tac. Qed.
Lemma calm_prefetch l : calm (prefetchNewBlocks l).
Proof. induction l as [|b l IH]; cbn [prefetchNewBlocks]; unfold get_config; calm_tac. Qed.
#[local] Hint Resolve calm_same_height calm_drops calm_prefetch : calm.

Lemma calm_check_nodes ns k t : calm (check_nodes ns k t).
Proof. induction ns as [|n ns IH]; cbn [check_nodes]; unfold Node_Check, EthBlockNumber; calm_tac. Qed.
#[local] Hint Resolve calm_check_nodes : calm.
Lemma calm_notify k t r : calm (checkAndNotify k t r).
Proof.
  unfold checkAndNotify, get_rep, waitReplicasReady, wait_round, check, CheckAll, get_config,
    RemoveOfflineNodesFromEtcd, WriteReplicaStateChangeToEtcd, get_config, get_rep. calm_tac.
Qed.
#[local] Hint Resolve calm_notify : calm.
Lemma calm_check_notify : calm CheckAndNotifyEtcd.
Proof. unfold CheckAndNotifyEtcd, get_config, get_rep. calm_tac. Qed.

Lemma calm_outer n observe : (∀ d t, calm (observe d t)) → calm (publishOuter n observe).
Proof.
  intros Ho. assert (∀ ts, calm (publish_writes n ts)) as Hw
    by (intros ts; induction ts; cbn [publish_writes]; calm_tac; assumption).
  assert (∀ k l, calm (publish_marks k observe l)) as Hm.
  { intros k l. induction l as [|[[d e] t] l IH]; cbn [publish_marks]; calm_tac; first [apply Ho|apply IH]. }
  unfold publishOuter, get_config, get_pub. calm_tac; first [apply Hw|apply Hm].
Qed.
Lemma calm_publish dropBlocks newBlocks timings : calm (publishNotice dropBlocks newBlocks timings).
Proof.
  unfold publishNotice. apply calm_bind; [|intros ok; destruct ok; [|calm_tac]].
  - induction dropBlocks as [|x l IH]; cbn [WriteDropBlockNotice]; unfold get_config; [calm_tac|].
    apply calm_bind; [calm_tac|]. intros cfg. apply calm_bind; [apply calm_outer; intros; calm_tac|].
    intros ok. calm_tac.
  - induction newBlocks as [|x l IH]; cbn [WriteNewBlockNotice]; unfold get_config; [calm_tac|].
    apply calm_bind; [calm_tac|]. intros cfg. apply calm_bind.
    + apply calm_outer. intros. unfold observeBlockEndToEndLatency. calm_tac.
    + intros ok. calm_tac.
Qed.
Lemma calm_last d : calm (GetLastOuterBlockNotice d).
Proof. unfold GetLastOuterBlockNotice. calm_tac. Qed.
#[local] Hint Resolve calm_publish calm_last : calm.
Lemma calm_align : calm AlignOuterSingleton.
Proof.
  assert (∀ ns, calm (write_singleton ns)) as Hw
    by (intros ns; induction ns; cbn [write_singleton]; calm_tac; assumption).
  unfold AlignOuterSingleton, align_again, fetchLatestOuterSingleBlockNotice, align, get_store, get_config, get_pub,
    GetCommonAncestor, forward_step, lower_remote, walk_back, getVersionBlockByHash, get_store, get_config.
  calm_tac; apply Hw.
Qed.
#[local] Hint Resolve calm_align : calm.

Lemma calm_save s : calm (saveForkScan s).
Proof. unfold saveForkScan, get_config. calm_tac. Qed.
#[local] Hint Resolve calm_save : calm.
Lemma calm_process notice timings position : calm (processNotice notice timings position).
Proof.
  unfold processNotice, align_and_finish, publish_steps, prepareForkScan, reconcileForkScanReplay, finishForkScan,
    initializeForkScan, writeBlockInfoToDB, beginNotice, rewindForkScan, get_pub, get_config, get_scan, get_store.
  calm_tac.
Qed.
End operations.

(** ** [Run] ends once [quit] is closed *)
Section run.
Context `{Pebble} `{HashText} `{JsonText} `{Rlp} `{BigText}.
Context (e : env) (n : nat).
(** [quit] is closed at the latest when [n] requests were made. *)
Definition closed_by : Prop := ∀ h, (n ≤ length h)%nat → e _ h RQuit = true.
Context (closed : closed_by).

(** The requests that can be made while [quit] is open. *)
Definition left_over (w : World) : Z := Z.max 0 (Z.of_nat n - Z.of_nat (length (w_hist w))).

Lemma calm_less {A} (m : M A) w : calm m → w_env w = e →
  w_env (m w).2 = e ∧ left_over (m w).2 ≤ left_over w.
Proof.
  intros Hm He. destruct (Hm w) as [He' (new & Hn & _)]. split; [congruence|]. unfold left_over.
  rewrite Hn, length_app. lia.
Qed.

(** A turn of a loop that first looks at [quit]: it ends the loop, or leaves fewer requests. *)
Lemma wp_quit {A} (stop : A) (go : M A) (Q : A → World → Prop) w : w_env w = e →
  (∀ w', w_env w' = e → left_over w' ≤ left_over w → Q stop w') →
  (∀ w', w_env w' = e → left_over w' ≤ left_over w - 1 → wp go Q w') →
  wp (let* quit := call RQuit in if quit then ret stop else go) Q w.
Proof.
  intros He Hq Hgo. apply wp_call. intros quit Hquit.
  destruct quit; [apply wp_ret, Hq; [done|unfold left_over; simpl; lia]|]. apply Hgo; [done|].
  rewrite He in Hquit. unfold left_over. simpl. 
  destruct (decide (n ≤ length (w_hist w))%nat) as [Hle|Hgt]; [by rewrite closed in Hquit|lia].
Qed.

(** Such a loop returns: it has at most as many turns as requests are left. *)
Lemma quit_loop {S R} (body : S → M (S + R)) (good : R → Prop) s w :
  (∀ s w, w_env w = e → left_over w < 2 ^ 64 → wp (body s) (λ r w', w_env w' = e ∧ left_over w' ≤ left_over w ∧ match r with
    | inl _ => left_over w' ≤ left_over w - 1 | inr r => good r end) w) →
  w_env w = e → left_over w < 2 ^ 64 →
  wp (loopM (2 ^ 64) body s) (λ r w', w_env w' = e ∧ left_over w' ≤ left_over w ∧ ∃ x, r = inr x ∧ good x) w.
Proof.
  intros Hb He Hl. eapply wp_mono.
  - apply (wp_loopM_measure body (λ _ w, left_over w) (λ _ w', w_env w' = e ∧ left_over w' ≤ left_over w)
      (λ r w', w_env w' = e ∧ left_over w' ≤ left_over w ∧ good r)); [|done].
    intros s' w' [He' Hl']. eapply wp_mono; [apply Hb; [done|lia]|]. intros [s''|r] w'' (He'' & Hl'' & Hr); [|by auto with lia].
    split_and!; [done|lia|done].
  - intros [s'|r] w' Hw; [|by destruct Hw as (? & ? & ?); eauto]. destruct Hw as [_ Hw].
    assert (0 ≤ left_over w') by (unfold left_over; lia). lia.
Qed.

Lemma wp_calm {A} (m : M A) (Q : A → World → Prop) w : calm m → w_env w = e →
  (∀ a w', w_env w' = e → left_over w' ≤ left_over w → Q a w') → wp m Q w.
Proof. intros Hm He Hq. destruct (calm_less m w Hm He). by apply Hq. Qed.
Lemma wp_calm_bind {A B} (m : M A) (k : A → M B) (Q : B → World → Prop) w : calm m → w_env w = e →
  (∀ a w', w_env w' = e → left_over w' ≤ left_over w → wp (k a) Q w') → wp (bind m k) Q w.
Proof. intros Hm He Hq. apply wp_bind. by apply wp_calm. Qed.

Lemma process_turn_ends msg notice offset w : w_env w = e →
  wp (process_turn msg notice offset tt) (λ r w', w_env w' = e ∧ left_over w' ≤ left_over w ∧ match r with
    | inl _ => left_over w' ≤ left_over w - 1 | inr r => r ≠ Some RunForever end) w.
Proof.
  intros He. unfold process_turn. apply wp_quit; [done|intros; by split_and!|]. intros w1 He1 Hl1.
  destruct (_ && _); [apply wp_ret; split_and!; [done|lia|done]|].
  apply wp_calm_bind; [apply calm_process|done|]. intros ok w2 He2 Hl2.
  destruct ok as [[]|]; [apply wp_ret; split_and!; [done|lia|done]| |apply wp_ret; split_and!; [done|lia|done]].
  apply wp_calm_bind; [calm_tac|done|]. intros _ w3 He3 Hl3. apply wp_ret. split_and!; [done|lia|lia].
Qed.

Lemma commit_turn_ends msg w : w_env w = e →
  wp (commit_turn msg tt) (λ r w', w_env w' = e ∧ left_over w' ≤ left_over w ∧ match r with
    | inl _ => left_over w' ≤ left_over w - 1 | inr r => r ≠ Some RunForever end) w.
Proof.
  intros He. unfold commit_turn. apply wp_quit; [done|intros; by split_and!|]. intros w1 He1 Hl1.
  apply wp_calm_bind; [calm_tac|done|]. intros r w2 He2 Hl2.
  destruct r as [u|er]; [apply wp_ret; split_and!; [done|lia|done]|].
  apply wp_calm_bind; [calm_tac|done|]. intros _ w3 He3 Hl3. apply wp_ret. split_and!; [done|lia|lia].
Qed.

Lemma run_turn_ends offset w : w_env w = e → left_over w < 2 ^ 64 →
  wp (run_turn offset) (λ r w', w_env w' = e ∧ left_over w' ≤ left_over w ∧ match r with
    | inl _ => left_over w' ≤ left_over w - 1 | inr r => r ≠ RunForever end) w.
Proof.
  intros He Hb. unfold run_turn. apply wp_quit; [done|intros; by split_and!|]. intros w1 He1 Hl1.
  apply wp_calm_bind; [calm_tac|done|]. intros msg w2 He2 Hl2. destruct msg as [msg|er].
  2: { destruct er; apply wp_calm_bind; try done; try (by calm_tac); try apply calm_check_notify;
       intros ? w3 He3 Hl3; apply wp_ret; split_and!; (done || lia). }
  destruct (msg_Value msg) as [notice|er].
  2: { apply wp_calm_bind; [calm_tac|done|]. intros _ w3 He3 Hl3. apply wp_ret. split_and!; (done || lia). }
  apply wp_bind. eapply wp_mono.
  { apply (quit_loop _ (λ r, r ≠ Some RunForever)); [by intros [] ? ? _; apply process_turn_ends|done|lia]. }
  intros r w3 (He3 & Hl3 & [er|] & -> & Hr).
  { apply wp_ret. split_and!; [done|lia|congruence]. }
  apply wp_bind. eapply wp_mono.
  { apply (quit_loop _ (λ r, r ≠ Some RunForever)); [by intros [] ? ? _; apply commit_turn_ends|done|lia]. }
  intros r w4 (He4 & Hl4 & [er|] & -> & Hr'); apply wp_ret; split_and!; try done; try lia. congruence.
Qed.

(** [Run] ends once [quit] is closed, after any number of requests below [2 ^ 64]: between two
    messages, in the retries of a notification or in those of a commit; [RunPanic] is an
    end too.  It says that the loops of [Run] end, for attempts that end: a listing that
    names a next page forever and a walk over a cycle of parents, which would keep the code
    inside an attempt, are cut off in the model. *)
Theorem run_quits w : w_env w = e → Z.of_nat n < 2 ^ 64 → ∃ r w', Run w = (inr r, w') ∧ r ≠ RunForever.
Proof.
  intros He Hn. assert (left_over w < 2 ^ 64) as Hl by (unfold left_over; lia).
  pose proof (quit_loop run_turn (λ r, r ≠ RunForever) 0 w (λ s w He Hl, run_turn_ends s w He Hl) He Hl) as Hrun.
  unfold Run. destruct (loopM (2 ^ 64) run_turn 0 w) as [r w'] eqn:Er.
  destruct (wp_run _ _ _ _ _ Hrun Er) as (_ & _ & x & -> & Hx). by exists x, w'.
Qed.
End run.

(** ** What [Run] does between two looks at [quit] *)
Section looks.
Context `{Pebble} `{HashText} `{JsonText} `{Rlp} `{BigText}.

#[local] Hint Resolve calm_check_notify calm_process : calm.

(** One fetch, with what follows when there is no notification: the periodic check of the
    replicas, or a pause. *)
Definition fetch_once : M unit :=
  let* msg := call RFetch in
  match msg with
  | Fail ErrDeadline => let* _ := CheckAndNotifyEtcd in ret tt
  | Fail _ => call (RSleep Second)
  | Ok msg => match msg_Value msg with Fail _ => call (RSleep Second) | Ok _ => ret tt end
  end.
(** One attempt at a notification, and one at a commit, each with the pause after a failure. *)
Definition attempt_once (msg : kafka_msg) (notice : BlockChangeNotification) : M unit :=
  let* ok := processNotice notice (msg_Timings msg)
               (Some (mkPosition (msg_Topic msg) (msg_Partition msg) (msg_Offset msg))) in
  match ok with Some false => call (RSleep Second) | _ => ret tt end.
Definition commit_once (msg : kafka_msg) : M unit :=
  let* e := call (RCommit (msg_Offset msg)) in
  match e with Ok _ => ret tt | Fail _ => call (RSleep Second) end.

(** A look at [quit] that finds it open, then at most one of these. *)
Definition turn (w w' : World) : Prop := ∃ w1, call RQuit w = (false, w1) ∧
  (w' = w1 ∨ w' = (fetch_once w1).2 ∨ (∃ msg notice, w' = (attempt_once msg notice w1).2) ∨
   ∃ msg, w' = (commit_once msg w1).2).

(** A look that found [quit] closed. *)
Definition found_closed (ev : event) : Prop :=
  match ev with
  | Ev _ r a => match r in req A return A → Prop with RQuit => λ a, a = true | _ => λ _, False end a
  end.

(** [Run] came from [w0] by turns; it ended at a look that found [quit] closed, or for
    another reason after a turn. *)
Definition ended (w0 : World) (r : run_end) (w' : World) : Prop := ∃ w1, rtc turn w0 w1 ∧
  match r with RunQuit => call RQuit w1 = (true, w') | _ => w' = w1 end.

Lemma path_turn w0 w w' : rtc turn w0 w → turn w w' → rtc turn w0 w'.
Proof. intros. by eapply rtc_r. Qed.

(** A look in a loop whose turns start at [w]. *)
Lemma wp_look {A} (stop : A) (go : M A) (Q : A → World → Prop) w :
  (∀ w', call RQuit w = (true, w') → Q stop w') →
  (∀ w1, call RQuit w = (false, w1) → wp go Q w1) →
  wp (let* quit := call RQuit in if quit then ret stop else go) Q w.
Proof.
  intros Hq Hgo. apply wp_call. intros quit Hquit.
  assert (call RQuit w = (quit, mkWorld (w_env w) (w_chk w) (w_db w) (Ev bool RQuit quit :: w_hist w))) as Hc
    by (unfold call; by rewrite Hquit).
  destruct quit; [apply wp_ret, Hq, Hc|apply Hgo, Hc].
Qed.
(** The turns of the three loops; [w0] is where [Run] started. *)
Context (w0 : World).
Lemma process_turn_looks msg notice offset w : rtc turn w0 w →
  wp (process_turn msg notice offset tt) (λ r w', match r with
    | inr (Some x) => ended w0 x w' | _ => rtc turn w0 w' end) w.
Proof.
  intros Hp. unfold process_turn. apply wp_look; [by exists w|]. intros w1 Hc.
  destruct (_ && _); [apply wp_ret; eapply path_turn, ex_intro; eauto|].
  assert (rtc turn w0 (attempt_once msg notice w1).2) as Ha.
  { eapply path_turn; [exact Hp|]. exists w1. split; [done|]. right; right; left. by exists msg, notice. }
  revert Ha. unfold attempt_once, wp, bind at 2. unfold bind.
  destruct (processNotice _ _ _ w1) as [[[]|] w2]; intros Ha; [done|exact Ha|by exists w2].
Qed.
Lemma commit_turn_looks msg w : rtc turn w0 w →
  wp (commit_turn msg tt) (λ r w', match r with
    | inr (Some x) => ended w0 x w' | _ => rtc turn w0 w' end) w.
Proof.
  intros Hp. unfold commit_turn. apply wp_look; [by exists w|]. intros w1 Hc.
  assert (rtc turn w0 (commit_once msg w1).2) as Ha.
  { eapply path_turn; [exact Hp|]. exists w1. split; [done|]. do 3 right. by exists msg. }
  revert Ha. unfold commit_once, wp, bind. destruct (call (RCommit _) w1) as [[] w2]; intros Ha; exact Ha.
Qed.

Lemma run_turn_looks offset w : rtc turn w0 w →
  wp (run_turn offset) (λ r w', match r with inr x => ended w0 x w' | inl _ => rtc turn w0 w' end) w.
Proof.
  intros Hp. unfold run_turn. apply wp_look; [by exists w|]. intros w1 Hc.
  assert (rtc turn w0 (fetch_once w1).2) as Ha.
  { eapply path_turn; [exact Hp|]. exists w1. split; [done|]. right. by left. }
  unfold fetch_once, bind at 1 in Ha. apply wp_bind. unfold wp at 1.
  destruct (call RFetch w1) as [[msg|er] w2]; cbn [fst snd].
  2: { destruct er; try exact Ha. apply wp_bind. unfold wp at 1. unfold bind in Ha. revert Ha. by destruct (CheckAndNotifyEtcd w2). }
  destruct (msg_Value msg) as [notice|er]; [|exact Ha]. change (rtc turn w0 w2) in Ha.
  apply wp_bind. eapply wp_mono.
  { apply (wp_loopM _ (λ _ w', rtc turn w0 w') (λ r w', match r with
      | Some x => ended w0 x w' | None => rtc turn w0 w' end)); [|exact Ha].
    intros [] w3 Hw3. eapply wp_mono; [by apply process_turn_looks|]. by intros [[]|[]]. }
  intros [u|[x|]] w3 Hw3; [apply wp_ret; by exists w3|by apply wp_ret|].
  apply wp_bind. eapply wp_mono.
  { apply (wp_loopM _ (λ _ w', rtc turn w0 w') (λ r w', match r with
      | Some x => ended w0 x w' | None => rtc turn w0 w' end)); [|exact Hw3].
    intros [] w4 Hw4. eapply wp_mono; [by apply commit_turn_looks|]. by intros [[]|[]]. }
  intros [u|[x|]] w4 Hw4; apply wp_ret; [by exists w4|done|done].
Qed.

Lemma turn_open w w' : turn w w' → w_env w' = w_env w ∧ extends (λ ev, ¬ found_closed ev) (w_hist w) (w_hist w').
Proof.
  intros (w1 & Hc & Hw).
  assert (w_env w1 = w_env w ∧ w_hist w1 = Ev bool RQuit false :: w_hist w) as [He1 Hh1].
  { unfold call in Hc. injection Hc as Ha <-. simpl. by rewrite Ha. }
  assert (w_env w' = w_env w1 ∧ extends ordinary (w_hist w1) (w_hist w')) as [He' Hh'].
  { destruct Hw as [->|[->|[(msg & notice & ->)|(msg & ->)]]]; [split; [done|apply extends_refl]| | |].
    - enough (calm fetch_once) as Hf by apply Hf. unfold fetch_once. calm_tac.
    - enough (calm (attempt_once msg notice)) as Hf by apply Hf. unfold attempt_once. calm_tac.
    - enough (calm (commit_once msg)) as Hf by apply Hf. unfold commit_once. calm_tac. }
  split; [congruence|]. apply (extends_trans _ _ (w_hist w1)).
  - rewrite Hh1. apply extends_one; simpl; congruence.
  - eapply extends_mono, Hh'. intros [A q a]. destruct q; simpl; tauto.
Qed.

(** (C16) [Run] heeds [quit].  However it ends, it came there by turns, each of which first
    looks at [quit], finds it open, and then makes at most one fetch, one attempt at a
    notification or one attempt at a commit: no retry goes on without a look, and no look
    before the last found [quit] closed.  [Run] ends in [RunQuit] exactly at the first look
    that does, and does nothing after it. *)
Theorem run_heeds_quit r w' : Run w0 = (r, w') → ∃ w1,
  rtc turn w0 w1 ∧ extends (λ ev, ¬ found_closed ev) (w_hist w0) (w_hist w1) ∧
  (r = inr RunQuit ∧ call RQuit w1 = (true, w') ∨ r ≠ inr RunQuit ∧ w' = w1).
Proof.
  assert (∀ w1, rtc turn w0 w1 → extends (λ ev, ¬ found_closed ev) (w_hist w0) (w_hist w1)) as Hopen.
  { intros w1. induction 1 as [w|w w2 w3 Ht _ IH]; [apply extends_refl|].
    eapply extends_trans; [by apply turn_open|exact IH]. }
  intros Hr. assert (wp Run (λ r w', match r with inr x => ended w0 x w' | inl _ => rtc turn w0 w' end) w0) as Hw.
  { unfold Run. apply (wp_loopM _ (λ _ w', rtc turn w0 w') (λ x w', ended w0 x w')); [|done].
    intros offset w Hp. by apply run_turn_looks. }
  apply (wp_run _ _ _ _ _ Hw) in Hr. destruct r as [offset|x].
  - exists w'. split; [done|]. split; [by apply Hopen|]. by right.
  - destruct Hr as (w1 & Hp & Hx). exists w1. split; [done|]. split; [by apply Hopen|].
    destruct x; [by left|subst; by right..].
Qed.
End looks.

(** ** The process

    [GRun] is the goroutine of [Run], [GScan] the scan worker, [GCheck] the version check,
    [GWatch] the watchdog of the lock, [GNodes] the watch of the node map and [GHttp] the
    server. *)
Inductive goroutine := GRun | GScan | GCheck | GWatch | GNodes | GHttp.
(** [Exited]: the process has ended, without an error also when [Close] timed out, which
    [main] only logs. *)
Inductive main_phase := Serving | Closing | Exited (timed_out : bool).
(** [RunStopping k]: the first [k] steps of [shutdown] are done. *)
Inductive run_phase := RunLoop | RunStopping (k : nat) | RunDone.

Record proc `{Pebble} := mkProc {
  p_world : World;
  p_main : main_phase;
  p_quit : bool;                 (* quit is closed *)
  p_done : bool;                 (* done is closed *)
  p_run : run_phase;
  p_scan : bool;                 (* the scan worker has not ended *)
  p_check : bool;                (* nor has the version check *)
  p_nodes : bool                 (* nor has the watch of the nodes *)
}.
Arguments mkProc {_} _ _ _ _ _ _ _ _.
Arguments p_world {_} _.
Arguments p_main {_} _.
Arguments p_quit {_} _.
Arguments p_done {_} _.
Arguments p_run {_} _.
Arguments p_scan {_} _.
Arguments p_check {_} _.
Arguments p_nodes {_} _.

Section process.
Context `{Pebble} `{HashText} `{JsonText} `{Rlp} `{BigText} `{HexHash} `{FloatText}.

(** The requests a goroutine makes without the checker's lock.  The watch of the
    nodes reads and watches a prefix, and sleeps before it reads again. *)
Definition asks_for (g : goroutine) {A} (r : req A) : bool :=
  match g, r with
  | GRun, (RFetch | RCommit _ | RSleep _) => true
  | GScan, (RNow | RCtxErr | RSelect _ _ | RS3Get _ | RS3Put _ _ | RS3List _ _ | RSchedule) => true
  | GCheck, (REtcdGet _ | RTick _) => true
  | GWatch, (RKeepAlive _ | RTick _) => true
  | GNodes, (REtcdGet _ | RWatchKey _ _ | RSleep _) => true
  | _, _ => false
  end.

Inductive goroutine_step : goroutine → World → World → Prop :=
  | g_process w notice timings position b w' :
      processNotice notice timings position w = (Some b, w') → goroutine_step GRun w w'
  | g_notify w r w' : CheckAndNotifyEtcd w = (r, w') → goroutine_step GRun w w'
  | g_observe w r w' : observeForkScan w = (r, w') → goroutine_step GScan w w'
  | g_begin w upper generation r w' : beginForkScanBatch upper generation w = (r, w') → goroutine_step GScan w w'
  | g_finish w c p checked r w' : finishForkScanBatch c p checked w = (r, w') → goroutine_step GScan w w'
  | g_lead w r w' : ChangeToChainLeader w = (r, w') → goroutine_step GCheck w w'
  | g_give_up w w' : RevokeChainLeader w = (tt, w') → goroutine_step GCheck w w'
  | g_lost w lease w' : lease_lost lease w = (tt, w') → goroutine_step GWatch w w'
  | g_revoke w w' : RevokeChainLeader w = (tt, w') → goroutine_step GWatch w w'
  | g_query w meth path body rsp : startHTTPServer (Some (w_db w)) meth path body = rsp → goroutine_step GHttp w w
  | g_request g w A (q : req A) a w' : asks_for g q = true → call q w = (a, w') → goroutine_step g w w'.

(** The version check runs in version mode, from the start until it sees [quit].  Nothing
    stops the server. *)
Definition running (g : goroutine) (p : proc) : Prop :=
  match g with
  | GRun => p_run p = RunLoop
  | GScan => p_scan p = true
  | GCheck => p_check p = true
  | GWatch => IsVersionMode (config (w_chk (p_world p))) = true
  | GNodes => p_nodes p = true
  | GHttp => True
  end.

Definition set_world (w : World) (p : proc) : proc :=
  mkProc w (p_main p) (p_quit p) (p_done p) (p_run p) (p_scan p) (p_check p) (p_nodes p).
Definition set_main (m : main_phase) (p : proc) : proc :=
  mkProc (p_world p) m (p_quit p) (p_done p) (p_run p) (p_scan p) (p_check p) (p_nodes p).
Definition set_run (r : run_phase) (p : proc) : proc :=
  mkProc (p_world p) (p_main p) (p_quit p) (p_done p) r (p_scan p) (p_check p) (p_nodes p).

(** [main] until it waits for a signal: [None] is an exit with an error or, in [Some None], a
    start that still waits for the lock. *)
Definition main (listen : string) (configFile : res (Config → Config * option err)) (w : World)
    : option (option proc) :=
  match parseCmdlineAndLoadConfig listen configFile with
  | None => None
  | Some cfg =>
      match NewChecker cfg w with
      | (None, _) => Some None
      | (Some (Fail _), _) => None
      | (Some (Ok _), w') => Some (Some (mkProc w' Serving false false RunLoop true (IsVersionMode cfg) true))
      end
  end.

(** [Close]: it closes [quit] and waits for [done], or for its context, which has ended
    when the second answer is true. *)
Inductive close_step : proc → proc → Prop :=
  | close_quit p : p_main p = Serving →
      close_step p (mkProc (p_world p) Closing true (p_done p) (p_run p) (p_scan p) (p_check p) (p_nodes p))
  | close_done p : p_main p = Closing → p_done p = true → close_step p (set_main (Exited false) p)
  | close_timeout p : p_main p = Closing → close_step p (set_main (Exited true) p).

(** The deferred calls of [Run]: the steps of [shutdown], then [done] is closed. *)
Inductive run_step : proc → proc → Prop :=
  | run_returns p : p_run p = RunLoop → p_quit p = true → run_step p (set_run (RunStopping 0) p)
  | run_stops p k s w' : p_run p = RunStopping k →
      shutdown_steps (config (w_chk (p_world p))) !! k = Some s → (s = WaitScan → p_scan p = false) →
      stop s (p_world p) = (tt, w') → run_step p (set_run (RunStopping (S k)) (set_world w' p))
  | run_done p k : p_run p = RunStopping k →
      shutdown_steps (config (w_chk (p_world p))) !! k = None →
      run_step p (mkProc (p_world p) (p_main p) (p_quit p) true RunDone (p_scan p) (p_check p) (p_nodes p)).

(** [StopWatch] was called. *)
Definition watch_cancelled (p : proc) : Prop :=
  match p_run p with
  | RunLoop => False
  | RunStopping k => CancelWatch ∈ take k (shutdown_steps (config (w_chk (p_world p))))
  | RunDone => True
  end.

(** The scan worker also ends when the scan is switched off.  The watch of the nodes ends
    some time after it was cancelled: it looks at its context only between a watch and the
    next, and may be asleep or reading again. *)
Inductive life_step : proc → proc → Prop :=
  | life_goroutine g p w' : (∀ b, p_main p ≠ Exited b) → running g p → goroutine_step g (p_world p) w' →
      life_step p (set_world w' p)
  | life_scan_ends p : (∀ b, p_main p ≠ Exited b) →
      p_quit p = true ∨ ForkScanInterval (config (w_chk (p_world p))) ≤ 0 ∨ ForkScanLookback (config (w_chk (p_world p))) = 0 →
      life_step p (mkProc (p_world p) (p_main p) (p_quit p) (p_done p) (p_run p) false (p_check p) (p_nodes p))
  | life_check_ends p : (∀ b, p_main p ≠ Exited b) → p_quit p = true →
      life_step p (mkProc (p_world p) (p_main p) (p_quit p) (p_done p) (p_run p) (p_scan p) false (p_nodes p))
  | life_nodes_ends p : (∀ b, p_main p ≠ Exited b) → watch_cancelled p →
      life_step p (mkProc (p_world p) (p_main p) (p_quit p) (p_done p) (p_run p) (p_scan p) (p_check p) false)
  | life_run p p' : (∀ b, p_main p ≠ Exited b) → run_step p p' → life_step p p'
  | life_close p p' : close_step p p' → life_step p p'.
End process.

(** ** The parts are closed in order *)
Section shutdown.
Context `{Pebble} `{HashText} `{JsonText} `{Rlp} `{BigText} `{HexHash} `{FloatText}.
Notation hist p := (w_hist (p_world p)).
Notation cfg_of p := (config (w_chk (p_world p))).

(** What [shutdown] closes. *)
Definition closings (cfg : Config) : list string :=
  ["inner reader"] ++ (if IsVersionMode cfg then ["version writer"] else []) ++
  ["singleton writer"; "etcd"; "consistency db"].
(** What was closed in a history, in order. *)
Definition closed_part (ev : event) : option string :=
  match ev with Ev _ r _ => match r with RClose part => Some part | _ => None end end.
Definition closed_parts (h : list event) : list string := rev (omap closed_part h).

(** The requests of the leadership and of the watch of the nodes, and closings. *)
Definition late_request (ev : event) : Prop :=
  match ev with Ev _ r _ => match r with
    | REtcdGet _ | RTick _ | RKeepAlive _ | RGrant _ | RLockTxn _ _ _ _ | RWatchKey _ _ | RRevoke _ | RSleep _ | RClose _ => True
    | _ => False
    end end.

Lemma closed_parts_app h h' : closed_parts (h ++ h') = closed_parts h' ++ closed_parts h.
Proof. unfold closed_parts. by rewrite omap_app, rev_app_distr. Qed.
Lemma ordinary_parts h : Forall ordinary h → closed_parts h = [].
Proof.
  intros Hf. unfold closed_parts. enough (omap closed_part h = []) as -> by done.
  induction Hf as [|[A r a] h Hr _ IH]; [done|]. by destruct r.
Qed.

Definition steps_done (p : proc) : nat :=
  match p_run p with RunLoop => 0 | RunStopping k => k | RunDone => length (shutdown_steps (cfg_of p)) end.
Definition step_part (s : stop_step) : option string := match s with CloseOf part => Some part | _ => None end.
Lemma steps_parts cfg : omap step_part (shutdown_steps cfg) = closings cfg.
Proof. unfold shutdown_steps, closings. by destruct (IsVersionMode cfg). Qed.

(** What was closed since the start is what the steps taken so far close. *)
Record inv (p0 p : proc) : Prop := {
  iv_cfg : cfg_of p = cfg_of p0;
  iv_scan : steps_done p ≠ 0%nat → p_scan p = false;
  iv_closed : ∃ new, hist p = new ++ hist p0 ∧
    closed_parts new = omap step_part (take (steps_done p) (shutdown_steps (cfg_of p0)));
  iv_done : p_done p = true → p_run p = RunDone;
  iv_exit : p_main p = Exited false → p_done p = true
}.

Lemma calm_lead : calm ChangeToChainLeader.
Proof. unfold ChangeToChainLeader, get_pub, get_config, Acquire, acquire_turn, Release. calm_tac. Qed.
Lemma calm_revoke : calm RevokeChainLeader.
Proof. unfold RevokeChainLeader, get_pub, Release. calm_tac. Qed.
Lemma calm_scan_steps : calm observeForkScan ∧ (∀ u g, calm (beginForkScanBatch u g)) ∧ (∀ c p l, calm (finishForkScanBatch c p l)).
Proof.
  assert (∀ p l n, calm (verify_checked p l n)) as Hv.
  { intros p l. induction l as [|[h x] l IH]; intros n; cbn [verify_checked]; [calm_tac|].
    unfold verifyForkScanBatchHeight, readScanCanonical, get_store, get_batch, get_scan. calm_tac. }
  assert (∀ s, calm (saveForkScan s)) as Hs by apply calm_save.
  split_and!.
  - unfold observeForkScan, get_config, get_scan. calm_tac.
  - intros u g. unfold beginForkScanBatch, get_scan. calm_tac.
  - intros c p l. unfold finishForkScanBatch, get_batch, get_scan, ctxErr. calm_tac.
Qed.

(** A step of a goroutine keeps the configuration and closes nothing. *)
Lemma goroutine_calm g w w' : goroutine_step g w w' →
  config (w_chk w') = config (w_chk w) ∧ extends ordinary (w_hist w) (w_hist w').
Proof.
  destruct calm_scan_steps as (Ho & Hb & Hf).
  assert (∀ A (m : M A) w, ruled m → calm m → config (w_chk (m w).2) = config (w_chk w) ∧
    extends ordinary (w_hist w) (w_hist (m w).2)) as Hrule.
  { intros A m w1 Hr Hc. destruct (Hr w1) as [Hl _], (Hc w1) as [_ He]. unfold leadership in Hl. split; [congruence|done]. }
  destruct 1 as [w notice timings position b w' Hr|w r w' Hr|w r w' Hr|w u gen r w' Hr|w c p l r w' Hr|w r w' Hr|
    w w' Hr|w lease w' Hr|w w' Hr|w meth path body rsp Hr|g w A q a w' Hq Hr].
  6: { split; [by destruct (wp_run _ _ _ _ _ (lead_spec w) Hr)|]. apply (f_equal snd) in Hr. simpl in Hr. subst. apply calm_lead. }
  6,8: split; [by destruct (wp_run _ _ _ _ _ (revoke_spec w) Hr)|]; apply (f_equal snd) in Hr; simpl in Hr; subst; apply calm_revoke.
  6: injection Hr as <-; split; [done|apply extends_refl].
  6: split; [done|apply extends_refl].
  all: apply (f_equal snd) in Hr; simpl in Hr; subst w'.
  - apply Hrule; [apply ruled_process|apply calm_process].
  - apply Hrule; [apply ruled_check_notify|apply calm_check_notify].
  - apply Hrule; [apply ruled_observe|done].
  - apply Hrule; [apply ruled_begin|done].
  - apply Hrule; [apply ruled_finish_batch|done].
  - split; [done|]. apply extends_one. by destruct g, q.
Qed.

Lemma step_lock cfg k : shutdown_steps cfg !! k = Some GiveUpLock → k = 2%nat.
Proof.
  unfold shutdown_steps. do 3 (destruct k as [|k]; [done|]). cbn [app lookup list_lookup].
  intros Hk%list_elem_of_lookup_2. exfalso. destruct (IsVersionMode cfg); simpl in Hk;
    repeat (apply elem_of_cons in Hk as [|Hk]; [done|]); by apply elem_of_nil in Hk.
Qed.
Lemma close_call part w w' : call (RClose part) w = (tt, w') →
  w_hist w' = Ev unit (RClose part) tt :: w_hist w ∧ w_chk w' = w_chk w ∧ w_db w' = w_db w.
Proof. unfold call. destruct (w_env w unit (w_hist w) (RClose part)). by intros [= <-]. Qed.

(** A step of [shutdown] keeps the configuration and closes its own part. *)
Lemma stop_spec s w w' : stop s w = (tt, w') →
  config (w_chk w') = config (w_chk w) ∧
  ∃ new, w_hist w' = new ++ w_hist w ∧ closed_parts new = omap step_part [s].
Proof.
  intros Hm. destruct s as [| | |part]; cbn [stop] in Hm.
  1,2: injection Hm as <-; split; [done|by exists []].
  - split; [by destruct (wp_run _ _ _ _ _ (revoke_spec w) Hm)|].
    destruct (proj2 (calm_revoke w)) as (new & Hn & Hf). rewrite Hm in Hn. exists new. split; [done|].
    by rewrite ordinary_parts.
  - apply close_call in Hm as (Hw & -> & _). split; [done|]. by exists [Ev unit (RClose part) tt].
Qed.

Lemma inv_init listen file w p : main listen file w = Some (Some p) → inv p p.
Proof.
  unfold main. destruct (parseCmdlineAndLoadConfig _ _) as [cfg|]; [|done].
  destruct (NewChecker cfg w) as [[[[]|]|] w1]; try done. intros [= <-].
  split; simpl; try done. by exists [].
Qed.

Lemma closing_step p0 p p' : inv p0 p → life_step p p' → inv p0 p'.
Proof.
  intros [Hc Hs (new & Hh & Hcl) Hd He] Hst.
  destruct Hst as [g p w' Hex Hrun Hg|p Hex Hq|p Hex Hq|p Hex Hq|p p' Hex Hrun|p p' Hclose].
  - destruct (goroutine_calm _ _ _ Hg) as [Hc' (n & Hn & Hf)].
    assert (steps_done (set_world w' p) = steps_done p) as Hsd by (unfold steps_done; simpl; by rewrite Hc').
    split; rewrite ?Hsd; simpl; try done; [congruence|].
    exists (n ++ new). rewrite Hn, Hh, <- app_assoc, closed_parts_app, (ordinary_parts n), app_nil_r by done. done.
  - split; try done. by exists new.
  - split; try done. by exists new.
  - split; try done. by exists new.
  - destruct Hrun as [p Hloop Hq|p k s w' Hk Hsk Hw Hm|p k Hk Hsk]; unfold steps_done in *.
    + rewrite Hloop in *. split; simpl; try done; [by exists new|]. intros Hdone. by apply Hd in Hdone.
    + rewrite Hk in *. destruct (stop_spec s _ _ Hm) as (Hc' & n & Hn & Hp).
      assert (∃ new', w_hist w' = new' ++ hist p0 ∧
        closed_parts new' = omap step_part (take (S k) (shutdown_steps (cfg_of p0)))) as Hnew.
      { exists (n ++ new). rewrite Hn, Hh, <- app_assoc, closed_parts_app, Hcl, Hp. split; [done|].
        rewrite <- Hc, (take_S_r _ _ s), omap_app by done. done. }
      split; try done.
      * simpl. congruence.
      * intros _. simpl. destruct k; [|by apply Hs]. apply Hw. by injection Hsk as <-.
      * intros Hdone. by apply Hd in Hdone.
    + rewrite Hk in *. apply lookup_ge_None in Hsk. split; try done; unfold steps_done; simpl.
      * intros _. apply Hs. intros ->. unfold shutdown_steps in Hsk. simpl in Hsk. lia.
      * exists new. split; [done|]. rewrite Hcl, Hc, take_ge, take_ge; [done|done|congruence].
  - destruct Hclose as [p Hm|p Hm Hp|p Hm]; split; try done; by exists new.
Qed.

Lemma inv_reach listen file w p0 p : main listen file w = Some (Some p0) → rtc life_step p0 p → inv p0 p.
Proof.
  intros Hm Hr. apply inv_init in Hm. eapply (rtc_ind_r (λ p, inv p0 p) p0); [done| |exact Hr].
  intros p1 p2 _ Hst Hi. by eapply closing_step.
Qed.

(** After the reader was closed neither [Run] nor the scan worker is running. *)
Definition drained (p : proc) : Prop := p_run p ≠ RunLoop ∧ p_scan p = false.
Lemma closed_drained p0 p new : inv p0 p → hist p = new ++ hist p0 → "inner reader" ∈ closed_parts new → drained p.
Proof.
  intros Hi Hn Hin. destruct (iv_closed _ _ Hi) as (new' & Hn' & Hcl). rewrite Hn in Hn'.
  apply app_inv_tail in Hn' as <-. rewrite Hcl in Hin. assert (steps_done p ≠ 0%nat) as Hk.
  { intros H0'. rewrite H0' in Hin. by apply elem_of_nil in Hin. }
  split; [|by apply (iv_scan _ _ Hi)]. intros Hl. unfold steps_done in Hk. by rewrite Hl in Hk.
Qed.

(** What the leadership does leaves the database alone. *)
Definition leader_only {A} (m : M A) : Prop := keeps w_db m ∧ emits late_request m.
Lemma lead_only : leader_only ChangeToChainLeader ∧ leader_only RevokeChainLeader ∧ ∀ lease, leader_only (lease_lost lease).
Proof.
  assert (∀ l, keeps w_db (Release l)) as Hr by (intros l; unfold Release; keeps_tac).
  assert (∀ l, emits late_request (Release l)) as Hr' by (intros l; unfold Release; emits_tac; exact Logic.I).
  assert (∀ l, keeps w_db (Acquire l)) as Ha by (intros l; unfold Acquire, acquire_turn; keeps_tac).
  assert (∀ l, emits late_request (Acquire l)) as Ha'
    by (intros l; unfold Acquire, acquire_turn; emits_tac; first [exact Logic.I|apply Hr']).
  assert (∀ f, keeps w_db (modify_pub f)) as Hm by done.
  unfold leader_only, ChangeToChainLeader, RevokeChainLeader, get_pub, get_config.
  split; [|split; [|by intros lease; split; [|intros w; apply extends_refl]]];
    (split; [keeps_tac|emits_tac; first [apply Ha'|apply Hr']]).
Qed.

Lemma drained_step p p' : drained p → life_step p p' → drained p' ∧ w_db (p_world p') = w_db (p_world p) ∧
  extends late_request (hist p) (hist p').
Proof.
  intros [Hl Hs] Hst.
  destruct Hst as [g p w' Hex Hrun Hg|p Hex Hq|p Hex Hq|p Hex Hq|p p' Hex Hrun|p p' Hclose].
  - split; [done|]. simpl. destruct lead_only as ([Hd1 He1] & [Hd2 He2] & Hlost).
    destruct Hg as [w notice timings position b w' Hg|w r w' Hg|w r w' Hg|w u gen r w' Hg|w c q l r w' Hg|w r w' Hg|
      w w' Hg|w lease w' Hg|w w' Hg|w meth path body rsp Hg|g w A q a w' Hq Hg]; try (simpl in Hrun; congruence).
    1-4: apply (f_equal snd) in Hg; simpl in Hg; subst w'; split; first [apply Hd1|apply He1|apply Hd2|apply He2|apply Hlost].
    { split; [done|apply extends_refl]. }
    injection Hg as _ <-. split; [done|]. apply extends_one. destruct g, q; try done; simpl in *; congruence.
  - split; [done|]. split; [done|apply extends_refl].
  - split; [done|]. split; [done|apply extends_refl].
  - split; [done|]. split; [done|apply extends_refl].
  - destruct Hrun as [p Hloop Hq|p k s w' Hk Hsk Hw Hm|p k Hk Hsk]; [done| |].
    + split; [done|]. simpl. destruct s as [| | |part]; cbn [stop] in Hm.
      1,2: injection Hm as <-; split; [done|apply extends_refl].
      * destruct lead_only as (_ & [Hd He] & _). apply (f_equal snd) in Hm. simpl in Hm. subst w'. split; [apply Hd|apply He].
      * apply close_call in Hm as (-> & _ & ->). split; [done|by apply extends_one].
    + split; [done|]. split; [done|apply extends_refl].
  - destruct Hclose; (split; [done|split; [done|apply extends_refl]]).
Qed.

Lemma drained_reach p p' : rtc life_step p p' → drained p →
  w_db (p_world p') = w_db (p_world p) ∧ extends late_request (hist p) (hist p').
Proof.
  induction 1 as [p|p p1 p2 Hst _ IH]; intros Hd; [split; [done|apply extends_refl]|].
  destruct (drained_step _ _ Hd Hst) as (Hd1 & Hdb & He). destruct (IH Hd1) as [Hdb' He']. split; [congruence|].
  by eapply extends_trans.
Qed.

(** (C15) The shutdown is orderly.  In any interleaving of the goroutines of a process that
    [main] started, the parts are closed one by one in the order of [closings], each once:
    the reader, the writers, the etcd client, the database; all of them when [Close]
    returned before its deadline, possibly not all when it timed out.  Once the reader is
    closed no message, object, replica or block is touched any more: the goroutines that
    are left, the version check, the watchdog and the watch of the nodes, ask etcd for
    what the leadership and the node map need, also after the etcd client was closed, and
    the server reads the database; the database stays as it is. *)
Theorem shutdown_is_last listen file w p0 p : main listen file w = Some (Some p0) → rtc life_step p0 p →
  ∃ new, hist p = new ++ hist p0 ∧
    closed_parts new `prefix_of` closings (cfg_of p0) ∧
    (p_main p = Exited false → closed_parts new = closings (cfg_of p0)) ∧
    ("inner reader" ∈ closed_parts new → ∀ p', rtc life_step p p' →
       w_db (p_world p') = w_db (p_world p) ∧ extends late_request (hist p) (hist p')).
Proof.
  intros Hm Hr. pose proof (inv_reach _ _ _ _ _ Hm Hr) as Hi. destruct (iv_closed _ _ Hi) as (new & Hn & Hcl).
  exists new. rewrite Hcl, <- steps_parts. split; [done|]. split; [|split].
  - rewrite <- (take_drop (steps_done p) (shutdown_steps (cfg_of p0))) at 2. rewrite omap_app. by apply prefix_app_r.
  - intros He. unfold steps_done. by rewrite (iv_done _ _ Hi (iv_exit _ _ Hi He)), (iv_cfg _ _ Hi), take_ge.
  - rewrite <- Hcl. intros Hc p' Hr'. by eapply drained_reach, closed_drained.
Qed.

(** *** The database after a start

    The store is what lies in the directory; the latest block is unknown until the next
    write, whatever the index holds. *)
Lemma opened_db w : wp open_parts (λ r w', r = Ok tt → w_db w' = mkCDB (cdb_store (w_db w)) None) w.
Proof.
  assert (∀ l, keeps w_db (open_all l)) as Ho by (intros l; induction l; cbn [open_all]; keeps_tac).
  unfold open_parts, open_db. generalize ["outer s3"; "etcd"; "node map"]. intros l. specialize (Ho l).
  apply wp_bind, wp_call. intros a _. unfold with_db, wp at 1.
  destruct a as [u|er]; simpl; [|by apply wp_ret]. unfold wp. by rewrite Ho.
Qed.
Theorem restart_forgets_latest cfg w w' :
  NewChecker cfg w = (Some (Ok tt), w') → w_db w' = mkCDB (cdb_store (w_db w)) None.
Proof.
  enough (wp (NewChecker cfg) (λ r w', r = Some (Ok tt) → w_db w' = mkCDB (cdb_store (w_db w)) None) w) as Hw
    by (intros Hn; by apply (wp_run _ _ _ _ _ Hw Hn)).
  unfold NewChecker. destruct (Validate cfg); [by apply wp_ret|].
  assert (∀ d, keeps w_db (GetLastOuterBlockNotice d)) as Hg by (intros d; unfold GetLastOuterBlockNotice; keeps_tac).
  assert (keeps w_db loadForkScan) as Hl by (unfold loadForkScan, get_config, get_store, get_pub, get_scan; keeps_tac; by intros ?).
  assert (keeps w_db InitLeaderFromEtcd) as Hi
    by (unfold InitLeaderFromEtcd, get_config; keeps_tac; apply lead_only).
  apply wp_bind. eapply wp_mono; [apply opened_db|]. intros [[]|er] w1 Hw1; [|by apply wp_ret]. specialize (Hw1 eq_refl).
  apply wp_bind. unfold wp at 1. simpl. set (w2 := mkWorld _ _ _ _).
  specialize (Hg (if IsVersionMode cfg then outerVersion else outerSingleton) w2).
  apply wp_bind. unfold wp at 1. destruct (GetLastOuterBlockNotice _ w2) as [[notice|er] w3]; [|done]. simpl in Hg |- *.
  apply wp_bind. unfold wp at 1. simpl. set (w4 := mkWorld _ _ _ _). specialize (Hl w4).
  apply wp_bind. unfold wp at 1. destruct (loadForkScan w4) as [[[]|er] w5]; [|done]. simpl in Hl |- *.
  assert (w_db w5 = mkCDB (cdb_store (w_db w)) None) as Hdb by (rewrite Hl; simpl; by rewrite Hg).
  destruct (IsVersionMode cfg); [|by apply wp_ret]. specialize (Hi w5). unfold wp. intros _. by rewrite Hi.
Qed.

(** *** A clean exit *)
Notation alive p := (∀ b, p_main p ≠ Exited b).

(** The rest of [shutdown] always runs; from the fourth step on the checker stays. *)
Lemma stops n : ∀ p k, p_run p = RunStopping k → p_scan p = false → p_main p = Closing →
  (length (shutdown_steps (cfg_of p)) ≤ k + n)%nat →
  ∃ p', rtc life_step p p' ∧ p_main p' = Exited false ∧ ((3 ≤ k)%nat → w_chk (p_world p') = w_chk (p_world p)).
Proof.
  induction n as [|n IH]; intros p k Hk Hs Hm Hn; (assert (alive p) as Ha by congruence);
    destruct (shutdown_steps (cfg_of p) !! k) as [s|] eqn:Es.
  1: { apply lookup_lt_Some in Es. lia. }
  2: { set (w' := (stop s (p_world p)).2). assert (stop s (p_world p) = (tt, w')) as Hst
         by (unfold w'; by destruct (stop s (p_world p)) as [[] ?]).
       destruct (IH (set_run (RunStopping (S k)) (set_world w' p)) (S k)) as (p' & Hp' & He & Hc); [done..| |].
       { change (cfg_of (set_run (RunStopping (S k)) (set_world w' p))) with (config (w_chk w')).
         rewrite (proj1 (stop_spec _ _ _ Hst)). lia. }
       exists p'. split; [|split; [done|]].
       - eapply rtc_l; [|exact Hp']. apply life_run; [done|]. by eapply run_stops.
       - intros Hle. rewrite Hc by lia. simpl. destruct s as [| | |part].
         1,2: done.
         { apply step_lock in Es. lia. }
         by apply close_call in Hst as (_ & -> & _). }
  all: eexists; split; [|split; [|intros _]].
  1,4: eapply rtc_l; [apply life_run; [done|by eapply run_done]|]; apply rtc_once, life_close, close_done; done.
  all: done.
Qed.

(** The version check does not end before the shutdown does, and may take up the leadership
    that [shutdown] has just given up: the process then exits without an error while it holds
    the lock, which stays taken until its lease ends. *)
Definition granting (e : env) : Prop :=
  (∀ h ttl, ∃ lease, e _ h (RGrant ttl) = Ok lease) ∧ ∀ h k vk v l, e _ h (RLockTxn k vk v l) = Ok LockTaken.

Lemma granted w : granting (w_env w) → is_Some (etcdLock (pub (w_chk (ChangeToChainLeader w).2))).
Proof.
  intros [Hg Ht]. change (wp ChangeToChainLeader (λ _ w', is_Some (etcdLock (pub (w_chk w')))) w).
  unfold ChangeToChainLeader. apply wp_bind. unfold wp at 1. simpl.
  destruct (etcdLock (pub (w_chk w))) as [l|] eqn:El; [apply wp_ret; eauto|].
  apply wp_bind. unfold wp at 1. simpl. apply wp_bind. unfold Acquire. apply wp_call. intros a Ha.
  destruct (Hg (w_hist w) (l_ttl (set_cancel true (lock_of (config (w_chk w)))))) as [lease Hl]. rewrite Hl in Ha. subst a.
  apply wp_bind, wp_loop_stop. unfold acquire_turn. apply wp_call. intros a Ha. simpl in Ha. rewrite Ht in Ha. subst a.
  simpl. apply wp_ret. eexists. split; [done|]. apply wp_ret. apply wp_bind. unfold wp at 1. simpl. apply wp_ret. simpl. eauto.
Qed.

Theorem lock_survives_shutdown p : p_main p = Serving → p_run p = RunLoop → p_check p = true →
  granting (w_env (p_world p)) →
  ∃ p', rtc life_step p p' ∧ p_main p' = Exited false ∧ is_Some (etcdLock (pub (w_chk (p_world p')))).
Proof.
  intros Hm Hl Hc Hg. set (p1 := mkProc (p_world p) Closing true (p_done p) (RunStopping 0) false true (p_nodes p)).
  assert (rtc life_step p p1) as Hp1.
  { eapply rtc_l; [by apply life_close, close_quit|]. eapply rtc_l; [apply life_scan_ends; [done|by left]|].
    apply rtc_once. apply life_run; [done|]. unfold p1. rewrite <- Hc. by apply (run_returns (mkProc _ _ _ _ (p_run p) _ _ _)). }
  assert (∀ q k s, p_main q = Closing → p_run q = RunStopping k → p_scan q = false →
    shutdown_steps (cfg_of q) !! k = Some s →
    life_step q (set_run (RunStopping (S k)) (set_world (stop s (p_world q)).2 q))) as Hstop.
  { intros q k s Hq Hk Hs Hst. apply life_run; [congruence|]. eapply run_stops; [done|done|done|].
    by destruct (stop s (p_world q)) as [[] ?]. }
  set (w2 := p_world p). set (w3 := (stop GiveUpLock w2).2). set (w4 := (ChangeToChainLeader w3).2).
  set (at_ := λ k w, mkProc w Closing true (p_done p) (RunStopping k) false true (p_nodes p)).
  assert (rtc life_step p1 (at_ 3%nat w4)) as Hp4.
  { eapply rtc_l; [by apply (Hstop p1 0%nat WaitScan)|].
    eapply rtc_l; [by apply (Hstop (at_ 1%nat w2) 1%nat CancelWatch)|].
    eapply rtc_l; [by apply (Hstop (at_ 2%nat w2) 2%nat GiveUpLock)|]. apply rtc_once.
    apply (life_goroutine GCheck (at_ 3%nat w3)); [done|done|]. eapply g_lead, surjective_pairing. }
  assert (is_Some (etcdLock (pub (w_chk w4)))) as Hlock.
  { apply granted. unfold w3. cbn [stop]. by rewrite (proj1 (calm_revoke w2)). }
  destruct (stops (length (shutdown_steps (cfg_of (at_ 3%nat w4)))) (at_ 3%nat w4) 3) as (p' & Hp' & He & Hchk); [done..|lia|].
  exists p'. split; [|split; [done|]].
  - by do 2 (etrans; [eassumption|]).
  - by rewrite Hchk by lia.
Qed.
End shutdown.

(** ** Witnesses *)
Module LifecycleDemo.
#[local] Existing Instances mem_pebble demo_rlp demo_hash_text demo_json_text ProcessDemo.demo_big_text demo_hex demo_float.
Definition file : res (Config → Config * option err) := Ok demo_yaml.
Definition w0 : World := ServiceDemo.w0.
Definition cfg : Config := default defaultConfig (parseCmdlineAndLoadConfig "" file).
Definition p0 : proc := mkProc (NewChecker cfg w0).2 Serving false false RunLoop true true true.
(** [quit] is closed after 40 requests; until then every fetch fails. *)
Definition e : env := λ A h r,
  match r in req A return A with
  | RQuit => (40 <=? length h)%nat
  | RFetch => Fail (ErrMsg "EOF")
  | r => ServiceDemo.e _ h r
  end.
Definition w : World := mkWorld e (w_chk ServiceDemo.w1) (w_db ServiceDemo.w1) [].

Lemma started : main "" file w0 = Some (Some p0).
Proof.
  unfold main. replace (parseCmdlineAndLoadConfig "" file) with (Some cfg) by reflexivity.
  assert (NewChecker cfg w0 = (Some (Ok tt), (NewChecker cfg w0).2)) as Hn by (apply run_eq; vm_compute; reflexivity).
  rewrite Hn. reflexivity.
Qed.
End LifecycleDemo.

Section lifecycle_witnesses.
#[local] Existing Instances mem_pebble demo_rlp demo_hash_text demo_json_text ProcessDemo.demo_big_text demo_hex demo_float.
Import LifecycleDemo.

Lemma run_heeds_quit_witness : ∃ w' w1, Run w = (inr RunQuit, w') ∧ rtc turn w w1 ∧ call RQuit w1 = (true, w').
Proof.
  assert ((Run w).1 = inr RunQuit) as Hq by (vm_compute; reflexivity).
  pose proof (run_eq (Run w) _ Hq) as Er.
  destruct (run_heeds_quit w (inr RunQuit) _ Er) as (w1 & Hp & _ & [[_ He]|[Hne _]]); [|by destruct Hne].
  eexists _, w1. split; [exact Er|]. split; [exact Hp|exact He].
Defined.
Lemma run_returns_witness : ∃ r w', Run w = (inr r, w') ∧ r ≠ RunForever.
Proof.
  apply (run_quits e 40); [|reflexivity|reflexivity]. intros h Hh. apply (proj2 (Nat.leb_le 40 (length h)) Hh).
Defined.
Lemma shutdown_is_last_witness : ∃ p new, p_main p = Exited false ∧ w_hist (p_world p) = new ++ w_hist (p_world p0) ∧
  closed_parts new = ["inner reader"; "version writer"; "singleton writer"; "etcd"; "consistency db"].
Proof.
  destruct (lock_survives_shutdown p0) as (p & Hp & He & _); [done|done|done| |].
  { split; [intros h ttl; by exists 1|done]. }
  destruct (shutdown_is_last "" file w0 p0 p started Hp) as (new & Hn & _ & Hc & _).
  exists p, new. split; [exact He|]. split; [exact Hn|]. rewrite (Hc He). vm_compute. reflexivity.
Defined.
End lifecycle_witnesses.
